(* ===== verification/_CoqProject ===== *)
-Q . S2P
Prelude.v
StringView.v
AsyncMutex.v
FsPath.v
RunLoop.v
App.v
AppExit.v
Reentry.v
TimerBackend.v
ThreadTimer.v
ExecLoop.v
SigHub.v
Rtt.v
Udp.v
Log.v
FsDrive.v
SigWire.v
DcRtc.v
WsClient.v
WsServer.v
JsWs.v
JsRtc.v
Http.v
HttpLite.v
Asio.v
Boot.v
RunTask.v
LogTime.v
LogFront.v
SigNet.v
UdpDemo.v
Service.v
NgHttp.v
PeerDemo.v
ReadDemo.v
LoopDemo.v
HttpDemo.v
ExecDemo.v
Programs.v
RtcConfig.v
ThreadExec.v
