(* ===== verification/Prelude.v ===== *)
(** * tx-pkg-aux: a verification library

    tx-pkg-aux is a set of C++ packages for interactive programs that run on
    desktop, Android and in the browser: a frame loop and its runners, an
    executor on that loop with timers and cooperative stop, real-time transports
    (UDP and WebRTC) with their signaling, HTTP clients, a virtual file system and
    a logger.
    This library models the logic of these packages as Rocq functions and
    transition relations and proves what makes them correct. Source paths below
    are relative to [src/pkg/].

    ** The parts and how they interact

    A runner ([app/App]) drives one handler ([runloop/RunLoop]) frame by frame
    until it is asked to exit; a [CompositeHandler] combines handlers; the
    [Domain] of [exec/Exec] is the handler that runs sender/receiver pipelines:
    each frame ticks its timer backend and drains its queue, and its [Stop]
    completes what is left with [set_stopped]. The transports of [rtt] show
    links to an acceptor and deliver data to link handlers; the WebRTC ones
    negotiate through a signaling channel, which is the in-process [SigHub], or
    a WebSocket client and server in front of such a hub. The domain of [asio]
    is another handler, which polls an [io_context] with a main coroutine; the
    HTTP clients ([http]) run on such a context or on the browser's fetch. [fs]
    resolves and reads files through stacked drives; [log] fans messages out to
    sinks; [boot] is what a program does before its runner.

    ** The files

    - [Prelude]: [std::expected], the outcome of a call that runs foreign code
      (it returns, it is still running when the fuel is used up, or the process
      is gone), 64-bit wrap-around, tactics, the hint database [tx], list lemmas.
    - [StringView]: [std::string_view] as used by [FsPath] and [Log]; [substr]
      out of range is [None].
    - [AsyncMutex]: [async/Async/Mutex.h]: threads that lock through guards, as a
      transition relation.
    - [FsPath]: [fs/Fs/Path.cpp], the four views of a path. [FsDrive]:
      [Drive.h] as a record of operations; [NativeDrive], [OverlayDrive],
      [RunfilesDrive], [AndroidDrive] and [System::MakeDefaultDrive] over a
      file system that is a parameter; its [exists] may throw.
    - [RunLoop]: [UpdateCtx] (frame and session clocks), [Runner] (exit codes),
      [CompositeHandler]. [App]: [TightRunner::Run] and the browser's
      [WasmRunner] over any handler (the class [HandlerOps]). [Reentry]:
      [CompositeHandler] again, with children that add, remove and exit inside
      their callbacks and with the iterators of the intrusive list, as a handler
      for those runners. [AppExit]: [Factory.cpp], and the exit code of the process
      in the browser build of the blocking runner.
    - [TimerBackend]: the interface [ITimerBackend] as a class with laws on the
      abstract map of pending timers, and [LoopTimerBackend], which satisfies
      them. [ThreadTimer]: [ThreadTimerBackend] as a transition relation of its
      lock-level steps, for any number of clients, which refines the interface.
    - [ExecLoop]: [PureLoopContext], [TimedLoopContext], [TimedOperation] and
      [Domain], against the timer interface and an interface for the lock-free
      queue, for backends whose callbacks run inside [Tick]; user code is a
      parameter that reacts to completions with actions. [ThreadExec]: a domain
      with its default backend, the statements of the loop thread and of the timer
      thread interleaved.
      [RunTask]: [RunTask.h], what the environment of a coroutine task is and
      which programs of tasks compile.
    - [Asio]: [AsioDomain], [AsioPoller], as a handler for the runners of [App],
      over a parameter for [io_context].
    - [Http]: [BeastLiteClient], [TcpConnection], [SslConnection], [CstrView]. The
      request coroutine is a computation in an effect monad over a parameter for
      Asio, Beast, OpenSSL and ada, with rules for weakest preconditions; the
      protocol it follows is an automaton over the calls it makes. [HttpLite]: the
      callback interface: [AsioLiteClient] with its stop bridge, and the two
      browser clients with their heap.
    - [Rtt]: [Error.h], [Handler.h] and lemmas on traces. [Udp]: [UdpLink],
      [UdpServer], [UdpClient].
    - [SigHub]: [SigHub.cpp], [LocalSigClient.cpp], with the locks and object
      lifetimes of one thread. [SigWire]: the JSON texts of the signaling
      channel, over an interface for nlohmann::json with its documented laws and
      an implementation [Toy] that satisfies them. [WsClient]:
      [DcWsSigClient.cpp] as interleaved atomic actions. [WsServer]:
      [DcWsSigServer.cpp] as an application of the hub model. [SigNet]: any number
      of these clients and the server joined by WebSockets that deliver in order
      or lose what is under way, as a transition relation. [RtcConfig]: options and
      factories, the ICE servers as each build gets them, and the URL of a client
      up to the identifier the server registers.
    - [DcRtc]: [DcRtcLink.cpp] and [DcRtcTransport.cpp]; libdatachannel is the
      environment. [JsWs] and [JsRtc]: the browser build
      ([Js/JsWsSigClient.cpp], [Js/JsRtcTransport.cpp]) with an explicit heap,
      the JavaScript maps and the browser's events; an access to freed memory is
      a crash of the model. The application's callbacks make calls of their own.
    - [Log]: the startup buffer and the sink list ([StartupSink.h], [Sink.cpp]),
      area and function names ([Details/Format.cpp], [Path.cpp]). [LogFront]: the
      logging functions ([Log.h], [Src.h]) and scope guards ([Scope.h]).
      [LogTime]: human-readable durations ([Time.cpp]), with the arithmetic in
      double precision and the formatting done exactly.
    - [UdpDemo]: the UDP client and server programs of [src/demo/pkg/rtt/udp], as
      applications of [Udp]. [HttpDemo]: the program of [src/demo/pkg/http], its
      coroutine, handlers and channel, in a domain of [Asio] under a runner of
      [App]. [ExecDemo]: tasks that await one sender of the scheduler after the
      other, such as that of [src/demo/pkg/exec], as user code of [ExecLoop], in a
      domain that is given a [LoopTimerBackend].
      [Programs]: [src/demo/pkg/fs] over [FsDrive] and [src/demo/pkg/boot] over
      [Boot]. Of [src/demo/try]: [Service], objects with a worker
      thread ([exec/hello_opstate.cpp], [exec/hello_service_pure.cpp]) as the steps
      of two threads; [ReadDemo], services that read files through a cache
      ([exec/hello_read.cpp]) as interleaved steps; [NgHttp], HTTP/1.1 and HTTP/2 clients ([http-nghttp2]) in a
      monad that counts the handles they own, with reads and writes that may block
      for ever; [PeerDemo], the data channel client
      ([datachannel/ws/wsclient.cpp]); [LoopDemo], trees of updaters
      ([loop/main.cpp]).
    - [Boot]: [CliArgs], the start-up header and build description, one-time
      initialisation, the handlers for abort and terminate.

    State is explicit: one record per component, its operations functions on
    it, with the guards and early returns of the code. Application code
    (handlers, acceptors, callbacks, coroutines) is a parameter that answers a
    call with the calls it makes in turn, and these run nested where the code
    calls synchronously. What crosses the boundary of a component is recorded in
    a trace, and the theorems on behaviour are about traces. A model of an
    object with raw or weak pointers has the store and the references.

    ** What the theorems show

    - Executor: between frames every started operation has been completed
      exactly once or waits for its own pending timer; none is completed early;
      due ones are completed by the drain; [Stop] completes the rest, leaves
      nothing behind and returns; a whole run of a domain under the blocking
      runner is clean. This is for backends driven by [Tick] and user code that
      destroys only what it owns. A sequential task ends, with its code and not
      before its delays have passed. With the default backend, such a task runs
      its operations in order and not too early in every interleaving of the two
      threads that stops the domain after its end; a stop before it can overtake a
      timer ([stop_overtakes_timer]).
    - Mutexes: threads that lock through guards, in a fixed order, never misuse a
      mutex, do not share a guarded variable and do not deadlock.
    - Timers: both backends implement the interface; a cancelled callback never
      runs, a tick fires exactly what is due, in order, and returns.
    - Loop: starting a composite starts all children or rolls back; starts and
      stops balance along every history; a run has the frames, the stop and the
      exit code it should. Children that add and exit while the intrusive list is
      walked still see the protocol.
    - Transports: life cycle of links (shown before used, one disconnect,
      silence after it), candidate buffering, inbound accounting, demultiplexing,
      both ends of the negotiation understanding each other.
    - Signaling: order and conservation of messages, relaying through the
      server, absence of deadlock in the server, round trip of the envelope; end
      to end, one history of relays explains what every client sent and got; a
      client is registered under its own identifier.
    - Browser build: no use after free and no double free, for applications that
      keep what the browser may still refer to; what happens to others is stated
      too ([close_event_after_release]).
    - HTTP: every request follows the protocol of its URL and its result is the
      one the run dictates; no socket is left open; the handler is called once,
      for every interleaving with stop requests and browser events.
    - Asio domain: where the exit code comes from, alone and under the runner.
    - Tasks: which nestings compile, and that every task sees the domain's stop.
    - Start-up: integer arguments, the header for any stamped values, one report
      for an abnormal end, initialisation once.
    - HTTP program: its exit code is the number of failed requests for every order
      of answers, and no local of its coroutine is used after the end.
    - UDP programs: the bridge between callbacks and coroutines is a queue that
      loses nothing, the client's exit code tells what its link reported first,
      and a keep-alive server mixes up its sessions.
    - Experiments: a service's destructor returns, for every interleaving of the
      owner and the worker, and no member is used outside its lifetime; cached reads
      are true and a service ends as it should, for every interleaving; an HTTP
      request releases every handle however it returns, and its response is what
      the peer sent; signaling reaches the connection of its sender; trees
      of updaters keep the protocol of their leaves.
    - Files and logs: round trips of paths, order of lookup, coherence of size
      and content, what each sink gets to see, the line a logger gives, the error
      of a printed duration.
    - Behaviour that differs from what the code or its comments intend is stated
      as theorems too (names such as [exit_during_start_is_lost],
      [self_cancel_deadlocks], [close_frees_two_slots]): each gives the
      circumstances and the effect.

    ** Bounds and fuel

    Loops that run foreign code take fuel; [Running] is the outcome when it is
    used up. Where the code must return, that is proved with explicit fuel: one
    unit per pending timer, live operation and operation still to be started
    for a drain ([DrainQueue_terminates], [Stop_terminates]); one per due timer
    for a tick ([tick_drains_due]); the constant 3 for the server's calls on the
    hub, whose handlers make no calls ([server_never_blocks]); 2 for the abort
    handlers ([one_report_and_exit]); twice the number of children for the walks
    of a composite ([walks_are_list_walks]); one more than the chunks the peer
    sends for the read loops of [NgHttp], which block when a silent peer
    leaves none; one more than the awaits of a task for its drains
    ([sequential_task_ends]). Timer ids are 64-bit and wrap; theorems that
    need fresh ids assume fewer than 2^64 of them.
    Clocks are integers (Z), as are time points.

    ** What is not modelled

    The third-party libraries (stdexec, Boost.Asio, libdatachannel, spdlog,
    nlohmann::json, the runfiles library, Emscripten and the browser): they are
    parameters, interfaces with laws, or the environment that supplies the
    inputs. The annotations of [async/Async/ThreadSafety.h] have no behaviour.
    Logging calls have no effect on the models. Threads are modelled in
    [AsyncMutex], [ThreadTimer], [ThreadExec], [WsClient], [HttpLite.AsioLite], [Service] and
    [ReadDemo]; elsewhere a callback is atomic, as with one thread. Not modelled
    are the printing of stack traces and the logging of socket endpoints and TLS
    sessions. The demo
    programs under [src/demo] that are not named above are examples without
    state of their own, or experiments with third-party libraries. *)

From stdpp Require Export base gmap gmultiset strings list fin_maps sorting relations.
From Stdlib Require Export ZArith Lia.

(** ** Automation *)

(** The hint database of the development: lemmas that close the common
    side goals of the components (lengths, bounds, membership). *)
Create HintDb tx.

(** Split the scrutinee of a [match] or of a boolean [if] in the goal or in a
    hypothesis, keeping the equation. *)
Ltac split_match :=
  match goal with
  | |- context [match ?x with _ => _ end] => destruct x eqn:?
  | H : context [match ?x with _ => _ end] |- _ => destruct x eqn:?
  end.

(** Turn the boolean tests of the code into the propositions they decide. *)
Ltac reflect_bools :=
  repeat match goal with
  | H : andb _ _ = true |- _ => apply andb_prop in H as [? ?]
  | H : orb _ _ = false |- _ => apply orb_false_elim in H as [? ?]
  | H : negb _ = true |- _ => apply negb_true_iff in H
  | H : negb _ = false |- _ => apply negb_false_iff in H
  | H : (_ <=? _)%Z = true |- _ => apply Z.leb_le in H
  | H : (_ <=? _)%Z = false |- _ => apply Z.leb_gt in H
  | H : (_ <? _)%Z = true |- _ => apply Z.ltb_lt in H
  | H : (_ <? _)%Z = false |- _ => apply Z.ltb_ge in H
  | H : (_ =? _)%Z = true |- _ => apply Z.eqb_eq in H
  | H : (_ =? _)%Z = false |- _ => apply Z.eqb_neq in H
  | H : (_ <=? _)%nat = true |- _ => apply Nat.leb_le in H
  | H : (_ <=? _)%nat = false |- _ => apply Nat.leb_gt in H
  | H : (_ =? _)%nat = true |- _ => apply Nat.eqb_eq in H
  | H : (_ =? _)%nat = false |- _ => apply Nat.eqb_neq in H
  | H : bool_decide _ = true |- _ => apply bool_decide_eq_true in H
  | H : bool_decide _ = false |- _ => apply bool_decide_eq_false in H
  end.

(** ** Results and machine integers *)

(** [std::expected<A, E>]. *)
Inductive expected (A E : Type) : Type :=
| Value (a : A)
| Unexpected (e : E).
Arguments Value {A E} a.
Arguments Unexpected {A E} e.

Definition has_value {A E} (r : expected A E) : bool :=
  match r with Value _ => true | Unexpected _ => false end.

(** The outcome of a call that runs user code: it returns, it is still running
    when the fuel is used up, or the process is gone ([std::terminate], a
    violated precondition, an access to freed memory). *)
Inductive outcome (A : Type) : Type :=
| Ret (a : A)
| Running
| Crash.
Arguments Ret {A} a.
Arguments Running {A}.
Arguments Crash {A}.

Definition obind {A B} (m : outcome A) (k : A -> outcome B) : outcome B :=
  match m with Ret a => k a | Running => Running | Crash => Crash end.

Declare Scope outcome_scope.
Delimit Scope outcome_scope with outcome.
Notation "'let!' x := m 'in' k" := (obind m (fun x => k))
  (at level 10, x pattern, m at level 100, k at level 200) : outcome_scope.

Lemma obind_Ret {A B} (m : outcome A) (k : A -> outcome B) b :
  obind m k = Ret b -> exists a, m = Ret a /\ k a = Ret b.
Proof. destruct m; simpl; naive_solver. Qed.

(** [std::uint64_t] arithmetic wraps modulo 2^64. *)
Definition wrap64 (z : Z) : Z := (z mod 2 ^ 64)%Z.

Lemma wrap64_small z : (0 <= z < 2 ^ 64)%Z -> wrap64 z = z.
Proof. apply Z.mod_small. Qed.

(** ** Lists *)

Section Lists.
Context {A : Type}.
Implicit Types l : list A.

Lemma lookup_last_snoc l x : (l ++ [x]) !! length l = Some x.
Proof. rewrite lookup_app_r by lia. by rewrite Nat.sub_diag. Qed.

Lemma take_succ_snoc l i x : l !! i = Some x -> take (S i) l = take i l ++ [x].
Proof. apply take_S_r. Qed.

Lemma drop_lookup_cons l i x : l !! i = Some x -> drop i l = x :: drop (S i) l.
Proof. apply drop_S. Qed.

Lemma NoDup_snoc l x : NoDup l -> x ∉ l -> NoDup (l ++ [x]).
Proof.
  intros Hn Hx. apply NoDup_app. split; [done|].
  split; [|apply NoDup_singleton].
  intros y Hy ->%list_elem_of_singleton. done.
Qed.

Lemma NoDup_reverse l : NoDup (reverse l) <-> NoDup l.
Proof. by rewrite reverse_Permutation. Qed.

Lemma filter_none (P : A -> Prop) `{!forall x, Decision (P x)} l :
  Forall (fun x => ~ P x) l -> filter P l = [].
Proof. induction 1; [done|]. by rewrite filter_cons_False. Qed.

Lemma filter_all (P : A -> Prop) `{!forall x, Decision (P x)} l :
  Forall P l -> filter P l = l.
Proof. induction 1; [done|]. rewrite filter_cons_True by done. by f_equal. Qed.

End Lists.

#[export] Hint Resolve NoDup_snoc lookup_last_snoc : tx.
