(* ===== verification/StringView.v ===== *)
(** * [std::string_view] as the sources use it

    A view is the list of its characters. [substr] throws
    [std::out_of_range] when the position is past the end, written [None]. *)

From S2P Require Import Prelude.
From Stdlib Require Import Ascii.

Abbreviation view := (list ascii).

(** Literals, for examples. *)
Definition sv (s : string) : view := String.list_ascii_of_string s.

(** [sv.substr(pos, n)]. *)
Definition substr (s : view) (pos n : nat) : option view :=
  if decide (pos <= length s) then Some (take n (drop pos s)) else None.

(** The backwards scan of the [rfind] family: the greatest index at most [i]
    whose character satisfies [p]. *)
Fixpoint scan_back (p : ascii -> bool) (s : view) (i : nat) : option nat :=
  match s !! i with
  | Some c => if p c then Some i
              else match i with O => None | S j => scan_back p s j end
  | None => match i with O => None | S j => scan_back p s j end
  end.

(** [sv.rfind(c, pos)]: [pos] beyond the last character means "from the end". *)
Definition rfind (c : ascii) (s : view) (pos : nat) : option nat :=
  match s with
  | [] => None
  | _ => scan_back (fun d => bool_decide (d = c)) s (min pos (length s - 1))
  end.

(** [sv.find_last_of(chars)] and [sv.rfind(c)] with the default position. *)
Definition find_last_of (chars : view) (s : view) : option nat :=
  match s with
  | [] => None
  | _ => scan_back (fun d => bool_decide (d ∈ chars)) s (length s - 1)
  end.

Lemma scan_back_Some p s i j :
  scan_back p s i = Some j ->
  j <= i /\ (exists c, s !! j = Some c /\ p c = true) /\
  forall k c, j < k <= i -> s !! k = Some c -> p c = false.
Proof.
  induction i as [|i IH]; simpl; intros H.
  - destruct (s !! 0) eqn:E; [|done].
    destruct (p a) eqn:Ep; inv H. split_and!; [lia|eauto|]. intros; lia.
  - destruct (s !! S i) eqn:E; [destruct (p a) eqn:Ep|].
    + inv H. split_and!; [lia|eauto|]. intros; lia.
    + destruct (IH H) as (?&?&Hk). split_and!; [lia|done|].
      intros k c ? Hc. destruct (decide (k = S i)) as [->|]; [congruence|].
      eapply Hk; [|done]. lia.
    + destruct (IH H) as (?&?&Hk). split_and!; [lia|done|].
      intros k c ? Hc. destruct (decide (k = S i)) as [->|]; [congruence|].
      eapply Hk; [|done]. lia.
Qed.

Lemma scan_back_None p s i :
  scan_back p s i = None -> forall k c, k <= i -> s !! k = Some c -> p c = false.
Proof.
  induction i as [|i IH]; simpl; intros H k c Hk Hc.
  - assert (k = 0) as -> by lia. rewrite Hc in H. by destruct (p c).
  - destruct (decide (k = S i)) as [->|].
    + rewrite Hc in H. by destruct (p c).
    + destruct (s !! S i) as [d|]; [destruct (p d); [done|]|];
        apply (IH H k c); [lia|done|lia|done].
Qed.

(** The scan finds the last match when there is one. *)
Lemma scan_back_last p s i j c :
  j <= i -> s !! j = Some c -> p c = true ->
  (forall k d, j < k <= i -> s !! k = Some d -> p d = false) ->
  scan_back p s i = Some j.
Proof.
  intros Hj Hc Hp Hlast. destruct (scan_back p s i) as [k|] eqn:E.
  - apply scan_back_Some in E as (Hk & (d & Hd & Hpd) & Hmax).
    destruct (lt_eq_lt_dec j k) as [[?| ->]|?]; [|done|].
    + rewrite (Hlast k d) in Hpd; [done|lia|done].
    + rewrite (Hmax j c) in Hp; [done|lia|done].
  - pose proof (scan_back_None _ _ _ E j c Hj Hc). congruence.
Qed.

Lemma scan_back_absent p s i :
  (forall k d, k <= i -> s !! k = Some d -> p d = false) ->
  scan_back p s i = None.
Proof.
  intros Habs. destruct (scan_back p s i) as [k|] eqn:E; [|done].
  apply scan_back_Some in E as (Hk & (d & Hd & Hpd) & _).
  rewrite (Habs k d) in Hpd; done.
Qed.
