(* ===== verification/AsyncMutex.v ===== *)
(** * Mutex wrappers

    [src/pkg/async/Async/Mutex.h]: [Mutex], a wrapper of [std::mutex], and
    [LockGuard], which locks in its constructor and unlocks in its destructor.
    Threads are programs of these calls with exceptions; they run interleaved,
    one call per step. What is proved is what the guards are for: threads that
    lock with guards only, nested in one order, never misuse a mutex, exclude
    each other, release on every path, an exception's included, and do not
    deadlock. The annotations of [ThreadSafety.h] are read by a compiler's
    analysis and have no behaviour of their own; they are not modelled. *)

From stdpp Require Import gmap.
From S2P Require Import Prelude.

(** ** Programs *)

(** Mutexes are numbered. [Work] is anything that does not touch a mutex. *)
Inductive stm :=
| Work
| Seq (a b : stm)
| Lock (m : nat)                   (* [mutex.lock()] *)
| Unlock (m : nat)                 (* [mutex.unlock()] *)
| TryLock (m : nat) (a b : stm)    (* [if (mutex.try_lock()) a else b] *)
| Guard (m : nat) (s : stm)        (* [{ LockGuard lock(mutex); s }] *)
| Throw
| Try (s : stm).                   (* [try { s } catch (...) {}] *)

(** ** Execution *)

(** What a thread still has to do: statements, the destructors of the guards in
    scope, the end of try blocks. *)
Inductive frame := Do (s : stm) | Release (m : nat) | Catch.

Abbreviation stack := (list frame).
Abbreviation owners := (gmap nat nat).

(** [Mutex::lock], [unlock] and [try_lock] are those of [std::mutex]: a mutex
    has at most one owner, [lock] waits, [try_lock] may fail at any time. *)
Inductive tstep (t : nat) (o : owners) : stack -> owners -> stack -> Prop :=
| t_work k : tstep t o (Do Work :: k) o k
| t_seq a b k : tstep t o (Do (Seq a b) :: k) o (Do a :: Do b :: k)
| t_lock m k : o !! m = None -> tstep t o (Do (Lock m) :: k) (<[m := t]> o) k
| t_unlock m k : o !! m = Some t -> tstep t o (Do (Unlock m) :: k) (delete m o) k
| t_try m a b k : o !! m = None -> tstep t o (Do (TryLock m a b) :: k) (<[m := t]> o) (Do a :: k)
| t_try_fails m a b k : tstep t o (Do (TryLock m a b) :: k) o (Do b :: k)
| t_guard m s k : o !! m = None -> tstep t o (Do (Guard m s) :: k) (<[m := t]> o) (Do s :: Release m :: k)
| t_release m k : o !! m = Some t -> tstep t o (Release m :: k) (delete m o) k
| t_try_block s k : tstep t o (Do (Try s) :: k) o (Do s :: Catch :: k)
| t_catch k : tstep t o (Catch :: k) o k
| t_unwind s k : tstep t o (Do Throw :: Do s :: k) o (Do Throw :: k)
| t_unwind_guard m k : o !! m = Some t -> tstep t o (Do Throw :: Release m :: k) (delete m o) (Do Throw :: k)
| t_caught k : tstep t o (Do Throw :: Catch :: k) o k.

(** Undefined behaviour of [std::mutex]: locking a mutex the thread owns,
    unlocking one it does not own. *)
Inductive undefined (t : nat) (o : owners) : stack -> Prop :=
| u_lock m k : o !! m = Some t -> undefined t o (Do (Lock m) :: k)
| u_try m a b k : o !! m = Some t -> undefined t o (Do (TryLock m a b) :: k)
| u_guard m s k : o !! m = Some t -> undefined t o (Do (Guard m s) :: k)
| u_unlock m k : o !! m <> Some t -> undefined t o (Do (Unlock m) :: k)
| u_release m k : o !! m <> Some t -> undefined t o (Release m :: k)
| u_unwind m k : o !! m <> Some t -> undefined t o (Do Throw :: Release m :: k).

Record State := mkState { owner : owners; threads : list stack }.

Inductive step (s : State) : State -> Prop :=
| step_thread t k o' k' :
    threads s !! t = Some k -> tstep t (owner s) k o' k' ->
    step s (mkState o' (<[t := k']> (threads s))).

Definition start (ps : list stm) : State := mkState ∅ ((fun p => [Do p]) <$> ps).

Definition reachable (ps : list stm) : State -> Prop := rtc step (start ps).

(** A thread is over when nothing is left, or its exception has left it. *)
Definition over (k : stack) : Prop := k = [] \/ k = [Do Throw].

(** ** Guards nested in one order *)

(** Only guards lock, each one a mutex above those of the guards around it, and
    from [lo] on. *)
Fixpoint ordered (lo : nat) (s : stm) : bool :=
  match s with
  | Lock _ | Unlock _ | TryLock _ _ _ => false
  | Seq a b => ordered lo a && ordered lo b
  | Guard m s => bool_decide (lo <= m) && ordered (S m) s
  | Try s => ordered lo s
  | Work | Throw => true
  end.

(** The mutexes of the guards in scope. *)
Definition in_scope (k : stack) : list nat :=
  omap (fun f => match f with Release m => Some m | _ => None end) k.

Definition below (lo : nat) (k : stack) : Prop := forall m, m ∈ in_scope k -> m < lo.

Fixpoint nested (k : stack) : Prop :=
  match k with
  | [] => True
  | Do s :: k' => (exists lo, ordered lo s = true /\ below lo k') /\ nested k'
  | Release m :: k' => below m k' /\ nested k'
  | Catch :: k' => nested k'
  end.

(** A thread owns exactly the mutexes of its guards in scope. *)
Definition owns_scope (o : owners) (t : nat) (k : stack) : Prop := forall m, o !! m = Some t <-> m ∈ in_scope k.

Lemma in_scope_do s k : in_scope (Do s :: k) = in_scope k.
Proof. reflexivity. Qed.
Lemma in_scope_release m k : in_scope (Release m :: k) = m :: in_scope k.
Proof. reflexivity. Qed.

Lemma scope_insert o t k m : o !! m = None -> owns_scope o t k -> owns_scope (<[m := t]> o) t (Release m :: k).
Proof.
  intros Hm Ho x. rewrite in_scope_release, elem_of_cons, <- (Ho x). destruct (decide (x = m)) as [->|Hne].
  - rewrite lookup_insert_eq. naive_solver.
  - rewrite lookup_insert_ne by done. naive_solver.
Qed.

Lemma scope_delete o t k m : below m k -> owns_scope o t (Release m :: k) -> owns_scope (delete m o) t k.
Proof.
  intros Hb Ho x. specialize (Ho x). rewrite in_scope_release, elem_of_cons in Ho. destruct (decide (x = m)) as [->|Hne].
  - rewrite lookup_delete_eq. split; [done|]. intros Hin. apply Hb in Hin. lia.
  - rewrite lookup_delete_ne by done. naive_solver.
Qed.

(** What the steps of one thread do to the mutexes of another. *)
Lemma scope_other t u o k o' k' ku : t <> u -> tstep t o k o' k' -> owns_scope o u ku -> owns_scope o' u ku.
Proof.
  intros Hne Hs Ho. destruct Hs; try done; intros x; rewrite <- (Ho x);
    match goal with |- context [<[?m := _]> o] => destruct (decide (x = m)) as [->|]
                  | |- context [delete ?m o] => destruct (decide (x = m)) as [->|] end;
    rewrite ?lookup_insert_eq, ?lookup_delete_eq, ?lookup_insert_ne, ?lookup_delete_ne by done; naive_solver.
Qed.

Lemma below_mono lo lo' k : lo <= lo' -> below lo k -> below lo' k.
Proof. intros Hl Hb m Hm. specialize (Hb m Hm). lia. Qed.

Lemma below_release lo m k : m < lo -> below lo k -> below lo (Release m :: k).
Proof. intros Hm Hb x. rewrite in_scope_release, elem_of_cons. intros [->|Hx]; [done|by apply Hb]. Qed.

(** A step keeps the nesting and the ownership of its thread. *)
Lemma nested_step t o k o' k' :
  tstep t o k o' k' -> nested k /\ owns_scope o t k -> nested k' /\ owns_scope o' t k'.
Proof.
  intros Hs [Hn Ho]. destruct Hs as [k|a b k|m k|m k|m a b k|m a b k|m s k Hm|m k Hm|s k|k|s k|m k Hm|k]; cbn [nested] in Hn.
  - by destruct Hn as [_ Hn].
  - destruct Hn as [(lo & [Ha Hb]%andb_prop & Hl) Hn]. split; [|done]. cbn. eauto 10.
  - by destruct Hn as [(lo & Hx & _) _].
  - by destruct Hn as [(lo & Hx & _) _].
  - by destruct Hn as [(lo & Hx & _) _].
  - by destruct Hn as [(lo & Hx & _) _].
  - destruct Hn as [(lo & [Hlo%bool_decide_eq_true Hx]%andb_prop & Hl) Hn]. split; [|by apply scope_insert]. cbn.
    assert (below m k) by (by eapply below_mono). split_and!; [|done|done]. exists (S m). split; [done|].
    apply below_release; [lia|]. by eapply below_mono; [|done]; lia.
  - destruct Hn as [Hb Hn]. split; [done|]. by apply scope_delete.
  - destruct Hn as [(lo & Hx & Hl) Hn]. split; [|done]. cbn. eauto.
  - done.
  - destruct Hn as [_ [_ Hn]]. split; [|done]. cbn. split; [|done]. exists (S (max_list (in_scope k))). split; [done|].
    intros m Hm. apply max_list_elem_of_le in Hm. lia.
  - destruct Hn as [_ [Hb Hn]]. split; [|by apply scope_delete]. cbn. split; [|done]. by exists m.
  - by destruct Hn as [_ Hn].
Qed.

Lemma nested_defined t o k : nested k /\ owns_scope o t k -> ~ undefined t o k.
Proof.
  intros [Hn Ho] Hu. destruct Hu as [m k Hm|m a b k Hm|m s k Hm|m k Hm|m k Hm|m k Hm]; cbn in Hn.
  - by destruct Hn as [(lo & Hx & _) _].
  - by destruct Hn as [(lo & Hx & _) _].
  - destruct Hn as [(lo & [Hlo%bool_decide_eq_true _]%andb_prop & Hl) _]. apply Ho in Hm.
    specialize (Hl m Hm). lia.
  - by destruct Hn as [(lo & Hx & _) _].
  - apply Hm, Ho. rewrite in_scope_release. left.
  - apply Hm, Ho. rewrite in_scope_do, in_scope_release. left.
Qed.

(** ** Progress *)

(** A thread goes on, is over, or waits at a guard, above all its own, for a
    mutex of another. *)
Lemma thread_progress t o k :
  nested k /\ owns_scope o t k ->
  (exists o' k', tstep t o k o' k') \/ over k \/
  exists m u, o !! m = Some u /\ u <> t /\ forall x, o !! x = Some t -> x < m.
Proof.
  intros [Hn Ho]. destruct k as [|f k]; [by right; left; left|].
  destruct f as [s|m|]; [|left; do 2 eexists; constructor; apply Ho; rewrite in_scope_release; left|left; do 2 eexists; constructor].
  cbn in Hn. destruct Hn as [(lo & Hx & Hl) Hn].
  destruct s as [|a b|m|m|m a b|m s| |s]; try done; try (left; do 2 eexists; by constructor).
  - cbn in Hx. apply andb_prop in Hx as [Hlo%bool_decide_eq_true _]. destruct (o !! m) as [u|] eqn:Hm.
    + right; right. exists m, u. split; [done|].
      assert (forall x, o !! x = Some t -> x < m) as Hlt.
      { intros x Hx. apply Ho in Hx. rewrite in_scope_do in Hx. specialize (Hl x Hx). lia. }
      split; [|done]. intros ->. specialize (Hlt m Hm). lia.
    + left. do 2 eexists. by constructor.
  - destruct k as [|[s|m|] k]; [by right; left; right|left; do 2 eexists; by constructor|..].
    + left. do 2 eexists. constructor. apply Ho. rewrite in_scope_do, in_scope_release. left.
    + left. do 2 eexists. by constructor.
Qed.

(** Either an element of a list has a property or all have the other. *)
Lemma some_or_all {A} (Q R : nat -> A -> Prop) (l : list A) :
  (forall i x, l !! i = Some x -> Q i x \/ R i x) ->
  (exists i x, l !! i = Some x /\ Q i x) \/ (forall i x, l !! i = Some x -> R i x).
Proof.
  revert Q R. induction l as [|y l IH]; intros Q R Hl; [by right|].
  destruct (Hl 0 y eq_refl) as [HQ|HR]; [left; by exists 0, y|].
  destruct (IH (fun i => Q (S i)) (fun i => R (S i))) as [(i & x & Hi & HQ)|HR'].
  - intros i x Hi. by apply (Hl (S i)).
  - left. by exists (S i), x.
  - right. intros [|i] x Hi; [by injection Hi as <-|by apply HR'].
Qed.

Record Inv (s : State) : Prop := {
  i_thread t k : threads s !! t = Some k -> nested k /\ owns_scope (owner s) t k;
  i_owner m t : owner s !! m = Some t -> is_Some (threads s !! t)
}.

(** The mutexes waited for rise along a chain of waiting threads, and are all
    owned, hence finitely many. *)
Lemma no_chain s (b : nat) :
  Inv s ->
  (forall t k, threads s !! t = Some k -> over k \/
     exists m u, owner s !! m = Some u /\ u <> t /\ forall x, owner s !! x = Some t -> x < m) ->
  (forall m u, owner s !! m = Some u -> m <= b) ->
  forall m u, owner s !! m = Some u -> False.
Proof.
  intros HI Hall Hb. enough (forall n m u, b - m <= n -> owner s !! m = Some u -> False) as H by (intros m u; by eapply H).
  induction n as [|n IH]; intros m u Hn Hm.
  all: destruct (i_owner _ HI m u Hm) as [k Hk]; destruct (i_thread _ HI u k Hk) as [_ Ho].
  all: destruct (Hall u k Hk) as [[->| ->]|(m' & v & Hm' & _ & Hlt)];
    [apply Ho in Hm; cbn in Hm; set_solver..|].
  all: pose proof (Hlt m Hm); pose proof (Hb m' v Hm').
  - lia.
  - apply (IH m' v); [lia|done].
Qed.

Lemma Inv_progress s :
  Inv s -> (exists s', step s s') \/ (forall t k, threads s !! t = Some k -> over k).
Proof.
  intros HI.
  destruct (some_or_all (fun t k => exists o' k', tstep t (owner s) k o' k')
    (fun t k => over k \/ exists m u, owner s !! m = Some u /\ u <> t /\ forall x, owner s !! x = Some t -> x < m)
    (threads s)) as [(t & k & Hk & o' & k' & Hs)|Hall].
  - intros t k Hk. by apply thread_progress, (i_thread _ HI).
  - left. eexists. by econstructor.
  - right. intros t k Hk. destruct (Hall t k Hk) as [|(m & u & Hm & _)]; [done|].
    destruct (no_chain s (max_list (map_to_list (owner s)).*1) HI Hall) with m u; [|done].
    intros x v Hx. apply max_list_elem_of_le, list_elem_of_fmap. exists (x, v). split; [done|]. by apply elem_of_map_to_list.
Qed.

(** ** Reachable states *)

Lemma Inv_start ps : Forall (fun p => ordered 0 p = true) ps -> Inv (start ps).
Proof.
  intros Hps. split; cbn.
  - intros t k Hk. rewrite list_lookup_fmap in Hk. destruct (ps !! t) as [p|] eqn:Hp; [|done].
    injection Hk as <-. split; [|intros m; rewrite lookup_empty; cbn; set_solver].
    cbn. split; [|done]. exists 0. split; [exact (Forall_lookup_1 _ _ _ _ Hps Hp)|]. intros m. cbn. set_solver.
  - intros m t. by rewrite lookup_empty.
Qed.

Lemma tstep_owner t o k o' k' m u : tstep t o k o' k' -> o' !! m = Some u -> u = t \/ o !! m = Some u.
Proof.
  intros Hs. destruct Hs; auto; try (rewrite lookup_insert_Some; naive_solver);
    rewrite lookup_delete_Some; naive_solver.
Qed.

Lemma Inv_step s s' : Inv s -> step s s' -> Inv s'.
Proof.
  intros [Ht Hm] Hs. destruct Hs as [t k o' k' Hk Hs]. split; cbn.
  - intros u ku Hu. destruct (decide (t = u)) as [<-|Hne].
    + rewrite list_lookup_insert_eq in Hu by (by eapply lookup_lt_Some). injection Hu as <-.
      by eapply nested_step, Ht.
    + rewrite list_lookup_insert_ne in Hu by done. destruct (Ht u ku Hu) as [Hn Ho].
      split; [done|by eapply scope_other].
  - intros m u [->|Hu]%(tstep_owner _ _ _ _ _ _ _ Hs); rewrite list_lookup_insert_is_Some; eauto.
Qed.

Lemma reachable_Inv ps s : Forall (fun p => ordered 0 p = true) ps -> reachable ps s -> Inv s.
Proof.
  intros Hps Hr. pose proof (Inv_start ps Hps) as H0. unfold reachable in Hr.
  induction Hr as [|s1 s2 s3 Hs _ IH]; [done|]. by eapply IH, Inv_step.
Qed.

(** *** Every run ends *)

Fixpoint size (s : stm) : nat :=
  match s with
  | Seq a b | TryLock _ a b => S (size a + size b)
  | Guard _ s | Try s => S (S (size s))
  | _ => 1
  end.

Definition work (k : stack) : nat := sum_list_with (fun f => match f with Do s => size s | _ => 1 end) k.

Lemma tstep_work t o k o' k' : tstep t o k o' k' -> work k' < work k.
Proof. intros Hs. destruct Hs; unfold work; cbn; try (assert (0 < size s) by (destruct s; cbn; lia)); lia. Qed.

Definition total (s : State) : nat := sum_list_with work (threads s).

Lemma step_total s s' : step s s' -> total s' < total s.
Proof.
  intros [t k o' k' Hk Hs]. apply tstep_work in Hs. unfold total. cbn.
  rewrite <- (take_drop_middle _ _ _ Hk) at 2. rewrite insert_take_drop by (by eapply lookup_lt_Some).
  rewrite !sum_list_with_app. cbn. lia.
Qed.


(** ** Evaluation *)

Module Demo.

(** Both take mutex 0 and then 1; the first throws inside. *)
Definition thrower : stm := Try (Guard 0 (Guard 1 (Seq Throw Work))).
Definition worker : stm := Guard 0 (Seq (Guard 1 Work) (Guard 2 Work)).

(** The first thread has thrown. *)
Definition thrown : State :=
  mkState (<[1 := 0]> {[0 := 0]}) [[Do Throw; Release 1; Release 0; Catch]; [Do worker]].

Lemma thrown_reachable : reachable [thrower; worker] thrown.
Proof.
  eapply rtc_l; [eapply (step_thread _ 0); [reflexivity|apply t_try_block]|].
  eapply rtc_l; [eapply (step_thread _ 0); [reflexivity|apply t_guard, lookup_empty]|].
  eapply rtc_l; [eapply (step_thread _ 0); [reflexivity|apply t_guard; reflexivity]|].
  eapply rtc_l; [eapply (step_thread _ 0); [reflexivity|apply t_seq]|].
  eapply rtc_l; [eapply (step_thread _ 0); [reflexivity|apply t_unwind]|]. apply rtc_refl.
Qed.


End Demo.
