(* ===== verification/FsPath.v ===== *)
(** * [Fs::Path]: the zero-allocation view decomposition of a path

    [src/pkg/fs/Fs/Path.cpp]. Every method is noexcept, so the range check of
    [substr] must never fail: the views return an [option] and
    [path_views_total] shows they always answer. *)

From S2P Require Import Prelude StringView.
From Stdlib Require Import Ascii.

Definition slash : ascii := "/"%char.
Definition dot : ascii := "."%char.

(** [while (end > 1 && sv[end - 1] == '/') --end;] *)
Fixpoint strip_end (s : view) (e : nat) : nat :=
  match e with
  | S ((S _) as e') => if bool_decide (s !! e' = Some slash) then strip_end s e' else e
  | _ => e
  end.

Definition filename_view (s : view) : option view :=
  match s with
  | [] => Some []
  | _ =>
    let e := strip_end s (length s) in
    match rfind slash s (e - 1) with
    | None => substr s 0 e
    | Some pos => substr s (pos + 1) (e - pos - 1)
    end
  end.

(** [fname.empty() || fname == "." || fname == ".."] *)
Definition special_name (f : view) : bool :=
  bool_decide (f = [] \/ f = [dot] \/ f = [dot; dot]).

Definition stem_view (s : view) : option view :=
  f ← filename_view s;
  if special_name f then Some f else
  match rfind dot f (length f) with
  | None | Some O => Some f
  | Some d => substr f 0 d
  end.

Definition extension_view (s : view) : option view :=
  f ← filename_view s;
  if special_name f then Some [] else
  match rfind dot f (length f) with
  | None | Some O => Some []
  | Some d => substr f d (length f)
  end.

Definition parent_path_view (s : view) : option view :=
  match s with
  | [] => Some []
  | _ =>
    let e := strip_end s (length s) in
    match rfind slash s (e - 1) with
    | None => Some []
    | Some O => substr s 0 1
    | Some pos => substr s 0 pos
    end
  end.

(** ** What the stripping loop computes *)

Lemma strip_end_SS s e :
  strip_end s (S (S e)) =
  if bool_decide (s !! S e = Some slash) then strip_end s (S e) else S (S e).
Proof. reflexivity. Qed.

Lemma strip_end_le s e : strip_end s e <= e.
Proof.
  induction e as [|[|e] IH]; [done|done|].
  rewrite strip_end_SS. case_bool_decide; [|done]. lia.
Qed.

Lemma strip_end_pos s e : 1 <= e -> 1 <= strip_end s e.
Proof.
  induction e as [|[|e] IH]; intros; [lia|done|].
  rewrite strip_end_SS. case_bool_decide; [|done]. apply IH. lia.
Qed.

Lemma strip_end_slashes s e k :
  strip_end s e <= k < e -> s !! k = Some slash.
Proof.
  induction e as [|[|e] IH]; intros Hk; [simpl in Hk; lia|simpl in Hk; lia|].
  rewrite strip_end_SS in Hk. case_bool_decide as Hs; [|lia].
  destruct (decide (k = S e)) as [->|]; [done|]. apply IH. lia.
Qed.

Lemma strip_end_stop s e :
  1 < strip_end s e -> s !! (strip_end s e - 1) <> Some slash.
Proof.
  induction e as [|[|e] IH]; intros Hk; [simpl in Hk; lia|simpl in Hk; lia|].
  rewrite strip_end_SS in Hk |- *. case_bool_decide as Hs; [by apply IH|].
  by replace (S (S e) - 1) with (S e) by lia.
Qed.

(** The loop stops exactly at [m] when only slashes follow and [m] ends a name. *)
Lemma strip_end_at s e m :
  1 <= m <= e -> (forall k, m <= k < e -> s !! k = Some slash) ->
  (m = 1 \/ s !! (m - 1) <> Some slash) -> strip_end s e = m.
Proof.
  intros Hm Hsl Hst. pose proof (strip_end_le s e). pose proof (strip_end_pos s e).
  destruct (lt_eq_lt_dec (strip_end s e) m) as [[Hlt|?]|Hgt]; [|done|].
  - exfalso. destruct Hst as [->|Hst]; [lia|].
    apply Hst, (strip_end_slashes s e). lia.
  - exfalso. apply (strip_end_stop s e); [lia|]. apply Hsl. lia.
Qed.

(** ** Decomposition of a path *)

(** The position of the separator that starts the filename. *)
Definition sep_pos (s : view) : option nat := rfind slash s (strip_end s (length s) - 1).

Lemma sep_pos_Some s pos :
  s <> [] -> sep_pos s = Some pos ->
  pos < strip_end s (length s) /\ s !! pos = Some slash /\
  forall k, pos < k < strip_end s (length s) -> s !! k <> Some slash.
Proof.
  intros Hs. unfold sep_pos, rfind. destruct s as [|c s']; [done|].
  set (s := c :: s') in *. set (e := strip_end s (length s)).
  assert (1 <= e <= length s) by (split; [apply strip_end_pos; simpl; lia|apply strip_end_le]).
  rewrite Nat.min_l by lia. intros (?&(d&Hd&Hp)&Hmax)%scan_back_Some.
  case_bool_decide; [subst d|done]. split_and!; [lia|done|].
  intros k Hk Hc. specialize (Hmax k slash ltac:(lia) Hc). by case_bool_decide.
Qed.

Lemma sep_pos_None s k :
  s <> [] -> sep_pos s = None -> k < strip_end s (length s) -> s !! k <> Some slash.
Proof.
  intros Hs. unfold sep_pos, rfind. destruct s as [|c s']; [done|].
  set (s := c :: s') in *. set (e := strip_end s (length s)).
  assert (1 <= e <= length s) by (split; [apply strip_end_pos; simpl; lia|apply strip_end_le]).
  rewrite Nat.min_l by lia. intros Hn Hk Hc.
  pose proof (scan_back_None _ _ _ Hn k slash ltac:(lia) Hc) as Hb.
  by apply bool_decide_eq_false in Hb.
Qed.

Lemma sep_pos_at s pos :
  pos < strip_end s (length s) -> s !! pos = Some slash ->
  (forall k, pos < k < strip_end s (length s) -> s !! k <> Some slash) ->
  sep_pos s = Some pos.
Proof.
  intros Hp Hc Hmax. unfold sep_pos, rfind.
  pose proof (strip_end_le s (length s)). destruct s as [|c s']; [done|].
  rewrite Nat.min_l by lia.
  eapply scan_back_last; [|exact Hc|by case_bool_decide|]; [lia|].
  intros k d Hk Hd. case_bool_decide; [|done]. subst d.
  exfalso. apply (Hmax k); [lia|done].
Qed.

Lemma filename_view_eq s :
  s <> [] ->
  filename_view s =
  Some (let e := strip_end s (length s) in
        match sep_pos s with
        | None => take e s
        | Some pos => take (e - pos - 1) (drop (pos + 1) s)
        end).
Proof.
  intros Hs. pose proof (strip_end_le s (length s)) as Hle. unfold filename_view.
  destruct s as [|c s']; [done|]. set (s := c :: s') in *.
  change (rfind slash s (strip_end s (length s) - 1)) with (sep_pos s).
  destruct (sep_pos s) as [pos|] eqn:E; unfold substr.
  - apply sep_pos_Some in E as (?&?&?); [|done]. by rewrite decide_True by lia.
  - rewrite decide_True by lia. by rewrite drop_0.
Qed.

(** A view of characters [lo, hi) of [s]. *)
Lemma lookup_slice (s : view) lo n k c :
  take n (drop lo s) !! k = Some c -> s !! (lo + k) = Some c /\ k < n.
Proof. intros [Hk ?]%lookup_take_Some. by rewrite lookup_drop in Hk. Qed.

Lemma filename_no_slash s f : filename_view s = Some f -> slash ∉ f.
Proof.
  destruct (decide (s = [])) as [->|Hs]; [intros [= <-]; set_solver|].
  rewrite filename_view_eq by done. intros [= <-] [k Hk]%list_elem_of_lookup.
  cbv zeta in Hk. destruct (sep_pos s) as [pos|] eqn:E.
  - apply lookup_slice in Hk as [Hk ?].
    apply sep_pos_Some in E as (?&?&Hmax); [|done].
    apply (Hmax (pos + 1 + k)); [lia|done].
  - apply lookup_take_Some in Hk as [Hk ?]. by eapply sep_pos_None.
Qed.

Lemma rfind_bound c s n k : rfind c s n = Some k -> k < length s /\ s !! k = Some c.
Proof.
  unfold rfind. destruct s as [|a s]; [done|].
  intros (?&(d&Hd&Hp)&_)%scan_back_Some. case_bool_decide; [subst d|done].
  split; [simpl in *; lia|done].
Qed.

(** ** Properties *)

(** Every view of every path is computed without [substr] leaving its
    range, so the noexcept methods never terminate the program. *)
Theorem path_views_total (s : view) :
  is_Some (filename_view s) /\ is_Some (stem_view s) /\
  is_Some (extension_view s) /\ is_Some (parent_path_view s).
Proof.
  assert (exists f, filename_view s = Some f) as [f Hf].
  { destruct (decide (s = [])) as [->|]; [by eexists|].
    eexists. by apply filename_view_eq. }
  split; [by eexists|]. unfold stem_view, extension_view. rewrite Hf. simpl.
  split_and!.
  - destruct (special_name f); [by eexists|].
    by destruct (rfind dot f (length f)) as [[|k]|] eqn:E; eexists.
  - destruct (special_name f); [by eexists|].
    destruct (rfind dot f (length f)) as [[|k]|] eqn:E; try by eexists.
    apply rfind_bound in E as [? _].
    unfold substr. rewrite decide_True by lia. by eexists.
  - unfold parent_path_view. destruct s as [|c s]; [by eexists|].
    destruct (rfind _ _ _) as [[|k]|]; [|..|by eexists];
      unfold substr; rewrite decide_True by (simpl; lia); by eexists.
Qed.

(** The stem and the extension always concatenate to the filename. *)
Theorem stem_extension_filename (s f : view) :
  filename_view s = Some f ->
  exists st ex, stem_view s = Some st /\ extension_view s = Some ex /\ st ++ ex = f.
Proof.
  intros Hf. unfold stem_view, extension_view. rewrite Hf. simpl.
  destruct (special_name f); [exists f, []; by rewrite app_nil_r|].
  destruct (rfind dot f (length f)) as [[|k]|] eqn:E;
    [exists f, []; by rewrite app_nil_r| |exists f, []; by rewrite app_nil_r].
  apply rfind_bound in E as [? _]. unfold substr.
  rewrite !decide_True by lia. eexists _, _. split_and!; [done..|].
  rewrite drop_0, (take_ge (drop _ _)) by (rewrite length_drop; lia).
  apply take_drop.
Qed.

Lemma stem_extension_filename_witness :
  filename_view (sv "/home/u/a.tar.gz") = Some (sv "a.tar.gz") /\
  exists st ex, stem_view (sv "/home/u/a.tar.gz") = Some st /\
    extension_view (sv "/home/u/a.tar.gz") = Some ex /\ (st ++ ex = sv "a.tar.gz").
Proof.
  split; [reflexivity|].
  apply (stem_extension_filename (sv "/home/u/a.tar.gz")). reflexivity.
Defined.

(** A path is its directory prefix (empty or ending in a separator), its
    filename (which has no separator), and trailing separators only. *)
Theorem filename_decomposition (s : view) :
  exists dir f seps,
    filename_view s = Some f /\ s = dir ++ f ++ seps /\
    (dir = [] \/ last dir = Some slash) /\ (slash ∉ f) /\
    Forall (fun c => c = slash) seps.
Proof.
  destruct (decide (s = [])) as [->|Hs].
  { exists [], [], []. split_and!; [done|done|by left|set_solver|constructor]. }
  pose proof (strip_end_le s (length s)) as Hle.
  pose proof (filename_view_eq s Hs) as Hf. cbv zeta in Hf.
  pose proof (filename_no_slash s _ Hf) as Hns.
  set (e := strip_end s (length s)) in *.
  assert (Forall (fun c => c = slash) (drop e s)) as Htail.
  { apply Forall_lookup. intros k c Hk. rewrite lookup_drop in Hk.
    assert (e + k < length s) by (by eapply lookup_lt_Some).
    rewrite (strip_end_slashes s (length s) (e + k)) in Hk by lia. congruence. }
  destruct (sep_pos s) as [pos|] eqn:E.
  - apply sep_pos_Some in E as (Hp & Hc & _); [|done]. fold e in Hp.
    exists (take (pos + 1) s), (take (e - pos - 1) (drop (pos + 1) s)), (drop e s).
    split_and!; [done| | |done|done].
    + replace (drop e s) with (drop (e - pos - 1) (drop (pos + 1) s))
        by (rewrite drop_drop; f_equal; lia).
      by rewrite !take_drop.
    + right. rewrite Nat.add_1_r, (take_succ_snoc _ _ _ Hc). apply last_snoc.
  - exists [], (take e s), (drop e s). rewrite take_drop. split_and!; eauto.
Qed.

(** The loop and the separator of a path built as [d ++ "/" ++ f ++ "/"*]. *)
Lemma joined_path (d f : view) n :
  f <> [] -> slash ∉ f ->
  let s := d ++ slash :: f ++ replicate n slash in
  strip_end s (length s) = length d + 1 + length f /\ sep_pos s = Some (length d).
Proof.
  intros Hf Hns s.
  assert (forall k, s !! (length d + 1 + k) = (f ++ replicate n slash) !! k) as Hlk.
  { intros k. unfold s. rewrite lookup_app_r by lia.
    by replace (length d + 1 + k - length d) with (S k) by lia. }
  assert (0 < length f) by (destruct f; [done|simpl; lia]).
  assert (forall k, k < length f -> s !! (length d + 1 + k) <> Some slash) as Hin.
  { intros k Hk Hc. apply Hns. rewrite Hlk, lookup_app_l in Hc by done.
    by eapply list_elem_of_lookup_2. }
  assert (length s = length d + 1 + length f + n) as Hlen.
  { unfold s. rewrite length_app. simpl. rewrite length_app, length_replicate. lia. }
  assert (strip_end s (length s) = length d + 1 + length f) as He.
  { apply strip_end_at; [lia| |right].
    - intros k Hk. replace k with (length d + 1 + (k - length d - 1)) by lia.
      rewrite Hlk, lookup_app_r by lia. apply lookup_replicate_2. lia.
    - replace (length d + 1 + length f - 1)
        with (length d + 1 + (length f - 1)) by lia. apply Hin. lia. }
  split; [done|]. apply sep_pos_at; rewrite ?He; [lia| |].
  - unfold s. by rewrite lookup_app_r, Nat.sub_diag by lia.
  - intros k Hk. replace k with (length d + 1 + (k - length d - 1)) by lia.
    apply Hin. lia.
Qed.

(** Joining a directory and a name with a separator (and any number of
    trailing separators) and splitting it again gives the name back, and the
    directory, with the root for an empty directory. *)
Theorem join_split (d f : view) (n : nat) :
  f <> [] -> slash ∉ f ->
  filename_view (d ++ slash :: f ++ replicate n slash) = Some f /\
  parent_path_view (d ++ slash :: f ++ replicate n slash)
    = Some (match d with [] => [slash] | _ => d end).
Proof.
  intros Hf Hns. destruct (joined_path d f n Hf Hns) as [He Hsep].
  set (s := d ++ slash :: f ++ replicate n slash) in *.
  assert (s <> []) as Hs by (unfold s; by destruct d).
  split.
  - rewrite filename_view_eq by done. cbv zeta. rewrite Hsep, He. f_equal. unfold s.
    rewrite drop_app_ge by lia.
    replace (length d + 1 - length d) with 1 by lia. cbn [drop].
    rewrite drop_0, take_app_le by lia. apply take_ge. lia.
  - unfold parent_path_view. fold (sep_pos s). rewrite Hsep.
    unfold s at 1. destruct d as [|c d].
    + simpl. unfold substr. by rewrite decide_True by (simpl; lia).
    + cbn [app length]. unfold substr. rewrite decide_True by lia.
      unfold s. rewrite drop_0.
      by rewrite (take_app_length' (c :: d)).
Qed.

Lemma join_split_witness :
  filename_view (sv "/usr/lib//") = Some (sv "lib") /\
  parent_path_view (sv "/usr/lib//") = Some (sv "/usr").
Proof.
  apply (join_split (sv "/usr") (sv "lib") 2); [done|].
  apply (bool_decide_unpack _). vm_compute. exact I.
Defined.
