(* ===== verification/RunLoop.v ===== *)
(** * [RunLoop]: frame timing, handlers and their composition

    [src/pkg/runloop/RunLoop]: [UpdateCtx] (frame and session clocks),
    [CompositeHandler] (an ordered list of handlers driven as one) and the
    part of [Runner] that stores the exit code. *)

From S2P Require Import Prelude.
From Stdlib Require Import SpecFloat.

Open Scope Z_scope.

(** ** UpdateCtx *)

Module UpdateCtx.

(** [float] is IEEE binary32. *)
Definition float32 := spec_float.
Definition float_of_Z (z : Z) : float32 := binary_normalize 24 128 z 0 false.

(** [std::chrono::duration<float>(d).count()] for a duration in nanoseconds:
    both the count and the period denominator are converted to [float]. *)
Definition seconds_of_ns (d : Z) : float32 :=
  SFdiv 24 128 (float_of_Z d) (float_of_Z 1000000000).

(** [duration_cast<microseconds>] truncates toward zero. *)
Definition us_of_ns (d : Z) : Z := Z.quot d 1000.

Record Frame := mkFrame {
  index : Z; f_startTime : Z; delta : Z; deltaUs : Z; deltaSeconds : float32 }.
Record Session := mkSession {
  s_startTime : Z; passed : Z; passedUs : Z; passedSeconds : float32 }.
Record t := mk { frame : Frame; session : Session }.

Definition fzero : float32 := float_of_Z 0.

(** [Initialize()]; [now] is the value [Clock::now()] returns. *)
Definition Initialize (now : Z) : t :=
  {| frame := mkFrame 0 now 0 0 fzero; session := mkSession now 0 0 fzero |}.

(** [Tick()]: the deltas are computed before [frame.startTime] moves. *)
Definition Tick (now : Z) (c : t) : t :=
  let passed' := now - s_startTime (session c) in
  let delta' := now - f_startTime (frame c) in
  {| session := mkSession (s_startTime (session c)) passed'
                          (passedUs (session c)) (seconds_of_ns passed');
     frame := mkFrame (wrap64 (index (frame c) + 1)) now delta'
                      (us_of_ns delta') (seconds_of_ns delta') |}.

(** The contexts of a session whose clock readings are [n0], then [times]. *)
Definition after (n0 : Z) (times : list Z) : t := foldl (fun c n => Tick n c) (Initialize n0) times.

(** The frame deltas handed to the handlers, in order. *)
Fixpoint deltas (c : t) (times : list Z) : list Z :=
  match times with
  | [] => []
  | n :: rest => let c' := Tick n c in delta (frame c') :: deltas c' rest
  end.

Definition sum (l : list Z) : Z := foldr Z.add 0 l.

Lemma deltas_telescope times c :
  f_startTime (frame (foldl (fun c n => Tick n c) c times)) =
  f_startTime (frame c) + sum (deltas c times).
Proof.
  revert c. induction times as [|n times IH]; intros c; simpl; [lia|].
  rewrite IH. simpl. lia.
Qed.

Lemma session_start times c :
  s_startTime (session (foldl (fun c n => Tick n c) c times)) = s_startTime (session c).
Proof. revert c. induction times as [|n times IH]; intros c; simpl; [done|]. by rewrite IH. Qed.

Lemma passed_last times c :
  times <> [] -> let c' := foldl (fun c n => Tick n c) c times in
  passed (session c') = f_startTime (frame c') - s_startTime (session c').
Proof.
  intros Hne. destruct times as [|x times'] using rev_ind; [done|].
  rewrite foldl_snoc. done.
Qed.

Lemma index_after times c :
  0 <= index (frame c) < 2 ^ 64 ->
  index (frame (foldl (fun c n => Tick n c) c times)) =
  wrap64 (index (frame c) + Z.of_nat (length times)).
Proof.
  revert c. induction times as [|n times IH]; intros c Hc; simpl.
  - rewrite Z.add_0_r. by rewrite wrap64_small.
  - rewrite IH by (simpl; unfold wrap64; apply Z.mod_pos_bound; lia).
    simpl. unfold wrap64. rewrite Zplus_mod_idemp_l. f_equal. lia.
Qed.

(** Over a whole session the frame deltas add up to the elapsed time
    ([session.passed]), whatever the clock does, and the frame index counts
    the ticks modulo 2^64: no time is lost or counted twice between frames. *)
Theorem session_time_is_sum_of_deltas (n0 : Z) (times : list Z) :
  passed (session (after n0 times)) = sum (deltas (Initialize n0) times) /\
  index (frame (after n0 times)) = wrap64 (Z.of_nat (length times)).
Proof.
  unfold after. split.
  - destruct (decide (times = [])) as [->|Hne]; [done|].
    rewrite passed_last by done.
    rewrite deltas_telescope, session_start. simpl. lia.
  - rewrite index_after by (simpl; lia). simpl. f_equal; lia.
Qed.

(** [session.passedUs] ("passed time in microseconds") is never updated:
    it stays zero however long the session runs. *)
Theorem passedUs_stays_zero (n0 : Z) (times : list Z) :
  passedUs (session (after n0 times)) = 0.
Proof.
  unfold after. assert (forall c, passedUs (session c) = 0 ->
    passedUs (session (foldl (fun c n => Tick n c) c times)) = 0) as H; [|by apply H].
  induction times as [|n times IH]; intros c Hc; simpl; [done|]. by apply IH.
Qed.

End UpdateCtx.

(** ** Runner *)

(** The state of [Runner] (and of [TightRunner], which adds [_running]). *)
Record RunnerState := mkRunner { exitCode : option Z; running : bool }.

Module ExitCode.
Definition Success : Z := 0.
Definition Failure : Z := 1.
Definition NotStarted : Z := 126.
Definition Cancelled : Z := 130.
End ExitCode.

(** [Runner::SetExitCode] and [Runner::GetExitCode] ([Exiting] returns the latter). *)
Definition SetExitCode (code : Z) (r : RunnerState) : RunnerState :=
  {| exitCode := Some code; running := running r |}.
Definition Exiting (r : RunnerState) : option Z := exitCode r.

(** ** CompositeHandler *)

Module Composite.

(** Calls made on the child handlers, in order. *)
Inductive Ev := EvStart (h : nat) | EvStop (h : nat) | EvUpdate (h : nat).

#[global] Instance Ev_eq_dec : EqDecision Ev.
Proof. solve_decision. Defined.

(** [handlers] is the intrusive list, [runners] the [_runner] pointer of each
    child (absent: null), [self] the composite's own runner. *)
Record t := mk {
  handlers : list nat; is_running : bool; self : option nat;
  runners : gmap nat (option nat); trace : list Ev }.

Section Children.

(** Whether a child's [Start()] succeeds may depend on everything that was
    called before. *)
Context (start_ok : list Ev -> nat -> bool).

Definition SetRunner (h : nat) (r : option nat) (s : t) : t :=
  mk (handlers s) (is_running s) (self s) (<[h := r]> (runners s)) (trace s).

Definition emit (e : Ev) (s : t) : t :=
  mk (handlers s) (is_running s) (self s) (runners s) (trace s ++ [e]).

Definition call_Start (h : nat) (s : t) : bool * t := (start_ok (trace s) h, emit (EvStart h) s).
Definition call_Stop (h : nat) (s : t) : t := emit (EvStop h) s.
Definition call_Update (h : nat) (s : t) : t := emit (EvUpdate h) s.

(** Linking a handler that is already linked violates the precondition of the
    intrusive list. *)
Definition Add (h : nat) (s : t) : outcome t :=
  if decide (h ∈ handlers s) then Crash else
  let s1 := mk (handlers s ++ [h]) (is_running s) (self s) (runners s) (trace s) in
  Ret (if is_running s1 then snd (call_Start h (SetRunner h (self s1) s1)) else s1).

(** [iterator_to] requires a member of the list: its result never equals
    [end()], so the early return of the source is not reachable. *)
Definition Remove (h : nat) (s : t) : outcome t :=
  if decide (h ∈ handlers s) then
    let s1 := if is_running s then call_Stop h s else s in
    let s2 := mk (filter (fun k => k <> h) (handlers s1)) (is_running s1) (self s1)
                 (runners s1) (trace s1) in
    Ret (SetRunner h None s2)
  else Crash.

(** The loop of [Start()]: [started] holds the children already started, most
    recent first; on failure they are stopped from there. *)
Fixpoint start_loop (started todo : list nat) (s : t) : bool * t :=
  match todo with
  | [] => (true, s)
  | h :: rest =>
    let '(ok, s1) := call_Start h (SetRunner h (self s) s) in
    if ok then start_loop (h :: started) rest s1
    else (false, foldl (fun s k => call_Stop k s) s1 started)
  end.

Definition Start (s : t) : bool * t :=
  let '(ok, s1) := start_loop [] (handlers s) s in
  (ok, if ok then mk (handlers s1) true (self s1) (runners s1) (trace s1) else s1).

Definition Stop (s : t) : t :=
  let s1 := mk (handlers s) false (self s) (runners s) (trace s) in
  foldl (fun s k => call_Stop k s) s1 (reverse (handlers s1)).

Definition Update (s : t) : t := foldl (fun s k => call_Update k s) s (handlers s).

(** *** The calls each operation makes *)

Lemma stop_fold l s :
  foldl (fun s k => call_Stop k s) s l =
  mk (handlers s) (is_running s) (self s) (runners s) (trace s ++ map EvStop l).
Proof.
  revert s. induction l as [|h l IH]; intros s; simpl.
  - rewrite app_nil_r. by destruct s.
  - rewrite IH. unfold call_Stop, emit. simpl. by rewrite <- app_assoc.
Qed.

Lemma update_fold l s :
  foldl (fun s k => call_Update k s) s l =
  mk (handlers s) (is_running s) (self s) (runners s) (trace s ++ map EvUpdate l).
Proof.
  revert s. induction l as [|h l IH]; intros s; simpl.
  - rewrite app_nil_r. by destruct s.
  - rewrite IH. unfold call_Update, emit. simpl. by rewrite <- app_assoc.
Qed.

(** The composite with the runner of [hs] set and [evs] appended to the trace. *)
Definition advanced (s : t) (hs : list nat) (evs : list Ev) : t :=
  mk (handlers s) (is_running s) (self s)
     (foldl (fun m h => <[h := self s]> m) (runners s) hs) (trace s ++ evs).

Lemma start_loop_spec started todo s ok s' :
  start_loop started todo s = (ok, s') ->
  (ok = true /\ s' = advanced s todo (map EvStart todo)) \/
  (ok = false /\ exists pre bad post, todo = pre ++ bad :: post /\
     start_ok (trace s ++ map EvStart pre) bad = false /\
     s' = advanced s (pre ++ [bad])
            (map EvStart (pre ++ [bad]) ++ map EvStop (reverse pre ++ started))).
Proof.
  revert started s. induction todo as [|h todo IH]; intros started s; simpl.
  - intros [= <- <-]. left. unfold advanced. simpl. rewrite app_nil_r. by destruct s.
  - destruct (start_ok (trace s) h) eqn:Eok.
    + intros [[-> ->]|(-> & pre & bad & post & -> & Hbad & ->)]%IH.
      * left. split; [done|]. unfold advanced; simpl. by rewrite <- app_assoc.
      * right. split; [done|]. exists (h :: pre), bad, post. split; [done|]. split.
        { simpl in *. by rewrite <- app_assoc in Hbad. }
        unfold advanced; simpl. rewrite reverse_cons, <- !app_assoc. done.
    + intros [= <- <-]. right. split; [done|]. exists [], h, todo.
      rewrite app_nil_r. split_and!; [done|done|].
      rewrite stop_fold. unfold advanced; simpl. by rewrite <- app_assoc.
Qed.

(** A successful [Start] starts every child once, in list order, and marks
    the composite running; a failing one stops exactly the children that had
    started, in reverse order, leaves the failing and the remaining ones
    alone, and stays not running. *)
Theorem start_or_rollback (s : t) :
  let '(ok, s') := Start s in
  (ok = true /\ is_running s' = true /\
     trace s' = trace s ++ map EvStart (handlers s)) \/
  (ok = false /\ is_running s' = is_running s /\ handlers s' = handlers s /\
     exists pre bad post, handlers s = pre ++ bad :: post /\
       trace s' = trace s ++ map EvStart (pre ++ [bad]) ++ map EvStop (reverse pre)).
Proof.
  unfold Start. destruct (start_loop [] (handlers s) s) as [ok s'] eqn:E.
  apply start_loop_spec in E as [[-> ->]|(-> & pre & bad & post & Hh & _ & ->)].
  - left. split_and!; done.
  - right. split_and!; [done..|]. exists pre, bad, post. split; [done|].
    simpl. by rewrite app_nil_r.
Qed.

End Children.

(** *** Lifecycle invariant *)

(** The owner's protocol: [Start] only when stopped, [Stop] and [Update] only
    when running; children may be added and removed at any time. *)
Inductive Op := OAdd (h : nat) | ORemove (h : nat) | OStart | OStop | OUpdate.

Section Owner.
Context (start_ok : list Ev -> nat -> bool).

(** The child whose [Start()] fails first when [todo] is started. *)
Fixpoint first_failure (tr : list Ev) (todo : list nat) : option nat :=
  match todo with
  | [] => None
  | h :: rest => if start_ok tr h then first_failure (tr ++ [EvStart h]) rest else Some h
  end.

(** One call, with the child that made a [Start] of the composite fail. *)
Definition step (s : t) (o : Op) : option (t * list nat) :=
  match o with
  | OAdd h => match Add start_ok h s with Ret s' => Some (s', []) | _ => None end
  | ORemove h => match Remove h s with Ret s' => Some (s', []) | _ => None end
  | OStart => if is_running s then None
              else Some (snd (Start start_ok s), option_list (first_failure (trace s) (handlers s)))
  | OStop => if is_running s then Some (Stop s, []) else None
  | OUpdate => if is_running s then Some (Update s, []) else None
  end.

Definition empty (r : option nat) : t := mk [] false r ∅ [].

(** The composite after the calls, and the children at which its [Start]
    failed, in order. *)
Definition run (r : option nat) (ops : list Op) : option (t * list nat) :=
  foldl (fun x o => '(s, bad) ← x; '(s', b) ← step s o; Some (s', bad ++ b)) (Some (empty r, [])) ops.

End Owner.

Definition count (e : Ev) (l : list Ev) : nat := length (filter (fun x => x = e) l).

(** How many more starts than stops child [h] has seen. *)
Definition live (s : t) (h : nat) : Z :=
  Z.of_nat (count (EvStart h) (trace s)) - Z.of_nat (count (EvStop h) (trace s)).

(** How often the composite failed to start because of child [h]. *)
Definition failures (bad : list nat) (h : nat) : Z := Z.of_nat (length (filter (fun k => k = h) bad)).

Lemma failures_app b1 b2 h : failures (b1 ++ b2) h = failures b1 h + failures b2 h.
Proof. unfold failures. rewrite filter_app, length_app. lia. Qed.

Lemma failures_one b h : failures [b] h = if decide (b = h) then 1 else 0.
Proof. unfold failures. case_decide; [by rewrite filter_cons_True|by rewrite filter_cons_False]. Qed.

Definition Inv (s : t) (bad : list nat) : Prop :=
  NoDup (handlers s) /\
  (forall h, live s h = failures bad h +
     (if is_running s then if decide (h ∈ handlers s) then 1 else 0 else 0)) /\
  (forall h, is_running s = true -> h ∈ handlers s -> runners s !! h = Some (self s)).

Lemma count_app e l1 l2 : count e (l1 ++ l2) = (count e l1 + count e l2)%nat.
Proof. unfold count. by rewrite filter_app, length_app. Qed.

Lemma count_map_other {A} (f : A -> Ev) e l :
  (forall x, f x <> e) -> count e (map f l) = 0%nat.
Proof.
  intros Hne. unfold count. induction l as [|x l IH]; [done|].
  simpl. rewrite filter_cons_False by done. done.
Qed.

Lemma count_map_same {A} `{EqDecision A} (f : A -> Ev) `{!Inj (=) (=) f} h l :
  NoDup l -> count (f h) (map f l) = if decide (h ∈ l) then 1%nat else 0%nat.
Proof.
  unfold count. induction 1 as [|x l Hx Hl IH]; [done|]. simpl.
  destruct (decide (x = h)) as [->|Hne].
  - rewrite filter_cons_True by done. simpl. rewrite IH.
    rewrite decide_False by done. rewrite decide_True by set_solver. done.
  - rewrite filter_cons_False by (intros ?; simplify_eq). rewrite IH.
    apply decide_ext. set_solver.
Qed.

#[local] Instance EvStart_inj : Inj (=) (=) EvStart.
Proof. by intros ?? [=]. Qed.
#[local] Instance EvStop_inj : Inj (=) (=) EvStop.
Proof. by intros ?? [=]. Qed.

(** What a list of events adds to [live]. *)
Definition gain (evs : list Ev) (h : nat) : Z :=
  Z.of_nat (count (EvStart h) evs) - Z.of_nat (count (EvStop h) evs).

Lemma gain_app l1 l2 h : gain (l1 ++ l2) h = gain l1 h + gain l2 h.
Proof. unfold gain. rewrite !count_app. lia. Qed.

Lemma gain_starts l h : NoDup l -> gain (map EvStart l) h = if decide (h ∈ l) then 1 else 0.
Proof.
  intros Hl. unfold gain. rewrite (count_map_same EvStart), count_map_other by done.
  case_decide; lia.
Qed.

Lemma gain_stops l h : NoDup l -> gain (map EvStop l) h = if decide (h ∈ l) then -1 else 0.
Proof.
  intros Hl. unfold gain. rewrite (count_map_same EvStop), count_map_other by done.
  case_decide; lia.
Qed.

Lemma gain_updates l h : gain (map EvUpdate l) h = 0.
Proof. unfold gain. by rewrite !count_map_other. Qed.

Lemma runners_after (r : option nat) (hs : list nat) (m : gmap nat (option nat)) h :
  h ∈ hs -> foldl (fun m h => <[h := r]> m) m hs !! h = Some r.
Proof.
  revert m. induction hs as [|k hs IH] using rev_ind; intros m Hin; [set_solver|].
  rewrite foldl_snoc. destruct (decide (k = h)) as [->|]; [by simplify_map_eq|].
  rewrite lookup_insert_ne by done. apply IH. set_solver.
Qed.

Lemma live_trace s s' evs h :
  trace s' = trace s ++ evs -> live s' h = live s h + gain evs h.
Proof. intros E. unfold live, gain. rewrite E, !count_app. lia. Qed.

(** Membership tests that agree give the same expected count. *)
Ltac by_membership :=
  repeat case_decide; try lia; exfalso;
  rewrite ?list_elem_of_filter, ?elem_of_reverse in *; set_solver.

Section Balance.
Context (start_ok : list Ev -> nat -> bool).

Lemma Add_inv h s s' bad : Inv s bad -> Add start_ok h s = Ret s' -> Inv s' bad.
Proof.
  intros (Hnd & Hlive & Hrun). unfold Add. case_decide as Hh; [done|].
  assert (NoDup (handlers s ++ [h])) by auto with tx.
  simpl. destruct (is_running s) eqn:E; intros [= <-]; split_and!; simpl; try done.
  - intros k. rewrite (live_trace s _ [EvStart h]) by done. rewrite Hlive, ?E.
    change [EvStart h] with (map EvStart [h]).
    rewrite gain_starts by apply NoDup_singleton. by_membership.
  - intros k _ Hk. destruct (decide (h = k)) as [->|]; [by simplify_map_eq|].
    rewrite lookup_insert_ne by done. apply Hrun; [done|]. set_solver.
Qed.

Lemma Remove_inv h s s' bad : Inv s bad -> Remove h s = Ret s' -> Inv s' bad.
Proof.
  intros (Hnd & Hlive & Hrun). unfold Remove. case_decide as Hh; [|done].
  simpl. destruct (is_running s) eqn:E; intros [= <-]; split_and!; simpl;
    try (by apply NoDup_filter); try done.
  - intros k. rewrite (live_trace s _ [EvStop h]) by done. rewrite Hlive, ?E.
    change [EvStop h] with (map EvStop [h]).
    rewrite gain_stops by apply NoDup_singleton. by_membership.
  - intros k _ [? Hk]%list_elem_of_filter. rewrite lookup_insert_ne by done. by apply Hrun.
  - by rewrite E.
  - by rewrite E.
Qed.

(** The loop of [Start()] fails at the first child whose [Start()] fails. *)
Lemma start_loop_failure started todo s ok s' :
  start_loop start_ok started todo s = (ok, s') ->
  match first_failure start_ok (trace s) todo with
  | None => ok = true
  | Some bad => ok = false /\ exists pre post, todo = pre ++ bad :: post /\
      trace s' = trace s ++ map EvStart (pre ++ [bad]) ++ map EvStop (reverse pre ++ started)
  end.
Proof.
  revert started s. induction todo as [|h todo IH]; intros started s; simpl; [by intros [= <- _]|].
  destruct (start_ok (trace s) h) eqn:Eok.
  - intros Hl%IH. simpl in Hl. destruct (first_failure _ _ todo) as [bad|]; [|done].
    destruct Hl as (-> & pre & post & -> & ->). split; [done|]. exists (h :: pre), post. split; [done|].
    simpl. by rewrite reverse_cons, <- !app_assoc.
  - intros [= <- <-]. split; [done|]. exists [], todo. split; [done|]. rewrite stop_fold. simpl. by rewrite <- app_assoc.
Qed.

Lemma start_loop_keeps started todo s ok s' :
  start_loop start_ok started todo s = (ok, s') -> handlers s' = handlers s /\ is_running s' = is_running s.
Proof. by intros [[_ ->]|(_ & ? & ? & ? & _ & _ & ->)]%start_loop_spec. Qed.

Lemma Start_inv s bad :
  Inv s bad -> is_running s = false ->
  Inv (snd (Start start_ok s)) (bad ++ option_list (first_failure start_ok (trace s) (handlers s))).
Proof.
  intros (Hnd & Hlive & Hrun) E. unfold Start.
  destruct (start_loop start_ok [] (handlers s) s) as [ok s1] eqn:El.
  pose proof (start_loop_failure _ _ _ _ _ El) as Hf. destruct (start_loop_keeps _ _ _ _ _ El) as [Hh Hr].
  destruct (first_failure _ _ _) as [b|].
  - destruct Hf as (-> & pre & post & Ht & Htr). cbn [snd]. change (option_list (Some b)) with [b].
    split_and!; [by rewrite Hh| |by rewrite Hr, E]. intros k. rewrite (live_trace s _ _ k Htr), Hlive, Hr, E.
    rewrite Ht, (cons_middle b), app_assoc in Hnd. apply NoDup_app in Hnd as (Hp & _ & _).
    pose proof Hp as (Hp1 & Hdis & _)%NoDup_app. rewrite app_nil_r, gain_app, failures_app.
    rewrite gain_starts, gain_stops, failures_one by (by rewrite ?NoDup_reverse). specialize (Hdis k).
    by_membership.
  - subst ok. apply start_loop_spec in El as [[_ ->]|[[=] _]]. cbn [snd option_list]. rewrite app_nil_r.
    split_and!; simpl; [done| |].
    + intros k. rewrite (live_trace s _ (map EvStart (handlers s))) by done.
      rewrite Hlive, E, gain_starts by done. by_membership.
    + intros k _ Hk. by apply runners_after.
Qed.

Lemma Stop_inv s bad : Inv s bad -> is_running s = true -> Inv (Stop s) bad.
Proof.
  intros (Hnd & Hlive & Hrun) E. unfold Stop. rewrite stop_fold.
  split_and!; simpl; [done| |done].
  intros k. rewrite (live_trace s _ (map EvStop (reverse (handlers s)))) by done.
  rewrite Hlive, E, gain_stops by (by rewrite NoDup_reverse). by_membership.
Qed.

Lemma Update_inv s bad : Inv s bad -> Inv (Update s) bad.
Proof.
  intros (Hnd & Hlive & Hrun). unfold Update. rewrite update_fold.
  split_and!; simpl; [done| |done].
  intros k. rewrite (live_trace s _ (map EvUpdate (handlers s))) by done.
  rewrite Hlive, gain_updates. lia.
Qed.

Lemma composite_step_inv s o s' bad b : Inv s bad -> step start_ok s o = Some (s', b) -> Inv s' (bad ++ b).
Proof.
  intros HI. destruct o; simpl; repeat case_match; intros [= <- <-]; rewrite ?app_nil_r;
    eauto using Add_inv, Remove_inv, Start_inv, Stop_inv, Update_inv.
Qed.

Lemma run_inv r ops s bad : run start_ok r ops = Some (s, bad) -> Inv s bad.
Proof.
  unfold run. revert s bad. induction ops as [|o ops IH] using rev_ind; intros s bad; simpl.
  - intros [= <- <-]. split_and!; simpl; [constructor|done|done].
  - rewrite foldl_snoc. destruct (foldl _ _ _) as [[s1 bad1]|]; simpl; [|done].
    destruct (step start_ok s1 o) as [[s2 b]|] eqn:Hs; simpl; [|done]. intros [= <- <-].
    eapply composite_step_inv; [|done]. by apply IH.
Qed.

(** C21: for children that make no calls back into the composite (for those that do
    see [Reentry]), whatever they return from [Start()]: along every sequence of
    owner calls (adding and removing children at any time, [Start] only when
    stopped, [Stop] and [Update] only when running), [Start()] has been called on
    a child exactly as often as [Stop()], plus once for each time the composite
    failed to start because of that child, plus once while the composite runs
    and the child is in its list; running children see the runner of the
    composite. *)
Theorem lifecycle_balanced (r : option nat) (ops : list Op) (s : t) (bad : list nat) (h : nat) :
  run start_ok r ops = Some (s, bad) ->
  live s h = failures bad h + (if is_running s then if decide (h ∈ handlers s) then 1 else 0 else 0) /\
  (is_running s = true -> h ∈ handlers s -> runners s !! h = Some (self s)).
Proof. intros Hs. apply run_inv in Hs as (_ & Hlive & Hrun). eauto. Qed.

End Balance.

(** Child 3 fails the first time it is started, and child 4 always. *)
Definition fails_once (tr : list Ev) (h : nat) : bool :=
  negb (bool_decide (h = 4%nat)) && (negb (bool_decide (h = 3%nat)) || bool_decide (EvStart 3 ∈ tr)).

(** The composite fails to start at child 3, having started 1 and 2, starts at
    the second attempt, and is given child 4, whose failure it ignores. *)
Definition rolled_back : list Op :=
  [OAdd 1; OAdd 2; OAdd 3; OStart; OStart; OAdd 4; OUpdate; ORemove 1].

Definition rolled : t := Eval vm_compute in
  match run fails_once (Some 9%nat) rolled_back with Some (s, _) => s | None => empty None end.

Lemma lifecycle_balanced_witness :
  trace rolled = [EvStart 1; EvStart 2; EvStart 3; EvStop 2; EvStop 1; EvStart 1; EvStart 2; EvStart 3; EvStart 4;
                  EvUpdate 1; EvUpdate 2; EvUpdate 3; EvUpdate 4; EvStop 1] /\
  live rolled 3 = 2 /\ live rolled 4 = 1 /\ live rolled 1 = 0.
Proof.
  assert (run fails_once (Some 9%nat) rolled_back = Some (rolled, [3%nat])) as E by (vm_compute; reflexivity).
  pose proof (fun h => lifecycle_balanced fails_once (Some 9%nat) rolled_back rolled [3%nat] h E) as H.
  split; [reflexivity|]. split_and!.
  - rewrite (proj1 (H 3%nat)). reflexivity.
  - rewrite (proj1 (H 4%nat)). reflexivity.
  - rewrite (proj1 (H 1%nat)). reflexivity.
Defined.

(** [Add] on a running composite ignores a failed [Start()] of the new
    child: the child stays in the list and receives the next [Update]. *)
Theorem add_ignores_failed_start :
  exists s s', is_running s = true /\
    Add (fun _ _ => false) 7%nat s = Ret s' /\ 7%nat ∈ handlers s' /\
    trace (Update s') = trace s ++ [EvStart 7; EvUpdate 7].
Proof.
  exists (mk [] true (Some 0%nat) ∅ []). eexists. split; [done|].
  split; [reflexivity|]. split; [simpl; set_solver|done].
Qed.

End Composite.
