(* ===== verification/App.v ===== *)
(** * [App]: the runners that drive a handler

    [src/pkg/app/App]: [TightRunner] (a blocking loop) and [WasmRunner] (one
    [Update()] per browser frame). The handler is a parameter: three
    operations over a world [W] that holds the runner state, because a handler
    calls [Exit()] on its runner. *)

From S2P Require Import Prelude RunLoop.

Open Scope Z_scope.
Open Scope outcome_scope.

(** What [RunLoop::IHandler] promises to a runner. *)
Class HandlerOps (W : Type) := {
  h_Start : W -> outcome (bool * W);
  h_Stop : W -> outcome W;
  h_Update : UpdateCtx.t -> W -> outcome W;
  get_runner : W -> RunnerState;
  set_runner : RunnerState -> W -> W }.

Class HandlerLaws (W : Type) `{HandlerOps W} := {
  get_set_runner : forall r w, get_runner (set_runner r w) = r }.

Section Runners.
Context {W : Type} `{HandlerOps W}.

(** The clock: the value of the n-th reading. *)
Context (clock : nat -> Z).

Definition modify_runner (f : RunnerState -> RunnerState) (w : W) : W :=
  set_runner (f (get_runner w)) w.

Definition exit_code (w : W) : option Z := exitCode (get_runner w).
Definition is_running (w : W) : bool := running (get_runner w).

(** ** TightRunner *)

(** [TightRunner::Exit]. *)
Definition Exit (code : Z) (w : W) : W :=
  modify_runner (fun r => {| exitCode := exitCode (SetExitCode code r); running := false |}) w.

(** [_running = true], set by [Run] after the handler started. *)
Definition set_running (w : W) : W :=
  modify_runner (fun r => {| exitCode := exitCode r; running := true |}) w.

(** The [while (_running)] loop; [n] counts the clock readings. *)
Fixpoint run_loop (fuel n : nat) (ctx : UpdateCtx.t) (w : W) : outcome W :=
  if is_running w then
    match fuel with
    | O => Running
    | S fuel' =>
      let ctx' := UpdateCtx.Tick (clock n) ctx in
      let! w' := h_Update ctx' w in run_loop fuel' (S n) ctx' w'
    end
  else Ret w.

(** [TightRunner::Run]. *)
Definition Run (fuel : nat) (w : W) : outcome (Z * W) :=
  let ctx := UpdateCtx.Initialize (clock 0) in
  let! started := h_Start w in
  let '(ok, w1) := started in
  if ok then
    let! w3 := run_loop fuel 1 ctx (set_running w1) in
    let! w4 := h_Stop w3 in
    Ret (default ExitCode.Success (exit_code w4), w4)
  else Ret (ExitCode.NotStarted, w1).

(** ** WasmRunner *)

(** [WasmRunner::Exit] only records the code. *)
Definition wasm_Exit (code : Z) (w : W) : W := modify_runner (SetExitCode code) w.

(** The code the asynchronous exit call reads: [GetExitCode().value_or(0)]. *)
Definition forced_exit_code (w : W) : Z := default 0 (exit_code w).

(** [WasmRunner::Update], the main-loop callback: either the loop is cancelled
    after [StopAndExit] (and the process exits with a code), or it goes on. *)
Definition wasm_Update (ctx : UpdateCtx.t) (now : Z) (w : W)
  : outcome ((UpdateCtx.t * W) + (Z * W)) :=
  match exit_code w with
  | Some code => let! w1 := h_Stop w in Ret (inr (forced_exit_code w1, w1))
  | None => let ctx' := UpdateCtx.Tick now ctx in
            let! w1 := h_Update ctx' w in Ret (inl (ctx', w1))
  end.

Fixpoint wasm_loop (fuel n : nat) (ctx : UpdateCtx.t) (w : W) : outcome (Z * W) :=
  match fuel with
  | O => Running
  | S fuel' =>
    let! r := wasm_Update ctx (clock n) w in
    match r with
    | inl (ctx', w') => wasm_loop fuel' (S n) ctx' w'
    | inr res => Ret res
    end
  end.

(** [WasmRunner::Run] followed by the frames of the browser's main loop. *)
Definition wasm_Run (fuel : nat) (w : W) : outcome (Z * W) :=
  let ctx := UpdateCtx.Initialize (clock 0) in
  let! started := h_Start w in
  let '(ok, w1) := started in
  if ok then wasm_loop fuel 1 ctx w1 else Ret (ExitCode.NotStarted, w1).

(** ** Frames of a run *)

(** The worlds after the successive [Update] calls, as a relation: [frames k n
    ctx w w'] holds when [k] updates starting at clock reading [n] lead from [w]
    to [w'] and the runner was still running before each of them. *)
Inductive frames : nat -> nat -> UpdateCtx.t -> W -> W -> Prop :=
| frames_O n ctx w : frames 0 n ctx w w
| frames_S k n ctx w w1 w2 :
    is_running w = true ->
    h_Update (UpdateCtx.Tick (clock n) ctx) w = Ret w1 ->
    frames k (S n) (UpdateCtx.Tick (clock n) ctx) w1 w2 ->
    frames (S k) n ctx w w2.

Lemma run_loop_frames k fuel n ctx w w' :
  frames k n ctx w w' -> is_running w' = false -> (k <= fuel)%nat ->
  run_loop fuel n ctx w = Ret w'.
Proof.
  intros Hf. revert fuel. induction Hf as [n ctx w|k n ctx w w1 w2 Hr Hu Hf IH];
    intros fuel Hstop Hle.
  - destruct fuel; simpl; by rewrite Hstop.
  - destruct fuel as [|fuel]; [lia|]. simpl. rewrite Hr, Hu. simpl. apply IH; [done|lia].
Qed.

Lemma run_loop_stops fuel n ctx w w' :
  run_loop fuel n ctx w = Ret w' -> is_running w' = false.
Proof.
  revert n ctx w. induction fuel as [|fuel IH]; intros n ctx w; simpl;
    destruct (is_running w) eqn:E; try congruence.
  intros (w1 & Hu & Hl)%obind_Ret. eauto.
Qed.

(** When the handler starts and the runner is asked to exit during the
    k-th update (and not before), [Run] returns after exactly those k updates
    and one [Stop], with the exit code recorded last (0 if there is none);
    when the handler does not start, it returns 126 without any update or stop. *)
Theorem Run_lifecycle (w : W) (ok : bool) (w1 : W) :
  h_Start w = Ret (ok, w1) ->
  (ok = false -> forall fuel, Run fuel w = Ret (126, w1)) /\
  (ok = true -> forall k w3 w4,
     frames k 1 (UpdateCtx.Initialize (clock 0))
       (set_running w1) w3 ->
     is_running w3 = false -> h_Stop w3 = Ret w4 ->
     forall fuel, (k <= fuel)%nat ->
     Run fuel w = Ret (default 0 (exit_code w4), w4)).
Proof.
  intros Hs. unfold Run. rewrite Hs. cbn [obind]. split.
  - by intros ->.
  - intros -> k w3 w4 Hf Hstop Hw4 fuel Hle.
    erewrite run_loop_frames by eauto. cbn [obind]. by rewrite Hw4.
Qed.

Context {HL : HandlerLaws W}.

Lemma get_modify_runner f w : get_runner (modify_runner f w) = f (get_runner w).
Proof. unfold modify_runner. apply get_set_runner. Qed.

(** C40: an [Exit()] requested while the handler starts is lost: [Run] sets
    [_running] afterwards, so if every later [Update] returns and no later frame
    asks to exit the loop runs for ever, for every amount of fuel. *)
Theorem exit_during_start_is_lost (w w1 : W) (code : Z) (quiet : W -> Prop) :
  h_Start w = Ret (true, Exit code w1) ->
  quiet (set_running (Exit code w1)) ->
  (forall ctx v, quiet v ->
     exists v', h_Update ctx v = Ret v' /\ get_runner v' = get_runner v /\ quiet v') ->
  forall fuel, Run fuel w = Running.
Proof.
  intros Hs Hq Hupd fuel. unfold Run. rewrite Hs. cbn [obind].
  enough (forall n c, run_loop fuel n c (set_running (Exit code w1)) = Running) as Hl
    by (by rewrite Hl).
  assert (is_running (set_running (Exit code w1)) = true) as Hr
    by (unfold is_running, set_running; by rewrite get_modify_runner).
  revert Hq Hr. generalize (set_running (Exit code w1)).
  induction fuel as [|fuel IH]; intros v Hq Hr m c; simpl; rewrite Hr; [done|].
  destruct (Hupd (UpdateCtx.Tick (clock m) c) v Hq) as (v' & -> & Hg & Hq'). simpl.
  apply IH; [done|]. unfold is_running in *. by rewrite Hg.
Qed.

(** The browser runner does not have that problem: an exit code recorded
    during [Start] stops the handler on the first frame and the process exits
    with the code recorded last. *)
Theorem wasm_exit_during_start (w w1 w2 : W) (code : Z) (fuel : nat) :
  h_Start w = Ret (true, wasm_Exit code w1) ->
  h_Stop (wasm_Exit code w1) = Ret w2 ->
  wasm_Run (S fuel) w = Ret (forced_exit_code w2, w2).
Proof.
  intros Hs Hst. unfold wasm_Run. rewrite Hs. cbn. unfold wasm_Update, exit_code.
  unfold wasm_Exit at 1. rewrite get_modify_runner. simpl. by rewrite Hst.
Qed.

End Runners.

(** ** A scripted handler, for evaluating the runners *)

Module Scripted.

Record world := mkWorld {
  w_runner : RunnerState; updates : nat; stops : nat;
  exit_at : option nat; start_exits : option Z }.

Definition put_runner (r : RunnerState) (w : world) : world :=
  mkWorld r (updates w) (stops w) (exit_at w) (start_exits w).

(** It calls [Exit(5)] in its [exit_at]-th update, and [Exit] inside [Start]
    when [start_exits] is given. *)
#[global] Instance ops : HandlerOps world := {|
  get_runner := w_runner;
  set_runner := put_runner;
  h_Start w := Ret (true, match start_exits w with
                          | Some c => put_runner (mkRunner (Some c) false) w
                          | None => w end);
  h_Stop w := Ret (mkWorld (w_runner w) (updates w) (S (stops w)) (exit_at w) (start_exits w));
  h_Update _ w :=
    let n := S (updates w) in
    let r := if bool_decide (exit_at w = Some n) then mkRunner (Some 5) false else w_runner w in
    Ret (mkWorld r n (stops w) (exit_at w) (start_exits w)) |}.

#[global] Instance laws : HandlerLaws world.
Proof. by split. Qed.

Definition init (at_ : option nat) (st : option Z) : world :=
  mkWorld (mkRunner None false) 0 0 at_ st.

End Scripted.

Definition tick_clock (n : nat) : Z := Z.of_nat n.

Lemma Run_lifecycle_witness :
  exists w4, Run tick_clock 3 (Scripted.init (Some 3%nat) None) =
      Ret (default 0 (exit_code w4), w4) /\
    exit_code w4 = Some 5 /\ Scripted.updates w4 = 3%nat /\ Scripted.stops w4 = 1%nat.
Proof.
  eexists. split.
  - eapply (proj2 (Run_lifecycle (H := Scripted.ops) tick_clock (Scripted.init (Some 3%nat) None) true
               (Scripted.init (Some 3%nat) None) eq_refl)
             eq_refl 3%nat);
      [do 3 (eapply frames_S; [reflexivity|reflexivity|]); apply frames_O
      |reflexivity|reflexivity|lia].
  - split_and!; reflexivity.
Defined.

Lemma exit_during_start_is_lost_witness :
  exit_code (Scripted.init None (Some 42)) = None /\
  forall fuel, Run (W := Scripted.world) tick_clock fuel (Scripted.init None (Some 42)) = Running.
Proof.
  split; [reflexivity|]. apply (exit_during_start_is_lost tick_clock (Scripted.init None (Some 42))
           (Scripted.init None (Some 42)) 42 (fun v => Scripted.exit_at v = None)).
  - reflexivity.
  - reflexivity.
  - intros ctx v Hv. eexists. split; [reflexivity|]. simpl. rewrite Hv. by split.
Defined.

Lemma wasm_exit_during_start_witness :
  exists w2, wasm_Run tick_clock 1 (Scripted.init None (Some 42)) =
      Ret (forced_exit_code w2, w2) /\
    forced_exit_code w2 = 42 /\ Scripted.stops w2 = 1%nat.
Proof.
  eexists. split.
  - apply (wasm_exit_during_start tick_clock (Scripted.init None (Some 42))
             (Scripted.put_runner (mkRunner None false) (Scripted.init None (Some 42)))
             _ 42 0); reflexivity.
  - split; reflexivity.
Defined.
