(* ===== verification/AppExit.v ===== *)
(** * The exit code of the process in the browser build

    [src/pkg/app/App/TightRunner.cpp] under Emscripten: static state, an exit
    handler registered by the constructor, and the code the last run leaves for
    it; and [Factory.cpp], which chooses a runner and its options. What Emscripten
    does is as the comment in the source says: once [emscripten_sleep] was used,
    the code [main] returns is lost and the process ends with 0, unless an exit
    handler ends it with another. *)

From S2P Require Import Prelude RunLoop App.

Open Scope Z_scope.
Open Scope outcome_scope.

(** ** The factory *)

(** [TightRunner::Options], and the choice of a runner with its options. *)
Record Options := mkOptions { wasmExitWorkaround : bool; sleepDuration : Z }.

Inductive Made := MadeWasm (Fps : Z) | MadeTight (o : Options).

Definition CreateDefaultRunner (emscripten : bool) : Made :=
  if emscripten then MadeWasm 120 else MadeTight (mkOptions true 10).

Definition CreateTestRunner (emscripten : bool) : Made := MadeTight (mkOptions false 0).

(** ** The process *)

(** The statics of [TightRunner.cpp], the registered exit handlers, and whether
    [emscripten_sleep] was used. *)
Record Process := mkProcess {
  asyncifyEnabled : bool; handlerRegistered : bool; lastExitCode : option Z;
  atexit : nat; slept : bool }.

Definition fresh_process : Process := mkProcess false false None 0 false.

(** [TightRunner::TightRunner]; [has]: [emscripten_has_asyncify()], [ok]:
    [std::atexit] succeeds. *)
Definition construct (has ok : bool) (o : Options) (p : Process) : Process :=
  if negb (handlerRegistered p) && has && wasmExitWorkaround o
  then mkProcess has true (lastExitCode p) (if ok then S (atexit p) else atexit p) (slept p)
  else mkProcess has (handlerRegistered p) (lastExitCode p) (atexit p) (slept p).

Section Run.
Context {W : Type} `{HandlerOps W} (clock : nat -> Z).

(** [TightRunner::Run] with its effect on the process: the loop yields in each
    iteration, and only a run that started leaves its code. *)
Definition Run_em (fuel : nat) (w : W) (p : Process) : outcome (Z * W * Process) :=
  let ctx := UpdateCtx.Initialize (clock 0) in
  let! started := h_Start w in
  let '(ok, w1) := started in
  if ok then
    let! w3 := run_loop clock fuel 1 ctx (set_running w1) in
    let! w4 := h_Stop w3 in
    let exitCode := default ExitCode.Success (exit_code w4) in
    Ret (exitCode, w4, mkProcess (asyncifyEnabled p) (handlerRegistered p) (Some exitCode)
                                 (atexit p) (slept p || asyncifyEnabled p))
  else Ret (ExitCode.NotStarted, w1, p).

(** The end of the process when [main] returns [code]: [OnExitHandler] calls
    [exit] with the code that was left. *)
Definition process_exit (code : Z) (p : Process) : Z :=
  match atexit p, lastExitCode p with
  | S _, Some kept => kept
  | _, _ => if slept p then 0 else code
  end.

(** The run itself is the one of [App]. *)
Lemma Run_em_is_Run fuel w p code w' p' :
  Run_em fuel w p = Ret (code, w', p') -> Run clock fuel w = Ret (code, w').
Proof.
  unfold Run_em, Run. intros (r & -> & H1)%obind_Ret. cbn. destruct r as [[] w1].
  - apply obind_Ret in H1 as (w3 & -> & H3). cbn. apply obind_Ret in H3 as (w4 & -> & H4). cbn. congruence.
  - congruence.
Qed.

(** What a run does to the process. *)
Lemma Run_em_process fuel w p code w' p' :
  Run_em fuel w p = Ret (code, w', p') ->
  atexit p' = atexit p /\
  ((lastExitCode p' = Some code /\ slept p' = slept p || asyncifyEnabled p) \/ (code = ExitCode.NotStarted /\ p' = p)).
Proof.
  unfold Run_em. intros ([[] w1] & _ & H1)%obind_Ret; [|injection H1 as <- <- <-; auto].
  apply obind_Ret in H1 as (w3 & _ & H3). apply obind_Ret in H3 as (w4 & _ & [= <- <- <-]). auto.
Qed.

(** One runner in a process: with the workaround, or without asyncify, the
    process ends with the code of the run, whether it started or not. *)
Theorem process_ends_with_run_code has ok o fuel w code w' p' :
  Run_em fuel w (construct has ok o fresh_process) = Ret (code, w', p') ->
  has = false \/ (ok = true /\ wasmExitWorkaround o = true) ->
  process_exit code p' = code.
Proof.
  intros [Ha Hp]%Run_em_process Hok. unfold process_exit. rewrite Ha. unfold construct in *. cbn in *.
  destruct Hok as [->|[-> Ho]]; [|rewrite Ho in *; destruct has]; cbn in *;
    (destruct Hp as [[Hl Hs]|[_ ->]]; cbn; rewrite ?Hl, ?Hs; done).
Qed.

(** The runners of the factory never have it where it is compiled in: with
    asyncify, a test that ran ends the process with 0 whatever its code. *)
Theorem factory_test_code_lost ok o fuel w w' p p' code :
  CreateTestRunner true = MadeTight o -> p = construct true ok o fresh_process ->
  Run_em fuel w p = Ret (code, w', p') -> code <> ExitCode.NotStarted ->
  process_exit code p' = 0.
Proof.
  intros [= <-] -> [Ha Hp]%Run_em_process Hc. unfold process_exit. rewrite Ha. cbn in *.
  destruct Hp as [[_ ->]|[? _]]; done.
Qed.

(** A second run that does not start leaves the code of the first one: the
    process ends with that, not with the code [main] returns. *)
Theorem stale_code_wins ok o fuel w1 w2 w1' w2' p1 p2 code1 :
  wasmExitWorkaround o = true -> ok = true ->
  Run_em fuel w1 (construct true ok o fresh_process) = Ret (code1, w1', p1) -> code1 <> ExitCode.NotStarted ->
  Run_em fuel w2 (construct true ok o p1) = Ret (ExitCode.NotStarted, w2', p2) -> h_Start w2 = Ret (false, w2') ->
  process_exit ExitCode.NotStarted p2 = code1.
Proof.
  intros Ho -> H1 Hc H2 Hs. apply Run_em_process in H1 as [Ha Hp].
  unfold Run_em in H2. rewrite Hs in H2. cbn in H2. injection H2 as <-. destruct Hp as [[Hl _]|[? _]]; [|done].
  unfold construct in *. cbn in Ha. rewrite Ho in *. cbn in Ha. rewrite andb_true_r in *.
  destruct (negb (handlerRegistered p1)); cbn; unfold process_exit; cbn; by rewrite ?Ha, Hl.
Qed.

End Run.

(** ** Evaluation *)

Module Demo.

(** A scripted handler that exits with 5 in its second update. *)
Definition w0 : Scripted.world := Scripted.init (Some 2%nat) None.

Definition ran (o : Options) : outcome Z :=
  let p := construct true true o fresh_process in
  let! r := Run_em tick_clock 2 w0 p in let '(code, _, p') := r in Ret (process_exit code p').

Example with_and_without : ran (mkOptions true 0) = Ret 5 /\ ran (mkOptions false 0) = Ret 0.
Proof. by split. Qed.

Lemma process_ends_with_run_code_witness :
  exists w' p', Run_em tick_clock 2 w0 (construct true true (mkOptions true 0) fresh_process) = Ret (5, w', p') /\
    process_exit 5 p' = 5.
Proof.
  eexists _, _. split; [reflexivity|].
  apply (process_ends_with_run_code (H := Scripted.ops) tick_clock true true (mkOptions true 0) 2 w0 5
    (Scripted.mkWorld (mkRunner (Some 5) false) 2 1 (Some 2%nat) None)
    (mkProcess true true (Some 5) 1 true) eq_refl). right. split; reflexivity.
Defined.

Lemma factory_test_code_lost_witness :
  exists w' p', Run_em tick_clock 2 w0 (construct true true (mkOptions false 0) fresh_process) = Ret (5, w', p') /\
    process_exit 5 p' = 0.
Proof.
  eexists _, _. split; [reflexivity|].
  by apply (factory_test_code_lost (H := Scripted.ops) tick_clock true (mkOptions false 0) 2 w0
    (Scripted.mkWorld (mkRunner (Some 5) false) 2 1 (Some 2%nat) None)
    (construct true true (mkOptions false 0) fresh_process) (mkProcess true false (Some 5) 0 true) 5 eq_refl eq_refl eq_refl).
Defined.

End Demo.
