(* ===== verification/Reentry.v ===== *)
(** * Composite handlers whose children call back

    [RunLoop.Composite] has the calls a [CompositeHandler] makes on passive
    children. Here the children act: inside [Start], [Update] and [Stop] a child
    can add and remove handlers of the same composite and ask the runner to exit.
    The loops of [src/pkg/runloop/RunLoop/CompositeHandler.cpp] walk the intrusive
    list while it changes, so the iterators are modelled: going on from a handler
    that has been unlinked dereferences null pointers. The composite is a handler
    for the runners of [App]. *)

From S2P Require Import Prelude RunLoop App.
Import Composite (Ev, EvStart, EvStop, EvUpdate).

Open Scope Z_scope.
Open Scope outcome_scope.

(** ** Walking the list *)

(** What [++it] and [--it] give at a node: [None] when the node is not linked,
    [Some None] for the end of the list (its sentinel). *)
Fixpoint succ_in (h : nat) (l : list nat) : option (option nat) :=
  match l with
  | [] => None
  | x :: l' => if decide (x = h) then Some (head l') else succ_in h l'
  end.

Definition pred_in (h : nat) (l : list nat) : option (option nat) := succ_in h (reverse l).

(** [--it] from a node or from [end()]. *)
Definition prev_of (it : option nat) (l : list nat) : option (option nat) :=
  match it with Some h => pred_in h l | None => Some (last l) end.

(** ** The composite *)

(** What a child does inside a callback; [CExit h code]: child [h] calls
    [Exit(code)] on its runner if it has one. *)
Inductive Cmd := CAdd (h : nat) | CRemove (h : nat) | CExit (h : nat) (code : Z).

Section Reentry.
Context {A : Type}.
Context (on_start : A -> nat -> A * list Cmd * bool).
Context (on_update on_stop : A -> nat -> A * list Cmd).

(** [attached]: the children whose [_runner] is set. *)
Record St := mkSt {
  handlers : list nat; is_running : bool; attached : gset nat;
  runner : RunnerState; app : A; trace : list Ev }.

Definition emit (a : A) (e : Ev) (s : St) : St :=
  mkSt (handlers s) (is_running s) (attached s) (runner s) a (trace s ++ [e]).
Definition set_handlers (l : list nat) (s : St) : St :=
  mkSt l (is_running s) (attached s) (runner s) (app s) (trace s).
Definition set_is_running (b : bool) (s : St) : St :=
  mkSt (handlers s) b (attached s) (runner s) (app s) (trace s).
Definition set_attached (x : gset nat) (s : St) : St :=
  mkSt (handlers s) (is_running s) x (runner s) (app s) (trace s).
Definition put_runner (r : RunnerState) (s : St) : St :=
  mkSt (handlers s) (is_running s) (attached s) r (app s) (trace s).

Section Calls.
Context (run : list Cmd -> St -> outcome St).

Definition call_Start (h : nat) (s : St) : outcome (bool * St) :=
  let '(a, cs, ok) := on_start (app s) h in
  let! s1 := run cs (emit a (EvStart h) s) in Ret (ok, s1).
Definition call_Update (h : nat) (s : St) : outcome St :=
  let '(a, cs) := on_update (app s) h in run cs (emit a (EvUpdate h) s).
Definition call_Stop (h : nat) (s : St) : outcome St :=
  let '(a, cs) := on_stop (app s) h in run cs (emit a (EvStop h) s).

(** [CompositeHandler::Add]. *)
Definition Add (h : nat) (s : St) : outcome St :=
  if decide (h ∈ handlers s) then Crash else
  let s1 := set_handlers (handlers s ++ [h]) s in
  if is_running s1 then
    let! r := call_Start h (set_attached ({[h]} ∪ attached s1) s1) in Ret r.2
  else Ret s1.

(** [CompositeHandler::Remove]: the iterator is taken before [Stop()]. *)
Definition Remove (h : nat) (s : St) : outcome St :=
  if decide (h ∈ handlers s) then
    let! s1 := if is_running s then call_Stop h s else Ret s in
    if decide (h ∈ handlers s1) then
      let s2 := set_handlers (filter (fun k => k <> h) (handlers s1)) s1 in
      Ret (set_attached (attached s2 ∖ {[h]}) s2)
    else Crash
  else Crash.

(** [TightRunner::Exit], reached through the child's runner. *)
Definition Exit (h : nat) (code : Z) (s : St) : St :=
  if decide (h ∈ attached s) then put_runner (mkRunner (Some code) false) s else s.

Definition call (c : Cmd) (s : St) : outcome St :=
  match c with
  | CAdd h => Add h s
  | CRemove h => Remove h s
  | CExit h code => Ret (Exit h code s)
  end.

(** The loop of [Update()]; [it] is the iterator. *)
Fixpoint update_loop (fuel : nat) (it : option nat) (s : St) : outcome St :=
  match it with
  | None => Ret s
  | Some h =>
    match fuel with
    | O => Running
    | S fuel' =>
      let! s1 := call_Update h s in
      match succ_in h (handlers s1) with
      | None => Crash
      | Some it' => update_loop fuel' it' s1
      end
    end
  end.

(** The rollback of [Start()]: [while (it != begin()) { --it; it->Stop(); }]. *)
Fixpoint rollback (fuel : nat) (h : nat) (s : St) : outcome St :=
  match pred_in h (handlers s) with
  | None => Crash
  | Some None => Ret s
  | Some (Some p) =>
    match fuel with
    | O => Running
    | S fuel' => let! s1 := call_Stop p s in rollback fuel' p s1
    end
  end.

(** The loop of [Start()]. *)
Fixpoint start_loop (fuel : nat) (it : option nat) (s : St) : outcome (bool * St) :=
  match it with
  | None => Ret (true, s)
  | Some h =>
    match fuel with
    | O => Running
    | S fuel' =>
      let! r := call_Start h (set_attached ({[h]} ∪ attached s) s) in
      let '(ok, s1) := r in
      if ok then
        match succ_in h (handlers s1) with
        | None => Crash
        | Some it' => start_loop fuel' it' s1
        end
      else let! s2 := rollback fuel' h s1 in Ret (false, s2)
    end
  end.

(** The loop of [Stop()] over [reverse_view]: a reverse iterator holds the
    position [base] after its element; the loop ends at the position of the
    element that was first when it began. *)
Fixpoint stop_loop (fuel : nat) (rend base : option nat) (s : St) : outcome St :=
  if decide (base = rend) then Ret s else
  match prev_of base (handlers s) with
  | Some (Some h) =>
    match fuel with
    | O => Running
    | S fuel' =>
      let! s1 := call_Stop h s in
      match prev_of base (handlers s1) with
      | None => Crash
      | Some base' => stop_loop fuel' rend base' s1
      end
    end
  | _ => Crash
  end.

End Calls.

(** The calls a child makes, in order and nested. *)
Fixpoint exec (fuel : nat) (cs : list Cmd) (s : St) : outcome St :=
  match cs with
  | [] => Ret s
  | c :: cs' =>
    match fuel with
    | O => Running
    | S fuel' => let! s1 := call (exec fuel') c s in exec fuel' cs' s1
    end
  end.

Context (fuel : nat).

(** [CompositeHandler::Start], [Stop] and [Update]. *)
Definition Start (s : St) : outcome (bool * St) :=
  let! r := start_loop (exec fuel) fuel (head (handlers s)) s in
  let '(ok, s1) := r in Ret (ok, if ok then set_is_running true s1 else s1).

Definition Stop (s : St) : outcome St :=
  let s1 := set_is_running false s in
  stop_loop (exec fuel) fuel (head (handlers s1)) None s1.

Definition Update (s : St) : outcome St :=
  update_loop (exec fuel) fuel (head (handlers s)) s.

#[local] Instance composite_ops : HandlerOps St := {|
  h_Start := Start; h_Stop := Stop; h_Update := fun _ => Update;
  get_runner := runner; set_runner := put_runner |}.

(** ** The life of a child *)

(** A child is started when it is not live, updated and stopped when it is:
    [Some live], or [None] once the protocol is broken. *)
Definition live_step (h : nat) (b : option bool) (e : Ev) : option bool :=
  b ← b;
  match e with
  | EvStart k => if decide (k = h) then (if b : bool then None else Some true) else Some b
  | EvUpdate k => if decide (k = h) then (if b : bool then Some true else None) else Some b
  | EvStop k => if decide (k = h) then (if b : bool then Some false else None) else Some b
  end.

Definition life (h : nat) (t : list Ev) : option bool := foldl (live_step h) (Some false) t.

(** Exactly the handlers of [l] are live, and the protocol has been kept. *)
Definition lives (l : list nat) (t : list Ev) : Prop := forall h, life h t = Some (bool_decide (h ∈ l)).

Lemma life_snoc h t e : life h (t ++ [e]) = live_step h (life h t) e.
Proof. unfold life. by rewrite foldl_app. Qed.

Lemma lives_ext l l' t : (forall h, h ∈ l <-> h ∈ l') -> lives l t -> lives l' t.
Proof. intros He Hl h. rewrite Hl. f_equal. by apply bool_decide_ext. Qed.

Lemma lives_start h l t : h ∉ l -> lives l t -> lives (l ++ [h]) (t ++ [EvStart h]).
Proof.
  intros Hh Hl k. rewrite life_snoc, Hl. cbn. case_decide as Hk.
  - subst k. rewrite bool_decide_false by done. by rewrite bool_decide_true by set_solver.
  - f_equal. apply bool_decide_ext. set_solver.
Qed.

Lemma lives_update h l t : h ∈ l -> lives l t -> lives l (t ++ [EvUpdate h]).
Proof.
  intros Hh Hl k. rewrite life_snoc, Hl. cbn. case_decide as Hk; [|done]. subst k. by rewrite bool_decide_true.
Qed.

Lemma lives_stop h l l' t :
  h ∈ l -> (forall k, k ∈ l' <-> k ∈ l /\ k <> h) -> lives l t -> lives l' (t ++ [EvStop h]).
Proof.
  intros Hh He Hl k. rewrite life_snoc, Hl. cbn. case_decide as Hk.
  - subst k. rewrite bool_decide_true by done. by rewrite bool_decide_false by naive_solver.
  - f_equal. apply bool_decide_ext. naive_solver.
Qed.

(** ** Walks *)

Lemma succ_in_app h l1 l2 : h ∉ l1 -> succ_in h (l1 ++ h :: l2) = Some (head l2).
Proof.
  induction l1 as [|x l1 IH]; intros Hh; cbn; [by rewrite decide_True|].
  rewrite decide_False by set_solver. apply IH. set_solver.
Qed.

Lemma pred_in_app h l1 l2 : h ∉ l2 -> pred_in h (l1 ++ h :: l2) = Some (last l1).
Proof.
  intros Hh. unfold pred_in. rewrite reverse_app, reverse_cons, <- app_assoc. cbn.
  rewrite succ_in_app by (by rewrite elem_of_reverse). by rewrite head_reverse.
Qed.

(** ** Children that do not remove *)

Section Additive.
(** No child removes a handler in a callback, and none adds one while it is
    being stopped. *)
Definition adds_only (c : Cmd) : Prop := match c with CRemove _ => False | _ => True end.
Definition exits_only (c : Cmd) : Prop := match c with CExit _ _ => True | _ => False end.
Context (Hstart : forall a h, Forall adds_only (on_start a h).1.2).
Context (Hupdate : forall a h, Forall adds_only (on_update a h).2).
Context (Hstop : forall a h, Forall exits_only (on_stop a h).2).

(** A running composite: its handlers are the live children. *)
Definition Live (s : St) : Prop :=
  is_running s = true /\ NoDup (handlers s) /\ lives (handlers s) (trace s).

Definition grows (s s' : St) : Prop := exists l, handlers s' = handlers s ++ l.

#[local] Instance grows_preorder : PreOrder grows.
Proof.
  split.
  - intros s. exists []. by rewrite app_nil_r.
  - intros s1 s2 s3 [l1 E1] [l2 E2]. exists (l1 ++ l2). by rewrite E2, E1, app_assoc.
Qed.

Lemma exec_live n cs s s' :
  Forall adds_only cs -> Live s -> exec n cs s = Ret s' -> Live s' /\ grows s s'.
Proof.
  revert cs s s'. induction n as [|n IH]; intros cs s s' Hcs HL; destruct cs as [|c cs]; cbn [exec];
    try done; try (intros [= <-]; by split).
  apply Forall_cons in Hcs as [Hc Hcs]. intros (s1 & H1 & H2)%obind_Ret.
  assert (Live s1 /\ grows s s1) as [HL1 HG1].
  { destruct c as [h|h|h code]; [|done|].
    - cbn [call] in H1. unfold Add in H1. case_decide as Hh; [done|]. destruct HL as (Hr & Hnd & Hl).
      cbn [is_running set_handlers] in H1. rewrite Hr in H1. apply obind_Ret in H1 as ([ok s2] & H1 & [= <-]).
      unfold call_Start in H1. destruct (on_start _ h) as [[a cs'] ok'] eqn:Eo.
      apply obind_Ret in H1 as (s3 & H3 & [= -> ->]).
      pose proof (Hstart (app s) h) as Ha. cbn in Eo. rewrite Eo in Ha. cbn in Ha.
      apply IH in H3 as [HL3 HG3]; [|done|].
      + split; [done|]. etransitivity; [|done]. by exists [h].
      + split_and!; [done|cbn; by apply NoDup_snoc|cbn; by apply lives_start].
    - injection H1 as <-. unfold Exit. case_decide; (split; [done|]); by exists []; cbn; rewrite app_nil_r. }
  apply IH in H2 as [HL2 HG2]; [|done|done]. split; [done|by etransitivity].
Qed.

Lemma exec_idle n cs s s' :
  Forall adds_only cs -> is_running s = false -> NoDup (handlers s) -> exec n cs s = Ret s' ->
  is_running s' = false /\ NoDup (handlers s') /\ trace s' = trace s /\ grows s s'.
Proof.
  revert cs s s'. induction n as [|n IH]; intros cs s s' Hcs Hr Hnd; destruct cs as [|c cs]; cbn [exec];
    try done; try (intros [= <-]; by split_and!).
  apply Forall_cons in Hcs as [Hc Hcs]. intros (s1 & H1 & H2)%obind_Ret.
  assert (is_running s1 = false /\ NoDup (handlers s1) /\ trace s1 = trace s /\ grows s s1) as (R1 & N1 & T1 & G1).
  { destruct c as [h|h|h code]; [|done|].
    - cbn [call] in H1. unfold Add in H1. case_decide as Hh; [done|]. cbn in H1. rewrite Hr in H1.
      injection H1 as <-. split_and!; cbn; [done|by apply NoDup_snoc|done|by exists [h]].
    - injection H1 as <-. unfold Exit. case_decide; split_and!; try done; exists []; cbn; by rewrite app_nil_r. }
  apply IH in H2 as (R2 & N2 & T2 & G2); try done. split_and!; [done|done|congruence|by etransitivity].
Qed.

Lemma exec_quiet n cs s s' :
  Forall exits_only cs -> exec n cs s = Ret s' ->
  is_running s' = is_running s /\ handlers s' = handlers s /\ trace s' = trace s.
Proof.
  revert cs s s'. induction n as [|n IH]; intros cs s s' Hcs; destruct cs as [|c cs]; cbn [exec];
    try done; try (intros [= <-]; done).
  apply Forall_cons in Hcs as [Hc Hcs]. destruct c; try done. cbn. intros H2%IH; [|done]. revert H2.
  unfold Exit. by case_decide.
Qed.

(** *** Update *)

Lemma update_loop_live n it s s' :
  Live s -> (forall h, it = Some h -> h ∈ handlers s) ->
  update_loop (exec fuel) n it s = Ret s' -> Live s' /\ grows s s'.
Proof.
  revert it s. induction n as [|n IH]; intros [h|] s HL Hit; cbn [update_loop]; try done; try (intros [= <-]; done).
  intros (s1 & H1 & H2)%obind_Ret. specialize (Hit h eq_refl). unfold call_Update in H1.
  pose proof (Hupdate (app s) h) as Ha. destruct (on_update (app s) h) as [a cs].
  apply exec_live in H1 as [HL1 HG1]; [|done|].
  - destruct (succ_in h (handlers s1)) as [it'|] eqn:Es; [|done]. apply IH in H2 as [HL2 HG2]; [|done|].
    + split; [done|]. etransitivity; [|exact HG2]. destruct HG1 as [l HG1]. exists l. by rewrite HG1.
    + intros k ->. clear -Es. induction (handlers s1) as [|x l IHl]; [done|]. cbn in Es. case_decide.
      * destruct l; [done|]. injection Es as ->. set_solver.
      * right. by apply IHl.
  - destruct HL as (Hr & Hnd & Hl). split_and!; cbn; [done|done|by apply lives_update].
Qed.

Lemma Update_children_live s s' : Live s -> Update s = Ret s' -> Live s' /\ grows s s'.
Proof.
  intros HL. apply update_loop_live; [done|]. intros h Hh. destruct (handlers s); [done|]. injection Hh as ->. left.
Qed.

(** *** Start *)

(** [done_] are the children started so far, the beginning of the list. *)
Definition Starting (done_ : list nat) (s : St) : Prop :=
  is_running s = false /\ NoDup (handlers s) /\ (exists todo, handlers s = done_ ++ todo) /\ lives done_ (trace s).

(** Stopping the children of a list from its end. *)
Lemma call_Stop_quiet n h s s' :
  call_Stop (exec n) h s = Ret s' ->
  is_running s' = is_running s /\ handlers s' = handlers s /\ trace s' = trace s ++ [EvStop h].
Proof.
  unfold call_Stop. pose proof (Hstop (app s) h) as Ha. destruct (on_stop (app s) h) as [a cs]. by apply exec_quiet.
Qed.

Lemma lives_stops pre l t :
  NoDup (pre ++ l) -> lives (pre ++ l) t -> lives l (t ++ (EvStop <$> reverse pre)).
Proof.
  revert l t. induction pre as [|p pre IH] using rev_ind; intros l t Hnd Hl; [by rewrite app_nil_r|].
  rewrite reverse_snoc. cbn. rewrite (cons_middle _ t), (app_assoc t).
  rewrite <- app_assoc in Hnd, Hl. apply IH.
  - eapply sublist_NoDup; [exact Hnd|]. apply sublist_app; [done|]. by apply sublist_cons.
  - eapply lives_stop; [| |exact Hl]; [set_solver|]. intros k. apply NoDup_app in Hnd as (_ & H1 & H2).
    apply NoDup_cons in H2 as [H2 _]. specialize (H1 p). set_solver.
Qed.

Lemma rollback_stops n pre h post s s' :
  handlers s = pre ++ h :: post -> NoDup (handlers s) -> rollback (exec fuel) n h s = Ret s' ->
  trace s' = trace s ++ (EvStop <$> reverse pre) /\ handlers s' = handlers s /\ is_running s' = is_running s.
Proof.
  revert pre h post s. induction n as [|n IH]; intros pre h post s Hh Hnd; cbn [rollback];
    assert (pred_in h (handlers s) = Some (last pre)) as ->
      by (rewrite Hh in *; apply pred_in_app; apply NoDup_app in Hnd as (_ & _ & Hnd); by apply NoDup_cons in Hnd as [? _]);
    (destruct pre as [|p pre _] using rev_ind; [intros [= <-]; by rewrite app_nil_r|]); rewrite last_snoc; [done|].
  intros (s1 & H1 & H2)%obind_Ret. apply call_Stop_quiet in H1 as (R1 & L1 & T1).
  rewrite <- app_assoc in Hh. cbn in Hh. apply (IH pre p (h :: post)) in H2 as (T2 & L2 & R2); [|congruence|congruence].
  split_and!; [|congruence|congruence]. rewrite T2, T1, reverse_snoc, <- app_assoc. done.
Qed.

Lemma start_loop_lives n done_ it s ok s' :
  Starting done_ s -> (exists todo, handlers s = done_ ++ todo /\ it = head todo) ->
  start_loop (exec fuel) n it s = Ret (ok, s') ->
  is_running s' = false /\ NoDup (handlers s') /\
  (if ok then lives (handlers s') (trace s') else exists bad, lives [bad] (trace s')).
Proof.
  revert done_ it s. induction n as [|n IH]; intros done_ it s (Hr & Hnd & _ & Hl) (todo & Hh & ->);
    (destruct todo as [|h todo]; cbn [start_loop head]; [intros [= <- <-]; rewrite app_nil_r in Hh; by rewrite Hh in *|]); [done|].
  intros ([ok1 s1] & H1 & H2)%obind_Ret. unfold call_Start in H1. pose proof (Hstart (app s) h) as Ha. cbn [app set_attached] in H1.
  destruct (on_start (app s) h) as [[a cs] ok0]. apply obind_Ret in H1 as (s2 & H1 & [= -> ->]).
  apply exec_idle in H1 as (R1 & N1 & T1 & [l G1]); [|done|done|done]. cbn in T1, G1, Ha. rewrite Hh, <- app_assoc in G1. cbn in G1.
  rewrite Hh in Hnd. apply NoDup_app in Hnd as Hnd'. destruct Hnd' as (_ & Hd & Ht). apply NoDup_cons in Ht as [Hht _].
  assert (h ∉ done_) as Hhd by (intros Hin; by apply (Hd h Hin); left).
  assert (lives (done_ ++ [h]) (trace s1)) as HL1 by (rewrite T1; by apply lives_start).
  destruct ok1.
  - rewrite G1, succ_in_app in H2 by done. apply (IH (done_ ++ [h])) in H2; [done| |].
    + split_and!; [done|done|exists (todo ++ l); by rewrite G1, <- app_assoc|done].
    + exists (todo ++ l). by rewrite G1, <- app_assoc.
  - apply obind_Ret in H2 as (s3 & H2 & [= <- <-]). apply (rollback_stops n done_ h (todo ++ l)) in H2 as (T3 & L3 & R3); [|done|done].
    split_and!; [congruence|congruence|]. exists h. rewrite T3. apply lives_stops; [|done].
    apply NoDup_app. split_and!; [by apply NoDup_app in Hnd as (? & _)| |apply NoDup_singleton].
    intros k Hk ->%list_elem_of_singleton. done.
Qed.

(** *** Stop *)

Lemma prev_of_head pre post :
  NoDup (pre ++ post) -> prev_of (head post) (pre ++ post) = Some (last pre).
Proof.
  intros Hnd. destruct post as [|h post]; cbn [head prev_of]; [by rewrite app_nil_r|].
  apply pred_in_app. apply NoDup_app in Hnd as (_ & _ & Hnd). by apply NoDup_cons in Hnd as [? _].
Qed.

Lemma stop_loop_stops n pre post s s' :
  handlers s = pre ++ post -> NoDup (handlers s) ->
  stop_loop (exec fuel) n (head (pre ++ post)) (head post) s = Ret s' ->
  trace s' = trace s ++ (EvStop <$> reverse pre) /\ is_running s' = is_running s /\ handlers s' = handlers s.
Proof.
  revert pre post s. induction n as [|n IH]; intros pre post s Hh Hnd; cbn [stop_loop];
    (destruct pre as [|p pre _] using rev_ind;
     [rewrite decide_True by done; intros [= <-]; by rewrite app_nil_r|]);
    rewrite decide_False by (rewrite Hh in Hnd; destruct post as [|q post]; [by destruct pre|];
      destruct pre as [|x pre]; cbn; intros [= ->]; cbn in Hnd; apply NoDup_cons in Hnd as [Hx _]; set_solver);
    assert (prev_of (head post) (handlers s) = Some (Some p)) as Hp
      by (rewrite Hh in *; by rewrite prev_of_head, last_snoc);
    rewrite Hp; [done|].
  intros (s1 & H1 & H2)%obind_Ret. apply call_Stop_quiet in H1 as (R1 & L1 & T1).
  rewrite L1, Hp in H2.
  rewrite <- app_assoc in H2, Hh. cbn in H2, Hh.
  apply (IH pre (p :: post)) in H2 as (T2 & R2 & L2); [|congruence|congruence].
  split_and!; [|congruence|congruence]. rewrite T2, T1, reverse_snoc, <- app_assoc. done.
Qed.

Lemma Stop_lives s s' :
  Live s -> Stop s = Ret s' ->
  trace s' = trace s ++ (EvStop <$> reverse (handlers s)) /\ is_running s' = false /\ lives [] (trace s').
Proof.
  intros (Hr & Hnd & Hl) Hs. unfold Stop in Hs. cbn [handlers set_is_running] in Hs.
  rewrite <- (app_nil_r (handlers s)) in Hs at 1.
  apply (stop_loop_stops fuel (handlers s) []) in Hs as (T & R & L); [|by rewrite app_nil_r|done].
  cbn in T, R. split_and!; [done|done|]. rewrite T. apply lives_stops; by rewrite app_nil_r.
Qed.

(** *** Under the runner *)

Lemma Start_children_live s ok s' :
  NoDup (handlers s) -> is_running s = false -> trace s = [] -> Start s = Ret (ok, s') ->
  if ok then Live s' else exists bad, lives [bad] (trace s').
Proof.
  intros Hnd Hr Ht (r & H1 & H2)%obind_Ret. destruct r as [ok1 s1].
  apply (start_loop_lives fuel []) in H1 as (R & N & HL).
  - injection H2 as <- <-. destruct ok1; [|done]. by split_and!.
  - split_and!; [done|done|by eexists|]. intros h. by rewrite Ht.
  - by eexists.
Qed.

Lemma run_loop_children_live clock n k ctx s s' :
  Live s -> run_loop (H := composite_ops) clock n k ctx s = Ret s' -> Live s'.
Proof.
  revert k ctx s. induction n as [|n IH]; intros k ctx s HL; cbn [run_loop]; destruct (App.is_running s);
    try done; try (by intros [= <-]).
  intros (s1 & H1 & H2)%obind_Ret. eapply IH; [|exact H2]. by eapply Update_children_live.
Qed.

(** C35: children of a composite that add handlers and ask to exit whenever they
    like, but remove none in a callback and add none while being stopped: in a
    whole run under the blocking runner, however long, every child ever in the
    composite keeps the protocol (started before it is updated, never started
    twice without a stop, updated and stopped only when live), and when [Run()]
    returns every child that was started has been stopped, except the one whose
    [Start()] failed and made the run end with 126. *)
Theorem children_keep_protocol (clock : nat -> Z) (n : nat) (s : St) (code : Z) (s' : St) :
  NoDup (handlers s) -> is_running s = false -> trace s = [] ->
  Run (H := composite_ops) clock n s = Ret (code, s') ->
  lives [] (trace s') \/ (code = ExitCode.NotStarted /\ exists bad, lives [bad] (trace s')).
Proof.
  intros Hnd Hr Ht ([ok s1] & H1 & H2)%obind_Ret. apply Start_children_live in H1; [|done..].
  destruct ok; [|injection H2 as <- <-; by right]. left.
  apply obind_Ret in H2 as (s3 & H3 & H4). apply obind_Ret in H4 as (s4 & H4 & [= <- <-]).
  apply run_loop_children_live in H3; [|done]. by eapply Stop_lives.
Qed.

End Additive.

(** ** Children that remove themselves *)

(** A child must not remove itself in its update: the loop goes on from the
    unlinked node. *)
Theorem self_removal_in_update_crashes (n : nat) (h : nat) (s : St) (a : A) :
  fuel = S n -> h ∈ handlers s -> on_update (app s) h = (a, [CRemove h]) ->
  (forall b, (on_stop b h).2 = []) ->
  update_loop (exec fuel) fuel (Some h) s = Crash.
Proof.
  intros Hf Hh Hu Hs. rewrite Hf. cbn [update_loop]. unfold call_Update. rewrite Hu.
  assert (exists s1, exec (S n) [CRemove h] (emit a (EvUpdate h) s) = Ret s1 /\ h ∉ handlers s1) as (s1 & -> & Hn).
  { assert (forall k w, exec k [] w = Ret w) as Hnil by (by intros []).
    cbn [exec call]. unfold Remove. cbn [handlers emit is_running]. rewrite decide_True by done.
    unfold call_Stop. cbn [app emit]. specialize (Hs a). destruct (on_stop a h) as [b cs]. cbn in Hs. subst cs.
    rewrite !Hnil. destruct (is_running s); cbn [obind]; cbn [handlers emit]; rewrite decide_True by done; cbn [obind];
      rewrite Hnil; (eexists; split; [done|]); cbn; rewrite list_elem_of_filter; naive_solver. }
  cbn [obind]. assert (succ_in h (handlers s1) = None) as ->; [|done].
  clear -Hn. induction (handlers s1) as [|x l IH]; [done|]. cbn. rewrite decide_False by set_solver. apply IH. set_solver.
Qed.

(** Nor in its stop: the reverse iterator then passes over the handler before
    it, which is never stopped. *)
Theorem self_removal_in_stop_skips (n : nat) (p h : nat) (s : St) (a : A) :
  fuel = S n -> p <> h -> handlers s = [p; h] -> on_stop (app s) h = (a, [CRemove h]) ->
  exists s', Stop s = Ret s' /\ trace s' = trace s ++ [EvStop h].
Proof.
  intros Hf Hne Hh Ho. unfold Stop. cbn [handlers set_is_running]. rewrite Hh, Hf. cbn [head stop_loop].
  rewrite decide_False by done. cbn [handlers set_is_running prev_of]. rewrite Hh. cbn [last].
  unfold call_Stop. cbn [app set_is_running]. rewrite Ho.
  assert (forall k w, exec k [] w = Ret w) as Hnil by (by intros []).
  cbn [exec call]. unfold Remove. cbn [handlers emit is_running set_is_running]. rewrite Hh, decide_True by set_solver.
  cbn [obind handlers emit set_is_running]. rewrite Hh, decide_True by set_solver. cbn [obind]. rewrite Hnil. cbn [obind].
  cbn [prev_of handlers set_attached set_handlers emit]. rewrite ?Hh.
  rewrite filter_cons_True, filter_cons_False, filter_nil by (try done; by intros ?). cbn [last].
  eexists. split; [destruct n; cbn [stop_loop]; by rewrite decide_True|done].
Qed.

End Reentry.

(** ** Passive children *)

Module Passive.
Section Passive.
Context (start_ok : list Ev -> nat -> bool).

(** Children that make no calls and whose [Start()] answers by the history. *)
Definition on_start (t : list Ev) (h : nat) : list Ev * list Cmd * bool := (t ++ [EvStart h], [], start_ok t h).
Definition on_update (t : list Ev) (h : nat) : list Ev * list Cmd := (t ++ [EvUpdate h], []).
Definition on_stop (t : list Ev) (h : nat) : list Ev * list Cmd := (t ++ [EvStop h], []).

Abbreviation PSt := (St (A := list Ev)).

Definition agree (s : PSt) (c : Composite.t) : Prop :=
  handlers s = Composite.handlers c /\ is_running s = Composite.is_running c /\
  trace s = Composite.trace c /\ app s = trace s.

Abbreviation run := (exec on_start on_stop).

Lemma handlers_emit a e (s : PSt) : handlers (emit a e s) = handlers s.
Proof. done. Qed.

Lemma run_nil n s : run n [] s = Ret s.
Proof. by destruct n. Qed.

Lemma call_Update_passive m h s :
  call_Update on_update (run m) h s = Ret (emit (app s ++ [EvUpdate h]) (EvUpdate h) s).
Proof. apply run_nil. Qed.

Lemma call_Stop_passive m h s : call_Stop on_stop (run m) h s = Ret (emit (app s ++ [EvStop h]) (EvStop h) s).
Proof. apply run_nil. Qed.

Lemma call_Start_passive m h s :
  call_Start on_start (run m) h s = Ret (start_ok (app s) h, emit (app s ++ [EvStart h]) (EvStart h) s).
Proof. unfold call_Start. cbn [on_start]. by rewrite run_nil. Qed.

(** What the loops leave alone, and the calls they make. *)
Definition after (s : PSt) (t : list Ev) (s' : PSt) : Prop :=
  handlers s' = handlers s /\ is_running s' = is_running s /\ trace s' = trace s ++ t /\ app s' = trace s'.

Lemma after_nil s : app s = trace s -> after s [] s.
Proof. intros Ha. unfold after. by rewrite app_nil_r. Qed.

Lemma update_loop_passive m n pre post s :
  handlers s = pre ++ post -> NoDup (handlers s) -> app s = trace s -> (length post <= n)%nat ->
  exists s', update_loop on_update (run m) n (head post) s = Ret s' /\ after s (EvUpdate <$> post) s'.
Proof.
  revert pre post s. induction n as [|n IH]; intros pre [|h post] s Hh Hnd Ha Hn; cbn in Hn; try lia;
    cbn [head update_loop]; try (exists s; split; [done|by apply after_nil]).
  rewrite call_Update_passive. cbn [obind]. rewrite handlers_emit.
  assert (succ_in h (handlers s) = Some (head post)) as ->.
  { rewrite Hh in *. apply succ_in_app. apply NoDup_app in Hnd as (_ & Hd & _). intros Hin. apply (Hd h Hin). left. }
  destruct (IH (pre ++ [h]) post (emit (app s ++ [EvUpdate h]) (EvUpdate h) s)) as (s' & -> & E1 & E2 & E3 & E4);
    [by rewrite <- app_assoc|done|cbn; by rewrite Ha|lia|].
  exists s'. split; [done|]. split_and!; [done|done|rewrite E3; cbn; by rewrite <- app_assoc|done].
Qed.

Lemma rollback_passive m n pre h post s :
  handlers s = pre ++ h :: post -> NoDup (handlers s) -> app s = trace s -> (length pre <= n)%nat ->
  exists s', rollback on_stop (run m) n h s = Ret s' /\ after s (EvStop <$> reverse pre) s'.
Proof.
  revert pre h post s. induction n as [|n IH]; intros pre h post s Hh Hnd Ha Hn; cbn [rollback];
    assert (pred_in h (handlers s) = Some (last pre)) as ->
      by (rewrite Hh in *; apply pred_in_app; apply NoDup_app in Hnd as (_ & _ & Hnd); by apply NoDup_cons in Hnd as [? _]);
    (destruct pre as [|p pre _] using rev_ind; [exists s; split; [done|by apply after_nil]|]);
    rewrite last_snoc; rewrite length_app in Hn; cbn in Hn; [lia|].
  rewrite call_Stop_passive. cbn [obind]. rewrite <- app_assoc in Hh. cbn in Hh.
  destruct (IH pre p (h :: post) (emit (app s ++ [EvStop p]) (EvStop p) s)) as (s' & -> & E1 & E2 & E3 & E4);
    [done|done|cbn; by rewrite Ha|lia|].
  exists s'. split; [done|]. split_and!; [done|done|rewrite E3, reverse_snoc; cbn; by rewrite <- app_assoc|done].
Qed.

Lemma stop_loop_passive m n pre post s :
  handlers s = pre ++ post -> NoDup (handlers s) -> app s = trace s -> (length pre <= n)%nat ->
  exists s', stop_loop on_stop (run m) n (head (pre ++ post)) (head post) s = Ret s' /\ after s (EvStop <$> reverse pre) s'.
Proof.
  revert pre post s. induction n as [|n IH]; intros pre post s Hh Hnd Ha Hn; cbn [stop_loop];
    (destruct pre as [|p pre _] using rev_ind;
     [rewrite decide_True by done; exists s; split; [done|by apply after_nil]|]);
    rewrite length_app in Hn; cbn in Hn; [lia|].
  rewrite decide_False by (rewrite Hh in Hnd; destruct post as [|q post]; [by destruct pre|];
    destruct pre as [|x pre]; cbn; intros [= ->]; cbn in Hnd; apply NoDup_cons in Hnd as [Hx _]; set_solver).
  assert (prev_of (head post) (handlers s) = Some (Some p)) as Hp
    by (rewrite Hh in *; by rewrite prev_of_head, last_snoc).
  rewrite Hp. rewrite call_Stop_passive. cbn [obind]. rewrite handlers_emit. rewrite Hp.
  rewrite <- app_assoc in Hh |- *. cbn in Hh |- *.
  destruct (IH pre (p :: post) (emit (app s ++ [EvStop p]) (EvStop p) s)) as (s' & E & E1 & E2 & E3 & E4);
    [done|done|cbn; by rewrite Ha|lia|]. cbn [head] in E. rewrite E.
  exists s'. split; [done|]. split_and!; [done|done|rewrite E3, reverse_snoc; cbn; by rewrite <- app_assoc|done].
Qed.

Lemma start_loop_passive m n pre post s c :
  handlers s = pre ++ post -> NoDup (handlers s) -> app s = trace s -> trace s = Composite.trace c ->
  (length post + length (handlers s) <= n)%nat ->
  exists s' ok t, start_loop on_start on_stop (run m) n (head post) s = Ret (ok, s') /\ after s t s' /\
    exists c', Composite.start_loop start_ok (reverse pre) post c = (ok, c') /\ Composite.trace c' = Composite.trace c ++ t.
Proof.
  revert pre post s c. induction n as [|n IH]; intros pre [|h post] s c Hh Hnd Ha Ht Hn; cbn in Hn; try lia;
    cbn [head start_loop]; try (exists s, true, []; split_and!; [done|by apply after_nil|]; exists c; cbn; by rewrite app_nil_r).
  rewrite call_Start_passive. cbn [obind]. change (app (set_attached ({[h]} ∪ attached s) s)) with (app s).
  set (s1 := emit _ _ (set_attached _ s)). cbn [Composite.start_loop Composite.call_Start].
  change (Composite.trace (Composite.SetRunner h (Composite.self c) c)) with (Composite.trace c). rewrite <- Ht, <- Ha.
  set (c1 := Composite.emit (EvStart h) _).
  assert (app s1 = trace s1) as Ha1 by (unfold s1; cbn; by rewrite Ha).
  assert (trace s1 = Composite.trace c1) as Ht1 by (unfold s1, c1; cbn; by rewrite Ht).
  change (handlers s1) with (handlers s). destruct (start_ok (app s) h) eqn:Eok.
  - assert (succ_in h (handlers s) = Some (head post)) as ->.
    { rewrite Hh in *. apply succ_in_app. apply NoDup_app in Hnd as (_ & Hd & _). intros Hin. apply (Hd h Hin). left. }
    destruct (IH (pre ++ [h]) post s1 c1) as (s' & ok & t & -> & (E1 & E2 & E3 & E4) & c' & Ec & Tc);
      [cbn; by rewrite <- app_assoc|done|done|done|cbn; lia|].
    rewrite reverse_snoc in Ec. exists s', ok, (EvStart h :: t). split_and!; [done| |].
    + split_and!; [done|done|rewrite E3; unfold s1; cbn; by rewrite <- app_assoc|done].
    + exists c'. split; [done|]. rewrite Tc. unfold c1. cbn. by rewrite <- app_assoc, Ha, Ht.
  - destruct (rollback_passive m n pre h post s1) as (s' & -> & (E1 & E2 & E3 & E4));
      [done|done|done|rewrite Hh, length_app in Hn; lia|]. cbn [obind].
    exists s', false, (EvStart h :: (EvStop <$> reverse pre)). split_and!; [done| |].
    + split_and!; [done|done|rewrite E3; unfold s1; cbn; by rewrite <- app_assoc|done].
    + eexists. split; [done|]. rewrite Composite.stop_fold. unfold c1. cbn. by rewrite <- app_assoc, Ha, Ht.
Qed.

(** The walk over the intrusive list is the walk over a list: with children
    that make no calls, the three operations of the composite, iterators and
    rollback included, make exactly the calls of the simple model
    ([RunLoop.Composite]), with the same results, and always return. *)
Theorem walks_are_list_walks (n : nat) (s : PSt) (c : Composite.t) :
  agree s c -> NoDup (handlers s) -> (2 * length (handlers s) <= n)%nat ->
  (exists s', Start on_start on_stop n s = Ret ((Composite.Start start_ok c).1, s') /\
     agree s' (Composite.Start start_ok c).2) /\
  (exists s', Update on_start on_update on_stop n s = Ret s' /\ agree s' (Composite.Update c)) /\
  (exists s', Stop on_start on_stop n s = Ret s' /\ agree s' (Composite.Stop c)).
Proof.
  intros (Hh & Hr & Ht & Ha) Hnd Hn. split_and!.
  - unfold Start, Composite.Start. destruct (start_loop_passive n n [] (handlers s) s c)
      as (s' & ok & t & -> & (E1 & E2 & E3 & E4) & c' & Ec & Tc); [done|done|done|done|lia|].
    change (reverse (@nil nat)) with (@nil nat) in Ec. rewrite <- Hh, Ec. cbn [obind fst snd]. eexists. split; [done|].
    assert (Composite.handlers c' = Composite.handlers c /\ Composite.is_running c' = Composite.is_running c) as [Hc1 Hc2].
    { apply Composite.start_loop_spec in Ec as [[_ ->]|(_ & ? & ? & ? & _ & _ & ->)]; done. }
    destruct ok; split_and!; cbn; congruence.
  - unfold Update. destruct (update_loop_passive n n [] (handlers s) s) as (s' & -> & (E1 & E2 & E3 & E4)); [done|done|done|lia|].
    eexists. split; [done|]. unfold Composite.Update. rewrite Composite.update_fold. split_and!; cbn; try congruence.
    rewrite E3, Ht, Hh. done.
  - unfold Stop. set (s0 := set_is_running false s).
    destruct (stop_loop_passive n n (handlers s) [] s0) as (s' & E & (E1 & E2 & E3 & E4));
      [by rewrite app_nil_r|done|done|lia|]. rewrite app_nil_r in E. cbn [head] in E.
    change (handlers s0) with (handlers s). rewrite E. eexists. split; [done|]. unfold Composite.Stop.
    rewrite Composite.stop_fold. unfold s0 in *. cbn [set_is_running handlers is_running trace] in *.
    split_and!; cbn [Composite.handlers Composite.is_running Composite.trace]; try congruence.
    by rewrite E3, Ht, Hh.
Qed.

End Passive.
End Passive.

(** ** Evaluation *)

Module Demo.

(** Child 0 adds child 9 in its first update and asks to exit with 7 in its
    third; the application counts updates. *)
Definition on_start (a : nat) (h : nat) : nat * list Cmd * bool := (a, [], true).
Definition on_update (a : nat) (h : nat) : nat * list Cmd :=
  if decide (h = 0%nat) then (S a, if decide (a = 0%nat) then [CAdd 9] else if decide (a = 2%nat) then [CExit 0 7] else [])
  else (a, []).
Definition on_stop (a : nat) (h : nat) : nat * list Cmd := (a, []).
Definition initial : St := mkSt [0; 1]%nat false ∅ (mkRunner None false) 0%nat [].
Definition played : outcome (Z * St) :=
  Run (H := composite_ops on_start on_update on_stop 10) tick_clock 10 initial.
Definition final : Z * St := match played with Ret r => r | _ => (0, initial) end.

Example calls : final.1 = 7 /\ trace final.2 =
  [EvStart 0; EvStart 1; EvUpdate 0; EvStart 9; EvUpdate 1; EvUpdate 9; EvUpdate 0; EvUpdate 1; EvUpdate 9;
   EvUpdate 0; EvUpdate 1; EvUpdate 9; EvStop 9; EvStop 1; EvStop 0]%nat.
Proof. vm_compute. done. Qed.

Lemma children_keep_protocol_witness :
  played = Ret final /\ (lives [] (trace final.2) \/ (final.1 = ExitCode.NotStarted /\ exists bad, lives [bad] (trace final.2))).
Proof.
  split; [vm_compute; reflexivity|].
  apply (children_keep_protocol on_start on_update on_stop 10) with (clock := tick_clock) (n := 10%nat) (s := initial).
  - intros a h. constructor.
  - intros a h. unfold on_update. repeat case_decide; repeat constructor.
  - intros a h. constructor.
  - apply (bool_decide_unpack _). vm_compute. exact I.
  - reflexivity.
  - reflexivity.
  - vm_compute. reflexivity.
Defined.

Lemma walks_are_list_walks_witness :
  exists s', Stop (Passive.on_start (fun _ _ => true)) Passive.on_stop 4
    (mkSt [3; 5]%nat true ∅ (mkRunner None true) [] []) = Ret s' /\ trace s' = [EvStop 5; EvStop 3]%nat.
Proof.
  destruct (Passive.walks_are_list_walks (fun _ _ => true) 4 (mkSt [3; 5]%nat true ∅ (mkRunner None true) [] [])
    (Composite.mk [3; 5]%nat true None ∅ [])) as (_ & _ & s' & H1 & _ & _ & H2 & _).
  - done.
  - apply (bool_decide_unpack _). vm_compute. exact I.
  - cbn. lia.
  - exists s'. split; [exact H1|rewrite H2; vm_compute; reflexivity].
Defined.

End Demo.
