(* ===== verification/TimerBackend.v ===== *)
(** * Timer backends: the interface and the frame-loop implementation

    [src/pkg/exec/Exec/Delay/ITimerBackend.h] and [LoopTimerBackend.h]. The
    callback of a timer is an identifier; running it is the [fire] argument of
    [Tick], so that callbacks may schedule and cancel timers themselves. *)

From S2P Require Import Prelude.

Open Scope Z_scope.

Definition InvalidTimerId : Z := 0.

(** ** ITimerBackend *)

Class TimerBackend (B Cb : Type) := {
  ScheduleAt : Z -> Cb -> B -> Z * B;
  Cancel : Z -> B -> bool * B;
  (** [Tick fire fuel now]: [fuel] bounds the callbacks run. *)
  Tick : forall {A : Type}, (Cb -> B * A -> B * A) -> nat -> Z -> B * A -> outcome (B * A) }.

(** A sequence of callback invocations allowed at time [now]: each one takes a
    pending timer whose deadline has passed out of the backend, then runs its
    callback. *)
Section Fires.
Context {B Cb A : Type} (wf : B -> Prop) (pending : B -> gmap Z (Z * Cb)) (issued : B -> Z).
Context (fire : Cb -> B * A -> B * A) (now : Z).

Inductive fires : B * A -> B * A -> Prop :=
| fires_done s : fires s s
| fires_one b b1 a id d cb s' :
    pending b !! id = Some (d, cb) -> d <= now ->
    wf b1 -> pending b1 = delete id (pending b) -> issued b1 = issued b ->
    fires (fire cb (b1, a)) s' -> fires (b, a) s'.
End Fires.

(** What the interface promises: an abstract map from the ids of the timers
    that may still fire to their deadline and callback. Identifiers are fresh
    and valid as long as the 64-bit counter has not been used up. *)
Class TimerBackendLaws (B Cb : Type) `{TimerBackend B Cb} := {
  wf : B -> Prop;
  pending : B -> gmap Z (Z * Cb);
  issued : B -> Z;
  schedule_law tp cb b id b' :
    wf b -> issued b + 2 < 2 ^ 64 -> ScheduleAt tp cb b = (id, b') ->
    wf b' /\ id <> InvalidTimerId /\ pending b !! id = None /\
    pending b' = <[id := (tp, cb)]> (pending b) /\ issued b' = issued b + 1;
  cancel_law id b r b' :
    wf b -> Cancel id b = (r, b') ->
    wf b' /\ pending b' = delete id (pending b) /\ issued b' = issued b /\
    r = bool_decide (is_Some (pending b !! id));
  tick_law A (fire : Cb -> B * A -> B * A) fuel now b a s' :
    (forall cb s, wf s.1 -> wf (fire cb s).1) ->
    wf b -> Tick fire fuel now (b, a) = Ret s' ->
    fires wf pending issued fire now (b, a) s' }.

(** A backend whose timers are fired by [Tick()] itself (and not by a thread):
    when the callbacks leave it alone a tick returns, with one unit of fuel
    per pending timer, and no due timer is left. *)
Class TickDriven (B Cb : Type) `{TimerBackendLaws B Cb} :=
  tick_complete A (fire : Cb -> B * A -> B * A) fuel now b a :
    (forall cb s, (fire cb s).1 = s.1) -> wf b -> (size (pending b) <= fuel)%nat ->
    exists s', Tick fire fuel now (b, a) = Ret s' /\
      forall id d cb, pending s'.1 !! id = Some (d, cb) -> now < d.

(** ** LoopTimerBackend *)

Module LoopTimer.

Section Loop.
Context {Cb : Type}.

Record Entry := mkEntry { deadline : Z; id : Z; callback : Cb }.
Record t := mk { entries : list Entry; nextId : Z }.

(** [_entries] empty, [_nextId{1}]. *)
Definition empty : t := {| entries := []; nextId := 1 |}.

(** [std::lower_bound(begin, end, tp, e.deadline < tp)]: binary search on the
    range [first, first + len); [fuel] counts the halvings. *)
Fixpoint lower_bound_loop (fuel : nat) (l : list Entry) (tp : Z) (first len : nat) : nat :=
  match fuel with
  | O => first
  | S fuel' =>
    if bool_decide (len = 0%nat) then first else
    let half := (len / 2)%nat in
    let mid := (first + half)%nat in
    match l !! mid with
    | None => first
    | Some e =>
      if deadline e <? tp then lower_bound_loop fuel' l tp (mid + 1) (len - half - 1)
      else lower_bound_loop fuel' l tp first half
    end
  end.

Definition lower_bound (l : list Entry) (tp : Z) : nat :=
  lower_bound_loop (length l) l tp 0 (length l).

(** [_entries.insert(it, entry)]. *)
Definition insert_at (k : nat) (e : Entry) (l : list Entry) : list Entry :=
  take k l ++ e :: drop k l.

Definition loop_ScheduleAt (tp : Z) (cb : Cb) (b : t) : Z * t :=
  let i := nextId b in
  (i, {| entries := insert_at (lower_bound (entries b) tp) (mkEntry tp i cb) (entries b);
         nextId := wrap64 (nextId b + 1) |}).

(** [find_if] by id, then [erase]. *)
Fixpoint erase_id (i : Z) (l : list Entry) : option (list Entry) :=
  match l with
  | [] => None
  | e :: l' => if id e =? i then Some l' else l'' ← erase_id i l'; Some (e :: l'')
  end.

Definition loop_Cancel (i : Z) (b : t) : bool * t :=
  match erase_id i (entries b) with
  | None => (false, b)
  | Some l => (true, {| entries := l; nextId := nextId b |})
  end.

(** The loop of [Tick()]: the front entry is moved out before its callback
    runs, and the test is made again on whatever the callback left. *)
Fixpoint loop_Tick {A} (fire : Cb -> t * A -> t * A) (fuel : nat) (now : Z) (s : t * A)
  : outcome (t * A) :=
  match entries s.1 with
  | [] => Ret s
  | e :: rest =>
    if deadline e <=? now then
      match fuel with
      | O => Running
      | S fuel' => loop_Tick fire fuel' now
                     (fire (callback e) ({| entries := rest; nextId := nextId s.1 |}, s.2))
      end
    else Ret s
  end.

#[global] Instance loop_backend : TimerBackend t Cb :=
  {| ScheduleAt := loop_ScheduleAt; Cancel := loop_Cancel; Tick := @loop_Tick |}.

(** *** Binary search against its reference *)

Definition by_deadline (e1 e2 : Entry) : Prop := deadline e1 <= deadline e2.

(** The number of leading entries with an earlier deadline. *)
Fixpoint partition_point (l : list Entry) (tp : Z) : nat :=
  match l with
  | [] => O
  | e :: l' => if deadline e <? tp then S (partition_point l' tp) else O
  end.

Lemma partition_point_le l tp : (partition_point l tp <= length l)%nat.
Proof. induction l as [|e l IH]; simpl; [lia|]. case_match; lia. Qed.

Lemma partition_point_before l tp k e :
  (k < partition_point l tp)%nat -> l !! k = Some e -> deadline e < tp.
Proof.
  revert k. induction l as [|x l IH]; intros k Hk He; simpl in Hk; [lia|].
  destruct (deadline x <? tp) eqn:E; [|lia]. reflect_bools.
  destruct k as [|k]; [by simplify_eq/=|]. apply (IH k); [lia|done].
Qed.

Lemma partition_point_from l tp k e :
  StronglySorted by_deadline l ->
  (partition_point l tp <= k)%nat -> l !! k = Some e -> tp <= deadline e.
Proof.
  intros Hs. revert k. induction Hs as [|x l Hs IH Hx]; intros k Hk He; [done|].
  simpl in Hk. destruct (deadline x <? tp) eqn:E; reflect_bools.
  - destruct k as [|k]; [lia|]. apply (IH k); [lia|done].
  - destruct k as [|k]; simplify_eq/=; [lia|].
    rewrite Forall_lookup in Hx. specialize (Hx _ _ He). unfold by_deadline in Hx. lia.
Qed.

Lemma lower_bound_loop_correct l tp fuel first len :
  StronglySorted by_deadline l ->
  (len <= fuel)%nat -> (first + len <= length l)%nat ->
  (first <= partition_point l tp <= first + len)%nat ->
  lower_bound_loop fuel l tp first len = partition_point l tp.
Proof.
  intros Hs. revert first len. induction fuel as [|fuel IH]; intros first len Hf Hl Hp;
    cbn [lower_bound_loop]; [lia|].
  case_bool_decide as Hlen; [lia|].
  pose proof (Nat.div_lt len 2 ltac:(lia) ltac:(lia)) as Hhalf.
  destruct (lookup_lt_is_Some_2 l (first + len / 2)) as [e He]; [lia|]. rewrite He.
  destruct (deadline e <? tp) eqn:E; reflect_bools.
  - assert (first + len / 2 < partition_point l tp)%nat.
    { destruct (le_lt_dec (partition_point l tp) (first + len / 2)) as [Hle|]; [|done].
      pose proof (partition_point_from l tp _ _ Hs Hle He). lia. }
    apply IH; lia.
  - assert (partition_point l tp <= first + len / 2)%nat.
    { destruct (le_lt_dec (partition_point l tp) (first + len / 2)) as [|Hlt]; [done|].
      pose proof (partition_point_before l tp _ _ Hlt He). lia. }
    apply IH; lia.
Qed.

Lemma lower_bound_correct (l : list Entry) (tp : Z) :
  StronglySorted by_deadline l -> lower_bound l tp = partition_point l tp.
Proof.
  intros Hs. pose proof (partition_point_le l tp).
  apply lower_bound_loop_correct; [done|lia|lia|lia].
Qed.

(** On a vector sorted by deadline the binary search of [ScheduleAt] finds
    the number of entries with a strictly earlier deadline. *)
Theorem lower_bound_is_partition_point (l : list Entry) (tp : Z) :
  StronglySorted by_deadline l -> lower_bound l tp = partition_point l tp.
Proof. apply lower_bound_correct. Qed.

(** *** Invariant and abstract contents *)

Definition key (e : Entry) : Z * (Z * Cb) := (id e, (deadline e, callback e)).
Definition contents (l : list Entry) : gmap Z (Z * Cb) := list_to_map (key <$> l).

Definition loop_pending (b : t) : gmap Z (Z * Cb) := contents (entries b).
Definition loop_issued (b : t) : Z := nextId b - 1.

(** Sorted by deadline, identifiers distinct and already handed out. *)
Definition loop_wf (b : t) : Prop :=
  StronglySorted by_deadline (entries b) /\ NoDup (id <$> entries b) /\
  Forall (fun e => 1 <= id e < nextId b) (entries b) /\ 1 <= nextId b < 2 ^ 64.

Lemma keys_fst (l : list Entry) : (key <$> l).*1 = id <$> l.
Proof. induction l as [|e l IH]; [done|]. simpl. by f_equal. Qed.

Lemma contents_perm (l l' : list Entry) :
  NoDup (id <$> l) -> l ≡ₚ l' -> contents l = contents l'.
Proof.
  intros Hn Hp. apply list_to_map_proper; [by rewrite keys_fst|]. by rewrite Hp.
Qed.

Lemma contents_absent (l : list Entry) i : i ∉ id <$> l -> contents l !! i = None.
Proof. intros Hi. apply not_elem_of_list_to_map_1. by rewrite keys_fst. Qed.

Lemma contents_cons e (l : list Entry) : contents (e :: l) = <[id e := (deadline e, callback e)]> (contents l).
Proof. done. Qed.

(** Taking one entry out of a duplicate-free list deletes its identifier. *)
Lemma contents_remove (l l' : list Entry) e :
  NoDup (id <$> l) -> l ≡ₚ e :: l' -> contents l' = delete (id e) (contents l).
Proof.
  intros Hn Hp. rewrite (contents_perm l (e :: l')) by done. rewrite contents_cons.
  rewrite Hp in Hn. simpl in Hn. apply NoDup_cons in Hn as [Hin _].
  rewrite delete_insert_id; [done|]. by apply contents_absent.
Qed.

Lemma insert_at_perm k e (l : list Entry) : insert_at k e l ≡ₚ e :: l.
Proof. unfold insert_at. rewrite <- Permutation_middle. by rewrite take_drop. Qed.

Lemma insert_sorted e (l : list Entry) :
  StronglySorted by_deadline l ->
  StronglySorted by_deadline (insert_at (partition_point l (deadline e)) e l).
Proof.
  induction 1 as [|x l Hs IH Hx]; [repeat constructor|]. simpl.
  destruct (deadline x <? deadline e) eqn:E; reflect_bools.
  - change (insert_at (S ?p) e (x :: l)) with (x :: insert_at p e l). constructor; [done|].
    rewrite insert_at_perm. constructor; [unfold by_deadline; lia|done].
  - constructor; [by constructor|]. constructor; [unfold by_deadline; lia|].
    eapply Forall_impl; [done|]. unfold by_deadline. intros; lia.
Qed.

Lemma erase_id_Some i (l l' : list Entry) :
  erase_id i l = Some l' ->
  exists l1 e l2, l = l1 ++ e :: l2 /\ l' = l1 ++ l2 /\ id e = i.
Proof.
  revert l'. induction l as [|x l IH]; intros l'; simpl; [done|].
  destruct (id x =? i) eqn:E; reflect_bools.
  - intros [= <-]. by exists [], x, l.
  - destruct (erase_id i l) as [l0|]; [|done]. intros [= <-].
    destruct (IH l0 eq_refl) as (l1 & e & l2 & -> & -> & ?). by exists (x :: l1), e, l2.
Qed.

Lemma erase_id_None i (l : list Entry) : erase_id i l = None -> i ∉ id <$> l.
Proof.
  induction l as [|x l IH]; simpl; [set_solver|].
  destruct (id x =? i) eqn:E; reflect_bools; [done|].
  destruct (erase_id i l); [done|]. intros _. rewrite not_elem_of_cons. naive_solver.
Qed.

Lemma loop_empty_wf : loop_wf empty.
Proof. split_and!; simpl; [constructor|constructor|constructor|lia|lia]. Qed.

(** A sub-list of a well-formed one (entries dropped, order kept). *)
Lemma loop_wf_drop l1 e l2 n :
  loop_wf (mk (l1 ++ e :: l2) n) -> loop_wf (mk (l1 ++ l2) n).
Proof.
  intros (Hs & Hn & Hf & Hb). simpl in *.
  assert (l1 ++ e :: l2 ≡ₚ e :: l1 ++ l2) as Hp by (symmetry; apply Permutation_middle).
  split_and!; simpl; [| | |lia|lia].
  - apply StronglySorted_app in Hs as (H12 & H1 & [_ H2]%StronglySorted_cons).
    apply StronglySorted_app. split_and!; [|done|done]. intros; apply H12; set_solver.
  - rewrite Hp in Hn. by apply NoDup_cons in Hn as [_ ?].
  - rewrite Hp in Hf. by inv Hf.
Qed.

Lemma loop_schedule_ok tp cb b i b' :
  loop_wf b -> loop_issued b + 2 < 2 ^ 64 -> loop_ScheduleAt tp cb b = (i, b') ->
  loop_wf b' /\ i <> InvalidTimerId /\ loop_pending b !! i = None /\
  loop_pending b' = <[i := (tp, cb)]> (loop_pending b) /\ loop_issued b' = loop_issued b + 1.
Proof.
  intros (Hs & Hn & Hf & Hb) Hbound [= <- <-]. unfold loop_issued, loop_pending in *. simpl.
  rewrite lower_bound_correct by done.
  set (e := mkEntry tp (nextId b) cb).
  assert (wrap64 (nextId b + 1) = nextId b + 1) as Hw by (apply wrap64_small; lia).
  assert (nextId b ∉ id <$> entries b) as Hfresh.
  { intros (x & Hx & Hin)%list_elem_of_fmap. rewrite Forall_forall in Hf.
    specialize (Hf x Hin). simpl in Hf. lia. }
  assert (NoDup (id <$> insert_at (partition_point (entries b) tp) e (entries b))) as Hn'.
  { rewrite insert_at_perm. simpl. by constructor. }
  rewrite Hw. unfold loop_wf, InvalidTimerId.
  split_and!; simpl; [by apply (insert_sorted e)|done| |lia|lia|lia| | |lia].
  - rewrite insert_at_perm. constructor; simpl; [lia|].
    eapply Forall_impl; [done|]. simpl; intros; lia.
  - by apply contents_absent.
  - by rewrite (contents_perm _ _ Hn' (insert_at_perm _ _ _)).
Qed.

Lemma loop_schedule_wf tp cb b :
  loop_wf b -> loop_issued b + 2 < 2 ^ 64 -> loop_wf (loop_ScheduleAt tp cb b).2.
Proof.
  intros Hwf Hb. destruct (loop_ScheduleAt tp cb b) as [i b'] eqn:E.
  by apply (loop_schedule_ok tp cb b i b').
Qed.

Lemma loop_cancel_ok i b r b' :
  loop_wf b -> loop_Cancel i b = (r, b') ->
  loop_wf b' /\ loop_pending b' = delete i (loop_pending b) /\
  loop_issued b' = loop_issued b /\ r = bool_decide (is_Some (loop_pending b !! i)).
Proof.
  intros Hwf. unfold loop_Cancel, loop_pending. destruct b as [l n].
  destruct (erase_id i (entries (mk l n))) as [l'|] eqn:E; intros [= <- <-]; simpl in *.
  - apply erase_id_Some in E as (l1 & e & l2 & -> & -> & <-).
    destruct (Hwf) as (_ & Hn & _). simpl in Hn.
    assert (l1 ++ e :: l2 ≡ₚ e :: l1 ++ l2) as Hp by (symmetry; apply Permutation_middle).
    split_and!; [by eapply loop_wf_drop|by eapply contents_remove|done|].
    rewrite (contents_perm _ _ Hn Hp), contents_cons, lookup_insert_eq.
    by rewrite bool_decide_eq_true_2.
  - apply erase_id_None, contents_absent in E.
    split_and!; [done|by rewrite delete_id|done|]. by rewrite E, bool_decide_eq_false_2 by (by intros []).
Qed.

Lemma loop_tick_ok A (fire : Cb -> t * A -> t * A) fuel now b a s' :
  (forall cb s, loop_wf s.1 -> loop_wf (fire cb s).1) ->
  loop_wf b -> loop_Tick fire fuel now (b, a) = Ret s' ->
  fires loop_wf loop_pending loop_issued fire now (b, a) s'.
Proof.
  intros Hfire. revert b a. induction fuel as [|fuel IH]; intros [l n] a Hwf; simpl;
    destruct l as [|e l]; try (intros [= <-]; constructor);
    destruct (deadline e <=? now) eqn:E; try done; try (intros [= <-]; constructor).
  intros Ht. reflect_bools.
  assert (loop_wf (mk l n)) as Hwf1 by (by apply (loop_wf_drop [] e l)).
  specialize (Hfire (callback e) (mk l n, a) Hwf1).
  destruct (fire (callback e) (mk l n, a)) as [b2 a2] eqn:Ef.
  eapply (fires_one _ _ _ _ _ _ (mk l n) _ (id e)); [| |done| | |].
  - unfold loop_pending. simpl. apply lookup_insert_eq.
  - done.
  - destruct Hwf as (_ & Hn & _). by apply (contents_remove (e :: l)).
  - done.
  - rewrite Ef. by apply IH.
Qed.

(** [LoopTimerBackend] implements the [ITimerBackend] contract: ids are
    fresh and valid, [Cancel] removes exactly the named timer and reports
    whether it was still pending, [Tick] only fires due timers and takes each
    one out first. *)
#[global] Instance loop_laws : TimerBackendLaws t Cb := {|
  wf := loop_wf; pending := loop_pending; issued := loop_issued;
  schedule_law := loop_schedule_ok; cancel_law := loop_cancel_ok;
  tick_law := loop_tick_ok |}.

(** *** What a tick does *)

(** The entries a tick at [now] has to fire. *)
Definition due (now : Z) (l : list Entry) : list Entry := filter (fun e => deadline e <= now) l.
Definition not_due (now : Z) (l : list Entry) : list Entry := filter (fun e => now < deadline e) l.

Lemma sorted_head_all e (l : list Entry) now :
  StronglySorted by_deadline (e :: l) -> now < deadline e ->
  Forall (fun x => now < deadline x) (e :: l).
Proof.
  intros [Hx Hs]%StronglySorted_cons He. constructor; [done|].
  eapply Forall_impl; [done|]. unfold by_deadline. intros; lia.
Qed.

Lemma loop_Tick_post A (fire : Cb -> t * A -> t * A) fuel now s s' :
  (forall cb s, loop_wf s.1 -> loop_wf (fire cb s).1) ->
  loop_wf s.1 -> loop_Tick fire fuel now s = Ret s' ->
  loop_wf s'.1 /\ Forall (fun e => now < deadline e) (entries s'.1).
Proof.
  intros Hfire. revert s. induction fuel as [|fuel IH]; intros [[l n] a] Hwf; simpl in *;
    destruct l as [|e l]; try (intros [= <-]; simpl; by split; [|constructor]);
    destruct (deadline e <=? now) eqn:E; try done; reflect_bools;
    try (intros [= <-]; simpl; split; [done|]; destruct Hwf; by apply sorted_head_all).
  intros Ht. eapply IH; [|exact Ht]. apply Hfire. by apply (loop_wf_drop [] e l n).
Qed.

Lemma due_head e (l : list Entry) now : deadline e <= now -> due now (e :: l) = e :: due now l.
Proof. intros. unfold due. by rewrite filter_cons_True. Qed.

Lemma loop_Tick_returns A (fire : Cb -> t * A -> t * A) now fuel s :
  (forall cb s, (length (due now (entries (fire cb s).1)) <= length (due now (entries s.1)))%nat) ->
  (length (due now (entries s.1)) <= fuel)%nat ->
  exists s', loop_Tick fire fuel now s = Ret s'.
Proof.
  intros Hdue. revert s. induction fuel as [|fuel IH]; intros [[l n] a0] Hle; simpl in *;
    destruct l as [|e l]; try (by eexists);
    destruct (deadline e <=? now) eqn:E; try (by eexists); reflect_bools;
    rewrite due_head in Hle by done; simpl in Hle; [lia|].
  apply IH. etransitivity; [apply Hdue|]. simpl. lia.
Qed.

Lemma size_loop_pending b : loop_wf b -> size (loop_pending b) = length (entries b).
Proof.
  intros (_ & Hn & _). unfold loop_pending, contents.
  rewrite <- length_map_to_list, map_to_list_to_map by (by rewrite keys_fst).
  by rewrite length_fmap.
Qed.

(** [LoopTimerBackend] is driven by [Tick()]. *)
#[global] Instance loop_tick_driven : TickDriven t Cb.
Proof.
  intros A fire fuel now b a Hquiet Hwf Hsize.
  assert (forall cb s, loop_wf s.1 -> loop_wf (fire cb s).1) as Hfire
    by (intros; by rewrite Hquiet).
  destruct (loop_Tick_returns A fire now fuel (b, a)) as [s' Hs'].
  - intros. by rewrite Hquiet.
  - simpl. unfold due. etransitivity; [apply length_filter|].
    rewrite <- size_loop_pending by done. done.
  - exists s'. split; [done|].
    destruct (loop_Tick_post A fire fuel now (b, a) s' Hfire Hwf Hs') as [_ Hall].
    intros i d cb (e & He & Hin)%elem_of_list_to_map_2%list_elem_of_fmap.
    rewrite Forall_forall in Hall. specialize (Hall e Hin). unfold key in He. simpl in Hall. by simplify_eq.
Qed.

(** A tick returns whenever the callbacks do not add due timers (they may
    add later ones and cancel any), after at most as many callbacks as there
    are due timers, and leaves no due timer behind. *)
Theorem tick_drains_due A (fire : Cb -> t * A -> t * A) (now : Z) (b : t) (a : A) :
  (forall cb s, loop_wf s.1 -> loop_wf (fire cb s).1) ->
  (forall cb s, (length (due now (entries (fire cb s).1)) <= length (due now (entries s.1)))%nat) ->
  loop_wf b ->
  exists b' a', loop_Tick fire (length (due now (entries b))) now (b, a) = Ret (b', a') /\
    loop_wf b' /\ Forall (fun e => now < deadline e) (entries b').
Proof.
  intros Hfire Hdue Hwf.
  destruct (loop_Tick_returns A fire now (length (due now (entries b))) (b, a)) as [[b' a'] Ht];
    [done|done|].
  exists b', a'. split; [done|]. by apply (loop_Tick_post _ _ _ _ _ _ Hfire) in Ht.
Qed.

(** When the callbacks leave the backend alone, a tick runs exactly the due
    timers, each once, in the order of the vector (by deadline), and keeps
    exactly the others. *)
Theorem tick_fires_due_in_order A (g : Cb -> A -> A) (now : Z) (b : t) (a : A) :
  loop_wf b ->
  loop_Tick (fun cb s => (s.1, g cb s.2)) (length (due now (entries b))) now (b, a) =
  Ret (mk (not_due now (entries b)) (nextId b),
       foldl (fun a e => g (callback e) a) a (due now (entries b))).
Proof.
  intros Hwf. revert a. destruct b as [l n]. induction l as [|e l IH]; intros a; [done|].
  cbn [entries nextId] in *.
  destruct (decide (deadline e <= now)) as [Hd|Hd].
  - rewrite due_head by done. simpl.
    rewrite (proj2 (Z.leb_le _ _)) by done. unfold not_due.
    rewrite filter_cons_False by lia. apply IH. by apply (loop_wf_drop [] e l).
  - destruct Hwf as (Hs & _). simpl in Hs.
    assert (Forall (fun x => now < deadline x) (e :: l)) as Hall
      by (apply sorted_head_all; [done|lia]).
    assert (due now (e :: l) = []) as ->.
    { apply filter_none. eapply Forall_impl; [exact Hall|]. simpl; intros; lia. }
    assert (not_due now (e :: l) = e :: l) as ->.
    { by apply filter_all. }
    simpl. by rewrite (proj2 (Z.leb_gt _ _)) by lia.
Qed.

(** C5: the three operations of the loop backend, from any well-formed state
    (sorted by deadline, ids distinct and already issued). [ScheduleAt], while
    64-bit ids are left, hands out a fresh valid id and adds exactly that timer;
    [Cancel] removes exactly the named timer and tells whether it was pending.
    [Tick], for callbacks that keep the backend well formed and add no timer that
    is already due, returns, each callback it runs is that of a timer pending and
    due at that moment, taken out first, and no due timer is left; when the
    callbacks leave the backend alone it runs exactly the due timers, once each,
    by deadline, and keeps exactly the others. *)
Theorem loop_timer_contract (b : t) :
  loop_wf b ->
  (forall tp cb, loop_issued b + 2 < 2 ^ 64 ->
     let '(i, b') := loop_ScheduleAt tp cb b in
     loop_wf b' /\ i <> InvalidTimerId /\ loop_pending b !! i = None /\
     loop_pending b' = <[i := (tp, cb)]> (loop_pending b)) /\
  (forall i, let '(r, b') := loop_Cancel i b in
     loop_wf b' /\ loop_pending b' = delete i (loop_pending b) /\
     r = bool_decide (is_Some (loop_pending b !! i))) /\
  (forall A (fire : Cb -> t * A -> t * A) now a,
     (forall cb s, loop_wf s.1 -> loop_wf (fire cb s).1) ->
     (forall cb s, (length (due now (entries (fire cb s).1)) <= length (due now (entries s.1)))%nat) ->
     exists s', loop_Tick fire (length (due now (entries b))) now (b, a) = Ret s' /\
       loop_wf s'.1 /\ Forall (fun e => now < deadline e) (entries s'.1) /\
       fires loop_wf loop_pending loop_issued fire now (b, a) s') /\
  (forall A (g : Cb -> A -> A) now a,
     loop_Tick (fun cb s => (s.1, g cb s.2)) (length (due now (entries b))) now (b, a) =
     Ret (mk (not_due now (entries b)) (nextId b),
          foldl (fun a e => g (callback e) a) a (due now (entries b)))).
Proof.
  intros Hwf. split_and!.
  - intros tp cb Hb. destruct (loop_ScheduleAt tp cb b) as [i b'] eqn:E.
    by destruct (loop_schedule_ok tp cb b i b' Hwf Hb E) as (?&?&?&?&_).
  - intros i. destruct (loop_Cancel i b) as [r b'] eqn:E.
    by destruct (loop_cancel_ok i b r b' Hwf E) as (?&?&_&?).
  - intros A fire now a Hfire Hdue.
    destruct (tick_drains_due A fire now b a Hfire Hdue Hwf) as (b' & a' & Ht & Hwf' & Hall).
    exists (b', a'). split_and!; [done|done|done|]. by eapply loop_tick_ok.
  - intros A g now a. by apply tick_fires_due_in_order.
Qed.

(** A timer scheduled by a callback at a deadline that has passed is fired
    by the same [Tick()], not by the next one: a callback that re-arms itself
    this way keeps [Tick()] running for ever. *)
Theorem rearmed_timer_fires_in_same_tick (now tp : Z) (cb : Cb) (b : t) :
  tp <= now -> entries b = [] ->
  forall fuel, loop_Tick (A := nat)
    (fun c s => ((loop_ScheduleAt tp c s.1).2, S s.2)) fuel now
    ((loop_ScheduleAt tp cb b).2, O) = Running.
Proof.
  intros Htp Hb fuel. generalize 0%nat as n. revert b Hb.
  induction fuel as [|fuel IH]; intros b Hb n; simpl; rewrite Hb; simpl;
    rewrite (proj2 (Z.leb_le _ _)) by done; [done|].
  by apply (IH (mk [] (wrap64 (nextId b + 1)))).
Qed.

End Loop.

Arguments Entry : clear implicits.
Arguments t : clear implicits.

(** *** Witnesses: three timers, two with the same deadline *)

Definition three : t nat :=
  (loop_ScheduleAt 5 3%nat (loop_ScheduleAt 9 2%nat (loop_ScheduleAt 5 1%nat empty).2).2).2.

Lemma three_wf : loop_wf three.
Proof.
  do 3 (apply loop_schedule_wf; [|vm_compute; done]). apply loop_empty_wf.
Defined.

Lemma lower_bound_is_partition_point_witness : lower_bound (entries three) 6 = 2%nat.
Proof.
  etransitivity; [apply (lower_bound_is_partition_point (entries three) 6)|reflexivity].
  apply three_wf.
Defined.

Lemma loop_timer_contract_witness :
  let '(r, b') := loop_Cancel 2 three in
  r = true /\ loop_pending b' = delete 2 (loop_pending three).
Proof.
  destruct (loop_Cancel 2 three) as [r b'] eqn:E.
  pose proof (proj1 (proj2 (loop_timer_contract three three_wf)) 2) as H. rewrite E in H.
  destruct H as (_ & Hp & Hr). split; [rewrite Hr; vm_compute; done|done].
Defined.

Lemma tick_drains_due_witness :
  exists b' a', loop_Tick (fun _ (s : t nat * nat) => (s.1, S s.2)) 2 5 (three, 0%nat) = Ret (b', a') /\
    loop_wf b' /\ Forall (fun e => 5 < deadline e) (entries b').
Proof.
  apply (tick_drains_due nat (fun _ s => (s.1, S s.2)) 5 three 0%nat);
    [done|done|apply three_wf].
Defined.

Lemma tick_fires_due_in_order_witness :
  loop_Tick (fun cb (s : t nat * list nat) => (s.1, s.2 ++ [cb])) 2 5 (three, []) =
  Ret (mk [mkEntry 9 2 2%nat] 4, [3; 1]%nat).
Proof.
  etransitivity; [apply (tick_fires_due_in_order (list nat) (fun cb a => a ++ [cb]) 5 three [])|];
    [apply three_wf|vm_compute; done].
Defined.

Lemma rearmed_timer_fires_in_same_tick_witness :
  forall fuel, loop_Tick (A := nat)
    (fun c s => ((loop_ScheduleAt 1 c s.1).2, S s.2)) fuel 2
    ((loop_ScheduleAt 1 7%nat empty).2, O) = Running.
Proof. apply (rearmed_timer_fires_in_same_tick 2 1 7%nat empty); [lia|done]. Defined.

End LoopTimer.
