(* ===== verification/ThreadTimer.v ===== *)
(** * [ThreadTimerBackend]: timers fired from a background thread

    [src/pkg/exec/Exec/Delay/ThreadTimerBackend.{h,cpp}]. The backend is a
    transition system: client threads call [ScheduleAt] and [Cancel], the timer
    thread runs [RunTimerThread], the clock advances. A section under [_mutex]
    that makes no call outside is one transition; the transitions of a client
    are enabled only while the timer thread does not hold the mutex. *)

From S2P Require Import Prelude TimerBackend.
Import LoopTimer (Entry, mkEntry, deadline, id, callback, key, contents,
  contents_perm, contents_remove, contents_absent, contents_cons).

Open Scope Z_scope.

Module ThreadTimer.

Section Thread.
Context {Cb : Type}.

(** Where [RunTimerThread] is. It holds [_mutex] at [Outer] and [Inner]. *)
Inductive Pc :=
| Outer                     (* the head of [while (!_stopping)] *)
| WaitEmpty                 (* [_cv.wait] with an empty queue *)
| WaitUntil (d : Z)         (* [_cv.wait_until(lock, deadline)] *)
| Inner                     (* the head of the inner [while] *)
| InCallback (e : Entry Cb) (* [entry.callback()], the lock released *)
| Exited.

(** Where a client call is: between [fetch_add] and the locked section of
    [ScheduleAt], or waiting on [_doneCv] in [Cancel]. *)
Inductive Call := Scheduling (i tp : Z) (cb : Cb) | Cancelling (i : Z).

(** [calls] has the calls in progress by thread; thread 0 is the timer thread,
    which calls the backend from inside a callback. [fired], [returned] and
    [known] are history: the callbacks started with the time, the identifiers
    a [Cancel] has returned for, and those [ScheduleAt] has returned. *)
Record t := mk {
  queue : list (Entry Cb); active : gset Z; inflightId : Z; stopping : bool;
  nextId : Z; pc : Pc; calls : gmap nat Call; now : Z;
  fired : list (Z * Z); returned : gset Z; known : gset Z }.

Definition lock_free (p : Pc) : bool :=
  match p with Outer | Inner => false | _ => true end.

Definition init (n0 : Z) : t := mk [] ∅ InvalidTimerId false 1 Outer ∅ n0 [] ∅ ∅.

(** What a step shows to the outside. *)
Inductive Label := LSchedule (i tp : Z) (cb : Cb) | LCancel (i : Z) (r : bool) | LFire (i : Z) | LTau.

(** [e] is a top of the priority queue: no other entry is earlier. *)
Definition is_top (e : Entry Cb) (q rest : list (Entry Cb)) : Prop :=
  q ≡ₚ e :: rest /\ Forall (fun x => deadline e <= deadline x) q.

(** A thread may make a call: always for a client, only inside its callback
    for the timer thread. *)
Definition may_call (c : nat) (p : Pc) : Prop :=
  c <> 0%nat \/ exists e, p = InCallback e.

Inductive step : t -> Label -> t -> Prop :=
(* ScheduleAt: [_nextId.fetch_add(1)], then the locked insertion *)
| step_alloc s c tp cb :
    calls s !! c = None -> may_call c (pc s) -> nextId s + 1 < 2 ^ 64 ->
    step s LTau (mk (queue s) (active s) (inflightId s) (stopping s) (nextId s + 1) (pc s)
                    (<[c := Scheduling (nextId s) tp cb]> (calls s)) (now s)
                    (fired s) (returned s) (known s))
| step_insert s c i tp cb :
    calls s !! c = Some (Scheduling i tp cb) -> lock_free (pc s) = true ->
    step s (LSchedule i tp cb)
         (mk (mkEntry tp i cb :: queue s) ({[i]} ∪ active s) (inflightId s) (stopping s)
             (nextId s) (pc s) (delete c (calls s)) (now s) (fired s) (returned s) ({[i]} ∪ known s))
(* Cancel: the wait on [_doneCv], then [_active.erase(id)] *)
| step_cancel_enter s c i :
    calls s !! c = None -> may_call c (pc s) -> i ∈ known s ->
    step s LTau (mk (queue s) (active s) (inflightId s) (stopping s) (nextId s) (pc s)
                    (<[c := Cancelling i]> (calls s)) (now s) (fired s) (returned s) (known s))
| step_cancel_return s c i :
    calls s !! c = Some (Cancelling i) -> lock_free (pc s) = true -> inflightId s <> i ->
    step s (LCancel i (bool_decide (i ∈ active s)))
         (mk (queue s) (active s ∖ {[i]}) (inflightId s) (stopping s) (nextId s) (pc s)
             (delete c (calls s)) (now s) (fired s) ({[i]} ∪ returned s) (known s))
(* RunTimerThread *)
| step_pc s p :
    match pc s, p with
    | Outer, Exited => stopping s = true
    | Outer, WaitEmpty => stopping s = false /\ queue s = []
    | Outer, WaitUntil d => stopping s = false /\ exists e rest, is_top e (queue s) rest /\ d = deadline e
    | WaitEmpty, Outer => queue s <> [] \/ stopping s = true
    | WaitUntil d, Inner => d <= now s
    | WaitUntil d, Outer => now s < d
    | Inner, Outer => forall e rest, is_top e (queue s) rest -> now s < deadline e
    | _, _ => False
    end ->
    step s LTau (mk (queue s) (active s) (inflightId s) (stopping s) (nextId s) p (calls s) (now s)
                    (fired s) (returned s) (known s))
| step_skip s e rest :
    pc s = Inner -> is_top e (queue s) rest -> deadline e <= now s -> id e ∉ active s ->
    step s LTau (mk rest (active s) (inflightId s) (stopping s) (nextId s) Inner (calls s) (now s)
                    (fired s) (returned s) (known s))
| step_fire s e rest :
    pc s = Inner -> is_top e (queue s) rest -> deadline e <= now s -> id e ∈ active s ->
    step s (LFire (id e))
         (mk rest (active s ∖ {[id e]}) (id e) (stopping s) (nextId s) (InCallback e) (calls s)
             (now s) (fired s ++ [(id e, now s)]) (returned s) (known s))
| step_done s e :
    pc s = InCallback e -> calls s !! 0%nat = None ->
    step s LTau (mk (queue s) (active s) InvalidTimerId (stopping s) (nextId s) Inner (calls s)
                    (now s) (fired s) (returned s) (known s))
(* the destructor and the clock *)
| step_stop s :
    step s LTau (mk (queue s) (active s) (inflightId s) true (nextId s) (pc s) (calls s) (now s)
                    (fired s) (returned s) (known s))
| step_clock s n :
    now s <= n ->
    step s LTau (mk (queue s) (active s) (inflightId s) (stopping s) (nextId s) (pc s) (calls s) n
                    (fired s) (returned s) (known s)).

Definition steps : relation t := rtc (fun s s' => exists l, step s l s').

(** ** Invariant *)

Definition ids (s : t) : list Z := id <$> queue s.

(** The identifier a thread holds between [fetch_add] and the insertion. *)
Definition allocated (s : t) (c : nat) (i : Z) : Prop :=
  exists tp cb, calls s !! c = Some (Scheduling i tp cb).

Record Inv (s : t) : Prop := {
  inv_next : 1 <= nextId s < 2 ^ 64;
  inv_queue : NoDup (ids s);
  inv_queue_known : forall i, i ∈ ids s -> i ∈ known s;
  inv_active : forall i, i ∈ active s -> i ∈ ids s;
  inv_known : forall i, i ∈ known s -> 1 <= i < nextId s;
  inv_alloc : forall c i, allocated s c i -> 1 <= i < nextId s /\ (i ∉ known s);
  inv_alloc_inj : forall c c' i, allocated s c i -> allocated s c' i -> c = c';
  inv_cancelling : forall c i, calls s !! c = Some (Cancelling i) -> i ∈ known s;
  inv_fired : NoDup (fired s).*1;
  inv_fired_gone : forall i, i ∈ (fired s).*1 -> i ∈ known s /\ (i ∉ ids s);
  inv_inflight : match pc s with
                 | InCallback e => inflightId s = id e /\ id e ∈ (fired s).*1
                 | _ => inflightId s = InvalidTimerId
                 end;
  inv_returned : forall i, i ∈ returned s ->
    i ∈ known s /\ (i ∉ active s) /\ inflightId s <> i }.

Lemma inv_init n0 : Inv (init n0).
Proof.
  constructor; simpl; try done; try set_solver.
  - apply NoDup_nil_2.
  - by intros c i (?&?&?).
  - by intros c c' i (?&?&?).
  - apply NoDup_nil_2.
Qed.

Lemma allocated_insert_other s c x c' i :
  (forall tp cb, x <> Scheduling i tp cb) ->
  (exists tp cb, <[c := x]> (calls s) !! c' = Some (Scheduling i tp cb)) -> allocated s c' i.
Proof.
  intros Hx (tp & cb & H). destruct (decide (c = c')) as [->|]; simplify_map_eq; [naive_solver|].
  by exists tp, cb.
Qed.

Lemma allocated_delete s c c' i :
  (exists tp cb, delete c (calls s) !! c' = Some (Scheduling i tp cb)) -> allocated s c' i /\ c <> c'.
Proof.
  intros (tp & cb & H). destruct (decide (c = c')) as [->|]; simplify_map_eq. by split; [exists tp, cb|].
Qed.

(** The fields a step leaves alone keep their clauses: each case below proves
    the clauses about the fields it changes. *)
Ltac keep_clauses HI :=
  constructor; cbn [queue active inflightId stopping nextId pc calls now fired returned known ids] in *;
  unfold ids, allocated in *; cbn [queue calls] in *;
  try exact (inv_next _ HI); try exact (inv_queue _ HI); try exact (inv_queue_known _ HI);
  try exact (inv_active _ HI); try exact (inv_known _ HI); try exact (inv_alloc _ HI);
  try exact (inv_alloc_inj _ HI); try exact (inv_cancelling _ HI); try exact (inv_fired _ HI);
  try exact (inv_fired_gone _ HI); try exact (inv_inflight _ HI); try exact (inv_returned _ HI).

Lemma inv_alloc_step s c tp cb :
  Inv s -> calls s !! c = None -> nextId s + 1 < 2 ^ 64 ->
  Inv (mk (queue s) (active s) (inflightId s) (stopping s) (nextId s + 1) (pc s)
          (<[c := Scheduling (nextId s) tp cb]> (calls s)) (now s)
          (fired s) (returned s) (known s)).
Proof.
  intros HI Hc Hb. keep_clauses HI.
  - pose proof (inv_next _ HI). lia.
  - intros i Hi. pose proof (inv_known _ HI i Hi). lia.
  - intros c' i (tp' & cb' & H). destruct (decide (c = c')) as [->|]; simplify_map_eq.
    + pose proof (inv_next _ HI). split; [lia|]. intros Hk%(inv_known _ HI). lia.
    + destruct (inv_alloc _ HI c' i) as [? ?]; [by exists tp', cb'|]. split; [lia|done].
  - intros c1 c2 i (tp1 & cb1 & H1) (tp2 & cb2 & H2).
    destruct (decide (c1 = c)) as [->|], (decide (c2 = c)) as [->|]; simplify_map_eq; try done.
    + destruct (inv_alloc _ HI c2 (nextId s)) as [? _]; [by exists tp2, cb2|lia].
    + destruct (inv_alloc _ HI c1 (nextId s)) as [? _]; [by exists tp1, cb1|lia].
    + eapply (inv_alloc_inj _ HI _ _ i); [by exists tp1, cb1|by exists tp2, cb2].
  - intros c' i H. destruct (decide (c = c')) as [->|]; simplify_map_eq.
    by eapply (inv_cancelling _ HI).
Qed.

Lemma inv_insert_step s c i tp cb :
  Inv s -> calls s !! c = Some (Scheduling i tp cb) ->
  Inv (mk (mkEntry tp i cb :: queue s) ({[i]} ∪ active s) (inflightId s) (stopping s)
          (nextId s) (pc s) (delete c (calls s)) (now s) (fired s) (returned s) ({[i]} ∪ known s)).
Proof.
  intros HI Hc. destruct (inv_alloc _ HI c i) as [Hi Hnk]; [by exists tp, cb|].
  keep_clauses HI.
  - simpl. constructor; [|apply (inv_queue _ HI)]. intros Hin. by apply Hnk, (inv_queue_known _ HI).
  - intros k. simpl. pose proof (inv_queue_known _ HI k). unfold ids in *. set_solver.
  - intros k. pose proof (inv_active _ HI k). unfold ids in *. simpl. set_solver.
  - intros k. pose proof (inv_known _ HI k). set_solver by lia.
  - intros c' k Hk. apply allocated_delete in Hk as [Hk Hne].
    destruct (inv_alloc _ HI c' k Hk) as [? ?]. split; [done|].
    intros [->%elem_of_singleton|]%elem_of_union; [|done].
    apply Hne, (inv_alloc_inj _ HI c c' i); [by exists tp, cb|done].
  - intros c1 c2 k [H1 _]%allocated_delete [H2 _]%allocated_delete.
    by eapply (inv_alloc_inj _ HI).
  - intros c' k H. destruct (decide (c = c')) as [->|]; simplify_map_eq.
    apply elem_of_union_r. by eapply (inv_cancelling _ HI).
  - intros k Hk. destruct (inv_fired_gone _ HI k Hk) as [? ?]. unfold ids in *. simpl. set_solver.
  - intros k Hk. destruct (inv_returned _ HI k Hk) as (? & ? & ?). set_solver.
Qed.

Lemma inv_cancel_enter_step s c i :
  Inv s -> i ∈ known s ->
  Inv (mk (queue s) (active s) (inflightId s) (stopping s) (nextId s) (pc s)
          (<[c := Cancelling i]> (calls s)) (now s) (fired s) (returned s) (known s)).
Proof.
  intros HI Hi. keep_clauses HI.
  - intros c' k Hk. apply (inv_alloc _ HI c').
    by apply (allocated_insert_other s c (Cancelling i)).
  - intros c1 c2 k H1 H2. apply (inv_alloc_inj _ HI c1 c2 k);
      by apply (allocated_insert_other s c (Cancelling i)).
  - intros c' k H. destruct (decide (c = c')) as [->|]; simplify_map_eq; [done|].
    by eapply (inv_cancelling _ HI).
Qed.

Lemma inv_cancel_return_step s c i :
  Inv s -> calls s !! c = Some (Cancelling i) -> inflightId s <> i ->
  Inv (mk (queue s) (active s ∖ {[i]}) (inflightId s) (stopping s) (nextId s) (pc s)
          (delete c (calls s)) (now s) (fired s) ({[i]} ∪ returned s) (known s)).
Proof.
  intros HI Hc Hne. keep_clauses HI.
  - intros k. pose proof (inv_active _ HI k). unfold ids in *. set_solver.
  - intros c' k [Hk _]%allocated_delete. by apply (inv_alloc _ HI c').
  - intros c1 c2 k [H1 _]%allocated_delete [H2 _]%allocated_delete. by eapply (inv_alloc_inj _ HI).
  - intros c' k H. destruct (decide (c = c')) as [->|]; simplify_map_eq.
    by eapply (inv_cancelling _ HI).
  - intros k [->%elem_of_singleton|Hk]%elem_of_union.
    + split_and!; [by eapply (inv_cancelling _ HI)|set_solver|done].
    + destruct (inv_returned _ HI k Hk) as (? & ? & ?). set_solver.
Qed.

Lemma top_ids (s : t) e rest :
  Inv s -> is_top e (queue s) rest ->
  NoDup (id <$> rest) /\ (id e ∉ id <$> rest) /\ id e ∈ ids s /\
  forall i, i ∈ id <$> rest -> i ∈ ids s.
Proof.
  intros HI [Hp _]. pose proof (inv_queue _ HI) as Hn. unfold ids in *.
  rewrite Hp in Hn. simpl in Hn. apply NoDup_cons in Hn as [? ?].
  split_and!; [done|done|rewrite Hp; simpl; set_solver|].
  intros i Hi. rewrite Hp. simpl. set_solver.
Qed.

Lemma inv_skip_step s e rest :
  Inv s -> pc s = Inner -> is_top e (queue s) rest -> id e ∉ active s ->
  Inv (mk rest (active s) (inflightId s) (stopping s) (nextId s) Inner (calls s) (now s)
          (fired s) (returned s) (known s)).
Proof.
  intros HI Hpc Htop Hna. destruct (top_ids s e rest HI Htop) as (Hn & He & Hein & Hsub).
  keep_clauses HI.
  - done.
  - intros i Hi. by apply (inv_queue_known _ HI), Hsub.
  - intros i Hi. assert (i ∈ ids s) as Hq by (by apply (inv_active _ HI)).
    destruct Htop as [Hp _]. unfold ids in Hq. rewrite Hp in Hq. simpl in Hq.
    apply elem_of_cons in Hq as [->|]; done.
  - intros i Hi. destruct (inv_fired_gone _ HI i Hi) as [? Hni]. split; [done|]. naive_solver.
  - pose proof (inv_inflight _ HI) as Hf. by rewrite Hpc in Hf.
Qed.

Lemma inv_fire_step s e rest :
  Inv s -> pc s = Inner -> is_top e (queue s) rest -> id e ∈ active s ->
  Inv (mk rest (active s ∖ {[id e]}) (id e) (stopping s) (nextId s) (InCallback e) (calls s)
          (now s) (fired s ++ [(id e, now s)]) (returned s) (known s)).
Proof.
  intros HI Hpc Htop Ha. destruct (top_ids s e rest HI Htop) as (Hn & He & Hein & Hsub).
  keep_clauses HI.
  - done.
  - intros i Hi. by apply (inv_queue_known _ HI), Hsub.
  - intros i Hi. assert (i ∈ ids s) as Hq by (apply (inv_active _ HI); set_solver).
    destruct Htop as [Hp _]. unfold ids in Hq. rewrite Hp in Hq. simpl in Hq. set_solver.
  - rewrite fmap_app. simpl. apply NoDup_snoc; [apply (inv_fired _ HI)|].
    intros Hin. by destruct (inv_fired_gone _ HI _ Hin) as [_ ?].
  - intros i. rewrite fmap_app. simpl. intros [Hi|Hi]%elem_of_app.
    + destruct (inv_fired_gone _ HI i Hi) as [? Hni]. split; [done|]. naive_solver.
    + apply list_elem_of_singleton in Hi as ->. split; [by apply (inv_queue_known _ HI)|done].
  - rewrite fmap_app. simpl. set_solver.
  - intros i Hi. destruct (inv_returned _ HI i Hi) as (? & ? & ?). set_solver.
Qed.

Lemma step_inv s l s' : Inv s -> step s l s' -> Inv s'.
Proof.
  intros HI Hs. destruct Hs as [s c tp cb Hc _ Hb|s c i tp cb Hc _|s c i _ _ Hi|s c i Hc _ Hne
    |s p Hp|s e rest Hpc Htop _ Ha|s e rest Hpc Htop _ Ha|s e Hpc _|s|s n _].
  - by apply inv_alloc_step.
  - by eapply inv_insert_step.
  - by apply inv_cancel_enter_step.
  - by apply inv_cancel_return_step.
  - pose proof (inv_inflight _ HI). keep_clauses HI. by destruct (pc s), p.
  - by eapply inv_skip_step.
  - by eapply inv_fire_step.
  - pose proof (inv_next _ HI). keep_clauses HI; [done|]. intros i Hi.
    destruct (inv_returned _ HI i Hi) as (Hk & ? & _). pose proof (inv_known _ HI i Hk).
    split_and!; [done..|]. unfold InvalidTimerId. lia.
  - keep_clauses HI.
  - keep_clauses HI.
Qed.

Lemma steps_inv s s' : Inv s -> steps s s' -> Inv s'.
Proof. intros HI. induction 1 as [|s1 s2 s3 [l Hl] _ IH]; [done|]. apply IH. by eapply step_inv. Qed.

(** ** Refinement of the interface *)

(** The timers that may still fire. *)
Definition pending (s : t) : gmap Z (Z * Cb) :=
  contents (filter (fun e => id e ∈ active s) (queue s)).

Lemma contents_lookup (l : list (Entry Cb)) i d cb :
  NoDup (id <$> l) -> contents l !! i = Some (d, cb) <-> mkEntry d i cb ∈ l.
Proof.
  intros Hn. unfold contents. rewrite <- elem_of_list_to_map by (by rewrite LoopTimer.keys_fst).
  rewrite list_elem_of_fmap. split.
  - intros ([d' i' cb'] & [= -> -> ->] & ?). done.
  - intros ?. by exists (mkEntry d i cb).
Qed.

Lemma NoDup_ids_filter (P : Entry Cb -> Prop) `{!forall e, Decision (P e)} l :
  NoDup (id <$> l) -> NoDup (id <$> filter P l).
Proof.
  induction l as [|e l IH]; [done|]. intros [Hin Hn]%NoDup_cons. rewrite filter_cons.
  case_decide; [|by apply IH]. constructor; [|by apply IH].
  intros (x & Hx & [_ ?]%list_elem_of_filter)%list_elem_of_fmap.
  apply Hin, list_elem_of_fmap. eauto.
Qed.

Lemma pending_spec s i d cb :
  NoDup (ids s) ->
  pending s !! i = Some (d, cb) <-> i ∈ active s /\ mkEntry d i cb ∈ queue s.
Proof.
  intros Hn. unfold pending. rewrite contents_lookup by (by apply NoDup_ids_filter).
  by rewrite list_elem_of_filter.
Qed.

(** The specification: the map of pending timers, acted on atomically. *)
Definition abs_step (tm : Z) (m : gmap Z (Z * Cb)) (l : Label) (m' : gmap Z (Z * Cb)) : Prop :=
  match l with
  | LSchedule i tp cb => i <> InvalidTimerId /\ m !! i = None /\ m' = <[i := (tp, cb)]> m
  | LCancel i r => r = bool_decide (is_Some (m !! i)) /\ m' = delete i m
  | LFire i => (exists d cb, m !! i = Some (d, cb) /\ d <= tm) /\ m' = delete i m
  | LTau => m' = m
  end.

(** Equality of pending maps from equality of what may fire. *)
Lemma pending_eq s m :
  NoDup (ids s) ->
  (forall i d cb, m !! i = Some (d, cb) <-> i ∈ active s /\ mkEntry d i cb ∈ queue s) ->
  pending s = m.
Proof.
  intros Hn Hm. apply map_eq. intros i. apply option_eq. intros [d cb].
  by rewrite pending_spec, Hm.
Qed.

Lemma pending_is_Some s i : Inv s -> is_Some (pending s !! i) <-> i ∈ active s.
Proof.
  intros HI. pose proof (inv_queue _ HI) as Hn. split.
  - intros [[d cb] [? _]%pending_spec]; done.
  - intros Hi. assert (i ∈ ids s) as ([d i' cb] & -> & Hq)%list_elem_of_fmap
      by (by apply (inv_active _ HI)).
    exists (d, cb). by apply pending_spec.
Qed.

Lemma queue_lookup_unique s (e e' : Entry Cb) :
  NoDup (ids s) -> e ∈ queue s -> e' ∈ queue s -> id e = id e' -> e = e'.
Proof.
  intros Hn He He' Hid. destruct e as [d i cb], e' as [d' i' cb']. simpl in *. subst i'.
  apply (contents_lookup _ i d cb Hn) in He. apply (contents_lookup _ i d' cb' Hn) in He'.
  congruence.
Qed.

Lemma insert_refines s c i tp cb :
  Inv s -> calls s !! c = Some (Scheduling i tp cb) ->
  let s' := mk (mkEntry tp i cb :: queue s) ({[i]} ∪ active s) (inflightId s) (stopping s)
               (nextId s) (pc s) (delete c (calls s)) (now s) (fired s) (returned s) ({[i]} ∪ known s) in
  Inv s' -> abs_step (now s) (pending s) (LSchedule i tp cb) (pending s').
Proof.
  intros HI Hc s' HI'. destruct (inv_alloc _ HI c i) as [Hi Hnk]; [by exists tp, cb|].
  assert (pending s !! i = None) as Hnone.
  { apply eq_None_not_Some. rewrite pending_is_Some by done.
    intros ?%(inv_active _ HI)%(inv_queue_known _ HI). done. }
  split_and!; [unfold InvalidTimerId; lia|done|].
  apply pending_eq; [apply (inv_queue _ HI')|]. intros j d b. simpl.
  destruct (decide (j = i)) as [->|Hne].
  - rewrite lookup_insert_eq. split.
    + intros [= -> ->]. set_solver.
    + intros [_ [[= -> ->]|Hq]%elem_of_cons]; [done|].
      exfalso. apply Hnk, (inv_queue_known _ HI), list_elem_of_fmap.
      by exists (mkEntry d i b).
  - rewrite lookup_insert_ne, pending_spec by (done || apply (inv_queue _ HI)).
    rewrite elem_of_union, elem_of_singleton, elem_of_cons. naive_solver.
Qed.

Lemma cancel_refines s c i :
  Inv s ->
  let s' := mk (queue s) (active s ∖ {[i]}) (inflightId s) (stopping s) (nextId s) (pc s)
               (delete c (calls s)) (now s) (fired s) ({[i]} ∪ returned s) (known s) in
  abs_step (now s) (pending s) (LCancel i (bool_decide (i ∈ active s))) (pending s').
Proof.
  intros HI s'. pose proof (inv_queue _ HI) as Hn. split.
  - apply bool_decide_ext. by rewrite pending_is_Some.
  - apply pending_eq; [done|]. intros j d b. simpl. rewrite lookup_delete_Some, pending_spec by done.
    set_solver.
Qed.

Lemma fire_refines s e rest :
  Inv s -> is_top e (queue s) rest -> deadline e <= now s -> id e ∈ active s ->
  let s' := mk rest (active s ∖ {[id e]}) (id e) (stopping s) (nextId s) (InCallback e) (calls s)
               (now s) (fired s ++ [(id e, now s)]) (returned s) (known s) in
  abs_step (now s) (pending s) (LFire (id e)) (pending s').
Proof.
  intros HI Htop Hd Ha s'. pose proof (inv_queue _ HI) as Hn.
  destruct (top_ids s e rest HI Htop) as (Hnr & He & _ & _). destruct Htop as [Hp _].
  assert (e ∈ queue s) as Heq by (rewrite Hp; set_solver). split.
  - exists (deadline e), (callback e). split; [|done]. apply pending_spec; [done|].
    split; [done|]. by destruct e.
  - apply pending_eq; [done|]. intros j d b. simpl.
    rewrite lookup_delete_Some, pending_spec by done. rewrite Hp, elem_of_cons.
    rewrite elem_of_difference, elem_of_singleton. split; [|naive_solver].
    intros (Hne & Hj & [<-|Hr]); [by destruct Hne|done].
Qed.

Lemma skip_refines s e rest :
  Inv s -> is_top e (queue s) rest -> id e ∉ active s ->
  pending (mk rest (active s) (inflightId s) (stopping s) (nextId s) Inner (calls s) (now s)
              (fired s) (returned s) (known s)) = pending s.
Proof.
  intros HI Htop Ha. pose proof (inv_queue _ HI) as Hn.
  destruct (top_ids s e rest HI Htop) as (Hnr & _). destruct Htop as [Hp _].
  apply pending_eq; [done|]. intros j d b. simpl. rewrite pending_spec by done.
  rewrite Hp, elem_of_cons. split; [|naive_solver]. intros [Hj [<-|Hr]]; done.
Qed.

(** C4: every transition of the threaded backend is, on the map of timers that
    may still fire, exactly the operation the interface specifies (schedule
    with a fresh valid id, cancel with the right answer, fire a due timer once)
    or no change, in every state reachable by any interleaving. *)
Theorem thread_backend_refines_interface (n0 : Z) (s s' : t) (l : Label) :
  steps (init n0) s -> step s l s' -> abs_step (now s) (pending s) l (pending s').
Proof.
  intros HI%steps_inv Hs; [|apply inv_init]. pose proof (step_inv _ _ _ HI Hs) as HI'.
  destruct Hs; try done.
  - by apply insert_refines.
  - by apply cancel_refines.
  - by eapply skip_refines.
  - by apply fire_refines.
Qed.

(** ** Cancellation and callbacks *)

Lemma step_returned s l s' i : step s l s' -> i ∈ returned s -> i ∈ returned s'.
Proof. destruct 1; simpl; set_solver. Qed.

Lemma step_fired_new s l s' i :
  step s l s' -> i ∈ (fired s').*1 -> i ∈ (fired s).*1 \/ i ∈ active s.
Proof.
  destruct 1; simpl; try (by left). rewrite fmap_app. simpl. set_solver.
Qed.

Lemma returned_quiet s s' i :
  Inv s -> i ∈ returned s -> steps s s' ->
  (forall e, pc s' = InCallback e -> id e <> i) /\
  (i ∈ (fired s').*1 -> i ∈ (fired s).*1).
Proof.
  intros HI Hi. induction 1 as [s|s1 s2 s3 [l Hl] Hs IH].
  - destruct (inv_returned _ HI i Hi) as (_ & _ & Hf). pose proof (inv_inflight _ HI) as Hp.
    split; [|done]. intros e He. rewrite He in Hp. destruct Hp. congruence.
  - destruct (IH (step_inv _ _ _ HI Hl) (step_returned _ _ _ _ Hl Hi)) as [H1 H2].
    split; [done|]. intros Hf. destruct (step_fired_new _ _ _ i Hl (H2 Hf)); [done|].
    by destruct (inv_returned _ HI i Hi) as (_ & ? & _).
Qed.

(** C22: once [Cancel(id)] has returned, the callback of [id] is not running and
    never runs again, so the caller may destroy what it captures; and if
    [Cancel] returned true it has not run at all and never will. *)
Theorem cancel_is_final (n0 : Z) (s s1 s2 : t) (i : Z) (r : bool) :
  steps (init n0) s -> step s (LCancel i r) s1 -> steps s1 s2 ->
  (forall e, pc s2 = InCallback e -> id e <> i) /\
  (i ∈ (fired s2).*1 -> i ∈ (fired s).*1) /\ (r = true -> i ∉ (fired s2).*1).
Proof.
  intros HI%steps_inv Hs Hs2; [|apply inv_init]. pose proof (step_inv _ _ _ HI Hs) as HI1.
  assert (i ∈ returned s1 /\ fired s1 = fired s /\ (r = true -> i ∈ active s)) as (Hr & Hfd & Ha).
  { inversion Hs; subst; simpl. split_and!; [set_solver|done|]. by intros ?%bool_decide_eq_true. }
  destruct (returned_quiet s1 s2 i HI1 Hr Hs2) as [H1 H2]. rewrite Hfd in H2.
  split_and!; [done|done|]. intros ->. specialize (Ha eq_refl).
  intros Hf%H2. destruct (inv_fired_gone _ HI i Hf) as [_ Hni]. apply Hni, (inv_active _ HI), Ha.
Qed.

(** No callback is started twice, in any interleaving. *)
Theorem callback_at_most_once (n0 : Z) (s : t) :
  steps (init n0) s -> NoDup (fired s).*1.
Proof. intros HI%steps_inv; [|apply inv_init]. apply (inv_fired _ HI). Qed.

(** A callback that cancels its own timer blocks for ever: the timer thread
    waits in [Cancel] for itself and no other callback ever starts. *)
Theorem self_cancel_deadlocks (s s' : t) (e : Entry Cb) :
  Inv s -> pc s = InCallback e -> calls s !! 0%nat = Some (Cancelling (id e)) ->
  steps s s' ->
  pc s' = InCallback e /\ calls s' !! 0%nat = Some (Cancelling (id e)) /\ fired s' = fired s.
Proof.
  intros HI Hpc Hc Hs. induction Hs as [|s1 s2 s3 [l Hl] Hs IH]; [done|].
  pose proof (inv_inflight _ HI) as Hf. rewrite Hpc in Hf. destruct Hf as [Hf _].
  assert (Inv s2 /\ pc s2 = InCallback e /\ calls s2 !! 0%nat = Some (Cancelling (id e)) /\
          fired s2 = fired s1) as (HI2 & Hp2 & Hc2 & <-).
  { split; [by eapply step_inv|]. destruct Hl; simpl in *; try congruence.
    - rewrite lookup_insert_ne by congruence. done.
    - rewrite lookup_delete_ne by congruence. done.
    - rewrite lookup_insert_ne by congruence. done.
    - rewrite lookup_delete_ne by congruence. done.
    - rewrite Hpc in *. done.
    - done.
    - done. }
  by apply IH.
Qed.

(** ** Progress *)

Lemma exists_top (q : list (Entry Cb)) : q <> [] -> exists e rest, is_top e q rest.
Proof.
  induction q as [|x q IH]; [done|]. intros _.
  destruct (decide (q = [])) as [->|Hq].
  - exists x, []. split; [done|]. repeat constructor. lia.
  - destruct (IH Hq) as (e & rest & Hp & Hmin).
    destruct (decide (deadline x <= deadline e)).
    + exists x, q. split; [done|]. constructor; [lia|].
      eapply Forall_impl; [done|]. simpl; intros; lia.
    + exists e, (x :: rest). split; [rewrite Hp; constructor|]. constructor; [lia|done].
Qed.

Lemma top_deadline (q rest rest' : list (Entry Cb)) e e' :
  is_top e q rest -> is_top e' q rest' -> deadline e = deadline e'.
Proof.
  intros [Hp Hm] [Hp' Hm']. rewrite Forall_forall in Hm, Hm'.
  assert (deadline e <= deadline e') by (apply Hm; rewrite Hp'; set_solver).
  assert (deadline e' <= deadline e) by (apply Hm'; rewrite Hp; set_solver). lia.
Qed.

Lemma due_top_or_not (q : list (Entry Cb)) n :
  (exists e rest, is_top e q rest /\ deadline e <= n) \/
  (forall e rest, is_top e q rest -> n < deadline e).
Proof.
  destruct (decide (q = [])) as [->|Hq].
  - right. intros e rest [Hp _]. by apply Permutation_nil_l in Hp.
  - destruct (exists_top q Hq) as (e & rest & Ht).
    destruct (decide (deadline e <= n)); [left; eauto|right].
    intros e' rest' Ht'. rewrite <- (top_deadline _ _ _ _ _ Ht Ht'). lia.
Qed.

Lemma steps_one s l s' : step s l s' -> steps s s'.
Proof. intros. apply rtc_once. eauto. Qed.

(** The timer thread, on its own, gives the mutex back; when it does so by
    starting a callback, that timer was in the queue. *)
Definition releases (s s' : t) : Prop :=
  steps s s' /\ lock_free (pc s') = true /\ calls s' = calls s /\ known s' = known s /\
  (inflightId s' = InvalidTimerId \/ inflightId s' ∈ ids s).

Lemma outer_releases s : Inv s -> pc s = Outer -> exists s', releases s s'.
Proof.
  intros HI Hpc. pose proof (inv_inflight _ HI) as Hf. rewrite Hpc in Hf.
  assert (exists p, lock_free p = true /\ step s LTau
    (mk (queue s) (active s) (inflightId s) (stopping s) (nextId s) p (calls s) (now s)
        (fired s) (returned s) (known s))) as (p & Hp & Hst).
  { destruct (stopping s) eqn:Est.
    - exists Exited. split; [done|]. rewrite <- Est. constructor. by rewrite Hpc.
    - rewrite <- Est. destruct (decide (queue s = [])) as [Hq|Hq].
      + exists WaitEmpty. split; [done|]. constructor. by rewrite Hpc.
      + destruct (exists_top _ Hq) as (e & rest & Ht).
        exists (WaitUntil (deadline e)). split; [done|]. constructor. rewrite Hpc. eauto 6. }
  eexists. split_and!; [by eapply steps_one|done|done|done|by left].
Qed.

Lemma inner_releases n s :
  length (queue s) = n -> Inv s -> pc s = Inner -> exists s', releases s s'.
Proof.
  revert s. induction n as [n IH] using lt_wf_ind; intros s Hlen HI Hpc.
  pose proof (inv_inflight _ HI) as Hf. rewrite Hpc in Hf.
  destruct (due_top_or_not (queue s) (now s)) as [(e & rest & Ht & Hle)|Hd].
  - destruct (decide (id e ∈ active s)) as [Ha|Ha].
    + pose proof (steps_one _ _ _ (step_fire s e rest Hpc Ht Hle Ha)) as Hs.
      eexists. split_and!; [exact Hs|done|done|done|right; simpl].
      by destruct (top_ids s e rest HI Ht) as (_ & _ & ? & _).
    + pose proof (steps_one _ _ _ (step_skip s e rest Hpc Ht Hle Ha)) as Hs.
      destruct (top_ids s e rest HI Ht) as (_ & _ & _ & Hsub).
      assert (length rest < n)%nat.
      { destruct Ht as [Hp _]. rewrite <- Hlen, Hp. simpl. lia. }
      edestruct (IH (length rest)) as (s' & H1 & H2 & H3 & H4 & H5);
        [done| |by eapply steps_inv, Hs|done|]; [done|].
      exists s'. split_and!; [by etransitivity|done|done|done|].
      destruct H5 as [|H5]; [by left|right]. by apply Hsub.
  - assert (step s LTau (mk (queue s) (active s) (inflightId s) (stopping s) (nextId s) Outer
      (calls s) (now s) (fired s) (returned s) (known s))) as Hst.
    { constructor. by rewrite Hpc. }
    edestruct outer_releases as (s' & H1 & H2 & H3 & H4 & H5);
      [by eapply step_inv, Hst|done|].
    exists s'. split_and!; [|done..]. etransitivity; [by eapply steps_one|done].
Qed.


Lemma holding_releases s : Inv s -> lock_free (pc s) = false -> exists s', releases s s'.
Proof.
  intros HI E. destruct (pc s) eqn:Hpc; try done.
  - by apply outer_releases.
  - by eapply inner_releases.
Qed.

(** From a state where the callback of [i] runs, or any other lock-free one,
    a state follows in which a [Cancel(i)] in progress can return. *)
Lemma cancel_enabled_after_release s i :
  Inv s -> lock_free (pc s) = true -> calls s !! 0%nat = None -> i ∈ known s ->
  exists s', steps s s' /\ lock_free (pc s') = true /\ calls s' = calls s /\ inflightId s' <> i.
Proof.
  intros HI Hl Hc0 Hi. pose proof (inv_known _ HI i Hi) as Hpos.
  destruct (decide (inflightId s = i)) as [Heq|]; [|by exists s].
  pose proof (inv_inflight _ HI) as Hf.
  destruct (pc s) as [| | | |e|] eqn:Hpc; try done; unfold InvalidTimerId in Hf; try lia.
  destruct Hf as [Hf Hfd].
  assert (step s LTau (mk (queue s) (active s) InvalidTimerId (stopping s) (nextId s) Inner
    (calls s) (now s) (fired s) (returned s) (known s))) as Hst by (by eapply step_done).
  edestruct holding_releases as (s' & H1 & H2 & H3 & H4 & H5); [by eapply step_inv, Hst|done|].
  exists s'. split_and!; [etransitivity; [by eapply steps_one|done]|done|done|].
  intros E. destruct H5 as [H5|H5]; rewrite E in H5; [unfold InvalidTimerId in H5; lia|].
  destruct (inv_fired_gone _ HI (id e) Hfd) as [_ Hni]. apply Hni. by rewrite <- Hf, Heq.
Qed.

(** A [Cancel] always gets to return as long as callbacks do: from every
    reachable state with a [Cancel(id)] in progress and no call of the timer
    thread itself outstanding, the timer thread alone can reach a state in
    which that [Cancel] returns. *)
Theorem cancel_can_return (n0 : Z) (s : t) (c : nat) (i : Z) :
  steps (init n0) s -> calls s !! c = Some (Cancelling i) -> calls s !! 0%nat = None ->
  exists s1 s2 r, steps s s1 /\ step s1 (LCancel i r) s2.
Proof.
  intros HI%steps_inv Hc Hc0; [|apply inv_init].
  pose proof (inv_cancelling _ HI c i Hc) as Hi.
  assert (exists s0, steps s s0 /\ Inv s0 /\ lock_free (pc s0) = true /\ calls s0 = calls s /\
    i ∈ known s0) as (s0 & Hs0 & HI0 & Hl0 & Hcs0 & Hi0).
  { destruct (lock_free (pc s)) eqn:E; [by exists s|].
    destruct (holding_releases s HI E) as (s0 & H1 & H2 & H3 & H4 & _).
    exists s0. rewrite H4. split_and!; [done|by eapply steps_inv|done..]. }
  destruct (cancel_enabled_after_release s0 i HI0 Hl0 ltac:(congruence) Hi0)
    as (s1 & Hs1 & Hl1 & Hcs1 & Hne).
  eexists s1, _, _. split; [by etransitivity|].
  apply (step_cancel_return s1 c i); [congruence|done|done].
Qed.

End Thread.

Arguments t : clear implicits.
Arguments Pc : clear implicits.
Arguments Call : clear implicits.
Arguments Label : clear implicits.

(** ** Shutdown

    [~ThreadTimerBackend] stores [_stopping] and notifies [_cv] without taking
    [_mutex]. The timer thread evaluates the predicate of [_cv.wait] and then
    blocks; a notification wakes it only when it is blocked. *)

Module Shutdown.

Inductive TimerPc := Check | AboutToBlock | Blocked | Returned.
Inductive DtorPc := Store | Notify | Join | Finished.

(** The queue is empty: the predicate is [_stopping]. *)
Record t := mk { tpc : TimerPc; dpc : DtorPc; flag : bool }.

Inductive step : t -> t -> Prop :=
| check_false d : step (mk Check d false) (mk AboutToBlock d false)
| check_true d : step (mk Check d true) (mk Returned d true)
| block d f : step (mk AboutToBlock d f) (mk Blocked d f)
| store p f : step (mk p Store f) (mk p Notify true)
| notify_wakes f : step (mk Blocked Notify f) (mk Check Join f)
| notify_nobody p f : p <> Blocked -> step (mk p Notify f) (mk p Join f)
| join f : step (mk Returned Join f) (mk Returned Finished f).

Definition start : t := mk Check Store false.

(** The destructor of the threaded backend can hang: a schedule exists in
    which its notification comes after the timer thread tested [_stopping] and
    before it blocked, so the thread sleeps and the join never ends (no step
    is possible any more). *)
Theorem shutdown_lost_wakeup :
  exists s, rtc step start s /\ dpc s = Join /\ tpc s = Blocked /\ forall s', ~ step s s'.
Proof.
  exists (mk Blocked Join true). split_and!; [|done|done|intros s' H; inversion H].
  eapply rtc_l; [apply check_false|]. eapply rtc_l; [apply store|].
  eapply rtc_l; [by apply notify_nobody|]. eapply rtc_l; [apply block|]. apply rtc_refl.
Qed.

End Shutdown.

(** ** Witnesses *)

(** One timer scheduled by client 1 for time 5, with callback 7. *)
Definition armed : t nat :=
  mk [mkEntry 5 1 7%nat] ({[1]} ∪ ∅) InvalidTimerId false 2 WaitEmpty
     (delete 1%nat (<[1%nat := Scheduling 1 5 7%nat]> ∅)) 0 [] ∅ ({[1]} ∪ ∅).

(** The state just before the insertion. *)
Definition before_insert : t nat :=
  mk [] ∅ InvalidTimerId false 2 WaitEmpty (<[1%nat := Scheduling 1 5 7%nat]> ∅) 0 [] ∅ ∅.

Lemma step_pc_to (s s' : t nat) :
  match pc s, pc s' with
  | Outer, WaitEmpty => stopping s = false /\ queue s = []
  | _, _ => False
  end ->
  s' = mk (queue s) (active s) (inflightId s) (stopping s) (nextId s) (pc s') (calls s) (now s)
          (fired s) (returned s) (known s) -> step s LTau s'.
Proof. intros H ->. constructor. by repeat split_match. Qed.

Lemma before_insert_reachable : steps (init 0) before_insert.
Proof.
  eapply rtc_l; [eexists; apply (step_alloc (init 0) 1%nat 5 7%nat); [done|by left|done]|].
  apply (steps_one _ LTau). apply step_pc_to; by split.
Qed.

Lemma armed_step : step before_insert (LSchedule 1 5 7%nat) armed.
Proof. by apply (step_insert before_insert 1%nat 1 5 7%nat). Qed.

Lemma armed_reachable : steps (init 0) armed.
Proof. eapply rtc_r; [apply before_insert_reachable|]. eexists. apply armed_step. Qed.

(** The timer fires at time 6. *)
Definition firing : t nat :=
  mk [] (({[1]} ∪ ∅) ∖ {[1]}) 1 false 2 (InCallback (mkEntry 5 1 7%nat))
     (calls armed) 6 [(1, 6)] ∅ ({[1]} ∪ ∅).

(** The state just before, the timer thread at the head of its inner loop. *)
Definition about_to_fire : t nat :=
  mk (queue armed) (active armed) InvalidTimerId false 2 Inner (calls armed) 6 [] ∅ (known armed).

Lemma about_to_fire_reachable : steps armed about_to_fire.
Proof.
  eapply rtc_l; [eexists; apply (step_clock _ 6); simpl; lia|].
  eapply rtc_l; [eexists; apply (step_pc _ Outer); by left|].
  eapply rtc_l; [eexists; apply (step_pc _ (WaitUntil 5))|].
  { split; [done|]. exists (mkEntry 5 1 7%nat), []. split; [|done]. split; [done|].
    repeat constructor. simpl; lia. }
  eapply rtc_l; [eexists; apply (step_pc _ Inner); simpl; lia|]. apply rtc_refl.
Qed.

Lemma firing_reachable : steps armed firing.
Proof.
  eapply rtc_r; [apply about_to_fire_reachable|]. exists (LFire 1).
  apply (step_fire about_to_fire (mkEntry 5 1 7%nat) []); [done| |simpl; lia|simpl; set_solver].
  split; [done|]. repeat constructor. simpl; lia.
Qed.

Definition cancelling (c : nat) (s : t nat) : t nat :=
  mk (queue s) (active s) (inflightId s) (stopping s) (nextId s) (pc s)
     (<[c := Cancelling 1]> (calls s)) (now s) (fired s) (returned s) (known s).

Definition cancelled : t nat :=
  mk (queue armed) (active armed ∖ {[1]}) InvalidTimerId false 2 WaitEmpty
     (delete 1%nat (calls (cancelling 1 armed))) 0 [] ({[1]} ∪ ∅) (known armed).

Lemma cancelling_reachable : steps (init 0) (cancelling 1 armed).
Proof.
  eapply rtc_r; [apply armed_reachable|]. eexists.
  apply (step_cancel_enter armed 1%nat 1); [done|by left|simpl; set_solver].
Qed.

Lemma cancelled_step : step (cancelling 1 armed) (LCancel 1 true) cancelled.
Proof. by apply (step_cancel_return (cancelling 1 armed) 1%nat 1). Qed.

Lemma thread_backend_refines_interface_witness :
  abs_step 0 (pending before_insert) (LSchedule 1 5 7%nat) (pending armed).
Proof.
  apply (thread_backend_refines_interface 0 before_insert armed (LSchedule 1 5 7%nat));
    [apply before_insert_reachable|apply armed_step].
Defined.

Lemma cancel_is_final_witness : 1 ∉ (fired cancelled).*1.
Proof.
  apply (cancel_is_final 0 (cancelling 1 armed) cancelled cancelled 1 true);
    [apply cancelling_reachable|apply cancelled_step|apply rtc_refl|done].
Defined.

Lemma callback_at_most_once_witness : (fired firing).*1 = [1] /\ NoDup (fired firing).*1.
Proof.
  split; [done|]. apply (callback_at_most_once 0).
  etransitivity; [apply armed_reachable|apply firing_reachable].
Defined.

Lemma cancel_can_return_witness :
  exists s1 s2 r, steps (cancelling 1 armed) s1 /\ step s1 (LCancel 1 r) s2.
Proof.
  apply (cancel_can_return 0 (cancelling 1 armed) 1%nat 1);
    [apply cancelling_reachable|done|done].
Defined.

Lemma self_cancel_deadlocks_witness :
  pc (cancelling 0 firing) = InCallback (mkEntry 5 1 7%nat) /\
  calls (cancelling 0 firing) !! 0%nat = Some (Cancelling 1) /\
  fired (cancelling 0 firing) = fired (cancelling 0 firing).
Proof.
  apply (self_cancel_deadlocks (cancelling 0 firing) (cancelling 0 firing) (mkEntry 5 1 7%nat));
    [|done|done|apply rtc_refl].
  eapply (steps_inv (init 0)); [apply inv_init|].
  eapply rtc_r; [etransitivity; [apply armed_reachable|apply firing_reachable]|].
  eexists. apply (step_cancel_enter firing 0%nat 1); [done|right; by eexists|simpl; set_solver].
Defined.

End ThreadTimer.
