(* ===== verification/ExecLoop.v ===== *)
(** * The execution context: [PureLoopContext], [TimedLoopContext], [Domain]

    [src/pkg/exec/Exec/Context] and [src/pkg/exec/Exec/Domain.{h,cpp}]. An
    operation state is a number; the sender pipeline that the domain runs is
    user code, the parameter [react]: given the completion of an operation it
    says what the receiver does next (starts more operations, destroys the
    completed one, completes the whole pipeline). The timer backend is any
    implementation of [TimerBackend] that runs its callbacks inside [Tick()], as
    [LoopTimerBackend] does, so that everything happens on the thread of the loop;
    the domain with its default backend, whose callbacks run on a thread of their
    own, is in [ThreadExec]. The lock-free queue, a third-party library, is any
    implementation of [ConcurrentQueue]. *)

From S2P Require Import Prelude RunLoop App TimerBackend.

Open Scope Z_scope.
Open Scope outcome_scope.

(** ** The lock-free queue

    [moodycamel::ConcurrentQueue]: what is dequeued is what was enqueued; the
    order is not promised across producers, so the contents are a list up to
    permutation. A single-threaded [try_dequeue] fails only on an empty queue. *)

Class ConcurrentQueue (Q : Type) := {
  enqueue : nat -> Q -> Q;
  try_dequeue : Q -> option (nat * Q) }.

Class ConcurrentQueueLaws (Q : Type) `{ConcurrentQueue Q} := {
  q_elements : Q -> list nat;
  enqueue_law x q : q_elements (enqueue x q) ≡ₚ x :: q_elements q;
  try_dequeue_law q :
    match try_dequeue q with
    | None => q_elements q = []
    | Some (x, q') => q_elements q ≡ₚ x :: q_elements q'
    end }.

(** The first-in first-out queue, one implementation. *)
#[global] Instance fifo_queue : ConcurrentQueue (list nat) := {|
  enqueue x q := q ++ [x];
  try_dequeue q := match q with [] => None | x :: q' => Some (x, q') end |}.

#[global] Instance fifo_queue_laws : ConcurrentQueueLaws (list nat).
Proof.
  refine {| q_elements q := q |}.
  - intros x q. simpl. by rewrite Permutation_app_comm.
  - intros [|x q]; simpl; reflexivity.
Defined.

(** ** Operation states *)

(** [TimedOperation::State]. *)
Inductive State := Pending | TimerWon | StopWon.

#[global] Instance State_eq_dec : EqDecision State.
Proof. solve_decision. Defined.

(** The members of [TimedOperation] that change. *)
Record TimedOp := mkTimed { deadline : Z; state : State; timerId : Z }.

(** [PureLoopContext::Operation] and [TimedOperation]. *)
Inductive Op := LoopOp | TimedOperation (t : TimedOp).

Inductive Signal := SetValue | SetStopped.

(** A completion delivered to a receiver: the operation, the signal, the
    deadline of a timed operation and the latest clock reading. *)
Record Completion := mkCompletion {
  who : nat; what : Signal; due : option Z; at_ : Z }.

(** What a receiver does when it is completed. *)
Inductive Act :=
| ASchedule                  (* connect and start [schedule(sched)] *)
| AScheduleAt (tp : Z)       (* connect and start [schedule_at(sched, tp)] *)
| AScheduleAfter (dur : Z)   (* connect and start [schedule_after(sched, dur)] *)
| AComplete (code : Z)       (* [set_value(code)] of the domain's receiver *)
| AStopped                   (* [set_stopped()] of the domain's receiver *)
| AError                     (* [set_error(e)] of the domain's receiver *)
| ADestroy (i : nat).        (* destroy the operation state [i] *)

Section Exec.
Context {B Q U : Type} `{TimerBackend B nat} `{ConcurrentQueue Q}.

(** User code: the pipeline started by the domain, and its continuations. *)
Context (user_start : U -> U * list Act) (react : U -> nat -> Signal -> U * list Act).
(** [steady_clock::now()], by reading. *)
Context (clock : nat -> Z).
(** The order in which a stop source invokes its registered callbacks. *)
Context (invoke_order : list nat -> list nat).
(** [IRunner::Exit]. *)
Context (runner_exit : Z -> RunnerState -> RunnerState).

(** [regs] has the operations whose stop callback is registered; [log],
    [reads] and [lastNow] are history. *)
Record Sys := mkSys {
  queue : Q; ops : gmap nat Op; next : nat; stopped : bool; regs : list nat;
  runner : RunnerState; user : U; log : list Completion; reads : nat; lastNow : Z }.

Definition world : Type := B * Sys.

Definition set_queue (q : Q) (s : Sys) : Sys :=
  mkSys q (ops s) (next s) (stopped s) (regs s) (runner s) (user s) (log s) (reads s) (lastNow s).
Definition set_ops (m : gmap nat Op) (s : Sys) : Sys :=
  mkSys (queue s) m (next s) (stopped s) (regs s) (runner s) (user s) (log s) (reads s) (lastNow s).
Definition set_regs (l : list nat) (s : Sys) : Sys :=
  mkSys (queue s) (ops s) (next s) (stopped s) l (runner s) (user s) (log s) (reads s) (lastNow s).
Definition set_runner_state (r : RunnerState) (s : Sys) : Sys :=
  mkSys (queue s) (ops s) (next s) (stopped s) (regs s) r (user s) (log s) (reads s) (lastNow s).

(** A freshly connected operation state. *)
Definition connect (op : Op) (s : Sys) : Sys :=
  mkSys (queue s) (<[next s := op]> (ops s)) (S (next s)) (stopped s) (regs s) (runner s) (user s)
        (log s) (reads s) (lastNow s).

Definition set_timed (i : nat) (t : TimedOp) (s : Sys) : Sys :=
  set_ops (<[i := TimedOperation t]> (ops s)) s.

Definition read_clock (s : Sys) : Z * Sys :=
  let now := clock (reads s) in
  (now, mkSys (queue s) (ops s) (next s) (stopped s) (regs s) (runner s) (user s) (log s)
              (S (reads s)) now).

(** ** PureLoopContext *)

(** [Push] and [Enqueue]. *)
Definition Enqueue (i : nat) (s : Sys) : Sys := set_queue (enqueue i (queue s)) s.

(** [Operation::start]. *)
Definition start_loop_op (s : Sys) : Sys := Enqueue (next s) (connect LoopOp s).

(** ** TimedOperation *)

(** [TryEnqueue]: the compare-exchange from [Pending]. An access to a
    destroyed operation state crashes. *)
Definition TryEnqueue (i : nat) (desired : State) (s : Sys) : outcome Sys :=
  match ops s !! i with
  | Some (TimedOperation t) =>
    match state t with
    | Pending => Ret (Enqueue i (set_timed i (mkTimed (deadline t) desired (timerId t)) s))
    | _ => Ret s
    end
  | _ => Crash
  end.

(** The callback given to [ScheduleAt]. *)
Definition timer_lambda (i : nat) (s : Sys) : outcome Sys :=
  match ops s !! i with
  | Some (TimedOperation t) =>
    TryEnqueue i TimerWon (set_timed i (mkTimed (deadline t) (state t) InvalidTimerId) s)
  | _ => Crash
  end.

(** [TryEnqueueStop], the body of the stop callback. *)
Definition TryEnqueueStop (i : nat) (w : world) : outcome world :=
  let '(b, s) := w in
  match ops s !! i with
  | Some (TimedOperation t) =>
    let '(b1, s1) :=
      if bool_decide (timerId t = InvalidTimerId) then (b, s)
      else ((Cancel (timerId t) b).2,
            set_timed i (mkTimed (deadline t) (state t) InvalidTimerId) s) in
    let! s2 := TryEnqueue i StopWon s1 in Ret (b1, s2)
  | _ => Crash
  end.

(** [TimedOperation::start] on a fresh operation state: registering the stop
    callback runs it at once when stop has been requested. *)
Definition start_timed_op (tp : Z) (w : world) : outcome world :=
  let '(b, s) := w in
  let i := next s in
  let s0 := connect (TimedOperation (mkTimed tp Pending InvalidTimerId)) s in
  let! w1 := if stopped s0 then TryEnqueueStop i (b, s0) else Ret (b, set_regs (i :: regs s0) s0) in
  let '(b1, s1) := w1 in
  match ops s1 !! i with
  | Some (TimedOperation t) =>
    match state t with
    | Pending => let '(id, b2) := ScheduleAt (deadline t) i b1 in
                 Ret (b2, set_timed i (mkTimed (deadline t) (state t) id) s1)
    | _ => Ret (b1, s1)
    end
  | _ => Crash
  end.

(** The destructor: [stopRegistration.reset()], then [Cancel] of a live timer. *)
Definition destroy_op (i : nat) (w : world) : outcome world :=
  let '(b, s) := w in
  match ops s !! i with
  | None => Crash
  | Some LoopOp => Ret (b, set_ops (delete i (ops s)) s)
  | Some (TimedOperation t) =>
    let s1 := set_regs (filter (fun j => j <> i) (regs s)) s in
    let b1 := if bool_decide (timerId t = InvalidTimerId) then b else (Cancel (timerId t) b).2 in
    Ret (b1, set_ops (delete i (ops s1)) s1)
  end.

(** ** Domain: completion of the pipeline *)

(** [Domain::Completed]. *)
Definition Completed (code : Z) (s : Sys) : Sys :=
  set_runner_state (runner_exit code (runner s)) s.

(** [Domain::Stopped]. *)
Definition Stopped (s : Sys) : Sys :=
  match Exiting (runner s) with
  | Some _ => s
  | None => set_runner_state (runner_exit ExitCode.Cancelled (runner s)) s
  end.

(** ** User code at work *)

Definition completed (s : Sys) (i : nat) : Prop := i ∈ who <$> log s.

#[global] Instance completed_dec s i : Decision (completed s i).
Proof. unfold completed. apply _. Defined.

(** One action. Destroying an operation state that has been started and not
    completed is undefined behaviour (the sender/receiver lifetime contract);
    [DomainReceiver::set_error] terminates the process. *)
Definition do_act (a : Act) (w : world) : outcome world :=
  let '(b, s) := w in
  match a with
  | ASchedule => Ret (b, start_loop_op s)
  | AScheduleAt tp => start_timed_op tp (b, s)
  | AScheduleAfter dur => let '(now, s1) := read_clock s in start_timed_op (now + dur) (b, s1)
  | AComplete code => Ret (b, Completed code s)
  | AStopped => Ret (b, Stopped s)
  | AError => Crash
  | ADestroy i => if decide (completed s i) then destroy_op i (b, s) else Crash
  end.

Fixpoint run_acts (l : list Act) (w : world) : outcome world :=
  match l with
  | [] => Ret w
  | a :: l' => let! w1 := do_act a w in run_acts l' w1
  end.

(** [Operation::Execute] and [TimedOperation::Execute]: the signal depends on
    [stop_requested()] now, not on who won the compare-exchange. *)
Definition signal (s : Sys) : Signal := if stopped s then SetStopped else SetValue.

Definition op_due (op : Op) : option Z :=
  match op with LoopOp => None | TimedOperation t => Some (deadline t) end.

(** The receiver of [i] gets the signal and becomes [u]. *)
Definition complete (i : nat) (op : Op) (u : U) (s : Sys) : Sys :=
  mkSys (queue s) (ops s) (next s) (stopped s) (regs s) (runner s) u
        (log s ++ [mkCompletion i (signal s) (op_due op) (lastNow s)]) (reads s) (lastNow s).

Definition Execute (i : nat) (w : world) : outcome world :=
  let '(b, s) := w in
  match ops s !! i with
  | None => Crash
  | Some op =>
    let '(u, acts) := react (user s) i (signal s) in
    run_acts acts (b, complete i op u s)
  end.

(** [PureLoopContext::DrainQueue]: the number of executed tasks; [fuel]
    bounds them. *)
Fixpoint drain (fuel count : nat) (w : world) : outcome (nat * world) :=
  match try_dequeue (queue w.2) with
  | None => Ret (count, w)
  | Some (i, q) =>
    match fuel with
    | O => Running
    | S fuel' => let! w1 := Execute i (w.1, set_queue q w.2) in drain fuel' (S count) w1
    end
  end.

(** ** TimedLoopContext *)

Definition fire (i : nat) (w : B * outcome Sys) : B * outcome Sys :=
  (w.1, obind w.2 (timer_lambda i)).

(** [_backend->Tick()]. *)
Definition run_tick (fuel : nat) (w : world) : outcome world :=
  let '(now, s1) := read_clock w.2 in
  let! r := Tick fire fuel now (w.1, Ret s1) in
  let! s' := r.2 in Ret (r.1, s').

(** [TimedLoopContext::DrainQueue]. *)
Definition DrainQueue (fuel : nat) (w : world) : outcome (nat * world) :=
  let! w1 := run_tick fuel w in drain fuel 0 w1.

(** ** Domain: the handler *)

(** [inplace_stop_source::request_stop]: each callback is taken off the list
    and then invoked. *)
Fixpoint run_stop_callbacks (l : list nat) (w : world) : outcome world :=
  match l with
  | [] => Ret w
  | i :: l' => let! w1 := TryEnqueueStop i (w.1, set_regs l' w.2) in run_stop_callbacks l' w1
  end.

Definition request_stop (w : world) : outcome world :=
  let '(b, s) := w in
  if stopped s then Ret w else
  let l := invoke_order (regs s) in
  run_stop_callbacks l
    (b, mkSys (queue s) (ops s) (next s) true l (runner s) (user s) (log s) (reads s) (lastNow s)).

(** [_opState.reset()] destroys what is left of the pipeline. *)
Fixpoint destroy_all (l : list nat) (w : world) : outcome world :=
  match l with
  | [] => Ret w
  | i :: l' => let! w1 := destroy_op i w in destroy_all l' w1
  end.

(** [Domain::Start]. *)
Definition Domain_Start (w : world) : outcome (bool * world) :=
  let '(b, s) := w in
  let '(u, acts) := user_start (user s) in
  let! w1 := run_acts acts
    (b, mkSys (queue s) (ops s) (next s) (stopped s) (regs s) (runner s) u (log s) (reads s)
              (lastNow s)) in
  Ret (true, w1).

(** [Domain::Stop]. *)
Definition Domain_Stop (fuel : nat) (w : world) : outcome world :=
  let! w1 := request_stop w in
  let! r := DrainQueue fuel w1 in
  destroy_all (map_to_list (ops r.2.2)).*1 r.2.

(** [Domain::Update]. *)
Definition Domain_Update (fuel : nat) (w : world) : outcome world :=
  let! r := DrainQueue fuel w in Ret r.2.

(** ** Invariant *)

Context {BL : TimerBackendLaws B nat} {QL : ConcurrentQueueLaws Q}.

Definition queued (s : Sys) (i : nat) : Prop := i ∈ q_elements (queue s).
Definition timed (s : Sys) (i : nat) (t : TimedOp) : Prop := ops s !! i = Some (TimedOperation t).

(** The part that holds also while [request_stop] runs the callbacks: [regs]
    has those not yet run. *)
Record Core (w : world) : Prop := {
  c_wf : wf w.1;
  c_issued : issued w.1 <= Z.of_nat (next w.2);
  c_clock : lastNow w.2 <= clock (reads w.2);
  (* the queue: each entry once, alive, not yet completed *)
  c_queue : NoDup (q_elements (queue w.2));
  c_queue_live i : queued w.2 i -> is_Some (ops w.2 !! i) /\ ~ completed w.2 i;
  c_queue_won i t : queued w.2 i -> timed w.2 i t -> state t <> Pending;
  (* identifiers are fresh and completions unique *)
  c_ops_next i : is_Some (ops w.2 !! i) -> (i < next w.2)%nat;
  c_log_next i : completed w.2 i -> (i < next w.2)%nat;
  c_log : NoDup (who <$> log w.2);
  c_all i : (i < next w.2)%nat -> is_Some (ops w.2 !! i) \/ completed w.2 i;
  (* no wakeup is lost *)
  c_live i op : ops w.2 !! i = Some op ->
    completed w.2 i \/ queued w.2 i \/ exists t, op = TimedOperation t /\ state t = Pending;
  (* the timers of the backend are those of the pending operations *)
  c_pending i t : timed w.2 i t -> state t = Pending ->
    timerId t <> InvalidTimerId /\ pending w.1 !! timerId t = Some (deadline t, i) /\
    i ∈ regs w.2 /\ ~ completed w.2 i;
  c_timer k d i : pending w.1 !! k = Some (d, i) ->
    exists t, timed w.2 i t /\ state t = Pending /\ timerId t = k /\ deadline t = d;
  c_won i t : timed w.2 i t -> state t <> Pending ->
    timerId t = InvalidTimerId /\
    (state t = StopWon -> stopped w.2 = true) /\
    (state t = TimerWon -> deadline t <= lastNow w.2);
  c_regs i : i ∈ regs w.2 -> exists t, timed w.2 i t;
  (* no completion with a value before the deadline *)
  c_early e d : e ∈ log w.2 -> what e = SetValue -> due e = Some d -> d <= at_ e }.

Record Inv (w : world) : Prop := {
  inv_core : Core w;
  inv_stop : stopped w.2 = true -> regs w.2 = [] }.

(** The operations have distinct identifiers and timers as long as fewer than
    2^64 - 2 operations have been created. *)
Definition bound (w : world) : Prop := Z.of_nat (next w.2) + 2 < 2 ^ 64.

(** What running user code does to the world. *)
Record good (w w' : world) : Prop := {
  g_next : (next w.2 <= next w'.2)%nat;
  g_stopped : stopped w'.2 = stopped w.2;
  g_pending i t : (i < next w.2)%nat -> timed w'.2 i t -> state t = Pending -> timed w.2 i t;
  g_log : exists l, log w'.2 = log w.2 ++ l /\ Forall (fun e => what e = signal w.2) l;
  g_inv : bound w' -> Inv w -> Inv w' }.

Lemma good_refl w : good w w.
Proof. split; [done|done|done|exists []; by rewrite app_nil_r|done]. Qed.

Lemma good_trans w1 w2 w3 : good w1 w2 -> good w2 w3 -> good w1 w3.
Proof.
  intros [N1 S1 P1 (l1 & L1 & F1) I1] [N2 S2 P2 (l2 & L2 & F2) I2]. split.
  - lia.
  - congruence.
  - intros i t Hi Ht Hp. apply P1; [done| |done]. apply P2; [lia|done..].
  - exists (l1 ++ l2). rewrite L2, L1, <- app_assoc. split; [done|].
    apply Forall_app; split; [done|]. unfold signal in *. by rewrite <- S1.
  - intros Hb HI. apply I2; [done|]. apply I1; [|done]. unfold bound in *. lia.
Qed.

(** *** Operations win the race: timer or stop *)

(** Operation [i] has left [Pending] and is in the queue. *)
Definition won_state (i : nat) (t : TimedOp) (st : State) (R : list nat) (s : Sys) : Sys :=
  mkSys (enqueue i (queue s)) (<[i := TimedOperation (mkTimed (deadline t) st InvalidTimerId)]> (ops s))
        (next s) (stopped s) R (runner s) (user s) (log s) (reads s) (lastNow s).

Lemma queued_enqueue i j q : j ∈ q_elements (enqueue i q) <-> j = i \/ j ∈ q_elements q.
Proof. rewrite (enqueue_law i q). apply elem_of_cons. Qed.

Lemma pending_not_queued w i t : Core w -> timed w.2 i t -> state t = Pending -> ~ queued w.2 i.
Proof. intros HC Ht Hp Hq. by apply (c_queue_won _ HC i t). Qed.

Lemma core_won b b' s i t st R :
  Core (b, s) -> timed s i t -> state t = Pending ->
  wf b' -> issued b' = issued b -> pending b' = delete (timerId t) (pending b) ->
  st <> Pending -> (st = StopWon -> stopped s = true) -> (st = TimerWon -> deadline t <= lastNow s) ->
  (forall j, j ∈ R -> j ∈ regs s) -> (forall j, j ∈ regs s -> j <> i -> j ∈ R) ->
  Core (b', won_state i t st R s).
Proof.
  intros HC Ht Hp Hwf Hiss Hpend Hst Hstop Htime HR1 HR2.
  pose proof (pending_not_queued _ i t HC Ht Hp) as Hnq. cbn in Hnq.
  destruct (c_pending _ HC i t Ht Hp) as (Hid & Hpi & Hri & Hnc). cbn in *.
  constructor; cbn; unfold queued, timed, completed in *; cbn.
  - done.
  - rewrite Hiss. apply (c_issued _ HC).
  - apply (c_clock _ HC).
  - rewrite enqueue_law. constructor; [done|apply (c_queue _ HC)].
  - intros j [->|Hj]%queued_enqueue.
    + split; [rewrite lookup_insert_eq; by eexists|done].
    + destruct (c_queue_live _ HC j Hj) as [? ?]. split; [|done].
      apply lookup_insert_is_Some. destruct (decide (i = j)); auto.
  - intros j t' Hj Ht'. destruct (decide (i = j)) as [<-|]; simplify_map_eq; [done|].
    apply queued_enqueue in Hj as [->|Hj]; [done|]. by apply (c_queue_won _ HC j t').
  - intros j [<-|[_ Hj]]%lookup_insert_is_Some; [apply (c_ops_next _ HC); by eexists|].
    by apply (c_ops_next _ HC).
  - apply (c_log_next _ HC).
  - apply (c_log _ HC).
  - intros j Hj. destruct (c_all _ HC j Hj) as [?|?]; [left|by right].
    apply lookup_insert_is_Some. destruct (decide (i = j)); auto.
  - intros j op Hj. destruct (decide (i = j)) as [<-|]; simplify_map_eq.
    + right; left. apply queued_enqueue. by left.
    + destruct (c_live _ HC j op Hj) as [?|[?|?]]; [by left|right; left|by right; right].
      apply queued_enqueue. by right.
  - intros j t' Ht' Hp'. destruct (decide (i = j)) as [<-|Hne]; simplify_map_eq.
    destruct (c_pending _ HC j t' Ht' Hp') as (? & Hpj & ? & ?). cbn in *. split_and!; auto.
    rewrite Hpend, lookup_delete_ne; [done|]. intros E. rewrite E in Hpi. cbn in *. congruence.
  - intros k d j. rewrite Hpend. intros [Hk Hj]%lookup_delete_Some.
    destruct (c_timer _ HC k d j Hj) as (t' & Ht' & ? & ? & ?). exists t'. cbn in *.
    split_and!; try done. unfold timed in *. rewrite lookup_insert_ne; [done|]. intros ->. congruence.
  - intros j t' Ht' Hp'. destruct (decide (i = j)) as [<-|Hne]; simplify_map_eq; [by cbn|].
    by apply (c_won _ HC j t').
  - intros j Hj%HR1. destruct (decide (i = j)) as [<-|]; [eexists; by simplify_map_eq|].
    destruct (c_regs _ HC j Hj) as [t' ?]. exists t'. by simplify_map_eq.
  - apply (c_early _ HC).
Qed.

(** The timer callback of a pending operation queues it. *)
Lemma timer_lambda_pending i t s :
  timed s i t -> state t = Pending -> timer_lambda i s = Ret (won_state i t TimerWon (regs s) s).
Proof.
  intros Ht Hp. unfold timer_lambda, TryEnqueue. rewrite Ht. cbn. rewrite lookup_insert_eq. cbn.
  rewrite Hp. unfold won_state, Enqueue, set_timed, set_queue, set_ops. cbn. by rewrite insert_insert_eq.
Qed.

(** The stop callback of an operation that is already queued or completed
    does nothing; that of a pending one cancels its timer and queues it. *)
Lemma stop_callback_idle i t b s :
  timed s i t -> state t <> Pending -> timerId t = InvalidTimerId -> TryEnqueueStop i (b, s) = Ret (b, s).
Proof.
  intros Ht Hp Hid. unfold TryEnqueueStop. rewrite Ht, Hid.
  rewrite bool_decide_eq_true_2 by done. unfold TryEnqueue. rewrite Ht. by destruct (state t).
Qed.

Lemma stop_callback_pending i t b s :
  timed s i t -> state t = Pending -> timerId t <> InvalidTimerId ->
  TryEnqueueStop i (b, s) = Ret ((Cancel (timerId t) b).2, won_state i t StopWon (regs s) s).
Proof.
  intros Ht Hp Hid. unfold TryEnqueueStop. rewrite Ht.
  rewrite bool_decide_eq_false_2 by done. unfold TryEnqueue. cbn. rewrite lookup_insert_eq. cbn.
  rewrite Hp. cbn. unfold won_state, Enqueue, set_timed, set_queue, set_ops. cbn.
  by rewrite insert_insert_eq.
Qed.

(** *** [request_stop] *)

Lemma core_set_regs b s R :
  Core (b, s) ->
  (forall j, j ∈ R -> j ∈ regs s) ->
  (forall j t, timed s j t -> state t = Pending -> j ∈ regs s -> j ∈ R) ->
  Core (b, set_regs R s).
Proof.
  intros HC H1 H2. destruct HC. constructor; cbn in *; try done.
  - intros i t Ht Hp. destruct (c_pending0 i t Ht Hp) as (? & ? & ? & ?). split_and!; eauto.
  - intros i Hi. apply c_regs0, H1, Hi.
Qed.

Lemma core_set_stopped b s R :
  Core (b, s) -> R ≡ₚ regs s ->
  Core (b, mkSys (queue s) (ops s) (next s) true R (runner s) (user s) (log s) (reads s) (lastNow s)).
Proof.
  intros HC HR. assert (forall j, j ∈ R <-> j ∈ regs s) as Hin by (intros j; by rewrite HR).
  destruct HC. constructor; cbn in *; try done.
  - intros i t Ht Hp. destruct (c_pending0 i t Ht Hp) as (? & ? & Hr & ?). apply Hin in Hr.
    by split_and!.
  - intros i t Ht Hp. by destruct (c_won0 i t Ht Hp) as (? & ? & ?).
  - intros i Hi. by apply c_regs0, Hin.
Qed.

(** What [request_stop] leaves alone. *)
Definition same_user (s s' : Sys) : Prop :=
  next s' = next s /\ log s' = log s /\ runner s' = runner s /\ user s' = user s /\
  reads s' = reads s /\ dom (ops s') = dom (ops s).

#[global] Instance same_user_preorder : PreOrder same_user.
Proof. split; [done|]. intros s1 s2 s3. unfold same_user. intuition congruence. Qed.

Lemma same_user_won i t st R s : timed s i t -> same_user s (won_state i t st R s).
Proof.
  intros Ht. unfold same_user, won_state. cbn. split_and!; try done.
  apply dom_insert_lookup_L. by eexists.
Qed.

Lemma run_stop_callbacks_ok l b s :
  Core (b, s) -> stopped s = true -> regs s = l ->
  exists b' s', run_stop_callbacks l (b, s) = Ret (b', s') /\ Core (b', s') /\
    stopped s' = true /\ regs s' = [] /\ same_user s s'.
Proof.
  revert b s. induction l as [|i l IH]; intros b s HC Hs Hr.
  { exists b, s. split_and!; done. }
  destruct (c_regs _ HC i) as [t Ht]; [cbn; rewrite Hr; apply list_elem_of_here|].
  cbn [fst snd] in Ht. cbn [run_stop_callbacks fst snd].
  destruct (decide (state t = Pending)) as [Hp|Hp].
  - destruct (c_pending _ HC i t Ht Hp) as (Hid & Hpi & _ & _).
    rewrite (stop_callback_pending i t) by done. cbn [obind].
    destruct (Cancel (timerId t) b) as [r b1] eqn:Ec.
    destruct (cancel_law _ _ _ _ (c_wf _ HC) Ec) as (Hwf & Hpend & Hiss & _).
    edestruct (IH b1 (won_state i t StopWon l s)) as (b' & s' & Hrun & HC' & H1 & H2 & H3); [|done|done|].
    + eapply core_won; try done; cbn.
      * intros j Hj. rewrite Hr. by apply list_elem_of_further.
      * intros j. rewrite Hr. by intros [->|?]%elem_of_cons.
    + exists b', s'. split_and!; try done. etransitivity; [by apply same_user_won|apply H3].
  - destruct (c_won _ HC i t Ht Hp) as (Hid & _ & _).
    rewrite (stop_callback_idle i t) by done. cbn [obind].
    edestruct (IH b (set_regs l s)) as (b' & s' & Hrun & HC' & H1 & H2 & H3); [|done|done|].
    + apply core_set_regs; [done|rewrite Hr; set_solver|]. intros j t' Ht' Hp'. rewrite Hr.
      intros [->|?]%elem_of_cons; [|done]. unfold timed in *. congruence.
    + exists b', s'. by split_and!.
Qed.

Hypothesis invoke_order_perm : forall l, invoke_order l ≡ₚ l.

Lemma request_stop_ok b s :
  Inv (b, s) ->
  exists b' s', request_stop (b, s) = Ret (b', s') /\ Inv (b', s') /\
    stopped s' = true /\ same_user s s'.
Proof.
  intros HI. unfold request_stop. destruct (stopped s) eqn:Es.
  { exists b, s. by split_and!. }
  edestruct (run_stop_callbacks_ok (invoke_order (regs s)) b) as (b' & s' & Hrun & HC' & H1 & H2 & H3);
    [apply core_set_stopped; [apply HI|apply invoke_order_perm]|done|done|].
  exists b', s'. split_and!; try done.
Qed.

(** After a stop request no operation waits for its timer. *)
Lemma stopped_no_pending w i t : Inv w -> stopped w.2 = true -> timed w.2 i t -> state t <> Pending.
Proof.
  intros [HC HS] Hs Ht Hp. destruct (c_pending _ HC i t Ht Hp) as (_ & _ & Hr & _).
  rewrite (HS Hs) in Hr. by apply not_elem_of_nil in Hr.
Qed.

(** *** Starting operations *)

Lemma ops_fresh w i : Core w -> (next w.2 <= i)%nat -> ops w.2 !! i = None.
Proof.
  intros HC Hi. destruct (ops w.2 !! i) eqn:E; [|done].
  assert (i < next w.2)%nat; [apply (c_ops_next _ HC); by eexists|lia].
Qed.

Lemma next_not_completed w : Core w -> ~ completed w.2 (next w.2).
Proof. intros HC Hc%(c_log_next _ HC). lia. Qed.

Lemma next_not_queued w : Core w -> ~ queued w.2 (next w.2).
Proof. intros HC Hq. destruct (c_queue_live _ HC _ Hq) as [Hs%(c_ops_next _ HC) _]. lia. Qed.

Lemma all_fresh w op : Core w -> forall j, (j < S (next w.2))%nat ->
  is_Some (<[next w.2 := op]> (ops w.2) !! j) \/ completed w.2 j.
Proof.
  intros HC j Hj. destruct (decide (next w.2 = j)) as [<-|].
  - left. rewrite lookup_insert_eq. by eexists.
  - rewrite lookup_insert_ne by done. apply (c_all _ HC). lia.
Qed.

(** A fresh operation [op] enters the queue directly. *)
Lemma core_queue_fresh b s op :
  Core (b, s) ->
  (forall t, op = TimedOperation t -> state t = StopWon /\ timerId t = InvalidTimerId /\ stopped s = true) ->
  Core (b, Enqueue (next s) (connect op s)).
Proof.
  intros HC Hop. pose proof (next_not_queued _ HC) as Hnq. pose proof (next_not_completed _ HC) as Hnc.
  pose proof (ops_fresh _ (next s) HC (le_n _)) as Hno. cbn in *.
  constructor; cbn; unfold queued, timed, completed in *; cbn in *.
  - apply (c_wf _ HC).
  - pose proof (c_issued _ HC). cbn in *. lia.
  - apply (c_clock _ HC).
  - rewrite enqueue_law. constructor; [done|apply (c_queue _ HC)].
  - intros j [->|Hj]%queued_enqueue; [split; [rewrite lookup_insert_eq; by eexists|done]|].
    destruct (c_queue_live _ HC j Hj) as [? ?]. split; [|done].
    apply lookup_insert_is_Some. destruct (decide (next s = j)); auto.
  - intros j t Hj Ht. destruct (decide (next s = j)) as [<-|]; simplify_map_eq.
    + by destruct (Hop t) as (-> & _).
    + apply queued_enqueue in Hj as [->|Hj]; [done|]. by apply (c_queue_won _ HC j t).
  - intros j [<-|[_ Hj]]%lookup_insert_is_Some; [lia|]. apply (c_ops_next _ HC) in Hj. cbn in *. lia.
  - intros j Hj%(c_log_next _ HC). cbn in *. lia.
  - apply (c_log _ HC).
  - apply (all_fresh _ _ HC).
  - intros j op' Hj. destruct (decide (next s = j)) as [<-|]; simplify_map_eq.
    + right; left. apply queued_enqueue. by left.
    + destruct (c_live _ HC j op' Hj) as [?|[?|?]]; [by left|right; left|by right; right].
      apply queued_enqueue. by right.
  - intros j t Ht Hp. destruct (decide (next s = j)) as [<-|]; simplify_map_eq.
    + destruct (Hop t) as (E & _); [done|]. by rewrite E in Hp.
    + by apply (c_pending _ HC j t).
  - intros k d j Hj. destruct (c_timer _ HC k d j Hj) as (t & Ht & ? & ? & ?). exists t.
    split_and!; try done. unfold timed in *. cbn in *. rewrite lookup_insert_ne; [done|]. intros <-. congruence.
  - intros j t Ht Hp. destruct (decide (next s = j)) as [<-|]; simplify_map_eq.
    + by destruct (Hop t) as (-> & ? & ?).
    + by apply (c_won _ HC j t).
  - intros j Hj. destruct (c_regs _ HC j Hj) as [t Ht]. exists t. unfold timed in *. cbn in *.
    rewrite lookup_insert_ne; [done|]. intros <-. congruence.
  - apply (c_early _ HC).
Qed.

(** A fresh operation waits for its timer [k]. *)
Lemma core_wait_fresh b b' s tp k :
  Core (b, s) -> wf b' -> k <> InvalidTimerId -> pending b !! k = None ->
  pending b' = <[k := (tp, next s)]> (pending b) -> issued b' = issued b + 1 ->
  Core (b', set_regs (next s :: regs s) (connect (TimedOperation (mkTimed tp Pending k)) s)).
Proof.
  intros HC Hwf Hk Hfresh Hpend Hiss. pose proof (next_not_queued _ HC) as Hnq.
  pose proof (next_not_completed _ HC) as Hnc.
  pose proof (ops_fresh _ (next s) HC (le_n _)) as Hno. cbn in *.
  constructor; cbn; unfold queued, timed, completed in *; cbn in *.
  - done.
  - pose proof (c_issued _ HC). cbn in *. lia.
  - apply (c_clock _ HC).
  - apply (c_queue _ HC).
  - intros j Hj. destruct (c_queue_live _ HC j Hj) as [? ?]. split; [|done].
    apply lookup_insert_is_Some. destruct (decide (next s = j)); auto.
  - intros j t Hj Ht. destruct (decide (next s = j)) as [<-|]; simplify_map_eq.
    by apply (c_queue_won _ HC j t).
  - intros j [<-|[_ Hj]]%lookup_insert_is_Some; [lia|]. apply (c_ops_next _ HC) in Hj. cbn in *. lia.
  - intros j Hj%(c_log_next _ HC). cbn in *. lia.
  - apply (c_log _ HC).
  - apply (all_fresh _ _ HC).
  - intros j op' Hj. destruct (decide (next s = j)) as [<-|]; simplify_map_eq; [eauto 6|].
    by apply (c_live _ HC j op').
  - intros j t Ht Hp. rewrite Hpend. destruct (decide (next s = j)) as [<-|]; simplify_map_eq.
    + split_and!; cbn; [done|by simplify_map_eq|apply list_elem_of_here|done].
    + destruct (c_pending _ HC j t Ht Hp) as (? & Hpj & ? & ?). cbn in *. split_and!; try done.
      * rewrite lookup_insert_ne; [done|]. intros E. congruence.
      * by apply list_elem_of_further.
  - intros k' d j. rewrite Hpend. intros [(<- & [= <- <-])|(Hne & Hj)]%lookup_insert_Some.
    + eexists. split; [apply lookup_insert_eq|done].
    + destruct (c_timer _ HC k' d j Hj) as (t & Ht & ? & ? & ?). exists t. split_and!; try done.
      unfold timed in *. cbn in *. rewrite lookup_insert_ne; [done|]. intros <-. congruence.
  - intros j t Ht Hp. destruct (decide (next s = j)) as [<-|]; simplify_map_eq.
    by apply (c_won _ HC j t).
  - intros j [->|Hj]%elem_of_cons; [eexists; apply lookup_insert_eq|].
    destruct (c_regs _ HC j Hj) as [t Ht]. exists t. unfold timed in *. cbn in *.
    rewrite lookup_insert_ne; [done|]. intros <-. congruence.
  - apply (c_early _ HC).
Qed.

(** What starting an operation gives, on each branch. *)
Definition stopped_fresh (tp : Z) (s : Sys) : Sys :=
  Enqueue (next s) (connect (TimedOperation (mkTimed tp StopWon InvalidTimerId)) s).

Definition waiting_fresh (tp k : Z) (s : Sys) : Sys :=
  set_regs (next s :: regs s) (connect (TimedOperation (mkTimed tp Pending k)) s).

Lemma start_timed_op_eq tp b s :
  start_timed_op tp (b, s) =
  if stopped s then Ret (b, stopped_fresh tp s)
  else let '(k, b') := ScheduleAt tp (next s) b in Ret (b', waiting_fresh tp k s).
Proof.
  unfold start_timed_op. cbn [stopped connect]. destruct (stopped s) eqn:Es.
  - unfold TryEnqueueStop, TryEnqueue. cbn. rewrite lookup_insert_eq. cbn.
    rewrite bool_decide_eq_true_2 by done. cbn. repeat (rewrite lookup_insert_eq; cbn).
    unfold stopped_fresh, Enqueue, set_timed, set_queue, set_ops, connect. cbn.
    by rewrite insert_insert_eq.
  - cbn. rewrite lookup_insert_eq. cbn. destruct (ScheduleAt tp (next s) b) as [k b'].
    unfold waiting_fresh, set_timed, set_ops, set_regs, connect. cbn. by rewrite insert_insert_eq.
Qed.

(** The older operations are untouched. *)
Lemma timed_fresh s op i t :
  (i < next s)%nat -> <[next s := op]> (ops s) !! i = Some (TimedOperation t) ->
  state t = Pending -> timed s i t.
Proof. intros Hi Ht _. unfold timed. rewrite lookup_insert_ne in Ht by lia. done. Qed.

Lemma good_start_timed tp w w' : start_timed_op tp w = Ret w' -> good w w'.
Proof.
  destruct w as [b s]. rewrite start_timed_op_eq. destruct (stopped s) eqn:Es.
  - intros [= <-]. split; cbn; [lia|done|apply timed_fresh|exists []; by rewrite app_nil_r|].
    intros Hb [HC HS]. split; [|apply HS]. apply core_queue_fresh; [done|]. by intros t [= <-].
  - destruct (ScheduleAt tp (next s) b) as [k b'] eqn:Ek. intros [= <-].
    split; cbn; [lia|done|apply timed_fresh|exists []; by rewrite app_nil_r|].
    intros Hb [HC HS]. unfold bound in Hb. cbn in Hb. pose proof (c_issued _ HC) as Hi. cbn in Hi.
    destruct (schedule_law _ _ _ _ _ (c_wf _ HC) ltac:(cbn; lia) Ek) as (? & ? & ? & ? & ?).
    split; cbn; [by eapply core_wait_fresh|congruence].
Qed.

Lemma good_start_loop b s : good (b, s) (b, start_loop_op s).
Proof.
  split; cbn; [lia|done|apply timed_fresh|exists []; by rewrite app_nil_r|].
  intros Hb [HC HS]. split; [|done]. by apply core_queue_fresh.
Qed.

Lemma good_runner b s r : good (b, s) (b, set_runner_state r s).
Proof.
  split; cbn; [lia|done|done|exists []; by rewrite app_nil_r|].
  intros Hb [HC HS]. split; [|done]. by destruct HC; constructor.
Qed.

Hypothesis clock_mono : forall n, clock n <= clock (S n).

Lemma inv_read_clock b s : Inv (b, s) -> Inv (b, (read_clock s).2).
Proof.
  intros [HC HS]. split; [|done]. destruct HC. constructor; cbn in *; try done.
  intros i t Ht Hp. destruct (c_won0 i t Ht Hp) as (? & ? & Hl). split_and!; try done.
  intros ?. specialize (Hl ltac:(done)). lia.
Qed.

Lemma good_read_clock b s : good (b, s) (b, (read_clock s).2).
Proof.
  split; cbn; [lia|done|done|exists []; by rewrite app_nil_r|].
  intros _. apply inv_read_clock.
Qed.

(** Destroying a completed operation takes it out and touches no timer. *)
Lemma core_destroy b s i op R :
  Core (b, s) -> ops s !! i = Some op -> completed s i ->
  (forall j, j ∈ R -> j ∈ regs s /\ (j <> i)) -> (forall j, j ∈ regs s -> j <> i -> j ∈ R) ->
  Core (b, set_ops (delete i (ops s)) (set_regs R s)).
Proof.
  intros HC Hop Hc HR1 HR2.
  assert (forall j t, timed s j t -> state t = Pending -> i <> j) as Hnp.
  { intros j t Ht Hp ->. by destruct (c_pending _ HC j t Ht Hp) as (_ & _ & _ & ?). }
  constructor; cbn; unfold queued, timed, completed in *; cbn in *; try apply HC.
  - intros j Hj. destruct (c_queue_live _ HC j Hj) as [? Hnc]. split; [|done].
    apply lookup_delete_is_Some. split; [|done]. by intros ->.
  - intros j t Hj [_ Ht]%lookup_delete_Some. by apply (c_queue_won _ HC j t).
  - intros j [_ Hj]%lookup_delete_is_Some. by apply (c_ops_next _ HC).
  - intros j Hj. destruct (decide (i = j)) as [<-|]; [by right|].
    rewrite lookup_delete_ne by done. by apply (c_all _ HC).
  - intros j op' [_ Hj]%lookup_delete_Some. by apply (c_live _ HC).
  - intros j t [Hne Ht]%lookup_delete_Some Hp.
    destruct (c_pending _ HC j t Ht Hp) as (? & ? & ? & ?). split_and!; auto.
  - intros k d j Hj. destruct (c_timer _ HC k d j Hj) as (t & Ht & Hp & ? & ?).
    exists t. split_and!; try done. unfold timed in *. cbn in *.
    rewrite lookup_delete_ne; [done|]. by apply (Hnp j t).
  - intros j t [_ Ht]%lookup_delete_Some Hp. by apply (c_won _ HC j t).
  - intros j [Hj Hne]%HR1. destruct (c_regs _ HC j Hj) as [t Ht]. exists t.
    unfold timed in *. cbn in *. by rewrite lookup_delete_ne.
Qed.

Lemma destroy_completed b s i :
  Core (b, s) -> is_Some (ops s !! i) -> completed s i ->
  exists R, destroy_op i (b, s) = Ret (b, set_ops (delete i (ops s)) (set_regs R s)) /\
    Core (b, set_ops (delete i (ops s)) (set_regs R s)) /\ (regs s = [] -> R = []).
Proof.
  intros HC [op Hop] Hc. unfold destroy_op. rewrite Hop. destruct op as [|t].
  - exists (regs s). split_and!; [by destruct s| |done]. eapply core_destroy; try done.
    intros j Hj. split; [done|]. intros ->. destruct (c_regs _ HC i Hj) as [t Ht].
    unfold timed in Ht. cbn in Ht. congruence.
  - assert (state t <> Pending) as Hnp
      by (intros Hp; by destruct (c_pending _ HC i t Hop Hp) as (_ & _ & _ & ?)).
    destruct (c_won _ HC i t Hop Hnp) as (-> & _ & _). rewrite bool_decide_eq_true_2 by done.
    eexists. split_and!; [reflexivity| |].
    + eapply core_destroy; try done.
      * intros j [? ?]%list_elem_of_filter. done.
      * intros j ? ?. by apply list_elem_of_filter.
    + by intros ->.
Qed.

Lemma good_destroy b s i w' :
  completed s i -> destroy_op i (b, s) = Ret w' -> good (b, s) w'.
Proof.
  intros Hc Hd.
  assert (exists R, w' = (w'.1, set_ops (delete i (ops s)) (set_regs R s))) as [R Hw].
  { unfold destroy_op in Hd. destruct (ops s !! i) as [[|t]|] eqn:E; simplify_eq; cbn;
      [exists (regs s); by destruct s|by eexists]. }
  split.
  - by rewrite Hw.
  - by rewrite Hw.
  - rewrite Hw. unfold timed. cbn. by intros j t _ [_ ?]%lookup_delete_Some _.
  - rewrite Hw. cbn. exists []. by rewrite app_nil_r.
  - intros Hb [HC HS]. destruct (ops s !! i) as [op|] eqn:E.
    + destruct (destroy_completed b s i HC) as (R' & Hd' & HC' & HR'); [by eexists|done|].
      rewrite Hd in Hd'. injection Hd' as ->. split; [done|]. cbn. intros. by apply HR', HS.
    + unfold destroy_op in Hd. by rewrite E in Hd.
Qed.

Lemma good_act a w w' : do_act a w = Ret w' -> good w w'.
Proof.
  destruct w as [b s]. destruct a; cbn [do_act].
  - intros [= <-]. apply good_start_loop.
  - apply good_start_timed.
  - cbn [read_clock]. intros Hs%good_start_timed. eapply good_trans; [|exact Hs]. apply (good_read_clock b s).
  - intros [= <-]. apply good_runner.
  - intros [= <-]. unfold Stopped. destruct (Exiting (runner s)); [apply good_refl|apply good_runner].
  - done.
  - destruct (decide (completed s i)); [by apply good_destroy|done].
Qed.

Lemma good_acts l w w' : run_acts l w = Ret w' -> good w w'.
Proof.
  revert w. induction l as [|a l IH]; intros w; cbn; [intros [= <-]; apply good_refl|].
  intros (w1 & H1%good_act & H2%IH)%obind_Ret. by eapply good_trans.
Qed.

(** *** Executing queued operations *)

Lemma dequeue_elements s i q :
  try_dequeue (queue s) = Some (i, q) -> q_elements (queue s) ≡ₚ i :: q_elements q.
Proof. intros E. pose proof (try_dequeue_law (queue s)) as Hl. by rewrite E in Hl. Qed.

Lemma completed_complete i op u s j : completed (complete i op u s) j <-> completed s j \/ j = i.
Proof. unfold completed. cbn. rewrite fmap_app, elem_of_app. cbn. by rewrite list_elem_of_singleton. Qed.

Lemma core_complete b s i q op u :
  Core (b, s) -> q_elements (queue s) ≡ₚ i :: q_elements q -> ops s !! i = Some op ->
  Core (b, complete i op u (set_queue q s)).
Proof.
  intros HC Hq Hop.
  pose proof (c_queue _ HC) as Hnd. cbn in Hnd. rewrite Hq in Hnd. apply NoDup_cons in Hnd as [Hni Hnd].
  assert (forall j, queued s j <-> j = i \/ j ∈ q_elements q) as Hqd
    by (intros j; unfold queued; rewrite Hq; apply elem_of_cons).
  destruct (c_queue_live _ HC i) as [_ Hnc]; [by apply Hqd; left|]. cbn in Hnc.
  assert (forall t, timed s i t -> state t <> Pending) as Hnp
    by (intros t; apply (c_queue_won _ HC i t), Hqd; by left).
  constructor; cbn [fst snd]; try apply HC; try done.
  - intros j Hj. destruct (c_queue_live _ HC j) as [? ?]; [apply Hqd; by right|].
    split; [done|]. rewrite completed_complete. intros [?| ->]; done.
  - intros j t Hj. apply (c_queue_won _ HC j t), Hqd. by right.
  - intros j [Hj| ->]%completed_complete; [by apply (c_log_next _ HC)|].
    apply (c_ops_next _ HC). by eexists.
  - cbn. rewrite fmap_app. apply NoDup_snoc; [apply (c_log _ HC)|done].
  - intros j Hj. rewrite completed_complete. destruct (c_all _ HC j Hj); auto.
  - intros j op' Hj. rewrite completed_complete.
    destruct (c_live _ HC j op' Hj) as [?|[Hj'|?]]; auto.
    apply Hqd in Hj' as [->|?]; auto.
  - intros j t Ht Hp. destruct (c_pending _ HC j t Ht Hp) as (? & ? & ? & ?). split_and!; try done.
    rewrite completed_complete. intros [?| ->]; [done|]. by apply (Hnp t).
  - cbn. intros e d [He|He]%elem_of_app; [by apply (c_early _ HC)|].
    apply list_elem_of_singleton in He as ->. cbn. unfold signal. cbn.
    destruct (stopped s) eqn:Es; [done|]. intros _. destruct op as [|t]; cbn; [done|]. intros [= <-].
    destruct (c_won _ HC i t Hop (Hnp t Hop)) as (_ & Hstop & Htime). cbn in *.
    destruct (state t) eqn:Et; [by destruct (Hnp t Hop)|auto|]. by rewrite Hstop in Es.
Qed.

Lemma good_complete b s i q op u :
  try_dequeue (queue s) = Some (i, q) -> ops s !! i = Some op ->
  good (b, s) (b, complete i op u (set_queue q s)).
Proof.
  intros Hq%dequeue_elements Hop. split; cbn; [lia|done|done| |].
  - eexists. split; [reflexivity|]. by repeat constructor.
  - intros _ [HC HS]. split; [by apply core_complete|done].
Qed.

Lemma good_execute b s i q w' :
  try_dequeue (queue s) = Some (i, q) -> Execute i (b, set_queue q s) = Ret w' -> good (b, s) w'.
Proof.
  intros Hq. unfold Execute. cbn. destruct (ops s !! i) as [op|] eqn:Hop; [|done].
  destruct (react (user s) i (signal (set_queue q s))) as [u acts].
  intros Ha%good_acts. eapply good_trans; [by apply good_complete|done].
Qed.

Lemma good_drain fuel count w n w' :
  drain fuel count w = Ret (n, w') -> good w w' /\ q_elements (queue w'.2) = [].
Proof.
  revert count w. induction fuel as [|fuel IH]; intros count [b s]; cbn;
    (destruct (try_dequeue (queue s)) as [[i q]|] eqn:Eq;
      [|intros [= <- <-]; split; [apply good_refl|];
        pose proof (try_dequeue_law (queue s)) as Hl; by rewrite Eq in Hl]).
  - done.
  - intros (w1 & He & Hd)%obind_Ret. apply IH in Hd as [Hg He'].
    split; [|done]. eapply good_trans; [by eapply good_execute|done].
Qed.

(** *** Firing timers *)

Lemma fires_ok now b s r :
  fires wf pending issued fire now (b, Ret s) r ->
  Core (b, s) -> now = lastNow s ->
  exists s', r.2 = Ret s' /\ Core (r.1, s') /\ same_user s s' /\
    stopped s' = stopped s /\ regs s' = regs s /\ lastNow s' = lastNow s /\
    (forall j t, timed s' j t -> state t = Pending -> timed s j t).
Proof.
  intros Hf. remember (b, Ret s) as x eqn:Ex. revert b s Ex.
  induction Hf as [x|b0 b1 a k d i s' Hp Hd Hwf Hdel Hiss Hf IH]; intros b s Ex HC Hnow.
  { subst x. exists s. by split_and!. }
  injection Ex as -> ->.
  destruct (c_timer _ HC k d i Hp) as (t & Ht & Hpd & Hk & Hdl). cbn in Ht. subst k d.
  unfold fire at 1 in IH. cbn in IH. rewrite (timer_lambda_pending i t) in IH by done.
  edestruct (IH b1 _ eq_refl) as (s2 & H1 & H2 & H3 & H4 & H5 & H6 & H7);
    [|done|].
  { eapply core_won; try done. cbn. intros _. lia. }
  exists s2. split_and!; try done; [etransitivity; [by apply same_user_won|done]|].
  intros j t' Hj Hp'. specialize (H7 j t' Hj Hp'). unfold timed in *. cbn in H7.
  destruct (decide (i = j)) as [<-|]; simplify_map_eq. done.
Qed.

Lemma run_tick_ok fuel b s w' :
  Inv (b, s) -> run_tick fuel (b, s) = Ret w' ->
  Inv w' /\ same_user (read_clock s).2 w'.2 /\ stopped w'.2 = stopped s /\
  lastNow w'.2 = clock (reads s) /\
  (forall j t, timed w'.2 j t -> state t = Pending -> timed s j t).
Proof.
  intros HI. unfold run_tick. cbn [read_clock fst snd]. intros (r & Ht & Hr)%obind_Ret.
  destruct (inv_read_clock b s HI) as [HC HS].
  apply tick_law in Ht; [|done|apply HC].
  destruct (fires_ok _ _ _ _ Ht HC eq_refl) as (s' & E & HC' & Hsame & Hstop & Hregs & Hnow & Hpd).
  rewrite E in Hr. cbn in Hr. injection Hr as <-. cbn. split_and!; try done.
  split; [done|]. cbn. rewrite Hstop, Hregs. done.
Qed.

(** *** One drain *)

Lemma DrainQueue_ok fuel w n w' :
  Inv w -> bound w' -> DrainQueue fuel w = Ret (n, w') ->
  exists w1, run_tick fuel w = Ret w1 /\ Inv w1 /\ good w1 w' /\ Inv w' /\
    same_user (read_clock w.2).2 w1.2 /\ stopped w1.2 = stopped w.2 /\
    q_elements (queue w'.2) = [] /\
    (forall j t, timed w1.2 j t -> state t = Pending -> timed w.2 j t).
Proof.
  destruct w as [b s]. intros HI Hb. unfold DrainQueue. intros (w1 & Ht & Hd)%obind_Ret.
  destruct (run_tick_ok fuel b s w1 HI Ht) as (HI1 & Hsame & Hstop & _ & Hpd).
  destruct (good_drain _ _ _ _ _ Hd) as [Hg Hq].
  exists w1. split_and!; try done. by apply (g_inv _ _ Hg).
Qed.

(** With an empty queue an operation is completed or waits for its timer. *)
Lemma drained_live w i op :
  Inv w -> q_elements (queue w.2) = [] -> ops w.2 !! i = Some op ->
  completed w.2 i \/ exists t, op = TimedOperation t /\ state t = Pending.
Proof.
  intros [HC _] Hq Hop. destruct (c_live _ HC i op Hop) as [?|[Hi|?]]; [by left| |by right].
  unfold queued in Hi. rewrite Hq in Hi. by apply not_elem_of_nil in Hi.
Qed.

Lemma good_completed w w' i : good w w' -> completed w.2 i -> completed w'.2 i.
Proof.
  intros Hg. destruct (g_log _ _ Hg) as (l & Hl & _).
  unfold completed. rewrite Hl, fmap_app, elem_of_app. by left.
Qed.

(** A live operation stays live or has been completed. *)
Lemma good_live w w' i :
  good w w' -> Inv w -> Inv w' -> is_Some (ops w.2 !! i) -> is_Some (ops w'.2 !! i) \/ completed w'.2 i.
Proof.
  intros Hg [HC _] [HC' _] Hi%(c_ops_next _ HC). apply (c_all _ HC').
  pose proof (g_next _ _ Hg). lia.
Qed.

(** *** Due timers are completed by the next drain *)

Context {TD : TickDriven B nat}.

Lemma tick_leaves_none_due fuel w w1 :
  Inv w -> (size (pending w.1) <= fuel)%nat -> run_tick fuel w = Ret w1 ->
  forall k d i, pending w1.1 !! k = Some (d, i) -> clock (reads w.2) < d.
Proof.
  destruct w as [b s]. intros HI Hf Ht k d i. unfold run_tick in Ht. cbn [read_clock fst snd] in Ht.
  destruct (tick_complete _ fire fuel (clock (reads s)) b (Ret (read_clock s).2)) as (r & Hr & Hd);
    [done|apply HI|done|].
  cbn in Hr. rewrite Hr in Ht. cbn in Ht. apply obind_Ret in Ht as (s' & _ & [= <-]).
  apply Hd.
Qed.

(** What an earlier operation waits for after a drain is still to come. *)
Lemma drain_leaves_none_due fuel n i t w w' :
  Inv w -> bound w' -> (size (pending w.1) <= fuel)%nat -> DrainQueue fuel w = Ret (n, w') ->
  (i < next w.2)%nat -> timed w'.2 i t -> state t = Pending -> clock (reads w.2) < deadline t.
Proof.
  intros HI Hb Hfuel Hd Hi Hop Hp.
  destruct (DrainQueue_ok _ _ _ _ HI Hb Hd) as (w1 & Ht & HI1 & Hg & HI' & (Hnext & _) & _).
  apply (g_pending _ _ Hg) in Hop; [|by rewrite Hnext|done].
  destruct (c_pending _ (inv_core _ HI1) i t Hop Hp) as (_ & Hpi & _ & _).
  exact (tick_leaves_none_due fuel w w1 HI Hfuel Ht _ _ _ Hpi).
Qed.


(** C23: liveness of timers, for a backend that fires its timers in [Tick()] (as
    [LoopTimerBackend], not the threaded default), from any state between frames,
    with one unit of fuel per pending timer: an operation whose deadline has been
    reached when a drain reads the clock, or that is already in the queue, is
    completed when the drain returns. *)
Theorem due_operation_completes (fuel n i : nat) (w w' : world) :
  Inv w -> bound w' -> (size (pending w.1) <= fuel)%nat -> DrainQueue fuel w = Ret (n, w') ->
  queued w.2 i \/ (exists t, timed w.2 i t /\ state t = Pending /\ deadline t <= clock (reads w.2)) ->
  completed w'.2 i.
Proof.
  intros HI Hb Hfuel Hd Hi.
  destruct (DrainQueue_ok _ _ _ _ HI Hb Hd) as (w1 & Ht & HI1 & Hg & HI' & Hs & Hst & Hq & Hpd).
  assert (is_Some (ops w.2 !! i)) as Hlive.
  { destruct Hi as [Hi|(t & Hi & _)]; [|by eexists].
    by destruct (c_queue_live _ (inv_core _ HI) i Hi) as [? _]. }
  destruct Hs as (Hnext & _ & _ & _ & _ & Hdom). cbn in Hdom.
  assert (is_Some (ops w1.2 !! i)) as Hlive1 by (apply elem_of_dom; rewrite Hdom; by apply elem_of_dom).
  destruct (good_live w1 w' i Hg HI1 HI' Hlive1) as [[op Hop]|]; [|done].
  destruct (drained_live w' i op HI' Hq Hop) as [|(t & -> & Hp)]; [done|exfalso].
  apply (g_pending _ _ Hg) in Hop; [|by apply (c_ops_next _ (inv_core _ HI1))|done].
  destruct (c_pending _ (inv_core _ HI1) i t Hop Hp) as (_ & Hpi & _ & _).
  pose proof (tick_leaves_none_due fuel w w1 HI Hfuel Ht _ _ _ Hpi) as Hlate.
  pose proof (Hpd i t Hop Hp) as Hw. destruct Hi as [Hi|(t' & Ht' & _ & Hdue)].
  - by apply (c_queue_won _ (inv_core _ HI) i t Hi Hw).
  - unfold timed in *. rewrite Hw in Ht'. simplify_eq. lia.
Qed.

(** *** Stopping the domain *)

Lemma destroy_all_ok l b s :
  Core (b, s) -> regs s = [] -> NoDup l -> (forall i, i ∈ l <-> is_Some (ops s !! i)) ->
  (forall i, i ∈ l -> completed s i) ->
  exists s', destroy_all l (b, s) = Ret (b, s') /\ Core (b, s') /\ ops s' = ∅ /\ regs s' = [] /\
    log s' = log s /\ next s' = next s /\ stopped s' = stopped s /\ runner s' = runner s /\ queue s' = queue s.
Proof.
  revert s. induction l as [|i l IH]; intros s HC HR Hnd Hdom Hcomp.
  { exists s. split_and!; try done. apply map_eq. intros i. rewrite lookup_empty.
    destruct (ops s !! i) eqn:E; [|done]. assert (i ∈ []) as Hi by (apply Hdom; by eexists).
    by apply not_elem_of_nil in Hi. }
  apply NoDup_cons in Hnd as [Hni Hnd].
  destruct (destroy_completed b s i HC) as (R & Hd & HC' & HR');
    [apply Hdom, list_elem_of_here|apply Hcomp, list_elem_of_here|].
  cbn [destroy_all]. rewrite Hd. cbn [obind].
  edestruct (IH _ HC') as (s' & Hrun & ?); [by apply HR'|done| | |by exists s'].
  - intros j. cbn. rewrite lookup_delete_is_Some, <- Hdom, elem_of_cons. split; [|naive_solver].
    intros Hj. split; [by intros ->|by right].
  - intros j Hj. apply (Hcomp j). by right.
Qed.

Lemma stopped_drained_completed w i :
  Inv w -> stopped w.2 = true -> q_elements (queue w.2) = [] -> (i < next w.2)%nat -> completed w.2 i.
Proof.
  intros HI Hs Hq Hi. destruct (c_all _ (inv_core _ HI) i Hi) as [[op Hop]|]; [|done].
  destruct (drained_live w i op HI Hq Hop) as [|(t & -> & Hp)]; [done|].
  by destruct (stopped_no_pending w i t HI Hs Hop).
Qed.

Lemma destroy_all_next l w w' : destroy_all l w = Ret w' -> next w'.2 = next w.2.
Proof.
  revert w. induction l as [|i l IH]; intros [b s]; cbn [destroy_all]; [by intros [= <-]|].
  intros (w1 & H1 & H2)%obind_Ret. rewrite (IH _ H2).
  unfold destroy_op in H1. by destruct (ops s !! i) as [[]|]; simplify_eq.
Qed.

(** After the drain of a stopped domain the pipeline can be destroyed. *)
Lemma destroy_drained w :
  Inv w -> stopped w.2 = true -> q_elements (queue w.2) = [] ->
  exists s', destroy_all (map_to_list (ops w.2)).*1 w = Ret (w.1, s') /\ Core (w.1, s') /\
    ops s' = ∅ /\ regs s' = [] /\ log s' = log w.2 /\ next s' = next w.2 /\
    stopped s' = stopped w.2 /\ runner s' = runner w.2 /\ queue s' = queue w.2.
Proof.
  destruct w as [b s]. intros HI Hs Hq.
  assert (forall i, i ∈ (map_to_list (ops s)).*1 <-> is_Some (ops s !! i)) as Hdom
    by (intros i; by rewrite <- elem_of_dom, dom_alt, elem_of_list_to_set).
  apply destroy_all_ok; [apply HI|by apply (inv_stop _ HI)|apply NoDup_fst_map_to_list|done|].
  intros i Hi. apply (stopped_drained_completed (b, s)); try done.
  by apply (c_ops_next _ (inv_core _ HI)), Hdom.
Qed.

(** The state when [Domain::Stop] has drained the queue, and after. *)
Lemma Stop_ok fuel b s w' :
  Inv (b, s) -> bound w' -> Domain_Stop fuel (b, s) = Ret w' ->
  Core w' /\ ops w'.2 = ∅ /\ regs w'.2 = [] /\ q_elements (queue w'.2) = [] /\ stopped w'.2 = true /\
  (forall i, (i < next w'.2)%nat -> completed w'.2 i) /\
  exists l, log w'.2 = log s ++ l /\ Forall (fun e => what e = SetStopped) l.
Proof.
  intros HI Hb. unfold Domain_Stop.
  destruct (request_stop_ok b s HI) as (b1 & s1 & -> & HI1 & Hst1 & Hs1). cbn [obind].
  intros ([n [b2 s2]] & Hd & Hdes)%obind_Ret. cbn [snd] in Hdes.
  pose proof (destroy_all_next _ _ _ Hdes) as Hnext. cbn [snd] in Hnext.
  assert (bound (b2, s2)) as Hb2 by (unfold bound in *; cbn; by rewrite <- Hnext).
  destruct (DrainQueue_ok _ _ _ _ HI1 Hb2 Hd) as (w1 & _ & HI2 & Hg & HI' & Hs & Hst & Hq & _).
  cbn [fst snd] in *. pose proof (g_stopped _ _ Hg) as Hst2. cbn in Hst2. rewrite Hst, Hst1 in Hst2.
  destruct (destroy_drained (b2, s2)) as
    (s' & Hrun & HC' & Hops & Hregs & Hlog & Hn & Hst' & _ & Hqu); [done..|].
  cbn [fst snd] in *. rewrite Hrun in Hdes. injection Hdes as <-. cbn [fst snd] in *.
  split_and!; try done; [by rewrite Hqu|by rewrite Hst'| |].
  - intros i Hi. unfold completed. rewrite Hlog.
    apply (stopped_drained_completed (b2, s2)); try done. cbn. by rewrite <- Hn.
  - destruct (g_log _ _ Hg) as (l & Hl & Hf). exists l. rewrite Hlog. cbn in Hl.
      destruct Hs as (_ & Hl1 & _), Hs1 as (_ & Hl0 & _). cbn in Hl1.
      rewrite Hl, Hl1, Hl0. split; [done|]. unfold signal in Hf. by rewrite Hst, Hst1 in Hf.
Qed.


(** *** Termination *)

(** Operations that a list of actions starts, and the contract of user code
    completed for [i]: no unhandled error, and it destroys nothing but [i],
    at most once. *)
Fixpoint starts (l : list Act) : nat :=
  match l with
  | [] => O
  | (ASchedule | AScheduleAt _ | AScheduleAfter _) :: l' => S (starts l')
  | _ :: l' => starts l'
  end.

Fixpoint destroyed (l : list Act) : list nat :=
  match l with
  | [] => []
  | ADestroy i :: l' => i :: destroyed l'
  | _ :: l' => destroyed l'
  end.

Definition respects (mine : option nat) (l : list Act) : Prop :=
  (AError ∉ l) /\ (destroyed l = [] \/ exists i, mine = Some i /\ destroyed l = [i]).

(** The effect of one action on what termination depends on. *)
Record act_effect (a : Act) (w w' : world) : Prop := {
  ae_user : user w'.2 = user w.2;
  ae_log : log w'.2 = log w.2;
  ae_next : next w'.2 = (next w.2 + starts [a])%nat;
  ae_queue : (length (q_elements (queue w'.2)) <= length (q_elements (queue w.2)) + starts [a])%nat;
  ae_ops j : a <> ADestroy j -> is_Some (ops w.2 !! j) -> is_Some (ops w'.2 !! j) }.

Lemma length_enqueue i q : length (q_elements (enqueue i q)) = S (length (q_elements q)).
Proof. by rewrite enqueue_law. Qed.

Lemma is_Some_insert (m : gmap nat Op) i x j : is_Some (m !! j) -> is_Some (<[i := x]> m !! j).
Proof. intros. apply lookup_insert_is_Some. destruct (decide (i = j)); auto. Qed.

Lemma start_timed_returns tp b s :
  exists w', start_timed_op tp (b, s) = Ret w' /\ act_effect (AScheduleAt tp) (b, s) w'.
Proof.
  rewrite start_timed_op_eq. destruct (stopped s).
  - eexists. split; [done|]. split; cbn; [done|done|lia|rewrite length_enqueue; lia|].
    intros j _. apply is_Some_insert.
  - destruct (ScheduleAt tp (next s) b) as [k b']. eexists. split; [done|].
    split; cbn; [done|done|lia|lia|]. intros j _. apply is_Some_insert.
Qed.

Lemma act_returns a b s :
  a <> AError -> (forall i, a = ADestroy i -> completed s i /\ is_Some (ops s !! i)) ->
  exists w', do_act a (b, s) = Ret w' /\ act_effect a (b, s) w'.
Proof.
  intros He Hd. destruct a; cbn [do_act read_clock].
  - eexists. split; [done|]. split; cbn; [done|done|lia|rewrite length_enqueue; lia|].
    intros j _. apply is_Some_insert.
  - apply start_timed_returns.
  - edestruct start_timed_returns as (w' & -> & [? ? ? ? Ho]). exists w'. split; [done|].
    split; cbn in *; try done. intros j _. by apply Ho.
  - eexists. split; [done|]. by split; cbn; try lia.
  - eexists. split; [done|]. unfold Stopped. destruct (Exiting (runner s)); by split; cbn; try lia.
  - done.
  - destruct (Hd i eq_refl) as [Hc [op Hop]]. rewrite decide_True by done. unfold destroy_op. rewrite Hop.
    destruct op; (eexists; split; [done|]; split; cbn; try done; try lia;
      intros j Hj Hs; rewrite lookup_delete_ne by congruence; done).
Qed.

Lemma acts_return l mine b s :
  respects mine l -> (forall i, mine = Some i -> completed s i /\ is_Some (ops s !! i)) ->
  exists w', run_acts l (b, s) = Ret w' /\ user w'.2 = user s /\ log w'.2 = log s /\
    next w'.2 = (next s + starts l)%nat /\
    (length (q_elements (queue w'.2)) <= length (q_elements (queue s)) + starts l)%nat.
Proof.
  revert mine b s. induction l as [|a l IH]; intros mine b s [Hne Hd] Hm.
  { exists (b, s). cbn. split_and!; try done; lia. }
  apply not_elem_of_cons in Hne as [Hne1 Hne].
  destruct (act_returns a b s) as ([b1 s1] & Ha & [E1 E2 E3 E4 E5]); [done| |].
  { intros i ->. cbn in Hd. apply Hm. destruct Hd as [|(j & -> & Hj)]; [done|]. by simplify_eq. }
  cbn [run_acts]. rewrite Ha. cbn [obind fst snd] in *.
  destruct (IH (match destroyed l with [] => None | _ => mine end) b1 s1) as (w' & Hr & F1 & F2 & F3 & F4).
  - split; [done|]. destruct (destroyed l) as [|k l'] eqn:El; [by left|right].
    destruct a; cbn in Hd; rewrite ?El in Hd; destruct Hd as [Hd|(j & -> & Hd)]; simplify_eq; by eexists.
  - intros i Hi. destruct (destroyed l) as [|k l'] eqn:El; [done|]. subst mine.
    destruct (Hm i eq_refl) as [Hc Hs]. split; [unfold completed; by rewrite E2|].
    apply E5; [|done]. intros ->. cbn in Hd. rewrite El in Hd.
    by destruct Hd as [|(j & _ & [= _])].
  - exists w'. rewrite F1, F2, F3, E1, E2, E3. split_and!; try done; destruct a; cbn in *; lia.
Qed.

(** A bound on the operations that user code will still start. *)
Context (budget : U -> nat).
Hypothesis react_respects : forall u i sg,
  respects (Some i) (react u i sg).2 /\ (starts (react u i sg).2 + budget (react u i sg).1 <= budget u)%nat.

(** The operations started so far and still to be started. *)
Definition total (w : world) : nat := (next w.2 + budget (user w.2))%nat.

Definition room (w : world) : Prop := Z.of_nat (total w) + 2 < 2 ^ 64.

Lemma drain_returns fuel count w :
  Inv w -> room w -> (length (q_elements (queue w.2)) + budget (user w.2) <= fuel)%nat ->
  exists n w', drain fuel count w = Ret (n, w') /\ (total w' <= total w)%nat.
Proof.
  revert count w. induction fuel as [|fuel IH]; intros count [b s] HI Hr Hf; cbn [drain fst snd] in *;
    (destruct (try_dequeue (queue s)) as [[i q]|] eqn:Eq; [|by do 2 eexists; split; [reflexivity|lia]]);
    pose proof (dequeue_elements _ _ _ Eq) as Hq; pose proof (Permutation_length Hq) as Hlen; cbn in Hlen.
  { lia. }
  destruct (c_queue_live _ (inv_core _ HI) i) as [[op Hop] _];
    [unfold queued; cbn; rewrite Hq; apply list_elem_of_here|]. cbn in Hop.
  assert (exists w1, Execute i (b, set_queue q s) = Ret w1 /\ (total w1 <= total (b, s))%nat /\ good (b, s) w1 /\
    (length (q_elements (queue w1.2)) + budget (user w1.2) <= fuel)%nat) as (w1 & -> & Hr1 & Hg & Hf1).
  { unfold Execute. cbn [ops set_queue user]. rewrite Hop.
    pose proof (react_respects (user s) i (signal (set_queue q s))) as [Hresp Hbud].
    destruct (react (user s) i (signal (set_queue q s))) as [u acts] eqn:Er. cbn [fst snd] in *.
    destruct (acts_return acts (Some i) b (complete i op u (set_queue q s))) as (w1 & Hrun & E1 & _ & E3 & E4).
    - done.
    - intros j [= <-]. split; [apply completed_complete; by right|by eexists].
    - exists w1. cbn in E1, E3, E4. unfold total. rewrite E1, E3. split_and!; [done|cbn; lia| |lia].
      eapply good_execute; [done|]. unfold Execute. cbn [ops set_queue user]. by rewrite Hop, Er. }
  cbn [obind]. destruct (IH (S count) w1) as (n & w' & Hd & Ht); [|unfold room in *; lia|done|].
  - apply (g_inv _ _ Hg); [|done]. unfold bound, room, total in *. lia.
  - exists n, w'. split; [done|lia].
Qed.

Lemma queue_within_ops w : Inv w -> (length (q_elements (queue w.2)) <= size (ops w.2))%nat.
Proof.
  intros [HC _]. rewrite <- size_dom, <- (size_list_to_set (C := gset nat)) by apply HC.
  apply subseteq_size. intros i Hi%elem_of_list_to_set.
  apply elem_of_dom. by apply (c_queue_live _ HC).
Qed.

Lemma run_tick_returns fuel w :
  Inv w -> (size (pending w.1) <= fuel)%nat -> exists w', run_tick fuel w = Ret w'.
Proof.
  destruct w as [b s]. intros HI Hf. unfold run_tick. cbn [read_clock fst snd].
  destruct (tick_complete _ fire fuel (clock (reads s)) b (Ret (read_clock s).2)) as ([b' o] & Hr & Hd);
    [done|apply HI|done|].
  cbn in Hr. rewrite Hr. cbn. pose proof (inv_core _ (inv_read_clock b s HI)) as HC.
  apply tick_law in Hr; [|done|apply HC].
  destruct (fires_ok _ _ _ _ Hr HC eq_refl) as (s' & E & _). cbn in E. rewrite E. by eexists.
Qed.

Lemma stopped_pending_empty w : Inv w -> stopped w.2 = true -> pending w.1 = ∅.
Proof.
  intros HI Hs. apply map_eq. intros k. rewrite lookup_empty.
  destruct (pending w.1 !! k) as [[d i]|] eqn:E; [|done].
  destruct (c_timer _ (inv_core _ HI) k d i E) as (t & Ht & Hp & _).
  by destruct (stopped_no_pending w i t HI Hs Ht).
Qed.

Lemma DrainQueue_returns fuel w :
  Inv w -> room w -> (size (pending w.1) <= fuel)%nat ->
  (size (ops w.2) + budget (user w.2) <= fuel)%nat ->
  exists n w', DrainQueue fuel w = Ret (n, w') /\ (total w' <= total w)%nat.
Proof.
  destruct w as [b s]. intros HI Hr Hf1 Hf2.
  destruct (run_tick_returns fuel (b, s) HI Hf1) as [w1 Ht].
  destruct (run_tick_ok fuel b s w1 HI Ht) as (HI1 & (Hn & _ & _ & Hu & _ & Hdom) & _).
  pose proof (queue_within_ops w1 HI1) as Hq.
  assert (size (ops w1.2) = size (ops s)) as Hsz by (rewrite <- !size_dom; by rewrite Hdom).
  cbn in Hn, Hu, Hf2. assert (total w1 = total (b, s)) as Htot by (unfold total; by rewrite Hn, Hu).
  destruct (drain_returns fuel 0 w1) as (n & w' & Hd & Hr'); [done| | |].
  - unfold room. by rewrite Htot.
  - rewrite Hu. lia.
  - exists n, w'. unfold DrainQueue. rewrite Ht, <- Htot. by split.
Qed.

(** A drain terminates for user code that starts a bounded number of
    operations: fuel for one callback per pending timer, one task per live
    operation and one per operation still to be started is enough, and no
    operation state is used after its destruction. *)
Theorem DrainQueue_terminates (fuel : nat) (w : world) :
  Inv w -> room w -> (size (pending w.1) <= fuel)%nat ->
  (size (ops w.2) + budget (user w.2) <= fuel)%nat ->
  exists n w', DrainQueue fuel w = Ret (n, w').
Proof.
  intros HI Hr H1 H2. destruct (DrainQueue_returns fuel w HI Hr H1 H2) as (n & w' & Hd & _). eauto.
Qed.

Lemma Stop_returns fuel w :
  Inv w -> room w -> (size (ops w.2) + budget (user w.2) <= fuel)%nat ->
  exists w', Domain_Stop fuel w = Ret w' /\ bound w'.
Proof.
  destruct w as [b s]. intros HI Hr Hf. unfold Domain_Stop.
  destruct (request_stop_ok b s HI) as (b1 & s1 & -> & HI1 & Hst1 & (Hn & _ & _ & Hu & _ & Hdom)).
  cbn [obind]. cbn in Hf.
  assert (total (b1, s1) = total (b, s)) as Htot by (unfold total; cbn; by rewrite Hn, Hu).
  assert (size (ops s1) = size (ops s)) as Hsz by (rewrite <- !size_dom; by rewrite Hdom).
  destruct (DrainQueue_returns fuel (b1, s1)) as (n & [b2 s2] & Hd & Hr2); [done| | | |].
  - unfold room. by rewrite Htot.
  - rewrite stopped_pending_empty by done. rewrite map_size_empty. lia.
  - cbn. rewrite Hsz, Hu. done.
  - rewrite Hd. cbn [obind snd].
    assert (bound (b2, s2)) as Hb2 by (unfold bound, room, total in *; cbn in *; lia).
    destruct (DrainQueue_ok _ _ _ _ HI1 Hb2 Hd) as (w1 & _ & HI2 & Hg & HI' & Hs & Hst & Hq & _).
    destruct (destroy_drained (b2, s2)) as (s' & Hrun & _ & _ & _ & _ & Hnx & _); [done| |done|].
    + rewrite (g_stopped _ _ Hg), Hst. done.
    + cbn in Hrun, Hnx. rewrite Hrun. eexists. split; [done|]. unfold bound in *. cbn in *. by rewrite Hnx.
Qed.

(** C24: [Domain::Stop] returns from any state between frames, for a backend that
    fires its timers in [Tick()] (as [LoopTimerBackend]), user code that reports no
    error, destroys only the operation it is completed for and starts a bounded
    number of further operations, and while 64-bit timer ids are left: no crash, no
    access to a destroyed operation state and no wait for a timer. *)
Theorem Stop_terminates (fuel : nat) (w : world) :
  Inv w -> room w -> (size (ops w.2) + budget (user w.2) <= fuel)%nat ->
  exists w', Domain_Stop fuel w = Ret w'.
Proof. intros HI Hr Hf. destruct (Stop_returns fuel w HI Hr Hf) as (w' & Hs & _). eauto. Qed.

(** ** The domain as the handler of a runner *)

(** [fuel] bounds the tasks and timers of one call. *)
Definition domain_handler (fuel : nat) : HandlerOps world := {|
  h_Start := Domain_Start;
  h_Stop := Domain_Stop fuel;
  h_Update _ := Domain_Update fuel;
  get_runner w := runner w.2;
  set_runner r w := (w.1, set_runner_state r w.2) |}.

(** A constructed domain: nothing started yet. *)
Record fresh (w : world) : Prop := {
  f_wf : wf w.1; f_pending : pending w.1 = ∅; f_issued : issued w.1 <= 0;
  f_queue : q_elements (queue w.2) = []; f_ops : ops w.2 = ∅; f_next : next w.2 = 0%nat;
  f_regs : regs w.2 = []; f_log : log w.2 = []; f_now : lastNow w.2 <= clock (reads w.2) }.

Lemma fresh_inv w : fresh w -> Inv w.
Proof.
  intros [Hwf Hp Hi Hq Ho Hn Hr Hl Hc]. split; [|done].
  constructor; unfold queued, timed, completed; rewrite ?Hp, ?Hq, ?Ho, ?Hn, ?Hr, ?Hl; cbn;
    try done; try apply NoDup_nil_2; try lia; try (by intros ? ?%elem_of_nil); try (by intros ? ? ?%elem_of_nil).
  by intros i [? ?].
Qed.

(** The state of a running domain: invariant, identifiers left, enough fuel. *)
Definition Live (fuel : nat) (w : world) : Prop := Inv w /\ room w /\ (total w <= fuel)%nat.

Lemma ops_within_total w : Inv w -> (size (ops w.2) <= next w.2)%nat.
Proof.
  intros [HC _]. rewrite <- size_dom.
  rewrite <- (length_seq (next w.2) 0%nat).
  rewrite <- (size_list_to_set (C := gset nat)) by apply NoDup_seq.
  apply subseteq_size. intros i Hi%elem_of_dom%(c_ops_next _ HC).
  apply elem_of_list_to_set, elem_of_seq. lia.
Qed.

Lemma pending_within_ops w : Inv w -> (size (pending w.1) <= size (ops w.2))%nat.
Proof.
  intros [HC _]. rewrite <- length_map_to_list, <- size_dom.
  rewrite <- (length_fmap (fun x => x.2.2)), <- (size_list_to_set (C := gset nat)).
  - apply subseteq_size. intros i ([k [d j]] & -> & Hin)%elem_of_list_to_set%list_elem_of_fmap.
    apply elem_of_map_to_list in Hin. destruct (c_timer _ HC k d j Hin) as (t & Ht & _).
    apply elem_of_dom. by eexists.
  - apply NoDup_fmap_2_strong; [|apply NoDup_map_to_list].
    intros [k [d j]] [k' [d' j']] H1%elem_of_map_to_list H2%elem_of_map_to_list E. cbn in E. subst j'.
    destruct (c_timer _ HC _ _ _ H1) as (t & Ht & _ & <- & <-).
    destruct (c_timer _ HC _ _ _ H2) as (t' & Ht' & _ & <- & <-). unfold timed in *. congruence.
Qed.

Lemma Live_good fuel w w' : Live fuel w -> good w w' -> (total w' <= total w)%nat -> Live fuel w'.
Proof.
  intros (HI & Hr & Hf) Hg Ht. unfold Live, room in *. split_and!; [|lia..].
  apply (g_inv _ _ Hg); [|done]. unfold bound, total in *. lia.
Qed.

Lemma Update_live fuel w :
  Live fuel w -> exists w', Domain_Update fuel w = Ret w' /\ Live fuel w'.
Proof.
  intros (HI & Hr & Hf). pose proof (ops_within_total w HI). pose proof (pending_within_ops w HI).
  destruct (DrainQueue_returns fuel w HI Hr) as (n & w' & Hd & Ht); [unfold total in *; lia..|].
  exists w'. unfold Domain_Update. rewrite Hd. split; [done|]. unfold Live, room in *.
  split_and!; [|lia..].
  destruct (DrainQueue_ok fuel w n w' HI) as (? & _ & _ & _ & ? & _); [|done..].
  unfold bound, total in *. lia.
Qed.

Hypothesis start_respects : forall u,
  respects None (user_start u).2 /\ (starts (user_start u).2 + budget (user_start u).1 <= budget u)%nat.

Lemma Start_live fuel w :
  Live fuel w -> exists w', Domain_Start w = Ret (true, w') /\ Live fuel w'.
Proof.
  destruct w as [b s]. intros HL. unfold Domain_Start.
  destruct (start_respects (user s)) as [Hresp Hbud].
  destruct (user_start (user s)) as [u acts]. cbn [fst snd] in *.
  set (s0 := mkSys _ _ _ _ _ _ u _ _ _).
  destruct (acts_return acts None b s0 Hresp) as (w' & Hrun & E1 & _ & E3 & _); [done|].
  exists w'. rewrite Hrun. split; [done|].
  assert (good (b, s) (b, s0)) as Hg0.
  { split; [done|done|done|exists []; by rewrite app_nil_r|]. intros _ [HC HS].
    split; [|done]. by destruct HC; constructor. }
  apply (Live_good fuel (b, s)); [done|eapply good_trans; [done|by eapply good_acts]|].
  unfold total. rewrite E1, E3. cbn. lia.
Qed.

Lemma run_loop_live fuel rclock k n ctx w :
  Live fuel w ->
  match run_loop (H := domain_handler fuel) rclock k n ctx w with
  | Ret w' => Live fuel w'
  | Running => exists w', frames (H := domain_handler fuel) rclock k n ctx w w' /\
                          running (runner w'.2) = true
  | Crash => False
  end.
Proof.
  revert n ctx w. induction k as [|k IH]; intros n ctx w HL; cbn [run_loop];
    (destruct (is_running (H := domain_handler fuel) w) eqn:Er; [|done]).
  - exists w. split; [apply frames_O|done].
  - destruct (Update_live fuel w HL) as (w' & Hu & HL'). cbn [h_Update domain_handler].
    rewrite Hu. cbn [obind]. specialize (IH (S n) (UpdateCtx.Tick (rclock n) ctx) w' HL').
    destruct (run_loop _ _ _ _ w') as [?| |]; [done| |done].
    destruct IH as (w2 & Hf & Hr). exists w2. split; [|done]. by eapply frames_S.
Qed.


(** ** Rescheduling *)

(** Every queued operation state is alive. *)
Definition queue_alive (s : Sys) : Prop := forall i, queued s i -> is_Some (ops s !! i).

(** An operation started during a drain is executed by the same drain: user
    code that calls [schedule()] every time it is resumed keeps [DrainQueue()],
    and with it [Update()], from ever returning. *)
Theorem rescheduling_never_returns (fuel count : nat) (w : world) :
  (forall u i sg, (react u i sg).2 = [ASchedule]) ->
  queue_alive w.2 -> q_elements (queue w.2) <> [] ->
  drain fuel count w = Running.
Proof.
  intros Hreact. revert count w. induction fuel as [|fuel IH]; intros count [b s] Ha Hne; cbn [drain fst snd] in *;
    (destruct (try_dequeue (queue s)) as [[i q]|] eqn:Eq;
      [|pose proof (try_dequeue_law (queue s)) as Hl; by rewrite Eq in Hl]); [done|].
  pose proof (dequeue_elements _ _ _ Eq) as Hq.
  destruct (Ha i) as [op Hop]; [unfold queued; rewrite Hq; apply list_elem_of_here|].
  unfold Execute. cbn [ops set_queue user]. rewrite Hop.
  specialize (Hreact (user s) i (signal (set_queue q s))).
  destruct (react (user s) i (signal (set_queue q s))) as [u acts]. cbn [snd] in Hreact. subst acts.
  cbn [run_acts do_act obind]. apply IH; cbn.
  - intros j. unfold queued. cbn. rewrite queued_enqueue. intros [->|Hj].
    + rewrite lookup_insert_eq. by eexists.
    + apply is_Some_insert, Ha. unfold queued. rewrite Hq. by apply list_elem_of_further.
  - intros E. pose proof (length_enqueue (next s) q) as Hlen. by rewrite E in Hlen.
Qed.

End Exec.

(** ** A concrete pipeline

    [schedule] followed by [n - 1] delays until time 5, then exit code 42; on
    cancellation it reports [set_stopped]. It runs on [LoopTimerBackend] with a
    clock that advances by one at each reading. *)

Module Pipeline.

Definition start (u : nat) : nat * list Act :=
  match u with O => (O, [AComplete 42]) | S u' => (u', [ASchedule]) end.

Definition resume (u i : nat) (sg : Signal) : nat * list Act :=
  match sg, u with
  | SetStopped, _ => (O, [ADestroy i; AStopped])
  | SetValue, O => (O, [ADestroy i; AComplete 42])
  | SetValue, S u' => (u', [ADestroy i; AScheduleAt 5])
  end.

Definition tight_exit (code : Z) (r : RunnerState) : RunnerState := mkRunner (Some code) false.

Definition W : Type := world (B := LoopTimer.t nat) (Q := list nat) (U := nat).

Definition init (n : nat) : W :=
  (LoopTimer.empty, mkSys [] ∅ 0 false [] (mkRunner None false) n [] 0 0).

Definition world_of (m : outcome W) (w : W) : W := match m with Ret w' => w' | _ => w end.

(** The domain with two operations: started, and after the first update (the
    second operation waits for time 5). *)
Definition started : W := (match Domain_Start start tick_clock tight_exit (init 2) with
  | Ret (_, w) => w | _ => init 2 end).
Definition waiting : W := world_of (Domain_Update resume tick_clock tight_exit 2 started) started.

(** A later frame: the clock has reached the deadline. *)
Definition later (w : W) : W :=
  (w.1, mkSys (queue w.2) (ops w.2) (next w.2) (stopped w.2) (regs w.2) (runner w.2) (user w.2)
              (log w.2) 7 6).

Lemma clock_mono n : tick_clock n <= tick_clock (S n).
Proof. unfold tick_clock. lia. Qed.

Lemma resume_respects u i sg :
  respects (Some i) (resume u i sg).2 /\ (starts (resume u i sg).2 + (resume u i sg).1 <= u)%nat.
Proof.
  split; [|destruct sg, u; simpl; lia].
  split; [destruct sg, u; simpl; set_solver|right; exists i; by destruct sg, u].
Qed.

Lemma start_respects u : respects None (start u).2 /\ (starts (start u).2 + (start u).1 <= u)%nat.
Proof. destruct u; simpl; split; try lia; split; [set_solver|by left|set_solver|by left]. Qed.

Lemma init_fresh n : fresh tick_clock (init n).
Proof. split; try done. apply LoopTimer.loop_empty_wf. Qed.

Lemma init_live n fuel :
  Z.of_nat n + 2 < 2 ^ 64 -> (n <= fuel)%nat -> Live tick_clock (fun u => u) fuel (init n).
Proof. intros. split; [apply fresh_inv, init_fresh|done]. Qed.

Lemma started_live : Live tick_clock (fun u => u) 2 started.
Proof.
  destruct (Start_live start tick_clock tight_exit clock_mono (fun u => u) start_respects 2 (init 2))
    as (w & Hs & HL); [by apply init_live|].
  unfold started. by rewrite Hs.
Qed.

Lemma waiting_live : Live tick_clock (fun u => u) 2 waiting.
Proof.
  destruct (Update_live resume tick_clock tight_exit clock_mono (fun u => u) resume_respects 2 started)
    as (w & Hs & HL); [apply started_live|].
  unfold waiting. by rewrite Hs.
Qed.

Lemma waiting_inv : Inv tick_clock waiting.
Proof. apply waiting_live. Qed.

Lemma later_ok (w : W) : Inv tick_clock w -> lastNow w.2 <= 6 -> Inv tick_clock (later w).
Proof.
  intros [HC HS] Hn. split; [|exact HS]. destruct HC. constructor; cbn in *; try done.
  intros i t Ht Hp. destruct (c_won0 i t Ht Hp) as (? & ? & Hl). split_and!; try done.
  intros Hw. specialize (Hl Hw). lia.
Qed.

Lemma later_inv : Inv tick_clock (later waiting).
Proof. apply later_ok; [apply waiting_inv|vm_compute; discriminate]. Qed.

(** The domain after that frame, and after a stop instead of it. *)
Definition drained : W := world_of (Domain_Update resume tick_clock tight_exit 2 (later waiting)) waiting.
Definition stopped_world : W := world_of (Domain_Stop resume tick_clock id tight_exit 2 waiting) waiting.

Lemma drained_eq : DrainQueue resume tick_clock tight_exit 2 (later waiting) = Ret (1%nat, drained).
Proof. vm_compute. reflexivity. Qed.

Lemma stopped_eq : Domain_Stop resume tick_clock id tight_exit 2 waiting = Ret stopped_world.
Proof. vm_compute. reflexivity. Qed.


Lemma due_operation_completes_witness : completed drained.2 1%nat.
Proof.
  apply (due_operation_completes resume tick_clock tight_exit clock_mono 2 1 1 (later waiting) drained);
    [apply later_inv|vm_compute; reflexivity|vm_compute; lia|apply drained_eq|].
  right. exists (mkTimed 5 Pending 1). split_and!; [vm_compute; reflexivity|reflexivity|vm_compute; discriminate].
Defined.


Lemma DrainQueue_terminates_witness :
  exists n w', DrainQueue resume tick_clock tight_exit 2 waiting = Ret (n, w').
Proof.
  apply (DrainQueue_terminates resume tick_clock tight_exit clock_mono (fun u => u) resume_respects
           2 waiting); [apply waiting_inv|vm_compute; done|vm_compute; lia|vm_compute; lia].
Defined.

Lemma Stop_terminates_witness : exists w', Domain_Stop resume tick_clock id tight_exit 2 waiting = Ret w'.
Proof.
  apply (Stop_terminates resume tick_clock id tight_exit (fun l => reflexivity l) clock_mono
           (fun u => u) resume_respects 2 waiting); [apply waiting_inv|vm_compute; done|vm_compute; lia].
Defined.

(** Run to the end: three operations, exit code 42. *)
Local Abbreviation handler := (domain_handler start resume tick_clock id tight_exit 3).
Definition finished : W :=
  match Run (H := handler) tick_clock 9 (init 3) with Ret (_, w) => w | _ => init 3 end.

Lemma finished_eq : Run (H := handler) tick_clock 9 (init 3) = Ret (42, finished).
Proof. vm_compute. reflexivity. Qed.


(** A pipeline that yields to the next frame for ever. *)
Definition yielding (u i : nat) (sg : Signal) : nat * list Act := (u, [ASchedule]).

Lemma rescheduling_never_returns_witness :
  forall fuel, drain yielding tick_clock tight_exit fuel 0 started = Running.
Proof.
  intros fuel. apply (rescheduling_never_returns yielding tick_clock tight_exit fuel 0 started).
  - reflexivity.
  - intros i Hi. vm_compute in Hi. apply list_elem_of_singleton in Hi as ->. vm_compute. by eexists.
  - vm_compute. done.
Defined.

End Pipeline.
