(* ===== verification/SigHub.v ===== *)
(** * [SigHub]: in-process signaling between peers

    [src/pkg/rtt/Rtt/Rtc/SigHub.{h,cpp}], [LocalSigClient.cpp] and the
    interfaces [ISigClient.h], [ISigUser.h]. The model is the store of one
    process: the [HubUser] objects, the registry of weak pointers, the locks
    held by the calls in progress on the thread. Handlers and join callbacks are
    application code, a parameter that answers each call with the calls it makes
    in turn; these run nested, while the caller still holds its lock. Locking a
    [std::mutex] that the thread already holds never returns: the model crashes. *)

From S2P Require Import Prelude.

Open Scope outcome_scope.

(** [PeerId::value]. *)
Abbreviation PeerId := string.

(** [SigMessage]. *)
Record SigMessage := mkMsg { from : PeerId; payload : string }.

(** [SigHub::HubUser]; [_handler] is a weak pointer to an [ISigHandler], which
    is a number; [locked] says whether [_handlerMutex] is held. *)
Record HubUser := mkUser {
  localId : PeerId; handler : option nat; pending : list SigMessage;
  left_ : bool; locked : bool }.

(** Calls that application code makes. *)
Inductive Cmd :=
| CJoin (id : PeerId) (tag : nat)              (* [LocalSigClient::Join] *)
| CSend (u : nat) (to : PeerId) (p : string)   (* [ISigUser::Send] *)
| CLeave (u : nat)                             (* [ISigUser::Leave] *)
| CHold (u : nat) | CDrop (u : nat)            (* keep or release a [shared_ptr<ISigUser>] *)
| CCreate (h : nat) | CDestroy (h : nat).      (* create or destroy an [ISigHandler] *)

(** What can be observed: messages accepted for a user, the calls to handlers. *)
Inductive Event :=
| EAccepted (u : nat) (to : PeerId) (m : SigMessage)
| EMessage (u h : nat) (m : SigMessage)
| ELeft (u h : nat).

Section Hub.
Context {A : Type}.
(** [ISigHandler::OnMessage], [ISigHandler::OnLeft] and the join factory. *)
Context (on_message : A -> nat -> SigMessage -> A * list Cmd).
Context (on_left : A -> nat -> A * list Cmd).
Context (on_joined : A -> nat -> nat -> A * list Cmd * option nat).

(** [_peers] has weak pointers: a user can be locked while the application
    holds it ([held]) or a call in progress does ([pins]); likewise handlers.
    [created] has the handlers ever created: a number is not used twice. *)
Record Hub := mkHub {
  peers : gmap PeerId nat; users : gmap nat HubUser; next : nat;
  held : gset nat; pins : list nat; handlers : gset nat; hpins : list nat; created : gset nat;
  app : A; trace : list Event }.

Definition user_alive (w : Hub) (u : nat) : Prop := u ∈ held w \/ u ∈ pins w.
Definition handler_alive (w : Hub) (h : nat) : Prop := h ∈ handlers w \/ h ∈ hpins w.

#[global] Instance user_alive_dec w u : Decision (user_alive w u).
Proof. unfold user_alive. apply _. Defined.
#[global] Instance handler_alive_dec w h : Decision (handler_alive w h).
Proof. unfold handler_alive. apply _. Defined.

Definition set_user (u : nat) (x : HubUser) (w : Hub) : Hub :=
  mkHub (peers w) (<[u := x]> (users w)) (next w) (held w) (pins w) (handlers w) (hpins w) (created w)
        (app w) (trace w).
Definition set_peers (p : gmap PeerId nat) (w : Hub) : Hub :=
  mkHub p (users w) (next w) (held w) (pins w) (handlers w) (hpins w) (created w) (app w) (trace w).
Definition set_held (s : gset nat) (w : Hub) : Hub :=
  mkHub (peers w) (users w) (next w) s (pins w) (handlers w) (hpins w) (created w) (app w) (trace w).
Definition set_pins (p hp : list nat) (w : Hub) : Hub :=
  mkHub (peers w) (users w) (next w) (held w) p (handlers w) hp (created w) (app w) (trace w).
Definition set_handlers (s : gset nat) (w : Hub) : Hub :=
  mkHub (peers w) (users w) (next w) (held w) (pins w) s (hpins w) (created w) (app w) (trace w).
Definition set_app (a : A) (w : Hub) : Hub :=
  mkHub (peers w) (users w) (next w) (held w) (pins w) (handlers w) (hpins w) (created w) a (trace w).
Definition emit (e : Event) (w : Hub) : Hub :=
  mkHub (peers w) (users w) (next w) (held w) (pins w) (handlers w) (hpins w) (created w) (app w) (trace w ++ [e]).

Definition with_lock (b : bool) (x : HubUser) : HubUser :=
  mkUser (localId x) (handler x) (pending x) (left_ x) b.
Definition with_handler (h : option nat) (p : list SigMessage) (x : HubUser) : HubUser :=
  mkUser (localId x) h p (left_ x) (locked x).
Definition with_left (x : HubUser) : HubUser :=
  mkUser (localId x) (handler x) (pending x) true (locked x).

(** [std::lock_guard lock{_handlerMutex}] of user [u], and its release. *)
Definition lock (u : nat) (w : Hub) : outcome (HubUser * Hub) :=
  match users w !! u with
  | Some x => if locked x then Crash else Ret (x, set_user u (with_lock true x) w)
  | None => Crash
  end.

Definition unlock (u : nat) (w : Hub) : Hub :=
  match users w !! u with Some x => set_user u (with_lock false x) w | None => w end.

(** A call made while the [shared_ptr]s to [u] and [h] are on the stack. *)
Definition pinned (us hs : list nat) (k : Hub -> outcome Hub) (w : Hub) : outcome Hub :=
  let! w1 := k (set_pins (us ++ pins w) (hs ++ hpins w) w) in
  Ret (set_pins (pins w) (hpins w) w1).

Section Calls.
(** Running the calls of application code. *)
Context (run : list Cmd -> Hub -> outcome Hub).

(** [h->OnMessage(msg)] for a message of user [u]. *)
Definition call_OnMessage (u h : nat) (m : SigMessage) (w : Hub) : outcome Hub :=
  pinned [] [h] (fun w =>
    let '(a, cs) := on_message (app w) h m in run cs (set_app a (emit (EMessage u h m) w))) w.

Definition call_OnLeft (u h : nat) (w : Hub) : outcome Hub :=
  pinned [] [h] (fun w =>
    let '(a, cs) := on_left (app w) h in run cs (set_app a (emit (ELeft u h) w))) w.

Definition lock_handler (x : HubUser) (w : Hub) : option nat :=
  h ← handler x; if decide (handler_alive w h) then Some h else None.

(** [HubUser::Deliver]. *)
Definition Deliver (u : nat) (m : SigMessage) (w : Hub) : outcome Hub :=
  let! (x, w1) := lock u w in
  let! w2 := match lock_handler x w1 with
             | Some h => call_OnMessage u h m w1
             | None => Ret (set_user u (with_lock true (with_handler (handler x) (pending x ++ [m]) x)) w1)
             end in
  Ret (unlock u w2).

(** The replay loop of [SetHandler]. *)
Fixpoint replay (u h : nat) (l : list SigMessage) (w : Hub) : outcome Hub :=
  match l with
  | [] => Ret w
  | m :: l' => let! w1 := call_OnMessage u h m w in replay u h l' w1
  end.

(** [HubUser::SetHandler]. *)
Definition SetHandler (u h : nat) (w : Hub) : outcome Hub :=
  let! (x, w1) := lock u w in
  let w2 := set_user u (with_lock true (with_handler (Some h) [] x)) w1 in
  let! w3 := if decide (handler_alive w2 h) then pinned [] [h] (replay u h (pending x)) w2
            else Ret w2 in
  Ret (unlock u w3).

(** [SigHub::Dispatch]. *)
Definition Dispatch (src to : PeerId) (p : string) (w : Hub) : outcome Hub :=
  match peers w !! to with
  | None => Ret w
  | Some u =>
    if decide (user_alive w u) then
      pinned [u] [] (fun w1 => Deliver u (mkMsg src p) (emit (EAccepted u to (mkMsg src p)) w1)) w
    else Ret (set_peers (delete to (peers w)) w)
  end.

(** [SigHub::Unregister]. *)
Definition Unregister (id : PeerId) (w : Hub) : Hub := set_peers (delete id (peers w)) w.

(** [HubUser::Send]. *)
Definition Send (u : nat) (to : PeerId) (p : string) (w : Hub) : outcome Hub :=
  match users w !! u with
  | Some x => if decide (user_alive w u) then Dispatch (localId x) to p w else Crash
  | None => Crash
  end.

(** [HubUser::Leave]. *)
Definition Leave (u : nat) (w : Hub) : outcome Hub :=
  match users w !! u with
  | Some x =>
    if decide (user_alive w u) then
      if left_ x then Ret w else
      let w1 := Unregister (localId x) (set_user u (with_left x) w) in
      let! (x1, w2) := lock u w1 in
      let w3 := unlock u w2 in
      match lock_handler x1 w3 with
      | Some h => call_OnLeft u h w3
      | None => Ret w3
      end
    else Crash
  | None => Crash
  end.

(** [SigHub::Register], called by [LocalSigClient::Join]. *)
Definition Register (id : PeerId) (tag : nat) (w : Hub) : outcome Hub :=
  let u := next w in
  let w1 := mkHub (<[id := u]> (peers w)) (<[u := mkUser id None [] false false]> (users w)) (S u)
              (held w) (pins w) (handlers w) (hpins w) (created w) (app w) (trace w) in
  pinned [u] [] (fun w2 =>
    let '(a, cs, wh) := on_joined (app w2) tag u in
    let! w3 := run cs (set_app a w2) in
    match wh with
    | Some h => if decide (handler_alive w3 h) then SetHandler u h w3
                else Ret (set_peers (delete id (peers w3)) w3)
    | None => Ret (set_peers (delete id (peers w3)) w3)
    end) w1.

Definition call (c : Cmd) (w : Hub) : outcome Hub :=
  match c with
  | CJoin id tag => Register id tag w
  | CSend u to p => Send u to p w
  | CLeave u => Leave u w
  | CHold u => if decide (user_alive w u) then Ret (set_held ({[u]} ∪ held w) w) else Crash
  | CDrop u => Ret (set_held (held w ∖ {[u]}) w)
  | CCreate h => if decide (h ∈ created w) then Crash else
      Ret (mkHub (peers w) (users w) (next w) (held w) (pins w) ({[h]} ∪ handlers w) (hpins w)
                 ({[h]} ∪ created w) (app w) (trace w))
  | CDestroy h => Ret (set_handlers (handlers w ∖ {[h]}) w)
  end.

End Calls.

Arguments lock_handler : simpl never.

(** The calls of application code, in order; [fuel] bounds calls and nesting. *)
Fixpoint exec (fuel : nat) (cs : list Cmd) (w : Hub) : outcome Hub :=
  match cs with
  | [] => Ret w
  | c :: cs' =>
    match fuel with
    | O => Running
    | S fuel' => let! w1 := call (exec fuel') c w in exec fuel' cs' w1
    end
  end.

Definition init (a : A) : Hub := mkHub ∅ ∅ 0 ∅ [] ∅ [] ∅ a [].

(** ** Invariant *)

Definition accepted (u : nat) (l : list Event) : list SigMessage :=
  omap (fun e => match e with
                 | EAccepted v _ m => if decide (v = u) then Some m else None | _ => None end) l.
Definition delivered (u : nat) (l : list Event) : list SigMessage :=
  omap (fun e => match e with
                 | EMessage v _ m => if decide (v = u) then Some m else None | _ => None end) l.
Definition lefts (u : nat) (l : list Event) : list nat :=
  omap (fun e => match e with
                 | ELeft v h => if decide (v = u) then Some h else None | _ => None end) l.

Arguments accepted : simpl never.
Arguments delivered : simpl never.
Arguments lefts : simpl never.

Definition event_user (e : Event) : nat :=
  match e with EAccepted u _ _ | EMessage u _ _ | ELeft u _ => u end.

Record user_ok (w : Hub) (u : nat) (x : HubUser) : Prop := {
  (* outside of a delivery: what was accepted was delivered, in order, or waits *)
  u_order : locked x = false -> accepted u (trace w) = delivered u (trace w) ++ pending x;
  u_waits : locked x = false -> pending x <> [] ->
    forall h, handler x = Some h -> ~ handler_alive w h;
  u_handler h : handler x = Some h -> h ∈ created w;
  u_left : (length (lefts u (trace w)) <= 1)%nat;
  u_stays : left_ x = false -> lefts u (trace w) = [] }.

Record Inv (w : Hub) : Prop := {
  i_users u : is_Some (users w !! u) -> (u < next w)%nat;
  i_peers id u : peers w !! id = Some u -> exists x, users w !! u = Some x /\ localId x = id;
  i_ok u x : users w !! u = Some x -> user_ok w u x;
  i_trace e : e ∈ trace w -> is_Some (users w !! event_user e);
  i_route u to m : EAccepted u to m ∈ trace w -> exists x, users w !! u = Some x /\ localId x = to;
  i_handlers h : handler_alive w h -> h ∈ created w }.

(** What a call leaves alone: a user whose lock is held by a caller is not
    touched ([ex] is the user the call itself works on). *)
Record Rel (ex : option nat) (w w' : Hub) : Prop := {
  r_next : (next w <= next w')%nat;
  r_pins : pins w' = pins w /\ hpins w' = hpins w;
  r_created : created w ⊆ created w';
  r_dead h : h ∈ created w -> ~ handler_alive w h -> ~ handler_alive w' h;
  r_user u x : users w !! u = Some x ->
    exists x', users w' !! u = Some x' /\ localId x' = localId x /\ (left_ x = true -> left_ x' = true) /\
      (ex <> Some u -> locked x' = locked x /\
         (locked x = true -> handler x' = handler x /\ pending x' = pending x /\
            accepted u (trace w') = accepted u (trace w) /\
            delivered u (trace w') = delivered u (trace w)));
  r_fresh u x' : users w !! u = None -> users w' !! u = Some x' -> ex <> Some u -> locked x' = false }.

Lemma rel_refl ex w : Rel ex w w.
Proof. split; try done; [|congruence]. intros u x Hu. exists x. by split_and!. Qed.

Lemma rel_trans ex w1 w2 w3 : Rel ex w1 w2 -> Rel ex w2 w3 -> Rel ex w1 w3.
Proof.
  intros [N1 [P1 Q1] C1 D1 U1 V1] [N2 [P2 Q2] C2 D2 U2 V2]. split.
  - lia.
  - by rewrite P2, Q2.
  - set_solver.
  - intros h Hc Hd. apply D2; [set_solver|]. by apply D1.
  - intros u x Hu. destruct (U1 u x Hu) as (x1 & Hx1 & L1 & F1 & E1).
    destruct (U2 u x1 Hx1) as (x2 & Hx2 & L2 & F2 & E2). exists x2.
    split_and!; [done|congruence|auto|]. intros Hne. destruct (E1 Hne) as [K1 G1], (E2 Hne) as [K2 G2].
    split; [congruence|]. intros Hl. destruct (G1 Hl) as (? & ? & ? & ?).
    destruct (G2 ltac:(congruence)) as (? & ? & ? & ?). split_and!; congruence.
  - intros u x3 Hn H3 Hne. destruct (users w2 !! u) as [x2|] eqn:E2; [|by apply (V2 u x3)].
    destruct (U2 u x2 E2) as (x & Hx & _ & _ & E). destruct (E Hne) as [K _].
    pose proof (V1 u x2 Hn E2 Hne). congruence.
Qed.

Lemma rel_weaken u w w' : Rel None w w' -> Rel (Some u) w w'.
Proof.
  intros [N P C D U V]. split; try done; [|intros v x' Hn Hx _; by apply (V v x')].
  intros v x Hv. destruct (U v x Hv) as (x' & ? & ? & ? & E).
  exists x'. split_and!; try done. intros _. by apply E.
Qed.

(** The user the call works on is unlocked before and after. *)
Lemma rel_close u x w w' :
  Rel (Some u) w w' -> users w !! u = Some x -> locked x = false ->
  (forall x', users w' !! u = Some x' -> locked x' = false) -> Rel None w w'.
Proof.
  intros [N P C D U V] Hu Hl Hl'. split; try done; [|intros v y Hn Hy _; apply (V v y); congruence].
  intros v y Hv.
  destruct (U v y Hv) as (y' & Hy' & ? & ? & E). exists y'. split_and!; try done. intros _.
  destruct (decide (u = v)) as [<-|Hne].
  - assert (y = x) as -> by congruence. rewrite Hl, (Hl' y' Hy'). done.
  - apply E. congruence.
Qed.

Definition sound (run : list Cmd -> Hub -> outcome Hub) : Prop :=
  forall cs w w', run cs w = Ret w' -> Inv w -> Inv w' /\ Rel None w w'.

(** *** Traces *)

Lemma accepted_app u l l' : accepted u (l ++ l') = accepted u l ++ accepted u l'.
Proof. apply omap_app. Qed.
Lemma delivered_app u l l' : delivered u (l ++ l') = delivered u l ++ delivered u l'.
Proof. apply omap_app. Qed.
Lemma lefts_app u l l' : lefts u (l ++ l') = lefts u l ++ lefts u l'.
Proof. apply omap_app. Qed.

Lemma events_of u to m h :
  accepted u [EAccepted u to m] = [m] /\ delivered u [EAccepted u to m] = [] /\
  accepted u [EMessage u h m] = [] /\ delivered u [EMessage u h m] = [m].
Proof. unfold accepted, delivered. cbn. by rewrite !decide_True. Qed.

Lemma left_events u h :
  accepted u [ELeft u h] = [] /\ delivered u [ELeft u h] = [] /\ lefts u [ELeft u h] = [h].
Proof. unfold lefts. cbn. by rewrite decide_True. Qed.

Definition about (u : nat) (l : list Event) : Prop := Forall (fun e => event_user e = u) l.

Lemma about_other u v l :
  about u l -> u <> v -> accepted v l = [] /\ delivered v l = [] /\ lefts v l = [].
Proof.
  intros Ha Hne. induction Ha as [|e l He _ IH]; [done|]. destruct IH as (I1 & I2 & I3).
  unfold accepted, delivered, lefts in *.
  destruct e; cbn in *; subst; rewrite ?decide_False by done; by rewrite ?I1, ?I2, ?I3.
Qed.

(** *** One user changes *)

(** [w'] differs from [w] in user [u], in events about [u], and in weak
    pointers that may have expired. *)
Lemma inv_user u x x' l w w' :
  Inv w -> users w !! u = Some x -> localId x' = localId x ->
  users w' = <[u := x']> (users w) -> trace w' = trace w ++ l -> about u l ->
  (forall v to m, EAccepted v to m ∈ l -> to = localId x) ->
  (forall id v, peers w' !! id = Some v -> peers w !! id = Some v) ->
  next w' = next w -> created w' = created w ->
  (forall h, handler_alive w' h -> handler_alive w h) ->
  user_ok w' u x' -> Inv w'.
Proof.
  intros HI Hu Hid Husers Htr Hab Hacc Hpeers Hnext Hcr Hal Hok. constructor.
  - intros v. rewrite Husers, Hnext. intros [<-|[_ Hv]]%lookup_insert_is_Some; apply (i_users _ HI); [by eexists|done].
  - intros id v Hv%Hpeers. destruct (i_peers _ HI id v Hv) as (y & Hy & Hl). rewrite Husers.
    destruct (decide (u = v)) as [<-|]; simplify_map_eq; [by exists x'|by exists y].
  - intros v y. rewrite Husers. intros [(<- & <-)|(Hne & Hv)]%lookup_insert_Some; [done|].
    destruct (about_other u v l Hab Hne) as (A1 & A2 & A3). destruct (i_ok _ HI v y Hv) as [O1 O2 O3 O4 O5].
    split; rewrite ?Htr, ?accepted_app, ?delivered_app, ?lefts_app, ?A1, ?A2, ?A3, ?app_nil_r, ?Hcr; try done.
    intros Hl Hp h Hh Ha. by apply (O2 Hl Hp h Hh), Hal.
  - intros e. rewrite Htr, Husers. intros [He|He]%elem_of_app.
    + apply lookup_insert_is_Some. destruct (decide (u = event_user e)); [by left|right].
      split; [done|]. by apply (i_trace _ HI).
    + unfold about in Hab. rewrite Forall_forall in Hab. rewrite (Hab e He), lookup_insert_eq. by eexists.
  - intros v to m. rewrite Htr, Husers. intros [He|He]%elem_of_app.
    + destruct (i_route _ HI v to m He) as (y & Hy & Hl).
      destruct (decide (u = v)) as [<-|]; simplify_map_eq; [by exists x'|by exists y].
    + unfold about in Hab. rewrite Forall_forall in Hab. pose proof (Hab _ He) as E. cbn in E. subst v.
      exists x'. rewrite lookup_insert_eq. split; [done|]. by rewrite (Hacc _ _ _ He).
  - intros h Hh%Hal. rewrite Hcr. by apply (i_handlers _ HI).
Qed.

Lemma rel_user u x x' l w w' :
  users w !! u = Some x -> localId x' = localId x -> (left_ x = true -> left_ x' = true) ->
  users w' = <[u := x']> (users w) -> trace w' = trace w ++ l -> about u l ->
  next w' = next w -> created w' = created w -> pins w' = pins w -> hpins w' = hpins w ->
  (forall h, handler_alive w' h -> handler_alive w h) -> Rel (Some u) w w'.
Proof.
  intros Hu Hid Hleft Husers Htr Hab Hnext Hcr Hp Hhp Hal. split.
  - lia.
  - done.
  - by rewrite Hcr.
  - intros h _ Hd Ha. by apply Hd, Hal.
  - intros v y Hv. rewrite Husers. destruct (decide (u = v)) as [<-|Hne].
    + assert (y = x) as -> by congruence. exists x'. rewrite lookup_insert_eq. by split_and!.
    + exists y. rewrite lookup_insert_ne by done. split_and!; try done. intros _. split; [done|]. intros _.
      destruct (about_other u v l Hab Hne) as (A1 & A2 & _).
      rewrite Htr, accepted_app, delivered_app, A1, A2, !app_nil_r. done.
  - intros v y Hn. rewrite Husers, lookup_insert_ne by congruence. congruence.
Qed.

(** *** Pinning *)

Lemma inv_set_pins p hp w :
  Inv w -> (forall h, handler_alive (set_pins p hp w) h -> handler_alive w h) -> Inv (set_pins p hp w).
Proof.
  intros [I1 I2 I3 I4 I5 I6] Hal. constructor; cbn in *; try done; [|by intros h Hh%Hal; apply I6].
  intros u x Hu. destruct (I3 u x Hu) as [O1 O2 O3 O4 O5]. split; try done.
  intros Hl Hp h Hh Ha. by apply (O2 Hl Hp h Hh), Hal.
Qed.

Lemma pinned_ok ex us hs k w w' :
  (forall h, h ∈ hs -> handler_alive w h) -> Inv w ->
  (forall w1, Inv (set_pins (us ++ pins w) (hs ++ hpins w) w) ->
     k (set_pins (us ++ pins w) (hs ++ hpins w) w) = Ret w1 ->
     Inv w1 /\ Rel ex (set_pins (us ++ pins w) (hs ++ hpins w) w) w1) ->
  pinned us hs k w = Ret w' -> Inv w' /\ Rel ex w w'.
Proof.
  intros Hhs HI Hk. unfold pinned. intros (w1 & Hk1 & [= <-])%obind_Ret.
  set (w0 := set_pins (us ++ pins w) (hs ++ hpins w) w) in *.
  assert (forall h, handler_alive w0 h -> handler_alive w h) as Hal0.
  { intros h [Hh|[Hh|Hh]%elem_of_app]; [by left|by apply Hhs|by right]. }
  destruct (Hk w1) as [HI1 HR]; [by apply inv_set_pins|done|].
  destruct (HR) as [N [P Q] C D U V].
  assert (forall h, handler_alive (set_pins (pins w) (hpins w) w1) h -> handler_alive w1 h) as Hal1.
  { intros h [Hh|Hh]; [by left|right]. rewrite Q. cbn. apply elem_of_app. by right. }
  split; [by apply inv_set_pins|]. split; try done.
  intros h Hc Hd Ha. apply (D h Hc); [|by apply Hal1]. intros Hw0. by apply Hd, Hal0.
Qed.

Section Sound.
Context (run : list Cmd -> Hub -> outcome Hub) (Hrun : sound run).

(** What a handler call for the locked user [u] leaves of it. *)
Definition still_locked (u : nat) (x : HubUser) (ms : list SigMessage) (w w' : Hub) : Prop :=
  exists x', users w' !! u = Some x' /\ locked x' = true /\ handler x' = handler x /\
    pending x' = pending x /\ localId x' = localId x /\
    accepted u (trace w') = accepted u (trace w) /\
    delivered u (trace w') = delivered u (trace w) ++ ms.

Lemma user_ok_locked w u x l a :
  user_ok w u x -> locked x = true -> lefts u l = [] ->
  user_ok (set_app a (mkHub (peers w) (users w) (next w) (held w) (pins w) (handlers w) (hpins w)
    (created w) (app w) (trace w ++ l))) u x.
Proof.
  intros [O1 O2 O3 O4 O5] Hl Hn.
  split; cbn; rewrite ?lefts_app, ?Hn, ?app_nil_r; [congruence|congruence|done|done|done].
Qed.

(** A handler call for a user whose lock is held: the message is recorded,
    the rest is up to application code. *)
Lemma OnMessage_body_ok u h m x w a cs w' :
  Inv w -> users w !! u = Some x -> locked x = true ->
  run cs (set_app a (emit (EMessage u h m) w)) = Ret w' ->
  Inv w' /\ Rel (Some u) w w' /\ still_locked u x [m] w w'.
Proof.
  intros HI Hu Hl Hr. set (w1 := set_app a (emit (EMessage u h m) w)) in *.
  assert (about u [EMessage u h m]) as Hab by by repeat constructor.
  assert (Inv w1) as HI1.
  { apply (inv_user u x x [EMessage u h m] w); try done.
    - by rewrite insert_id.
    - by intros v to m' ?%list_elem_of_singleton.
    - apply user_ok_locked; [by apply (i_ok _ HI)|done..]. }
  destruct (Hrun _ _ _ Hr HI1) as [HI2 HR2]. split_and!; [done| |].
  - eapply rel_trans; [|by apply rel_weaken].
    apply (rel_user u x x [EMessage u h m]); try done. by rewrite insert_id.
  - destruct (r_user _ _ _ HR2 u x Hu) as (x' & Hx' & Hid & _ & E). destruct (E ltac:(done)) as [E1 E2].
    destruct (E2 Hl) as (F1 & F2 & F3 & F4). exists x'. split_and!; try done; [congruence| |].
    + rewrite F3. cbn. destruct (events_of u EmptyString m h) as (_ & _ & E3 & _).
      by rewrite accepted_app, E3, app_nil_r.
    + rewrite F4. cbn. destruct (events_of u EmptyString m h) as (_ & _ & _ & E4).
      by rewrite delivered_app, E4.
Qed.

Lemma call_OnMessage_ok u h m x w w' :
  Inv w -> users w !! u = Some x -> locked x = true -> handler_alive w h ->
  call_OnMessage run u h m w = Ret w' ->
  Inv w' /\ Rel (Some u) w w' /\ still_locked u x [m] w w'.
Proof.
  intros HI Hu Hl Hal Hc. unfold call_OnMessage in Hc.
  assert (still_locked u x [m] w w') as Hs.
  { unfold pinned in Hc. apply obind_Ret in Hc as (w1 & Hk & [= <-]).
    destruct (on_message _ h m) as [a cs]. apply (OnMessage_body_ok u h m x) in Hk; [apply Hk| |done|done].
    apply inv_set_pins; [done|]. intros k [Hk'|[->|Hk']%elem_of_cons]; [by left|done|by right]. }
  eapply pinned_ok in Hc as [HI' HR]; [by split_and!|by intros k ->%list_elem_of_singleton|done|].
  intros w1 HI0 Hk. destruct (on_message _ h m) as [a cs].
  by apply (OnMessage_body_ok u h m x) in Hk as (? & ? & _).
Qed.

Lemma replay_ok u h l x w w' :
  Inv w -> users w !! u = Some x -> locked x = true -> h ∈ hpins w ->
  replay run u h l w = Ret w' ->
  Inv w' /\ Rel (Some u) w w' /\ still_locked u x l w w'.
Proof.
  revert x w. induction l as [|m l IH]; intros x w HI Hu Hl Hal; cbn.
  { intros [= <-]. split_and!; [done|apply rel_refl|]. exists x. by rewrite app_nil_r. }
  intros (w1 & Hc & Hr)%obind_Ret.
  destruct (call_OnMessage_ok u h m x w w1) as (HI1 & HR1 & (x1 & Hx1 & L1 & H1 & P1 & I1 & A1 & D1)); try done; [by right|].
  destruct (IH x1 w1) as (HI2 & HR2 & (x2 & Hx2 & L2 & H2 & P2 & I2 & A2 & D2)); try done.
  { by rewrite (proj2 (r_pins _ _ _ HR1)). }
  split_and!; [done|by eapply rel_trans|]. exists x2. split_and!; try congruence.
  by rewrite D2, D1, <- app_assoc.
Qed.

(** [unlock] after the work on user [u]. *)
Lemma unlock_ok u x w :
  Inv w -> users w !! u = Some x ->
  accepted u (trace w) = delivered u (trace w) ++ pending x ->
  (pending x <> [] -> forall h, handler x = Some h -> ~ handler_alive w h) ->
  Inv (unlock u w) /\ Rel (Some u) w (unlock u w) /\
  users (unlock u w) !! u = Some (with_lock false x).
Proof.
  intros HI Hu Ho Hp. unfold unlock. rewrite Hu.
  destruct (i_ok _ HI u x Hu) as [O1 O2 O3 O4 O5]. split_and!.
  - apply (inv_user u x (with_lock false x) [] w); cbn; try done; [by rewrite app_nil_r|constructor|].
    by intros ? ? ? ?%elem_of_nil.
  - apply (rel_user u x (with_lock false x) []); cbn; try done; [by rewrite app_nil_r|constructor].
  - cbn. apply lookup_insert_eq.
Qed.

(** Taking the lock of an unlocked user while [l] is recorded. *)
Lemma locked_ok u x x' l w :
  Inv w -> users w !! u = Some x -> locked x' = true -> localId x' = localId x -> left_ x' = left_ x ->
  (forall h, handler x' = Some h -> h ∈ created w) ->
  about u l -> lefts u l = [] -> (forall v to m, EAccepted v to m ∈ l -> to = localId x) ->
  let w' := mkHub (peers w) (<[u := x']> (users w)) (next w) (held w) (pins w) (handlers w) (hpins w)
              (created w) (app w) (trace w ++ l) in
  Inv w' /\ Rel (Some u) w w'.
Proof.
  intros HI Hu Hl Hid Hleft Hh Hab Hn Hacc w'. destruct (i_ok _ HI u x Hu) as [O1 O2 O3 O4 O5]. split.
  - apply (inv_user u x x' l w); try done.
    split; cbn; rewrite ?lefts_app, ?Hn, ?app_nil_r, ?Hleft; [congruence|congruence|done|done|done].
  - apply (rel_user u x x' l); try done. by rewrite Hleft.
Qed.

(** A message is buffered when there is no handler to take it. *)
Lemma buffer_ok u to m x w :
  Inv w -> users w !! u = Some x -> localId x = to -> locked x = false ->
  (forall h, handler x = Some h -> ~ handler_alive w h) ->
  let w' := mkHub (peers w) (<[u := with_lock false (with_handler (handler x) (pending x ++ [m]) x)]> (users w))
              (next w) (held w) (pins w) (handlers w) (hpins w) (created w) (app w)
              (trace w ++ [EAccepted u to m]) in
  Inv w' /\ Rel None w w'.
Proof.
  intros HI Hu Hid Hl Hd w'. destruct (i_ok _ HI u x Hu) as [O1 O2 O3 O4 O5].
  destruct (events_of u to m 0) as (E1 & E2 & _ & _).
  assert (about u [EAccepted u to m]) as Hab by by repeat constructor. split.
  - apply (inv_user u x (with_lock false (with_handler (handler x) (pending x ++ [m]) x)) [EAccepted u to m] w);
      try done.
    + by intros v to' m' [= -> -> ->]%list_elem_of_singleton.
    + split; cbn; rewrite ?accepted_app, ?delivered_app, ?lefts_app, ?E1, ?E2, ?app_nil_r; try done.
      intros _. by rewrite (O1 Hl), app_assoc.
  - eapply (rel_close u x); [|done|done|].
    + by apply (rel_user u x (with_lock false (with_handler (handler x) (pending x ++ [m]) x)) [EAccepted u to m]).
    + cbn. intros x'. rewrite lookup_insert_eq. by intros [= <-].
Qed.

Lemma Deliver_ok u to m x w w' :
  Inv w -> users w !! u = Some x -> localId x = to ->
  Deliver run u m (emit (EAccepted u to m) w) = Ret w' -> Inv w' /\ Rel None w w'.
Proof.
  intros HI Hu Hid. unfold Deliver, lock. cbn [users emit]. rewrite Hu.
  destruct (locked x) eqn:Hl; [done|]. cbn [obind]. intros (w2 & Hw2 & [= <-])%obind_Ret.
  destruct (i_ok _ HI u x Hu) as [O1 O2 O3 O4 O5].
  assert (about u [EAccepted u to m]) as Hab by by repeat constructor.
  assert (forall v to' m', EAccepted v to' m' ∈ [EAccepted u to m] -> to' = localId x) as Hto
    by by intros v to' m' [= -> -> ->]%list_elem_of_singleton.
  assert (accepted u (trace w ++ [EAccepted u to m]) = accepted u (trace w) ++ [m]) as Hacc
    by (rewrite accepted_app; f_equal; apply (events_of u to m 0)).
  assert (delivered u (trace w ++ [EAccepted u to m]) = delivered u (trace w)) as Hdel
    by (rewrite delivered_app, (proj1 (proj2 (events_of u to m 0))); apply app_nil_r).
  unfold lock_handler in Hw2.
  destruct (handler x) as [h|] eqn:Hh; cbn in Hw2; [destruct (decide _) as [Hal|Hd]|].
  - destruct (locked_ok u x (with_lock true x) [EAccepted u to m] w) as [HI1 HR1]; try done; [cbn; rewrite Hh; exact O3|].
    cbn in HI1, HR1.
    eapply (call_OnMessage_ok u h m (with_lock true x)) in Hw2 as
      (HI2 & HR2 & (x2 & Hx2 & L2 & H2 & P2 & I2 & A2 & D2)); [|done|apply lookup_insert_eq|done|done].
    assert (pending x = []) as Hpe.
    { destruct (pending x) eqn:E; [done|]. exfalso. by apply (O2 Hl ltac:(done) h eq_refl). }
    cbn in A2, D2, P2. rewrite Hacc in A2. rewrite Hdel in D2. rewrite Hpe in P2.
    destruct (unlock_ok u x2 w2) as (HI3 & HR3 & Hx3); [done|done| |by rewrite P2|].
    { rewrite A2, D2, P2, (O1 Hl), Hpe, !app_nil_r. done. }
    split; [done|]. apply (rel_close u x); [|done|done|].
    + eapply rel_trans; [exact HR1|]. by eapply rel_trans.
    + intros x3 Hx3'. rewrite Hx3 in Hx3'. by simplify_eq.
  - injection Hw2 as <-. unfold unlock. cbn. rewrite lookup_insert_eq. unfold set_user. cbn.
    rewrite !insert_insert_eq. cbn. rewrite <- Hh.
    apply (buffer_ok u to m x w); try done. rewrite Hh. by intros h' [= <-].
  - injection Hw2 as <-. unfold unlock. cbn. rewrite lookup_insert_eq. unfold set_user. cbn.
    rewrite !insert_insert_eq. cbn. pose proof (buffer_ok u to m x w HI Hu Hid Hl) as Hb.
    cbn in Hb. rewrite Hh in Hb. by apply Hb.
Qed.

Lemma SetHandler_ok u h x w w' :
  Inv w -> users w !! u = Some x -> handler_alive w h ->
  SetHandler run u h w = Ret w' -> Inv w' /\ Rel None w w'.
Proof.
  intros HI Hu Hal. unfold SetHandler, lock. rewrite Hu. destruct (locked x) eqn:Hl; [done|].
  cbn [obind]. intros (w3 & Hw3 & [= <-])%obind_Ret.
  rewrite decide_True in Hw3 by done. destruct (i_ok _ HI u x Hu) as [O1 O2 O3 O4 O5].
  set (x2 := with_lock true (with_handler (Some h) [] x)) in *.
  destruct (locked_ok u x x2 [] w) as [HI2 HR2]; try done.
  { intros h' [= <-]. by apply (i_handlers _ HI). }
  { constructor. }
  { by intros ? ? ? ?%elem_of_nil. }
  unfold set_user in Hw3. cbn in Hw3. rewrite insert_insert_eq in Hw3.
  rewrite app_nil_r in HI2, HR2.
  match type of HI2 with Inv ?y => set (w2 := y) in * end.
  assert (users w2 !! u = Some x2) as Hu2 by apply lookup_insert_eq.
  assert (still_locked u x2 (pending x) w2 w3) as (x3 & Hx3 & L3 & H3 & P3 & _ & A3 & D3).
  { unfold pinned in Hw3. apply obind_Ret in Hw3 as (w4 & Hk & [= <-]).
    apply (replay_ok u h (pending x) x2) in Hk; [apply Hk| |done|done|].
    - apply inv_set_pins; [done|]. intros k [Hk'|[->|Hk']%elem_of_cons]; [by left|done|by right].
    - cbn. apply list_elem_of_here. }
  eapply (pinned_ok (Some u)) in Hw3 as [HI3 HR3]; [|by intros k ->%list_elem_of_singleton|done|].
  - cbn in A3, D3, P3. destruct (unlock_ok u x3 w3) as (HI4 & HR4 & Hx4); [done|done| |by rewrite P3|].
    { rewrite A3, D3, P3, app_nil_r. by apply O1. }
    split; [done|]. apply (rel_close u x); [|done|done|].
    + eapply rel_trans; [exact HR2|]. by eapply rel_trans.
    + intros x4. rewrite Hx4. by intros [= <-].
  - intros w4 HI4 Hk. apply (replay_ok u h (pending x) x2) in Hk as (? & ? & _); try done.
    cbn. apply list_elem_of_here.
Qed.

(** Weakening the registry, and changes that touch no user. *)
Lemma inv_rel_other w w' :
  Inv w -> users w' = users w -> trace w' = trace w -> next w' = next w -> pins w' = pins w ->
  hpins w' = hpins w -> created w ⊆ created w' ->
  (forall id u, peers w' !! id = Some u -> peers w !! id = Some u) ->
  (forall h, handler_alive w' h -> handler_alive w h \/ ((h ∉ created w) /\ h ∈ created w')) ->
  Inv w' /\ Rel None w w'.
Proof.
  intros HI Eu Et En Ep Ehp Hcr Hpe Hal. split.
  - constructor; rewrite ?Eu, ?Et, ?En.
    + apply (i_users _ HI).
    + intros id u Hu%Hpe. by apply (i_peers _ HI).
    + intros u x Hu. destruct (i_ok _ HI u x Hu) as [O1 O2 O3 O4 O5]. split; rewrite ?Et; auto.
      intros Hl Hp h Hh Ha. apply Hal in Ha as [Ha|[Hn _]]; [by apply (O2 Hl Hp h Hh)|].
      by apply Hn, O3.
    + apply (i_trace _ HI).
    + apply (i_route _ HI).
    + intros h Ha. apply Hal in Ha as [Ha|[_ ?]]; [|done]. by apply Hcr, (i_handlers _ HI).
  - split; [lia|done|done| | |rewrite Eu; congruence].
    + intros h Hc Hd Ha. by apply Hal in Ha as [?|[? _]].
    + intros u x Hu. exists x. rewrite Eu, Et. by split_and!.
Qed.

Lemma inv_rel_peers w p :
  Inv w -> (forall id u, p !! id = Some u -> peers w !! id = Some u) ->
  Inv (set_peers p w) /\ Rel None w (set_peers p w).
Proof. intros HI Hp. apply inv_rel_other; try done. intros h Ha. by left. Qed.

Lemma delete_peers (p : gmap PeerId nat) id id' u : delete id p !! id' = Some u -> p !! id' = Some u.
Proof. by intros [_ ?]%lookup_delete_Some. Qed.

Lemma Dispatch_ok src to p w w' :
  Inv w -> Dispatch run src to p w = Ret w' -> Inv w' /\ Rel None w w'.
Proof.
  intros HI. unfold Dispatch. destruct (peers w !! to) as [u|] eqn:Ep; [|intros [= <-]; split; [done|apply rel_refl]].
  destruct (decide (user_alive w u)).
  - intros Hd. eapply (pinned_ok None) in Hd; [done|by intros h ?%elem_of_nil|done|].
    intros w1 HI1 Hk. destruct (i_peers _ HI to u Ep) as (x & Hx & Hid).
    by eapply (Deliver_ok u to _ x) in Hk.
  - intros [= <-]. apply inv_rel_peers; [done|]. intros id v. apply delete_peers.
Qed.

Lemma call_OnLeft_ok u h x w w' :
  Inv w -> users w !! u = Some x -> left_ x = true -> lefts u (trace w) = [] -> handler_alive w h ->
  locked x = false -> call_OnLeft run u h w = Ret w' -> Inv w' /\ Rel None w w'.
Proof.
  intros HI Hu Hleft Hn Hal Hl Hc. unfold call_OnLeft in Hc.
  eapply (pinned_ok None) in Hc; [done|by intros k ->%list_elem_of_singleton|done|].
  intros w1 HI0 Hk. destruct (on_left _ h) as [a cs].
  match type of Hk with run cs ?y = _ => set (w2 := y) in * end.
  assert (about u [ELeft u h]) as Hab by by repeat constructor.
  destruct (i_ok _ HI0 u x Hu) as [O1 O2 O3 O4 O5].
  assert (Inv w2) as HI2.
  { apply (inv_user u x x [ELeft u h] (set_pins ([] ++ pins w) ([h] ++ hpins w) w)); try done.
    - by rewrite insert_id.
    - by intros v to m ?%list_elem_of_singleton.
    - destruct (left_events u h) as (E1 & E2 & E3).
      split; cbn in *; rewrite ?accepted_app, ?delivered_app, ?lefts_app, ?Hn, ?E1, ?E2, ?E3, ?app_nil_r; try done.
      congruence. }
  destruct (Hrun _ _ _ Hk HI2) as [HI3 HR3]. split; [done|]. eapply rel_trans; [|done].
  eapply (rel_close u x); [|done|done|].
  - apply (rel_user u x x [ELeft u h]); try done. by rewrite insert_id.
  - intros x'. change (users w2 !! u) with (users w !! u). congruence.
Qed.

Lemma Leave_ok u w w' : Inv w -> Leave run u w = Ret w' -> Inv w' /\ Rel None w w'.
Proof.
  intros HI. unfold Leave. destruct (users w !! u) as [x|] eqn:Hu; [|done].
  destruct (decide (user_alive w u)); [|done].
  destruct (left_ x) eqn:Hleft; [intros [= <-]; split; [done|apply rel_refl]|].
  unfold lock. cbn [users set_user Unregister set_peers]. rewrite lookup_insert_eq. cbn [locked with_left].
  destruct (locked x) eqn:Hl; [done|]. cbn [obind]. unfold unlock. cbn [users set_user Unregister set_peers].
  rewrite lookup_insert_eq. unfold set_user. cbn. rewrite !insert_insert_eq.
  destruct (i_ok _ HI u x Hu) as [O1 O2 O3 O4 O5].
  match goal with |- context [lock_handler _ ?y] => set (w3 := y) end.
  assert (Inv w3 /\ Rel None w w3) as [HI3 HR3].
  { split.
    - apply (inv_user u x (with_lock false (with_lock true (with_left x))) [] w); cbn; try done.
      + by rewrite app_nil_r.
      + constructor.
      + by intros ? ? ? ?%elem_of_nil.
      + intros id v. apply delete_peers.
      + split; cbn; [intros _; by apply O1|intros _; by apply O2|done|done|done].
    - apply (rel_close u x); [|done|done|].
      + apply (rel_user u x (with_lock false (with_lock true (with_left x))) []); cbn; try done;
          [by rewrite app_nil_r|constructor].
      + cbn. intros x'. rewrite lookup_insert_eq. by intros [= <-]. }
  destruct (lock_handler (with_left x) w3) as [h|] eqn:Eh; [|intros [= <-]; by split].
  intros Hc. eapply (call_OnLeft_ok u h _ w3) in Hc as [HI4 HR4].
  - split; [done|by eapply rel_trans].
  - done.
  - apply lookup_insert_eq.
  - done.
  - by apply O5.
  - unfold lock_handler in Eh. apply bind_Some in Eh as (h' & _ & Eh).
    destruct (decide (handler_alive w3 h')); [by simplify_eq|done].
  - done.
Qed.

(** A new user: nothing was ever sent to it. *)
Lemma new_user_ok id w :
  Inv w ->
  let w1 := mkHub (<[id := next w]> (peers w)) (<[next w := mkUser id None [] false false]> (users w))
              (S (next w)) (held w) (pins w) (handlers w) (hpins w) (created w) (app w) (trace w) in
  Inv w1 /\ Rel None w w1.
Proof.
  intros HI w1. assert (users w !! next w = None) as Hn.
  { destruct (users w !! next w) eqn:E; [|done].
    assert (next w < next w)%nat; [apply (i_users _ HI); by eexists|lia]. }
  assert (accepted (next w) (trace w) = [] /\ delivered (next w) (trace w) = [] /\ lefts (next w) (trace w) = [])
    as (A1 & A2 & A3).
  { assert (Forall (fun e => event_user e <> next w) (trace w)) as Hf.
    { apply Forall_forall. intros e He E. destruct (i_trace _ HI e He) as [x Hx]. congruence. }
    induction Hf as [|e l He _ IH]; [done|]. destruct IH as (I1 & I2 & I3).
    unfold accepted, delivered, lefts in *. destruct e; cbn in *; rewrite ?decide_False by done; done. }
  split.
  - constructor; cbn.
    + intros u [<-|[_ Hu]]%lookup_insert_is_Some; [lia|]. apply (i_users _ HI) in Hu. lia.
    + intros id' u [(<- & <-)|(Hne & Hp)]%lookup_insert_Some; [eexists; by rewrite lookup_insert_eq|].
      destruct (i_peers _ HI id' u Hp) as (x & Hx & ?). exists x. split; [|done].
      rewrite lookup_insert_ne; congruence.
    + intros u x [(<- & <-)|(Hne & Hx)]%lookup_insert_Some; [|by destruct (i_ok _ HI u x Hx)].
      split; cbn; rewrite ?A1, ?A2, ?A3; [done|done|done|simpl; lia|done].
    + intros e He. destruct (i_trace _ HI e He) as [x Hx]. apply lookup_insert_is_Some.
      destruct (decide (next w = event_user e)); [by left|right]. by split; [|eexists].
    + intros u to m He. destruct (i_route _ HI u to m He) as (x & Hx & ?). exists x. split; [|done].
      rewrite lookup_insert_ne; congruence.
    + apply (i_handlers _ HI).
  - split; cbn; [lia|done|done|done| |].
    + intros u x Hu. exists x. rewrite lookup_insert_ne by congruence. by split_and!.
    + intros u x' Hu [(<- & <-)|(Hne & Hx)]%lookup_insert_Some _; [done|congruence].
Qed.

Lemma Register_ok id tag w w' : Inv w -> Register run id tag w = Ret w' -> Inv w' /\ Rel None w w'.
Proof.
  intros HI. unfold Register. intros Hp. destruct (new_user_ok id w HI) as [HI1 HR1].
  match type of Hp with pinned _ _ _ ?y = _ => set (w1 := y) in * end.
  eapply (pinned_ok None) in Hp as [HI2 HR2];
    [split; [done|by eapply rel_trans]|by intros h ?%elem_of_nil|done|].
  clear Hp. intros w2 HI0 Hk. destruct (on_joined _ tag _) as [[a cs] wh].
  apply obind_Ret in Hk as (w3 & Hr & Hk).
  match type of Hr with run cs (set_app a ?y) = _ => set (w0 := y) in * end.
  assert (Inv (set_app a w0) /\ Rel None w0 (set_app a w0)) as [HIa HRa].
  { apply inv_rel_other; try done. intros h ?. by left. }
  destruct (Hrun _ _ _ Hr HIa) as [HI3 HR3].
  assert (Inv (set_peers (delete id (peers w3)) w3) /\ Rel None w3 (set_peers (delete id (peers w3)) w3)) as [HId HRd].
  { apply inv_rel_peers; [done|]. intros id' u. apply delete_peers. }
  destruct wh as [h|]; [destruct (decide (handler_alive w3 h)) as [Hal|]|].
  - destruct (r_user _ _ _ HR3 (next w) (mkUser id None [] false false)) as (x & Hx & _);
      [apply lookup_insert_eq|].
    destruct (SetHandler_ok (next w) h x w3 w2 HI3 Hx Hal Hk) as [HI4 HR4].
    split; [done|]. eapply rel_trans; [exact HRa|]. by eapply rel_trans.
  - injection Hk as <-. split; [done|]. eapply rel_trans; [exact HRa|]. by eapply rel_trans.
  - injection Hk as <-. split; [done|]. eapply rel_trans; [exact HRa|]. by eapply rel_trans.
Qed.

Lemma call_ok c w w' : Inv w -> call run c w = Ret w' -> Inv w' /\ Rel None w w'.
Proof.
  intros HI. destruct c; cbn [call].
  - by apply Register_ok.
  - unfold Send. destruct (users w !! u) as [x|]; [|done]. destruct (decide _); [|done].
    by apply Dispatch_ok.
  - by apply Leave_ok.
  - destruct (decide _); [|done]. intros [= <-]. apply inv_rel_other; try done. intros h ?. by left.
  - intros [= <-]. apply inv_rel_other; try done. intros h ?. by left.
  - destruct (decide _) as [|Hn]; [done|]. intros [= <-]. apply inv_rel_other; try done; cbn; [set_solver|].
    intros k. unfold handler_alive. cbn. destruct (decide (k = h)) as [->|]; [right; set_solver|].
    intros [?|?]; left; [left; set_solver|by right].
  - intros [= <-]. apply inv_rel_other; try done. intros k. unfold handler_alive. cbn.
    intros [?|?]; left; [left; set_solver|by right].
Qed.

End Sound.

Lemma exec_sound fuel : sound (exec fuel).
Proof.
  induction fuel as [|fuel IH]; intros cs; [destruct cs; intros w w'; cbn; [|done]; intros [= <-] HI;
    split; [done|apply rel_refl]|].
  induction cs as [|c cs _] using list_ind; intros w w'; cbn [exec].
  { intros [= <-] HI. split; [done|apply rel_refl]. }
  intros (w1 & Hc & Hr)%obind_Ret HI. destruct (call_ok _ IH c w w1 HI Hc) as [HI1 HR1].
  destruct (IH cs w1 w' Hr HI1) as [HI2 HR2]. split; [done|by eapply rel_trans].
Qed.

Lemma init_inv a : Inv (init a).
Proof.
  constructor; cbn; try done.
  - by intros u [? ?].
  - by intros e ?%elem_of_nil.
  - by intros ? ? ? ?%elem_of_nil.
  - intros h [?|?]; set_solver.
Qed.

(** ** Theorems *)

(** C8: whatever the handlers do, when the outermost call has returned every
    message the hub accepted for a peer has been handed to its handler in the
    order of acceptance, or is still in that peer's buffer behind those, once
    each; a message goes only to a user registered under the identifier it was
    sent to; and the handler of a user is told at most once that it left. *)
Theorem messages_delivered_in_order (fuel : nat) (cs : list Cmd) (a : A) (w : Hub) (u : nat) (x : HubUser) :
  exec fuel cs (init a) = Ret w -> users w !! u = Some x ->
  accepted u (trace w) = delivered u (trace w) ++ pending x /\
  (forall to m, EAccepted u to m ∈ trace w -> to = localId x) /\
  (length (lefts u (trace w)) <= 1)%nat.
Proof.
  intros Hr Hu. destruct (exec_sound fuel cs (init a) w Hr (init_inv a)) as [HI HR].
  assert (locked x = false) as Hl by (by apply (r_fresh _ _ _ HR u x)).
  destruct (i_ok _ HI u x Hu) as [O1 O2 O3 O4 O5]. split_and!; [by apply O1| |done].
  intros to m He. destruct (i_route _ HI u to m He) as (y & Hy & <-). congruence.
Qed.

(** A user whose handler can be called now. *)
Definition reachable (w : Hub) (id : PeerId) (u h : nat) : Prop :=
  peers w !! id = Some u /\ user_alive w u /\ handler_alive w h /\
  users w !! u = Some (mkUser id (Some h) [] false false).

Lemma exec_cons fuel c cs w :
  exec (S fuel) (c :: cs) w = let! w1 := call (exec fuel) c w in exec fuel cs w1.
Proof. done. Qed.

(** A message for a reachable user runs its handler with the lock held, so a
    crash of that handler is a crash of the call. *)
Lemma Dispatch_reachable run src to p w u h a cs :
  reachable w to u h -> on_message (app w) h (mkMsg src p) = (a, cs) ->
  exists w1,
    users w1 = <[u := mkUser to (Some h) [] false true]> (users w) /\ peers w1 = peers w /\
    held w1 = held w /\ pins w1 = u :: pins w /\ handlers w1 = handlers w /\
    hpins w1 = h :: hpins w /\ app w1 = a /\
    (run cs w1 = Crash -> Dispatch run src to p w = Crash).
Proof.
  intros (Hp & Hu & Hh & Hx) Ha. unfold Dispatch. rewrite Hp, decide_True by done. unfold pinned, Deliver, lock.
  cbn [users emit set_pins]. rewrite Hx. cbn [locked obind]. unfold lock_handler. cbn [handler].
  cbn [mbind option_bind]. rewrite decide_True by (destruct Hh; [by left|by right]).
  unfold call_OnMessage, pinned. cbn [app emit set_user set_pins pins hpins]. rewrite Ha.
  eexists. split_and!; cycle -1; [intros Hr; rewrite Hr; reflexivity|..]; done.
Qed.

(** [Leave()] cannot be called from a message handler: when the handler of a
    user reacts to a message by leaving, the call that delivers the message
    never returns ([Leave] locks [_handlerMutex], which [Deliver] holds). *)
Theorem leave_in_handler_deadlocks (fuel v u h : nat) (to : PeerId) (p : string) (xv : HubUser)
    (a : A) (cs : list Cmd) (w : Hub) :
  users w !! v = Some xv -> user_alive w v -> reachable w to u h ->
  on_message (app w) h (mkMsg (localId xv) p) = (a, CLeave u :: cs) ->
  exec (S (S fuel)) [CSend v to p] w = Crash.
Proof.
  intros Hv Hav Hr Ha. rewrite exec_cons. cbn [call]. unfold Send. rewrite Hv, decide_True by done.
  destruct (Dispatch_reachable (exec (S fuel)) (localId xv) to p w u h _ _ Hr Ha)
    as (w1 & Eu & Ep & Eh & Epi & Ehs & Ehp & Ea & Hcrash).
  rewrite Hcrash; [done|]. rewrite exec_cons. cbn [call]. unfold Leave.
  rewrite Eu, lookup_insert_eq, decide_True by (right; rewrite Epi; apply list_elem_of_here).
  cbn [left_]. unfold lock. cbn [users Unregister set_peers set_user]. rewrite lookup_insert_eq. done.
Qed.

(** Handlers cannot answer each other: when the handler of [u] answers the
    sender and the handler of the sender answers back, the first message
    deadlocks on the lock of [u] (one thread, no other peer involved). *)
Theorem mutual_replies_deadlock (fuel u hu v hv : nat) (idu idv : PeerId) (p ru rv : string)
    (w : Hub) (au av : A) (cu cv : list Cmd) :
  u <> v -> reachable w idu u hu -> reachable w idv v hv ->
  on_message (app w) hu (mkMsg idv p) = (au, CSend u idv ru :: cu) ->
  on_message au hv (mkMsg idu ru) = (av, CSend v idu rv :: cv) ->
  exec (3 + fuel) [CSend v idu p] w = Crash.
Proof.
  intros Huv Hu Hv Ha1 Ha2. pose proof Hv as (Hp2 & Hal2 & Hhal2 & Hx2). pose proof Hu as (Hp1 & Hal1 & Hhal1 & Hx1).
  change (3 + fuel)%nat with (S (S (S fuel))). rewrite exec_cons. cbn [call]. unfold Send at 1. rewrite Hx2, decide_True by done.
  destruct (Dispatch_reachable (exec (S (S fuel))) idv idu p w u hu _ _ Hu Ha1)
    as (w1 & Eu & Ep & Eh & Epi & Ehs & Ehp & Ea & Hcrash).
  cbn [localId]. rewrite Hcrash; [done|]. rewrite exec_cons. cbn [call]. unfold Send at 1.
  rewrite Eu, lookup_insert_eq, decide_True by (right; rewrite Epi; apply list_elem_of_here).
  assert (reachable w1 idv v hv) as Hv1.
  { unfold reachable, user_alive, handler_alive in *. rewrite Ep, Eu, Eh, Epi, Ehs, Ehp.
    rewrite lookup_insert_ne by done. set_solver. }
  rewrite <- Ea in Ha2.
  destruct (Dispatch_reachable (exec (S fuel)) idu idv ru w1 v hv _ _ Hv1 Ha2)
    as (w2 & Eu2 & Ep2 & Eh2 & Epi2 & Ehs2 & Ehp2 & Ea2 & Hcrash2).
  cbn [localId]. rewrite Hcrash2; [done|]. rewrite exec_cons. cbn [call]. unfold Send at 1.
  rewrite Eu2, lookup_insert_eq, decide_True by (right; rewrite Epi2; apply list_elem_of_here).
  unfold Dispatch. rewrite Ep2, Ep. cbn [localId]. rewrite Hp1.
  rewrite decide_True by (right; rewrite Epi2, Epi; set_solver). unfold pinned, Deliver, lock.
  cbn [users emit set_pins]. rewrite Eu2, lookup_insert_ne by done. rewrite Eu, lookup_insert_eq. done.
Qed.

(** An old registration can evict its replacement: when the identifier of
    [u] has been registered again by [v], [Leave()] of the old user removes the
    new registration, and messages for that identifier are dropped from then
    on although [v] is alive and has not left. *)
Theorem leave_evicts_replacement (fuel u v : nat) (x : HubUser) (src : PeerId) (p : string) (w : Hub) :
  (forall a h, (on_left a h).2 = []) ->
  users w !! u = Some x -> user_alive w u -> left_ x = false -> locked x = false ->
  peers w !! localId x = Some v -> v <> u ->
  exists w', exec (S fuel) [CLeave u] w = Ret w' /\ users w' !! v = users w !! v /\
    Dispatch (exec fuel) src (localId x) p w' = Ret w'.
Proof.
  intros Hol Hu Hal Hleft Hl Hp Hne. rewrite exec_cons. cbn [call]. unfold Leave.
  rewrite Hu, decide_True, Hleft by done. unfold lock. cbn [users set_user Unregister set_peers].
  rewrite lookup_insert_eq. cbn [locked with_left]. rewrite Hl. cbn [obind].
  unfold unlock. cbn [users set_user Unregister set_peers]. rewrite lookup_insert_eq.
  match goal with |- context [lock_handler _ ?y] => set (w3 := y) end.
  assert (users w3 !! v = users w !! v /\ peers w3 !! localId x = None) as [Hv3 Hp3].
  { cbn. rewrite !lookup_insert_ne, lookup_delete_eq by done. done. }
  destruct (lock_handler (with_left x) w3) as [h|].
  - unfold call_OnLeft, pinned. pose proof (Hol (app w3) h) as Hn. cbn [app set_pins].
    destruct (on_left (app w3) h) as [a' cs]. cbn in Hn. subst cs.
    destruct fuel; (eexists; split; [reflexivity|]); (split; [done|]); unfold Dispatch;
      cbn [peers set_pins set_app emit]; by rewrite Hp3.
  - destruct fuel; (eexists; split; [reflexivity|]); (split; [done|]); unfold Dispatch; by rewrite Hp3.
Qed.

End Hub.

(** ** Evaluation: peers "a" and "b" *)

Module Demo.

(** Handler 1 and handler 2 answer, handler 3 leaves, the others count. *)
Definition on_message (a h : nat) (m : SigMessage) : nat * list Cmd :=
  match h with
  | 1 => (a, [CSend 0 (from m) "pong"])
  | 2 => (a, [CSend 1 (from m) "ping"])
  | 3 => (a, [CLeave 0])
  | _ => (S a, [])
  end.
Definition on_left (a h : nat) : nat * list Cmd := (a, []).
(** The application keeps the user; the join of tag [h] creates handler [h],
    after sending itself a message when the tag is 4. *)
Definition on_joined (a h u : nat) : nat * list Cmd * option nat :=
  (a, [CHold u; CCreate h] ++ (if decide (h = 4) then [CSend u "a" "early"; CSend u "a" "too"] else []),
   Some h).

Definition run (cs : list Cmd) : outcome (Hub (A := nat)) :=
  exec on_message on_left on_joined 20 cs (init 0).
Definition result (cs : list Cmd) : Hub (A := nat) :=
  match run cs with Ret w => w | _ => init 0 end.

(** Two messages arrive while "a" is joining, one after. *)
Definition early : list Cmd := [CJoin "a" 4; CJoin "b" 5; CSend 1 "a" "late"].

Lemma messages_delivered_in_order_witness :
  delivered 0 (trace (result early)) = [mkMsg "a" "early"; mkMsg "a" "too"; mkMsg "b" "late"] /\
  (length (lefts 0 (trace (result early))) <= 1)%nat.
Proof.
  split; [vm_compute; reflexivity|].
  apply (messages_delivered_in_order on_message on_left on_joined 20 early 0 (result early) 0
           (mkUser "a" (Some 4) [] false false)); vm_compute; reflexivity.
Defined.

Definition pair : Hub (A := nat) := result [CJoin "a" 1; CJoin "b" 2].

Lemma mutual_replies_deadlock_witness :
  exec on_message on_left on_joined 3 [CSend 1 "a" "hello"] pair = Crash.
Proof.
  apply (mutual_replies_deadlock on_message on_left on_joined 0 0 1 1 2 "a" "b" "hello" "pong" "ping" pair
           0 0 [] []); try reflexivity; [lia|..].
  - split_and!; [reflexivity|left|left|vm_compute; reflexivity]; vm_compute; reflexivity.
  - split_and!; [reflexivity|left|left|vm_compute; reflexivity]; vm_compute; reflexivity.
Defined.

Definition leaver : Hub (A := nat) := result [CJoin "a" 3; CJoin "b" 5].

Lemma leave_in_handler_deadlocks_witness :
  exec on_message on_left on_joined 2 [CSend 1 "a" "bye"] leaver = Crash.
Proof.
  apply (leave_in_handler_deadlocks on_message on_left on_joined 0 1 0 3 "a" "bye"
           (mkUser "b" (Some 5) [] false false) 0 [] leaver); try (vm_compute; reflexivity).
  - left. vm_compute. reflexivity.
  - split_and!; [reflexivity|left|left|vm_compute; reflexivity]; vm_compute; reflexivity.
Defined.

Definition replaced : Hub (A := nat) := result [CJoin "a" 5; CJoin "a" 6].

Lemma leave_evicts_replacement_witness :
  exists w', exec on_message on_left on_joined 2 [CLeave 0] replaced = Ret w' /\
    users w' !! 1%nat = Some (mkUser "a" (Some 6) [] false false) /\
    Dispatch on_message (exec on_message on_left on_joined 1) "b" "a" "hello" w' = Ret w'.
Proof.
  destruct (leave_evicts_replacement on_message on_left on_joined 1 0 1
    (mkUser "a" (Some 5) [] false false) "b" "hello" replaced) as (w' & H1 & H2 & H3);
    try (vm_compute; reflexivity); [left; vm_compute; reflexivity|done|].
  exists w'. split; [exact H1|]. split; [rewrite H2; vm_compute; reflexivity|exact H3].
Defined.

End Demo.
