(* ===== verification/Rtt.v ===== *)
(** * Real-time transport: what the transports share

    [src/pkg/rtt/Rtt/Error.h] and [Handler.h]: the error codes delivered to a
    link acceptor and the callbacks it returns for a link. *)

From S2P Require Import Prelude.

(** [Rtt::Error]. *)
Inductive Error := ConnectionRefused | Timeout | AddressInvalid | TransportClosed | Unknown.

Definition ErrorToString (e : Error) : string :=
  match e with
  | ConnectionRefused => "ConnectionRefused" | Timeout => "Timeout"
  | AddressInvalid => "AddressInvalid" | TransportClosed => "TransportClosed" | Unknown => "Unknown"
  end.

(** [LinkHandler]: which callbacks are set. *)
Record LinkHandler := mkHandler { onReceived : bool; onDisconnected : bool }.

Definition no_handler : LinkHandler := mkHandler false false.

(** Events of a kind, in a trace: those [f] selects. *)
Section Traces.
Context {E X : Type} (f : E -> option X).

(** Nothing that [g] forbids comes after an event that [f] selects. *)
Definition quiet_after (g : E -> Prop) (t : list E) : Prop :=
  forall t1 e t2, t = t1 ++ e :: t2 -> is_Some (f e) -> Forall (fun e' => ~ g e') t2.

(** Every event that [g] selects comes after one that [f] selects. *)
Definition preceded (g : E -> Prop) (t : list E) : Prop :=
  forall t1 e t2, t = t1 ++ e :: t2 -> g e -> omap f t1 <> [].

Lemma snoc_cases (t t1 t2 : list E) (e x : E) :
  t ++ [x] = t1 ++ e :: t2 ->
  (t2 = [] /\ t = t1 /\ e = x) \/ (exists t3, t2 = t3 ++ [x] /\ t = t1 ++ e :: t3).
Proof.
  destruct t2 as [|y t3 _] using rev_ind.
  - intros [-> [= ->]]%app_inj_2; [by left|done].
  - rewrite app_comm_cons, app_assoc. intros [-> [= ->]]%app_inj_2; [|done]. right. by exists t3.
Qed.

Lemma quiet_after_snoc g t x :
  quiet_after g t -> (g x -> omap f t = []) -> quiet_after g (t ++ [x]).
Proof.
  intros Hq Hx t1 e t2 [(-> & _ & _)|(t3 & -> & ->)]%snoc_cases [v Hf]; [done|].
  apply Forall_app. split; [by apply (Hq t1 e t3)|]. apply Forall_singleton. intros Hg.
  specialize (Hx Hg). rewrite omap_app in Hx. apply app_nil in Hx as [_ Hx].
  cbn in Hx. by rewrite Hf in Hx.
Qed.

Lemma preceded_snoc g t x : preceded g t -> (g x -> omap f t <> []) -> preceded g (t ++ [x]).
Proof.
  intros Hp Hx t1 e t2 [(-> & -> & ->)|(t3 & -> & ->)]%snoc_cases Hg; [auto|].
  by apply (Hp t1 e t3).
Qed.

End Traces.
