(* ===== verification/Udp.v ===== *)
(** * UDP transport: links, the server's demultiplexer, the client

    [src/pkg/rtt/udp/Udp/UdpLink.cpp], [UdpServer.cpp], [UdpClient.cpp] and
    [UdpCommon.h]. One world holds the links, the server's [ListenState] and the
    trace of what crosses the boundary. The application (the acceptor and the
    link handlers) is a parameter whose callbacks make calls in turn; the network
    is the input: completions of the asynchronous operations, in any order. *)

From Stdlib Require Import Strings.Ascii Strings.Byte.
From S2P Require Import Prelude Rtt.
From stdpp Require Import pretty.

Open Scope outcome_scope.

(** ** Errors and identifiers ([UdpCommon.h]) *)

(** The error codes of Boost.Asio that the transport tells apart. *)
Inductive ec :=
| connection_refused | timed_out | host_not_found | host_not_found_try_again | other (n : nat).

#[global] Instance ec_eq_dec : EqDecision ec.
Proof. solve_decision. Defined.

Definition MapAsioError (e : ec) : Error :=
  if decide (e = connection_refused) then ConnectionRefused
  else if decide (e = timed_out) then Timeout
  else if decide (e = host_not_found \/ e = host_not_found_try_again) then AddressInvalid
  else Unknown.

(** [udp::endpoint]: the address as text, and the port. *)
Record endpoint := mkEp { address : string; port : N }.

#[global] Instance endpoint_eq_dec : EqDecision endpoint.
Proof. solve_decision. Defined.
#[global] Instance endpoint_countable : Countable endpoint.
Proof.
  apply (inj_countable' (fun e => (address e, port e)) (fun p => mkEp p.1 p.2)). by intros [].
Defined.

(** [EndpointToPeerId]: ["ip:port"]. *)
Definition EndpointToPeerId (ep : endpoint) : string :=
  address ep +:+ ":" +:+ pretty (port ep).

(** ** Links *)

(** Connected mode owns a socket; shared mode knows the remote endpoint. *)
Inductive Mode := Connected | Shared (ep : endpoint).

(** [UdpLink]; [receiving] says that an [async_receive] is outstanding. *)
Record Link := mkLink {
  mode : Mode; localId : string; remoteId : string; closed : bool; socket_open : bool;
  receiving : bool; handler : LinkHandler }.

(** Calls of the application. [CSend l cs data n]: the writer makes the calls
    [cs], puts [data] into the buffer and returns [n]. *)
Inductive Cmd :=
| CSend (l : nat) (cs : list Cmd) (data : list byte) (n : nat)
| CDisconnect (l : nat)
| CDestroyServer.

Inductive Event :=
| ELink (l : nat)
| EFailed (e : Error)
| EWriter (l : nat)                        (* [Send] calls the writer *)
| ESend (l : nat) (d : list byte)          (* it has returned, the datagram is handed to the socket *)
| ESkip (l : nat)                          (* it has returned 0 *)
| ERecv (l : nat) (src : option endpoint) (d : list byte)
| EDisc (l : nat).

Section Udp.
Context {A : Type} (maxDatagramSize : nat).
Context (on_received : A -> nat -> list byte -> A * list Cmd).
Context (on_disconnected : A -> nat -> A * list Cmd).
Context (on_link : A -> nat -> A * list Cmd * LinkHandler).
(** [OnLink] with an error; the returned handler is ignored. *)
Context (on_failed : A -> Error -> A * list Cmd).

(** [server] is the [ListenState] ([None] once the server is destroyed): the
    dispatch map. *)
Record World := mkWorld {
  links : gmap nat Link; next : nat; server : option (gmap endpoint nat);
  server_id : string; app : A; trace : list Event }.

Definition set_link (l : nat) (x : Link) (w : World) : World :=
  mkWorld (<[l := x]> (links w)) (next w) (server w) (server_id w) (app w) (trace w).
Definition set_server (s : option (gmap endpoint nat)) (w : World) : World :=
  mkWorld (links w) (next w) s (server_id w) (app w) (trace w).
Definition record (a : A) (e : Event) (w : World) : World :=
  mkWorld (links w) (next w) (server w) (server_id w) a (trace w ++ [e]).

Section Calls.
Context (run : list Cmd -> World -> outcome World).

(** [UdpLink::Send]: [_closed] is tested before the writer is called; a zeroed
    buffer of the maximal size is written, then resized to what the writer
    returned. *)
Definition datagram (data : list byte) (n : nat) : list byte :=
  resize n x00 (resize maxDatagramSize x00 data).

Definition Send (l : nat) (cs : list Cmd) (data : list byte) (n : nat) (w : World) : outcome World :=
  match links w !! l with
  | None => Crash
  | Some x =>
    if closed x then Ret w else
    let! w1 := run cs (record (app w) (EWriter l) w) in
    if bool_decide (n = 0) then Ret (record (app w1) (ESkip l) w1)
    else Ret (record (app w1) (ESend l (datagram data n)) w1)
  end.

(** [_removeFromDispatch()]: [links.erase(remoteEp)] on the [ListenState]. *)
Definition removeFromDispatch (m : Mode) (w : World) : outcome World :=
  match m with
  | Connected => Ret w
  | Shared ep =>
    match server w with
    | None => Crash
    | Some s => Ret (set_server (Some (delete ep s)) w)
    end
  end.

(** [UdpLink::Disconnect]. *)
Definition Disconnect (l : nat) (w : World) : outcome World :=
  match links w !! l with
  | None => Crash
  | Some x =>
    if closed x then Ret w else
    let w1 := set_link l (mkLink (mode x) (localId x) (remoteId x) true false (receiving x) (handler x)) w in
    let! w2 := removeFromDispatch (mode x) w1 in
    if onDisconnected (handler x) then
      let '(a, cs) := on_disconnected (app w2) l in run cs (record a (EDisc l) w2)
    else Ret w2
  end.

(** [onReceived(data)] of link [l], if set. *)
Definition call_onReceived (l : nat) (x : Link) (src : option endpoint) (d : list byte) (w : World)
  : outcome World :=
  if onReceived (handler x) then
    let '(a, cs) := on_received (app w) l d in run cs (record a (ERecv l src d) w)
  else Ret w.

(** [UdpLink::DeliverReceived]. *)
Definition DeliverReceived (l : nat) (src : endpoint) (d : list byte) (w : World) : outcome World :=
  match links w !! l with
  | None => Crash
  | Some x => if closed x then Ret w else call_onReceived l x (Some src) d w
  end.

(** [UdpLink::DoReceive]: one more [async_receive]. *)
Definition DoReceive (l : nat) (w : World) : outcome World :=
  match links w !! l with
  | None => Crash
  | Some x =>
    match closed x, mode x with
    | false, Connected =>
      Ret (set_link l (mkLink (mode x) (localId x) (remoteId x) (closed x) (socket_open x) true (handler x)) w)
    | _, _ => Ret w
    end
  end.

Definition SetHandler (l : nat) (h : LinkHandler) (w : World) : outcome World :=
  match links w !! l with
  | None => Crash
  | Some x => Ret (set_link l (mkLink (mode x) (localId x) (remoteId x) (closed x) (socket_open x)
                                 (receiving x) h) w)
  end.

(** [UdpLink::StartReceive]. *)
Definition StartReceive (l : nat) (h : LinkHandler) (w : World) : outcome World :=
  let! w1 := SetHandler l h w in
  match links w1 !! l with
  | Some x => match mode x with Connected => DoReceive l w1 | Shared _ => Ret w1 end
  | None => Crash
  end.

Definition call (c : Cmd) (w : World) : outcome World :=
  match c with
  | CSend l cs data n => Send l cs data n w
  | CDisconnect l => Disconnect l w
  | CDestroyServer => Ret (set_server None w)
  end.

(** A link is created and shown to the acceptor. *)
Definition new_link (x : Link) (w : World) : nat * World :=
  (next w, mkWorld (<[next w := x]> (links w)) (S (next w)) (server w) (server_id w) (app w) (trace w)).

Definition OnLink (l : nat) (w : World) : outcome (LinkHandler * World) :=
  let '(a, cs, h) := on_link (app w) l in
  let! w1 := run cs (record a (ELink l) w) in Ret (h, w1).

(** [ListenState::OnReceived]. *)
Definition OnReceived (src : endpoint) (d : list byte) (w : World) : outcome World :=
  match server w with
  | None => Crash
  | Some s =>
    match s !! src with
    | Some l => DeliverReceived l src d w
    | None =>
      let '(l, w1) := new_link (mkLink (Shared src) (server_id w) (EndpointToPeerId src) false true false
                                  no_handler) w in
      let w2 := set_server (Some (<[src := l]> s)) w1 in
      let! (h, w3) := OnLink l w2 in
      let! w4 := SetHandler l h w3 in
      DeliverReceived l src d w4
    end
  end.

(** ** The network *)

Inductive Input :=
| ICmd (c : Cmd)                                  (* the application, on its own *)
| IOpen (results : expected (endpoint * list endpoint) ec) (connect : endpoint -> expected endpoint ec)
                                                  (* [UdpClient::Open]: resolved, connected *)
| IReceived (l : nat) (r : expected (list byte) ec)  (* completion of [async_receive] *)
| IDatagram (src : endpoint) (d : list byte).     (* completion of [async_receive_from] *)

(** The completion of [UdpLink::DoReceive]. *)
Definition receive_completion (l : nat) (r : expected (list byte) ec) (w : World) : outcome World :=
  match links w !! l with
  | None => Crash
  | Some x =>
    let w0 := set_link l (mkLink (mode x) (localId x) (remoteId x) (closed x) (socket_open x) false (handler x)) w in
    match r with
    | Unexpected _ => if closed x then Ret w0 else Disconnect l w0
    | Value d => let! w1 := call_onReceived l x None d w0 in DoReceive l w1
    end
  end.

(** The connected branch of [UdpClient::Open]. *)
Definition client_connected (local remote : endpoint) (w : World) : outcome World :=
  let '(l, w1) := new_link (mkLink Connected (EndpointToPeerId local) (EndpointToPeerId remote) false true
                              false no_handler) w in
  let! (h, w2) := OnLink l w1 in StartReceive l h w2.

(** [acceptor->OnLink(std::unexpected(...))]. *)
Definition OnLinkFailed (e : Error) (w : World) : outcome World :=
  let '(a, cs) := on_failed (app w) e in run cs (record a (EFailed e) w).

(** [UdpClient::Open] when the resolver answers: the first endpoint is
    connected; [connect] gives the local endpoint. *)
Definition client_Open (results : expected (endpoint * list endpoint) ec)
    (connect : endpoint -> expected endpoint ec) (w : World) : outcome World :=
  match results with
  | Unexpected e => OnLinkFailed (MapAsioError e) w
  | Value (remote, _) =>
    match connect remote with
    | Unexpected e => OnLinkFailed (MapAsioError e) w
    | Value local => client_connected local remote w
    end
  end.

(** The completion of [ListenState::StartReceive]: [stopped] is read first,
    and the next receive is started on the same state. *)
Definition server_completion (src : endpoint) (d : list byte) (w : World) : outcome World :=
  match server w with
  | None => Crash
  | Some _ => let! w1 := OnReceived src d w in
              match server w1 with None => Crash | Some _ => Ret w1 end
  end.

Definition input (i : Input) (w : World) : outcome World :=
  match i with
  | ICmd c => call c w
  | IOpen results connect => client_Open results connect w
  | IReceived l r =>
    match links w !! l with
    | Some x => if receiving x then receive_completion l r w else Ret w
    | None => Ret w
    end
  | IDatagram src d => server_completion src d w
  end.

End Calls.

(** The calls made by the application inside a callback; [fuel] bounds their
    number and nesting. *)
Fixpoint exec (fuel : nat) (cs : list Cmd) (w : World) : outcome World :=
  match cs with
  | [] => Ret w
  | c :: cs' =>
    match fuel with
    | O => Running
    | S fuel' => let! w1 := call (exec fuel') c w in exec fuel' cs' w1
    end
  end.

(** A run of the transport on a sequence of inputs. *)
Fixpoint inputs (fuel : nat) (ins : list Input) (w : World) : outcome World :=
  match ins with
  | [] => Ret w
  | i :: ins' => let! w1 := input (exec fuel) i w in inputs fuel ins' w1
  end.

(** [UdpServer::Open] has bound the socket: [id] is the local endpoint. *)
Definition init (id : string) (a : A) : World := mkWorld ∅ 0 (Some ∅) id a [].

(** Before [UdpServer::Open]. *)
Definition unopened (a : A) : World := mkWorld ∅ 0 None "" a [].

(** [UdpServer::Open]: the errors of [open] and [bind] (that of [set_option] is
    overwritten by [bind]), and the local endpoint of the bound socket. *)
Definition server_Open (run : list Cmd -> World -> outcome World)
    (opened bound : option ec) (local : endpoint) (w : World) : outcome World :=
  match opened with
  | Some e => OnLinkFailed run (MapAsioError e) w
  | None =>
    match bound with
    | Some e => OnLinkFailed run (MapAsioError e) w
    | None => Ret (mkWorld (links w) (next w) (Some ∅) (EndpointToPeerId local) (app w) (trace w))
    end
  end.

(** Opening a server: the first error is reported to the acceptor once and
    nothing listens; otherwise the server starts empty under the identifier of
    its local endpoint, and the acceptor is not called. *)
Theorem server_open_outcome fuel opened bound local a :
  (forall e, (on_failed a e).2 = []) ->
  exists w, server_Open (exec fuel) opened bound local (unopened a) = Ret w /\
    match opened, bound with
    | Some e, _ | None, Some e => trace w = [EFailed (MapAsioError e)] /\ server w = None
    | None, None => w = init (EndpointToPeerId local) a
    end.
Proof.
  intros Hf. unfold server_Open, OnLinkFailed. simpl.
  assert (forall e, let '(a', cs) := on_failed a e in
    exec fuel cs (record a' (EFailed e) (unopened a)) = Ret (record a' (EFailed e) (unopened a))) as H.
  { intros e. specialize (Hf e). destruct (on_failed a e) as [a' cs]. simpl in Hf. subst cs. by destruct fuel. }
  destruct opened as [e|]; [|destruct bound as [e|]]; [| |by eexists];
    specialize (H (MapAsioError e)); destruct (on_failed a (MapAsioError e)) as [a' cs]; rewrite H; by eexists.
Qed.

(** ** Invariant *)

(** Events that must not follow [EDisc l]: a [Send] that calls its writer, a
    dispatched datagram, a second notification. *)
Definition after_disc_forbidden (l : nat) (e : Event) : Prop :=
  match e with
  | EWriter k | ERecv k (Some _) _ | EDisc k => k = l
  | _ => False
  end.

Definition quiet_after_disc (t : list Event) : Prop :=
  forall l t1 t2 e, t = t1 ++ EDisc l :: t2 -> e ∈ t2 -> ~ after_disc_forbidden l e.

(** The writers called for link [l], and those that have returned. *)
Definition calls (l : nat) (e : Event) : nat := match e with EWriter k => if decide (k = l) then 1 else 0 | _ => 0 end.
Definition returns (l : nat) (e : Event) : nat :=
  match e with ESend k _ | ESkip k => if decide (k = l) then 1 else 0 | _ => 0 end.
Definition writers (l : nat) (t : list Event) : nat := sum_list_with (calls l) t.
Definition returned (l : nat) (t : list Event) : nat := sum_list_with (returns l) t.

Lemma writers_app l t1 t2 : writers l (t1 ++ t2) = (writers l t1 + writers l t2)%nat.
Proof. apply sum_list_with_app. Qed.
Lemma returned_app l t1 t2 : returned l (t1 ++ t2) = (returned l t1 + returned l t2)%nat.
Proof. apply sum_list_with_app. Qed.
Lemma writers_one l e : writers l [e] = calls l e.
Proof. unfold writers. cbn. lia. Qed.
Lemma returned_one l e : returned l [e] = returns l e.
Proof. unfold returned. cbn. lia. Qed.
#[global] Arguments writers : simpl never.
#[global] Arguments returned : simpl never.

Lemma no_writers l t : EWriter l ∉ t -> writers l t = 0.
Proof.
  induction t as [|e t IH]; [done|]. intros Hn. change (writers l (e :: t)) with (calls l e + writers l t)%nat.
  rewrite IH by set_solver. destruct e as [| |k| | | |]; cbn; try done. rewrite decide_False; [done|set_solver].
Qed.
Lemma no_returns l t d : returned l t = 0 -> ESend l d ∉ t.
Proof.
  induction t as [|e t IH]; [set_solver|]. change (returned l (e :: t)) with (returns l e + returned l t)%nat.
  intros Hr [<-|Hin]%elem_of_cons; [|by apply IH; [lia|]]. cbn in Hr. rewrite decide_True in Hr by done. lia.
Qed.

Record Inv (w : World) : Prop := {
  i_dom l : is_Some (links w !! l) -> (l < next w)%nat;
  i_map s ep l : server w = Some s -> s !! ep = Some l ->
    exists x, links w !! l = Some x /\ mode x = Shared ep /\ closed x = false;
  i_open s l x ep : server w = Some s -> links w !! l = Some x -> mode x = Shared ep ->
    closed x = false -> s !! ep = Some l;
  i_disc l : EDisc l ∈ trace w -> exists x, links w !! l = Some x /\ closed x = true;
  i_quiet : quiet_after_disc (trace w);
  i_demux l ep d : ERecv l (Some ep) d ∈ trace w -> exists x, links w !! l = Some x /\ mode x = Shared ep;
  i_sent l d : ESend l d ∈ trace w -> d <> [];
  i_writers l : (returned l (trace w) <= writers l (trace w))%nat }.

(** What a callback may do to the links. *)
Record Rel (w w' : World) : Prop := {
  r_next : (next w <= next w')%nat;
  r_server : server w = None -> server w' = None;
  r_link l x : links w !! l = Some x ->
    exists x', links w' !! l = Some x' /\ mode x' = mode x /\ (closed x = true -> closed x' = true);
  (* every writer called has returned *)
  r_writers l : (writers l (trace w') + returned l (trace w) = writers l (trace w) + returned l (trace w'))%nat }.

#[global] Instance rel_preorder : PreOrder Rel.
Proof.
  split.
  - intros w. split; [done|done| |done]. intros l x Hl. by exists x.
  - intros w1 w2 w3 [N1 S1 L1 W1] [N2 S2 L2 W2]. split; [lia|auto| |intros l; specialize (W1 l); specialize (W2 l); lia].
    intros l x Hl. destruct (L1 l x Hl) as (x1 & H1 & M1 & C1). destruct (L2 l x1 H1) as (x2 & H2 & M2 & C2).
    exists x2. split_and!; [done|congruence|auto].
Qed.

Definition sound (run : list Cmd -> World -> outcome World) : Prop :=
  forall cs w w', run cs w = Ret w' -> Inv w -> Inv w' /\ Rel w w'.

Lemma quiet_snoc t e :
  quiet_after_disc t -> (forall l, EDisc l ∈ t -> ~ after_disc_forbidden l e) ->
  quiet_after_disc (t ++ [e]).
Proof.
  intros Hq He l t1 t2 e' Ht Hin. destruct t2 as [|y t2 _] using rev_ind.
  { by apply not_elem_of_nil in Hin. }
  rewrite app_comm_cons, app_assoc in Ht. apply app_inj_tail in Ht as [Ht <-].
  apply elem_of_app in Hin as [Hin| ->%list_elem_of_singleton].
  - by apply (Hq l t1 t2 e').
  - apply He. rewrite Ht. set_solver.
Qed.

(** An event about a link that is still allowed to happen. *)
Lemma inv_record a e w :
  Inv w ->
  (forall l, EDisc l ∈ trace w -> ~ after_disc_forbidden l e) ->
  (forall l, e = EDisc l -> exists x, links w !! l = Some x /\ closed x = true) ->
  (forall l ep d, e = ERecv l (Some ep) d -> exists x, links w !! l = Some x /\ mode x = Shared ep) ->
  (forall l d, e = ESend l d -> d <> []) ->
  (forall l, returns l e + returned l (trace w) <= writers l (trace w))%nat ->
  Inv (record a e w).
Proof.
  intros [I1 I2 I3 I4 I5 I6 I7 I8] H1 H2 H3 H4 H5.
  constructor; cbn; try done.
  - intros l [Hl|Hl%list_elem_of_singleton]%elem_of_app; [by apply I4|by apply H2].
  - by apply quiet_snoc.
  - intros l ep d [Hl|Hl%list_elem_of_singleton]%elem_of_app; [by eapply I6|by eapply H3].
  - intros l d [Hl|Hl%list_elem_of_singleton]%elem_of_app; [by eapply I7|by eapply H4].
  - intros l. rewrite writers_app, returned_app, returned_one. specialize (H5 l). lia.
Qed.

(** The same for an event that is not about a writer. *)
Lemma inv_record_other a e w :
  Inv w ->
  (forall l, calls l e = 0 /\ returns l e = 0) ->
  (forall l, EDisc l ∈ trace w -> ~ after_disc_forbidden l e) ->
  (forall l, e = EDisc l -> exists x, links w !! l = Some x /\ closed x = true) ->
  (forall l ep d, e = ERecv l (Some ep) d -> exists x, links w !! l = Some x /\ mode x = Shared ep) ->
  Inv (record a e w) /\ Rel w (record a e w).
Proof.
  intros HI H0 H1 H2 H3. split.
  - apply inv_record; try done.
    + intros l d ->. destruct (H0 l) as [_ H]. cbn in H. by rewrite decide_True in H.
    + intros l. destruct (H0 l) as [_ ->]. apply (i_writers _ HI).
  - split; cbn; [done|done|intros l x Hl; by exists x|]. intros l.
    rewrite writers_app, returned_app, writers_one, returned_one. destruct (H0 l) as [-> ->]. lia.
Qed.

(** A link keeps its mode and is not reopened. *)
Lemma inv_set_link l x x' w :
  Inv w -> links w !! l = Some x -> mode x' = mode x -> closed x' = closed x ->
  Inv (set_link l x' w) /\ Rel w (set_link l x' w).
Proof.
  intros [I1 I2 I3 I4 I5 I6 I7 I8] Hl Hm Hc. split.
  - constructor; cbn; try done.
    + intros k [<-|[_ Hk]]%lookup_insert_is_Some; apply I1; [by eexists|done].
    + intros s ep k Hs Hk. destruct (I2 s ep k Hs Hk) as (y & Hy & My & Cy).
      destruct (decide (l = k)) as [<-|]; simplify_map_eq; [exists x'; split_and!; congruence|by exists y].
    + intros s k y ep Hs [(<- & <-)|(Hne & Hk)]%lookup_insert_Some; [|by apply I3].
      rewrite Hm, Hc. by apply I3.
    + intros k Hk. destruct (I4 k Hk) as (y & Hy & Cy).
      destruct (decide (l = k)) as [<-|]; simplify_map_eq; [exists x'; split; congruence|by exists y].
    + intros k ep d Hk. destruct (I6 k ep d Hk) as (y & Hy & My).
      destruct (decide (l = k)) as [<-|]; simplify_map_eq; [exists x'; split; congruence|by exists y].
  - split; cbn; [done|done| |done]. intros k y Hk.
    destruct (decide (l = k)) as [<-|]; simplify_map_eq; [exists x'; split_and!; congruence|by exists y].
Qed.

(** Closing a link takes it out of the dispatch map. *)
Lemma inv_close l x w w' :
  Inv w -> links w !! l = Some x -> closed x = false ->
  removeFromDispatch (mode x)
    (set_link l (mkLink (mode x) (localId x) (remoteId x) true false (receiving x) (handler x)) w) = Ret w' ->
  Inv w' /\ Rel w w' /\ trace w' = trace w /\ app w' = app w /\
  exists x', links w' !! l = Some x' /\ closed x' = true.
Proof.
  intros [I1 I2 I3 I4 I5 I6 I7 I8] Hl Hc. set (x1 := mkLink _ _ _ true _ _ _). intros Hr.
  assert (exists s', w' = set_server s' (set_link l x1 w) /\
    (server w = None -> s' = None) /\
    forall m, s' = Some m -> exists s, server w = Some s /\
      forall ep k, m !! ep = Some k <-> s !! ep = Some k /\ Shared ep <> mode x) as (s' & -> & Hs0 & Hs').
  { unfold removeFromDispatch in Hr. destruct (mode x) as [|ep] eqn:Em.
    - exists (server w). split; [by injection Hr as <-; destruct w|]. split; [done|].
      intros m Hm. exists m. split; [done|]. naive_solver.
    - destruct (server (set_link l x1 w)) as [s|] eqn:Es; [|done]. cbn in Es. exists (Some (delete ep s)).
      split; [by injection Hr as <-|]. split; [by rewrite Es|]. intros m [= <-]. exists s. split; [done|].
      intros ep' k. rewrite lookup_delete_Some. naive_solver. }
  split_and!; try done.
  - constructor; cbn; try done.
    + intros k [<-|[_ Hk]]%lookup_insert_is_Some; apply I1; [by eexists|done].
    + intros m ep k [s [Hs Hm]]%Hs' [Hk Hne]%Hm. destruct (I2 s ep k Hs Hk) as (y & Hy & My & Cy).
      exists y. split_and!; try done. rewrite lookup_insert_ne; [done|]. intros <-. congruence.
    + intros m k y ep [s [Hs Hm]]%Hs' [(<- & <-)|(Hne & Hk)]%lookup_insert_Some My Cy; [done|].
      apply Hm. split; [by eapply I3|]. intros E. rewrite <- My in E.
      assert (s !! ep = Some l) by (apply (I3 s l x); congruence).
      assert (s !! ep = Some k) by (by apply (I3 s k y)). congruence.
    + intros k Hk. destruct (I4 k Hk) as (y & Hy & Cy).
      destruct (decide (l = k)) as [<-|]; simplify_map_eq; [by exists x1|by exists y].
    + intros k ep d Hk. destruct (I6 k ep d Hk) as (y & Hy & My).
      destruct (decide (l = k)) as [<-|]; simplify_map_eq; [exists x1; split; [done|cbn; congruence]|by exists y].
  - split; cbn; [done|done| |done]. intros k y Hk.
    destruct (decide (l = k)) as [<-|]; simplify_map_eq; [by exists x1|by exists y].
  - exists x1. cbn. by rewrite lookup_insert_eq.
Qed.

Section Sound.
Context (run : list Cmd -> World -> outcome World) (Hrun : sound run).

Lemma open_not_disc l x w : Inv w -> links w !! l = Some x -> closed x = false -> EDisc l ∉ trace w.
Proof. intros HI Hl Hc Hd. destruct (i_disc _ HI l Hd) as (y & Hy & Cy). congruence. Qed.

Lemma rel_step w1 w2 w3 : Inv w2 /\ Rel w1 w2 -> (Inv w2 -> Inv w3 /\ Rel w2 w3) -> Inv w3 /\ Rel w1 w3.
Proof. intros [HI HR] H. destruct (H HI) as [? ?]. split; [done|by etransitivity]. Qed.

Lemma Send_ok l cs data n w w' : Inv w -> Send run l cs data n w = Ret w' -> Inv w' /\ Rel w w'.
Proof.
  intros HI. unfold Send. destruct (links w !! l) as [x|] eqn:Hl; [|done].
  destruct (closed x) eqn:Hc; [intros [= <-]; by split|]. intros (w1 & Hr & Hk)%obind_Ret.
  assert (Inv (record (app w) (EWriter l) w)) as HI0.
  { apply inv_record; try done; [|apply (i_writers _ HI)].
    intros k Hk' E. cbn in E. subst k. by apply (open_not_disc l x w) in Hk'. }
  destruct (Hrun _ _ _ Hr HI0) as [HI1 [N1 S1 L1 W1]]. cbn [trace record links next server] in *.
  assert (forall e, (e = ESkip l \/ exists d, e = ESend l d /\ d <> []) ->
    Inv (record (app w1) e w1) /\ Rel w (record (app w1) e w1)) as He.
  { intros e He. split.
    - apply inv_record; [done|destruct He as [->|(d & -> & _)]; by intros ? _ []|by destruct He as [->|(d & -> & _)]..
        |destruct He as [->|(d & -> & Hd)]; by intros ? ? [= <- <-]|]. intros k. specialize (W1 k).
      rewrite writers_app, returned_app, writers_one, returned_one in W1. pose proof (i_writers _ HI k).
      destruct He as [->|(d & -> & _)]; cbn [returns calls] in *; case_decide; lia.
    - split; cbn; [done|done|done|]. intros k. specialize (W1 k).
      rewrite ?writers_app, ?returned_app, ?writers_one, ?returned_one in *.
      destruct He as [->|(d & -> & _)]; cbn [returns calls] in *; case_decide; lia. }
  case_bool_decide as Hn; injection Hk as <-; apply He; [by left|right]. eexists. split; [done|].
  intros E. apply (f_equal length) in E. unfold datagram in E. rewrite length_resize in E. cbn in E. lia.
Qed.

Lemma Disconnect_ok l w w' : Inv w -> Disconnect run l w = Ret w' -> Inv w' /\ Rel w w'.
Proof.
  intros HI. unfold Disconnect. destruct (links w !! l) as [x|] eqn:Hl; [|done].
  destruct (closed x) eqn:Hc; [intros [= <-]; by split|].
  intros (w2 & Hr & Hk)%obind_Ret.
  destruct (inv_close l x w w2 HI Hl Hc Hr) as (HI2 & HR2 & Ht2 & Ha2 & Hx2).
  destruct (onDisconnected (handler x)); [|injection Hk as <-; by split].
  destruct (on_disconnected (app w2) l) as [a cs].
  apply (rel_step w w2); [by split|intros _]. eapply rel_step; [|intros HI3; by eapply Hrun].
  apply inv_record_other; try done.
  - rewrite Ht2. intros k Hk' E. cbn in E. subst k. by apply (open_not_disc l x w) in Hk'.
  - by intros k [= <-].
Qed.

Lemma call_onReceived_ok l x src d w w' :
  Inv w -> links w !! l = Some x ->
  (forall ep, src = Some ep -> closed x = false /\ mode x = Shared ep) ->
  call_onReceived run l x src d w = Ret w' -> Inv w' /\ Rel w w'.
Proof.
  intros HI Hl Hsrc. unfold call_onReceived. destruct (onReceived (handler x)); [|intros [= <-]; by split].
  destruct (on_received (app w) l d) as [a cs]. intros Hr.
  eapply rel_step; [|intros HI3; by eapply Hrun]. apply inv_record_other; try done.
  - intros k Hk E. destruct src as [ep|]; [|done]. cbn in E. subst k.
    destruct (Hsrc ep eq_refl) as [Hc _]. by apply (open_not_disc l x w) in Hk.
  - intros k ep d' [= <- -> <-]. exists x. split; [done|]. by apply Hsrc.
Qed.

Lemma DeliverReceived_ok l src d w w' :
  Inv w -> (forall x, links w !! l = Some x -> mode x = Shared src) ->
  DeliverReceived run l src d w = Ret w' -> Inv w' /\ Rel w w'.
Proof.
  intros HI Hm. unfold DeliverReceived. destruct (links w !! l) as [x|] eqn:Hl; [|done].
  destruct (closed x) eqn:Hc; [intros [= <-]; by split|]. apply call_onReceived_ok; [done|done|].
  intros ep [= <-]. split; [done|]. by apply Hm.
Qed.

Lemma set_handler_ok l h w w' : Inv w -> SetHandler l h w = Ret w' -> Inv w' /\ Rel w w'.
Proof.
  intros HI. unfold SetHandler. destruct (links w !! l) as [x|] eqn:Hl; [|done]. intros [= <-].
  by apply (inv_set_link l x).
Qed.

Lemma DoReceive_ok l w w' : Inv w -> DoReceive l w = Ret w' -> Inv w' /\ Rel w w'.
Proof.
  intros HI. unfold DoReceive. destruct (links w !! l) as [x|] eqn:Hl; [|done].
  destruct (closed x) eqn:Hc; [intros [= <-]; by split|].
  destruct (mode x) eqn:Hm; intros [= <-]; [|by split]. apply (inv_set_link l x); cbn; congruence.
Qed.

Lemma link_call_ok c w w' : Inv w -> call run c w = Ret w' -> Inv w' /\ Rel w w'.
Proof.
  intros HI. destruct c; cbn [call]; [by apply Send_ok|by apply Disconnect_ok|]. intros [= <-]. split.
  - destruct HI. by constructor.
  - split; cbn; [done|done| |done]. intros k y Hk. by exists y.
Qed.

(** A new link; a shared one is entered into the dispatch map. *)
Lemma new_link_ok x w s' :
  Inv w -> closed x = false ->
  match mode x with
  | Connected => s' = server w
  | Shared ep => exists s, server w = Some s /\ s !! ep = None /\ s' = Some (<[ep := next w]> s)
  end ->
  Inv (set_server s' (new_link x w).2) /\ Rel w (set_server s' (new_link x w).2) /\
  links (set_server s' (new_link x w).2) !! next w = Some x.
Proof.
  intros HI Hc Hs. assert (links w !! next w = None) as Hn.
  { destruct (links w !! next w) eqn:E; [|done].
    assert (next w < next w)%nat; [apply (i_dom _ HI); by eexists|lia]. }
  destruct HI as [I1 I2 I3 I4 I5 I6 I7 I8].
  assert (forall k y, links w !! k = Some y -> <[next w := x]> (links w) !! k = Some y) as Hold
    by (intros k y Hk; rewrite lookup_insert_ne; congruence).
  split_and!; cbn; [| |apply lookup_insert_eq].
  - constructor; cbn; try done.
    + intros k [<-|[_ Hk%I1]]%lookup_insert_is_Some; lia.
    + intros s ep k -> Hk. destruct (mode x) as [|epx] eqn:Em.
      * destruct (I2 s ep k (eq_sym Hs) Hk) as (y & Hy & ?). exists y. split; [by apply Hold|done].
      * destruct Hs as (s0 & Hs0 & Hnone & [= ->]).
        apply lookup_insert_Some in Hk as [(<- & <-)|(Hne & Hk)].
        -- exists x. by rewrite lookup_insert_eq.
        -- destruct (I2 s0 ep k Hs0 Hk) as (y & Hy & ?). exists y. split; [by apply Hold|done].
    + intros s k y ep -> [(<- & <-)|(Hne & Hk)]%lookup_insert_Some Hm Cy.
      * rewrite Hm in Hs. destruct Hs as (s0 & _ & _ & [= ->]). apply lookup_insert_eq.
      * destruct (mode x) as [|epx] eqn:Em; [by eapply I3|].
        destruct Hs as (s0 & Hs0 & Hnone & [= ->]).
        assert (s0 !! ep = Some k) by (by eapply I3). rewrite lookup_insert_ne; [done|]. congruence.
    + intros k Hk. destruct (I4 k Hk) as (y & Hy & ?). exists y. split; [by apply Hold|done].
    + intros k ep d Hk. destruct (I6 k ep d Hk) as (y & Hy & ?). exists y. split; [by apply Hold|done].
  - split; cbn; [lia| | |done].
    + intros E. destruct (mode x); [congruence|]. destruct Hs as (s & Hs & _). congruence.
    + intros k y Hk. exists y. split; [by apply Hold|done].
Qed.

Lemma OnLink_ok l w h w' : Inv w -> OnLink run l w = Ret (h, w') -> Inv w' /\ Rel w w'.
Proof.
  intros HI. unfold OnLink. destruct (on_link (app w) l) as [[a cs] h0].
  intros (w1 & Hr & [= -> ->])%obind_Ret. eapply rel_step; [|intros HI3; by eapply Hrun].
  apply inv_record_other; try done. by intros k _ E.
Qed.

Lemma OnReceived_ok src d w w' : Inv w -> OnReceived run src d w = Ret w' -> Inv w' /\ Rel w w'.
Proof.
  intros HI. unfold OnReceived. destruct (server w) as [s|] eqn:Hs; [|done].
  destruct (s !! src) as [l|] eqn:Hl.
  - apply DeliverReceived_ok; [done|]. intros x Hx.
    destruct (i_map _ HI s src l Hs Hl) as (y & Hy & ? & _). congruence.
  - set (x := mkLink _ _ _ _ _ _ _). cbn [new_link].
    destruct (new_link_ok x w (Some (<[src := next w]> s)) HI eq_refl) as (HI2 & HR2 & Hx2); [by exists s|].
    cbn [new_link snd] in HI2, HR2, Hx2. match type of HI2 with Inv ?y => set (w2 := y) in * end.
    intros ([h w3] & Hon & Hk)%obind_Ret. apply obind_Ret in Hk as (w4 & Hset & Hdel).
    destruct (OnLink_ok _ _ _ _ HI2 Hon) as [HI3 HR3].
    destruct (set_handler_ok _ _ _ _ HI3 Hset) as [HI4 HR4].
    destruct (DeliverReceived_ok (next w) src d w4 w' HI4) as [HI5 HR5]; [|done|].
    + intros x4 Hx4. destruct (r_link _ _ HR3 _ _ Hx2) as (x3 & Hx3 & M3 & _).
      destruct (r_link _ _ HR4 _ _ Hx3) as (x4' & Hx4' & M4 & _). rewrite Hx4 in Hx4'. simplify_eq. by rewrite M4, M3.
    + split; [done|]. etransitivity; [exact HR2|]. etransitivity; [exact HR3|]. by etransitivity.
Qed.

Lemma OnLinkFailed_ok e w w' : Inv w -> OnLinkFailed run e w = Ret w' -> Inv w' /\ Rel w w'.
Proof.
  intros HI. unfold OnLinkFailed. destruct (on_failed (app w) e) as [a cs]. intros Hr.
  eapply rel_step; [|intros HI3; by eapply Hrun]. apply inv_record_other; try done. by intros k _ E.
Qed.

Lemma client_connected_ok local remote w w' :
  Inv w -> client_connected run local remote w = Ret w' -> Inv w' /\ Rel w w'.
Proof.
  intros HI. unfold client_connected. cbn [new_link]. set (x := mkLink Connected _ _ _ _ _ _).
  destruct (new_link_ok x w (server w) HI eq_refl eq_refl) as (HI2 & HR2 & Hx2). cbn in HI2, HR2, Hx2.
  intros ([h w2] & Hon & Hk)%obind_Ret.
  destruct (OnLink_ok _ _ _ _ HI2 Hon) as [HI3 HR3]. unfold StartReceive in Hk.
  apply obind_Ret in Hk as (w4 & Hset & Hk). destruct (set_handler_ok _ _ _ _ HI3 Hset) as [HI4 HR4].
  assert (Inv w' /\ Rel w4 w') as [HI5 HR5].
  { destruct (links w4 !! next w) as [x4|]; [|done].
    destruct (mode x4); [by apply DoReceive_ok in Hk|injection Hk as <-; by split]. }
  split; [done|]. etransitivity; [exact HR2|]. etransitivity; [exact HR3|]. by etransitivity.
Qed.

Lemma input_ok i w w' : Inv w -> input run i w = Ret w' -> Inv w' /\ Rel w w'.
Proof.
  intros HI. destruct i as [c|results connect|l r|src d]; cbn [input].
  - by apply link_call_ok.
  - unfold client_Open. destruct results as [[remote more]|e]; [|by apply OnLinkFailed_ok].
    destruct (connect remote) as [local|e]; [by apply client_connected_ok|by apply OnLinkFailed_ok].
  - destruct (links w !! l) as [x|] eqn:Hl; [|intros [= <-]; by split].
    destruct (receiving x); [|intros [= <-]; by split]. unfold receive_completion. rewrite Hl.
    match goal with |- context [set_link l ?y w] => set (x0 := y) end.
    destruct (inv_set_link l x x0 w HI Hl eq_refl eq_refl) as [HI0 HR0]. intros Hk.
    apply (rel_step w (set_link l x0 w)); [by split|intros _].
    destruct r as [d|e].
    + apply obind_Ret in Hk as (w1 & Hc & Hd).
      eapply rel_step; [|intros HI1; by eapply DoReceive_ok].
      apply (call_onReceived_ok l x0 None d); [done|apply lookup_insert_eq|done|done].
    + destruct (closed x); [injection Hk as <-; by split|]. by apply Disconnect_ok in Hk.
  - unfold server_completion. destruct (server w); [|done]. intros (w1 & Hr & Hk)%obind_Ret.
    destruct (server w1); [|done]. injection Hk as <-. by apply OnReceived_ok in Hr.
Qed.

End Sound.

Lemma link_exec_sound fuel : sound (exec fuel).
Proof.
  induction fuel as [|fuel IH]; intros [|c cs] w w'; cbn [exec]; try done;
    try (intros [= <-] HI; by split).
  intros (w1 & Hc & Hr)%obind_Ret HI. eapply rel_step; [by eapply link_call_ok|intros HI1; by eapply IH].
Qed.

Lemma inputs_sound fuel ins w w' : inputs fuel ins w = Ret w' -> Inv w -> Inv w' /\ Rel w w'.
Proof.
  revert w. induction ins as [|i ins IH]; intros w; cbn [inputs]; [intros [= <-] HI; by split|].
  intros (w1 & Hc & Hr)%obind_Ret HI. eapply rel_step; [eapply input_ok; [apply link_exec_sound|done..]|intros HI1; by apply IH].
Qed.

Lemma link_init_inv id a : Inv (init id a).
Proof.
  constructor; cbn; try done.
  - by intros l [? ?].
  - by intros s ep l [= <-].
  - by intros l ?%elem_of_nil.
  - intros l t1 t2 e Ht. by destruct t1.
  - by intros l ep d ?%elem_of_nil.
  - by intros l d ?%elem_of_nil.
Qed.

(** ** Theorems *)

(** C28: the life of a link, whatever the network, the handlers and the writers do,
    writers that call back included: the handler is told at most once that the
    link is disconnected; after that no [Send] calls its writer, the server
    dispatches nothing to the link, and nothing is sent on it except by a [Send]
    whose writer was running when the link was disconnected; and a dispatched
    datagram reaches only a link of the endpoint it came from. *)
Theorem link_lifecycle (fuel : nat) (ins : list Input) (id : string) (a : A) (w : World) :
  inputs fuel ins (init id a) = Ret w ->
  (forall l t1 t2, trace w = t1 ++ EDisc l :: t2 ->
     (EDisc l ∉ t2) /\ (EWriter l ∉ t2) /\ (forall ep d, ERecv l (Some ep) d ∉ t2) /\
     (returned l t2 <= writers l t1 - returned l t1)%nat /\
     (returned l t1 = writers l t1 -> forall d, ESend l d ∉ t2)) /\
  (forall l ep d, ERecv l (Some ep) d ∈ trace w -> exists x, links w !! l = Some x /\ mode x = Shared ep).
Proof.
  intros Hr. destruct (inputs_sound fuel ins _ w Hr (link_init_inv id a)) as [HI _]. split; [|apply (i_demux _ HI)].
  intros l t1 t2 Ht. assert (EWriter l ∉ t2) as Hw by (intros Hin; by apply (i_quiet _ HI l t1 t2 _ Ht Hin)).
  assert (returned l t1 + returned l t2 <= writers l t1)%nat as Hb.
  { pose proof (i_writers _ HI l) as Hi. rewrite Ht, (cons_middle (EDisc l)) in Hi.
    rewrite !writers_app, !returned_app, (no_writers l t2 Hw), writers_one, returned_one in Hi. cbn in Hi. lia. }
  split_and!; [|done| |lia|].
  - intros Hin. by apply (i_quiet _ HI l t1 t2 _ Ht Hin).
  - intros ep d Hin. by apply (i_quiet _ HI l t1 t2 _ Ht Hin).
  - intros He d. apply no_returns. lia.
Qed.

(** C29: as long as the server exists, its dispatch map has exactly the open
    links it created, one per remote endpoint. *)
Theorem dispatch_map_is_open_links (fuel : nat) (ins : list Input) (id : string) (a : A) (w : World)
    (s : gmap endpoint nat) (ep : endpoint) (l : nat) :
  inputs fuel ins (init id a) = Ret w -> server w = Some s ->
  s !! ep = Some l <-> exists x, links w !! l = Some x /\ mode x = Shared ep /\ closed x = false.
Proof.
  intros Hr Hs. destruct (inputs_sound fuel ins _ w Hr (link_init_inv id a)) as [HI _]. split.
  - by apply (i_map _ HI).
  - intros (x & Hx & Hm & Hc). by apply (i_open _ HI s l x).
Qed.

(** The size of a datagram is what the writer returned: for a writer that
    stays within the buffer it is a prefix of the buffer; a writer that returns
    more than the maximum gets a datagram beyond that maximum, padded with
    zeros. *)
Theorem datagram_size (data : list byte) (n : nat) :
  length (datagram data n) = n /\
  (n <= length data -> length data <= maxDatagramSize -> datagram data n = take n data) /\
  (maxDatagramSize < n -> datagram data n = resize maxDatagramSize x00 data ++ replicate (n - maxDatagramSize) x00).
Proof.
  unfold datagram. split_and!; [apply length_resize| |].
  - intros H1 H2. rewrite resize_resize by lia. by apply resize_le.
  - intros H1. rewrite (resize_ge _ n) by (rewrite length_resize; lia). by rewrite length_resize.
Qed.

Section Finds.
Hypothesis quiet_app : (forall a l d, (on_received a l d).2 = []) /\
  (forall a l, (on_disconnected a l).2 = []) /\
  (forall a l, (on_link a l).1.2 = [] /\ (on_link a l).2 = mkHandler true true).

Lemma exec_nil fuel w : exec fuel [] w = Ret w.
Proof. by destruct fuel. Qed.

Lemma OnLink_quiet fuel l w :
  exists a, OnLink (exec fuel) l w = Ret (mkHandler true true, record a (ELink l) w).
Proof.
  destruct quiet_app as (_ & _ & Hl). unfold OnLink. destruct (Hl (app w) l) as [H1 H2].
  destruct (on_link (app w) l) as [[a cs] h]. cbn in H1, H2. subst. rewrite exec_nil. by exists a.
Qed.

Lemma Disconnect_quiet fuel l x w w2 :
  links w !! l = Some x -> closed x = false -> onDisconnected (handler x) = true ->
  removeFromDispatch (mode x)
    (set_link l (mkLink (mode x) (localId x) (remoteId x) true false (receiving x) (handler x)) w) = Ret w2 ->
  exists a, Disconnect (exec fuel) l w = Ret (record a (EDisc l) w2).
Proof.
  intros Hl Hc Ho Hr. destruct quiet_app as (_ & Hd & _). unfold Disconnect. rewrite Hl, Hc, Hr. cbn [obind].
  rewrite Ho. specialize (Hd (app w2) l). destruct (on_disconnected (app w2) l) as [a cs]. cbn in Hd. subst.
  rewrite exec_nil. by exists a.
Qed.

(** A connected link can deliver data after it reported its disconnection:
    when a receive has completed and the application disconnects before its
    completion runs, the handler's [onReceived] is called after
    [onDisconnected] (the completion does not test [_closed]). *)
Theorem receive_after_disconnect (fuel : nat) (id : string) (a : A) (local remote : endpoint) (d : list byte) :
  exists w, inputs fuel [IOpen (Value (remote, [])) (fun _ => Value local); ICmd (CDisconnect 0); IReceived 0 (Value d)]
      (init id a) = Ret w /\
    trace w = [ELink 0; EDisc 0; ERecv 0 None d].
Proof.
  cbn [inputs input client_Open]. unfold client_connected. cbn [new_link].
  change (next (init id a)) with 0.
  match goal with |- context [OnLink _ _ ?y] => destruct (OnLink_quiet fuel 0 y) as [a1 E1] end.
  rewrite E1. unfold StartReceive, SetHandler, DoReceive. cbn [obind].
  repeat (cbn -[Disconnect exec lookup insert]; rewrite lookup_insert_eq). cbn -[Disconnect exec lookup insert].
  rewrite ?insert_insert_eq.
  pose (x := mkLink Connected (EndpointToPeerId local) (EndpointToPeerId remote) false true true
               (mkHandler true true)).
  match goal with |- context [Disconnect _ _ ?y] => set (wd := y) end.
  destruct (Disconnect_quiet fuel 0 x wd _ (lookup_insert_eq _ _ _) eq_refl eq_refl eq_refl) as [a2 E2].
  rewrite E2. subst wd x.
  cbn -[exec lookup insert]. rewrite lookup_insert_eq. cbn -[exec lookup insert].
  unfold receive_completion. cbn -[exec lookup insert]. rewrite lookup_insert_eq.
  unfold call_onReceived. cbn -[exec lookup insert]. destruct quiet_app as (Hr & _). specialize (Hr a2 0 d).
  destruct (on_received a2 0 d) as [a3 cs]. cbn in Hr. subst. rewrite exec_nil. cbn [obind].
  unfold DoReceive. cbn -[lookup insert]. rewrite lookup_insert_eq. cbn. by eexists.
Qed.

(** [Send] tests [_closed] before it calls the writer, not after: a writer that
    disconnects its own link is followed by the send. *)
Theorem send_after_disconnect (fuel : nat) (id : string) (a : A) (ep : endpoint) (d data : list byte) (n : nat) :
  n <> 0 ->
  exists w, inputs (S fuel) [IDatagram ep d; ICmd (CSend 0 [CDisconnect 0] data n)] (init id a) = Ret w /\
    trace w = [ELink 0; ERecv 0 (Some ep) d; EWriter 0; EDisc 0; ESend 0 (datagram data n)].
Proof.
  intros Hn0. cbn [inputs input]. unfold server_completion. cbn [server init]. unfold OnReceived. cbn [server init].
  rewrite lookup_empty. cbn [new_link]. change (next (init id a)) with 0.
  match goal with |- context [OnLink _ _ ?y] => destruct (OnLink_quiet (S fuel) 0 y) as [a1 E1] end.
  rewrite E1. cbn [obind]. unfold SetHandler, DeliverReceived, call_onReceived.
  repeat (cbn -[exec lookup insert]; rewrite lookup_insert_eq). cbn -[exec lookup insert].
  destruct quiet_app as (Hr & _). specialize (Hr a1 0 d). destruct (on_received a1 0 d) as [a3 cs].
  cbn in Hr. subst. rewrite exec_nil. cbn -[exec lookup insert]. unfold Send. cbn -[exec lookup insert].
  rewrite lookup_insert_eq. cbn [closed exec call].
  pose (x := mkLink (Shared ep) id (EndpointToPeerId ep) false true false (mkHandler true true)).
  match goal with |- context [Disconnect _ _ ?y] => set (wd := y) end.
  destruct (Disconnect_quiet fuel 0 x wd (set_server (Some ∅) (set_link 0 (mkLink (Shared ep) id (EndpointToPeerId ep) true false false
    (mkHandler true true)) wd))) as [a2 E2]; [apply lookup_insert_eq|done|done| |].
  { cbn. by rewrite delete_insert_eq, delete_empty. }
  rewrite E2. cbn [obind]. rewrite exec_nil. cbn [obind]. rewrite bool_decide_false by done. by eexists.
Qed.

(** A link must not outlive its server: [Disconnect()] of a link whose
    server was destroyed erases from the freed dispatch map. *)
Theorem disconnect_after_server_destroyed (fuel : nat) (id : string) (a : A) (ep : endpoint) (d : list byte) :
  inputs fuel [IDatagram ep d; ICmd CDestroyServer; ICmd (CDisconnect 0)] (init id a) = Crash.
Proof.
  cbn [inputs input]. unfold server_completion. cbn [server init]. unfold OnReceived. cbn [server init].
  rewrite lookup_empty. cbn [new_link].
  change (next (init id a)) with 0.
  match goal with |- context [OnLink _ _ ?y] => destruct (OnLink_quiet fuel 0 y) as [a1 E1] end.
  rewrite E1. cbn [obind].
  unfold SetHandler, DeliverReceived, call_onReceived.
  repeat (cbn -[exec lookup insert]; rewrite lookup_insert_eq). cbn -[exec lookup insert].
  destruct quiet_app as (Hr & _). specialize (Hr a1 0 d). destruct (on_received a1 0 d) as [a3 cs].
  cbn in Hr. subst. rewrite exec_nil. cbn -[exec lookup insert]. unfold Disconnect. cbn -[exec lookup insert].
  by rewrite lookup_insert_eq.
Qed.

End Finds.

End Udp.

(** No [':'] occurs in a string: true of dotted IPv4 addresses. *)
Fixpoint no_colon (s : string) : bool :=
  match s with
  | EmptyString => true
  | String c s' => negb (bool_decide (c = ":"%char)) && no_colon s'
  end.

Lemma split_at_colon s1 s2 t1 t2 :
  no_colon s1 = true -> no_colon s2 = true ->
  s1 +:+ String ":" t1 = s2 +:+ String ":" t2 -> s1 = s2 /\ t1 = t2.
Proof.
  revert s2. induction s1 as [|c s1 IH]; intros [|c2 s2] H1 H2 E; cbn in *.
  - by injection E as ->.
  - injection E as <- _. cbn in H2. done.
  - injection E as -> _. cbn in H1. done.
  - apply andb_prop in H1 as [_ H1], H2 as [_ H2]. injection E as -> E.
    destruct (IH s2 H1 H2 E) as [-> ->]. done.
Qed.

(** Distinct IPv4 endpoints have distinct peer identifiers. *)
Theorem endpoint_id_injective (e1 e2 : endpoint) :
  no_colon (address e1) = true -> no_colon (address e2) = true ->
  EndpointToPeerId e1 = EndpointToPeerId e2 -> e1 = e2.
Proof.
  intros H1 H2 E. unfold EndpointToPeerId in E. cbn in E.
  destruct (split_at_colon _ _ _ _ H1 H2 E) as [Ea Ep]. apply (inj pretty) in Ep.
  destruct e1, e2; cbn in *; congruence.
Qed.

(** ** Evaluation *)

Module Demo.

(** An application that counts what it receives and never calls back. *)
Definition on_received (a l : nat) (d : list byte) : nat * list Cmd := (a + length d, []).
Definition on_disconnected (a l : nat) : nat * list Cmd := (a, []).
Definition on_link (a l : nat) : nat * list Cmd * LinkHandler := (a, [], mkHandler true true).
Definition on_failed (a : nat) (e : Error) : nat * list Cmd := (a, []).

Definition run (ins : list Input) : outcome World :=
  inputs 8 on_received on_disconnected on_link on_failed 5 ins (init "0.0.0.0:7" 0).
Definition result (ins : list Input) : World :=
  match run ins with Ret w => w | _ => init "" 0 end.

Definition ep1 : endpoint := mkEp "10.0.0.1" 9.
Definition ep2 : endpoint := mkEp "10.0.0.2" 9.

(** Two peers, one of which is disconnected, by the writer of a send on the
    other link, and comes back as a new link. *)
Definition session : list Input :=
  [IDatagram ep1 [x01]; IDatagram ep2 [x02]; ICmd (CSend 0 [] [x03] 1); ICmd (CSend 1 [CDisconnect 0] [x06] 1);
   ICmd (CSend 0 [] [x04] 1); IDatagram ep1 [x05]].

Lemma link_lifecycle_witness :
  trace (result session) = [ELink 0; ERecv 0 (Some ep1) [x01]; ELink 1; ERecv 1 (Some ep2) [x02];
    EWriter 0; ESend 0 [x03]; EWriter 1; EDisc 0; ESend 1 [x06]; ELink 2; ERecv 2 (Some ep1) [x05]] /\
  (forall d, ESend 0 d ∉ [ESend 1 [x06]; ELink 2; ERecv 2 (Some ep1) [x05]]).
Proof.
  assert (trace (result session) = [ELink 0; ERecv 0 (Some ep1) [x01]; ELink 1; ERecv 1 (Some ep2) [x02];
    EWriter 0; ESend 0 [x03]; EWriter 1; EDisc 0; ESend 1 [x06]; ELink 2; ERecv 2 (Some ep1) [x05]]) as E
    by (vm_compute; reflexivity).
  split; [exact E|].
  apply (proj1 (link_lifecycle 8 on_received on_disconnected on_link on_failed 5 session "0.0.0.0:7" 0
           (result session) ltac:(vm_compute; reflexivity)) 0
           [ELink 0; ERecv 0 (Some ep1) [x01]; ELink 1; ERecv 1 (Some ep2) [x02]; EWriter 0; ESend 0 [x03]; EWriter 1]);
    [exact E|vm_compute; reflexivity].
Defined.

Lemma quiet : (forall a l d, (on_received a l d).2 = []) /\
  (forall a l, (on_disconnected a l).2 = []) /\
  (forall a l, (on_link a l).1.2 = [] /\ (on_link a l).2 = mkHandler true true).
Proof. done. Qed.

Lemma send_after_disconnect_witness :
  exists w, run [IDatagram ep1 [x01]; ICmd (CSend 0 [CDisconnect 0] [x02] 1)] = Ret w /\
    trace w = [ELink 0; ERecv 0 (Some ep1) [x01]; EWriter 0; EDisc 0; ESend 0 [x02]].
Proof.
  apply (send_after_disconnect 8 on_received on_disconnected on_link on_failed quiet 4 "0.0.0.0:7" 0 ep1 [x01] [x02] 1).
  lia.
Defined.

Lemma dispatch_map_is_open_links_witness :
  exists x, links (result session) !! 2 = Some x /\ mode x = Shared ep1 /\ closed x = false.
Proof.
  apply (dispatch_map_is_open_links 8 on_received on_disconnected on_link on_failed 5 session "0.0.0.0:7" 0
           (result session) (<[ep1 := 2]> (<[ep2 := 1]> ∅)) ep1 2); vm_compute; reflexivity.
Defined.

Lemma datagram_size_witness : datagram 4 [x01; x02] 6 = [x01; x02; x00; x00; x00; x00].
Proof.
  etransitivity; [apply (proj2 (proj2 (datagram_size 4 [x01; x02] 6))); lia|vm_compute; reflexivity].
Defined.

Lemma receive_after_disconnect_witness :
  exists w, inputs 8 on_received on_disconnected on_link on_failed 5
      [IOpen (Value (ep1, [])) (fun _ => Value ep2); ICmd (CDisconnect 0); IReceived 0 (Value [x01])]
      (init "" 0) = Ret w /\ trace w = [ELink 0; EDisc 0; ERecv 0 None [x01]].
Proof.
  apply (receive_after_disconnect 8 on_received on_disconnected on_link on_failed quiet 5 "" 0 ep2 ep1 [x01]).
Defined.

Lemma disconnect_after_server_destroyed_witness :
  run [IDatagram ep1 [x01]; ICmd CDestroyServer; ICmd (CDisconnect 0)] = Crash.
Proof.
  apply (disconnect_after_server_destroyed 8 on_received on_disconnected on_link on_failed quiet).
Defined.

Lemma endpoint_id_injective_witness :
  EndpointToPeerId ep1 = "10.0.0.1:9" /\ mkEp "10.0.0.1" 9 = ep1.
Proof.
  split; [vm_compute; reflexivity|].
  apply (endpoint_id_injective (mkEp "10.0.0.1" 9) ep1); vm_compute; reflexivity.
Defined.

End Demo.
