(* ===== verification/Log.v ===== *)
(** * Logging: the startup buffer, sinks, and the names in a log line

    [src/pkg/log/Log]: [StartupSink.h], [Sink.cpp], [Log.cpp], [Path.cpp],
    [Details/Format.cpp], [Level.h]. The library spdlog hands every message that
    passes the level filter to every sink, in order; the default level lets all
    messages pass. *)

From S2P Require Import Prelude StringView.
From Stdlib Require Import Ascii.

Open Scope outcome_scope.

(** ** Levels ([Level.h]) *)

Inductive Level := Trace | Debug | Info | Warn | LError | Fatal.

(** [static_cast<int>(level)], which is also spdlog's numbering. *)
Definition ToSpdLevel (l : Level) : nat :=
  match l with Trace => 0 | Debug => 1 | Info => 2 | Warn => 3 | LError => 4 | Fatal => 5 end.

(** ** The startup sink and the logger *)

Section Sinks.
Context {Msg : Type}.

(** [StartupSink]: the deque and its bound. *)
Record StartupSink := mkStartup { buffer : list Msg; maxBufferSize : nat }.

(** [sink_it_]: [pop_front] on an empty deque is undefined. *)
Definition sink_it (m : Msg) (s : StartupSink) : outcome StartupSink :=
  let! b := if decide (maxBufferSize s <= length (buffer s))
            then match buffer s with [] => Crash | _ :: b => Ret b end
            else Ret (buffer s) in
  Ret (mkStartup (b ++ [m]) (maxBufferSize s)).

Definition ClearBuffer (s : StartupSink) : StartupSink := mkStartup [] (maxBufferSize s).

(** The default logger after [InitLogger]: the startup sink stays in the list
    of sinks; the others are numbered, [received] is what each was given. *)
Inductive SinkRef := Startup | Sink (id : nat).

#[global] Instance SinkRef_eq_dec : EqDecision SinkRef.
Proof. solve_decision. Defined.

Record Logger := mkLogger {
  sinks : list SinkRef; startup : StartupSink; received : gmap nat (list Msg) }.

Definition InitLogger (n : nat) : Logger := mkLogger [Startup] (mkStartup [] n) ∅.

Definition give (id : nat) (ms : list Msg) (r : gmap nat (list Msg)) : gmap nat (list Msg) :=
  <[id := default [] (r !! id) ++ ms]> r.

(** [sink->log(msg)] for each sink in turn. *)
Fixpoint log_to (ss : list SinkRef) (m : Msg) (g : Logger) : outcome Logger :=
  match ss with
  | [] => Ret g
  | Startup :: ss' =>
    let! b := sink_it m (startup g) in log_to ss' m (mkLogger (sinks g) b (received g))
  | Sink id :: ss' => log_to ss' m (mkLogger (sinks g) (startup g) (give id [m] (received g)))
  end.

Definition log (m : Msg) (g : Logger) : outcome Logger := log_to (sinks g) m g.

(** [AddSink]: replay, clear, append. *)
Definition AddSink (id : nat) (g : Logger) : Logger :=
  mkLogger (sinks g ++ [Sink id]) (ClearBuffer (startup g))
           (give id (buffer (startup g)) (received g)).

(** [RemoveSink]: [std::erase(sinks, sink)]. *)
Definition RemoveSink (id : nat) (g : Logger) : Logger :=
  mkLogger (filter (fun s => s <> Sink id) (sinks g)) (startup g) (received g).

Inductive Op := OLog (m : Msg) | OAdd (id : nat) | ORemove (id : nat).

Definition apply_op (o : Op) (g : Logger) : outcome Logger :=
  match o with OLog m => log m g | OAdd id => Ret (AddSink id g) | ORemove id => Ret (RemoveSink id g) end.

Fixpoint run (ops : list Op) (g : Logger) : outcome Logger :=
  match ops with
  | [] => Ret g
  | o :: ops' => let! g' := apply_op o g in run ops' g'
  end.

(** ** Reference: what a sink sees *)

(** The last [n] elements. *)
Definition last_n (n : nat) (l : list Msg) : list Msg := drop (length l - n) l.

Definition logged (ops : list Op) : list Msg :=
  omap (fun o => match o with OLog m => Some m | _ => None end) ops.

(** The messages logged since the last sink was added. *)
Definition since (ops : list Op) : list Msg :=
  foldl (fun acc o => match o with OLog m => acc ++ [m] | OAdd _ => [] | ORemove _ => acc end) [] ops.

Definition mentions (id : nat) (o : Op) : Prop :=
  match o with OLog _ => False | OAdd i | ORemove i => i = id end.

Lemma last_n_snoc n l m :
  0 < n ->
  (if decide (n <= length (last_n n l)) then drop 1 (last_n n l) else last_n n l) ++ [m] =
  last_n n (l ++ [m]).
Proof.
  intros Hn. unfold last_n. rewrite length_drop, length_app. cbn [length]. case_decide as H.
  - rewrite drop_drop, drop_app_le by lia. f_equal. f_equal. lia.
  - replace (length l - n) with 0 by lia. replace (length l + 1 - n) with 0 by lia. done.
Qed.

(** The startup sink holds the last [n] messages of [l]. *)
Lemma sink_it_last n l m b :
  0 < n -> buffer b = last_n n l -> maxBufferSize b = n ->
  sink_it m b = Ret (mkStartup (last_n n (l ++ [m])) n).
Proof.
  intros Hn Hb Hm. unfold sink_it. rewrite <- (last_n_snoc n l m Hn), <- Hb, Hm.
  case_decide as H; [|done]. destruct (buffer b); [cbn in H; lia|done].
Qed.

(** How often a sink occurs, and what logging one message gives it. *)
Definition times (id : nat) (ids : list nat) : nat := length (filter (fun i => i = id) ids).

Arguments times : simpl never.

Lemma times_cons id i ids : times id (i :: ids) = (if decide (i = id) then 1 else 0) + times id ids.
Proof.
  unfold times. destruct (decide (i = id)) as [->|]; [by rewrite filter_cons_True|by rewrite filter_cons_False].
Qed.

Lemma times_app id ids ids' : times id (ids ++ ids') = times id ids + times id ids'.
Proof. unfold times. by rewrite filter_app, length_app. Qed.

Lemma log_to_ids ids m g :
  exists r, log_to (Sink <$> ids) m g = Ret (mkLogger (sinks g) (startup g) r) /\
    forall id, default [] (r !! id) = default [] (received g !! id) ++ replicate (times id ids) m.
Proof.
  revert g. induction ids as [|i ids IH]; intros g; cbn.
  - exists (received g). split; [by destruct g|]. intros id. by rewrite app_nil_r.
  - destruct (IH (mkLogger (sinks g) (startup g) (give i [m] (received g)))) as (r & -> & Hr).
    exists r. split; [done|]. intros id. rewrite Hr, times_cons. cbn. unfold give.
    destruct (decide (i = id)) as [->|Hne].
    + rewrite lookup_insert_eq. cbn. by rewrite <- app_assoc.
    + by rewrite lookup_insert_ne.
Qed.

(** The state after [ops]: the startup sink is first and holds the last [n]
    messages since a sink was added. *)
Record state_after (n : nat) (ops : list Op) (ids : list nat) (g : Logger) : Prop := {
  s_sinks : sinks g = Startup :: (Sink <$> ids);
  s_startup : startup g = mkStartup (last_n n (since ops)) n }.

Lemma since_snoc ops o :
  since (ops ++ [o]) = match o with OLog m => since ops ++ [m] | OAdd _ => [] | ORemove _ => since ops end.
Proof. unfold since. by rewrite foldl_app. Qed.

Lemma filter_sinks id (ids : list nat) :
  filter (fun s => s <> Sink id) (Sink <$> ids) = Sink <$> filter (fun i => i <> id) ids.
Proof.
  induction ids as [|i ids IH]; [done|]. rewrite fmap_cons. destruct (decide (i = id)) as [->|Hne].
  - by rewrite !filter_cons_False by naive_solver.
  - rewrite !filter_cons_True by naive_solver. by rewrite IH.
Qed.

Lemma times_filter id j ids : id <> j -> times id (filter (fun i => i <> j) ids) = times id ids.
Proof.
  intros Hne. induction ids as [|i ids IH]; [done|]. rewrite (times_cons id i).
  destruct (decide (i = j)) as [->|].
  - rewrite filter_cons_False by naive_solver. by rewrite decide_False by congruence.
  - rewrite filter_cons_True by done. by rewrite times_cons, IH.
Qed.

Lemma remove_ok n ops ids g i :
  state_after n ops ids g ->
  state_after n (ops ++ [ORemove i]) (filter (fun j => j <> i) ids) (RemoveSink i g).
Proof.
  intros [Hs Hb]. split; cbn; [rewrite Hs, filter_cons_True by done; by rewrite filter_sinks|rewrite Hb, since_snoc; done].
Qed.

(** One operation: it returns, and each sink it does not name receives the
    logged message as often as it is installed. *)
Lemma apply_op_ok n ops ids g o :
  0 < n -> state_after n ops ids g ->
  exists ids' g', apply_op o g = Ret g' /\ state_after n (ops ++ [o]) ids' g' /\
    forall id, ~ mentions id o ->
      times id ids' = times id ids /\
      default [] (received g' !! id) =
        default [] (received g !! id) ++ mjoin (replicate (times id ids) (logged [o])).
Proof.
  intros Hn [Hs Hb]. destruct o as [m|i|i]; cbn.
  - unfold log. rewrite Hs. cbn [log_to]. rewrite (sink_it_last n (since ops)) by (done || by rewrite Hb).
    cbn [obind].
    edestruct (log_to_ids ids m) as (r & Hr & Hrec). rewrite Hr. exists ids. eexists. split; [done|]. split.
    + split; cbn; [done|by rewrite since_snoc].
    + intros id _. split; [done|]. cbn. rewrite Hrec. f_equal. generalize (times id ids) as k.
      induction k as [|k IH]; [done|]. cbn. by rewrite IH.
  - exists (ids ++ [i]). eexists. split; [done|]. split.
    + split; cbn; [by rewrite Hs, fmap_app|rewrite Hb, since_snoc; done].
    + intros id Hne. cbn in Hne. split.
      * rewrite times_app, times_cons, decide_False by done. cbn. unfold times at 2. cbn. lia.
      * cbn. unfold give. rewrite lookup_insert_ne by done.
        generalize (times id ids) as k. intros k. assert (mjoin (replicate k ([] : list Msg)) = []) as ->
          by (induction k; [done|by cbn]). by rewrite app_nil_r.
  - exists (filter (fun j => j <> i) ids). eexists. split; [done|]. split.
    + by apply remove_ok.
    + intros id Hne. cbn in Hne. split; [by apply times_filter|]. cbn.
      generalize (times id ids) as k. intros k. assert (mjoin (replicate k ([] : list Msg)) = []) as ->
        by (induction k; [done|by cbn]). by rewrite app_nil_r.
Qed.

Lemma run_app ops1 ops2 g : run (ops1 ++ ops2) g = (let! g' := run ops1 g in run ops2 g').
Proof.
  revert g. induction ops1 as [|o ops1 IH]; intros g; [done|]. cbn [run app].
  destruct (apply_op o g); cbn; [apply IH|done|done].
Qed.

(** Operations that do not name [id], which is installed [k] times. *)
Lemma run_ok n ops0 ids g id ops :
  0 < n -> state_after n ops0 ids g -> Forall (fun o => ~ mentions id o) ops -> times id ids <= 1 ->
  exists ids' g', run ops g = Ret g' /\ state_after n (ops0 ++ ops) ids' g' /\ times id ids' = times id ids /\
    default [] (received g' !! id) =
      default [] (received g !! id) ++ (if decide (times id ids = 1) then logged ops else []).
Proof.
  intros Hn. revert ops0 ids g. induction ops as [|o ops IH]; intros ops0 ids g Hg Hf Ht.
  { exists ids, g. rewrite app_nil_r. split_and!; [done|done|done|]. destruct (decide _); by rewrite app_nil_r. }
  apply Forall_cons in Hf as [Ho Hf].
  destruct (apply_op_ok n ops0 ids g o Hn Hg) as (ids1 & g1 & H1 & Hg1 & Hid).
  destruct (Hid id Ho) as [Ht1 Hr1].
  destruct (IH (ops0 ++ [o]) ids1 g1 Hg1 Hf) as (ids2 & g2 & H2 & Hg2 & Ht2 & Hr2); [by rewrite Ht1|].
  exists ids2, g2. cbn [run]. rewrite H1. cbn [obind]. rewrite <- app_assoc in Hg2.
  split_and!; [done|done|congruence|]. rewrite Hr2, Hr1, Ht1. destruct (decide (times id ids = 1)) as [E|E].
  - rewrite E. cbn [replicate mjoin list_join]. rewrite app_nil_r, <- app_assoc. by destruct o.
  - assert (times id ids = 0) as -> by lia. cbn. by rewrite !app_nil_r.
Qed.

Lemma state_init n : state_after n [] [] (InitLogger n).
Proof. done. Qed.

Lemma times_removed id ids : times id (filter (fun i => i <> id) ids) = 0.
Proof.
  unfold times. rewrite list_filter_filter. induction ids as [|i ids IH]; [done|].
  rewrite filter_cons_False; [done|]. by intros [? ?].
Qed.

Lemma history (n id : nat) (ops1 ops2 : list Op) :
  0 < n -> Forall (fun o => ~ mentions id o) (ops1 ++ ops2) ->
  exists ids g, run (ops1 ++ OAdd id :: ops2) (InitLogger n) = Ret g /\
    state_after n ((ops1 ++ [OAdd id]) ++ ops2) ids g /\
    default [] (received g !! id) = last_n n (since ops1) ++ logged ops2.
Proof.
  intros Hn [Hf1 Hf2]%Forall_app.
  destruct (run_ok n [] [] (InitLogger n) id ops1 Hn (state_init n) Hf1) as (ids1 & g1 & H1 & Hg1 & Ht1 & Hr1);
    [change (times id []) with 0; lia|]. change (times id []) with 0 in *. cbn in Hr1.
  destruct (apply_op_ok n ops1 ids1 g1 (OAdd id) Hn Hg1) as (ids2 & g2 & H2 & Hg2 & _).
  cbn in H2. injection H2 as <-.
  assert (times id ids2 = 1) as Ht2.
  { destruct Hg2 as [Hs2 _]. destruct Hg1 as [Hs1 _]. cbn in Hs2. rewrite Hs1 in Hs2. cbn in Hs2.
    injection Hs2 as Hs2. change [Sink id] with (Sink <$> [id]) in Hs2. rewrite <- fmap_app in Hs2.
    apply list_fmap_eq_inj in Hs2; [|by intros ? ? [= ->]]. subst ids2.
    by rewrite times_app, Ht1, times_cons, decide_True by done. }
  destruct (run_ok n (ops1 ++ [OAdd id]) ids2 _ id ops2 Hn Hg2 Hf2) as (ids3 & g3 & H3 & Hg3 & _ & Hr3);
    [lia|]. exists ids3, g3. rewrite run_app, H1. cbn [obind run apply_op]. split_and!; [done|done|].
  rewrite Hr3, Ht2. cbn. unfold give. rewrite lookup_insert_eq. cbn. rewrite Hr1. cbn.
  by rewrite (s_startup _ _ _ _ Hg1).
Qed.

(** C34: what a sink gets to see: with a buffer of [n] > 0 messages logging never
    fails, and a sink that is added once receives, in order and once each, the
    last [n] messages logged since the previous sink was added (all the startup
    messages, for the first sink), followed by everything logged while it is
    installed; once it is removed it receives nothing more. *)
Theorem sink_history (n id : nat) (ops1 ops2 ops3 : list Op) :
  0 < n -> Forall (fun o => ~ mentions id o) (ops1 ++ ops2 ++ ops3) ->
  (exists g, run (ops1 ++ OAdd id :: ops2) (InitLogger n) = Ret g /\
     default [] (received g !! id) = last_n n (since ops1) ++ logged ops2) /\
  (exists g, run ((ops1 ++ OAdd id :: ops2) ++ ORemove id :: ops3) (InitLogger n) = Ret g /\
     default [] (received g !! id) = last_n n (since ops1) ++ logged ops2).
Proof.
  intros Hn. rewrite app_assoc. intros [Hf12 Hf3]%Forall_app.
  destruct (history n id ops1 ops2 Hn Hf12) as (ids & g & Hg & Hs & Hr). split; [by exists g|].
  rewrite run_app, Hg. cbn [obind run apply_op].
  destruct (run_ok n _ _ (RemoveSink id g) id ops3 Hn (remove_ok _ _ _ _ id Hs) Hf3) as (ids' & g' & Hg' & _ & _ & Hr');
    [rewrite times_removed; lia|]. exists g'. split; [done|]. rewrite Hr', times_removed. cbn. by rewrite Hr, app_nil_r.
Qed.

Lemma since_logs ops ms : since (ops ++ (OLog <$> ms)) = since ops ++ ms.
Proof.
  revert ops. induction ms as [|m ms IH]; intros ops; [cbn; by rewrite !app_nil_r|].
  cbn. rewrite (cons_middle (OLog m)), app_assoc, IH, since_snoc. by rewrite <- app_assoc.
Qed.

Lemma logs_mention_none id ms : Forall (fun o => ~ mentions id o) (OLog <$> ms).
Proof. apply Forall_fmap, Forall_true. intros m H. exact H. Qed.

(** The startup buffer is never retired: it keeps collecting after the
    first sink was added, so a second sink gets the messages logged between the
    two additions again, and none of those from before the first. *)
Theorem second_sink_replay (n a b : nat) (early mid : list Msg) :
  0 < n -> a <> b ->
  exists g, run (((OLog <$> early) ++ OAdd a :: (OLog <$> mid)) ++ [OAdd b]) (InitLogger n) = Ret g /\
    default [] (received g !! b) = last_n n mid.
Proof.
  intros Hn Hab. destruct (history n b ((OLog <$> early) ++ OAdd a :: (OLog <$> mid)) []) as (ids & g & Hg & _ & Hr); [done| |].
  - rewrite app_nil_r. apply Forall_app. split; [apply logs_mention_none|].
    constructor; [by cbn|apply logs_mention_none].
  - exists g. split; [done|]. rewrite Hr, app_nil_r. f_equal.
    rewrite (cons_middle (OAdd a)), app_assoc, since_logs, since_snoc. done.
Qed.

End Sinks.

(** ** Names in a log line ([Path.cpp], [Details/Format.cpp]) *)

Definition separators : view := ["/"%char; "\"%char].
Definition dot : view := ["."%char].

(** [Log::Path::GetBasename] and [GetWithoutExtension]. *)
Definition GetBasename (path : view) : option view :=
  match find_last_of separators path with
  | None => Some path
  | Some pos => substr path (pos + 1) (length path)
  end.

Definition GetWithoutExtension (path : view) : option view :=
  match find_last_of dot path with
  | None => Some path
  | Some pos => substr path 0 pos
  end.

(** [spdlog::source_loc] as the formatters use it; [None] is a null pointer. *)
Record source_loc := mkLoc { filename : option view; line : Z; funcname : option view }.

Definition AreaLoggerLine : Z := (-1)%Z.

(** [Logger::Msg] of a logger with an area overwrites file and line. *)
Definition area_loc (area : option view) (loc : source_loc) : source_loc :=
  match area with
  | Some a => mkLoc (Some a) AreaLoggerLine (funcname loc)
  | None => loc
  end.

(** [GetAreaName]: a view made of a null pointer is undefined ([None]). *)
Definition GetAreaName (loc : source_loc) : option view :=
  if decide (line loc = AreaLoggerLine) then filename loc
  else match filename loc with
       | Some f => base ← GetBasename f; GetWithoutExtension base
       | None => Some (sv "<unknown>")
       end.

(** The two loops of [ExtractShortNameWithNamespace]. *)
Fixpoint func_end (s : view) : nat :=
  match s with
  | [] => 0
  | c :: s' => if bool_decide (c = "("%char) then 0 else S (func_end s')
  end.

Definition stops (c : ascii) : bool := bool_decide (c = " "%char) || bool_decide (c = ":"%char).

Fixpoint func_start (s : view) (e : nat) : nat :=
  match e with
  | O => O
  | S e' => match s !! e' with
            | Some c => if stops c then e else func_start s e'
            | None => e
            end
  end.

Definition ExtractShortNameWithNamespace (s : view) : view :=
  let e := func_end s in
  let b := func_start s e in
  take (e - b) (drop b s).

(** [FunctionNameFlagFormatter::format]: what is appended to the line. *)
Definition function_flag (loc : source_loc) : option view :=
  match funcname loc with
  | None => Some []
  | Some f =>
    area ← GetAreaName loc;
    let shortName := ExtractShortNameWithNamespace f in
    Some (if decide (area = shortName) then [] else shortName ++ sv ": ")
  end.

Lemma func_end_spec s :
  exists rest, s = take (func_end s) s ++ rest /\ ("("%char ∉ take (func_end s) s) /\
    (rest = [] \/ exists r, rest = "("%char :: r) /\ func_end s <= length s.
Proof.
  induction s as [|c s IH]; [exists []; cbn; split_and!; [done|apply not_elem_of_nil|by left|lia]|].
  cbn. case_bool_decide as Hc; cbn.
  - exists (c :: s). split_and!; [done|apply not_elem_of_nil|right; exists s; by subst|lia].
  - destruct IH as (r & Hs & Hn & Hr & Hl). exists r. split_and!; [by rewrite <- Hs| |done|lia].
    by apply not_elem_of_cons.
Qed.

Lemma func_start_spec s e :
  e <= length s ->
  func_start s e <= e /\
  (forall i c, func_start s e <= i < e -> s !! i = Some c -> stops c = false) /\
  (func_start s e = 0 \/ exists k c, func_start s e = S k /\ s !! k = Some c /\ stops c = true).
Proof.
  induction e as [|e IH]; intros He; cbn; [split_and!; [lia|intros; lia|by left]|].
  destruct (lookup_lt_is_Some_2 s e) as [c Hc]; [lia|]. rewrite Hc.
  destruct (stops c) eqn:Es.
  - split_and!; [lia|intros; lia|right]. by exists e, c.
  - destruct IH as (H1 & H2 & H3); [lia|]. split_and!; [lia| |done].
    intros i d Hi Hd. destruct (decide (i = e)) as [->|]; [congruence|]. apply (H2 i d); [lia|done].
Qed.

(** The short name of a function is the longest piece without space and
    colon that ends at the first opening parenthesis (or at the end). *)
Theorem short_name_spec (s : view) :
  exists pre post, let name := ExtractShortNameWithNamespace s in
    s = pre ++ name ++ post /\ ("("%char ∉ pre ++ name) /\
    (post = [] \/ exists r, post = "("%char :: r) /\
    Forall (fun c => stops c = false) name /\
    (pre = [] \/ exists p c, pre = p ++ [c] /\ stops c = true).
Proof.
  destruct (func_end_spec s) as (rest & Hs & Hn & Hr & Hl).
  destruct (func_start_spec s (func_end s) Hl) as (Hb & Hmid & Hstart).
  set (e := func_end s) in *. set (b := func_start s e) in *.
  assert (take e s = take b s ++ take (e - b) (drop b s)) as Ht.
  { rewrite take_drop_commute. replace (b + (e - b)) with e by lia.
    rewrite <- (take_drop b (take e s)) at 1. by rewrite take_take, Nat.min_l by lia. }
  exists (take b s), rest. unfold ExtractShortNameWithNamespace. fold e. fold b. cbv zeta. split_and!.
  - rewrite Hs at 1. by rewrite Ht, <- app_assoc.
  - by rewrite <- Ht.
  - done.
  - apply Forall_lookup. intros i c Hi. apply lookup_take_Some in Hi as [Hi Hlt].
    rewrite lookup_drop in Hi. apply (Hmid (b + i) c); [lia|done].
  - destruct Hstart as [Hz|(k & c & Hk & Hc & Hst)]; [left; by rewrite Hz|right].
    exists (take k s), c. split; [|done]. rewrite Hk. by apply take_succ_snoc.
Qed.

(** The last occurrence of a character in a two-part string. *)
Lemma find_last_of_split chars l c r :
  c ∈ chars -> Forall (fun d => d ∉ chars) r ->
  find_last_of chars (l ++ c :: r) = Some (length l).
Proof.
  intros Hc Hr. unfold find_last_of. destruct (l ++ c :: r) eqn:E; [by destruct l|]. rewrite <- E.
  apply (scan_back_last _ _ _ _ c).
  - rewrite length_app. cbn. lia.
  - rewrite lookup_app_r by lia. by rewrite Nat.sub_diag.
  - by apply bool_decide_eq_true.
  - intros k d [Hk _] Hd. apply bool_decide_eq_false. rewrite lookup_app_r in Hd by lia.
    destruct (k - length l) as [|j] eqn:Ek; [lia|]. cbn in Hd.
    rewrite Forall_forall in Hr. apply Hr. by eapply list_elem_of_lookup_2.
Qed.

Lemma find_last_of_absent chars s : Forall (fun d => d ∉ chars) s -> find_last_of chars s = None.
Proof.
  intros Hs. unfold find_last_of. destruct s as [|c s]; [done|]. apply scan_back_absent.
  intros k d _ Hd. apply bool_decide_eq_false. rewrite Forall_forall in Hs.
  apply Hs. by eapply list_elem_of_lookup_2.
Qed.

Lemma basename_of dir c name :
  c ∈ separators -> Forall (fun d => d ∉ separators) name -> GetBasename (dir ++ c :: name) = Some name.
Proof.
  intros Hc Hn. unfold GetBasename. rewrite find_last_of_split by done.
  unfold substr. rewrite decide_True by (rewrite length_app; cbn; lia).
  rewrite drop_app_ge by lia. replace (length dir + 1 - length dir) with 1 by lia. cbn.
  rewrite drop_0. f_equal. apply take_ge. rewrite length_app. cbn. lia.
Qed.

Lemma without_extension_of stem ext :
  Forall (fun d => d ∉ dot) ext -> GetWithoutExtension (stem ++ "."%char :: ext) = Some stem.
Proof.
  intros He. unfold GetWithoutExtension. rewrite find_last_of_split; [|set_solver|done].
  unfold substr. rewrite decide_True by lia. rewrite drop_0. f_equal. by rewrite take_app_length.
Qed.

(** The area of a message: the name given to an area logger, verbatim; for
    a message with a source file [dir/stem.ext] the [stem], whichever of the two
    separators the compiler used. *)
Theorem area_name (area dir stem ext : view) (c : ascii) (l : Z) (f : option view) (loc : source_loc) :
  c ∈ separators -> l <> AreaLoggerLine ->
  Forall (fun d => d ∉ separators) (stem ++ "."%char :: ext) -> Forall (fun d => d ∉ dot) ext ->
  GetAreaName (area_loc (Some area) loc) = Some area /\
  GetAreaName (mkLoc (Some (dir ++ c :: stem ++ "."%char :: ext)) l f) = Some stem.
Proof.
  intros Hc Hl Hs He. split; unfold GetAreaName; cbn [line area_loc filename].
  - by rewrite decide_True.
  - rewrite decide_False by done. rewrite basename_of by done. cbn. by apply without_extension_of.
Qed.

(** A parenthesis in the return type is taken for that of the parameter
    list: the name printed for such a function is a piece of its return type. *)
Theorem short_name_of_function_type :
  ExtractShortNameWithNamespace (sv "std::function<void(int)> Net::MakeHandler()") = sv "function<void".
Proof. reflexivity. Qed.

(** ** Witnesses *)

(** A buffer of two: the first sink gets the last two startup messages, a
    second one only those logged after the first was added. *)
Lemma sink_history_witness :
  (exists g, run ([OLog 1; OLog 2; OLog 3] ++ OAdd 7 :: [OLog 4; OLog 5]) (InitLogger 2) = Ret g /\
     default [] (received g !! 7) = [2; 3; 4; 5]) /\
  (exists g, run (([OLog 1; OLog 2; OLog 3] ++ OAdd 7 :: [OLog 4; OLog 5]) ++ ORemove 7 :: [OLog 6]) (InitLogger 2) = Ret g /\
     default [] (received g !! 7) = [2; 3; 4; 5]).
Proof.
  apply (sink_history 2 7 [OLog 1; OLog 2; OLog 3] [OLog 4; OLog 5] [OLog 6]); [lia|].
  repeat constructor; cbn; tauto.
Defined.

Lemma second_sink_replay_witness :
  exists g, run (((OLog <$> [1; 2]) ++ OAdd 7 :: (OLog <$> [3; 4; 5])) ++ [OAdd 8]) (InitLogger 2) = Ret g /\
    default [] (received g !! 8) = [4; 5].
Proof. apply (second_sink_replay 2 7 8 [1; 2] [3; 4; 5]); lia. Defined.

Lemma area_name_witness :
  GetAreaName (area_loc (Some (sv "net")) (mkLoc None 3 None)) = Some (sv "net") /\
  GetAreaName (mkLoc (Some (sv "src\pkg/exec/Domain.cpp")) 12 None) = Some (sv "Domain").
Proof.
  apply (area_name (sv "net") (sv "src\pkg/exec") (sv "Domain") (sv "cpp") "/"%char 12 None (mkLoc None 3 None));
    [set_solver|done|vm_compute; repeat constructor; set_solver|vm_compute; repeat constructor; set_solver].
Defined.
