(* ===== verification/FsDrive.v ===== *)
(** * [Fs]: drives

    [src/pkg/fs/Fs]: [Drive.h] and its implementations [NativeDrive],
    [OverlayDrive], [RunfilesDrive], [AndroidDrive], and [System.cpp]. The file
    system, the runfiles library and the asset manager are parameters. A drive is
    a record of its three operations; a read works on the caller's buffer. *)

From Stdlib Require Import Strings.Ascii Strings.Byte.
From S2P Require Import Prelude.

(** The [std::errc] values the drives return, and others from the system. *)
Inductive errc := no_such_file_or_directory | not_supported | io_error | os_error (n : nat).

Abbreviation path := string.

(** The results of [Drive] are [std::expected]; [None]: the call has thrown, as
    [fs::exists(path)] does when the system cannot tell. *)
Abbreviation result A := (option (expected A errc)).

(** [Drive]; [ReadAllTo] also gives the buffer after the call. *)
Record Drive := mkDrive {
  GetNativePath : path -> result path;
  GetSize : path -> result nat;
  ReadAllTo : path -> list byte -> result nat * list byte }.

(** ** Paths *)

Definition is_absolute (p : path) : bool :=
  match p with String c _ => bool_decide (c = "/"%char) | EmptyString => false end.

Fixpoint ends_with_slash (p : path) : bool :=
  match p with
  | EmptyString => false
  | String c EmptyString => bool_decide (c = "/"%char)
  | String _ p' => ends_with_slash p'
  end.

(** [prefix / path] of [std::filesystem] (POSIX). *)
Definition join (prefix p : path) : path :=
  if is_absolute p then p
  else if bool_decide (prefix = EmptyString) || ends_with_slash prefix then prefix +:+ p
  else prefix +:+ "/" +:+ p.

(** A read of [content] into a buffer: as much as fits; the rest of the buffer
    is left. *)
Definition read_into (content buf : list byte) : nat * list byte :=
  let n := min (length buf) (length content) in (n, take n content ++ drop n buf).

(** ** NativeDrive *)

Section Native.
(** The file system: [fs::exists] ([None]: it throws), [fs::file_size], and what
    an opened [std::ifstream] reads ([None]: it does not open). *)
Context (fs_exists : path -> option bool) (file_size : path -> expected nat errc) (ifstream : path -> option (list byte)).
Context (prefixPaths : list path).

(** The loop over [_prefixPaths]; [Some None] when it comes to its end. *)
Fixpoint find_prefix (l : list path) (p : path) : option (option path) :=
  match l with
  | [] => Some None
  | prefix :: l' =>
    let full := join prefix p in
    match fs_exists full with
    | None => None
    | Some true => Some (Some full)
    | Some false => find_prefix l' p
    end
  end.

Definition native_GetNativePath (p : path) : result path :=
  if is_absolute p then
    match fs_exists p with
    | None => None
    | Some true => Some (Value p)
    | Some false => Some (Unexpected no_such_file_or_directory)
    end
  else match find_prefix prefixPaths p with
       | None => None
       | Some (Some full) => Some (Value full)
       | Some None => Some (Unexpected no_such_file_or_directory)
       end.

Definition native_GetSize (p : path) : result nat :=
  match native_GetNativePath p with
  | None => None
  | Some (Unexpected e) => Some (Unexpected e)
  | Some (Value full) => Some (file_size full)
  end.

Definition native_ReadAllTo (p : path) (buf : list byte) : result nat * list byte :=
  match native_GetNativePath p with
  | None => (None, buf)
  | Some (Unexpected e) => (Some (Unexpected e), buf)
  | Some (Value full) =>
    match ifstream full with
    | None => (Some (Unexpected no_such_file_or_directory), buf)
    | Some content => let '(n, buf') := read_into content buf in (Some (Value n), buf')
    end
  end.

Definition NativeDrive : Drive := mkDrive native_GetNativePath native_GetSize native_ReadAllTo.

(** The candidates of a path, in order. *)
Definition candidates (p : path) : list path :=
  if is_absolute p then [p] else (fun prefix => join prefix p) <$> prefixPaths.

(** The first candidate whose existence is not denied. *)
Lemma find_prefix_spec l p :
  match find_prefix l p with
  | Some (Some full) => exists c1 c2, ((fun q => join q p) <$> l) = c1 ++ full :: c2 /\
      fs_exists full = Some true /\ Forall (fun c => fs_exists c = Some false) c1
  | Some None => Forall (fun c => fs_exists c = Some false) ((fun q => join q p) <$> l)
  | None => exists c1 c c2, ((fun q => join q p) <$> l) = c1 ++ c :: c2 /\
      fs_exists c = None /\ Forall (fun c => fs_exists c = Some false) c1
  end.
Proof.
  induction l as [|q l IH]; cbn; [constructor|]. destruct (fs_exists (join q p)) as [[|]|] eqn:E.
  - exists [], ((fun q => join q p) <$> l). by split_and!.
  - destruct (find_prefix l p) as [[full|]|].
    + destruct IH as (c1 & c2 & -> & ? & ?). exists (join q p :: c1), c2. split_and!; [done|done|by constructor].
    + by constructor.
    + destruct IH as (c1 & c & c2 & -> & ? & ?). exists (join q p :: c1), c, c2. split_and!; [done|done|by constructor].
  - exists [], (join q p), ((fun q => join q p) <$> l). by split_and!.
Qed.

(** C32: the candidates of a path (itself if it is absolute, else [prefix / path]
    for the prefixes in order) are asked one after the other: the first that
    exists is the native path; one for which [fs::exists] throws before that
    ends the lookup with the exception; the error is returned exactly when none
    exists. *)
Theorem native_lookup_order (p : path) :
  match native_GetNativePath p with
  | Some (Value full) => exists c1 c2, candidates p = c1 ++ full :: c2 /\ fs_exists full = Some true /\
      Forall (fun c => fs_exists c = Some false) c1
  | Some (Unexpected e) => e = no_such_file_or_directory /\
      Forall (fun c => fs_exists c = Some false) (candidates p)
  | None => exists c1 c c2, candidates p = c1 ++ c :: c2 /\ fs_exists c = None /\
      Forall (fun c => fs_exists c = Some false) c1
  end.
Proof.
  unfold native_GetNativePath, candidates. destruct (is_absolute p).
  - destruct (fs_exists p) as [[|]|] eqn:E.
    + by exists [], [].
    + split; [done|]. by repeat constructor.
    + by exists [], p, [].
  - pose proof (find_prefix_spec prefixPaths p) as H. by destruct (find_prefix prefixPaths p) as [[full|]|].
Qed.

Lemma native_path_idempotent p full :
  native_GetNativePath p = Some (Value full) -> is_absolute full = true -> native_GetNativePath full = Some (Value full).
Proof.
  unfold native_GetNativePath. intros Hp ->. assert (fs_exists full = Some true) as ->; [|done].
  pose proof (find_prefix_spec prefixPaths p) as Hs. destruct (is_absolute p).
  - destruct (fs_exists p) as [[|]|] eqn:E; by simplify_eq.
  - destruct (find_prefix prefixPaths p) as [[f|]|]; simplify_eq. by destruct Hs as (c1 & c2 & _ & He & _).
Qed.

End Native.

(** ** OverlayDrive

    [_drives] may hold null pointers. The three loops are the same: the first
    success, else the last error; an exception ends the loop. *)

Fixpoint first_success {A} (last : errc) (l : list (result A)) : result A :=
  match l with
  | [] => Some (Unexpected last)
  | None :: _ => None
  | Some (Value a) :: _ => Some (Value a)
  | Some (Unexpected e) :: l' => first_success e l'
  end.

Definition overlay_GetNativePath (ds : list (option Drive)) (p : path) : result path :=
  first_success no_such_file_or_directory (omap (fun o => d ← o; Some (GetNativePath d p)) ds).

Definition overlay_GetSize (ds : list (option Drive)) (p : path) : result nat :=
  first_success no_such_file_or_directory (omap (fun o => d ← o; Some (GetSize d p)) ds).

(** A failed read may have written into the buffer the next drive gets. *)
Fixpoint overlay_read (last : errc) (ds : list (option Drive)) (p : path) (buf : list byte)
  : result nat * list byte :=
  match ds with
  | [] => (Some (Unexpected last), buf)
  | None :: ds' => overlay_read last ds' p buf
  | Some d :: ds' =>
    match ReadAllTo d p buf with
    | (None, buf') => (None, buf')
    | (Some (Value n), buf') => (Some (Value n), buf')
    | (Some (Unexpected e), buf') => overlay_read e ds' p buf'
    end
  end.

Definition OverlayDrive (ds : list (option Drive)) : Drive :=
  mkDrive (overlay_GetNativePath ds) (overlay_GetSize ds)
          (overlay_read no_such_file_or_directory ds).

Lemma first_success_app {A} e (l1 l2 : list (result A)) :
  first_success e (l1 ++ l2) =
  match first_success e l1 with Some (Unexpected e') => first_success e' l2 | r => r end.
Proof. revert e. induction l1 as [|[[a|e']|] l1 IH]; intros e; cbn; auto. Qed.

Lemma overlay_read_app e ds1 ds2 p buf :
  overlay_read e (ds1 ++ ds2) p buf =
  match overlay_read e ds1 p buf with
  | (Some (Unexpected e'), b) => overlay_read e' ds2 p b
  | r => r
  end.
Proof.
  revert e buf. induction ds1 as [|[d|] ds1 IH]; intros e buf; cbn; auto.
  destruct (ReadAllTo d p buf) as [[[n|e']|] b]; auto.
Qed.

(** Equality of drives, operation by operation. *)
Definition drive_eq (d1 d2 : Drive) : Prop :=
  (forall p, GetNativePath d1 p = GetNativePath d2 p) /\ (forall p, GetSize d1 p = GetSize d2 p) /\
  (forall p buf, ReadAllTo d1 p buf = ReadAllTo d2 p buf).

#[global] Instance drive_eq_equiv : Equivalence drive_eq.
Proof. split; unfold drive_eq; repeat intro; intuition congruence. Qed.

(** An overlay of overlays is the overlay of all their drives, in order, for
    each of the three operations and every error, as long as another drive
    follows or the inner overlay is the only one. *)
Theorem overlay_flatten (inner : list (option Drive)) (d : Drive) (outer : list (option Drive)) :
  drive_eq (OverlayDrive (Some (OverlayDrive inner) :: Some d :: outer))
           (OverlayDrive (inner ++ Some d :: outer)) /\
  drive_eq (OverlayDrive [Some (OverlayDrive inner)]) (OverlayDrive inner).
Proof.
  split; split_and!; intros p; cbn.
  - unfold overlay_GetNativePath. rewrite omap_app, first_success_app. cbn.
    by destruct (first_success no_such_file_or_directory _) as [[|]|].
  - unfold overlay_GetSize. rewrite omap_app, first_success_app. cbn.
    by destruct (first_success no_such_file_or_directory _) as [[|]|].
  - intros buf. rewrite overlay_read_app. cbn.
    destruct (overlay_read no_such_file_or_directory inner p buf) as [[[n|e]|] b]; done.
  - unfold overlay_GetNativePath. cbn. by destruct (first_success no_such_file_or_directory _) as [[|]|].
  - unfold overlay_GetSize. cbn. by destruct (first_success no_such_file_or_directory _) as [[|]|].
  - intros buf. by destruct (overlay_read no_such_file_or_directory inner p buf) as [[[n|e]|] b].
Qed.

(** A drive is coherent when the size it reports is what a read into a large
    enough buffer returns, and a read that fails or throws leaves the buffer
    alone. *)
Definition coherent (d : Drive) : Prop :=
  forall p buf,
    match GetSize d p with
    | Some (Value n) => ReadAllTo d p buf = (Some (Value (min (length buf) n)), (ReadAllTo d p buf).2)
    | Some (Unexpected _) => exists e, ReadAllTo d p buf = (Some (Unexpected e), buf)
    | None => ReadAllTo d p buf = (None, buf)
    end.

Lemma native_coherent fs_exists file_size ifstream prefixes :
  (forall p, match ifstream p with
             | Some c => file_size p = Value (length c)
             | None => exists e, file_size p = Unexpected e end) ->
  coherent (NativeDrive fs_exists file_size ifstream prefixes).
Proof.
  intros Hfs p buf. cbn. unfold native_GetSize, native_ReadAllTo.
  destruct (native_GetNativePath _ _ p) as [[full|e]|]; [|by exists e|done].
  specialize (Hfs full). destruct (ifstream full) as [c|].
  - rewrite Hfs. done.
  - destruct Hfs as [e ->]. by eexists.
Qed.

Lemma overlay_coherent_from e e' ds p buf :
  Forall (fun o => forall d, o = Some d -> coherent d) ds ->
  match first_success e (omap (fun o => d ← o; Some (GetSize d p)) ds) with
  | Some (Value n) => overlay_read e' ds p buf = (Some (Value (min (length buf) n)), (overlay_read e' ds p buf).2)
  | Some (Unexpected _) => exists e2, overlay_read e' ds p buf = (Some (Unexpected e2), buf)
  | None => overlay_read e' ds p buf = (None, buf)
  end.
Proof.
  intros Hf. revert e e'. induction Hf as [|o ds Ho _ IH]; intros e e'; cbn; [by exists e'|].
  destruct o as [d|]; cbn; [|apply IH]. specialize (Ho d eq_refl p buf).
  destruct (GetSize d p) as [[n|e1]|]; cbn.
  - rewrite Ho. done.
  - destruct Ho as [e2 ->]. apply IH.
  - rewrite Ho. done.
Qed.

(** Size and content agree through an overlay: when each drive reports the
    size of what it reads, so does the overlay, that is, both operations choose
    the same drive. *)
Theorem overlay_coherent (ds : list (option Drive)) :
  Forall (fun o => forall d, o = Some d -> coherent d) ds -> coherent (OverlayDrive ds).
Proof. intros Hf p buf. by apply (overlay_coherent_from _ _ ds p buf). Qed.

(** A native read never fails for lack of space: it returns the number of
    bytes copied, the smaller of the file and the buffer, puts them at the front
    of the buffer and leaves the rest; a file larger than the buffer is
    truncated without an error. *)
Theorem native_read (fs_exists : path -> option bool) (file_size : path -> expected nat errc)
    (ifstream : path -> option (list byte)) (prefixes : list path) (p full : path) (content buf : list byte) :
  native_GetNativePath fs_exists prefixes p = Some (Value full) -> ifstream full = Some content ->
  exists n buf', ReadAllTo (NativeDrive fs_exists file_size ifstream prefixes) p buf = (Some (Value n), buf') /\
    n = min (length buf) (length content) /\ length buf' = length buf /\
    take n buf' = take n content /\ drop n buf' = drop n buf.
Proof.
  intros Hp Hc. cbn. unfold native_ReadAllTo, read_into. rewrite Hp, Hc.
  set (n := min (length buf) (length content)). exists n, (take n content ++ drop n buf).
  assert (length (take n content) = n) as Hn by (rewrite length_take; lia).
  split_and!; [done|done|rewrite length_app, length_drop, Hn; lia| |].
  - by rewrite take_app_length' by done.
  - by rewrite drop_app_length' by done.
Qed.

(** ** RunfilesDrive *)

Section Runfiles.
(** [Runfiles::Rlocation] of the runfiles library, if it could be created;
    [MakeDefaultDrive] has replaced a missing native drive. *)
Context (runfiles : option (string -> string)) (workspaceName : string) (nativeDrive : Drive).

Definition IsSupported : bool := match runfiles with Some _ => true | None => false end.

Definition runfiles_GetNativePath (p : path) : result path :=
  match runfiles with
  | None => Some (Unexpected not_supported)
  | Some Rlocation =>
    let nativePath := Rlocation (workspaceName +:+ "/" +:+ p) in
    if bool_decide (nativePath = EmptyString) then Some (Unexpected no_such_file_or_directory)
    else GetNativePath nativeDrive nativePath
  end.

Definition runfiles_GetSize (p : path) : result nat :=
  match runfiles_GetNativePath p with
  | None => None
  | Some (Unexpected e) => Some (Unexpected e)
  | Some (Value full) => GetSize nativeDrive full
  end.

Definition runfiles_ReadAllTo (p : path) (buf : list byte) : result nat * list byte :=
  match runfiles_GetNativePath p with
  | None => (None, buf)
  | Some (Unexpected e) => (Some (Unexpected e), buf)
  | Some (Value full) => ReadAllTo nativeDrive full buf
  end.

Definition RunfilesDrive : Drive := mkDrive runfiles_GetNativePath runfiles_GetSize runfiles_ReadAllTo.

(** The runfiles drive is coherent over a coherent native drive, and without
    the runfiles library every operation reports [not_supported]. *)
Theorem runfiles_coherent :
  coherent nativeDrive ->
  coherent RunfilesDrive /\
  (IsSupported = false -> forall p buf,
     GetNativePath RunfilesDrive p = Some (Unexpected not_supported) /\
     GetSize RunfilesDrive p = Some (Unexpected not_supported) /\
     ReadAllTo RunfilesDrive p buf = (Some (Unexpected not_supported), buf)).
Proof.
  intros Hn. split.
  - intros p buf. cbn. unfold runfiles_GetSize, runfiles_ReadAllTo.
    destruct (runfiles_GetNativePath p) as [[full|e]|]; [apply Hn|by exists e|done].
  - intros Hs p buf. cbn. unfold runfiles_GetSize, runfiles_ReadAllTo, runfiles_GetNativePath.
    unfold IsSupported in Hs. by destruct runfiles.
Qed.

End Runfiles.

(** ** AndroidDrive *)

Section Android.
(** The asset manager: opening an asset gives its length and what a read into
    a buffer returns (negative on failure) and leaves in the buffer. *)
Record Asset := mkAsset { getLength : nat; asset_read : list byte -> Z * list byte }.
Context (assetManager : option (path -> option Asset)).

Definition android_GetNativePath (p : path) : result path := Some (Unexpected not_supported).

Definition android_GetSize (p : path) : result nat :=
  match assetManager with
  | None => Some (Unexpected not_supported)
  | Some open => match open p with
                 | None => Some (Unexpected no_such_file_or_directory)
                 | Some a => Some (Value (getLength a))
                 end
  end.

Definition android_ReadAllTo (p : path) (buf : list byte) : result nat * list byte :=
  match assetManager with
  | None => (Some (Unexpected not_supported), buf)
  | Some open =>
    match open p with
    | None => (Some (Unexpected no_such_file_or_directory), buf)
    | Some a => let '(n, buf') := asset_read a buf in
                if (n <? 0)%Z then (Some (Unexpected io_error), buf') else (Some (Value (Z.to_nat n)), buf')
    end
  end.

Definition AndroidDrive : Drive := mkDrive android_GetNativePath android_GetSize android_ReadAllTo.

End Android.

(** ** System *)

(** [System::MakeDefaultDrive]: the current directory, then the directory of
    the executable if the arguments are known; on Android the assets first. *)
Definition default_prefixes (cwd : path) (exe_dir : option path) : list path :=
  cwd :: match exe_dir with Some d => [d] | None => [] end.

Definition MakeDefaultDrive fs_exists file_size ifstream (android : option (option (path -> option Asset)))
    (cwd : path) (exe_dir : option path) : Drive :=
  let native := NativeDrive fs_exists file_size ifstream (default_prefixes cwd exe_dir) in
  match android with
  | None => native
  | Some assetManager => OverlayDrive [Some (AndroidDrive assetManager); Some native]
  end.

(** On Android an asset shadows a file of the same name for size and
    content, but native paths always come from the file system, and when there
    is no such asset everything is as without assets. *)
Theorem default_drive_assets fs_exists file_size ifstream (open : path -> option Asset) (cwd : path)
    (exe_dir : option path) (p : path) (buf : list byte) :
  let native := MakeDefaultDrive fs_exists file_size ifstream None cwd exe_dir in
  let drive := MakeDefaultDrive fs_exists file_size ifstream (Some (Some open)) cwd exe_dir in
  GetNativePath drive p = GetNativePath native p /\
  match open p with
  | Some a => GetSize drive p = Some (Value (getLength a)) /\
      (asset_read a buf = (Z.of_nat (getLength a), (asset_read a buf).2) ->
       ReadAllTo drive p buf = (Some (Value (getLength a)), (asset_read a buf).2))
  | None => GetSize drive p = GetSize native p /\ ReadAllTo drive p buf = ReadAllTo native p buf
  end.
Proof.
  cbn -[native_GetNativePath native_GetSize native_ReadAllTo].
  unfold overlay_GetNativePath, overlay_GetSize, android_GetSize, android_ReadAllTo.
  cbn -[native_GetNativePath native_GetSize native_ReadAllTo]. split; [by destruct (native_GetNativePath _ _ p) as [[|]|]|].
  destruct (open p) as [a|]; cbn -[native_GetNativePath native_GetSize native_ReadAllTo].
  - split; [done|]. intros ->. cbn. rewrite (proj2 (Z.ltb_ge _ _)) by lia. by rewrite Nat2Z.id.
  - split; [by destruct (native_GetSize _ _ _ p) as [[|]|]|]. by destruct (native_ReadAllTo _ _ _ p buf) as [[[|]|] ?].
Qed.

(** ** Witnesses *)

Module Demo.

(** A file system with three files. *)
Definition files : gmap path (list byte) :=
  <["/app/data.bin" := [x01; x02; x03]]> (<["/cwd/data.bin" := [x09]]> (<["/cwd/only" := [x07]]> ∅)).
Definition ifstream (p : path) : option (list byte) := files !! p.
(** The directory [/secret] cannot be searched. *)
Definition fs_exists (p : path) : option bool :=
  if String.prefix "/secret/" p then None else Some (bool_decide (is_Some (files !! p))).
Definition file_size (p : path) : expected nat errc :=
  match files !! p with Some c => Value (length c) | None => Unexpected no_such_file_or_directory end.
Definition drive (prefixes : list path) : Drive := NativeDrive fs_exists file_size ifstream prefixes.

Lemma drive_coherent prefixes : coherent (drive prefixes).
Proof.
  apply native_coherent. intros p. unfold ifstream, file_size.
  destruct (files !! p); [done|by eexists].
Qed.

Lemma native_read_witness :
  exists n buf', ReadAllTo (drive ["/cwd"; "/app"]) "data.bin" [x00; x00] = (Some (Value n), buf') /\
    n = 1 /\ length buf' = 2 /\ take n buf' = take n [x09] /\ drop n buf' = drop n [x00; x00].
Proof.
  apply (native_read fs_exists file_size ifstream ["/cwd"; "/app"] "data.bin" "/cwd/data.bin" [x09] [x00; x00]);
    reflexivity.
Defined.

Lemma overlay_coherent_witness :
  coherent (OverlayDrive [Some (drive ["/nowhere"]); None; Some (drive ["/app"])]) /\
  GetSize (OverlayDrive [Some (drive ["/nowhere"]); None; Some (drive ["/app"])]) "data.bin" = Some (Value 3).
Proof.
  split; [|reflexivity]. apply (overlay_coherent [Some (drive ["/nowhere"]); None; Some (drive ["/app"])]).
  repeat constructor; intros d [= <-]; apply drive_coherent.
Defined.

Lemma runfiles_coherent_witness :
  coherent (RunfilesDrive (Some (fun p => "/app/" +:+ p)) "ws" (drive [])) /\
  GetSize (RunfilesDrive None "ws" (drive [])) "data.bin" = Some (Unexpected not_supported).
Proof.
  split; [apply (runfiles_coherent (Some (fun p => "/app/" +:+ p)) "ws" (drive []) (drive_coherent []))|].
  apply (proj2 (runfiles_coherent None "ws" (drive []) (drive_coherent [])) eq_refl "data.bin" []).
Defined.

(** A prefix that cannot be searched hides the prefixes after it. *)
Example unreadable_prefix_throws :
  GetNativePath (drive ["/secret"; "/app"]) "data.bin" = None /\
  GetNativePath (drive ["/cwd"; "/secret"]) "data.bin" = Some (Value "/cwd/data.bin").
Proof. split; reflexivity. Qed.

End Demo.
