(* ===== verification/SigWire.v ===== *)
(** * The signaling wire: envelopes and negotiation payloads

    The JSON texts that cross the signaling channel: the envelope
    [{"id", "payload"}] of [DcWsSigClient.cpp] and [DcWsSigServer.cpp], and the
    offer, answer and candidate payloads of [DcRtcLink.cpp], [DcRtcTransport.cpp]
    and [JsRtcTransport.cpp]. nlohmann::json is not part of the repository: it is
    the interface [JsonLib], with the documented behaviour the code relies on as
    the laws [JsonLaws]; [Toy] is one implementation of both. *)

From Stdlib Require Import Strings.Ascii.
From S2P Require Import Prelude.

Open Scope outcome_scope.

(** ** The library's interface *)

(** [None] is [is_discarded()] for [parse], [end()] for [find] and a thrown
    [type_error] for [dump] (a string that is not UTF-8), [get_string]
    ([get<std::string>()]) and [value] ([j.value(key, default)]). *)
Class JsonLib (J : Type) := {
  parse : string -> option J;
  dump : J -> option string;
  of_string : string -> J;
  object : list (string * string) -> J;
  is_object : J -> bool;
  find : J -> string -> option J;
  get_string : J -> option string;
  value : J -> string -> string -> option string;
  utf8 : string -> bool }.

Class JsonLaws (J : Type) `{JsonLib J} := {
  object_is_object kvs : is_object (object kvs) = true;
  find_object kvs k : NoDup kvs.*1 ->
    find (object kvs) k = of_string <$> (list_to_map kvs : gmap string string) !! k;
  find_other j k : is_object j = false -> find j k = None;
  get_of_string s : get_string (of_string s) = Some s;
  value_object j k d : is_object j = true ->
    value j k d = match find j k with Some v => get_string v | None => Some d end;
  value_other j k d : is_object j = false -> value j k d = None;
  dump_object kvs : NoDup kvs.*1 -> Forall (fun kv => utf8 kv.1 = true /\ utf8 kv.2 = true) kvs ->
    exists text, dump (object kvs) = Some text /\ parse text = Some (object kvs) /\ utf8 text = true }.

(** [rtc::message_variant], the argument of the [onMessage] callbacks. *)
Inductive frame := Text (s : string) | Binary (b : string).

Section Wire.
Context {J : Type} {JL : JsonLib J} {JW : JsonLaws J}.

(** ** Envelopes *)

(** [{{"id", peer}, {"payload", payload}}], dumped: [DcWsSigUser::Send] with the
    addressee, [WsClientHandler::OnMessage] with the sender. *)
Definition envelope (peer payload : string) : option string :=
  dump (object [("id", peer); ("payload", payload)]).

(** What a receiver does with a frame: ignore it, throw, or handle a message. *)
Inductive decoded := Ignored | Throws | Message (peer payload : string).

(** The [onMessage] callbacks of [DcWsSigServer] and [DcWsSigClient]. *)
Definition open_envelope (raw : frame) : decoded :=
  match raw with
  | Binary _ => Ignored
  | Text text =>
    match parse text with
    | None => Ignored
    | Some msg =>
      match find msg "id", find msg "payload" with
      | Some id, Some pl =>
        match get_string id, get_string pl with
        | Some to, Some payload => Message to payload
        | _, _ => Throws
        end
      | _, _ => Ignored
      end
    end
  end.

(** ** Negotiation payloads *)

(** What a peer connection asks to send: [onLocalDescription], [onLocalCandidate]. *)
Inductive Negotiation :=
| Description (type sdp : string)
| Candidate (cand mid : string).

(** The fields of a payload. *)
Definition fields (n : Negotiation) : list (string * string) :=
  match n with
  | Description type sdp => [("type", type); ("description", sdp)]
  | Candidate cand mid => [("type", "candidate"); ("candidate", cand); ("mid", mid)]
  end.

Definition encode (n : Negotiation) : option string := dump (object (fields n)).

(** Every string of a payload can be dumped. *)
Definition encodable (n : Negotiation) : Prop :=
  Forall (fun kv => utf8 kv.1 = true /\ utf8 kv.2 = true) (fields n).

Lemma envelope_keys : NoDup ["id"; "payload"].
Proof. repeat (constructor; [set_solver|]). constructor. Qed.

(** A text that parses to an envelope is opened to its two fields. *)
Lemma open_object text peer payload :
  parse text = Some (object [("id", peer); ("payload", payload)]) ->
  open_envelope (Text text) = Message peer payload.
Proof.
  intros Hp. unfold open_envelope. rewrite Hp, !find_object by apply envelope_keys. cbn.
  rewrite lookup_insert_eq. cbn. rewrite lookup_insert_ne, lookup_insert_eq by done. cbn.
  by rewrite !get_of_string.
Qed.

(** A field of a parsed payload is what was put there, or the default. *)
Lemma encode_value n :
  encodable n -> exists text j, encode n = Some text /\ parse text = Some j /\ utf8 text = true /\
    forall k d, value j k d = Some (default d ((list_to_map (fields n) : gmap string string) !! k)).
Proof.
  intros Hu. assert (NoDup (fields n).*1) as Hnd.
  { destruct n; cbn; repeat (constructor; [set_solver|]); constructor. }
  destruct (dump_object (fields n) Hnd Hu) as (text & Hd & Hp & Ht). exists text, (object (fields n)).
  split_and!; [done..|]. intros k d. rewrite value_object by apply object_is_object.
  rewrite find_object by done. destruct (_ !! k); cbn; [|done]. by rewrite get_of_string.
Qed.

(** The envelope is a round trip: a frame made by a signaling client or by
    the server from a peer identifier and a payload is opened at the other end
    to that identifier and that payload, for every UTF-8 text; in particular
    nothing a payload contains can change the addressee. *)
Theorem envelope_roundtrip (peer payload : string) :
  utf8 "id" = true -> utf8 "payload" = true -> utf8 peer = true -> utf8 payload = true ->
  exists text, envelope peer payload = Some text /\ open_envelope (Text text) = Message peer payload.
Proof.
  intros H1 H2 H3 H4. unfold envelope.
  destruct (dump_object [("id", peer); ("payload", payload)]) as (text & Hd & Hp & _);
    [apply envelope_keys|by repeat constructor|].
  exists text. split; [done|by apply open_object].
Qed.

(** A frame that is not an object of two strings is not delivered. *)
Lemma open_envelope_strict raw peer payload :
  open_envelope raw = Message peer payload ->
  exists text j vi vp, raw = Text text /\ parse text = Some j /\ is_object j = true /\
    find j "id" = Some vi /\ get_string vi = Some peer /\
    find j "payload" = Some vp /\ get_string vp = Some payload.
Proof.
  unfold open_envelope. intros Hr. repeat (split_match; try discriminate). simplify_eq.
  do 4 eexists. split_and!; try done. destruct (is_object j) eqn:E; [done|].
  rewrite (find_other j "id" E) in *. discriminate.
Qed.

End Wire.

(** ** An implementation of the interface *)

Module Toy.

Inductive json := Str (s : string) | Obj (kvs : list (string * string)) | Num (n : nat).

(** A text is the digits of a positive number, most significant first. *)
Fixpoint digits (p : positive) (acc : string) : string :=
  match p with
  | xH => acc
  | xO q => digits q (String "0"%char acc)
  | xI q => digits q (String "1"%char acc)
  end.

Fixpoint undigits (s : string) (p : positive) : option positive :=
  match s with
  | "" => Some p
  | String c s' =>
    if decide (c = "0"%char) then undigits s' (xO p)
    else if decide (c = "1"%char) then undigits s' (xI p) else None
  end.

Lemma undigits_digits p acc q : undigits (digits p acc) q = undigits acc (q ++ p)%positive.
Proof.
  revert acc q. induction p as [p IH|p IH|]; intros acc q; cbn; [| |done]; rewrite IH; cbn; done.
Qed.

#[global] Instance lib : JsonLib json := {
  parse t := Obj <$> (undigits t 1 ≫= countable.decode);
  dump j := match j with Obj kvs => Some (digits (countable.encode kvs) "") | _ => None end;
  of_string := Str;
  object := Obj;
  is_object j := match j with Obj _ => true | _ => false end;
  find j k := match j with Obj kvs => Str <$> (list_to_map kvs : gmap string string) !! k | _ => None end;
  get_string j := match j with Str s => Some s | _ => None end;
  value j k d := match j with
                 | Obj kvs => Some (default d ((list_to_map kvs : gmap string string) !! k))
                 | _ => None end;
  utf8 _ := true }.

#[global] Instance laws : JsonLaws json.
Proof.
  split; try done.
  - by intros [].
  - intros [s|kvs|n] k d; try done. cbn. by destruct (_ !! k).
  - by intros [].
  - intros kvs _ _. eexists. split_and!; [done| |done]. cbn.
    rewrite undigits_digits, (left_id 1%positive Pos.app). cbn. by rewrite decode_encode.
Qed.

Lemma envelope_roundtrip_witness :
  exists text, envelope "b" "offer" = Some text /\ open_envelope (Text text) = Message "b" "offer".
Proof. apply (envelope_roundtrip (J := json) "b" "offer"); reflexivity. Defined.

End Toy.
