(* ===== verification/DcRtc.v ===== *)
(** * WebRTC transport on libdatachannel

    [src/pkg/rtt/rtc/Rtt/Rtc/Dc/DcRtcLink.cpp] and [DcRtcTransport.cpp]. The
    world holds the links, the transport's [State] (the peer map and the count of
    inbound connections) and a trace. libdatachannel is the environment: what it
    is asked to do goes to the trace, what it calls back is the input, in any
    order and number; whether it accepts a description or a candidate is a
    parameter (it throws otherwise). The application (acceptor and link handlers)
    is a parameter that answers each callback with the calls it makes. *)

From Stdlib Require Import Strings.Byte.
From S2P Require Import Prelude Rtt SigWire.

Open Scope outcome_scope.

(** [rtc::PeerConnection::State]. *)
Inductive PcState := PcNew | PcConnecting | PcConnected | PcDisconnected | PcFailed | PcClosed.

#[global] Instance PcState_eq_dec : EqDecision PcState.
Proof. solve_decision. Defined.

(** [rtc::Description::Type], as far as the transport uses it. *)
Inductive DescType := DOffer | DAnswer.

(** [DcRtcLink]. [inbound] tells which of the two [onClosed]/[onFailed] pairs
    [Attach] got; [attached] that it was called ([_dc] is set). *)
Record Link := mkLink {
  remoteId : string; inbound : bool; attached : bool; handler : LinkHandler;
  disconnectRequested : bool; closedFired : bool;
  remoteDescSet : bool; pendingCandidates : list (string * string) }.

(** [DcRtcTransport::State]. *)
Record State := mkState { peers : gmap string nat; inboundCount : nat; sigUser : bool }.

(** Calls of the application. [CSend l data n open]: the writer puts [data]
    into the buffer and returns [n]; [open] is [_dc->isOpen()]. *)
Inductive Cmd :=
| CSend (l : nat) (data : list byte) (n : nat) (open : bool)
| CDisconnect (l : nat)
| CDrop (l : nat)          (* release the [shared_ptr<ILink>] *)
| CDropAcceptor            (* release the [shared_ptr<ILinkAcceptor>] *)
| CDestroy.                (* destroy the [DcRtcTransport] *)

Inductive Event :=
| ELink (l : nat) | EFailed (e : Error)                  (* [OnLink] *)
| ERecv (l : nat) (d : list byte) | EDisc (l : nat)      (* [LinkHandler] *)
| ESig (to text : string)                                (* [ISigUser::Send] *)
| ECreate (l : nat)                                      (* [createDataChannel] *)
| EGot (l : nat) (c : string * string)                   (* [AddRemoteCandidate] is called *)
| ERemote (l : nat) (ty : DescType) (sdp : string)       (* [pc.setRemoteDescription] *)
| ECandidate (l : nat) (c : string * string)             (* [pc.addRemoteCandidate] *)
| EDcSend (l : nat) (d : list byte) | EDcClose (l : nat) | EPcClose (l : nat)
| EThrow.                                                (* the callback ends with an exception *)

(** What libdatachannel, the signaling channel and the application cause. *)
Inductive Input :=
| IJoined (r : expected unit Error)
| IMessage (from payload : string)
| ILeft (lost : bool)
| IOpen (l : nat)                        (* [dc->onOpen] of an outbound link *)
| IDataChannel (l : nat)                 (* [pc.onDataChannel] of an inbound link *)
| IState (l : nat) (st : PcState)
| IData (l : nat) (text : bool) (d : list byte)
| IDcClosed (l : nat)
| ILocal (l : nat) (n : Negotiation)
| ICmd (c : Cmd).

Section DcRtc.
Context {J : Type} {JL : JsonLib J} {JW : JsonLaws J}.
Context {A : Type}.
(** [RtcOptions]. *)
Context (remote_id : string) (maxMessageSize maxInboundConnections : nat).
(** libdatachannel: does it take this description, this candidate? *)
Context (sdp_ok : DescType -> string -> bool) (cand_ok : string * string -> bool).
(** The application. [on_link] also says whether it keeps the link. *)
Context (on_link : A -> nat -> A * list Cmd * LinkHandler * bool).
Context (on_failed : A -> Error -> A * list Cmd).
Context (on_received : A -> nat -> list byte -> A * list Cmd).
Context (on_disconnected : A -> nat -> A * list Cmd).

(** [kept] are the links and [acceptor_kept] the acceptor the application
    holds; [state] is [None] once the transport is destroyed. *)
Record World := mkWorld {
  links : gmap nat Link; next : nat; state : option State;
  kept : gset nat; acceptor_kept : bool; app : A; trace : list Event }.

Definition set_link (l : nat) (x : Link) (w : World) : World :=
  mkWorld (<[l := x]> (links w)) (next w) (state w) (kept w) (acceptor_kept w) (app w) (trace w).
Definition set_state (s : option State) (w : World) : World :=
  mkWorld (links w) (next w) s (kept w) (acceptor_kept w) (app w) (trace w).
Definition set_kept (k : gset nat) (w : World) : World :=
  mkWorld (links w) (next w) (state w) k (acceptor_kept w) (app w) (trace w).
Definition set_app (a : A) (w : World) : World :=
  mkWorld (links w) (next w) (state w) (kept w) (acceptor_kept w) a (trace w).
Definition emit (e : Event) (w : World) : World :=
  mkWorld (links w) (next w) (state w) (kept w) (acceptor_kept w) (app w) (trace w ++ [e]).

(** [wlink.lock()] succeeds: the peer map or the application has the link. *)
Definition link_alive (w : World) (l : nat) : bool :=
  bool_decide (l ∈ kept w) ||
  match state w with
  | Some s => bool_decide (map_Exists (fun _ k => k = l) (peers s))
  | None => false
  end.

(** [waccept.lock()] succeeds: the [State] owns the acceptor too. *)
Definition acceptor_alive (w : World) : bool :=
  acceptor_kept w || match state w with Some _ => true | None => false end.

Definition with_attached (x : Link) : Link :=
  mkLink (remoteId x) (inbound x) true (handler x) (disconnectRequested x) (closedFired x)
         (remoteDescSet x) (pendingCandidates x).
Definition with_handler (h : LinkHandler) (x : Link) : Link :=
  mkLink (remoteId x) (inbound x) (attached x) h (disconnectRequested x) (closedFired x)
         (remoteDescSet x) (pendingCandidates x).
Definition with_disconnect (x : Link) : Link :=
  mkLink (remoteId x) (inbound x) (attached x) (handler x) true (closedFired x)
         (remoteDescSet x) (pendingCandidates x).
Definition with_closed (x : Link) : Link :=
  mkLink (remoteId x) (inbound x) (attached x) (handler x) (disconnectRequested x) true
         (remoteDescSet x) (pendingCandidates x).
Definition with_candidates (set : bool) (p : list (string * string)) (x : Link) : Link :=
  mkLink (remoteId x) (inbound x) (attached x) (handler x) (disconnectRequested x) (closedFired x) set p.

(** ** [DcRtcLink] *)

(** [DcRtcLink::Send]; returning more than the buffer holds makes iterators
    past its end. *)
Definition Send (l : nat) (data : list byte) (n : nat) (open : bool) (w : World) : outcome World :=
  match links w !! l with
  | None => Crash
  | Some x =>
    if disconnectRequested x || negb (attached x) || negb open then Ret w
    else if bool_decide (n = 0) then Ret w
    else if bool_decide (n <= maxMessageSize)%nat
    then Ret (emit (EDcSend l (take n (resize maxMessageSize x00 data))) w)
    else Crash
  end.

(** [DcRtcLink::Disconnect]. *)
Definition Disconnect (l : nat) (w : World) : outcome World :=
  match links w !! l with
  | None => Crash
  | Some x =>
    if disconnectRequested x then Ret w else
    let w1 := set_link l (with_disconnect x) w in
    let w2 := if attached x then emit (EDcClose l) w1 else w1 in
    Ret (emit (EPcClose l) w2)
  end.

Definition call (c : Cmd) (w : World) : outcome World :=
  match c with
  | CSend l data n open => Send l data n open w
  | CDisconnect l => Disconnect l w
  | CDrop l => Ret (set_kept (kept w ∖ {[l]}) w)
  | CDropAcceptor =>
    Ret (mkWorld (links w) (next w) (state w) (kept w) false (app w) (trace w))
  | CDestroy => Ret (set_state None w)
  end.

(** The calls a callback makes: none of them calls back. *)
Fixpoint run (cs : list Cmd) (w : World) : outcome World :=
  match cs with
  | [] => Ret w
  | c :: cs' => let! w1 := call c w in run cs' w1
  end.

(** [pc.addRemoteCandidate(rtc::Candidate(...))] for each buffered candidate;
    the first one that is refused ends the loop with an exception. *)
Fixpoint flush (l : nat) (cs : list (string * string)) (w : World) : World :=
  match cs with
  | [] => w
  | c :: cs' => if cand_ok c then flush l cs' (emit (ECandidate l c) w) else emit EThrow w
  end.

(** [DcRtcLink::SetRemoteDescription]. *)
Definition SetRemoteDescription (l : nat) (sdp : string) (ty : DescType) (w : World) : outcome World :=
  match links w !! l with
  | None => Crash
  | Some x =>
    if sdp_ok ty sdp then
      let w1 := emit (ERemote l ty sdp) w in
      let w2 := set_link l (with_candidates true [] x) w1 in
      Ret (flush l (pendingCandidates x) w2)
    else Ret (emit EThrow w)
  end.

(** [DcRtcLink::AddRemoteCandidate]. *)
Definition AddRemoteCandidate (l : nat) (c : string * string) (w : World) : outcome World :=
  match links w !! l with
  | None => Crash
  | Some x =>
    let w1 := emit (EGot l c) w in
    if remoteDescSet x then
      Ret (if cand_ok c then emit (ECandidate l c) w1 else emit EThrow w1)
    else Ret (set_link l (with_candidates false (pendingCandidates x ++ [c]) x) w1)
  end.

(** ** [DcRtcTransport::State] *)

(** [acceptor->OnLink(std::unexpected(e))]. *)
Definition OnLinkFailed (e : Error) (w : World) : outcome World :=
  let '(a, cs) := on_failed (app w) e in run cs (set_app a (emit (EFailed e) w)).

(** [Attach], [acc->OnLink(l)], [l->SetHandler(handler)]. *)
Definition deliver_link (l : nat) (w : World) : outcome World :=
  match links w !! l with
  | None => Crash
  | Some x =>
    let w1 := emit (ELink l) (set_link l (with_attached x) w) in
    let '(a, cs, h, keep) := on_link (app w1) l in
    let w2 := set_app a (if keep : bool then set_kept ({[l]} ∪ kept w1) w1 else w1) in
    let! w3 := run cs w2 in
    match links w3 !! l with
    | None => Crash
    | Some x3 => Ret (set_link l (with_handler h x3) w3)
    end
  end.

(** The [onOpen] callback of the offerer's data channel. *)
Definition dc_onOpen (l : nat) (w : World) : outcome World :=
  match state w with
  | None => Ret w
  | Some _ => if link_alive w l && acceptor_alive w then deliver_link l w else Ret w
  end.

(** The [onDataChannel] callback of the answerer's peer connection. *)
Definition pc_onDataChannel (l : nat) (w : World) : outcome World :=
  if link_alive w l && acceptor_alive w then deliver_link l w else Ret w.

(** [onClosed] of the offerer: the peer is forgotten. *)
Definition onClosed (peer : string) (w : World) : World :=
  match state w with
  | Some s => set_state (Some (mkState (delete peer (peers s)) (inboundCount s) (sigUser s))) w
  | None => w
  end.

(** [onFailed] of the offerer: moreover the acceptor gets [Error::Unknown]. *)
Definition onFailed (peer : string) (w : World) : outcome World :=
  let w1 := onClosed peer w in
  if acceptor_alive w1 then OnLinkFailed Unknown w1 else Ret w1.

(** [onGone] of the answerer: the peer is forgotten and its slot freed. *)
Definition onGone (peer : string) (w : World) : World :=
  match state w with
  | Some s => set_state (Some (mkState (delete peer (peers s)) (Nat.pred (inboundCount s)) (sigUser s))) w
  | None => w
  end.

Definition terminal (st : PcState) : bool :=
  match st with PcClosed | PcDisconnected | PcFailed => true | _ => false end.

(** The [onStateChange] callback that [Attach] installs. *)
Definition state_change (l : nat) (x : Link) (st : PcState) (w : World) : outcome World :=
  let! w1 :=
    match st with
    | PcClosed | PcDisconnected =>
      Ret (if inbound x then onGone (remoteId x) w else onClosed (remoteId x) w)
    | PcFailed => if inbound x then Ret (onGone (remoteId x) w) else onFailed (remoteId x) w
    | _ => Ret w
    end in
  if terminal st then
    match links w1 !! l with
    | Some x1 =>
      if link_alive w1 l && negb (closedFired x1) then
        let w2 := set_link l (with_closed x1) w1 in
        if onDisconnected (handler x1) then
          let '(a, cs) := on_disconnected (app w2) l in run cs (set_app a (emit (EDisc l) w2))
        else Ret w2
      else Ret w1
    | None => Crash
    end
  else Ret w1.

(** [onStateChange]: before [Attach] it only logs. *)
Definition pc_onStateChange (l : nat) (st : PcState) (w : World) : outcome World :=
  match links w !! l with
  | Some x => if attached x then state_change l x st w else Ret w
  | None => Ret w
  end.

(** [_dc->onMessage]. *)
Definition dc_onMessage (l : nat) (text : bool) (d : list byte) (w : World) : outcome World :=
  match links w !! l with
  | Some x =>
    if attached x && link_alive w l && negb (disconnectRequested x) && negb text && onReceived (handler x) then
      let '(a, cs) := on_received (app w) l d in run cs (set_app a (emit (ERecv l d) w))
    else Ret w
  | None => Ret w
  end.

(** [std::make_shared<DcRtcLink>(...)] and its place in the peer map. *)
Definition new_link (peer : string) (inb : bool) (s : State) (w : World) : World :=
  mkWorld (<[next w := mkLink peer inb false no_handler false false false []]> (links w)) (S (next w))
    (Some (mkState (<[peer := next w]> (peers s))
             (if inb then S (inboundCount s) else inboundCount s) (sigUser s)))
    (kept w) (acceptor_kept w) (app w) (trace w).

(** [State::OpenOfferer]. *)
Definition OpenOfferer (s : State) (w : World) : outcome World :=
  Ret (emit (ECreate (next w)) (new_link remote_id false s w)).

(** [State::HandleOffer]; reading ["description"] can throw. *)
Definition HandleOffer (from : string) (j : J) (s : State) (w : World) : outcome World :=
  match value j "description" "" with
  | None => Ret (emit EThrow w)
  | Some sdp => SetRemoteDescription (next w) sdp DOffer (new_link from true s w)
  end.

Definition isOfferer : bool := negb (bool_decide (remote_id = "")).

(** [State::OnMessage]. *)
Definition OnMessage (from payload : string) (s : State) (w : World) : outcome World :=
  match parse payload with
  | None => Ret w
  | Some j =>
    match value j "type" "" with
    | None => Ret (emit EThrow w)
    | Some type =>
      if decide (type = "offer") then
        if bool_decide (maxInboundConnections = 0) || bool_decide (maxInboundConnections <= inboundCount s)%nat
        then Ret w
        else HandleOffer from j s w
      else if decide (type = "answer") then
        if negb isOfferer then Ret w else
        match value j "description" "" with
        | None => Ret (emit EThrow w)
        | Some sdp =>
          match peers s !! remote_id with
          | Some l => SetRemoteDescription l sdp DAnswer w
          | None => Ret w
          end
        end
      else if decide (type = "candidate") then
        match value j "candidate" "", value j "mid" "" with
        | Some cand, Some mid =>
          match peers s !! from with
          | Some l => AddRemoteCandidate l (cand, mid) w
          | None => Ret w
          end
        | _, _ => Ret (emit EThrow w)
        end
      else Ret w
    end
  end.

(** [State::OnLeft]. *)
Definition OnLeft (lost : bool) (w : World) : outcome World :=
  if lost then OnLinkFailed TransportClosed w else Ret w.

(** [onJoined] of [DcRtcTransport::Open]. *)
Definition onJoined (r : expected unit Error) (w : World) : outcome World :=
  match state w with
  | None => Ret w
  | Some s =>
    match r with
    | Unexpected e => OnLinkFailed e w
    | Value _ =>
      let s1 := mkState (peers s) (inboundCount s) true in
      let w1 := set_state (Some s1) w in
      if isOfferer then OpenOfferer s1 w1 else Ret w1
    end
  end.

(** [onLocalDescription] and [onLocalCandidate] of the constructor: the
    signaling user lives as long as the [State] that owns it. *)
Definition send_local (l : nat) (n : Negotiation) (w : World) : outcome World :=
  match links w !! l, state w with
  | Some x, Some s =>
    if sigUser s then
      match encode n with
      | Some text => Ret (emit (ESig (remoteId x) text) w)
      | None => Ret (emit EThrow w)
      end
    else Ret w
  | _, _ => Ret w
  end.

Definition input (i : Input) (w : World) : outcome World :=
  match i with
  | IJoined r => onJoined r w
  | IMessage from payload =>
    match state w with
    | Some s => if sigUser s then OnMessage from payload s w else Ret w
    | None => Ret w
    end
  | ILeft lost =>
    match state w with
    | Some s => if sigUser s then OnLeft lost w else Ret w
    | None => Ret w
    end
  | IOpen l =>
    match links w !! l with
    | Some x => if inbound x then Ret w else dc_onOpen l w
    | None => Ret w
    end
  | IDataChannel l =>
    match links w !! l with
    | Some x => if inbound x then pc_onDataChannel l w else Ret w
    | None => Ret w
    end
  | IState l st => pc_onStateChange l st w
  | IData l text d => dc_onMessage l text d w
  | IDcClosed l => Ret w
  | ILocal l n => send_local l n w
  | ICmd c => call c w
  end.

Fixpoint inputs (ins : list Input) (w : World) : outcome World :=
  match ins with
  | [] => Ret w
  | i :: ins' => let! w1 := input i w in inputs ins' w1
  end.

(** [DcRtcTransport::Open]: a fresh [State]; the signaling join is under way. *)
Definition Open (a : A) : World := mkWorld ∅ 0 (Some (mkState ∅ 0 false)) ∅ true a [].

(** ** Invariant *)

Definition event_link (e : Event) : option nat :=
  match e with
  | ELink l | ERecv l _ | EDisc l | ECreate l | EGot l _ | ERemote l _ _ | ECandidate l _
  | EDcSend l _ | EDcClose l | EPcClose l => Some l
  | EFailed _ | ESig _ _ | EThrow => None
  end.

(** What happened to link [l], by kind. *)
Definition at_ {X} (l k : nat) (v : X) : option X := if decide (k = l) then Some v else None.
Definition is_got (l : nat) (e : Event) := match e with EGot k c => at_ l k c | _ => None end.
Definition is_added (l : nat) (e : Event) := match e with ECandidate k c => at_ l k c | _ => None end.
Definition is_remote (l : nat) (e : Event) := match e with ERemote k ty s => at_ l k (ty, s) | _ => None end.
Definition is_disc (l : nat) (e : Event) := match e with EDisc k => at_ l k tt | _ => None end.
Definition is_close (l : nat) (e : Event) := match e with EPcClose k => at_ l k tt | _ => None end.
Definition is_shown (l : nat) (e : Event) := match e with ELink k => at_ l k tt | _ => None end.

Definition got (l : nat) (t : list Event) : list (string * string) := omap (is_got l) t.
Definition added (l : nat) (t : list Event) : list (string * string) := omap (is_added l) t.

(** Data in or out of link [l], a close of its connection. *)
Definition data_or_close (l : nat) (e : Event) : Prop :=
  match e with ERecv k _ | EDcSend k _ | EPcClose k => k = l | _ => False end.
(** A call of the handler of link [l]. *)
Definition handler_call (l : nat) (e : Event) : Prop :=
  match e with ERecv k _ | EDisc k => k = l | _ => False end.

(** The candidates that [flush] still has in hand for link [l]. *)
Definition rest (ex : option (nat * list (string * string))) (l : nat) : list (string * string) :=
  match ex with Some (k, cs) => if decide (k = l) then cs else [] | None => [] end.

Record link_ok (ex : option (nat * list (string * string))) (t : list Event) (l : nat) (x : Link) : Prop := {
  l_before : remoteDescSet x = false -> added l t = [] /\ rest ex l = [] /\ pendingCandidates x = got l t;
  l_after : remoteDescSet x = true -> pendingCandidates x = [] /\ omap (is_remote l) t <> [];
  l_order : Forall (fun c => cand_ok c = true) (got l t) ->
    got l t = added l t ++ rest ex l ++ pendingCandidates x;
  l_disc : closedFired x = false -> omap (is_disc l) t = [];
  l_once : (length (omap (is_disc l) t) <= 1)%nat;
  l_close : disconnectRequested x = false -> omap (is_close l) t = [];
  l_shown : handler x = no_handler \/ omap (is_shown l) t <> [] }.

Record Inv (ex : option (nat * list (string * string))) (w : World) : Prop := {
  i_dom l : is_Some (links w !! l) -> (l < next w)%nat;
  i_peers s p l : state w = Some s -> peers s !! p = Some l ->
    exists x, links w !! l = Some x /\ remoteId x = p;
  i_count s : state w = Some s -> (inboundCount s <= maxInboundConnections)%nat;
  i_pure l x : links w !! l = Some x -> inbound x = true -> maxInboundConnections <> 0;
  i_event e l : e ∈ trace w -> event_link e = Some l -> is_Some (links w !! l);
  i_ok l x : links w !! l = Some x -> link_ok ex (trace w) l x;
  i_quiet l : quiet_after (is_close l) (data_or_close l) (trace w);
  i_called l : preceded (is_shown l) (handler_call l) (trace w);
  i_ready l : preceded (is_remote l) (fun e => is_Some (is_added l e)) (trace w) }.

(** What calls of the application leave: the links and the past. *)
Record Rel (w w' : World) : Prop := {
  r_link l x : links w !! l = Some x ->
    exists x', links w' !! l = Some x' /\ remoteId x' = remoteId x /\ inbound x' = inbound x;
  r_trace : trace w `prefix_of` trace w' }.

#[global] Instance dc_rel_preorder : PreOrder Rel.
Proof.
  split.
  - intros w. split; [|done]. intros l x Hl. by exists x.
  - intros w1 w2 w3 [L1 T1] [L2 T2]. split; [|by etrans]. intros l x Hl.
    destruct (L1 l x Hl) as (x1 & H1 & ? & ?). destruct (L2 l x1 H1) as (x2 & H2 & ? & ?).
    exists x2. split_and!; congruence.
Qed.

Lemma omap_prefix {X} (f : Event -> option X) t t' : t `prefix_of` t' -> omap f t <> [] -> omap f t' <> [].
Proof. intros [k ->] Hn He. rewrite omap_app in He. by apply app_nil in He as [? _]. Qed.

(** An event of another link leaves the view of a link alone. *)
Lemma other_event ex ex' t l x e :
  link_ok ex t l x -> event_link e <> Some l -> rest ex' l = rest ex l -> link_ok ex' (t ++ [e]) l x.
Proof.
  intros [B F O D1 D2 C S] He Hr. assert (forall X (f : Event -> option X), f e = None ->
    omap f (t ++ [e]) = omap f t) as E.
  { intros X f Hf. rewrite omap_app. cbn. by rewrite Hf, app_nil_r. }
  assert (is_got l e = None /\ is_added l e = None /\ is_remote l e = None /\ is_disc l e = None /\
          is_close l e = None /\ is_shown l e = None) as (E1 & E2 & E3 & E4 & E5 & E6).
  { destruct e; cbn in *; unfold at_; split_and!; try done; rewrite decide_False; congruence. }
  split; unfold got, added in *; rewrite ?Hr, ?(E _ _ E1), ?(E _ _ E2), ?(E _ _ E3), ?(E _ _ E4), ?(E _ _ E5), ?(E _ _ E6); done.
Qed.

(** A step on link [l]: its record is replaced and an event is added. *)
Lemma inv_event ex ex' w w' l x x' e :
  Inv ex w -> links w !! l = Some x -> event_link e = Some l ->
  links w' = <[l := x']> (links w) -> next w' = next w -> state w' = state w -> trace w' = trace w ++ [e] ->
  remoteId x' = remoteId x -> inbound x' = inbound x ->
  (forall k, k <> l -> rest ex' k = rest ex k) ->
  (link_ok ex (trace w) l x -> link_ok ex' (trace w ++ [e]) l x') ->
  (data_or_close l e -> omap (is_close l) (trace w) = []) ->
  (handler_call l e -> omap (is_shown l) (trace w) <> []) ->
  (is_Some (is_added l e) -> omap (is_remote l) (trace w) <> []) -> Inv ex' w'.
Proof.
  intros [D P N U E O Q C R] Hl He Hls Hn Hs Ht Hid Hin Hr Hok Hq Hc Hrd.
  assert (forall k, k <> l -> ~ data_or_close k e /\ ~ handler_call k e /\ ~ is_Some (is_added k e)) as Hne.
  { intros k Hk. destruct e; cbn in *; simplify_eq; split_and!; try done; try (by intros []).
    unfold at_. case_decide; [congruence|by intros []]. }
  split; rewrite ?Hls, ?Hn, ?Hs, ?Ht.
  - intros k [y Hk]. apply lookup_insert_Some in Hk as [[<- _]|[_ Hk]]; apply D; eauto.
  - intros s p k H1 H2. destruct (P s p k H1 H2) as (y & Hy & Hp). destruct (decide (k = l)) as [->|Hk].
    + exists x'. rewrite lookup_insert_eq. split; [done|]. simplify_eq. done.
    + exists y. by rewrite lookup_insert_ne.
  - done.
  - intros k y Hy. apply lookup_insert_Some in Hy as [[<- <-]|[_ Hy]]; [|by apply (U k y)].
    rewrite Hin. by apply (U l x).
  - intros e' k [Hin'| ->%list_elem_of_singleton]%elem_of_app Hk; apply lookup_insert_is_Some'.
    + right. by apply (E e').
    + left. congruence.
  - intros k y Hy. apply lookup_insert_Some in Hy as [[<- <-]|[Hk Hy]]; [by apply Hok, O|].
    apply (other_event ex); [by apply O|congruence|]. by apply Hr.
  - intros k. apply quiet_after_snoc; [done|]. destruct (decide (k = l)) as [->|Hk]; [done|].
    intros Hd. by destruct (Hne k Hk).
  - intros k. apply preceded_snoc; [done|]. destruct (decide (k = l)) as [->|Hk]; [done|].
    intros Hd. by destruct (Hne k Hk) as (_ & ? & _).
  - intros k. apply preceded_snoc; [done|]. destruct (decide (k = l)) as [->|Hk]; [done|].
    intros Hd. by destruct (Hne k Hk) as (_ & _ & ?).
Qed.

(** A step on link [l] without an event. *)
Lemma inv_link ex ex' w l x x' :
  Inv ex w -> links w !! l = Some x -> remoteId x' = remoteId x -> inbound x' = inbound x ->
  (forall k, k <> l -> rest ex' k = rest ex k) ->
  (link_ok ex (trace w) l x -> link_ok ex' (trace w) l x') -> Inv ex' (set_link l x' w).
Proof.
  intros [D P N U E O Q C R] Hl Hid Hin Hr Hok. split; cbn; try done.
  - intros k [y Hk]. apply lookup_insert_Some in Hk as [[<- _]|[_ Hk]]; apply D; eauto.
  - intros s p k H1 H2. destruct (P s p k H1 H2) as (y & Hy & Hp). destruct (decide (k = l)) as [->|Hk].
    + exists x'. rewrite lookup_insert_eq. split; [done|]. simplify_eq. done.
    + exists y. by rewrite lookup_insert_ne.
  - intros k y Hy. apply lookup_insert_Some in Hy as [[<- <-]|[_ Hy]]; [|by apply (U k y)].
    rewrite Hin. by apply (U l x).
  - intros e' k He Hk. apply lookup_insert_is_Some'. right. by apply (E e').
  - intros k y Hy. apply lookup_insert_Some in Hy as [[<- <-]|[Hk Hy]]; [by apply Hok, O|].
    destruct (O k y Hy) as [B' F' O' D1' D2' C' S']. split; rewrite ?(Hr k) by done; done.
Qed.

(** An event that is not about a link. *)
Lemma inv_other ex w e : Inv ex w -> event_link e = None -> Inv ex (emit e w).
Proof.
  intros [D P N U E O Q C R] He. split; cbn; try done.
  - intros e' k [Hin| ->%list_elem_of_singleton]%elem_of_app Hk; [by apply (E e')|congruence].
  - intros k y Hy. apply (other_event ex); [by apply O|congruence|done].
  - intros k. apply quiet_after_snoc; [done|]. by destruct e.
  - intros k. apply preceded_snoc; [done|]. by destruct e.
  - intros k. apply preceded_snoc; [done|]. destruct e; cbn; try done; by intros [].
Qed.

(** Changes of the peer map, the counter, what the application keeps. *)
Lemma inv_state ex w w' :
  Inv ex w -> links w' = links w -> next w' = next w -> trace w' = trace w ->
  (forall s', state w' = Some s' -> exists s, state w = Some s /\ peers s' ⊆ peers s /\
     (inboundCount s' <= inboundCount s)%nat) -> Inv ex w'.
Proof.
  intros [D P N U E O Q C R] H1 H2 H3 Hs. split; rewrite ?H1, ?H2, ?H3; try done.
  - intros s' p l Hs' Hp. destruct (Hs s' Hs') as (s & Hst & Hsub & _). apply (P s); [done|].
    by eapply lookup_weaken.
  - intros s' Hs'. destruct (Hs s' Hs') as (s & Hst & _ & Hle). pose proof (N s Hst). lia.
Qed.

(** *** Operations *)

Lemma at_same {X} l (v : X) : at_ l l v = Some v.
Proof. unfold at_. by rewrite decide_True. Qed.

#[local] Ltac view :=
  unfold got, added in *; cbn [trace emit set_link] in *; rewrite ?omap_app in *;
  cbn [omap list_omap is_got is_added is_remote is_disc is_close is_shown] in *;
  rewrite ?at_same, ?app_nil_r in *.

(** An event on a link whose record stays. *)
Lemma inv_emit ex ex' w l x e :
  Inv ex w -> links w !! l = Some x -> event_link e = Some l ->
  (forall k, k <> l -> rest ex' k = rest ex k) ->
  (link_ok ex (trace w) l x -> link_ok ex' (trace w ++ [e]) l x) ->
  (data_or_close l e -> omap (is_close l) (trace w) = []) ->
  (handler_call l e -> omap (is_shown l) (trace w) <> []) ->
  (is_Some (is_added l e) -> omap (is_remote l) (trace w) <> []) -> Inv ex' (emit e w).
Proof.
  intros HI Hl He Hr Hok Hq Hc Hd. eapply (inv_event ex ex' w _ l x x e); try done.
  cbn. by rewrite insert_id.
Qed.

(** The events that say nothing about candidates, closing or handlers. *)
Definition neutral (e : Event) : Prop :=
  match e with ECreate _ | EDcClose _ | EDcSend _ _ | ERecv _ _ => True | _ => False end.

Lemma inv_neutral w l x e :
  Inv None w -> links w !! l = Some x -> event_link e = Some l -> neutral e ->
  (data_or_close l e -> disconnectRequested x = false) ->
  (handler_call l e -> handler x <> no_handler) -> Inv None (emit e w).
Proof.
  intros HI Hl He Hn Hd Hh. pose proof (i_ok _ _ HI l x Hl) as Hok. apply (inv_emit None None w l x e); try done.
  - intros _. destruct Hok as [B F O D1 D2 C S].
    destruct e; cbn in He, Hn; try done; split; view; done.
  - intros Hx. by apply Hok, Hd.
  - intros Hx. destruct (l_shown _ _ _ _ Hok) as [E|E]; [by destruct (Hh Hx)|done].
  - destruct e; cbn in *; try done; by intros [].
Qed.

Lemma rel_emit w e : Rel w (emit e w).
Proof. split; [intros l x Hl; by exists x|cbn; by apply prefix_app_r]. Qed.

Lemma rel_link w l x x' : links w !! l = Some x -> remoteId x' = remoteId x -> inbound x' = inbound x ->
  Rel w (set_link l x' w).
Proof.
  intros Hl Hr Hi. split; [|done]. intros k y Hk. cbn. destruct (decide (k = l)) as [->|Hne].
  - rewrite lookup_insert_eq. exists x'. simplify_eq. done.
  - rewrite lookup_insert_ne by done. by exists y.
Qed.

Lemma rel_same w w' : links w' = links w -> trace w' = trace w -> Rel w w'.
Proof. intros Hl Ht. split; [intros l x Hx; exists x; by rewrite Hl|by rewrite Ht]. Qed.

Lemma Disconnect_dc_ok l w w' : Disconnect l w = Ret w' -> Inv None w -> Inv None w' /\ Rel w w'.
Proof.
  unfold Disconnect. intros Hr HI. destruct (links w !! l) as [x|] eqn:Hl; [|done].
  destruct (disconnectRequested x) eqn:Hd; [by simplify_eq|].
  pose proof (i_ok _ _ HI l x Hl) as Hok. pose proof (l_close _ _ _ _ Hok Hd) as Hc.
  set (w1 := set_link l (with_disconnect x) w) in *.
  assert (Inv None w1 /\ Rel w w1) as [HI1 HR1].
  { split; [|by apply (rel_link _ _ x)]. apply (inv_link None None w l x); try done.
    intros [B F O D1 D2 C S]. by split. }
  assert (links w1 !! l = Some (with_disconnect x)) as Hl1 by apply lookup_insert_eq.
  set (w2 := if attached x then emit (EDcClose l) w1 else w1) in *.
  assert (Inv None w2 /\ Rel w1 w2 /\ links w2 !! l = Some (with_disconnect x) /\
          omap (is_close l) (trace w2) = []) as (HI2 & HR2 & Hl2 & Hc2).
  { unfold w2. destruct (attached x); [|by split_and!]. split_and!; [|apply rel_emit|done|view; done].
    by apply (inv_neutral w1 l (with_disconnect x)). }
  injection Hr as <-. split; [|etrans; [done|etrans; [done|apply rel_emit]]].
  apply (inv_emit None None w2 l (with_disconnect x)); try done; [|cbn; by intros []].
  intros [B F O D1 D2 C S]. split; view; done.
Qed.

Lemma Send_dc_ok l data n open w w' : Send l data n open w = Ret w' -> Inv None w -> Inv None w' /\ Rel w w'.
Proof.
  unfold Send. intros Hr HI. repeat (split_match; try done); simplify_eq; try done.
  split; [|apply rel_emit]. reflect_bools. eapply inv_neutral; try done.
Qed.

Lemma call_dc_ok c w w' : call c w = Ret w' -> Inv None w -> Inv None w' /\ Rel w w'.
Proof.
  intros Hr HI. destruct c; cbn in Hr; [by eapply Send_dc_ok|by eapply Disconnect_dc_ok|..]; simplify_eq;
    (split; [|by apply rel_same]); apply (inv_state None w); try done; intros s' Hs; exists s'; by split_and!.
Qed.

Lemma run_dc_ok cs w w' : run cs w = Ret w' -> Inv None w -> Inv None w' /\ Rel w w'.
Proof.
  revert w. induction cs as [|c cs IH]; intros w Hr HI; cbn in Hr; [by simplify_eq|].
  apply obind_Ret in Hr as (w1 & H1 & H2). destruct (call_dc_ok c w w1 H1 HI) as [HI1 HR1].
  destruct (IH w1 H2 HI1). split; [done|by etrans].
Qed.

Lemma flush_ok l x cs w :
  Inv (Some (l, cs)) w -> links w !! l = Some x -> remoteDescSet x = true ->
  Inv None (flush l cs w) /\ Rel w (flush l cs w).
Proof.
  revert w. induction cs as [|c cs IH]; intros w HI Hl Hs; cbn.
  - split; [|done]. assert (forall k, rest (Some (l, [])) k = rest None k) as E
      by (intros k; cbn; by case_decide).
    destruct HI as [D P N U V O Q C R]. split; try done. intros k y Hy.
    destruct (O k y Hy) as [B' F' O' D1' D2' C' S']. rewrite E in *. by split.
  - destruct (i_ok _ _ HI l x Hl) as [B F O D1 D2 C S]. destruct (F Hs) as [Hp Hrem].
    assert (forall cs', rest (Some (l, cs')) l = cs') as Er by (intros cs'; cbn; by rewrite decide_True).
    destruct (cand_ok c) eqn:Ec.
    + destruct (IH (emit (ECandidate l c) w)) as [HI' HR'];
        [|done|done|split; [done|etrans; [apply rel_emit|done]]].
      apply (inv_emit (Some (l, c :: cs)) _ w l x); try done.
      * intros k Hk. cbn. by rewrite !decide_False.
      * intros _. split; view; try done; [congruence|]. rewrite !Er in *. intros Hok.
        rewrite (O Hok), <- app_assoc. done.
    + split; [|apply rel_emit]. apply inv_other; [|done].
      assert (rest (Some (l, c :: cs)) l = c :: cs) as E by apply Er.
      destruct HI as [D P N U V O' Q' C' R']. split; try done. intros k y Hy.
      destruct (O' k y Hy) as [B1 F1 O1 D11 D21 C1 S1]. destruct (decide (k = l)) as [->|Hk].
      * simplify_eq. split; try done; [by intros; congruence|]. intros Hok. exfalso.
        specialize (O1 Hok). rewrite E in O1. rewrite O1 in Hok. rewrite Forall_app, Forall_app in Hok.
        destruct Hok as (_ & Hok & _). inv Hok. congruence.
      * assert (rest (Some (l, c :: cs)) k = rest None k) as Ek by (cbn; by rewrite decide_False).
        rewrite Ek in *. by split.
Qed.

Lemma SetRemoteDescription_ok l sdp ty w w' :
  SetRemoteDescription l sdp ty w = Ret w' -> Inv None w -> Inv None w' /\ Rel w w'.
Proof.
  unfold SetRemoteDescription. intros Hr HI. destruct (links w !! l) as [x|] eqn:Hl; [|done].
  destruct (sdp_ok ty sdp); simplify_eq; [|split; [by apply inv_other|apply rel_emit]].
  pose proof (i_ok _ _ HI l x Hl) as [B F O D1 D2 C S].
  match goal with |- Inv None (flush l _ ?w2) /\ _ => set (w2' := w2) end.
  assert (links w2' !! l = Some (with_candidates true [] x)) as Hl2 by apply lookup_insert_eq.
  destruct (flush_ok l (with_candidates true [] x) (pendingCandidates x) w2') as [HI2 HR2]; [|done|done|].
  - apply (inv_event None _ w w2' l x (with_candidates true [] x) (ERemote l ty sdp)); try done.
    + intros k Hk. cbn. by rewrite decide_False.
    + intros _. split; view; try done; cbn.
      * intros _. split; [done|]. by destruct (omap (is_remote l) (trace w)).
      * rewrite decide_True by done. intros Hok. by rewrite (O Hok) at 1.
    + cbn. by intros [].
  - split; [done|]. etrans; [|done]. etrans; [apply rel_emit|]. by apply (rel_link _ _ x).
Qed.

Lemma AddRemoteCandidate_ok l c w w' :
  AddRemoteCandidate l c w = Ret w' -> Inv None w -> Inv None w' /\ Rel w w'.
Proof.
  unfold AddRemoteCandidate. intros Hr HI. destruct (links w !! l) as [x|] eqn:Hl; [|done].
  pose proof (i_ok _ _ HI l x Hl) as [B F O D1 D2 C S]. destruct (remoteDescSet x) eqn:Hs.
  - destruct (F eq_refl) as [Hp Hrem]. rewrite Hp in O. cbn in O. rewrite app_nil_r in O.
    assert (Inv (Some (l, [c])) (emit (EGot l c) w)) as HI1.
    { apply (inv_emit None _ w l x); try done.
      - intros k Hk. cbn. by rewrite decide_False.
      - intros _. split; view; try done; [congruence|]. cbn. rewrite decide_True, Hp by done. cbn.
        intros [Hok _]%Forall_app. by rewrite (O Hok) at 1. }
    assert (Ret w' = Ret (flush l [c] (emit (EGot l c) w))) as [= ->].
    { rewrite <- Hr. cbn. by destruct (cand_ok c). }
    destruct (flush_ok l x [c] (emit (EGot l c) w) HI1 Hl Hs). split; [done|]. etrans; [apply rel_emit|done].
  - simplify_eq. destruct (B eq_refl) as (Ha & _ & Hp). split.
    + apply (inv_event None None w _ l x (with_candidates false (pendingCandidates x ++ [c]) x) (EGot l c)); try done.
      * intros _. split; view; try done; cbn; [by rewrite Hp|]. intros _. by rewrite Ha, Hp.
      * cbn. by intros [].
    + etrans; [apply rel_emit|]. by apply (rel_link _ _ x).
Qed.

(** A callback that records a call of the application and runs its answer. *)
Lemma app_call_ok a cs w w' : run cs (set_app a w) = Ret w' -> Inv None w -> Inv None w' /\ Rel w w'.
Proof.
  intros Hr HI. destruct (run_dc_ok cs (set_app a w) w' Hr) as [HI' HR'].
  - apply (inv_state None w); try done. intros s Hs. by exists s.
  - split; [done|]. etrans; [|done]. by apply rel_same.
Qed.

Lemma OnLinkFailed_dc_ok e w w' : OnLinkFailed e w = Ret w' -> Inv None w -> Inv None w' /\ Rel w w'.
Proof.
  unfold OnLinkFailed. destruct (on_failed (app w) e) as [a cs]. intros Hr HI.
  destruct (app_call_ok a cs (emit (EFailed e) w) w' Hr) as [HI' HR']; [by apply inv_other|].
  split; [done|]. etrans; [apply rel_emit|done].
Qed.

Lemma deliver_link_ok l w w' : deliver_link l w = Ret w' -> Inv None w -> Inv None w' /\ Rel w w'.
Proof.
  unfold deliver_link. intros Hr HI. destruct (links w !! l) as [x|] eqn:Hl; [|done].
  set (w1 := emit (ELink l) (set_link l (with_attached x) w)) in *.
  assert (Inv None w1 /\ Rel w w1 /\ omap (is_shown l) (trace w1) <> []) as (HI1 & HR1 & Hs1).
  { split_and!.
    - apply (inv_event None None w w1 l x (with_attached x) (ELink l)); try done; [|cbn; by intros []].
      intros [B F O D1 D2 C S]. split; view; try done. right. by destruct (omap (is_shown l) (trace w)).
    - etrans; [by apply (rel_link w l x (with_attached x))|apply rel_emit].
    - unfold w1. view. by destruct (omap (is_shown l) (trace w)). }
  destruct (on_link (app w1) l) as [[[a cs] h] keep].
  apply obind_Ret in Hr as (w3 & H3 & Hr).
  destruct (app_call_ok a cs (if keep then set_kept ({[l]} ∪ kept w1) w1 else w1) w3 H3) as [HI3 HR3].
  { destruct keep; [|done]. apply (inv_state None w1); try done. intros s Hs. by exists s. }
  destruct (links w3 !! l) as [x3|] eqn:Hl3; simplify_eq. split.
  - apply (inv_link None None w3 l x3); try done. intros [B F O D1 D2 C S]. split; try done. right.
    eapply omap_prefix; [|exact Hs1]. destruct HR3 as [_ T]. by destruct keep.
  - etrans; [done|]. etrans; [|by apply (rel_link _ _ x3)]. destruct HR3 as [L T]. split; [|by destruct keep].
    intros k y Hk. apply L. by destruct keep.
Qed.

Lemma onClosed_ok p w : Inv None w -> Inv None (onClosed p w) /\ Rel w (onClosed p w).
Proof.
  unfold onClosed. destruct (state w) as [s|] eqn:Hs; [|done]. intros HI. split; [|by apply rel_same].
  apply (inv_state None w); try done. intros s' [= <-]. exists s. split_and!; [done| |done].
  apply delete_subseteq.
Qed.

Lemma onGone_ok p w : Inv None w -> Inv None (onGone p w) /\ Rel w (onGone p w).
Proof.
  unfold onGone. destruct (state w) as [s|] eqn:Hs; [|done]. intros HI. split; [|by apply rel_same].
  apply (inv_state None w); try done. intros s' [= <-]. exists s. split_and!; [done| |cbn; lia].
  apply delete_subseteq.
Qed.

Lemma onFailed_ok p w w' : onFailed p w = Ret w' -> Inv None w -> Inv None w' /\ Rel w w'.
Proof.
  unfold onFailed. intros Hr HI. destruct (onClosed_ok p w HI) as [HI1 HR1].
  destruct (acceptor_alive (onClosed p w)); simplify_eq; [|done].
  destruct (OnLinkFailed_dc_ok _ _ _ Hr HI1). split; [done|by etrans].
Qed.

Lemma state_change_ok l x st w w' :
  state_change l x st w = Ret w' -> Inv None w -> Inv None w' /\ Rel w w'.
Proof.
  unfold state_change. intros Hr HI. apply obind_Ret in Hr as (w1 & H1 & Hr).
  assert (Inv None w1 /\ Rel w w1) as [HI1 HR1].
  { destruct st, (inbound x); simplify_eq; try done; eauto using onGone_ok, onClosed_ok, onFailed_ok. }
  assert (Inv None w' /\ Rel w1 w') as [??]; [|split; [done|by etrans]].
  destruct (terminal st); [|by simplify_eq]. destruct (links w1 !! l) as [x1|] eqn:Hl; [|done].
  destruct (link_alive w1 l && negb (closedFired x1)) eqn:Hc; [|by simplify_eq]. reflect_bools.
  pose proof (i_ok _ _ HI1 l x1 Hl) as [B F O D1 D2 C S].
  assert (Inv None (set_link l (with_closed x1) w1)) as HI2.
  { by apply (inv_link None None w1 l x1). }
  assert (Rel w1 (set_link l (with_closed x1) w1)) as HR2 by (by apply (rel_link _ _ x1)).
  destruct (onDisconnected (handler x1)) eqn:Hd; [|by simplify_eq].
  destruct (on_disconnected (app (set_link l (with_closed x1) w1)) l) as [a cs].
  destruct (app_call_ok a cs (emit (EDisc l) (set_link l (with_closed x1) w1)) w' Hr) as [HI3 HR3].
  - assert (links (set_link l (with_closed x1) w1) !! l = Some (with_closed x1)) as Hl2 by apply lookup_insert_eq.
    assert (handler x1 <> no_handler) as Hh by (intros E; rewrite E in Hd; done).
    apply (inv_emit None None _ l (with_closed x1)); try done.
    + intros _. assert (omap (is_disc l) (trace w1) = []) as E by auto.
      split; view; try done. rewrite E. done.
    + intros _. by destruct S.
    + cbn. by intros [].
  - split; [done|]. etrans; [done|]. etrans; [apply rel_emit|done].
Qed.

Lemma dc_onMessage_ok l text d w w' : dc_onMessage l text d w = Ret w' -> Inv None w -> Inv None w' /\ Rel w w'.
Proof.
  unfold dc_onMessage. intros Hr HI. destruct (links w !! l) as [x|] eqn:Hl; [|by simplify_eq].
  split_match; [|by simplify_eq]. reflect_bools. destruct (on_received (app w) l d) as [a cs].
  destruct (app_call_ok a cs (emit (ERecv l d) w) w' Hr) as [HI1 HR1].
  - apply (inv_neutral w l x); try done. intros _ E. rewrite E in *. done.
  - split; [done|]. etrans; [apply rel_emit|done].
Qed.

Lemma fresh_link_ok w x : Inv None w -> remoteDescSet x = false -> pendingCandidates x = [] ->
  handler x = no_handler -> link_ok None (trace w) (next w) x.
Proof.
  intros HI Hr Hp Hh. assert (forall X (f : nat -> Event -> option X),
    (forall e l, is_Some (f l e) -> event_link e = Some l) -> omap (f (next w)) (trace w) = []) as E.
  { intros X f Hf. destruct (omap (f (next w)) (trace w)) as [|v vs] eqn:Ev; [done|].
    assert (v ∈ omap (f (next w)) (trace w)) as (e & He & Hv)%list_elem_of_omap by (rewrite Ev; left).
    pose proof (i_event _ _ HI e (next w) He (Hf _ _ (mk_is_Some _ _ Hv))) as Hs.
    pose proof (i_dom _ _ HI _ Hs). lia. }
  assert (forall X k l (v : X), is_Some (at_ l k v) -> k = l) as Ea.
  { intros X k l v. unfold at_. case_decide; [done|by intros []]. }
  assert (omap (is_got (next w)) (trace w) = [] /\ omap (is_added (next w)) (trace w) = [] /\
          omap (is_disc (next w)) (trace w) = [] /\ omap (is_close (next w)) (trace w) = []) as (E1 & E2 & E3 & E4).
  { split_and!; apply E; intros [] k; cbn; try (by intros []); by intros ->%Ea. }
  split; unfold got, added; rewrite ?Hr, ?Hp, ?Hh, ?E1, ?E2, ?E3, ?E4; try done; [|by left]. cbn. lia.
Qed.

Lemma new_link_dc_ok peer inb s w :
  Inv None w -> state w = Some s ->
  (inb = true -> maxInboundConnections <> 0 /\ (inboundCount s < maxInboundConnections)%nat) ->
  Inv None (new_link peer inb s w) /\ Rel w (new_link peer inb s w).
Proof.
  intros HI Hs Hm. assert (links w !! next w = None) as Hf.
  { destruct (links w !! next w) eqn:E; [|done]. assert (is_Some (links w !! next w)) as H1 by eauto.
    pose proof (i_dom _ _ HI _ H1). lia. }
  pose proof (fresh_link_ok w (mkLink peer inb false no_handler false false false []) HI eq_refl eq_refl eq_refl) as Hok.
  destruct HI as [D P N U E O Q C R]. split; [split; cbn; try done|split; [cbn|done]].
  - intros k [y Hk]. apply lookup_insert_Some in Hk as [[<- _]|[_ Hk]]; [lia|]. assert (k < next w)%nat; [eauto|lia].
  - intros s' p k [= <-]. cbn. intros Hp. apply lookup_insert_Some in Hp as [[<- <-]|[_ Hp]].
    + eexists. by rewrite lookup_insert_eq.
    + destruct (P s p k Hs Hp) as (y & Hy & Hr). exists y. rewrite lookup_insert_ne by congruence. done.
  - intros s' [= <-]. cbn. pose proof (N s Hs). destruct inb; [|done]. destruct (Hm eq_refl). lia.
  - intros k y Hy. apply lookup_insert_Some in Hy as [[<- <-]|[_ Hy]]; [|by apply (U k y)]. cbn. intros ->. by apply Hm.
  - intros e k He Hk. apply lookup_insert_is_Some'. right. by apply (E e).
  - intros k y Hy. apply lookup_insert_Some in Hy as [[<- <-]|[_ Hy]]; [done|]. by apply O.
  - intros k y Hk. exists y. rewrite lookup_insert_ne by congruence. done.
Qed.

Lemma OnMessage_dc_ok from payload s w w' :
  state w = Some s -> OnMessage from payload s w = Ret w' -> Inv None w -> Inv None w' /\ Rel w w'.
Proof.
  intros Hs Hr HI. unfold OnMessage, HandleOffer in Hr.
  assert (Inv None (emit EThrow w) /\ Rel w (emit EThrow w)) as Ht
    by (split; [by apply inv_other|apply rel_emit]).
  repeat (split_match; simplify_eq; try done); try (by eapply SetRemoteDescription_ok);
    try (by eapply AddRemoteCandidate_ok).
  reflect_bools. destruct (new_link_dc_ok from true s w HI Hs) as [HI1 HR1]; [split; [done|lia]|].
  destruct (SetRemoteDescription_ok _ _ _ _ _ Hr HI1). split; [done|by etrans].
Qed.

Lemma onJoined_ok r w w' : onJoined r w = Ret w' -> Inv None w -> Inv None w' /\ Rel w w'.
Proof.
  unfold onJoined. intros Hr HI. destruct (state w) as [s|] eqn:Hs; [|by simplify_eq].
  destruct r as [u|e]; [|by eapply OnLinkFailed_dc_ok].
  match type of Hr with context [set_state ?s1 w] => set (w1 := set_state s1 w) in * end.
  assert (Inv None w1 /\ Rel w w1) as [HI1 HR1].
  { split; [|by apply rel_same]. apply (inv_state None w); try done. intros s' [= <-]. by exists s. }
  destruct isOfferer; [|by simplify_eq]. unfold OpenOfferer in Hr. injection Hr as <-.
  destruct (new_link_dc_ok remote_id false (mkState (peers s) (inboundCount s) true) w1 HI1 eq_refl) as [HI2 HR2];
    [done|]. split; [|etrans; [done|etrans; [done|apply rel_emit]]].
  eapply inv_neutral; try done. cbn. apply lookup_insert_eq.
Qed.

Lemma input_dc_ok i w w' : input i w = Ret w' -> Inv None w -> Inv None w' /\ Rel w w'.
Proof.
  intros Hr HI. destruct i; cbn in Hr.
  - by eapply onJoined_ok.
  - repeat (split_match; simplify_eq; try done). by eapply OnMessage_dc_ok.
  - repeat (split_match; simplify_eq; try done). unfold OnLeft in Hr.
    destruct lost; [by eapply OnLinkFailed_dc_ok|by simplify_eq].
  - unfold dc_onOpen in Hr. repeat (split_match; simplify_eq; try done). by eapply deliver_link_ok.
  - unfold pc_onDataChannel in Hr. repeat (split_match; simplify_eq; try done). by eapply deliver_link_ok.
  - unfold pc_onStateChange in Hr. repeat (split_match; simplify_eq; try done). by eapply state_change_ok.
  - by eapply dc_onMessage_ok.
  - by simplify_eq.
  - unfold send_local in Hr. repeat (split_match; simplify_eq; try done);
      (split; [by apply inv_other|apply rel_emit]).
  - by eapply call_dc_ok.
Qed.

Lemma inputs_dc_ok ins w w' : inputs ins w = Ret w' -> Inv None w -> Inv None w' /\ Rel w w'.
Proof.
  revert w. induction ins as [|i ins IH]; intros w Hr HI; cbn in Hr; [by simplify_eq|].
  apply obind_Ret in Hr as (w1 & H1 & H2). destruct (input_dc_ok i w w1 H1 HI) as [HI1 HR1].
  destruct (IH w1 H2 HI1). split; [done|by etrans].
Qed.

Lemma Open_inv a : Inv None (Open a).
Proof.
  split; cbn; try done.
  - by intros l [].
  - intros s p l [= <-]. cbn. by rewrite lookup_empty.
  - intros s [= <-]. cbn. lia.
  - set_solver.
  - intros l [|e0 t1] e t2 E; done.
  - intros l [|e0 t1] e t2 E; done.
  - intros l [|e0 t1] e t2 E; done.
Qed.

(** ** Theorems *)


(** C6: trickled candidates: a candidate is handed to the peer connection only
    after its remote description; as long as libdatachannel refuses none of
    them, the candidates handed over, followed by those still buffered, are
    exactly the candidates received for the link, in order; and none stays
    buffered once the description is set. *)
Theorem candidates_applied_in_order (ins : list Input) (a : A) (w : World) (l : nat) (x : Link) :
  inputs ins (Open a) = Ret w -> links w !! l = Some x ->
  preceded (is_remote l) (fun e => is_Some (is_added l e)) (trace w) /\
  (Forall (fun c => cand_ok c = true) (got l (trace w)) ->
     got l (trace w) = added l (trace w) ++ pendingCandidates x) /\
  (remoteDescSet x = true -> pendingCandidates x = []).
Proof.
  intros Hr Hl. destruct (inputs_dc_ok ins (Open a) w Hr (Open_inv a)) as [HI _].
  destruct (i_ok _ _ HI l x Hl) as [B F O D1 D2 C S].
  split_and!; [apply HI|done|]. intros Hs. by apply F.
Qed.

(** C26: the number of inbound connections on the transport's books never
    exceeds the limit of the options, every entry of the peer map is a link to
    the peer it is filed under, and with the limit 0 (pure offerer) no offer
    ever creates a link. *)
Theorem inbound_limit (ins : list Input) (a : A) (w : World) (s : State) :
  inputs ins (Open a) = Ret w -> state w = Some s ->
  (inboundCount s <= maxInboundConnections)%nat /\
  (forall p l, peers s !! p = Some l -> exists x, links w !! l = Some x /\ remoteId x = p) /\
  (maxInboundConnections = 0 -> forall l x, links w !! l = Some x -> inbound x = false).
Proof.
  intros Hr Hs. destruct (inputs_dc_ok ins (Open a) w Hr (Open_inv a)) as [HI _].
  split_and!; [by apply HI|intros p l; by apply HI|]. intros H0 l x Hl. apply not_true_is_false. intros Hi.
  by apply (i_pure _ _ HI l x).
Qed.

(** What [OnMessage] is to do with a payload that the other end encoded. *)
Definition negotiate (from : string) (n : Negotiation) (s : State) (w : World) : outcome World :=
  match n with
  | Description "offer" sdp =>
    if bool_decide (inboundCount s < maxInboundConnections)%nat
    then SetRemoteDescription (next w) sdp DOffer (new_link from true s w) else Ret w
  | Description "answer" sdp =>
    match peers s !! remote_id with
    | Some l => if isOfferer then SetRemoteDescription l sdp DAnswer w else Ret w
    | None => Ret w
    end
  | Description _ _ => Ret w
  | Candidate cand mid =>
    match peers s !! from with Some l => AddRemoteCandidate l (cand, mid) w | None => Ret w end
  end.

(** C25: the two ends understand each other: what a link sends for an offer, an
    answer or a candidate of its peer connection is, when it arrives, exactly
    that offer, answer or candidate: an offer within the limit makes a new link
    whose remote description is the sent one, an answer reaches the offerer's
    link, a candidate the link of the sender. *)
Theorem negotiation_understood (n : Negotiation) (l : nat) (x : Link) (sa sb : State) (wa wb : World)
    (from : string) :
  encodable n -> links wa !! l = Some x -> state wa = Some sa -> sigUser sa = true ->
  state wb = Some sb -> sigUser sb = true ->
  (forall type sdp, n = Description type sdp -> type = "offer" \/ type = "answer") ->
  exists text, input (ILocal l n) wa = Ret (emit (ESig (remoteId x) text) wa) /\
    input (IMessage from text) wb = negotiate from n sb wb.
Proof.
  intros Hn Hl Hsa Hua Hsb Hub Hty. destruct (encode_value n Hn) as (text & j & He & Hp & _ & Hv).
  exists text. cbn [input]. unfold send_local. rewrite Hl, Hsa, Hua, He, Hsb, Hub. split; [done|].
  unfold OnMessage. rewrite Hp, Hv. destruct n as [type sdp|cand mid].
  - destruct (Hty type sdp eq_refl) as [-> | ->]; cbn -[decide].
    + rewrite lookup_insert_eq. cbn -[decide]. rewrite decide_True by done. unfold HandleOffer.
      rewrite Hv. cbn. repeat case_bool_decide; cbn; try lia; try done.
    + rewrite lookup_insert_eq. cbn -[decide]. rewrite decide_False, decide_True by done. rewrite Hv. cbn.
      destruct isOfferer, (peers sb !! remote_id); done.
  - cbn -[decide]. rewrite lookup_insert_eq. cbn -[decide]. rewrite 2!decide_False, decide_True by done.
    rewrite !Hv. done.
Qed.

(** Whether the handler learns that a connection closed depends on the
    application keeping the link: the transport's own reference is dropped
    first, so for a link that only the peer map holds the notification is lost. *)
Theorem disconnect_reported_iff_kept (l : nat) (x : Link) (s : State) (w : World) :
  links w !! l = Some x -> attached x = true -> closedFired x = false ->
  onDisconnected (handler x) = true -> (forall a, (on_disconnected a l).2 = []) ->
  state w = Some s -> (forall p, peers s !! p = Some l -> p = remoteId x) ->
  exists w', input (IState l PcClosed) w = Ret w' /\
    trace w' = trace w ++ (if decide (l ∈ kept w) then [EDisc l] else []).
Proof.
  intros Hl Ha Hc Hd Hcmd Hs Hp. cbn [input]. unfold pc_onStateChange. rewrite Hl, Ha.
  unfold state_change. cbn [terminal obind].
  set (w1 := if inbound x then onGone (remoteId x) w else onClosed (remoteId x) w).
  assert (links w1 = links w /\ kept w1 = kept w /\ trace w1 = trace w /\
          exists s1, state w1 = Some s1 /\ peers s1 = delete (remoteId x) (peers s)) as (E1 & E2 & E3 & s1 & E4 & E5).
  { unfold w1, onGone, onClosed. rewrite Hs. destruct (inbound x); split_and!; try done; by eexists. }
  rewrite E1, Hl. unfold link_alive. rewrite E2, E4, E5, Hc, Hd.
  rewrite (bool_decide_false (map_Exists _ (delete _ _))), orb_false_r.
  2: { intros (p & k & Hk & ->). apply lookup_delete_Some in Hk as [Hne Hk]. by apply Hne, eq_sym, Hp. }
  destruct (decide (l ∈ kept w)) as [Hin|Hin].
  - rewrite bool_decide_true by done. cbn. specialize (Hcmd (app w1)).
    destruct (on_disconnected (app w1) l) as [a cs]. cbn in Hcmd. subst cs. eexists. split; [done|]. cbn. by rewrite E3.
  - rewrite bool_decide_false by done. cbn. eexists. split; [done|]. by rewrite E3, app_nil_r.
Qed.

(** A terminal state of an inbound link, when the handler makes no calls. *)
Lemma inbound_close l x s st w :
  links w !! l = Some x -> attached x = true -> inbound x = true -> terminal st = true ->
  (forall a, (on_disconnected a l).2 = []) -> state w = Some s ->
  exists w' x', input (IState l st) w = Ret w' /\
    state w' = Some (mkState (delete (remoteId x) (peers s)) (Nat.pred (inboundCount s)) (sigUser s)) /\
    links w' !! l = Some x' /\ attached x' = true /\ inbound x' = true /\ remoteId x' = remoteId x /\
    (forall k, k <> l -> links w' !! k = links w !! k).
Proof.
  intros Hl Ha Hi Ht Hcmd Hs. cbn [input]. unfold pc_onStateChange. rewrite Hl, Ha. unfold state_change.
  rewrite Ht, Hi. set (w1 := onGone (remoteId x) w).
  assert (links w1 = links w /\ state w1 =
    Some (mkState (delete (remoteId x) (peers s)) (Nat.pred (inboundCount s)) (sigUser s))) as [E1 E2].
  { unfold w1, onGone. by rewrite Hs. }
  assert (match st with
    | PcClosed | PcDisconnected => Ret w1 | PcFailed => Ret w1 | _ => Ret w end = Ret w1) as -> by (by destruct st).
  cbn [obind]. rewrite E1, Hl. destruct (link_alive w1 l && negb (closedFired x)).
  - destruct (onDisconnected (handler x)).
    + specialize (Hcmd (app (set_link l (with_closed x) w1))). destruct (on_disconnected _ l) as [a cs]. cbn in Hcmd. subst cs.
      eexists _, (with_closed x). split; [done|]. cbn. rewrite E1, E2, lookup_insert_eq. split_and!; try done.
      intros k Hk. by rewrite lookup_insert_ne.
    + eexists _, (with_closed x). split; [done|]. cbn. rewrite E1, E2, lookup_insert_eq. split_and!; try done.
      intros k Hk. by rewrite lookup_insert_ne.
  - exists w1, x. rewrite E1, E2. done.
Qed.

(** One connection gives back two slots: a connection that is reported
    disconnected and then closed, as a lost connection is, decrements the
    count twice, so another live connection is no longer counted and the limit
    admits one connection too many. *)
Theorem close_frees_two_slots (l : nat) (x : Link) (s : State) (w : World) :
  links w !! l = Some x -> attached x = true -> inbound x = true ->
  (forall a, (on_disconnected a l).2 = []) -> state w = Some s ->
  exists w' s', inputs [IState l PcDisconnected; IState l PcClosed] w = Ret w' /\ state w' = Some s' /\
    inboundCount s' = (inboundCount s - 2)%nat.
Proof.
  intros Hl Ha Hi Hcmd Hs.
  destruct (inbound_close l x s PcDisconnected w Hl Ha Hi eq_refl Hcmd Hs) as (w1 & x1 & H1 & Hs1 & Hl1 & Ha1 & Hi1 & _).
  destruct (inbound_close l x1 _ PcClosed w1 Hl1 Ha1 Hi1 eq_refl Hcmd Hs1) as (w2 & x2 & H2 & Hs2 & _).
  exists w2. eexists. cbn [inputs obind]. rewrite H1. cbn [obind inputs]. rewrite H2. split; [done|].
  split; [exact Hs2|]. cbn. lia.
Qed.

(** The end of an old connection evicts the new one: when a peer has made a
    second offer, the close of its first connection removes the second link
    from the peer map; candidates that arrive for it are dropped. *)
Theorem stale_close_evicts_new_link (l k : nat) (x : Link) (s : State) (w : World) :
  links w !! l = Some x -> attached x = true -> inbound x = true ->
  (forall a, (on_disconnected a l).2 = []) -> state w = Some s -> sigUser s = true ->
  peers s !! remoteId x = Some k -> k <> l ->
  exists w', input (IState l PcClosed) w = Ret w' /\ links w' !! k = links w !! k /\
    forall text cand mid, encode (Candidate cand mid) = Some text -> encodable (Candidate cand mid) ->
      input (IMessage (remoteId x) text) w' = Ret w'.
Proof.
  intros Hl Ha Hi Hcmd Hs Hu Hp Hne.
  destruct (inbound_close l x s PcClosed w Hl Ha Hi eq_refl Hcmd Hs) as (w1 & x1 & H1 & Hs1 & Hl1 & _ & _ & _ & Ho).
  exists w1. split_and!; [done|by apply Ho|]. intros text cand mid He Hn.
  destruct (encode_value _ Hn) as (text' & j & He' & Hpj & _ & Hv). assert (text' = text) as -> by congruence.
  cbn [input]. rewrite Hs1. cbn [sigUser]. rewrite Hu. unfold OnMessage. rewrite Hpj, !Hv. cbn -[decide].
  rewrite lookup_insert_eq. cbn -[decide]. rewrite 2!decide_False, decide_True by done.
  by rewrite lookup_delete_eq.
Qed.

(** *** Offers whose channel never opens *)

Definition opens_channel (i : Input) : bool :=
  match i with IOpen _ | IDataChannel _ => true | _ => false end.

(** No link is attached, and the count is at the limit. *)
Definition wedged (w : World) : Prop :=
  (forall l x, links w !! l = Some x -> attached x = false) /\
  (forall s, state w = Some s -> (maxInboundConnections <= inboundCount s)%nat).

Lemma wedged_step w w' :
  wedged w -> (forall l x', links w' !! l = Some x' -> attached x' = true -> exists k x, links w !! k = Some x /\ attached x = true) ->
  (forall s', state w' = Some s' -> exists s, state w = Some s /\ (inboundCount s <= inboundCount s')%nat) -> wedged w'.
Proof.
  intros [U C] Hl Hs. split.
  - intros l x Hx. apply not_true_is_false. intros Ha. destruct (Hl l x Hx Ha) as (k & y & Hy & Hay).
    rewrite (U k y Hy) in Hay. done.
  - intros s' Hs'. destruct (Hs s' Hs') as (s & Hst & Hle). specialize (C s Hst). lia.
Qed.

Lemma wedged_call c w w' : call c w = Ret w' -> wedged w -> wedged w'.
Proof.
  intros Hr Hw. apply (wedged_step w); [done|..].
  - intros l x' Hx Ha. destruct c; cbn in Hr; unfold Send, Disconnect in Hr;
      repeat (split_match; simplify_eq; try done); simplify_eq; cbn in Hx; try (by exists l, x');
      apply lookup_insert_Some in Hx as [[<- <-]|[_ Hx]]; by repeat eexists.
  - intros s' Hs. exists s'. destruct c; cbn in Hr; unfold Send, Disconnect in Hr;
      repeat (split_match; simplify_eq; try done); by simplify_eq.
Qed.

Lemma wedged_run cs w w' : run cs w = Ret w' -> wedged w -> wedged w'.
Proof.
  revert w. induction cs as [|c cs IH]; intros w Hr Hw; cbn in Hr; [by simplify_eq|].
  apply obind_Ret in Hr as (w1 & H1 & H2). eauto using wedged_call.
Qed.

Lemma wedged_failed e w w' : OnLinkFailed e w = Ret w' -> wedged w -> wedged w'.
Proof.
  unfold OnLinkFailed. destruct (on_failed (app w) e) as [a cs]. intros Hr Hw. by eapply wedged_run.
Qed.

Lemma wedged_flush l cs w : wedged w -> wedged (flush l cs w).
Proof. revert w. induction cs as [|c cs IH]; intros w Hw; cbn; [done|]. destruct (cand_ok c); [by apply IH|done]. Qed.

Lemma wedged_set_link l x x' w : wedged w -> links w !! l = Some x -> attached x' = attached x -> wedged (set_link l x' w).
Proof.
  intros Hw Hl Ha. apply (wedged_step w); [done| |intros s Hs; by exists s].
  cbn. intros k y Hy Hay. apply lookup_insert_Some in Hy as [[<- <-]|[_ Hy]]; [|by eauto].
  exists l, x. by rewrite <- Ha.
Qed.

Lemma wedged_remote l sdp ty w w' : SetRemoteDescription l sdp ty w = Ret w' -> wedged w -> wedged w'.
Proof.
  unfold SetRemoteDescription. intros Hr Hw. repeat (split_match; simplify_eq; try done).
  apply wedged_flush. by eapply (wedged_set_link l _ _ (emit _ w)).
Qed.

Lemma wedged_candidate l c w w' : AddRemoteCandidate l c w = Ret w' -> wedged w -> wedged w'.
Proof.
  unfold AddRemoteCandidate. intros Hr Hw. repeat (split_match; simplify_eq; try done).
  by eapply (wedged_set_link l _ _ (emit _ w)).
Qed.

Lemma wedged_input i w w' : input i w = Ret w' -> opens_channel i = false -> wedged w -> wedged w'.
Proof.
  intros Hr Hi Hw. destruct i; cbn in Hr, Hi; try done.
  - unfold onJoined, OpenOfferer in Hr. repeat (split_match; simplify_eq; try done); try (by eapply wedged_failed);
      (apply (wedged_step w); [done| |intros s' [= <-]; by eexists]); cbn; intros k y Hy Hay.
    + apply lookup_insert_Some in Hy as [[<- <-]|[_ Hy]]; [done|by eauto].
    + by eauto.
  - repeat (split_match; simplify_eq; try done). pose proof (proj2 Hw _ Heqo) as Hc.
    unfold OnMessage in Hr. repeat (split_match; simplify_eq; try done); try (by eapply wedged_remote);
      try (by eapply wedged_candidate). reflect_bools. lia.
  - unfold OnLeft in Hr. repeat (split_match; simplify_eq; try done). by eapply wedged_failed.
  - unfold pc_onStateChange in Hr. split_match; [|by simplify_eq]. split_match; [|by simplify_eq].
    rewrite (proj1 Hw l _ Heqo) in *. done.
  - unfold dc_onMessage in Hr. repeat (split_match; simplify_eq; try done). reflect_bools.
    rewrite (proj1 Hw l _ Heqo) in *. done.
  - by simplify_eq.
  - unfold send_local in Hr. repeat (split_match; simplify_eq; try done).
  - by eapply wedged_call.
Qed.

(** A slot is given back only by a link whose data channel opened: once as
    many offers were accepted as the limit allows and none of their channels
    opened, whatever else happens (the connections failing and closing
    included) the transport rejects every further offer for good. *)
Theorem unopened_offers_wedge_transport (ins : list Input) (w w' : World) (s : State) (from sdp text : string) :
  (forall l x, links w !! l = Some x -> attached x = false) ->
  state w = Some s -> inboundCount s = maxInboundConnections ->
  forallb (fun i => negb (opens_channel i)) ins = true -> inputs ins w = Ret w' ->
  encodable (Description "offer" sdp) -> encode (Description "offer" sdp) = Some text ->
  input (IMessage from text) w' = Ret w'.
Proof.
  intros Hu Hs Hc Hins Hr Hn He. assert (wedged w) as Hw.
  { split; [done|]. intros s' Hs'. assert (s' = s) as -> by congruence. lia. }
  assert (wedged w') as [_ Hw'].
  { clear Hs Hu Hc. revert w Hr Hins Hw. induction ins as [|i ins IH]; intros w Hr Hins Hw; cbn in *; [by simplify_eq|].
    apply obind_Ret in Hr as (w1 & H1 & H2). reflect_bools. apply (IH w1); eauto using wedged_input. }
  destruct (encode_value _ Hn) as (text' & j & He' & Hpj & _ & Hv). assert (text' = text) as -> by congruence.
  cbn [input]. destruct (state w') as [s'|] eqn:Hs'; [|done]. destruct (sigUser s'); [|done].
  specialize (Hw' s' eq_refl). unfold OnMessage. rewrite Hpj, Hv. cbn -[decide]. rewrite lookup_insert_eq.
  cbn -[decide]. rewrite decide_True by done. rewrite (bool_decide_true (_ <= _)%nat), orb_true_r by done. done.
Qed.

End DcRtc.

(** ** Evaluation *)

Module Demo.

Definition sdp_ok (ty : DescType) (sdp : string) : bool := negb (bool_decide (sdp = "")).
Definition cand_ok (c : string * string) : bool := negb (bool_decide (c.1 = "")).
(** The application keeps every link but the first. *)
Definition on_link (a l : nat) : nat * list Cmd * LinkHandler * bool :=
  (a, [], mkHandler true true, negb (l =? 0)%nat).
Definition on_failed (a : nat) (e : Error) : nat * list Cmd := (a, []).
Definition on_received (a l : nat) (d : list byte) : nat * list Cmd := (a + length d, []).
Definition on_disconnected (a l : nat) : nat * list Cmd := (a, []).

(** A transport to [remote] with [max] inbound slots. *)
Definition step (remote : string) (max : nat) : Input -> World (A := nat) -> outcome World :=
  input (JL := Toy.lib) remote 8 max sdp_ok cand_ok on_link on_failed on_received on_disconnected.
Definition session (remote : string) (max : nat) (ins : list Input) : outcome (World (A := nat)) :=
  inputs (JL := Toy.lib) remote 8 max sdp_ok cand_ok on_link on_failed on_received on_disconnected ins (Open 0).
Definition result (remote : string) (max : nat) (ins : list Input) : World (A := nat) :=
  match session remote max ins with Ret w => w | _ => Open 0 end.

Definition text (n : Negotiation) : string := default "" (encode (JL := Toy.lib) n).
Definition link0 (w : World (A := nat)) : Link :=
  default (mkLink "" false false no_handler false false false []) (links w !! 0%nat).
Definition books (w : World (A := nat)) : State := default (mkState ∅ 0 false) (state w).

(** An offerer gets a candidate before the answer and one after; data; the
    application disconnects. *)
Definition offerer : list Input :=
  [IJoined (Value tt); IMessage "s" (text (Candidate "c1" "0")); IMessage "s" (text (Description "answer" "v"));
   IMessage "s" (text (Candidate "c2" "0")); IOpen 0; IData 0 false [x01; x02];
   ICmd (CDisconnect 0); IData 0 false [x03]; ICmd (CSend 0 [x04] 1 true); IState 0 PcClosed].
Definition dialled : World (A := nat) := Eval vm_compute in result "s" 0 offerer.
Lemma dialled_eq : session "s" 0 offerer = Ret dialled.
Proof. vm_compute. reflexivity. Qed.


Lemma candidates_applied_in_order_witness :
  got 0 (trace dialled) = [("c1", "0"); ("c2", "0")] /\
  got 0 (trace dialled) = added 0 (trace dialled) ++ [].
Proof.
  split; [reflexivity|].
  apply (candidates_applied_in_order "s" 8 0 sdp_ok cand_ok on_link on_failed on_received on_disconnected
           offerer 0 dialled 0 (link0 dialled) dialled_eq); [vm_compute; reflexivity|].
  repeat constructor.
Defined.

(** An answerer with two slots gets offers from three peers. *)
Definition offer (p : string) : Input := IMessage p (text (Description "offer" "v")).
Definition crowd : list Input := [IJoined (Value tt); offer "p"; offer "q"; offer "r"].
Definition crowded : World (A := nat) := Eval vm_compute in result "" 2 crowd.
Lemma crowded_eq : session "" 2 crowd = Ret crowded.
Proof. vm_compute. reflexivity. Qed.

Lemma inbound_limit_witness :
  (inboundCount (books crowded) <= 2)%nat /\ peers (books crowded) !! "r" = None.
Proof.
  split; [|vm_compute; reflexivity].
  apply (inbound_limit "" 8 2 sdp_ok cand_ok on_link on_failed on_received on_disconnected crowd 0 crowded
           (books crowded) crowded_eq). vm_compute. reflexivity.
Defined.

Definition joined : World (A := nat) := Eval vm_compute in result "" 2 [IJoined (Value tt)].

Lemma negotiation_understood_witness :
  exists text, step "s" 2 (ILocal 0 (Description "offer" "v")) dialled = Ret (emit (ESig "s" text) dialled) /\
    step "s" 2 (IMessage "c" text) joined =
      negotiate "s" 2 sdp_ok cand_ok "c" (Description "offer" "v") (books joined) joined.
Proof.
  destruct (negotiation_understood (JL := Toy.lib) "s" 8 2 sdp_ok cand_ok on_link on_failed on_received on_disconnected
    (Description "offer" "v") 0 (link0 dialled) (books dialled) (books joined) dialled joined "c") as (t & H1 & H2);
    try (vm_compute; reflexivity).
  - repeat constructor.
  - intros type sdp [= <- <-]. by left.
  - exists t. split; [exact H1|exact H2].
Defined.

(** Two peers are connected; the application did not keep the first link. *)
Definition connected : World (A := nat) :=
  Eval vm_compute in result "" 2 [IJoined (Value tt); offer "p"; offer "q"; IDataChannel 0; IDataChannel 1].

Lemma disconnect_reported_iff_kept_witness :
  exists w', step "" 2 (IState 0 PcClosed) connected = Ret w' /\ trace w' = trace connected.
Proof.
  destruct (disconnect_reported_iff_kept (JL := Toy.lib) "" 8 2 sdp_ok cand_ok on_link on_failed on_received
    on_disconnected 0 (link0 connected) (books connected) connected) as (w' & H1 & H2);
    try (vm_compute; reflexivity); try done.
  - assert (map_Forall (fun p k => k = 0 -> p = "p") (peers (books connected))) as Hm
      by (apply (bool_decide_unpack _); vm_compute; exact I).
    intros p Hp. by apply (Hm p 0).
  - exists w'. split; [exact H1|]. rewrite H2. vm_compute. reflexivity.
Defined.

Lemma close_frees_two_slots_witness :
  exists w' s', inputs (JL := Toy.lib) "" 8 2 sdp_ok cand_ok on_link on_failed on_received on_disconnected
      [IState 0 PcDisconnected; IState 0 PcClosed] connected = Ret w' /\
    state w' = Some s' /\ inboundCount s' = 0.
Proof.
  apply (close_frees_two_slots (JL := Toy.lib) "" 8 2 sdp_ok cand_ok on_link on_failed on_received on_disconnected
    0 (link0 connected) (books connected) connected); try (vm_compute; reflexivity); done.
Defined.

(** Peer "p" makes a second offer. *)
Definition twice : World (A := nat) :=
  Eval vm_compute in result "" 2 [IJoined (Value tt); offer "p"; IDataChannel 0; offer "p"].

Lemma stale_close_evicts_new_link_witness :
  exists w', step "" 2 (IState 0 PcClosed) twice = Ret w' /\
    step "" 2 (IMessage "p" (text (Candidate "c" "0"))) w' = Ret w'.
Proof.
  destruct (stale_close_evicts_new_link (JL := Toy.lib) (JW := Toy.laws) "" 8 2 sdp_ok cand_ok on_link on_failed
    on_received on_disconnected 0 1 (link0 twice) (books twice) twice) as (w' & H1 & _ & H3);
    try (vm_compute; reflexivity); try done.
  exists w'. split; [exact H1|]. apply (H3 _ "c" "0"); [vm_compute; reflexivity|repeat constructor].
Defined.

(** Both offers fail before a channel opens, and close. *)
Definition failures : list Input := [IState 0 PcFailed; IState 0 PcClosed; IState 1 PcFailed; IState 1 PcClosed].
Definition failed : World (A := nat) := Eval vm_compute in
  match inputs (JL := Toy.lib) "" 8 2 sdp_ok cand_ok on_link on_failed on_received on_disconnected failures crowded
  with Ret w => w | _ => Open 0 end.

Lemma unopened_offers_wedge_transport_witness :
  step "" 2 (IMessage "r" (text (Description "offer" "v"))) failed = Ret failed.
Proof.
  apply (unopened_offers_wedge_transport (JL := Toy.lib) (JW := Toy.laws) "" 8 2 sdp_ok cand_ok on_link on_failed
    on_received on_disconnected failures crowded failed (books crowded) "r" "v"); try (vm_compute; reflexivity).
  - change (map_Forall (fun _ x => attached x = false) (links crowded)).
    apply (bool_decide_unpack _). vm_compute. exact I.
  - repeat constructor.
Defined.

End Demo.
