(* ===== verification/WsClient.v ===== *)
(** * The WebSocket signaling client

    [src/pkg/rtt/rtc/Rtt/Rtc/Dc/DcWsSigClient.cpp]: one [Join], the
    [DcWsSigUser] it makes and the callbacks of its [rtc::WebSocket]. The
    callbacks run on threads of libdatachannel while the application uses the
    user, so an execution is a sequence of atomic actions of both: the critical
    sections of [_handlerMutex] and the code between them. *)

From Stdlib Require Import Strings.Ascii.
From S2P Require Import Prelude Rtt SigHub SigWire.

(** The state of the socket; [isOpen()] holds in [WsOpen] only. *)
Inductive WsState := WsConnecting | WsOpen | WsClosing | WsClosed.

#[global] Instance WsState_eq_dec : EqDecision WsState.
Proof. solve_decision. Defined.

(** Where the [onOpen] callback is: before it, in [onJoinedCap], in the loop of
    [SetHandler] with the messages still to replay, or finished. *)
Inductive Phase := Idle | Joining | Replaying (ms : list SigMessage) | Ready.

Inductive Event :=
| EJoined (r : expected unit Error)          (* [onJoined] is called *)
| EArrived (m : SigMessage)                  (* [Deliver] is called *)
| EDelivered (m : SigMessage)                (* [ISigHandler::OnMessage] *)
| ELost (ms : list SigMessage)               (* taken from the buffer with no handler to call *)
| ELeft (clean : bool)                       (* [ISigHandler::OnLeft] *)
| ESent (text : string) | EClose             (* [_ws->send], [_ws->close] *)
| ELate                                      (* [Leave] on a socket that is not open *)
| EThrow.

(** [user] says that [sharedUser->lock()] succeeds, [handler] that
    [_handler.lock()] does. *)
Record Client := mkClient {
  ws : WsState; fired : bool; phase : Phase; user : bool; handler : bool;
  pending : list SigMessage; leaving : bool; trace : list Event }.

Definition init : Client := mkClient WsConnecting false Idle false false [] false [].

Definition emit (e : Event) (c : Client) : Client :=
  mkClient (ws c) (fired c) (phase c) (user c) (handler c) (pending c) (leaving c) (trace c ++ [e]).
Definition set_ws (s : WsState) (c : Client) : Client :=
  mkClient s (fired c) (phase c) (user c) (handler c) (pending c) (leaving c) (trace c).
Definition set_phase (p : Phase) (c : Client) : Client :=
  mkClient (ws c) (fired c) p (user c) (handler c) (pending c) (leaving c) (trace c).
Definition set_user (b : bool) (c : Client) : Client :=
  mkClient (ws c) (fired c) (phase c) b (handler c) (pending c) (leaving c) (trace c).
Definition set_handler (b : bool) (p : list SigMessage) (c : Client) : Client :=
  mkClient (ws c) (fired c) (phase c) (user c) b p (leaving c) (trace c).
Definition set_leaving (c : Client) : Client :=
  mkClient (ws c) (fired c) (phase c) (user c) (handler c) (pending c) true (trace c).
Definition set_fired (c : Client) : Client :=
  mkClient (ws c) true (phase c) (user c) (handler c) (pending c) (leaving c) (trace c).

Section Client.
Context {J : Type} {JL : JsonLib J} {JW : JsonLaws J}.

Definition isOpen (c : Client) : bool := bool_decide (ws c = WsOpen).

(** [DcWsSigUser::Send]. *)
Definition Send (to payload : string) (c : Client) : Client :=
  if isOpen c then
    match envelope to payload with
    | Some text => emit (ESent text) c
    | None => emit EThrow c
    end
  else c.

(** [DcWsSigUser::NotifyClosed]. *)
Definition NotifyClosed (c : Client) : Client :=
  if handler c then emit (ELeft (leaving c)) c else c.

(** [DcWsSigUser::Leave]. *)
Definition Leave (c : Client) : Client :=
  if leaving c then c else
  let c1 := set_leaving c in
  if isOpen c1 then emit EClose (set_ws WsClosing c1) else NotifyClosed (emit ELate c1).

(** [DcWsSigUser::Deliver]: the handler is called with the mutex held. *)
Definition Deliver (m : SigMessage) (c : Client) : Client :=
  let c1 := emit (EArrived m) c in
  if handler c1 then emit (EDelivered m) c1 else set_handler false (pending c1 ++ [m]) c1.

(** [~DcWsSigUser]. *)
Definition destroy_user (c : Client) : Client :=
  set_user false (if isOpen c then emit EClose (set_ws WsClosing c) else c).

(** The critical section of [DcWsSigUser::SetHandler] and its [_handler.lock()];
    [alive] says whether the handler the application returned can be locked. *)
Definition SetHandler (alive : bool) (c : Client) : Client :=
  let c1 := set_handler alive [] c in
  if alive then set_phase (Replaying (pending c)) c1
  else set_phase Ready (emit (ELost (pending c)) c1).

(** The callbacks of [DcWsSigClient::Join]. *)
Definition onOpen (c : Client) : Client :=
  let c0 := set_ws WsOpen c in
  if fired c0 then c0
  else set_phase Joining (emit (EJoined (Value tt)) (set_user true (set_fired c0))).

Definition onError (c : Client) : Client :=
  if fired c then c else emit (EJoined (Unexpected ConnectionRefused)) (set_fired c).

Definition onClosed (c : Client) : Client :=
  let c1 := set_ws WsClosed c in if user c1 then NotifyClosed c1 else c1.

Definition onMessage (raw : frame) (c : Client) : Client :=
  match raw with
  | Binary _ => c
  | Text _ =>
    if user c then
      match open_envelope raw with
      | Ignored => c
      | Throws => emit EThrow c
      | Message from payload => Deliver (mkMsg from payload) c
      end
    else c
  end.

(** The atomic actions, with what enables them: the socket opens from
    connecting, fails or closes while it is not closed; the application calls a
    user it has; the user is destroyed when the application has released it and
    [onOpen] has returned; a handler can die at any time. *)
Inductive Action :=
| AOpen | AError | AClosing | AClosed | AMessage (raw : frame)   (* libdatachannel *)
| AHandler (alive : bool) | AReplay                              (* the rest of [onOpen] *)
| ASend (to payload : string) | ALeave | ADropUser | ADropHandler.

Definition act (a : Action) (c : Client) : option Client :=
  match a with
  | AOpen => if decide (ws c = WsConnecting) then Some (onOpen c) else None
  | AError => if decide (ws c = WsClosed) then None else Some (onError c)
  | AClosing => if decide (ws c = WsOpen) then Some (set_ws WsClosing c) else None
  | AClosed => if decide (ws c = WsClosed) then None else Some (onClosed c)
  | AMessage raw => if decide (ws c = WsOpen \/ ws c = WsClosing) then Some (onMessage raw c) else None
  | AHandler alive => match phase c with Joining => Some (SetHandler alive c) | _ => None end
  | AReplay =>
    match phase c with
    | Replaying (m :: ms) => Some (set_phase (Replaying ms) (emit (EDelivered m) c))
    | Replaying [] => Some (set_phase Ready c)
    | _ => None
    end
  | ASend to payload => if user c then Some (Send to payload c) else None
  | ALeave => if user c then Some (Leave c) else None
  | ADropUser => match phase c with Ready => if user c then Some (destroy_user c) else None | _ => None end
  | ADropHandler => Some (set_handler false (pending c) c)
  end.

Fixpoint acts (l : list Action) (c : Client) : option Client :=
  match l with
  | [] => Some c
  | a :: l' => act a c ≫= acts l'
  end.

(** ** Invariant *)

Definition joins (t : list Event) := omap (fun e => match e with EJoined r => Some r | _ => None end) t.
Definition arrived (t : list Event) := omap (fun e => match e with EArrived m => Some m | _ => None end) t.
Definition delivered (t : list Event) := omap (fun e => match e with EDelivered m => Some m | _ => None end) t.
Definition lost (t : list Event) := concat (omap (fun e => match e with ELost ms => Some ms | _ => None end) t).
Definition lefts (t : list Event) := omap (fun e => match e with ELeft b => Some b | _ => None end) t.
Definition lates (t : list Event) := omap (fun e => match e with ELate => Some tt | _ => None end) t.

Definition in_hand (p : Phase) : list SigMessage := match p with Replaying ms => ms | _ => [] end.

Record Inv (c : Client) : Prop := {
  i_join : length (joins (trace c)) = (if fired c then 1 else 0)%nat;
  i_idle : fired c = false -> phase c = Idle /\ user c = false;
  i_handler : handler c = true -> phase c <> Idle /\ phase c <> Joining;
  i_early : phase c = Idle \/ phase c = Joining -> delivered (trace c) = [] /\ lost (trace c) = [];
  i_all : arrived (trace c) ≡ₚ delivered (trace c) ++ lost (trace c) ++ in_hand (phase c) ++ pending c;
  i_late : (length (lates (trace c)) <= if leaving c then 1 else 0)%nat;
  i_left : (length (lefts (trace c)) <= length (lates (trace c)) + if decide (ws c = WsClosed) then 1 else 0)%nat }.

#[local] Ltac views :=
  unfold joins, arrived, delivered, lost, lefts, lates in *; cbn [trace emit set_ws set_phase set_user
    set_handler set_leaving set_fired ws fired phase user handler pending leaving in_hand] in *;
  rewrite ?omap_app, ?concat_app, ?length_app in *; cbn [omap list_omap concat app length] in *;
  rewrite ?app_nil_r, ?Nat.add_0_r in *.

Lemma init_client_inv : Inv init.
Proof. by split. Qed.

(** Messages: a delivery, the start and the steps of the replay. *)
Lemma Deliver_client_ok m c : Inv c -> fired c = true -> Inv (Deliver m c).
Proof.
  intros [J0 I H0 E A L0 L1] Hf. unfold Deliver. cbn [handler emit]. destruct (handler c) eqn:Hh.
  - destruct (H0 eq_refl) as [Hn1 Hn2]. split; views; try done; [by intros [|]|].
    rewrite A, <- !app_assoc. apply Permutation_app_head. by rewrite (Permutation_app_comm [m]), <- !app_assoc.
  - split; views; try done. rewrite A, <- !app_assoc. done.
Qed.

Lemma SetHandler_client_ok alive c : Inv c -> phase c = Joining -> Inv (SetHandler alive c).
Proof.
  intros [J0 I H0 E A L0 L1] Hp. destruct (E (or_intror Hp)) as [Ed El]. rewrite Hp in *. unfold SetHandler.
  destruct (fired c) eqn:Hf; [|by destruct (I eq_refl)].
  destruct alive; split; views; try done; try (by intros [|]); rewrite ?Ed, ?El in *; cbn in *;
    rewrite ?Hf, ?app_nil_r in *; done.
Qed.

Lemma Replay_client_ok c c' : Inv c -> act AReplay c = Some c' -> Inv c'.
Proof.
  intros [J0 I H0 E A L0 L1] Hr. cbn in Hr. destruct (fired c) eqn:Hf; [|destruct (I eq_refl) as [E0 _]; by rewrite E0 in Hr].
  destruct (phase c) as [| |[|m ms]|] eqn:Hp; simplify_eq; split; views; rewrite ?Hf; try done; try (by intros [|]).
  rewrite A, <- !app_assoc. apply Permutation_app_head. cbn. symmetry. apply Permutation_middle.
Qed.

(** The life of the socket. *)
Lemma NotifyClosed_ok c : Inv c ->
  (length (lefts (trace c)) < length (lates (trace c)) + if decide (ws c = WsClosed) then 1 else 0)%nat ->
  Inv (NotifyClosed c).
Proof.
  intros [J0 I H0 E A L0 L1] Hl. unfold NotifyClosed. destruct (handler c) eqn:Hh; [|by split; rewrite ?Hh].
  split; views; rewrite ?Hh; try done. lia.
Qed.

Lemma Leave_client_ok c : Inv c -> Inv (Leave c).
Proof.
  intros HI. unfold Leave. destruct (leaving c) eqn:Hl; [done|]. destruct HI as [J0 I H0 E A L0 L1].
  rewrite Hl in L0. destruct (isOpen (set_leaving c)) eqn:Ho; unfold isOpen in Ho; cbn in Ho; reflect_bools.
  - rewrite Ho in L1. split; views; try done; try lia.
  - apply NotifyClosed_ok; [split; views; try done; lia|]. views. case_decide; lia.
Qed.

Lemma onClosed_client_ok c : Inv c -> ws c <> WsClosed -> Inv (onClosed c).
Proof.
  intros HI Hw. unfold onClosed. assert (Inv (set_ws WsClosed c)) as HI'.
  { destruct HI as [J0 I H0 E A L0 L1]. rewrite decide_False in L1 by done. split; views; try done.
    rewrite decide_True by done. lia. }
  cbn [user set_ws]. destruct (user c); [|done]. apply NotifyClosed_ok; [done|]. destruct HI as [J0 I H0 E A L0 L1].
  rewrite decide_False in L1 by done. views. rewrite decide_True by done. lia.
Qed.

Lemma act_client_ok a c c' : act a c = Some c' -> Inv c -> Inv c'.
Proof.
  intros Hr HI. destruct a; cbn -[decide onMessage Send Leave destroy_user onOpen onError onClosed SetHandler] in Hr.
  - case_decide as Hw; [|done]. simplify_eq. pose proof HI as [J0 I H0 E A L0 L1]. rewrite Hw in L1. unfold onOpen. cbn [fired set_ws].
    destruct (fired c) eqn:Hf; [split; views; rewrite ?Hf; try done|].
    destruct (I eq_refl) as [Hp Hu]. destruct (E (or_introl Hp)) as [Ed El]. rewrite Hp in *.
    assert (handler c = false) as Hh by (apply not_true_is_false; intros Hh; by destruct (H0 Hh)).
    split; views; try done; rewrite ?Hh; try done. rewrite J0. done.
  - case_decide; [done|]. simplify_eq. pose proof HI as [J0 I H0 E A L0 L1]. unfold onError. destruct (fired c) eqn:Hf; [done|].
    split; views; try done. rewrite J0. done.
  - case_decide as Hw; [|done]. simplify_eq. pose proof HI as [J0 I H0 E A L0 L1]. rewrite Hw in L1. split; views; done.
  - case_decide; [done|]. simplify_eq. pose proof HI as [J0 I H0 E A L0 L1]. by apply onClosed_client_ok.
  - case_decide; [|done]. simplify_eq. pose proof HI as [J0 I H0 E A L0 L1]. unfold onMessage. destruct raw as [text|b]; [|done].
    destruct (user c) eqn:Hu; [|done]. destruct (fired c) eqn:Hf; [|destruct (I eq_refl); congruence].
    destruct (open_envelope (Text text)); [done| |by apply Deliver_client_ok]. split; views; rewrite ?Hf; done.
  - destruct (phase c) eqn:Hp; simplify_eq. pose proof HI as [J0 I H0 E A L0 L1]. by apply SetHandler_client_ok.
  - by eapply Replay_client_ok.
  - destruct (user c) eqn:Hu; simplify_eq. pose proof HI as [J0 I H0 E A L0 L1]. unfold Send. destruct (isOpen c); [|done].
    destruct (envelope to payload); by split; views.
  - destruct (user c); simplify_eq. pose proof HI as [J0 I H0 E A L0 L1]. by apply Leave_client_ok.
  - destruct (phase c) eqn:Hp; try done. destruct (user c) eqn:Hu; simplify_eq. pose proof HI as [J0 I H0 E A L0 L1].
    destruct (fired c) eqn:Hf; [|destruct (I eq_refl); congruence]. unfold destroy_user. destruct (isOpen c) eqn:Ho; unfold isOpen in Ho; reflect_bools;
      [rewrite Ho in L1|]; split; views; rewrite ?Hf; done.
  - simplify_eq. pose proof HI as [J0 I H0 E A L0 L1]. split; views; done.
Qed.

Lemma acts_client_ok l c c' : acts l c = Some c' -> Inv c -> Inv c'.
Proof.
  revert c. induction l as [|a l IH]; intros c Hr HI; cbn in Hr; [by simplify_eq|].
  apply bind_Some in Hr as (c1 & H1 & H2). eauto using act_client_ok.
Qed.

(** ** Theorems *)

(** C27: however the callbacks of the socket and the application interleave: the
    join callback runs at most once; every message that arrived for the user has
    been handed to the handler, or is being replayed, or is buffered, or was
    dropped because the application returned no handler, once each; and the
    handler is told at most once that the connection is over, unless [Leave] was
    called on a socket that was not open. *)
Theorem signaling_session (l : list Action) (c : Client) :
  acts l init = Some c ->
  (length (joins (trace c)) <= 1)%nat /\
  arrived (trace c) ≡ₚ delivered (trace c) ++ lost (trace c) ++ in_hand (phase c) ++ pending c /\
  (lates (trace c) = [] -> (length (lefts (trace c)) <= 1)%nat).
Proof.
  intros Hr. destruct (acts_client_ok l init c Hr init_client_inv) as [J0 I H0 E A L0 L1].
  split_and!; [by rewrite J0; destruct (fired c); lia|done|]. intros Hl. rewrite Hl in L1. cbn in L1.
  case_decide; lia.
Qed.

(** Messages can overtake each other: the replay of what was buffered while
    the application was joining runs after [SetHandler] has released the mutex,
    so a message that arrives then is delivered before older ones. *)
Theorem late_message_overtakes_buffered (c : Client) (m m1 : SigMessage) (ms : list SigMessage) (text : string) :
  phase c = Joining -> pending c = m1 :: ms -> user c = true -> ws c = WsOpen ->
  open_envelope (Text text) = Message (SigHub.from m) (payload m) ->
  exists c', acts [AHandler true; AMessage (Text text); AReplay] c = Some c' /\
    delivered (trace c') = delivered (trace c) ++ [m; m1] /\ phase c' = Replaying ms.
Proof.
  intros Hp Hb Hu Hw Ho. eexists. split_and!.
  - cbn -[open_envelope decide]. rewrite Hp. cbn -[open_envelope decide]. rewrite Hw, decide_True by (by left).
    cbn -[open_envelope decide]. rewrite Hu, Ho, Hb. cbn. reflexivity.
  - destruct m. views. rewrite <- !app_assoc. done.
  - done.
Qed.

(** The handler can be told twice that it left: when the socket is already
    closing (the server or the network ended the connection), [Leave] reports a
    clean leave at once and the close reports it again. *)
Theorem leave_while_closing_reports_twice (c : Client) :
  ws c = WsClosing -> user c = true -> handler c = true -> leaving c = false ->
  exists c', acts [ALeave; AClosed] c = Some c' /\ lefts (trace c') = lefts (trace c) ++ [true; true].
Proof.
  intros Hw Hu Hh Hl. eexists. split.
  - cbn -[decide Leave onClosed]. rewrite Hu. unfold Leave, isOpen, NotifyClosed. rewrite Hl.
    cbn -[decide onClosed bool_decide]. rewrite Hw, Hh, bool_decide_false by done. cbn -[decide onClosed].
    rewrite Hw, decide_False by done. unfold onClosed, NotifyClosed. cbn. rewrite Hu, Hh. reflexivity.
  - views. rewrite <- !app_assoc. done.
Qed.

End Client.

(** ** Evaluation *)

Module Demo.

Definition wire (from payload : string) : string := default "" (envelope (JL := Toy.lib) from payload).
Definition play (l : list Action) : Client := default init (acts (JL := Toy.lib) l init).

Definition chat : list Action :=
  [AOpen; AMessage (Text (wire "b" "one")); AMessage (Text (wire "b" "two")); AHandler true; AReplay; AReplay;
   AReplay; AMessage (Text (wire "b" "three")); ASend "b" "hi"; ALeave; AClosed].

Lemma signaling_session_witness :
  delivered (trace (play chat)) = [mkMsg "b" "one"; mkMsg "b" "two"; mkMsg "b" "three"] /\
  lefts (trace (play chat)) = [true] /\ (length (joins (trace (play chat))) <= 1)%nat.
Proof.
  split; [vm_compute; reflexivity|]. split; [vm_compute; reflexivity|].
  apply (signaling_session (JL := Toy.lib) chat). vm_compute. reflexivity.
Defined.

Definition buffering : Client :=
  Eval vm_compute in play [AOpen; AMessage (Text (wire "b" "one")); AMessage (Text (wire "b" "two"))].

Lemma late_message_overtakes_buffered_witness :
  exists c', acts (JL := Toy.lib) [AHandler true; AMessage (Text (wire "b" "three")); AReplay] buffering = Some c' /\
    delivered (trace c') = [mkMsg "b" "three"; mkMsg "b" "one"] /\ phase c' = Replaying [mkMsg "b" "two"].
Proof.
  apply (late_message_overtakes_buffered (JL := Toy.lib) buffering (mkMsg "b" "three") (mkMsg "b" "one")
           [mkMsg "b" "two"] (wire "b" "three")); vm_compute; reflexivity.
Defined.

Definition dropping : Client := Eval vm_compute in play [AOpen; AHandler true; AReplay; AClosing].

Lemma leave_while_closing_reports_twice_witness :
  exists c', acts (JL := Toy.lib) [ALeave; AClosed] dropping = Some c' /\ lefts (trace c') = [true; true].
Proof.
  apply (leave_while_closing_reports_twice (JL := Toy.lib) dropping); vm_compute; reflexivity.
Defined.

End Demo.
