(* ===== verification/WsServer.v ===== *)
(** * The WebSocket signaling server

    [src/pkg/rtt/rtc/Rtt/Rtc/Dc/DcWsSigServer.cpp] on top of the hub of
    [SigHub.v]: the server is an application of the hub whose handlers
    ([WsClientHandler]) write a frame to their socket and make no calls. Sockets
    are numbers; the handler of a socket has its number. The events are the
    callbacks of libdatachannel and [DisconnectPeer]. *)

From Stdlib Require Import Strings.Ascii.
From S2P Require Import Prelude Rtt SigHub SigWire.

Open Scope outcome_scope.

(** What the server keeps: the sockets that are open, for a registered socket
    its [connId] and the [user] of its handler, [Impl::connections], and what it
    asked of the sockets. *)
Record Server := mkServer {
  open_ : gset nat; connId : gmap nat string; user : gmap nat nat;
  connections : gmap string nat; frames : list (nat * string); closes : list nat; thrown : nat }.

Definition empty_server : Server := mkServer ∅ ∅ ∅ ∅ [] [] 0.

Section Server.
Context {J : Type} {JL : JsonLib J} {JW : JsonLaws J}.

(** [WsClientHandler::OnMessage]. *)
Definition on_message (a : Server) (h : nat) (m : SigMessage) : Server * list Cmd :=
  (if decide (h ∈ open_ a) then
     match envelope (from m) (payload m) with
     | Some text => mkServer (open_ a) (connId a) (user a) (connections a) (frames a ++ [(h, text)]) (closes a) (thrown a)
     | None => mkServer (open_ a) (connId a) (user a) (connections a) (frames a) (closes a) (S (thrown a))
     end
   else a, []).

(** [WsClientHandler::OnLeft]. *)
Definition on_left (a : Server) (h : nat) : Server * list Cmd := (a, []).

(** The callback of [hub->Register]: [handler->user = *result]. *)
Definition on_joined (a : Server) (h u : nat) : Server * list Cmd * option nat :=
  (mkServer (open_ a) (connId a) (<[h := u]> (user a)) (connections a) (frames a) (closes a) (thrown a),
   [CHold u], Some h).

Abbreviation World := (Hub (A := Server)).

(** The calls on the hub nest two deep (a join runs its callback). *)
Definition fuel : nat := 3.
Definition call_hub (cs : list Cmd) (w : World) : outcome World := exec on_message on_left on_joined fuel cs w.

(** [path.empty() ? path : path.substr(1)]. *)
Definition peer_of_path (path : option string) : string :=
  match default "" path with "" => "" | String _ rest => rest end.

Definition opened (ws : nat) (a : Server) : Server :=
  mkServer ({[ws]} ∪ open_ a) (connId a) (user a) (connections a) (frames a) (closes a) (thrown a).
Definition close (ws : nat) (a : Server) : Server :=
  mkServer (open_ a) (connId a) (user a) (connections a) (frames a) (closes a ++ [ws]) (thrown a).
Definition track (ws : nat) (id : string) (a : Server) : Server :=
  mkServer (open_ a) (<[ws := id]> (connId a)) (user a) (<[id := ws]> (connections a)) (frames a) (closes a) (thrown a).
Definition forget (ws : nat) (id : string) (a : Server) : Server :=
  mkServer (open_ a ∖ {[ws]}) (connId a) (user a) (delete id (connections a)) (frames a) (closes a) (thrown a).
Definition throw (a : Server) : Server :=
  mkServer (open_ a) (connId a) (user a) (connections a) (frames a) (closes a) (S (thrown a)).

(** [ws->onOpen]. *)
Definition onOpen (ws : nat) (path : option string) (w : World) : outcome World :=
  let w0 := set_app (opened ws (app w)) w in
  let id := peer_of_path path in
  if decide (id = "") then Ret (set_app (close ws (app w0)) w0)
  else
    let! w1 := call_hub [CCreate ws; CJoin id ws] w0 in
    Ret (set_app (track ws id (app w1)) w1).

(** [ws->onMessage]. *)
Definition onMessage (ws : nat) (raw : frame) (w : World) : outcome World :=
  match connId (app w) !! ws with
  | None => Ret w
  | Some id =>
    match open_envelope raw with
    | Ignored => Ret w
    | Throws => Ret (set_app (throw (app w)) w)
    | Message to p => Dispatch on_message (call_hub) id to p w
    end
  end.

(** [ws->onClosed]. *)
Definition onClosed (ws : nat) (w : World) : outcome World :=
  match connId (app w) !! ws with
  | None => Ret (set_app (mkServer (open_ (app w) ∖ {[ws]}) (connId (app w)) (user (app w)) (connections (app w))
                            (frames (app w)) (closes (app w)) (thrown (app w))) w)
  | Some id =>
    let w1 := set_app (forget ws id (app w)) w in
    match user (app w1) !! ws with
    | Some u => call_hub [CLeave u] w1
    | None => Ret w1
    end
  end.

(** [DcWsSigServer::DisconnectPeer]. *)
Definition DisconnectPeer (peer : string) (w : World) : outcome World :=
  match connections (app w) !! peer with
  | Some ws => if decide (ws ∈ open_ (app w)) then Ret (set_app (close ws (app w)) w) else Ret w
  | None => Ret w
  end.

Inductive SEvent :=
| SOpen (ws : nat) (path : option string)
| SMessage (ws : nat) (raw : frame)
| SClosed (ws : nat)
| SDisconnect (peer : string).

Definition serve (e : SEvent) (w : World) : outcome World :=
  match e with
  | SOpen ws path => onOpen ws path w
  | SMessage ws raw => onMessage ws raw w
  | SClosed ws => onClosed ws w
  | SDisconnect peer => DisconnectPeer peer w
  end.

Fixpoint serve_all (es : list SEvent) (w : World) : outcome World :=
  match es with
  | [] => Ret w
  | e :: es' => let! w1 := serve e w in serve_all es' w1
  end.

Definition start : World := init empty_server.

(** The sockets that open, in order: a socket opens once. *)
Definition openings (es : list SEvent) : list nat :=
  omap (fun e => match e with SOpen ws _ => Some ws | _ => None end) es.

(** ** Invariant *)

(** The registered sockets are the created handlers, each with its own user,
    which the handler keeps alive; no lock is held between events. [seen] has the
    sockets that have opened. *)
Record Inv (seen : list nat) (w : World) : Prop := {
  i_stack : pins w = [] /\ hpins w = [];
  i_seen h : h ∈ created w \/ is_Some (user (app w) !! h) -> h ∈ seen;
  i_next u : is_Some (users w !! u) -> (u < next w)%nat;
  i_user h u : user (app w) !! h = Some u -> exists x, users w !! u = Some x /\
     u ∈ held w /\ h ∈ handlers w /\ connId (app w) !! h = Some (localId x) /\
     handler x = Some h /\ pending x = [] /\ locked x = false;
  i_owner u : is_Some (users w !! u) -> exists h, user (app w) !! h = Some u;
  i_conn h id : connId (app w) !! h = Some id -> is_Some (user (app w) !! h);
  i_peers id u : peers w !! id = Some u -> exists x, users w !! u = Some x /\ localId x = id }.

(** *** What the calls on the hub do *)

Lemma relock (x : HubUser) : locked x = false -> with_lock false (with_lock true x) = x.
Proof. by destruct x; cbn; intros ->. Qed.

Lemma hub_ext (w w' : World) :
  peers w = peers w' -> users w = users w' -> next w = next w' -> held w = held w' -> pins w = pins w' ->
  handlers w = handlers w' -> hpins w = hpins w' -> created w = created w' -> app w = app w' ->
  trace w = trace w' -> w = w'.
Proof. destruct w, w'; cbn; intros; by subst. Qed.

#[local] Ltac by_fields :=
  f_equal; apply hub_ext;
  cbn [peers users next held pins handlers hpins created app trace set_user set_peers set_held set_pins
       set_handlers set_app emit Unregister fst];
  rewrite ?insert_insert_eq.

Lemma dispatch_eq seen w src to p u :
  Inv seen w -> peers w !! to = Some u ->
  exists h, user (app w) !! h = Some u /\ connId (app w) !! h = Some to /\
    Dispatch on_message call_hub src to p w =
      Ret (mkHub (peers w) (users w) (next w) (held w) (pins w) (handlers w) (hpins w) (created w)
             (on_message (app w) h (mkMsg src p)).1
             (trace w ++ [EAccepted u to (mkMsg src p); EMessage u h (mkMsg src p)])).
Proof.
  intros HI Hp. destruct (i_peers _ _ HI to u Hp) as (x & Hx & Hid).
  destruct (i_owner _ _ HI u) as [h Hh]; [eauto|]. destruct (i_user _ _ HI h u Hh) as (x' & Hx' & Hu & Hal & Hc & Hhd & _ & Hl).
  simplify_eq. exists h. split_and!; [done|done|]. unfold Dispatch. rewrite Hp, decide_True by (by left).
  unfold pinned, Deliver, lock. cbn [users emit set_pins]. rewrite Hx, Hl. cbn [obind].
  unfold lock_handler. rewrite Hhd. cbn [mbind option_bind]. rewrite decide_True by (by left).
  unfold call_OnMessage, pinned. cbn [app emit set_user set_pins].
  destruct (on_message (app w) h (mkMsg src p)) as [a cs] eqn:Ea. assert (cs = []) as -> by (unfold on_message in Ea; congruence).
  cbn [call_hub fuel exec obind]. unfold unlock. cbn [users set_pins set_app emit set_user].
  rewrite lookup_insert_eq, relock by done. by_fields; try reflexivity.
  - by rewrite insert_id.
  - by rewrite <- app_assoc.
Qed.

Lemma register_eq seen w ws id :
  Inv seen w -> ws ∉ seen ->
  call_hub [CCreate ws; CJoin id ws] w =
    Ret (mkHub (<[id := next w]> (peers w)) (<[next w := mkUser id (Some ws) [] false false]> (users w)) (S (next w))
           ({[next w]} ∪ held w) [] ({[ws]} ∪ handlers w) [] ({[ws]} ∪ created w)
           (on_joined (app w) ws (next w)).1.1 (trace w)).
Proof.
  intros HI Hn. destruct (i_stack _ _ HI) as [Hp Hh]. unfold call_hub, fuel. cbn [exec call].
  rewrite decide_False by (intros Hc; apply Hn, (i_seen _ _ HI); by left). cbn [obind exec call].
  unfold Register, pinned. cbn [next app set_pins peers users held pins handlers hpins created trace on_joined].
  cbn [exec call].
  rewrite decide_True by (right; cbn [pins set_app set_pins]; apply list_elem_of_here). cbn [obind exec].
  rewrite decide_True by (left; cbn [handlers set_user set_held set_app set_pins]; clear; set_solver). unfold SetHandler, lock.
  cbn [users set_held set_app set_pins]. rewrite lookup_insert_eq. cbn [locked obind].
  rewrite decide_True by (left; cbn [handlers set_user set_held set_app set_pins]; clear; set_solver).
  cbn [pending replay]. unfold pinned. cbn [replay obind].
  unfold unlock. cbn [users set_pins set_user set_app set_held]. rewrite lookup_insert_eq.
  by_fields; try done.
Qed.

Lemma leave_eq seen w h u x :
  Inv seen w -> user (app w) !! h = Some u -> users w !! u = Some x ->
  call_hub [CLeave u] w =
    Ret (if left_ x then w else
         mkHub (delete (localId x) (peers w)) (<[u := with_left x]> (users w)) (next w) (held w) (pins w)
           (handlers w) (hpins w) (created w) (app w) (trace w ++ [ELeft u h])).
Proof.
  intros HI Hu Hx. destruct (i_user _ _ HI h u Hu) as (x' & Hx' & Hh & Hal & Hc & Hhd & _ & Hl). simplify_eq.
  unfold call_hub, fuel. cbn [exec call]. unfold Leave. rewrite Hx, decide_True by (by left).
  destruct (left_ x) eqn:Hle; [done|]. unfold lock. cbn [users set_user Unregister set_peers].
  rewrite lookup_insert_eq. cbn [locked with_left]. rewrite Hl. cbn [obind]. unfold unlock.
  cbn [users set_user Unregister set_peers]. rewrite lookup_insert_eq. unfold lock_handler. cbn [handler with_left].
  rewrite Hhd. cbn [mbind option_bind]. rewrite decide_True by (by left). unfold call_OnLeft, pinned.
  cbn [on_left app set_pins exec obind]. by_fields; try done.
  destruct x; cbn in *. by subst.
Qed.

(** *** The invariant is kept *)

(** A change of the server's own books only. *)
Lemma inv_books seen w a :
  Inv seen w -> connId a = connId (app w) -> user a = user (app w) -> Inv seen (set_app a w).
Proof. intros [S1 S2 N U O C P] Hc Hu. split; cbn [app set_app]; rewrite ?Hc, ?Hu; done. Qed.

Lemma inv_trace seen w a t :
  Inv seen w -> connId a = connId (app w) -> user a = user (app w) ->
  Inv seen (mkHub (peers w) (users w) (next w) (held w) (pins w) (handlers w) (hpins w) (created w) a t).
Proof. intros [S1 S2 N U O C P] Hc Hu. split; cbn; rewrite ?Hc, ?Hu; done. Qed.

Lemma on_message_books a h m :
  connId (on_message a h m).1 = connId a /\ user (on_message a h m).1 = user a.
Proof. unfold on_message. cbn. case_decide; [|done]. by destruct (envelope _ _). Qed.

Lemma onMessage_server_ok seen ws raw w : Inv seen w -> exists w', onMessage ws raw w = Ret w' /\ Inv seen w'.
Proof.
  intros HI. unfold onMessage. destruct (connId (app w) !! ws) as [id|]; [|by exists w].
  destruct (open_envelope raw) as [| |to p]; [by exists w|eexists; split; [done|by apply inv_books]|].
  destruct (peers w !! to) as [u|] eqn:Hp.
  - destruct (dispatch_eq seen w id to p u HI Hp) as (h & _ & _ & ->). eexists. split; [done|].
    destruct (on_message_books (app w) h (mkMsg id p)). by apply inv_trace.
  - unfold Dispatch. rewrite Hp. by exists w.
Qed.

Lemma onOpen_server_ok seen ws path w :
  Inv seen w -> ws ∉ seen -> exists w', onOpen ws path w = Ret w' /\ Inv (ws :: seen) w'.
Proof.
  intros HI Hn. unfold onOpen. set (w0 := set_app (opened ws (app w)) w).
  assert (Inv seen w0) as HI0 by (by apply inv_books).
  assert (forall w', Inv seen w' -> Inv (ws :: seen) w') as Hw.
  { intros w' [S1 S2 N U O C P]. split; try done. intros h Hh. right. by apply S2. }
  case_decide as Hid; [eexists; split; [done|]; by apply Hw, inv_books|].
  rewrite (register_eq seen w0 ws _ HI0 Hn). cbn [obind]. eexists. split; [done|].
  set (id := peer_of_path path) in *. pose proof HI0 as [[S1 S1'] S2 N U O C P].
  assert (user (app w0) !! ws = None) as Hu0.
  { destruct (user (app w0) !! ws) eqn:E; [|done]. exfalso. apply Hn, S2. right. eauto. }
  split; cbn [app set_app peers users next held pins handlers hpins created trace].
  - done.
  - intros h [Hh|Hh].
    + apply elem_of_union in Hh as [->%elem_of_singleton|Hh]; [left|right; apply S2; by left].
    + cbn in Hh. apply lookup_insert_is_Some' in Hh as [<-|Hh]; [left|right; apply S2; by right].
  - intros u [x Hx]. apply lookup_insert_Some in Hx as [[<- _]|[_ Hx]]; [lia|].
    assert (u < next w0)%nat by (apply N; eauto). lia.
  - intros h u Hh. cbn in Hh. apply lookup_insert_Some in Hh as [[<- <-]|[Hne Hh]].
    + eexists. rewrite lookup_insert_eq. cbn. rewrite lookup_insert_eq. split_and!; try done; set_solver.
    + destruct (U h u Hh) as (x & Hx & Hhd & Hal & Hc & Hrest). exists x.
      assert (u < next w0)%nat by (apply N; eauto). rewrite lookup_insert_ne by lia. cbn.
      rewrite lookup_insert_ne by done. split_and!; [done|set_solver|set_solver|apply Hc|apply Hrest..].
  - intros u [x Hx]. cbn. apply lookup_insert_Some in Hx as [[<- _]|[Hne Hx]].
    + exists ws. apply lookup_insert_eq.
    + destruct (O u) as [h Hh]; [eauto|]. exists h. rewrite lookup_insert_ne by congruence. done.
  - intros h id' Hh. cbn in *. apply lookup_insert_is_Some'. apply lookup_insert_Some in Hh as [[<- _]|[_ Hh]]; [by left|].
    right. by eapply C.
  - intros id' u Hp. apply lookup_insert_Some in Hp as [[<- <-]|[_ Hp]].
    + eexists. by rewrite lookup_insert_eq.
    + destruct (P id' u Hp) as (x & Hx & Hl). exists x. assert (u < next w0)%nat by (apply N; eauto).
      by rewrite lookup_insert_ne by lia.
Qed.

Lemma onClosed_server_ok seen ws w : Inv seen w -> exists w', onClosed ws w = Ret w' /\ Inv seen w'.
Proof.
  intros HI. unfold onClosed. destruct (connId (app w) !! ws) as [id|] eqn:Hc;
    [|eexists; split; [done|by apply inv_books]].
  set (w1 := set_app (forget ws id (app w)) w). assert (Inv seen w1) as HI1 by (by apply inv_books).
  destruct (user (app w1) !! ws) as [u|] eqn:Hu; [|by exists w1].
  destruct (i_user _ _ HI1 ws u Hu) as (x & Hx & _). rewrite (leave_eq seen w1 ws u x HI1 Hu Hx).
  eexists. split; [done|]. destruct (left_ x); [done|]. destruct HI1 as [S1 S2 N U O C P].
  split; cbn [app peers users next held pins handlers hpins created trace]; try done.
  - intros v Hv. apply lookup_insert_is_Some' in Hv as [<-|Hv]; apply N; eauto.
  - intros h v Hv. destruct (U h v Hv) as (y & Hy & Hrest). destruct (decide (v = u)) as [->|Hne].
    + rewrite lookup_insert_eq. exists (with_left x). simplify_eq. by destruct x.
    + rewrite lookup_insert_ne by done. by exists y.
  - intros v Hv. apply lookup_insert_is_Some' in Hv as [<-|Hv]; apply O; eauto.
  - intros id' v Hp. apply lookup_delete_Some in Hp as [Hne Hp]. destruct (P id' v Hp) as (y & Hy & Hl).
    destruct (decide (v = u)) as [->|Hnv]; [congruence|]. rewrite lookup_insert_ne by done. by exists y.
Qed.

Definition newly (e : SEvent) : list nat := match e with SOpen ws _ => [ws] | _ => [] end.

Lemma serve_ok seen e w :
  Inv seen w -> (forall ws, ws ∈ newly e -> ws ∉ seen) -> exists w', serve e w = Ret w' /\ Inv (newly e ++ seen) w'.
Proof.
  intros HI Hn. destruct e as [ws path|ws raw|ws|peer]; cbn [serve newly app].
  - apply onOpen_server_ok; [done|]. apply Hn. left.
  - by apply onMessage_server_ok.
  - by apply onClosed_server_ok.
  - unfold DisconnectPeer. destruct (connections (app w) !! peer) as [ws|]; [|by exists w].
    case_decide; [|by exists w]. eexists. split; [done|]. by apply inv_books.
Qed.

Lemma openings_cons e es : openings (e :: es) = newly e ++ openings es.
Proof. by destruct e. Qed.

Lemma serve_all_ok seen es w :
  Inv seen w -> NoDup (openings es) -> (forall ws, ws ∈ openings es -> ws ∉ seen) ->
  exists w', serve_all es w = Ret w' /\ Inv (reverse (openings es) ++ seen) w'.
Proof.
  revert seen w. induction es as [|e es IH]; intros seen w HI Hnd Hn; cbn [serve_all].
  { exists w. done. }
  rewrite openings_cons in *. apply NoDup_app in Hnd as (_ & Hd & Hnd).
  destruct (serve_ok seen e w HI) as (w1 & -> & HI1); [intros ws Hws; apply Hn; set_solver|]. cbn [obind].
  destruct (IH (newly e ++ seen) w1 HI1 Hnd) as (w' & Hw & HI').
  { intros ws Hws [Hin|Hin]%elem_of_app; [by apply (Hd ws)|]. apply (Hn ws); set_solver. }
  exists w'. split; [done|]. rewrite reverse_app, <- app_assoc.
  assert (reverse (newly e) = newly e) as -> by (by destruct e). done.
Qed.

Lemma start_inv : Inv [] start.
Proof.
  split; cbn; try done; intros; repeat match goal with
  | H : is_Some (∅ !! _) |- _ => by destruct H
  | H : ∅ !! _ = Some _ |- _ => by rewrite lookup_empty in H
  | H : _ \/ _ |- _ => destruct H; [set_solver|] end.
Qed.

(** ** Theorems *)

(** The registry the clients see: who gets the messages for an identifier. *)
Definition routes_to (w : World) (id : string) (ws : nat) : Prop :=
  exists u, peers w !! id = Some u /\ user (app w) !! ws = Some u /\ connId (app w) !! ws = Some id.

(** C9: the signaling server relays: whatever happened before, it handles every
    callback to the end (its use of the hub never deadlocks), and a frame from a
    registered client for an identifier is written, wrapped with the sender's
    identifier, to the one socket registered under that identifier if it is
    open, and to no other. *)
Theorem server_relays (es : list SEvent) (w : World) (i : nat) (a b p text : string) :
  NoDup (openings es) -> serve_all es start = Ret w ->
  connId (app w) !! i = Some a -> open_envelope (Text text) = Message b p ->
  exists w', serve (SMessage i (Text text)) w = Ret w' /\
    match peers w !! b with
    | None => w' = w
    | Some _ => exists j, routes_to w b j /\
        app w' = (on_message (app w) j (mkMsg a p)).1 /\
        (j ∈ open_ (app w) -> forall t, envelope a p = Some t -> frames (app w') = frames (app w) ++ [(j, t)]) /\
        (j ∉ open_ (app w) -> frames (app w') = frames (app w))
    end.
Proof.
  intros Hnd Hr Hc Ho. destruct (serve_all_ok [] es start start_inv Hnd) as (w0 & Hw0 & HI); [set_solver|].
  assert (w0 = w) as -> by congruence. cbn [serve]. unfold onMessage. rewrite Hc, Ho.
  destruct (peers w !! b) as [u|] eqn:Hp.
  - destruct (dispatch_eq _ w a b p u HI Hp) as (j & Hu & Hj & ->). eexists. split; [done|]. exists j.
    cbn [app]. split; [by exists u|]. split; [done|]. unfold on_message. cbn. split.
    + intros Hin t Ht. rewrite decide_True by done. by rewrite Ht.
    + intros Hin. by rewrite decide_False.
  - unfold Dispatch. rewrite Hp. by exists w.
Qed.

(** Every sequence of callbacks, the sockets opening once each, is handled:
    no call on the hub deadlocks, touches a dead user or runs out of steps, and
    afterwards every registered identifier belongs to a socket that connected
    under it. *)
Theorem server_never_blocks (es : list SEvent) :
  NoDup (openings es) ->
  exists w, serve_all es start = Ret w /\
    forall id u, peers w !! id = Some u -> exists ws, routes_to w id ws.
Proof.
  intros Hnd. destruct (serve_all_ok [] es start start_inv Hnd) as (w & Hw & HI); [set_solver|].
  exists w. split; [done|]. intros id u Hp. destruct (i_peers _ _ HI id u Hp) as (x & Hx & <-).
  destruct (i_owner _ _ HI u) as [h Hh]; [eauto|]. destruct (i_user _ _ HI h u Hh) as (x' & Hx' & _ & _ & Hc & _).
  exists h, u. simplify_eq. done.
Qed.

(** A reconnected client is cut off by its old connection: when a client has
    connected again under its identifier and the server then notices that the
    old socket is closed, the identifier is unregistered, and every message for
    the client is dropped although its new socket is open; [DisconnectPeer] no
    longer finds it either. *)
Theorem stale_socket_cuts_off_reconnected (es : list SEvent) (w : World) (i j : nat) (id : string) (ui : nat) (xi : HubUser) :
  NoDup (openings es) -> serve_all es start = Ret w ->
  connId (app w) !! i = Some id -> user (app w) !! i = Some ui -> users w !! ui = Some xi -> left_ xi = false ->
  routes_to w id j -> j ∈ open_ (app w) -> i <> j ->
  exists w', serve (SClosed i) w = Ret w' /\ j ∈ open_ (app w') /\
    (forall k src p text, connId (app w') !! k = Some src -> open_envelope (Text text) = Message id p ->
       serve (SMessage k (Text text)) w' = Ret w') /\
    serve (SDisconnect id) w' = Ret w'.
Proof.
  intros Hnd Hr Hc Hu Hx Hl Hj Ho Hne.
  destruct (serve_all_ok [] es start start_inv Hnd) as (w0 & Hw0 & HI); [set_solver|].
  assert (w0 = w) as -> by congruence. cbn [serve]. unfold onClosed. rewrite Hc.
  set (w1 := set_app (forget i id (app w)) w). assert (Inv (reverse (openings es) ++ []) w1) as HI1 by (by apply inv_books).
  assert (user (app w1) !! i = Some ui) as Hu1 by done. rewrite Hu1.
  rewrite (leave_eq _ w1 i ui xi HI1 Hu1 Hx), Hl. eexists. split; [done|].
  destruct (i_user _ _ HI i ui Hu) as (x & Hx' & _ & _ & Hci & _). simplify_eq.
  cbn [app]. split_and!.
  - unfold w1. cbn. set_solver.
  - intros k src p text Hk Henv. unfold onMessage. cbn [app]. rewrite Hk, Henv. unfold Dispatch. cbn [peers].
    by rewrite lookup_delete_eq.
  - unfold DisconnectPeer. cbn. by rewrite lookup_delete_eq.
Qed.

End Server.

(** ** Evaluation *)

Module Demo.

Definition wire (to p : string) : string := default "" (envelope (JL := Toy.lib) to p).
Definition served (es : list SEvent) : Hub (A := Server) :=
  match serve_all (JL := Toy.lib) es start with Ret w => w | _ => start end.

Definition two : list SEvent := [SOpen 0 (Some "/a"); SOpen 1 (Some "/b"); SOpen 2 (Some "/")].

Lemma nodup3 : NoDup [0; 1; 2].
Proof. repeat (constructor; [set_solver|]). constructor. Qed.

Lemma server_never_blocks_witness :
  exists w, serve_all (JL := Toy.lib) two start = Ret w /\
    forall id u, peers w !! id = Some u -> exists ws, routes_to w id ws.
Proof. apply (server_never_blocks (JL := Toy.lib) two). exact nodup3. Defined.

Lemma server_relays_witness :
  exists w', serve (JL := Toy.lib) (SMessage 0 (Text (wire "b" "hi"))) (served two) = Ret w' /\
    frames (app w') = [(1, wire "a" "hi")].
Proof.
  destruct (server_relays (JL := Toy.lib) two (served two) 0 "a" "b" "hi" (wire "b" "hi")) as (w' & H1 & H2);
    [exact nodup3|vm_compute; reflexivity..|].
  exists w'. split; [exact H1|].
  assert (peers (served two) !! "b" = Some 1) as Hp by (vm_compute; reflexivity). rewrite Hp in H2.
  destruct H2 as (j & (u & Hu & Huj & _) & _ & H3 & _). assert (u = 1) as -> by (vm_compute in Hu; congruence).
  assert (map_Forall (fun k v => v = 1 -> k = 1) (user (app (served two)))) as Hm
    by (apply (bool_decide_unpack _); vm_compute; exact I).
  assert (j = 1) as -> by (by apply (Hm j 1)). apply H3; vm_compute; reflexivity.
Defined.

(** Client "a" connects again (socket 1), then its old socket 0 closes. *)
Definition again : list SEvent := [SOpen 0 (Some "/a"); SOpen 1 (Some "/a"); SOpen 2 (Some "/b")].

Lemma stale_socket_cuts_off_reconnected_witness :
  exists w', serve (JL := Toy.lib) (SClosed 0) (served again) = Ret w' /\ 1 ∈ open_ (app w') /\
    (forall k src p text, connId (app w') !! k = Some src -> open_envelope (JL := Toy.lib) (Text text) = Message "a" p ->
       serve (JL := Toy.lib) (SMessage k (Text text)) w' = Ret w') /\
    serve (JL := Toy.lib) (SDisconnect "a") w' = Ret w'.
Proof.
  apply (stale_socket_cuts_off_reconnected (JL := Toy.lib) again (served again) 0 1 "a" 0
    (mkUser "a" (Some 0) [] false false)); [exact nodup3|vm_compute; reflexivity..| | |done].
  - exists 1. split_and!; vm_compute; reflexivity.
  - vm_compute. reflexivity.
Defined.

End Demo.
