(* ===== verification/JsWs.v ===== *)
(** * The signaling client of the browser build

    [src/pkg/rtt/rtc/Rtt/Rtc/Js/JsWsSigClient.cpp]: C++ contexts on the heap,
    referred to by address from JavaScript closures, and [JsWsSigUser] objects
    that own them. The model has the heap, the map [Module._rtt_wsMap] and the
    WebSockets with the address their closures captured; an access to a context
    that is not on the heap crashes. Addresses are chosen by the environment and
    can be used again after a [delete]. The browser is the input: it fires the
    events of a socket as its state allows. *)

From S2P Require Import Prelude Rtt SigHub.

Open Scope outcome_scope.

(** [JsWsSigContext]; [handler] is a weak pointer to an [ISigHandler]. *)
Record Ctx := mkCtx { ctx_id : string; handler : option nat; fired : bool; leaving : bool }.

(** [WebSocket.readyState]. *)
Inductive Ready := CONNECTING | OPEN | CLOSING | CLOSED.

#[global] Instance Ready_eq_dec : EqDecision Ready.
Proof. solve_decision. Defined.

(** A socket and the [ctx] its handlers captured. *)
Record Socket := mkSocket { sctx : nat; ready : Ready }.

(** Calls of the application on users it holds. *)
Inductive Cmd := CSend (u : nat) (to p : string) | CLeave (u : nat) | CDrop (u : nat).

Inductive Event :=
| EJoined (r : expected nat Error)
| EMessage (h : nat) (m : SigMessage)
| ELeft (h : nat) (clean : bool)
| ESend (ws : nat) (to p : string) | EClose (ws : nat).

Section JsWs.
Context {A : Type}.
(** The application: the join callback gets a user or an error and answers
    with its handler and whether it keeps the user. *)
Context (on_joined : A -> expected nat Error -> A * list Cmd * option nat * bool).
Context (on_message : A -> nat -> SigMessage -> A * list Cmd).
Context (on_left : A -> nat -> bool -> A * list Cmd).

(** [owner] has the live [JsWsSigUser] objects with their [_ctx]; handlers in
    [dead] can no longer be locked. *)
Record World := mkWorld {
  heap : gmap nat Ctx; wsMap : gmap nat nat; sockets : gmap nat Socket; next_ws : nat;
  owner : gmap nat nat; next_user : nat; dead : gset nat; app : A; trace : list Event }.

Definition set_heap (h : gmap nat Ctx) (w : World) : World :=
  mkWorld h (wsMap w) (sockets w) (next_ws w) (owner w) (next_user w) (dead w) (app w) (trace w).
Definition set_wsMap (m : gmap nat nat) (w : World) : World :=
  mkWorld (heap w) m (sockets w) (next_ws w) (owner w) (next_user w) (dead w) (app w) (trace w).
Definition set_socket (ws : nat) (r : Ready) (w : World) : World :=
  match sockets w !! ws with
  | Some s => mkWorld (heap w) (wsMap w) (<[ws := mkSocket (sctx s) r]> (sockets w)) (next_ws w) (owner w)
                (next_user w) (dead w) (app w) (trace w)
  | None => w
  end.
Definition set_owner (o : gmap nat nat) (w : World) : World :=
  mkWorld (heap w) (wsMap w) (sockets w) (next_ws w) o (next_user w) (dead w) (app w) (trace w).
Definition set_app (a : A) (w : World) : World :=
  mkWorld (heap w) (wsMap w) (sockets w) (next_ws w) (owner w) (next_user w) (dead w) a (trace w).
Definition emit (e : Event) (w : World) : World :=
  mkWorld (heap w) (wsMap w) (sockets w) (next_ws w) (owner w) (next_user w) (dead w) (app w) (trace w ++ [e]).

Definition lock_handler (c : Ctx) (w : World) : option nat :=
  h ← handler c; if decide (h ∈ dead w) then None else Some h.

(** [JsWsContext_Connect]: a new socket whose handlers capture [ctx]. *)
Definition Connect (ctx : nat) (w : World) : World :=
  mkWorld (heap w) (<[ctx := next_ws w]> (wsMap w)) (<[next_ws w := mkSocket ctx CONNECTING]> (sockets w))
    (S (next_ws w)) (owner w) (next_user w) (dead w) (app w) (trace w).

(** [JsWsContext_Send]. *)
Definition JsSend (ctx : nat) (to p : string) (w : World) : World :=
  match wsMap w !! ctx with Some ws => emit (ESend ws to p) w | None => w end.

(** [JsWsContext_Close]. *)
Definition JsClose (ctx : nat) (w : World) : World :=
  match wsMap w !! ctx with
  | None => w
  | Some ws =>
    let w1 := set_wsMap (delete ctx (wsMap w)) w in
    match ready <$> sockets w !! ws with
    | Some OPEN | Some CONNECTING => emit (EClose ws) (set_socket ws CLOSING w1)
    | _ => w1
    end
  end.

(** [~JsWsSigUser]: [delete _ctx] of a context that is gone is a double free. *)
Definition destroy_user (u : nat) (w : World) : outcome World :=
  match owner w !! u with
  | None => Ret w
  | Some ctx =>
    let w1 := JsClose ctx (set_owner (delete u (owner w)) w) in
    match heap w1 !! ctx with
    | Some _ => Ret (set_heap (delete ctx (heap w1)) w1)
    | None => Crash
    end
  end.

Section Calls.
Context (run : list Cmd -> World -> outcome World).

(** [h->OnLeft(...)]. *)
Definition call_left (h : nat) (clean : bool) (w : World) : outcome World :=
  let '(a, cs) := on_left (app w) h clean in run cs (set_app a (emit (ELeft h clean) w)).

(** [JsWsSigUser::Leave]. *)
Definition Leave (u : nat) (w : World) : outcome World :=
  match owner w !! u with
  | None => Ret w
  | Some ctx =>
    match heap w !! ctx with
    | None => Crash
    | Some c =>
      if leaving c then Ret w else
      let w1 := set_heap (<[ctx := mkCtx (ctx_id c) (handler c) (fired c) true]> (heap w)) w in
      let h := lock_handler c w1 in
      let w2 := JsClose ctx w1 in
      match h with Some h => call_left h true w2 | None => Ret w2 end
    end
  end.

Definition call (c : Cmd) (w : World) : outcome World :=
  match c with
  | CSend u to p => match owner w !! u with Some ctx => Ret (JsSend ctx to p w) | None => Ret w end
  | CLeave u => Leave u w
  | CDrop u => destroy_user u w
  end.

(** [JsWsContext_OnOpen]: a user takes the context over; the join callback
    runs, then its handler is stored in the context. *)
Definition OnOpen (ctx : nat) (w : World) : outcome World :=
  match heap w !! ctx with
  | None => Crash
  | Some c =>
    let u := next_user w in
    let w1 := mkWorld (heap w) (wsMap w) (sockets w) (next_ws w) (<[u := ctx]> (owner w)) (S u) (dead w) (app w) (trace w) in
    if fired c then destroy_user u w1 else
    let w2 := set_heap (<[ctx := mkCtx (ctx_id c) (handler c) true (leaving c)]> (heap w1)) w1 in
    let '(a, cs, h, keep) := on_joined (app w2) (Value u) in
    let! w3 := run cs (set_app a (emit (EJoined (Value u)) w2)) in
    let! w4 := if keep : bool then Ret w3 else destroy_user u w3 in
    match heap w4 !! ctx with
    | None => Crash
    | Some c4 => Ret (set_heap (<[ctx := mkCtx (ctx_id c4) h (fired c4) (leaving c4)]> (heap w4)) w4)
    end
  end.

(** [JsWsSigContext::OnError]. *)
Definition OnError (ctx : nat) (w : World) : outcome World :=
  match heap w !! ctx with
  | None => Crash
  | Some c =>
    if fired c then Ret w else
    let w1 := set_heap (<[ctx := mkCtx (ctx_id c) (handler c) true (leaving c)]> (heap w)) w in
    let '(a, cs, _, _) := on_joined (app w1) (Unexpected ConnectionRefused) in
    let! w2 := run cs (set_app a (emit (EJoined (Unexpected ConnectionRefused)) w1)) in
    match heap w2 !! ctx with
    | None => Crash
    | Some _ => Ret (set_heap (delete ctx (heap w2)) w2)
    end
  end.

(** [JsWsSigContext::OnClose]. *)
Definition OnClose (ctx : nat) (w : World) : outcome World :=
  match heap w !! ctx with
  | None => Crash
  | Some c =>
    if leaving c then Ret w else
    match lock_handler c w with Some h => call_left h false w | None => Ret w end
  end.

(** [JsWsSigContext::OnMessage]. *)
Definition OnMessage (ctx : nat) (m : SigMessage) (w : World) : outcome World :=
  match heap w !! ctx with
  | None => Crash
  | Some c =>
    match lock_handler c w with
    | Some h => let '(a, cs) := on_message (app w) h m in run cs (set_app a (emit (EMessage h m) w))
    | None => Ret w
    end
  end.

(** [JsWsSigClient::Join]: [ctx] is the address [new] returns. *)
Definition Join (id : string) (ctx : nat) (w : World) : outcome World :=
  match heap w !! ctx with
  | Some _ => Ret w
  | None => Ret (Connect ctx (set_heap (<[ctx := mkCtx id None false false]> (heap w)) w))
  end.

(** The guard of the JavaScript handlers: [Module._rtt_wsMap.get(ctx) === ws]. *)
Definition mapped (ws : nat) (s : Socket) (w : World) : bool := bool_decide (wsMap w !! sctx s = Some ws).

Inductive Input :=
| IJoin (id : string) (ctx : nat)
| IOpen (ws : nat) | IError (ws : nat) | IClose (ws : nat) | IMessage (ws : nat) (m : SigMessage)
| IHandlerDies (h : nat)
| ICmd (c : Cmd).

(** The browser fires [open] on a connecting socket, messages on an open one,
    [error] and [close] until it is closed. A message is what [JSON.parse] makes
    of its text ([id] and [payload], empty if missing); a text that does not
    parse does not get past the handler. *)
Definition input (i : Input) (w : World) : outcome World :=
  match i with
  | IJoin id ctx => Join id ctx w
  | IOpen ws =>
    match sockets w !! ws with
    | Some s => if decide (ready s = CONNECTING) then OnOpen (sctx s) (set_socket ws OPEN w) else Ret w
    | None => Ret w
    end
  | IError ws =>
    match sockets w !! ws with
    | Some s =>
      if decide (ready s = CLOSED) then Ret w else
      let w0 := set_socket ws CLOSING w in
      if mapped ws s w0 then OnError (sctx s) (set_wsMap (delete (sctx s) (wsMap w0)) w0) else Ret w0
    | None => Ret w
    end
  | IClose ws =>
    match sockets w !! ws with
    | Some s =>
      if decide (ready s = CLOSED) then Ret w else
      let w0 := set_socket ws CLOSED w in
      if mapped ws s w0 then OnClose (sctx s) (set_wsMap (delete (sctx s) (wsMap w0)) w0) else Ret w0
    | None => Ret w
    end
  | IMessage ws m =>
    match sockets w !! ws with
    | Some s =>
      if decide (ready s = OPEN) then
        if mapped ws s w then OnMessage (sctx s) m w else Ret w
      else Ret w
    | None => Ret w
    end
  | IHandlerDies h =>
    Ret (mkWorld (heap w) (wsMap w) (sockets w) (next_ws w) (owner w) (next_user w) ({[h]} ∪ dead w) (app w) (trace w))
  | ICmd c => call c w
  end.

End Calls.

Fixpoint exec (fuel : nat) (cs : list Cmd) (w : World) : outcome World :=
  match cs with
  | [] => Ret w
  | c :: cs' =>
    match fuel with
    | O => Running
    | S fuel' => let! w1 := call (exec fuel') c w in exec fuel' cs' w1
    end
  end.

Fixpoint inputs (fuel : nat) (ins : list Input) (w : World) : outcome World :=
  match ins with
  | [] => Ret w
  | i :: ins' => let! w1 := input (exec fuel) i w in inputs fuel ins' w1
  end.

Definition init (a : A) : World := mkWorld ∅ ∅ ∅ 0 ∅ 0 ∅ a [].

(** ** Invariant: who owns what *)

Record Inv (w : World) : Prop := {
  i_ws ws : is_Some (sockets w !! ws) -> (ws < next_ws w)%nat;
  i_users u : is_Some (owner w !! u) -> (u < next_user w)%nat;
  (* a user owns its context alone *)
  i_owned u ctx : owner w !! u = Some ctx -> exists c, heap w !! ctx = Some c /\ fired c = true;
  i_alone u v ctx : owner w !! u = Some ctx -> owner w !! v = Some ctx -> u = v;
  (* a mapped context exists, and its socket's closures captured it *)
  i_map ctx ws : wsMap w !! ctx = Some ws -> is_Some (heap w !! ctx) /\ sctx <$> sockets w !! ws = Some ctx;
  (* until it opens, a socket is mapped and its context is nobody's *)
  i_connecting ws s : sockets w !! ws = Some s -> ready s = CONNECTING ->
    wsMap w !! sctx s = Some ws /\ exists c, heap w !! sctx s = Some c /\ fired c = false;
  (* a context that has not fired is nobody's: it is mapped *)
  i_waiting u ctx c : heap w !! ctx = Some c -> fired c = false -> owner w !! u <> Some ctx }.

(** An outcome that is not a crash, with what holds when it is a result. *)
Definition ok (P : World -> Prop) (m : outcome World) : Prop :=
  match m with Ret w => P w | Running => True | Crash => False end.

Lemma ok_bind P Q m k : ok P m -> (forall w, P w -> ok Q (k w)) -> ok Q (let! w := m in k w).
Proof. destruct m; cbn; auto. Qed.

Lemma ok_mono (P Q : World -> Prop) m : ok P m -> (forall w, P w -> Q w) -> ok Q m.
Proof. destruct m; cbn; auto. Qed.

(** What the calls of the application leave: contexts without an owner; they
    create no users and map no sockets. *)
Record Rel (w w' : World) : Prop := {
  r_heap ctx c : heap w !! ctx = Some c -> (forall u, owner w !! u <> Some ctx) -> heap w' !! ctx = Some c;
  r_owner u ctx : owner w' !! u = Some ctx -> owner w !! u = Some ctx;
  r_map ctx ws : wsMap w' !! ctx = Some ws -> wsMap w !! ctx = Some ws }.

#[global] Instance js_rel_preorder : PreOrder Rel.
Proof.
  split; [by split|]. intros w1 w2 w3 [H1 O1 M1] [H2 O2 M2]. split; [|by eauto..].
  intros ctx c Hc Hu. apply H2; [by apply H1|]. intros u Hx. by apply (Hu u), O1.
Qed.

Definition safe (run : list Cmd -> World -> outcome World) : Prop :=
  forall cs w, Inv w -> ok (fun w' => Inv w' /\ Rel w w') (run cs w).

(** *** Parts of the operations *)

Lemma inv_app a e w : Inv w -> Inv (set_app a (emit e w)).
Proof. intros [W U O N M C Q]. by split. Qed.
Lemma rel_app a e w : Rel w (set_app a (emit e w)).
Proof. by split. Qed.

Lemma sockets_set ws r w : sockets (set_socket ws r w) =
  match sockets w !! ws with Some s => <[ws := mkSocket (sctx s) r]> (sockets w) | None => sockets w end.
Proof. unfold set_socket. by destruct (sockets w !! ws). Qed.

Lemma set_socket_same ws r w :
  heap (set_socket ws r w) = heap w /\ wsMap (set_socket ws r w) = wsMap w /\ owner (set_socket ws r w) = owner w /\
  app (set_socket ws r w) = app w /\ next_user (set_socket ws r w) = next_user w /\
  next_ws (set_socket ws r w) = next_ws w /\ trace (set_socket ws r w) = trace w /\ dead (set_socket ws r w) = dead w.
Proof. unfold set_socket. by destruct (sockets w !! ws). Qed.

Lemma socket_ctx ws r w k : sctx <$> sockets (set_socket ws r w) !! k = sctx <$> sockets w !! k.
Proof.
  rewrite sockets_set. destruct (sockets w !! ws) as [s|] eqn:E; [|done].
  destruct (decide (k = ws)) as [->|Hne]; [rewrite lookup_insert_eq, E|rewrite lookup_insert_ne]; done.
Qed.

(** A socket that leaves [CONNECTING] for good. *)
Lemma inv_socket ws r w : Inv w -> r <> CONNECTING -> Inv (set_socket ws r w).
Proof.
  intros [W U O N M C Q] Hr. destruct (set_socket_same ws r w) as (E1 & E2 & E3 & E4 & E5 & E6 & E7 & E8).
  split; rewrite ?E1, ?E2, ?E3, ?E5, ?E6; try done.
  - intros k Hk. apply W. rewrite sockets_set in Hk. destruct (sockets w !! ws) eqn:E; [|done].
    apply lookup_insert_is_Some' in Hk as [<-|Hk]; eauto.
  - intros ctx k Hk. rewrite socket_ctx. by apply M.
  - intros k s Hk Hc. apply (C k s); [|done]. rewrite sockets_set in Hk. destruct (sockets w !! ws) eqn:E; [|done].
    apply lookup_insert_Some in Hk as [[<- <-]|[_ Hk]]; [done|done].
Qed.

(** [ctx] is unmapped when its socket is past [CONNECTING] or it has fired. *)
Lemma inv_unmap ctx w :
  Inv w -> (forall ws s, sockets w !! ws = Some s -> ready s = CONNECTING -> sctx s <> ctx) ->
  Inv (set_wsMap (delete ctx (wsMap w)) w).
Proof.
  intros [W U O N M C Q] Hc. split; cbn; try done.
  - intros k ws Hk. apply lookup_delete_Some in Hk as [_ Hk]. by apply M.
  - intros ws s Hs Hr. destruct (C ws s Hs Hr) as [Hm Hh]. split; [|done]. rewrite lookup_delete_ne; [done|].
    intros ->. by apply (Hc ws s).
Qed.

Lemma fired_not_connecting ctx c w ws s :
  Inv w -> heap w !! ctx = Some c -> fired c = true -> sockets w !! ws = Some s -> ready s = CONNECTING -> sctx s <> ctx.
Proof.
  intros HI Hc Hf Hs Hr <-. destruct (i_connecting _ HI ws s Hs Hr) as (_ & c' & Hc' & Hf'). congruence.
Qed.

Lemma JsClose_ok ctx c w :
  Inv w -> heap w !! ctx = Some c -> fired c = true ->
  Inv (JsClose ctx w) /\ heap (JsClose ctx w) = heap w /\ owner (JsClose ctx w) = owner w /\
  wsMap (JsClose ctx w) = delete ctx (wsMap w).
Proof.
  intros HI Hc Hf. unfold JsClose. destruct (wsMap w !! ctx) as [ws|] eqn:Hm; [|by rewrite delete_id].
  assert (Inv (set_wsMap (delete ctx (wsMap w)) w)) as H1.
  { apply inv_unmap; [done|]. intros k s. by apply (fired_not_connecting ctx c). }
  set (w1 := set_wsMap (delete ctx (wsMap w)) w) in *.
  destruct (set_socket_same ws CLOSING w1) as (E1 & E2 & E3 & _).
  destruct (ready <$> sockets w !! ws) as [[]|]; cbn [heap owner wsMap emit]; rewrite ?E1, ?E2, ?E3; split_and!; try done;
    (assert (Inv (set_socket ws CLOSING w1)) as [] by (by apply inv_socket); by split).
Qed.

(** A context that nobody owns and no socket is mapped to is deleted. *)
Lemma inv_delete ctx w :
  Inv w -> (forall u, owner w !! u <> Some ctx) -> wsMap w !! ctx = None -> Inv (set_heap (delete ctx (heap w)) w).
Proof.
  intros [W U O N M C Q] Hno Hnm. split; cbn; try done.
  - intros v k Hv. destruct (O v k Hv) as (c' & Hk & Hfk). exists c'. rewrite lookup_delete_ne; [done|].
    intros ->. by apply (Hno v).
  - intros k ws Hk. destruct (M k ws Hk) as [Hh Hs]. split; [|done]. rewrite lookup_delete_ne; [done|]. congruence.
  - intros ws s Hs Hr. destruct (C ws s Hs Hr) as (Hm & c' & Hk & Hfk). split; [done|]. exists c'.
    rewrite lookup_delete_ne; [done|]. congruence.
  - intros v k c' Hk. apply lookup_delete_Some in Hk as [_ Hk]. by apply Q.
Qed.

(** The context of a destroyed user is deleted. *)
Lemma destroy_user_ok u w : Inv w -> ok (fun w' => Inv w' /\ Rel w w') (destroy_user u w).
Proof.
  intros HI. unfold destroy_user. destruct (owner w !! u) as [ctx|] eqn:Hu; [|by cbn].
  destruct (i_owned _ HI u ctx Hu) as (c & Hc & Hf).
  set (w0 := set_owner (delete u (owner w)) w). assert (Inv w0) as H0.
  { destruct HI as [W U O N M C Q]. split; cbn; try done.
    - intros v [y Hv]. apply lookup_delete_Some in Hv as [_ Hv]. eauto.
    - intros v k Hv. apply lookup_delete_Some in Hv as [_ Hv]. eauto.
    - intros v1 v2 k H1 H2. apply lookup_delete_Some in H1 as [_ H1]. apply lookup_delete_Some in H2 as [_ H2]. eauto.
    - intros v k c' Hk Hfk Hv. apply lookup_delete_Some in Hv as [_ Hv]. by apply (Q v k c'). }
  destruct (JsClose_ok ctx c w0 H0 Hc Hf) as (H1 & E1 & E2 & Hnm).
  set (w1 := JsClose ctx w0) in *. assert (heap w1 !! ctx = Some c) as Hc1 by (by rewrite E1). rewrite Hc1. cbn.
  assert (forall v, owner w1 !! v <> Some ctx) as Hno.
  { intros v Hv. rewrite E2 in Hv. cbn in Hv. apply lookup_delete_Some in Hv as [Hne Hv]. apply Hne. by apply (i_alone _ HI u v ctx). }
  split.
  - apply inv_delete; [done|done|]. rewrite Hnm. apply lookup_delete_eq.
  - split; cbn.
    + intros k c' Hk Hv. rewrite lookup_delete_ne by (intros ->; by apply (Hv u)). by rewrite E1.
    + intros v k Hv. rewrite E2 in Hv. cbn in Hv. by apply lookup_delete_Some in Hv as [_ Hv].
    + intros k ws Hk. rewrite Hnm in Hk. by apply lookup_delete_Some in Hk as [_ Hk].
Qed.

(** The owned context of a user changes its flags. *)
Lemma inv_flags ctx c c' w :
  Inv w -> heap w !! ctx = Some c -> fired c = true -> fired c' = true -> Inv (set_heap (<[ctx := c']> (heap w)) w).
Proof.
  intros [W U O N M C Q] Hc Hf Hf'. split; cbn; try done.
  - intros u k Hu. destruct (decide (k = ctx)) as [->|Hne]; [exists c'; by rewrite lookup_insert_eq|].
    rewrite lookup_insert_ne by done. by apply (O u).
  - intros k ws Hk. destruct (M k ws Hk) as [Hh Hs]. split; [|done]. apply lookup_insert_is_Some'. by right.
  - intros ws s Hs Hr. destruct (C ws s Hs Hr) as (Hm & c1 & Hk & Hfk). split; [done|]. exists c1.
    rewrite lookup_insert_ne; [done|]. congruence.
  - intros u k c1 Hk Hfk. apply lookup_insert_Some in Hk as [[<- <-]|[_ Hk]]; [congruence|]. by apply (Q u k c1).
Qed.

(** *** Operations *)

Section Safe.
Context (run : list Cmd -> World -> outcome World) (Hrun : safe run).

(** A callback of the application. *)
Lemma js_run_ok a e cs w : Inv w -> ok (fun w' => Inv w' /\ Rel w w') (run cs (set_app a (emit e w))).
Proof.
  intros HI. eapply ok_mono; [apply Hrun, inv_app, HI|]. intros w' [HI' HR]. split; [done|].
  by etrans; [apply (rel_app a e)|].
Qed.

Lemma Leave_js_ok u w : Inv w -> ok (fun w' => Inv w' /\ Rel w w') (Leave run u w).
Proof.
  intros HI. unfold Leave. destruct (owner w !! u) as [ctx|] eqn:Hu; [|by cbn].
  destruct (i_owned _ HI u ctx Hu) as (c & Hc & Hf). rewrite Hc. destruct (leaving c); [by cbn|].
  set (c' := mkCtx (ctx_id c) (handler c) (fired c) true).
  set (w1 := set_heap (<[ctx := c']> (heap w)) w).
  assert (Inv w1) as H1 by (by apply (inv_flags ctx c)).
  destruct (JsClose_ok ctx c' w1 H1) as (H2 & E1 & E2 & E3); [apply lookup_insert_eq|done|].
  assert (Rel w (JsClose ctx w1)) as HR.
  { split; rewrite ?E1, ?E2, ?E3; cbn; [|done|].
    - intros k y Hk Hn. rewrite lookup_insert_ne; [done|]. intros ->. by apply (Hn u).
    - intros k ws Hk. by apply lookup_delete_Some in Hk as [_ Hk]. }
  destruct (lock_handler c w1) as [h|]; [|by cbn]. unfold call_left.
  destruct (on_left (app (JsClose ctx w1)) h true) as [a cs]. eapply ok_mono; [by apply js_run_ok|].
  intros w' [? ?]. split; [done|by etrans].
Qed.

Lemma call_js_ok c w : Inv w -> ok (fun w' => Inv w' /\ Rel w w') (call run c w).
Proof.
  intros HI. destruct c as [u to p|u|u]; cbn; [|by apply Leave_js_ok|by apply destroy_user_ok].
  destruct (owner w !! u); [|by cbn]. cbn. unfold JsSend. destruct (wsMap w !! n); [|done].
  destruct HI as [W U O N M C Q]. by split.
Qed.

End Safe.

Lemma exec_safe fuel : safe (exec fuel).
Proof.
  induction fuel as [|fuel IH]; intros [|c cs] w HI; cbn; try done.
  eapply ok_bind; [by apply call_js_ok|]. intros w1 [H1 R1]. eapply ok_mono; [by apply IH|].
  intros w2 [H2 R2]. split; [done|by etrans].
Qed.

(** The assumption on the application: its join callback keeps the user it is
    given, that is, neither the callback nor what its calls lead to destroys it.
    It may send, leave, and destroy other users. *)
Definition keeps_user : Prop :=
  forall a u, let '(a', cs, _, keep) := on_joined a (Value u) in
    keep = true /\ forall fuel w w', app w = a' -> exec fuel cs w = Ret w' -> owner w' !! u = owner w !! u.

Lemma OnOpen_js_ok fuel ws s w :
  keeps_user -> Inv w -> sockets w !! ws = Some s -> ready s = CONNECTING ->
  ok Inv (OnOpen (exec fuel) (sctx s) (set_socket ws OPEN w)).
Proof.
  intros Hk HI Hs Hr. destruct (i_connecting _ HI ws s Hs Hr) as (Hm & c & Hc & Hf). unfold OnOpen.
  destruct (set_socket_same ws OPEN w) as (E1 & E2 & E3 & E4 & E5 & _). rewrite E1, Hc, Hf, E5.
  set (w1 := mkWorld _ _ _ _ (<[_ := _]> _) _ _ _ _). set (c' := mkCtx (ctx_id c) (handler c) true (leaving c)).
  set (w2 := set_heap (<[sctx s := c']> (heap w1)) w1).
  assert (Inv w2) as HI2.
  { assert (Inv (set_socket ws OPEN w)) as [W U O N M C Q] by (by apply inv_socket).
    rewrite ?E1, ?E2, ?E3, ?E5 in *. assert (forall v, owner w !! v <> Some (sctx s)) as Hno by (intros v; by apply (Q v _ c)).
    split; cbn; rewrite ?E1, ?E2, ?E3; try done.
    - intros u [x Hx]. apply lookup_insert_Some in Hx as [[<- _]|[_ Hx]]; [lia|]. assert (u < next_user w)%nat by eauto. lia.
    - intros u k Hu. apply lookup_insert_Some in Hu as [[<- <-]|[_ Hu]]; [exists c'; by rewrite lookup_insert_eq|].
      rewrite lookup_insert_ne by (intros <-; by apply (Hno u)). by apply (O u).
    - intros u v k Hu Hv. apply lookup_insert_Some in Hu as [[<- <-]|[Hne Hu]], Hv as [[<- Hv]|[Hne' Hv]];
        try done; [by apply Hno in Hv|subst; by apply Hno in Hu|by apply (N u v k)].
    - intros k v Hv. destruct (M k v Hv) as [Hh Hx]. split; [|done]. apply lookup_insert_is_Some'. by right.
    - intros v s' Hv Hr'. destruct (C v s' Hv Hr') as (Hm' & c1 & Hc1 & Hf1). split; [done|]. exists c1.
      rewrite lookup_insert_ne; [done|]. intros He. rewrite <- He, Hm in Hm'. simplify_eq.
      rewrite sockets_set, Hs, lookup_insert_eq in Hv. by simplify_eq.
    - intros u k c1 Hk1 Hf1 Hu. apply lookup_insert_Some in Hk1 as [[<- <-]|[Hne Hk1]]; [done|].
      apply lookup_insert_Some in Hu as [[_ <-]|[_ Hu]]; [done|]. by apply (Q u k c1). }
  assert (owner w2 !! next_user w = Some (sctx s)) as Ho by apply lookup_insert_eq.
  specialize (Hk (app w2) (next_user w)). destruct (on_joined (app w2) (Value (next_user w))) as [[[a cs] h] keep].
  destruct Hk as [-> Hcs]. set (w2' := set_app a (emit (EJoined (Value (next_user w))) w2)).
  pose proof (js_run_ok (exec fuel) (exec_safe fuel) a (EJoined (Value (next_user w))) cs w2 HI2) as Hok.
  fold w2' in Hok. destruct (exec fuel cs w2') as [w3| |] eqn:Er3; [|done|done]. destruct Hok as [HI3 _].
  cbn [obind]. assert (owner w3 !! next_user w = Some (sctx s)) as Ho3' by (by rewrite (Hcs fuel w2' w3 eq_refl Er3)).
  destruct (i_owned _ HI3 _ _ Ho3') as (c3 & Hc3 & Hf3). rewrite Hc3. cbn. by apply (inv_flags (sctx s) c3).
Qed.

Lemma OnError_js_ok fuel ctx w :
  Inv w -> is_Some (heap w !! ctx) -> wsMap w !! ctx = None ->
  ok Inv (OnError (exec fuel) ctx w).
Proof.
  intros HI [c Hc] Hm. unfold OnError. rewrite Hc. destruct (fired c) eqn:Hf; [done|].
  set (c' := mkCtx (ctx_id c) (handler c) true (leaving c)). set (w1 := set_heap (<[ctx := c']> (heap w)) w).
  assert (forall u, owner w !! u <> Some ctx) as Hno by (intros u; by apply (i_waiting _ HI u ctx c)).
  assert (forall ws s, sockets w !! ws = Some s -> ready s = CONNECTING -> sctx s <> ctx) as Hnc.
  { intros ws s Hs Hr <-. destruct (i_connecting _ HI ws s Hs Hr) as [Hx _]. congruence. }
  assert (Inv w1) as HI1.
  { destruct HI as [W U O N M C Q]. split; cbn; try done.
    - intros u k Hu. rewrite lookup_insert_ne by (intros <-; by apply (Hno u)). by apply (O u).
    - intros k ws Hk. destruct (M k ws Hk) as [Hh Hs]. split; [|done]. apply lookup_insert_is_Some'. by right.
    - intros ws s Hs Hr. destruct (C ws s Hs Hr) as (Hx & c1 & Hc1 & Hf1). split; [done|]. exists c1.
      rewrite lookup_insert_ne; [done|]. congruence.
    - intros u k c1 Hk Hf1. apply lookup_insert_Some in Hk as [[<- <-]|[_ Hk]]; [done|]. by apply (Q u k c1). }
  destruct (on_joined (app w1) (Unexpected ConnectionRefused)) as [[[a cs] h] keep].
  set (w2 := set_app a (emit (EJoined (Unexpected ConnectionRefused)) w1)).
  assert (Inv w2) as HI2 by (by apply inv_app).
  eapply ok_bind; [by apply exec_safe|]. intros w3 [HI3 HR3].
  assert (heap w3 !! ctx = Some c') as Hc3 by (apply (r_heap _ _ HR3); [apply lookup_insert_eq|done]).
  rewrite Hc3. cbn.
  assert (wsMap w3 !! ctx = None) as Hm3.
  { destruct (wsMap w3 !! ctx) as [ws|] eqn:E; [|done]. apply (r_map _ _ HR3) in E. cbn in E. congruence. }
  assert (forall u, owner w3 !! u <> Some ctx) as Hno3 by (intros u Hu; by apply (Hno u), (r_owner _ _ HR3)).
  by apply inv_delete.
Qed.


Lemma mapped_spec ws s w : mapped ws s w = true <-> wsMap w !! sctx s = Some ws.
Proof. unfold mapped. apply bool_decide_eq_true. Qed.

(** A guarded event: the socket moves on and its context is unmapped. *)
Lemma unmapped_ok ws s r w :
  Inv w -> sockets w !! ws = Some s -> r <> CONNECTING -> mapped ws s (set_socket ws r w) = true ->
  let w0 := set_socket ws r w in let w1 := set_wsMap (delete (sctx s) (wsMap w0)) w0 in
  Inv w1 /\ is_Some (heap w1 !! sctx s) /\ wsMap w1 !! sctx s = None.
Proof.
  intros HI Hs Hr Hm%mapped_spec w0 w1. assert (Inv w0) as H0 by (by apply inv_socket).
  split_and!.
  - apply inv_unmap; [done|]. intros k s' Hk Hc He. destruct (i_connecting _ H0 k s' Hk Hc) as [Hk' _].
    rewrite He in Hk'. fold w0 in Hm. assert (k = ws) as -> by congruence. unfold w0 in Hk. rewrite sockets_set, Hs, lookup_insert_eq in Hk.
    by simplify_eq.
  - apply (i_map _ H0 _ _ Hm).
  - apply lookup_delete_eq.
Qed.

Lemma input_js_ok fuel i w : keeps_user -> Inv w -> ok Inv (input (exec fuel) i w).
Proof.
  intros Hk HI. pose proof (exec_safe fuel) as Hsafe. destruct i as [id ctx|ws|ws|ws|ws m|h|c]; cbn [input].
  - unfold Join. destruct (heap w !! ctx) eqn:Hc; [done|]. cbn.
    assert (forall u, owner w !! u <> Some ctx) as Hno.
    { intros u Hu. destruct (i_owned _ HI u ctx Hu) as (c & Hc' & _). congruence. }
    assert (forall k ws, wsMap w !! k = Some ws -> k <> ctx) as Hnm.
    { intros k ws Hm ->. destruct (i_map _ HI ctx ws Hm) as [[]]. congruence. }
    destruct HI as [W U O N M C Q]. split; cbn; try done.
    + intros k Hk'. apply lookup_insert_is_Some' in Hk' as [<-|Hk']; [lia|]. assert (k < next_ws w)%nat by auto. lia.
    + intros u k Hu. rewrite lookup_insert_ne by (intros <-; by apply (Hno u)). by apply (O u).
    + intros k ws Hm. apply lookup_insert_Some in Hm as [[<- <-]|[Hne Hm]]; [by rewrite !lookup_insert_eq|].
      destruct (M k ws Hm) as [Hh Hs]. rewrite lookup_insert_ne by done.
      assert (ws < next_ws w)%nat by (apply W; by destruct (sockets w !! ws)). by rewrite lookup_insert_ne by lia.
    + intros ws s Hs Hr. apply lookup_insert_Some in Hs as [[<- <-]|[Hne Hs]]; cbn; [by rewrite !lookup_insert_eq; eauto|].
      destruct (C ws s Hs Hr) as (Hm & Hrest). rewrite !lookup_insert_ne by (apply not_eq_sym; by eapply Hnm). done.
    + intros u k c Hk' Hf. apply lookup_insert_Some in Hk' as [[<- <-]|[_ Hk']]; [done|]. by apply (Q u k c).
  - destruct (sockets w !! ws) as [s|] eqn:Hs; [|done]. case_decide; [|done]. by apply OnOpen_js_ok.
  - destruct (sockets w !! ws) as [s|] eqn:Hs; [|done]. case_decide; [done|].
    destruct (mapped ws s (set_socket ws CLOSING w)) eqn:Hm; [|by apply inv_socket].
    destruct (unmapped_ok ws s CLOSING w HI Hs) as (H1 & Hh & Hn); [done..|]. by apply OnError_js_ok.
  - destruct (sockets w !! ws) as [s|] eqn:Hs; [|done]. case_decide; [done|].
    destruct (mapped ws s (set_socket ws CLOSED w)) eqn:Hm; [|by apply inv_socket].
    destruct (unmapped_ok ws s CLOSED w HI Hs) as (H1 & [c Hc] & Hn); [done..|]. unfold OnClose. rewrite Hc.
    destruct (leaving c); [done|]. destruct (lock_handler _ _) as [h|]; [|done]. unfold call_left.
    destruct (on_left _ h false) as [a cs]. eapply ok_mono; [by apply js_run_ok|]. by intros w' [].
  - destruct (sockets w !! ws) as [s|] eqn:Hs; [|done]. case_decide; [|done].
    destruct (mapped ws s w) eqn:Hm; [|done]. apply mapped_spec in Hm. destruct (i_map _ HI _ _ Hm) as [[c Hc] _].
    unfold OnMessage. rewrite Hc. destruct (lock_handler _ _) as [h|]; [|done].
    destruct (on_message (app w) h m) as [a cs]. eapply ok_mono; [by apply js_run_ok|]. by intros w' [].
  - cbn. destruct HI as [W U O N M C Q]. by split.
  - eapply ok_mono; [by apply call_js_ok|]. by intros w' [].
Qed.

Lemma init_js_inv a : Inv (init a).
Proof. split; cbn; intros; simplify_map_eq; try done; by match goal with H : is_Some _ |- _ => destruct H end. Qed.

Lemma inputs_js_ok fuel ins w : keeps_user -> Inv w -> ok Inv (inputs fuel ins w).
Proof.
  intros Hk. revert w. induction ins as [|i ins IH]; intros w HI; cbn; [done|].
  eapply ok_bind; [by apply input_js_ok|done].
Qed.

(** ** Theorems *)

(** C10: memory safety of the browser client: whatever the browser fires and
    however addresses of contexts are used again, no callback, [Leave] or
    destructor touches a freed context and none is freed twice, provided the
    join callback, with all that its calls lead to, does not destroy the user it
    is given (it may send, leave and destroy others); every live user owns exactly
    one live context, and no two share one. *)
Theorem js_client_memory_safe (fuel : nat) (ins : list Input) (a : A) :
  keeps_user ->
  inputs fuel ins (init a) <> Crash /\
  forall w, inputs fuel ins (init a) = Ret w ->
    (forall u ctx, owner w !! u = Some ctx -> is_Some (heap w !! ctx)) /\
    (forall u v ctx, owner w !! u = Some ctx -> owner w !! v = Some ctx -> u = v).
Proof.
  intros Hk. pose proof (inputs_js_ok fuel ins (init a) Hk (init_js_inv a)) as Hok.
  split; [intros E; by rewrite E in Hok|]. intros w Hw. rewrite Hw in Hok. cbn in Hok.
  split; [|apply Hok]. intros u ctx Hu. destruct (i_owned _ Hok u ctx Hu) as (c & Hc & _). eauto.
Qed.

(** The join callback may not drop its user: when it does not keep it (a
    transport that was destroyed while the socket was connecting), the user's
    destructor frees the context and [OnOpen] then writes the handler into it. *)
Theorem dropped_user_use_after_free (fuel ws : nat) (s : Socket) (w : World) (a : A) (h : option nat) :
  Inv w -> sockets w !! ws = Some s -> ready s = CONNECTING ->
  on_joined (app w) (Value (next_user w)) = (a, [], h, false) ->
  input (exec fuel) (IOpen ws) w = Crash.
Proof.
  intros HI Hs Hr Hj. destruct (i_connecting _ HI ws s Hs Hr) as (Hm & c0 & Hc & Hf). cbn [input].
  rewrite Hs, decide_True by done. unfold OnOpen.
  destruct (set_socket_same ws OPEN w) as (E1 & E2 & E3 & E4 & E5 & _). rewrite E1, Hc, Hf, E5. cbn [app set_heap].
  rewrite E4, Hj. assert (forall w, exec fuel [] w = Ret w) as -> by (by destruct fuel). cbn [obind].
  unfold destroy_user. cbn [owner set_app emit set_heap]. rewrite lookup_insert_eq.
  match goal with |- context [JsClose ?k ?w1] => set (w' := w1); set (ctx := k) in * end.
  assert (heap (JsClose ctx w') = heap w') as Eh.
  { unfold JsClose. destruct (wsMap w' !! ctx); [|done]. destruct (set_socket_same n CLOSING (set_wsMap (delete ctx (wsMap w')) w')) as [E _].
    by destruct (ready <$> sockets w' !! n) as [[]|]. }
  rewrite Eh. unfold w' at 1. cbn [heap set_owner set_app emit set_heap]. rewrite lookup_insert_eq. cbn [obind heap set_heap].
  by rewrite lookup_delete_eq.
Qed.

(** A connection that breaks is not reported: the browser fires [error]
    before [close]; the [error] handler unmaps the context, so the [close] is
    taken for a stale one and the handler never hears that it left. *)
Theorem broken_connection_not_reported (fuel : nat) (ws : nat) (s : Socket) (c : Ctx) (w : World) :
  sockets w !! ws = Some s -> ready s = OPEN -> wsMap w !! sctx s = Some ws ->
  heap w !! sctx s = Some c -> fired c = true ->
  exists w', inputs fuel [IError ws; IClose ws] w = Ret w' /\ trace w' = trace w /\
    wsMap w' !! sctx s = None /\ ready <$> sockets w' !! ws = Some CLOSED.
Proof.
  intros Hs Hr Hm Hc Hf. cbn [inputs input]. rewrite Hs, decide_False by congruence.
  destruct (set_socket_same ws CLOSING w) as (E1 & E2 & _ & _ & _ & _ & E7 & _).
  assert (mapped ws s (set_socket ws CLOSING w) = true) as -> by (apply mapped_spec; by rewrite E2).
  unfold OnError. cbn [heap set_wsMap]. rewrite E1, Hc, Hf. cbn [obind inputs].
  set (w1 := set_wsMap _ _). assert (sockets w1 !! ws = Some (mkSocket (sctx s) CLOSING)) as Hs1.
  { unfold w1. cbn [sockets set_wsMap]. by rewrite sockets_set, Hs, lookup_insert_eq. }
  rewrite Hs1, decide_False by done.
  destruct (set_socket_same ws CLOSED w1) as (_ & E2' & _ & _ & _ & _ & E7' & _).
  assert (wsMap w1 !! sctx s = None) as Hn by apply lookup_delete_eq.
  assert (mapped ws (mkSocket (sctx s) CLOSING) (set_socket ws CLOSED w1) = false) as ->.
  { apply not_true_is_false. intros Hx%mapped_spec. rewrite E2' in Hx. cbn [sctx] in Hx. congruence. }
  eexists. split; [done|]. rewrite E2', E7'. split_and!; [done|done|].
  by rewrite sockets_set, Hs1, lookup_insert_eq.
Qed.

End JsWs.

(** ** Evaluation *)

Module Demo.

(** The application keeps its users and creates handler 7. *)
Definition on_joined (a : nat) (r : expected nat Error) : nat * list Cmd * option nat * bool :=
  match r with Value u => (S a, [CSend u "b" "hello"], Some 7, true) | Unexpected _ => (a, [], None, true) end.
Definition on_message (a h : nat) (m : SigMessage) : nat * list Cmd := (a, [CLeave 0]).
(** It releases its user when told that it left. *)
Definition on_left (a h : nat) (clean : bool) : nat * list Cmd := (a, [CDrop 0]).
(** A transport that is gone does not take the user. *)
Definition gone (a : nat) (r : expected nat Error) : nat * list Cmd * option nat * bool := (a, [], None, false).

Lemma demo_keeps_user : keeps_user on_joined on_left.
Proof.
  intros a u. split; [done|]. intros fuel w w' _ Hr. destruct fuel as [|fuel]; [done|]. cbn in Hr.
  assert (forall k to p, owner (JsSend k to p w) = owner w) as Ho by (intros; unfold JsSend; by repeat case_match).
  destruct (owner w !! u) as [k|] eqn:E; destruct fuel; cbn in Hr; try done; injection Hr as <-.
  all: rewrite ?Ho; exact E.
Qed.

Definition life : list Input :=
  [IJoin "a" 64; IOpen 0; IMessage 0 (mkMsg "b" "bye"); IClose 0; IJoin "c" 64; IError 1; IClose 1; IJoin "d" 64].
Definition lived : World (A := nat) := Eval vm_compute in
  match inputs on_joined on_message on_left 9 life (init 0) with Ret w => w | _ => init 0 end.
Lemma lived_eq : inputs on_joined on_message on_left 9 life (init 0) = Ret lived.
Proof. vm_compute. reflexivity. Qed.

Lemma js_client_memory_safe_witness :
  inputs on_joined on_message on_left 9 life (init 0) <> Crash /\
  trace lived = [EJoined (Value 0); ESend 0 "b" "hello"; EMessage 7 (mkMsg "b" "bye"); EClose 0; ELeft 7 true;
                 EJoined (Unexpected ConnectionRefused)].
Proof.
  split; [|reflexivity].
  apply (js_client_memory_safe on_joined on_message on_left 9 life 0). exact demo_keeps_user.
Defined.

Definition dialling : World (A := nat) := Eval vm_compute in
  match inputs gone on_message on_left 1 [IJoin "a" 64] (init 0) with Ret w => w | _ => init 0 end.

Lemma dialling_inv : Inv dialling.
Proof.
  assert (ok Inv (inputs on_joined on_message on_left 1 [IJoin "a" 64] (init 0))) as Hok.
  { apply inputs_js_ok; [apply demo_keeps_user|apply init_js_inv]. }
  exact Hok.
Qed.

Lemma dropped_user_use_after_free_witness :
  input gone on_message on_left (exec on_left 1) (IOpen 0) dialling = Crash.
Proof.
  apply (dropped_user_use_after_free gone on_message on_left 1 0 (mkSocket 64 CONNECTING)
           dialling 0 None); try (vm_compute; reflexivity). exact dialling_inv.
Defined.

Definition online : World (A := nat) := Eval vm_compute in
  match inputs on_joined on_message on_left 9 [IJoin "a" 64; IOpen 0] (init 0) with Ret w => w | _ => init 0 end.

Lemma broken_connection_not_reported_witness :
  exists w', inputs on_joined on_message on_left 9 [IError 0; IClose 0] online = Ret w' /\ trace w' = trace online /\
    wsMap w' !! 64%nat = None /\ ready <$> sockets w' !! 0%nat = Some CLOSED.
Proof.
  apply (broken_connection_not_reported on_joined on_message on_left 9 0 (mkSocket 64 OPEN)
           (mkCtx "a" (Some 7) true false) online); vm_compute; reflexivity.
Defined.

End Demo.
