(* ===== verification/JsRtc.v ===== *)
(** * The WebRTC transport of the browser build

    [src/pkg/rtt/rtc/Rtt/Rtc/Js/JsRtcTransport.cpp]: peer contexts on the C++
    heap, referred to by address from the closures of JavaScript objects; the
    map [Module._rtt_pcMap]; [JsRtcLink] objects that own a context once the data
    channel is open; and the transport's [State]. An access to a context that is
    not on the heap crashes.

    The browser is the input. As WebRTC prescribes, a closed
    [RTCPeerConnection] fires nothing any more except the [close] event of its
    data channel, which fires at most once, before or after the connection is
    closed ([JsRtcLink::Disconnect] relies on it: "OnClose() will fire from the
    DC onclose event"). A connection has one data channel: the offerers of both
    builds create one. [careful] selects the application: a careful one keeps a
    link until the link has reported its disconnect, and the transport while
    a connection is being set up. *)

From Stdlib Require Import Strings.Byte.
From S2P Require Import Prelude Rtt SigWire.

Open Scope outcome_scope.

(** [JsRtcPeerContext]; [inb] tells which [onDcOpen] it was given. *)
Record PeerCtx := mkCtx { remoteId : string; inb : bool; opened : bool; link : option nat }.

(** The JavaScript object [entry] of a connection, with the [ctx] its closures
    captured; [setting] says that [setRemoteDescription] has not resolved yet,
    [dcDone] that the [close] event of the data channel has fired. *)
Record Entry := mkEntry {
  ectx : nat; dc : bool; setting : bool; descSet : bool;
  pendingCandidates : list (string * string); pclosed : bool; dcDone : bool }.

(** [JsRtcLink]; [linb] tells which [_onGone] it has. *)
Record JsLink := mkLink {
  lctx : nat; lremote : string; linb : bool; handler : LinkHandler;
  closedFired : bool; disconnectRequested : bool }.

(** [JsRtcTransport::State]. *)
Record State := mkState { peers : gmap string nat; inboundCount : nat; sigUser : bool }.

(** Calls of the application on links it holds; [open] is the state of the
    data channel. *)
Inductive Cmd :=
| CSend (l : nat) (data : list byte) (n : nat) (open : bool)
| CDisconnect (l : nat)
| CDrop (l : nat)
| CDestroy.

Inductive Event :=
| ELink (l : nat) | EFailed (e : Error) | ERecv (l : nat) (d : list byte) | EDisc (l : nat)
| ESig (to text : string)
| ERemote (pc : nat) (sdp : string)                       (* [setRemoteDescription] *)
| EGot (pc : nat) (c : string * string)                   (* [JsRtcPc_AddIceCandidate] *)
| ECandidate (pc : nat) (c : string * string)             (* [addIceCandidate] *)
| ESend (pc : nat) (d : list byte) | EPcClose (pc : nat)
| EThrow.

Inductive Input :=
| IJoined (r : expected unit Error) (addr : nat)          (* [addr]: what [new] returns *)
| IMessage (from payload : string) (addr : nat)
| ILeft (lost : bool)
| IDescSet (pc : nat)                                     (* [setRemoteDescription] resolves *)
| ILocal (pc : nat) (n : Negotiation)
| IChannel (pc : nat)                                     (* [ondatachannel] *)
| IDcOpen (pc : nat) | IDcClose (pc : nat) | IDcMessage (pc : nat) (d : list byte)
| ICmd (c : Cmd).

Section JsRtc.
Context {J : Type} {JL : JsonLib J} {JW : JsonLaws J}.
Context {A : Type}.
Context (remote_id : string) (maxMessageSize maxInboundConnections : nat).
Context (careful : bool).
Context (on_link : A -> nat -> A * list Cmd * LinkHandler * bool).
Context (on_failed : A -> Error -> A * list Cmd).
Context (on_received : A -> nat -> list byte -> A * list Cmd).
Context (on_disconnected : A -> nat -> A * list Cmd).

(** [pinned] is the link that a call in progress holds. *)
Record World := mkWorld {
  heap : gmap nat PeerCtx; pcMap : gmap nat nat; entries : gmap nat Entry; next_pc : nat;
  links : gmap nat JsLink; next_link : nat; pinned : option nat; state : option State; app : A;
  trace : list Event }.

Definition set_heap (h : gmap nat PeerCtx) (w : World) : World :=
  mkWorld h (pcMap w) (entries w) (next_pc w) (links w) (next_link w) (pinned w) (state w) (app w) (trace w).
Definition set_pcs (m : gmap nat nat) (e : gmap nat Entry) (w : World) : World :=
  mkWorld (heap w) m e (next_pc w) (links w) (next_link w) (pinned w) (state w) (app w) (trace w).
Definition set_links (ls : gmap nat JsLink) (w : World) : World :=
  mkWorld (heap w) (pcMap w) (entries w) (next_pc w) ls (next_link w) (pinned w) (state w) (app w) (trace w).
Definition set_pinned (p : option nat) (w : World) : World :=
  mkWorld (heap w) (pcMap w) (entries w) (next_pc w) (links w) (next_link w) p (state w) (app w) (trace w).
Definition set_state (s : option State) (w : World) : World :=
  mkWorld (heap w) (pcMap w) (entries w) (next_pc w) (links w) (next_link w) (pinned w) s (app w) (trace w).
Definition set_app (a : A) (w : World) : World :=
  mkWorld (heap w) (pcMap w) (entries w) (next_pc w) (links w) (next_link w) (pinned w) (state w) a (trace w).
Definition emit (e : Event) (w : World) : World :=
  mkWorld (heap w) (pcMap w) (entries w) (next_pc w) (links w) (next_link w) (pinned w) (state w) (app w) (trace w ++ [e]).

(** ** The JavaScript side *)

Definition with_closed (e : Entry) : Entry :=
  mkEntry (ectx e) (dc e) (setting e) (descSet e) (pendingCandidates e) true (dcDone e).
Definition with_setting (e : Entry) : Entry :=
  mkEntry (ectx e) (dc e) true (descSet e) (pendingCandidates e) (pclosed e) (dcDone e).
Definition with_candidates (set : bool) (p : list (string * string)) (e : Entry) : Entry :=
  mkEntry (ectx e) (dc e) (if set then false else setting e) set p (pclosed e) (dcDone e).
Definition with_dc (e : Entry) : Entry :=
  mkEntry (ectx e) true (setting e) (descSet e) (pendingCandidates e) (pclosed e) (dcDone e).
Definition with_done (e : Entry) : Entry :=
  mkEntry (ectx e) (dc e) (setting e) (descSet e) (pendingCandidates e) (pclosed e) true.

(** [JsRtcPc_Close]. *)
Definition JsClose (ctx : nat) (w : World) : World :=
  match pcMap w !! ctx with
  | None => w
  | Some pc =>
    match entries w !! pc with
    | None => w
    | Some e => emit (EPcClose pc) (set_pcs (delete ctx (pcMap w)) (<[pc := with_closed e]> (entries w)) w)
    end
  end.

(** A new connection of context [ctx]; the offerer has its data channel. *)
Definition new_pc (ctx : nat) (offerer : bool) (w : World) : World :=
  mkWorld (heap w) (<[ctx := next_pc w]> (pcMap w))
    (<[next_pc w := mkEntry ctx offerer false false [] false false]> (entries w)) (S (next_pc w))
    (links w) (next_link w) (pinned w) (state w) (app w) (trace w).

(** [setRemoteDescription] on the connection [ctx] is mapped to. *)
Definition set_remote (ctx : nat) (sdp : string) (w : World) : World :=
  match pcMap w !! ctx with
  | None => w
  | Some pc =>
    match entries w !! pc with
    | None => w
    | Some e => emit (ERemote pc sdp) (set_pcs (pcMap w) (<[pc := with_setting e]> (entries w)) w)
    end
  end.

(** [JsRtcPc_SetupOfferer], [JsRtcPc_SetupAnswerer], [JsRtcPc_SetRemoteAnswer]. *)
Definition SetupOfferer (ctx : nat) (w : World) : World := new_pc ctx true w.
Definition SetupAnswerer (ctx : nat) (sdp : string) (w : World) : World := set_remote ctx sdp (new_pc ctx false w).
Definition SetRemoteAnswer (ctx : nat) (sdp : string) (w : World) : World := set_remote ctx sdp w.

(** [JsRtcPc_AddIceCandidate]. *)
Definition AddIceCandidate (ctx : nat) (c : string * string) (w : World) : World :=
  match pcMap w !! ctx with
  | None => w
  | Some pc =>
    match entries w !! pc with
    | None => w
    | Some e =>
      let w1 := emit (EGot pc c) w in
      if descSet e then emit (ECandidate pc c) w1
      else set_pcs (pcMap w1) (<[pc := with_candidates false (pendingCandidates e ++ [c]) e]> (entries w1)) w1
    end
  end.

(** The [then] of [setRemoteDescription]. *)
Definition description_set (pc : nat) (e : Entry) (w : World) : World :=
  let w1 := set_pcs (pcMap w) (<[pc := with_candidates true [] e]> (entries w)) w in
  foldl (fun w c => emit (ECandidate pc c) w) w1 (pendingCandidates e).

(** [JsRtcPc_Send]. *)
Definition JsSend (ctx : nat) (d : list byte) (open : bool) (w : World) : World :=
  match pcMap w !! ctx with
  | None => w
  | Some pc =>
    match entries w !! pc with
    | Some e => if dc e && open then emit (ESend pc d) w else w
    | None => w
    end
  end.

(** ** [JsRtcLink] *)

(** The [_onGone] of an outbound and of an inbound link. *)
Definition onGone (x : JsLink) (w : World) : World :=
  match state w with
  | None => w
  | Some s => set_state (Some (mkState (delete (lremote x) (peers s))
                (if linb x then Nat.pred (inboundCount s) else inboundCount s) (sigUser s))) w
  end.

(** [~JsRtcLink]. *)
Definition destroy_link (l : nat) (w : World) : outcome World :=
  match links w !! l with
  | None => Ret w
  | Some x =>
    let w1 := JsClose (lctx x) (set_links (delete l (links w)) w) in
    match heap w1 !! lctx x with
    | None => Crash
    | Some _ => Ret (onGone x (set_heap (delete (lctx x) (heap w1)) w1))
    end
  end.

Definition Send (l : nat) (data : list byte) (n : nat) (open : bool) (w : World) : outcome World :=
  match links w !! l with
  | None => Ret w
  | Some x =>
    if disconnectRequested x then Ret w
    else if bool_decide (n = 0) then Ret w
    else if bool_decide (n <= maxMessageSize)%nat
    then Ret (JsSend (lctx x) (take n (resize maxMessageSize x00 data)) open w)
    else Crash
  end.

Definition Disconnect (l : nat) (w : World) : outcome World :=
  match links w !! l with
  | None => Ret w
  | Some x =>
    if disconnectRequested x then Ret w else
    Ret (JsClose (lctx x) (set_links (<[l := mkLink (lctx x) (lremote x) (linb x) (handler x) (closedFired x) true]> (links w)) w))
  end.

(** What a careful application does not do: release a link that has not
    reported its disconnect, or the transport before every connection under way
    has opened. *)
Definition early (c : Cmd) (w : World) : bool :=
  match c with
  | CDrop l => match links w !! l with Some x => negb (closedFired x) | None => false end
  | CDestroy => negb (bool_decide (map_Forall (fun _ c => opened c = true) (heap w)))
  | _ => false
  end.

Definition call (c : Cmd) (w : World) : outcome World :=
  if careful && early c w then Ret w else
  match c with
  | CSend l data n open => Send l data n open w
  | CDisconnect l => Disconnect l w
  | CDrop l => if decide (pinned w = Some l) then Ret w else destroy_link l w
  | CDestroy => Ret (set_state None w)
  end.

Fixpoint run (cs : list Cmd) (w : World) : outcome World :=
  match cs with
  | [] => Ret w
  | c :: cs' => let! w1 := call c w in run cs' w1
  end.

(** [JsRtcLink::OnClose] and [JsRtcLink::OnMessage]. *)
Definition OnClose (l : nat) (w : World) : outcome World :=
  match links w !! l with
  | None => Crash
  | Some x =>
    if closedFired x then Ret w else
    let w1 := set_links (<[l := mkLink (lctx x) (lremote x) (linb x) (handler x) true (disconnectRequested x)]> (links w)) w in
    if onDisconnected (handler x) then
      let '(a, cs) := on_disconnected (app w1) l in run cs (set_app a (emit (EDisc l) w1))
    else Ret w1
  end.

Definition OnData (l : nat) (d : list byte) (w : World) : outcome World :=
  match links w !! l with
  | None => Crash
  | Some x =>
    if onReceived (handler x) then
      let '(a, cs) := on_received (app w) l d in run cs (set_app a (emit (ERecv l d) w))
    else Ret w
  end.

(** ** [JsRtcTransport::State] and the bridge *)

Definition OnLinkFailed (e : Error) (w : World) : outcome World :=
  let '(a, cs) := on_failed (app w) e in run cs (set_app a (emit (EFailed e) w)).

(** [onDcOpen] of both roles: without the [State] the context is discarded,
    else a link takes it over, is shown to the acceptor and released unless the
    application keeps it (a careful one does). *)
Definition onDcOpen (ctx : nat) (c : PeerCtx) (w : World) : outcome World :=
  match state w with
  | None =>
    let w1 := JsClose ctx w in Ret (set_heap (delete ctx (heap w1)) w1)
  | Some _ =>
    let l := next_link w in
    let w1 := mkWorld (<[ctx := mkCtx (remoteId c) (inb c) (opened c) (Some l)]> (heap w)) (pcMap w) (entries w)
                (next_pc w) (<[l := mkLink ctx (remoteId c) (inb c) no_handler false false]> (links w)) (S l)
                (Some l) (state w) (app w) (trace w) in
    let '(a, cs, h, keep) := on_link (app w1) l in
    let! w2 := run cs (set_app a (emit (ELink l) w1)) in
    match links w2 !! l with
    | None => Crash
    | Some x =>
      let w3 := set_pinned None (set_links (<[l := mkLink (lctx x) (lremote x) (linb x) h (closedFired x)
                  (disconnectRequested x)]> (links w2)) w2) in
      if keep || careful then Ret w3 else destroy_link l w3
    end
  end.

(** [JsRtcPc_OnDataChannelOpen]. *)
Definition OnDataChannelOpen (ctx : nat) (w : World) : outcome World :=
  match heap w !! ctx with
  | None => Crash
  | Some c =>
    if opened c then Ret w else
    let c1 := mkCtx (remoteId c) (inb c) true (link c) in
    onDcOpen ctx c1 (set_heap (<[ctx := c1]> (heap w)) w)
  end.

(** [JsRtcPc_OnDataChannelClose] and [JsRtcPc_OnMessage]. *)
Definition OnDataChannelClose (ctx : nat) (w : World) : outcome World :=
  match heap w !! ctx with
  | None => Crash
  | Some c => match link c with Some l => OnClose l w | None => Ret w end
  end.

Definition OnChannelMessage (ctx : nat) (d : list byte) (w : World) : outcome World :=
  match heap w !! ctx with
  | None => Crash
  | Some c => match link c with Some l => OnData l d w | None => Ret w end
  end.

(** [JsRtcPc_OnLocalDescription] and [JsRtcPc_OnLocalCandidate]. *)
Definition OnLocal (ctx : nat) (n : Negotiation) (w : World) : outcome World :=
  match heap w !! ctx with
  | None => Crash
  | Some c =>
    match state w with
    | Some s => if sigUser s then
                  match encode n with
                  | Some text => Ret (emit (ESig (remoteId c) text) w)
                  | None => Ret (emit EThrow w)
                  end
                else Ret w
    | None => Ret w
    end
  end.

(** [new JsRtcPeerContext]: the address is not in use. *)
Definition new_ctx (addr : nat) (w : World) : nat :=
  if decide (addr ∈ dom (heap w)) then fresh (dom (heap w)) else addr.

(** The context of a new peer and its place in the peer map. *)
Definition add_peer (ctx : nat) (peer : string) (inbound : bool) (s : State) (w : World) : World :=
  set_state (Some (mkState (<[peer := ctx]> (peers s)) (if inbound then S (inboundCount s) else inboundCount s) (sigUser s)))
    (set_heap (<[ctx := mkCtx peer inbound false None]> (heap w)) w).

(** [State::OpenOfferer] and [State::HandleOffer]. *)
Definition OpenOfferer (addr : nat) (s : State) (w : World) : World :=
  let ctx := new_ctx addr w in SetupOfferer ctx (add_peer ctx remote_id false s w).

Definition HandleOffer (from sdp : string) (addr : nat) (s : State) (w : World) : World :=
  let ctx := new_ctx addr w in SetupAnswerer ctx sdp (add_peer ctx from true s w).

Definition isOfferer : bool := negb (bool_decide (remote_id = "")).

(** [State::OnMessage]. *)
Definition OnMessage (from payload : string) (addr : nat) (s : State) (w : World) : outcome World :=
  match parse payload with
  | None => Ret w
  | Some j =>
    match value j "type" "" with
    | None => Ret (emit EThrow w)
    | Some type =>
      if decide (type = "offer") then
        if bool_decide (maxInboundConnections = 0) || bool_decide (maxInboundConnections <= inboundCount s)%nat
        then Ret w
        else match value j "description" "" with
             | None => Ret (emit EThrow w)
             | Some sdp => Ret (HandleOffer from sdp addr s w)
             end
      else if decide (type = "answer") then
        if negb isOfferer then Ret w else
        match value j "description" "" with
        | None => Ret (emit EThrow w)
        | Some sdp => match peers s !! from with
                      | Some ctx => Ret (SetRemoteAnswer ctx sdp w)
                      | None => Ret w
                      end
        end
      else if decide (type = "candidate") then
        match value j "candidate" "", value j "mid" "" with
        | Some cand, Some mid => match peers s !! from with
                                 | Some ctx => Ret (AddIceCandidate ctx (cand, mid) w)
                                 | None => Ret w
                                 end
        | _, _ => Ret (emit EThrow w)
        end
      else Ret w
    end
  end.

(** [onJoined] of [JsRtcTransport::Open]. *)
Definition onJoined (r : expected unit Error) (addr : nat) (w : World) : outcome World :=
  match state w with
  | None => Ret w
  | Some s =>
    match r with
    | Unexpected e => OnLinkFailed e w
    | Value _ =>
      let s1 := mkState (peers s) (inboundCount s) true in
      let w1 := set_state (Some s1) w in
      if isOfferer then Ret (OpenOfferer addr s1 w1) else Ret w1
    end
  end.

(** An event that the browser fires on connection [pc] while it is open. *)
Definition fire (pc : nat) (w : World) (k : Entry -> outcome World) : outcome World :=
  match entries w !! pc with
  | None => Ret w
  | Some e => if pclosed e then Ret w else k e
  end.

(** The [close] event of its data channel. *)
Definition fire_close (pc : nat) (w : World) : outcome World :=
  match entries w !! pc with
  | None => Ret w
  | Some e =>
    if dc e && negb (dcDone e)
    then OnDataChannelClose (ectx e) (set_pcs (pcMap w) (<[pc := with_done e]> (entries w)) w)
    else Ret w
  end.

Definition input (i : Input) (w : World) : outcome World :=
  match i with
  | IJoined r addr => onJoined r addr w
  | IMessage from payload addr =>
    match state w with
    | Some s => if sigUser s then OnMessage from payload addr s w else Ret w
    | None => Ret w
    end
  | ILeft lost =>
    match state w with
    | Some s => if sigUser s && lost then OnLinkFailed TransportClosed w else Ret w
    | None => Ret w
    end
  | IDescSet pc => fire pc w (fun e => if setting e then Ret (description_set pc e w) else Ret w)
  | ILocal pc n => fire pc w (fun e => OnLocal (ectx e) n w)
  | IChannel pc => fire pc w (fun e => Ret (set_pcs (pcMap w) (<[pc := with_dc e]> (entries w)) w))
  | IDcOpen pc => fire pc w (fun e => if dc e then OnDataChannelOpen (ectx e) w else Ret w)
  | IDcClose pc => fire_close pc w
  | IDcMessage pc d => fire pc w (fun e => if dc e then OnChannelMessage (ectx e) d w else Ret w)
  | ICmd c => call c w
  end.

Fixpoint inputs (ins : list Input) (w : World) : outcome World :=
  match ins with
  | [] => Ret w
  | i :: ins' => let! w1 := input i w in inputs ins' w1
  end.

(** [JsRtcTransport::Open]. *)
Definition Open (a : A) : World := mkWorld ∅ ∅ ∅ 0 ∅ 0 None (Some (mkState ∅ 0 false)) a [].

(** ** Invariant *)

Definition event_pc (e : Event) : option nat :=
  match e with EGot pc _ | ECandidate pc _ => Some pc | _ => None end.

Definition got (pc : nat) (t : list Event) : list (string * string) :=
  omap (fun e => match e with EGot k c => if decide (k = pc) then Some c else None | _ => None end) t.
Definition added (pc : nat) (t : list Event) : list (string * string) :=
  omap (fun e => match e with ECandidate k c => if decide (k = pc) then Some c else None | _ => None end) t.

Record cand_ok (t : list Event) (pc : nat) (e : Entry) : Prop := {
  c_before : descSet e = false -> added pc t = [];
  c_after : descSet e = true -> pendingCandidates e = [];
  c_order : got pc t = added pc t ++ pendingCandidates e }.

(** The inbound contexts in existence. *)
Definition inbound_ctxs (h : gmap nat PeerCtx) : nat := size (filter (fun kv => inb kv.2 = true) h).

(** The [close] event of the data channel may still fire. *)
Definition owes (e : Entry) : bool := negb (dcDone e) && (dc e || negb (pclosed e)).

(** The [close] event still to come finds its context; a link that has had its
    own has no other to come. *)
Record tie (h : gmap nat PeerCtx) (es : gmap nat Entry) (ls : gmap nat JsLink) : Prop := {
  t_owes pc e : es !! pc = Some e -> owes e = true -> is_Some (h !! ectx e);
  t_uniq p1 p2 e1 e2 : es !! p1 = Some e1 -> es !! p2 = Some e2 ->
    owes e1 = true -> owes e2 = true -> ectx e1 = ectx e2 -> p1 = p2;
  t_shut l x pc e : ls !! l = Some x -> closedFired x = true ->
    es !! pc = Some e -> ectx e = lctx x -> owes e = false }.

Record Inv (w : World) : Prop := {
  i_pc pc : is_Some (entries w !! pc) -> (pc < next_pc w)%nat;
  i_lk l : is_Some (links w !! l) -> (l < next_link w)%nat;
  (* a mapped connection is open and its context exists *)
  i_map ctx pc : pcMap w !! ctx = Some pc ->
    is_Some (heap w !! ctx) /\ exists e, entries w !! pc = Some e /\ ectx e = ctx /\ pclosed e = false;
  i_live pc e : entries w !! pc = Some e -> pclosed e = false -> pcMap w !! ectx e = Some pc;
  (* a link owns its context, which points back *)
  i_own l x : links w !! l = Some x ->
    exists c, heap w !! lctx x = Some c /\ link c = Some l /\ inb c = linb x /\ remoteId c = lremote x;
  i_back ctx c l : heap w !! ctx = Some c -> link c = Some l ->
    opened c = true /\ exists x, links w !! l = Some x /\ lctx x = ctx;
  i_peers s id ctx : state w = Some s -> peers s !! id = Some ctx ->
    exists c, heap w !! ctx = Some c /\ remoteId c = id;
  i_count s : state w = Some s ->
    inboundCount s = inbound_ctxs (heap w) /\ (inbound_ctxs (heap w) <= maxInboundConnections)%nat;
  i_tie : tie (heap w) (entries w) (links w);
  (* without the transport no connection is being set up *)
  i_gone : state w = None -> map_Forall (fun _ c => opened c = true) (heap w);
  i_event e pc : e ∈ trace w -> event_pc e = Some pc -> is_Some (entries w !! pc);
  i_cand pc e : entries w !! pc = Some e -> cand_ok (trace w) pc e }.

Definition ok (P : World -> Prop) (m : outcome World) : Prop :=
  match m with Ret w => P w | Running => True | Crash => False end.

Lemma rtc_ok_bind (P Q : World -> Prop) m k : ok P m -> (forall w, P w -> ok Q (k w)) -> ok Q (let! w := m in k w).
Proof. destruct m; cbn; auto. Qed.
Lemma rtc_ok_mono (P Q : World -> Prop) m : ok P m -> (forall w, P w -> Q w) -> ok Q m.
Proof. destruct m; cbn; auto. Qed.

(** *** Events still to come *)

Lemma tie_entry h es ls pc e e' :
  tie h es ls -> es !! pc = Some e -> ectx e' = ectx e -> (owes e' = true -> owes e = true) ->
  tie h (<[pc := e']> es) ls.
Proof.
  intros [W U S] He Hx Ho.
  assert (forall k y, <[pc := e']> es !! k = Some y -> owes y = true ->
    exists y0, es !! k = Some y0 /\ owes y0 = true /\ ectx y0 = ectx y) as Hold.
  { intros k y Hk Hy. apply lookup_insert_Some in Hk as [[<- <-]|[_ Hk]]; [exists e; auto|eauto]. }
  split.
  - intros k y Hk Hy. destruct (Hold k y Hk Hy) as (y0 & H1 & H2 & <-). by apply (W k).
  - intros p1 p2 y1 y2 H1 H2 O1 O2 Heq. destruct (Hold p1 y1 H1 O1) as (z1 & A1 & B1 & C1).
    destruct (Hold p2 y2 H2 O2) as (z2 & A2 & B2 & C2). apply (U p1 p2 z1 z2); congruence.
  - intros l x k y Hl Hc Hk Hy. apply not_true_is_false. intros Hyo. destruct (Hold k y Hk Hyo) as (z & A1 & B1 & C1).
    rewrite (S l x k z) in B1; congruence.
Qed.

Lemma tie_heap h es ls ctx c : tie h es ls -> tie (<[ctx := c]> h) es ls.
Proof. intros [W U S]. split; [|done..]. intros pc e He Ho. apply lookup_insert_is_Some'. right. by apply (W pc). Qed.

(** A link is added or changed, without news of its [close] event. *)
Lemma tie_link h es ls l x' :
  tie h es ls -> (closedFired x' = true -> exists x, ls !! l = Some x /\ closedFired x = true /\ lctx x = lctx x') ->
  tie h es (<[l := x']> ls).
Proof.
  intros [W U S] Hx. split; [done..|]. intros k y pc e Hk Hc. apply lookup_insert_Some in Hk as [[<- <-]|[_ Hk]].
  - destruct (Hx Hc) as (x & Hl & Hf & <-). by apply (S l x).
  - by apply (S k y).
Qed.

(** The link has had its [close] event. *)
Lemma tie_shut h es ls l x' :
  tie h es ls -> (forall pc e, es !! pc = Some e -> ectx e = lctx x' -> owes e = false) -> tie h es (<[l := x']> ls).
Proof.
  intros [W U S] Hx. split; [done..|]. intros k y pc e Hk Hc. apply lookup_insert_Some in Hk as [[<- <-]|[_ Hk]]; [apply Hx|].
  by apply (S k y).
Qed.

Lemma tie_release h es ls l x :
  tie h es ls -> ls !! l = Some x -> closedFired x = true -> tie (delete (lctx x) h) es (delete l ls).
Proof.
  intros [W U S] Hl Hc. split; [|done|].
  - intros pc e He Ho. rewrite lookup_delete_ne; [by apply (W pc)|]. intros Heq. rewrite (S l x pc e) in Ho; congruence.
  - intros k y pc e Hk. apply lookup_delete_Some in Hk as [_ Hk]. by apply (S k y).
Qed.

Lemma tie_new_pc h es ls ctx c pc off :
  tie h es ls -> h !! ctx = None -> es !! pc = None -> (forall l x, ls !! l = Some x -> lctx x <> ctx) ->
  tie (<[ctx := c]> h) (<[pc := mkEntry ctx off false false [] false false]> es) ls.
Proof.
  intros HT Hh Hp Hl. destruct (tie_heap h es ls ctx c HT) as [W U S].
  assert (forall k e, es !! k = Some e -> owes e = true -> ectx e <> ctx) as Hn.
  { intros k e He Ho Hx. destruct (t_owes _ _ _ HT k e He Ho) as [c' Hc']. congruence. }
  split.
  - intros k e He Ho. apply lookup_insert_Some in He as [[<- <-]|[_ He]]; [by rewrite lookup_insert_eq|by apply (W k)].
  - intros p1 p2 e1 e2 H1 H2 O1 O2 Heq. apply lookup_insert_Some in H1 as [[<- <-]|[_ H1]], H2 as [[<- <-]|[_ H2]]; [done| | |by eapply U].
    + by destruct (Hn p2 e2 H2 O2).
    + by destruct (Hn p1 e1 H1 O1).
  - intros l x k e Hx Hc He Heq. apply lookup_insert_Some in He as [[<- <-]|[_ He]]; [by destruct (Hl l x Hx)|by apply (S l x k)].
Qed.

(** *** Events and entries *)

Lemma cand_snoc t pc e ev : cand_ok t pc e -> event_pc ev <> Some pc -> cand_ok (t ++ [ev]) pc e.
Proof.
  intros [B F O] He. assert (got pc (t ++ [ev]) = got pc t /\ added pc (t ++ [ev]) = added pc t) as [E1 E2].
  { unfold got, added. rewrite !omap_app. destruct ev; cbn in *; rewrite ?app_nil_r; try done;
      rewrite decide_False by congruence; by rewrite app_nil_r. }
  by split; rewrite ?E1, ?E2.
Qed.

(** An event that is not about candidates. *)
Lemma rtc_inv_emit ev w : Inv w -> event_pc ev = None -> Inv (emit ev w).
Proof.
  intros [P L M V O B R C T G E K] He. split; cbn; try done.
  - intros e pc [Hin| ->%list_elem_of_singleton]%elem_of_app Hp; [by apply (E e)|congruence].
  - intros pc e Hp. apply cand_snoc; [by apply K|congruence].
Qed.

Lemma rtc_inv_app a w : Inv w -> Inv (set_app a w).
Proof. intros []. by split. Qed.
Lemma inv_pinned p w : Inv w -> Inv (set_pinned p w).
Proof. intros []. by split. Qed.

(** An entry changes, not its context and not to open again. *)
Lemma inv_entry pc e e' w :
  Inv w -> entries w !! pc = Some e -> ectx e' = ectx e -> pclosed e' = pclosed e -> (owes e' = true -> owes e = true) ->
  cand_ok (trace w) pc e' -> Inv (set_pcs (pcMap w) (<[pc := e']> (entries w)) w).
Proof.
  intros [P L M V O B R C T G E K] Hp Hx Hc Ho Hok. split; cbn; try done.
  - intros k [y Hk]. apply P. apply lookup_insert_Some in Hk as [[<- _]|[_ Hk]]; eauto.
  - intros ctx k Hk. destruct (M ctx k Hk) as (Hh & e1 & H1 & H2 & H3). split; [done|].
    destruct (decide (k = pc)) as [->|Hne]; [|exists e1; by rewrite lookup_insert_ne].
    exists e'. rewrite lookup_insert_eq. simplify_eq. by rewrite Hx, Hc.
  - intros k y Hk Hcl. apply lookup_insert_Some in Hk as [[<- <-]|[_ Hk]]; [|by apply V]. rewrite Hx. apply V; congruence.
  - by eapply tie_entry.
  - intros ev k Hev Hk. apply lookup_insert_is_Some'. right. by apply (E ev).
  - intros k y Hk. apply lookup_insert_Some in Hk as [[<- <-]|[_ Hk]]; [done|]. by apply K.
Qed.

Lemma JsClose_rtc_ok ctx w :
  Inv w -> Inv (JsClose ctx w) /\ heap (JsClose ctx w) = heap w /\ links (JsClose ctx w) = links w /\
  state (JsClose ctx w) = state w /\ pinned (JsClose ctx w) = pinned w /\ pcMap (JsClose ctx w) !! ctx = None.
Proof.
  intros HI. unfold JsClose. destruct (pcMap w !! ctx) as [pc|] eqn:Hm; [|done].
  destruct (i_map _ HI ctx pc Hm) as (Hh & e & He & Hx & Hc). rewrite He. cbn. split_and!; try done; [|apply lookup_delete_eq].
  apply rtc_inv_emit; [|done]. destruct HI as [P L M V O B R C T G E K]. split; cbn; try done.
  - intros k [y Hk]. apply P. apply lookup_insert_Some in Hk as [[<- _]|[_ Hk]]; eauto.
  - intros k q Hk. apply lookup_delete_Some in Hk as [Hne Hk]. destruct (M k q Hk) as (Hh' & e1 & H1 & H2 & H3).
    split; [done|]. exists e1. rewrite lookup_insert_ne; [done|]. intros ->. congruence.
  - intros k y Hk Hcl. apply lookup_insert_Some in Hk as [[<- <-]|[Hne Hk]]; [done|].
    pose proof (V k y Hk Hcl) as Hv. rewrite lookup_delete_ne; [done|]. intros ->. congruence.
  - eapply tie_entry; [done..|]. unfold owes. cbn. rewrite Hc. destruct (dcDone e), (dc e); done.
  - intros ev k Hev Hk. apply lookup_insert_is_Some'. right. by apply (E ev).
  - intros k y Hk. apply lookup_insert_Some in Hk as [[<- <-]|[_ Hk]]; [|by apply K]. destruct (K pc e He). by split.
Qed.

(** *** Links *)

(** The flags and the handler of a link change. *)
Lemma rtc_inv_link l x x' w :
  Inv w -> links w !! l = Some x -> lctx x' = lctx x -> linb x' = linb x -> lremote x' = lremote x ->
  (closedFired x' = true -> closedFired x = false -> forall pc e, entries w !! pc = Some e -> ectx e = lctx x -> owes e = false) ->
  Inv (set_links (<[l := x']> (links w)) w).
Proof.
  intros [P L M V O B R C T G E K] Hl H1 H2 H3 H4. split; cbn; try done.
  - intros k [y Hk]. apply L. apply lookup_insert_Some in Hk as [[<- _]|[_ Hk]]; eauto.
  - intros k y Hk. apply lookup_insert_Some in Hk as [[<- <-]|[_ Hk]]; [|by apply O]. rewrite H1, H2, H3. by apply O.
  - intros ctx c k Hc Hk. destruct (B ctx c k Hc Hk) as (Ho & y & Hy & Hx). split; [done|].
    destruct (decide (k = l)) as [->|Hne]; [|exists y; by rewrite lookup_insert_ne].
    exists x'. rewrite lookup_insert_eq. simplify_eq. done.
  - destruct (closedFired x') eqn:Hc', (closedFired x) eqn:Hc.
    + apply tie_link; [done|]. intros _. by exists x.
    + apply tie_shut; [done|]. rewrite H1. by apply H4.
    + apply tie_link; [done|]. congruence.
    + apply tie_link; [done|]. congruence.
Qed.

Lemma inbound_delete h ctx c : h !! ctx = Some c ->
  inbound_ctxs (delete ctx h) = (inbound_ctxs h - if inb c then 1 else 0)%nat.
Proof.
  intros Hc. unfold inbound_ctxs. rewrite map_filter_delete. destruct (inb c) eqn:Hi.
  - rewrite map_size_delete_Some; [lia|]. exists c. by apply map_lookup_filter_Some.
  - rewrite delete_id; [lia|]. apply map_lookup_filter_None. right. intros c' Hc'. cbn. congruence.
Qed.

Lemma inbound_insert h ctx c : h !! ctx = None ->
  inbound_ctxs (<[ctx := c]> h) = (inbound_ctxs h + if inb c then 1 else 0)%nat.
Proof.
  intros Hc. unfold inbound_ctxs. destruct (inb c) eqn:Hi.
  - rewrite map_filter_insert_True by done. rewrite map_size_insert_None; [lia|].
    apply map_lookup_filter_None. by left.
  - rewrite map_filter_insert_False by (cbn; congruence). rewrite delete_id; [lia|done].
Qed.

Lemma inbound_update h ctx c c' : h !! ctx = Some c -> inb c' = inb c ->
  inbound_ctxs (<[ctx := c']> h) = inbound_ctxs h.
Proof.
  intros Hc Hi. rewrite <- insert_delete_eq, inbound_insert by apply lookup_delete_eq.
  rewrite (inbound_delete h ctx c Hc), Hi. destruct (inb c) eqn:E; [|lia].
  assert (inbound_ctxs h <> 0); [|lia]. unfold inbound_ctxs. apply map_size_ne_0_lookup. exists ctx, c.
  by apply map_lookup_filter_Some.
Qed.

(** A context leaves the heap together with what refers to it: its link, its
    peer entry, and the events of its connection, the [close] event included. *)
Lemma destroy_link_ok l w :
  Inv w -> (forall x, links w !! l = Some x -> closedFired x = true) -> ok (fun w' => Inv w' /\ pinned w' = pinned w /\ (forall k, k <> l -> links w' !! k = links w !! k)) (destroy_link l w).
Proof.
  intros HI Hcf. unfold destroy_link. destruct (links w !! l) as [x|] eqn:Hl; [|by cbn]. specialize (Hcf x eq_refl).
  destruct (i_own _ HI l x Hl) as (c & Hc & Hk & Hi & Hr).
  destruct (JsClose_rtc_ok (lctx x) w HI) as (HI1 & E1 & E2 & E3 & E4 & Hn).
  assert (JsClose (lctx x) (set_links (delete l (links w)) w) =
          set_links (delete l (links (JsClose (lctx x) w))) (JsClose (lctx x) w)) as ->.
  { unfold JsClose. cbn. destruct (pcMap w !! lctx x); [|done]. by destruct (entries w !! n). }
  set (w1 := JsClose (lctx x) w) in *. cbn [heap set_links]. rewrite E1, Hc. cbn.
  assert (pinned (onGone x (set_heap (delete (lctx x) (heap w)) (set_links (delete l (links w1)) w1))) = pinned w /\
    links (onGone x (set_heap (delete (lctx x) (heap w)) (set_links (delete l (links w1)) w1))) = delete l (links w)) as [-> ->].
  { unfold onGone. cbn. destruct (state w1); cbn; by rewrite ?E2, ?E4. }
  split_and!; [|done|intros k Hne; by rewrite lookup_delete_ne]. rewrite <- E1 in Hc.
  destruct HI1 as [P L M V O B R C T G E K]. rewrite E2 in *. unfold onGone. cbn [state set_heap set_links].
  assert (forall k y, links w !! k = Some y -> k <> l -> lctx y <> lctx x) as Hne.
  { intros k y Hy Hkl He. destruct (O k y Hy) as (c' & Hc' & Hk' & _). rewrite He in Hc'. congruence. }
  set (w2 := set_heap (delete (lctx x) (heap w)) (set_links (delete l (links w)) w1)).
  assert (forall st, (st = None -> state w1 = None) ->
    (forall s, st = Some s -> (forall id ctx, peers s !! id = Some ctx -> exists c', heap w2 !! ctx = Some c' /\ remoteId c' = id) /\
       inboundCount s = inbound_ctxs (heap w2) /\ (inbound_ctxs (heap w2) <= maxInboundConnections)%nat) ->
    Inv (set_state st w2)) as HN.
  { unfold w2. rewrite <- E1. intros st Hst Hs. split; cbn; try done.
    - intros k [y Hk']. apply lookup_delete_Some in Hk' as [_ Hk']. eauto.
    - intros ctx pc Hp. destruct (M ctx pc Hp) as [Hh He]. split; [|done]. rewrite lookup_delete_ne; [done|]. congruence.
    - intros k y Hy. apply lookup_delete_Some in Hy as [Hkl Hy]. rewrite lookup_delete_ne by (apply not_eq_sym; by eapply Hne). by apply O.
    - intros ctx c' k Hc' Hk'. apply lookup_delete_Some in Hc' as [Hcx Hc']. destruct (B ctx c' k Hc' Hk') as (Ho & y & Hy & Hx).
      split; [done|]. exists y. rewrite lookup_delete_ne; [done|]. intros ->. congruence.
    - intros s id ctx Hss. by apply (Hs s).
    - intros s Hss. by apply (Hs s).
    - by apply tie_release.
    - intros Hn'. apply map_Forall_delete, G. auto. }
  fold w2. destruct (state w1) as [s|] eqn:Hs.
  - apply HN; [done|]. intros s' [= <-]. cbn. rewrite <- E1. destruct (C s eq_refl) as [Hcnt Hle]. split.
    + intros id ctx Hp. apply lookup_delete_Some in Hp as [Hid Hp].
      destruct (R s id ctx eq_refl Hp) as (c' & Hc' & Hr'). exists c'. rewrite lookup_delete_ne; [done|]. congruence.
    + rewrite (inbound_delete _ _ c Hc), Hcnt, <- Hi. destruct (inb c); lia.
  - assert (w2 = set_state None w2) as -> by (transitivity (set_state (state w1) w2); [done|by rewrite Hs]). by apply HN.
Qed.

(** *** Calls of the application *)

(** A writer returns at most the size of its buffer. *)
Definition cmd_ok (c : Cmd) : bool :=
  match c with CSend _ _ n _ => bool_decide (n <= maxMessageSize)%nat | _ => true end.

(** What a call leaves: the pinned link. *)
Definition kept (w w' : World) : Prop :=
  pinned w' = pinned w /\ forall l, pinned w = Some l -> is_Some (links w !! l) -> is_Some (links w' !! l).

Lemma kept_trans w1 w2 w3 : kept w1 w2 -> kept w2 w3 -> kept w1 w3.
Proof. intros [P1 K1] [P2 K2]. split; [congruence|]. intros l Hp Hl. apply K2; [congruence|]. by apply K1. Qed.

Context (Hcare : careful = true).

Lemma call_rtc_ok c w : Inv w -> cmd_ok c = true -> ok (fun w' => Inv w' /\ kept w w') (call c w).
Proof.
  intros HI Hc. unfold call. rewrite Hcare. cbn [andb]. destruct (early c w) eqn:He; [done|].
  destruct c as [l data n open|l|l|].
  - unfold Send. destruct (links w !! l) as [x|]; [|done]. destruct (disconnectRequested x); [done|].
    case_bool_decide; [done|]. cbn in Hc. rewrite Hc. cbn. unfold JsSend.
    destruct (pcMap w !! lctx x) as [pc|]; [|done]. destruct (entries w !! pc) as [e|]; [|done].
    destruct (dc e && open); [|done]. split; [by apply rtc_inv_emit|done].
  - unfold Disconnect. destruct (links w !! l) as [x|] eqn:Hl; [|done]. destruct (disconnectRequested x); [done|]. cbn.
    match goal with |- context [JsClose _ ?y] => set (w1 := y) end.
    assert (Inv w1) as H1 by (apply (rtc_inv_link l x); try done; cbn; congruence).
    destruct (JsClose_rtc_ok (lctx x) w1 H1) as (H2 & _ & E2 & _ & E4 & _). split; [done|]. split; [done|].
    intros k _ Hk. rewrite E2. cbn. apply lookup_insert_is_Some'. by right.
  - case_decide as Hp; [done|]. eapply rtc_ok_mono; [apply destroy_link_ok; [done|]|].
    { intros x Hx. cbn in He. rewrite Hx in He. by destruct (closedFired x). }
    intros w' (H1 & H2 & H3). split; [done|]. split; [done|]. intros k Hk Hs. rewrite H3; [done|]. congruence.
  - cbn in *. apply negb_false_iff, bool_decide_eq_true in He. destruct HI. by split.
Qed.

Lemma run_rtc_ok cs w : Inv w -> forallb cmd_ok cs = true -> ok (fun w' => Inv w' /\ kept w w') (run cs w).
Proof.
  revert w. induction cs as [|c cs IH]; intros w HI Hcs; cbn in *; [done|]. reflect_bools.
  eapply rtc_ok_bind; [by apply call_rtc_ok|]. intros w1 [H1 K1]. eapply rtc_ok_mono; [by apply IH|].
  intros w2 [H2 K2]. split; [done|]. by eapply kept_trans.
Qed.

(** Every callback of the application makes only such calls. *)
Definition writers_ok : Prop :=
  (forall a l, forallb cmd_ok (on_link a l).1.1.2 = true) /\ (forall a e, forallb cmd_ok (on_failed a e).2 = true) /\
  (forall a l d, forallb cmd_ok (on_received a l d).2 = true) /\ (forall a l, forallb cmd_ok (on_disconnected a l).2 = true).

Context (Happ : writers_ok).

Lemma OnLinkFailed_rtc_ok e w : Inv w -> ok Inv (OnLinkFailed e w).
Proof.
  intros HI. unfold OnLinkFailed. destruct Happ as (_ & H2 & _). specialize (H2 (app w) e).
  destruct (on_failed (app w) e) as [a cs]. eapply rtc_ok_mono; [apply run_rtc_ok; [by apply rtc_inv_app, rtc_inv_emit|done]|]. by intros w' [].
Qed.

Lemma OnClose_rtc_ok l x w :
  Inv w -> links w !! l = Some x -> (forall pc e, entries w !! pc = Some e -> ectx e = lctx x -> owes e = false) ->
  ok Inv (OnClose l w).
Proof.
  intros HI Hl Ho. unfold OnClose. rewrite Hl. destruct (closedFired x); [done|].
  match goal with |- context [set_links ?m w] => set (w1 := set_links m w) end.
  assert (Inv w1) as H1 by (by apply (rtc_inv_link l x)). destruct (onDisconnected (handler x)); [|done].
  destruct Happ as (_ & _ & _ & H4). specialize (H4 (app w1) l). destruct (on_disconnected (app w1) l) as [a cs].
  eapply rtc_ok_mono; [apply run_rtc_ok; [by apply rtc_inv_app, rtc_inv_emit|done]|]. by intros w' [].
Qed.

Lemma OnData_rtc_ok l d w : Inv w -> is_Some (links w !! l) -> ok Inv (OnData l d w).
Proof.
  intros HI [x Hl]. unfold OnData. rewrite Hl. destruct (onReceived (handler x)); [|done].
  destruct Happ as (_ & _ & H3 & _). specialize (H3 (app w) l d). destruct (on_received (app w) l d) as [a cs].
  eapply rtc_ok_mono; [apply run_rtc_ok; [by apply rtc_inv_app, rtc_inv_emit|done]|]. by intros w' [].
Qed.

(** *** The data channel opens *)

(** A context that has no link changes. *)
Lemma inv_ctx ctx c c' w :
  Inv w -> heap w !! ctx = Some c -> link c = None -> link c' = None -> inb c' = inb c -> remoteId c' = remoteId c ->
  opened c' = true -> Inv (set_heap (<[ctx := c']> (heap w)) w).
Proof.
  intros [P L M V O B R C T G E K] Hc Hl Hl' Hi Hr Hop. split; cbn; try done.
  - intros k pc Hk. destruct (M k pc Hk) as [Hh He]. split; [|done]. apply lookup_insert_is_Some'. by right.
  - intros l x Hx. destruct (O l x Hx) as (c1 & H1 & H2 & H3). exists c1. rewrite lookup_insert_ne; [done|]. congruence.
  - intros k c1 l Hk Hl1. apply lookup_insert_Some in Hk as [[<- <-]|[_ Hk]]; [congruence|]. by apply B.
  - intros s id k Hs Hk. destruct (R s id k Hs Hk) as (c1 & H1 & H2). destruct (decide (k = ctx)) as [->|Hne].
    + exists c'. rewrite lookup_insert_eq. split; congruence.
    + exists c1. by rewrite lookup_insert_ne.
  - intros s Hs. rewrite (inbound_update _ _ c) by done. by apply C.
  - by apply tie_heap.
  - intros Hs. by apply map_Forall_insert_2, G.
Qed.

Lemma onDcOpen_ok ctx c w :
  Inv w -> is_Some (state w) -> heap w !! ctx = Some c -> link c = None -> opened c = true -> ok Inv (onDcOpen ctx c w).
Proof.
  intros HI [s Hs] Hc Hl Ho. unfold onDcOpen. rewrite Hs.
  match goal with |- context [on_link (app ?y) _] => set (w1 := y) end.
  assert (Inv w1) as HI1.
  { pose proof HI as [P L M V O B R C T G E K]. split; cbn; try done.
    - intros k Hk. apply lookup_insert_is_Some' in Hk as [<-|Hk]; [lia|]. assert (k < next_link w)%nat by auto. lia.
    - intros k pc Hk. destruct (M k pc Hk) as [Hh He]. split; [|done]. apply lookup_insert_is_Some'. by right.
    - intros k x Hk. apply lookup_insert_Some in Hk as [[<- <-]|[_ Hk]]; cbn; [by eexists; rewrite lookup_insert_eq|].
      destruct (O k x Hk) as (c1 & H1 & H2 & H3). exists c1. rewrite lookup_insert_ne; [done|]. congruence.
    - intros k c1 l Hk Hl1. apply lookup_insert_Some in Hk as [[<- <-]|[Hne Hk]]; cbn in *.
      + simplify_eq. split; [done|]. eexists. by rewrite lookup_insert_eq.
      + destruct (B k c1 l Hk Hl1) as (H1 & x & H2 & H3). split; [done|]. exists x.
        assert (l < next_link w)%nat by (apply L; eauto). by rewrite lookup_insert_ne by lia.
    - intros s' id k Hs' Hk. destruct (R s' id k ltac:(congruence) Hk) as (c1 & H1 & H2). destruct (decide (k = ctx)) as [->|Hne].
      + eexists. rewrite lookup_insert_eq. split; [done|]. cbn. congruence.
      + exists c1. by rewrite lookup_insert_ne.
    - intros s' Hs'. rewrite (inbound_update _ _ c) by done. apply C. congruence.
    - by apply tie_link; [apply tie_heap|]. }
  destruct Happ as (H1 & _). specialize (H1 (app w1) (next_link w)).
  destruct (on_link (app w1) (next_link w)) as [[[a cs] h] keep]. cbn in H1.
  eapply rtc_ok_bind; [apply run_rtc_ok; [by apply rtc_inv_app, rtc_inv_emit|done]|]. intros w2 [HI2 [Hp2 Hk2]].
  destruct (Hk2 (next_link w)) as [x Hx]; [done|cbn; rewrite lookup_insert_eq; by eexists|]. rewrite Hx.
  match goal with |- context [set_pinned None ?y] => set (w3 := set_pinned None y) end.
  assert (Inv w3) as HI3 by (apply inv_pinned, (rtc_inv_link (next_link w) x); try done; cbn; congruence).
  rewrite Hcare, orb_true_r. exact HI3.
Qed.

(** *** Negotiation *)

Lemma views pc c t :
  got pc (t ++ [EGot pc c]) = got pc t ++ [c] /\ added pc (t ++ [EGot pc c]) = added pc t /\
  got pc (t ++ [ECandidate pc c]) = got pc t /\ added pc (t ++ [ECandidate pc c]) = added pc t ++ [c].
Proof. unfold got, added. rewrite !omap_app. cbn. rewrite !decide_True by done. by rewrite !app_nil_r. Qed.

(** A candidate event of an entry that changes with it. *)
Lemma inv_cand ev pc e e' w :
  Inv w -> entries w !! pc = Some e -> event_pc ev = Some pc -> ectx e' = ectx e -> pclosed e' = pclosed e ->
  owes e' = owes e -> cand_ok (trace w ++ [ev]) pc e' -> Inv (set_pcs (pcMap w) (<[pc := e']> (entries w)) (emit ev w)).
Proof.
  intros [P L M V O B R C T G E K] Hp He Hx Hc Ho Hok. split; cbn; try done.
  - intros k [y Hk]. apply P. apply lookup_insert_Some in Hk as [[<- _]|[_ Hk]]; eauto.
  - intros ctx k Hk. destruct (M ctx k Hk) as (Hh & e1 & H1 & H2 & H3). split; [done|].
    destruct (decide (k = pc)) as [->|Hne]; [|exists e1; by rewrite lookup_insert_ne].
    exists e'. rewrite lookup_insert_eq. simplify_eq. by rewrite Hx, Hc.
  - intros k y Hk Hcl. apply lookup_insert_Some in Hk as [[<- <-]|[_ Hk]]; [|by apply V]. rewrite Hx. apply V; congruence.
  - eapply tie_entry; [done..|congruence].
  - intros ev' k [Hev| ->%list_elem_of_singleton]%elem_of_app Hk; apply lookup_insert_is_Some';
      [right; by apply (E ev')|left; congruence].
  - intros k y Hk. apply lookup_insert_Some in Hk as [[<- <-]|[Hne Hk]]; [done|]. apply cand_snoc; [by apply K|congruence].
Qed.

Lemma AddIceCandidate_ok ctx c w : Inv w -> Inv (AddIceCandidate ctx c w).
Proof.
  intros HI. unfold AddIceCandidate. destruct (pcMap w !! ctx) as [pc|]; [|done].
  destruct (entries w !! pc) as [e|] eqn:He; [|done]. pose proof (i_cand _ HI pc e He) as [B F O].
  destruct (views pc c (trace w)) as (V1 & V2 & _). destruct (descSet e) eqn:Hd.
  - rewrite (F eq_refl), app_nil_r in O. destruct (views pc c (trace w ++ [EGot pc c])) as (_ & _ & V3 & V4).
    destruct HI as [P' L' M' V' O' B' R' C' T' G' E' K']. split; cbn; try done.
    + intros ev k [[Hev| ->%list_elem_of_singleton]%elem_of_app| ->%list_elem_of_singleton]%elem_of_app Hk;
        [by apply (E' ev)|cbn in Hk; simplify_eq; eauto..].
    + intros k y Hk. destruct (decide (k = pc)) as [->|Hne].
      * simplify_eq. split; [congruence|intros _; by apply F|]. by rewrite V3, V4, V1, V2, (F eq_refl), O, app_nil_r.
      * apply cand_snoc; [|cbn; congruence]. apply cand_snoc; [by apply K'|cbn; congruence].
  - apply (inv_cand (EGot pc c) pc e (with_candidates false (pendingCandidates e ++ [c]) e) w); try done. split; [rewrite V2; intros _; by apply B|done|].
    cbn [pendingCandidates with_candidates]. by rewrite V1, V2, O, <- app_assoc.
Qed.

Lemma set_remote_ok ctx sdp w : Inv w -> Inv (set_remote ctx sdp w).
Proof.
  intros HI. unfold set_remote. destruct (pcMap w !! ctx) as [pc|]; [|done].
  destruct (entries w !! pc) as [e|] eqn:He; [|done]. apply rtc_inv_emit; [|done].
  apply (inv_entry pc e); try done. destruct (i_cand _ HI pc e He). by split.
Qed.

(** The [then] of [setRemoteDescription]: the buffer is handed over. *)
Lemma description_set_ok pc e w : Inv w -> entries w !! pc = Some e -> Inv (description_set pc e w).
Proof.
  intros HI He. unfold description_set. pose proof (i_cand _ HI pc e He) as [B F O].
  set (w1 := set_pcs _ _ _).
  assert (forall cs w', heap w' = heap w1 -> pcMap w' = pcMap w1 -> entries w' = entries w1 -> next_pc w' = next_pc w1 ->
    links w' = links w1 -> next_link w' = next_link w1 -> state w' = state w1 ->
    (forall ev k, ev ∈ trace w' -> event_pc ev = Some k -> is_Some (entries w1 !! k)) ->
    (forall k y, k <> pc -> entries w1 !! k = Some y -> cand_ok (trace w') k y) ->
    got pc (trace w') = added pc (trace w') ++ cs ->
    Inv (foldl (fun w c => emit (ECandidate pc c) w) w' cs)) as Hfold.
  { induction cs as [|c cs IH]; intros w' E1 E2 E3 E4 E5 E6 E7 Hev Hk Hg; cbn [foldl].
    - destruct HI as [P' L' M' V' O' B' R' C' T' G' E' K'].
      split; rewrite ?E1, ?E2, ?E3, ?E4, ?E5, ?E6, ?E7; cbn [heap pcMap entries next_pc links next_link state w1 set_pcs]; try done.
      + intros k Hs. apply lookup_insert_is_Some' in Hs as [<-|Hs]; [|by apply P']. apply P'. eauto.
      + intros ctx k Hm. destruct (M' ctx k Hm) as (Hh & e1 & H1 & H2 & H3). split; [done|].
        destruct (decide (k = pc)) as [->|Hne]; [|exists e1; by rewrite lookup_insert_ne].
        exists (with_candidates true [] e). rewrite lookup_insert_eq. by simplify_eq.
      + intros k y Hy Hcl. apply lookup_insert_Some in Hy as [[<- <-]|[_ Hy]]; [by apply (V' pc e)|by apply V'].
      + by apply (tie_entry _ _ _ pc e).
      + intros k y Hy. destruct (decide (k = pc)) as [->|Hne]; [|by apply Hk].
        rewrite lookup_insert_eq in Hy. simplify_eq. split; cbn; [done|done|exact Hg].
    - destruct (views pc c (trace w')) as (_ & _ & V3 & V4). apply IH; try done.
      + intros ev k [Hin| ->%list_elem_of_singleton]%elem_of_app Hev'; [by apply (Hev ev)|]. cbn in Hev'. simplify_eq.
        unfold w1. cbn. rewrite lookup_insert_eq. eauto.
      + intros k y Hne Hy. apply cand_snoc; [by apply Hk|]. cbn. congruence.
      + cbn [trace emit]. rewrite V3, V4, Hg, <- app_assoc. done. }
  apply Hfold; try done.
  - intros ev k Hin Hev. unfold w1. cbn. apply lookup_insert_is_Some'. right. by apply (i_event _ HI ev).
  - intros k y Hne Hy. unfold w1 in Hy. cbn in Hy. rewrite lookup_insert_ne in Hy by done. by apply (i_cand _ HI).
Qed.

(** *** New peers *)

Lemma new_ctx_fresh addr w : heap w !! new_ctx addr w = None.
Proof.
  unfold new_ctx. case_decide as Hd; [|by apply not_elem_of_dom]. apply not_elem_of_dom. apply is_fresh.
Qed.

Lemma add_peer_ok ctx peer inbound offerer s w :
  Inv w -> state w = Some s -> heap w !! ctx = None ->
  (inbound = true -> (inboundCount s < maxInboundConnections)%nat) ->
  Inv (new_pc ctx offerer (add_peer ctx peer inbound s w)).
Proof.
  intros HI Hs Hf Hm. assert (forall k pc, pcMap w !! k = Some pc -> k <> ctx) as Hnm.
  { intros k pc Hk ->. destruct (i_map _ HI ctx pc Hk) as [[c Hc] _]. congruence. }
  assert (entries w !! next_pc w = None) as Hpc.
  { destruct (entries w !! next_pc w) eqn:E; [|done]. assert (is_Some (entries w !! next_pc w)) as Hx by eauto.
    apply (i_pc _ HI) in Hx. lia. }
  destruct HI as [P L M V O B R C T G E K]. split; cbn.
  - intros k Hk. apply lookup_insert_is_Some' in Hk as [<-|Hk]; [lia|]. assert (k < next_pc w)%nat by auto. lia.
  - done.
  - intros k pc Hk. apply lookup_insert_Some in Hk as [[<- <-]|[Hne Hk]].
    + rewrite lookup_insert_eq. split; [done|]. eexists. by rewrite lookup_insert_eq.
    + destruct (M k pc Hk) as (Hh & e & He & Hx). rewrite lookup_insert_ne by done. split; [done|].
      exists e. rewrite lookup_insert_ne; [done|]. congruence.
  - intros pc e Hp Hc. apply lookup_insert_Some in Hp as [[<- <-]|[Hne Hp]]; cbn; [by rewrite lookup_insert_eq|].
    pose proof (V pc e Hp Hc) as Hv. rewrite lookup_insert_ne; [done|]. apply not_eq_sym. by eapply Hnm.
  - intros l x Hl. destruct (O l x Hl) as (c & Hc & Hr). exists c. rewrite lookup_insert_ne; [done|]. congruence.
  - intros k c l Hk Hl. apply lookup_insert_Some in Hk as [[<- <-]|[_ Hk]]; [done|]. by apply B.
  - intros s' id k [= <-]. cbn. intros Hk. apply lookup_insert_Some in Hk as [[<- <-]|[_ Hk]].
    + eexists. by rewrite lookup_insert_eq.
    + destruct (R s id k Hs Hk) as (c & Hc & Hr). exists c. rewrite lookup_insert_ne; [done|]. congruence.
  - intros s' [= <-]. cbn. destruct (C s Hs) as [Hcnt Hle]. rewrite inbound_insert by done. cbn [inb].
    rewrite <- Hcnt in *. destruct inbound; [specialize (Hm eq_refl)|]; lia.
  - apply tie_new_pc; [done..|]. intros l x Hl Hx. destruct (O l x Hl) as (c & Hc & _). congruence.
  - done.
  - intros ev k Hev Hk. apply lookup_insert_is_Some'. right. by apply (E ev).
  - intros k e Hk. apply lookup_insert_Some in Hk as [[<- <-]|[_ Hk]]; [|by apply K].
    assert (forall X (f : Event -> option X), (forall ev, is_Some (f ev) -> event_pc ev = Some (next_pc w)) -> omap f (trace w) = []) as Z.
    { intros X f Hfe. destruct (omap f (trace w)) as [|v vs] eqn:Ev; [done|].
      assert (v ∈ omap f (trace w)) as (ev & Hev & Hv)%list_elem_of_omap by (rewrite Ev; left).
      destruct (E ev (next_pc w) Hev) as [y Hy]; [apply Hfe; eauto|]. congruence. }
    split; cbn; try done; unfold got, added; rewrite !Z; try done;
      (intros []; cbn; try (by intros []); case_decide; [congruence|by intros []]).
Qed.

(** *** All inputs *)

Definition input_ok (i : Input) : bool := match i with ICmd c => cmd_ok c | _ => true end.

Lemma OnMessage_rtc_ok from payload addr s w :
  Inv w -> state w = Some s -> ok Inv (OnMessage from payload addr s w).
Proof.
  intros HI Hs. assert (Inv (emit EThrow w)) as Ht by (by apply rtc_inv_emit). unfold OnMessage.
  repeat (split_match; try done); reflect_bools; cbn.
  - apply set_remote_ok, add_peer_ok; [done|done|apply new_ctx_fresh|lia].
  - by apply set_remote_ok.
  - by apply AddIceCandidate_ok.
Qed.

Lemma onJoined_rtc_ok r addr w : Inv w -> ok Inv (onJoined r addr w).
Proof.
  intros HI. unfold onJoined. destruct (state w) as [s|] eqn:Hs; [|done].
  destruct r as [u|e]; [|by apply OnLinkFailed_rtc_ok].
  set (s1 := mkState (peers s) (inboundCount s) true). assert (Inv (set_state (Some s1) w)) as HI1.
  { destruct HI as [P L M V O B R C T G E K]. split; cbn; try done.
    - intros s' id ctx [= <-]. by apply (R s).
    - intros s' [= <-]. by apply (C s). }
  destruct isOfferer; [|done]. apply (add_peer_ok _ _ _ _ s1 (set_state (Some s1) w)); [done|done| |done].
  apply new_ctx_fresh.
Qed.

(** While a connection is open its context is on the heap. *)
Lemma fire_ok pc w k :
  Inv w ->
  (forall e, entries w !! pc = Some e -> pclosed e = false -> is_Some (heap w !! ectx e) -> ok Inv (k e)) -> ok Inv (fire pc w k).
Proof.
  intros HI Hk. unfold fire. destruct (entries w !! pc) as [e|] eqn:He; [|done].
  destruct (pclosed e) eqn:Hc; [done|]. apply Hk; [done|done|].
  apply (i_map _ HI (ectx e) pc). by apply (i_live _ HI).
Qed.

(** The [close] event fires once: its link has then no other to come. *)
Lemma fire_close_ok pc w : Inv w -> ok Inv (fire_close pc w).
Proof.
  intros HI. unfold fire_close. destruct (entries w !! pc) as [e|] eqn:He; [|done].
  destruct (dc e && negb (dcDone e)) eqn:Hd; [|done]. apply andb_true_iff in Hd as [Hdc Hdd].
  assert (owes e = true) as Ho by (unfold owes; by rewrite Hdd, Hdc). pose proof (i_tie _ HI) as HT.
  set (w1 := set_pcs _ _ w). assert (Inv w1) as HI1.
  { apply (inv_entry pc e); try done. destruct (i_cand _ HI pc e He). by split. }
  destruct (t_owes _ _ _ HT pc e He Ho) as [c Hc]. unfold OnDataChannelClose. cbn [heap w1 set_pcs]. rewrite Hc.
  destruct (link c) as [l|] eqn:Hl; [|done]. destruct (i_back _ HI _ c l Hc Hl) as (_ & x & Hx & Hlc).
  apply (OnClose_rtc_ok l x); [done|done|]. cbn. intros k y Hk Hy. apply lookup_insert_Some in Hk as [[<- <-]|[Hne Hk]]; [done|].
  apply not_true_is_false. intros Hyo. apply Hne, (t_uniq _ _ _ HT _ _ e y); congruence.
Qed.

Lemma input_rtc_ok i w : input_ok i = true -> Inv w -> ok Inv (input i w).
Proof.
  intros Hi HI. destruct i as [r addr|from payload addr|lost|pc|pc n|pc|pc|pc|pc d|c]; cbn [input].
  - by apply onJoined_rtc_ok.
  - destruct (state w) as [s|] eqn:Hs; [|done]. destruct (sigUser s); [|done]. by apply OnMessage_rtc_ok.
  - destruct (state w) as [s|] eqn:Hs; [|done]. destruct (sigUser s && lost); [|done]. by apply OnLinkFailed_rtc_ok.
  - apply fire_ok; [done|]. intros e He _ _. destruct (setting e); [|done]. by apply description_set_ok.
  - apply fire_ok; [done|]. intros e He _ [c Hc]. unfold OnLocal. rewrite Hc. repeat (split_match; try done); by apply rtc_inv_emit.
  - apply fire_ok; [done|]. intros e He Hcl _. cbn. apply (inv_entry pc e); try done.
    + unfold owes. cbn. rewrite Hcl, !orb_true_r. by destruct (dcDone e).
    + destruct (i_cand _ HI pc e He). by split.
  - apply fire_ok; [done|]. intros e He _ [c Hc]. destruct (dc e); [|done]. unfold OnDataChannelOpen. rewrite Hc.
    destruct (opened c) eqn:Ho; [done|]. assert (link c = None) as Hl.
    { destruct (link c) as [l|] eqn:E; [|done]. destruct (i_back _ HI _ c l Hc E). congruence. }
    apply onDcOpen_ok; [by apply (inv_ctx _ c)| |cbn; apply lookup_insert_eq|done|done]. cbn.
    destruct (state w) eqn:Hs; [done|]. pose proof (i_gone _ HI Hs _ c Hc). cbn in *. congruence.
  - by apply fire_close_ok.
  - apply fire_ok; [done|]. intros e He _ [c Hc]. destruct (dc e); [|done]. unfold OnChannelMessage. rewrite Hc.
    destruct (link c) as [l|] eqn:Hl; [|done]. destruct (i_back _ HI _ c l Hc Hl) as (_ & x & Hx & _). apply OnData_rtc_ok; eauto.
  - eapply rtc_ok_mono; [by apply call_rtc_ok|]. by intros w' [].
Qed.

Lemma inputs_rtc_ok ins w : forallb input_ok ins = true -> Inv w -> ok Inv (inputs ins w).
Proof.
  revert w. induction ins as [|i ins IH]; intros w Hi HI; cbn in *; [done|]. reflect_bools.
  eapply rtc_ok_bind; [by apply input_rtc_ok|]. intros w1 H1. by apply IH.
Qed.

Lemma Open_rtc_inv a : Inv (Open a).
Proof.
  split; cbn; try (intros; by simplify_map_eq); try (by intros ? []).
  - intros s [= <-]. cbn. unfold inbound_ctxs. rewrite map_filter_empty, map_size_empty. lia.
  - set_solver.
Qed.

(** ** Theorems *)


(** Candidates in the browser, for such an application: those handed to the
    connection, followed by those buffered, are those received for it, in order;
    none is handed over before the remote description is set, none stays
    buffered after. *)
Theorem js_candidates_in_order (ins : list Input) (a : A) (w : World) (pc : nat) (e : Entry) :
  forallb input_ok ins = true -> inputs ins (Open a) = Ret w -> entries w !! pc = Some e ->
  got pc (trace w) = added pc (trace w) ++ pendingCandidates e /\
  (descSet e = false -> added pc (trace w) = []) /\ (descSet e = true -> pendingCandidates e = []).
Proof.
  intros Hi Hw He. pose proof (inputs_rtc_ok ins (Open a) Hi (Open_rtc_inv a)) as Hok.
  rewrite Hw in Hok. destruct (i_cand _ Hok pc e He). done.
Qed.

End JsRtc.

(** ** An application that is not careful *)

Section Careless.
Context {J : Type} {JL : JsonLib J}.
Context {A : Type}.
Context (remote_id : string) (maxMessageSize maxInboundConnections : nat).
Context (on_link : A -> nat -> A * list Cmd * LinkHandler * bool).
Context (on_failed : A -> Error -> A * list Cmd).
Context (on_received : A -> nat -> list byte -> A * list Cmd).
Context (on_disconnected : A -> nat -> A * list Cmd).

Local Abbreviation inputs := (inputs remote_id maxMessageSize maxInboundConnections false on_link on_failed on_received on_disconnected).

(** What [JsRtcPc_Close] promises ("no further callbacks for this ctx") does
    not hold: its handlers are neither removed nor guarded, so the [close] event
    of the data channel that fires after the application has released the link
    reads the freed context. *)
Theorem close_event_after_release (l : nat) (x : JsLink) (pc : nat) (e : Entry) (w : World) :
  links w !! l = Some x -> pinned w <> Some l -> is_Some (heap w !! lctx x) ->
  entries w !! pc = Some e -> ectx e = lctx x -> dc e = true -> dcDone e = false ->
  inputs [ICmd (CDrop l); IDcClose pc] w = Crash.
Proof.
  intros Hl Hp [c Hc] He Hx Hd Hdd. cbn. rewrite decide_False by done. unfold destroy_link. rewrite Hl.
  set (w0 := set_links _ w). assert (heap (JsClose (lctx x) w0) = heap w /\
    exists e', entries (JsClose (lctx x) w0) !! pc = Some e' /\ ectx e' = ectx e /\ dc e' = dc e /\ dcDone e' = dcDone e)
    as (Eh & e' & He' & Hx' & Hd' & Hdd').
  { unfold JsClose, w0. cbn. destruct (pcMap w !! lctx x) as [q|]; [|by split; [|exists e]].
    destruct (entries w !! q) as [eq|] eqn:Hq; cbn; [|by split; [|exists e]]. split; [done|].
    destruct (decide (pc = q)) as [->|Hne]; [rewrite lookup_insert_eq|rewrite lookup_insert_ne by done; by exists e].
    simplify_eq. by eexists. }
  rewrite Eh, Hc. cbn [obind]. unfold fire_close, onGone. cbn [entries state set_heap].
  destruct (state (JsClose (lctx x) w0)); cbn [entries set_state set_heap]; rewrite He', Hdd', Hd', Hd, Hdd; cbn [andb negb];
    unfold OnDataChannelClose; cbn [heap set_pcs set_state set_heap]; by rewrite Hx', Hx, lookup_delete_eq.
Qed.

(** The same when the transport is destroyed while a connection is being set
    up: the channel that opens discards its context, and its [close] event reads
    it. *)
Theorem close_event_after_discard (pc : nat) (e : Entry) (c : PeerCtx) (w : World) :
  entries w !! pc = Some e -> pclosed e = false -> dc e = true -> dcDone e = false ->
  heap w !! ectx e = Some c -> opened c = false ->
  inputs [ICmd CDestroy; IDcOpen pc; IDcClose pc] w = Crash.
Proof.
  intros He Hcl Hd Hdd Hc Ho. cbn. unfold fire. cbn [entries set_state]. rewrite He, Hcl, Hd.
  unfold OnDataChannelOpen. cbn [heap set_state]. rewrite Hc, Ho. unfold onDcOpen. cbn [state set_state set_heap obind].
  set (w1 := set_heap _ (set_state None w)).
  assert (exists e', entries (JsClose (ectx e) w1) !! pc = Some e' /\ ectx e' = ectx e /\ dc e' = dc e /\ dcDone e' = dcDone e)
    as (e' & He' & Hx' & Hd' & Hdd').
  { unfold JsClose, w1. cbn. destruct (pcMap w !! ectx e) as [q|]; [|by exists e].
    destruct (entries w !! q) as [eq|] eqn:Hq; cbn; [|by exists e].
    destruct (decide (pc = q)) as [->|Hne]; [rewrite lookup_insert_eq|rewrite lookup_insert_ne by done; by exists e].
    simplify_eq. by eexists. }
  unfold fire_close. cbn [entries set_heap]. rewrite He', Hdd', Hd', Hd, Hdd. cbn [andb negb].
  unfold OnDataChannelClose. cbn [heap set_pcs set_heap]. by rewrite Hx', lookup_delete_eq.
Qed.

End Careless.

(** ** Evaluation *)

Module Demo.

Definition on_link (a l : nat) : nat * list Cmd * LinkHandler * bool := (a, [], mkHandler true true, true).
Definition on_failed (a : nat) (e : Error) : nat * list Cmd := (a, []).
Definition on_received (a l : nat) (d : list byte) : nat * list Cmd := (a + length d, [CSend l d (length d `min` 8) true]).
(** The application releases a link when it is told of the disconnect. *)
Definition on_disconnected (a l : nat) : nat * list Cmd := (a, [CDrop l]).

Definition session (careful : bool) (ins : list Input) : outcome (World (A := nat)) :=
  inputs (JL := Toy.lib) "" 8 1 careful on_link on_failed on_received on_disconnected ins (Open 0).
Definition result (careful : bool) (ins : list Input) : World (A := nat) :=
  match session careful ins with Ret w => w | _ => Open 0 end.
Definition text (n : Negotiation) : string := default "" (encode (JL := Toy.lib) n).

Lemma demo_writers : writers_ok 8 on_link on_failed on_received on_disconnected.
Proof.
  split_and!; try done. intros a l d. cbn. rewrite andb_true_r. apply bool_decide_eq_true. lia.
Qed.

(** An offer, a candidate before and one after the description is applied;
    the channel opens, echoes, is disconnected and fires [close]; the link is
    released and the peer connects again, its context at the same address. *)
Definition visit : list Input :=
  [IJoined (Value tt) 1; IMessage "p" (text (Description "offer" "v")) 64; IMessage "p" (text (Candidate "c1" "0")) 0;
   IDescSet 0; IMessage "p" (text (Candidate "c2" "0")) 0; IChannel 0; IDcOpen 0; IDcMessage 0 [x01]; ICmd (CDisconnect 0); IDcClose 0;
   IMessage "p" (text (Description "offer" "v")) 64].
Definition visited : World (A := nat) := Eval vm_compute in result true visit.
Lemma visited_eq : session true visit = Ret visited.
Proof. vm_compute. reflexivity. Qed.


Lemma js_candidates_in_order_witness :
  got 0 (trace visited) = [("c1", "0"); ("c2", "0")] /\
  got 0 (trace visited) = added 0 (trace visited) ++ [].
Proof.
  split; [reflexivity|].
  apply (js_candidates_in_order (JL := Toy.lib) "" 8 1 true on_link on_failed on_received on_disconnected eq_refl demo_writers
           visit 0 visited 0 (mkEntry 64 true false true [] true true)); [reflexivity|exact visited_eq|vm_compute; reflexivity].
Defined.

Definition online : World (A := nat) := Eval vm_compute in result false (take 7 visit).

Lemma close_event_after_release_witness :
  inputs (JL := Toy.lib) "" 8 1 false on_link on_failed on_received on_disconnected [ICmd (CDrop 0); IDcClose 0] online = Crash.
Proof.
  apply (close_event_after_release (JL := Toy.lib) "" 8 1 on_link on_failed on_received on_disconnected
           0 (mkLink 64 "p" true (mkHandler true true) false false) 0 (mkEntry 64 true false true [] false false) online);
    try (vm_compute; reflexivity); [done|vm_compute; by eexists].
Defined.

Definition connecting : World (A := nat) := Eval vm_compute in result false (take 6 visit).

Lemma close_event_after_discard_witness :
  inputs (JL := Toy.lib) "" 8 1 false on_link on_failed on_received on_disconnected
    [ICmd CDestroy; IDcOpen 0; IDcClose 0] connecting = Crash.
Proof.
  apply (close_event_after_discard (JL := Toy.lib) "" 8 1 on_link on_failed on_received on_disconnected
           0 (mkEntry 64 true false true [] false false) (mkCtx "p" true false None) connecting);
    vm_compute; reflexivity.
Defined.

End Demo.
