(* ===== verification/Http.v ===== *)
(** * HTTP lite clients

    [http/Http]: the Beast client ([Impl/Beast/BeastLiteClient.cpp]) with its
    connections ([TcpConnection.cpp], [SslConnection.cpp]), the bridge from stop
    tokens to Asio cancellation ([Impl/AsioLiteClient.cpp]), the two browser
    clients ([Impl/Wasm]) and the zero-terminated view [Impl/CstrView.h].

    The request coroutine is a computation in a small effect monad: it makes
    calls ([call]) on the network, TLS and socket libraries, which are a
    parameter [Net] that answers each call from a world of its own; a call that
    is awaited may throw, which is how Asio reports a cancelled coroutine (in a
    build without exceptions [boost::throw_exception] aborts the program there
    instead). Every call and its answer is recorded. The abstract specification is the automaton
    [mon_step] of the protocol the client should follow; the request coroutine
    refines it and returns what the automaton's final phase dictates.

    Log calls, and the socket and TLS queries made only for logging, have no
    effect and are left out. The destructor of a socket that is already closed
    does nothing and is not recorded. *)

From stdpp Require Import pretty.
From S2P Require Import Prelude.
Local Open Scope string_scope.

(** ** Zero-terminated views *)

Module CstrView.

Definition zero : Ascii.ascii := Ascii.zero.

(** What a C function reads from a pointer: the bytes up to the first zero;
    [None] when it runs off the end of the memory. *)
Fixpoint c_read (s : string) : option string :=
  match s with
  | EmptyString => None
  | String c s => if Ascii.eqb c zero then Some EmptyString else String c <$> c_read s
  end.

(** The bytes of [s] before its first zero. *)
Fixpoint until_zero (s : string) : string :=
  match s with
  | EmptyString => EmptyString
  | String c s => if Ascii.eqb c zero then EmptyString else String c (until_zero s)
  end.

(** The last byte of the view is a zero: [sv[sv.size() - 1] == '\0']. *)
Fixpoint ends_with_zero (s : string) : bool :=
  match s with
  | EmptyString => false
  | String c EmptyString => Ascii.eqb c zero
  | String _ s => ends_with_zero s
  end.

(** [ptr_]: into the viewed text, into the stack buffer of the object at an
    address, or into the heap string owned by it (whose buffer stays in place
    when the object is moved). *)
Inductive pointer :=
| ToView
| ToStack (obj : nat)
| ToHeap.

Record t := mk {
  sv_ : string;
  ptr_ : pointer;
  stack_buffer_ : string;   (** the bytes written, at most [MaxStackSize] *)
  heap_ : string;           (** with the zero [c_str] guarantees *)
}.

Definition terminated (s : string) : string := s +:+ String zero EmptyString.

(** The constructor, for the object at address [self]. *)
Definition make (MaxStackSize self : nat) (sv : string) : t :=
  if negb (String.eqb sv EmptyString) && ends_with_zero sv
  then mk sv ToView EmptyString EmptyString
  else if (String.length sv <? MaxStackSize)%nat
  then mk sv (ToStack self) (terminated sv) EmptyString
  else mk sv ToHeap EmptyString (terminated sv).

(** The text at [c_str()] of the object at address [self]; [None] when the
    pointer leads outside the object and its view. *)
Definition c_str (self : nat) (v : t) : option string :=
  match ptr_ v with
  | ToView => c_read (sv_ v)
  | ToStack obj => if (obj =? self)%nat then c_read (stack_buffer_ v) else None
  | ToHeap => c_read (heap_ v)
  end.

(** The defaulted move constructor, from the object at [self] to one elsewhere:
    member by member, the pointer included. *)
Definition move (v : t) : t := v.

Lemma c_read_terminated s : c_read (terminated s) = Some (until_zero s).
Proof.
  induction s as [|c s IH]; [done|]. simpl.
  destruct (Ascii.eqb c zero); [done|]. unfold terminated in IH. by rewrite IH.
Qed.

Lemma c_read_ends_with_zero s : ends_with_zero s = true -> c_read s = Some (until_zero s).
Proof.
  induction s as [|c [|d s] IH]; [done| |].
  - simpl. intros ->. done.
  - intros H. change (ends_with_zero (String d s) = true) in H. specialize (IH H).
    simpl in *. destruct (Ascii.eqb c zero); [done|]. by rewrite IH.
Qed.

(** The text at [c_str()] is the viewed text up to its first zero, on each of
    the three ways the constructor takes, and reading it stays inside the
    memory it points to. *)
Theorem c_str_reads_view n self sv :
  c_str self (make n self sv) = Some (until_zero sv).
Proof.
  unfold make, c_str.
  destruct (negb (String.eqb sv "") && ends_with_zero sv) eqn:E; simpl.
  - apply andb_prop in E as [_ E]. by apply c_read_ends_with_zero.
  - destruct (String.length sv <? n)%nat; simpl; [rewrite Nat.eqb_refl|];
      apply c_read_terminated.
Qed.

(** What is written to the stack buffer fits into it, the final zero
    included. *)
Theorem stack_buffer_in_bounds n self sv :
  String.length (stack_buffer_ (make n self sv)) <= n.
Proof.
  unfold make. destruct (_ && _); simpl; [lia|].
  destruct (String.length sv <? n)%nat eqn:E; simpl; [|lia].
  apply Nat.ltb_lt in E. unfold terminated.
  assert (forall a b, String.length (a +:+ b) = String.length a + String.length b) as ->.
  { intros a b. induction a as [|c a IH]; simpl; [done|]. by rewrite IH. }
  simpl. lia.
Qed.

(** A moved view of a short text is not usable at its new place: its pointer
    still leads into the stack buffer of the object it was moved from. *)
Theorem moved_view_dangles n self self' sv :
  ends_with_zero sv = false -> String.length sv < n -> self <> self' ->
  c_str self' (move (make n self sv)) = None.
Proof.
  intros He Hn Hs. unfold move, make, c_str. rewrite He, andb_false_r.
  apply Nat.ltb_lt in Hn. rewrite Hn. simpl.
  by destruct (Nat.eqb_spec self self').
Qed.

End CstrView.

(** ** Errors, results, URLs *)

(** The error codes the client itself makes, Asio's [would_block], and those
    that come from the libraries. *)
Inductive code :=
| invalid_argument
| io_error
| protocol_error
| protocol_not_supported
| operation_canceled
| state_not_recoverable
| not_connected
| would_block
| library_error (n : Z).

#[export] Instance code_eq_dec : EqDecision code.
Proof. solve_decision. Defined.

(** [std::system_error]. *)
Record system_error := SystemError { error_code : code; what : string }.

(** [ILiteClient::Response], [ILiteClient::Result]. *)
Record Response := mkResponse { statusCode : Z; body : string }.
Definition Result := expected Response system_error.

(** The components of a parsed URL ([ada::url_aggregator]); the protocol has
    its colon, the search part its question mark. *)
Record url_aggregator := Url {
  get_protocol : string;
  get_hostname : string;
  get_port : string;
  get_pathname : string;
  get_search : string;
}.

Definition endpoint := nat.

(** A GET request: its target and the two fields the client sets. *)
Record request := Request { target : string; host : string; user_agent : string }.

#[export] Instance request_eq_dec : EqDecision request.
Proof. solve_decision. Defined.

Inductive stream := Plain | Tls.

#[export] Instance stream_eq_dec : EqDecision stream.
Proof. solve_decision. Defined.

(** What [http::async_read] leaves: the error, the parsed response and the
    bytes of the buffer that are not part of it. *)
Record read_result := ReadResult {
  rd_ec : option code;
  rd_status : Z;
  rd_reason : string;
  rd_body : string;
  rd_buffer : string;
}.

(** ** Calls on the libraries *)

(** A call with the type of its answer; an error code is [option code]. *)
Inductive call : Type -> Type :=
| Suspend : call unit                       (** awaiting a coroutine of the client *)
| Resolve (hostname service : string) : call (expected (list endpoint) code)
| SocketNew : call unit
| Connect (e : endpoint) : call (option code)
| SetNoDelay : call (option code)
| SetNonBlocking : call (option code)
| IsOpen : call bool
| NonBlocking : call bool
| RemoteEndpoint : call (option code)
| Available : call (option code)
| ReceivePeek : call (option code)
| Shutdown : call (option code)
| Close : call (option code)
| SocketDestroy : call unit                 (** the destructor of an open socket *)
| SetHostName (cstr : option string) : call bool
| Handshake : call (option code)
| InitFinished : call bool
| SslShutdown : call (option code)
| Write (s : stream) (r : request) : call (option code)
| Read (s : stream) : call read_result.

(** The libraries: URL parsing, the answer to a call and the world after it,
    and whether an awaited call throws instead. *)
Record Net (W : Type) := mkNet {
  ada_parse : string -> option url_aggregator;
  perform : forall A, call A -> W -> A * W;
  aborts : forall A, call A -> W -> option W;
}.
Arguments ada_parse {W}.
Arguments perform {W} _ {A}.
Arguments aborts {W} _ {A}.

Inductive event : Type :=
| Called {A : Type} (c : call A) (a : A)
| Threw {A : Type} (c : call A).

Declare Scope http_scope.

(** ** The effect monad *)

(** How a coroutine ends: with a value or with an exception. *)
Inductive ending (A : Type) := Done (a : A) | Thrown.
Arguments Done {A} a.
Arguments Thrown {A}.

Record St (W : Type) := mkSt {
  world : W;
  trace : list event;
  moved : bool;       (** the socket was moved out of [tcpConnection] *)
  detached : nat;     (** spawned [StreamFinish] coroutines that have not run *)
}.
Arguments mkSt {W}.
Arguments world {W}.
Arguments trace {W}.
Arguments moved {W}.
Arguments detached {W}.

Definition M (W A : Type) : Type := St W -> ending A * St W.

Section Monad.
Context {W : Type} (net : Net W).

Definition record (e : event) (w : W) (st : St W) : St W :=
  mkSt w (trace st ++ [e]) (moved st) (detached st).

Definition ret {A} (a : A) : M W A := fun st => (Done a, st).

Definition bind {A B} (m : M W A) (k : A -> M W B) : M W B := fun st =>
  match m st with
  | (Done a, st') => k a st'
  | (Thrown, st') => (Thrown, st')
  end.

(** A synchronous call. *)
Definition call_ {A} (c : call A) : M W A := fun st =>
  let '(a, w) := perform net c (world st) in (Done a, record (Called c a) w st).

(** An awaited call: it may throw. *)
Definition await {A} (c : call A) : M W A := fun st =>
  match aborts net c (world st) with
  | Some w => (Thrown, record (Threw c) w st)
  | None => call_ c st
  end.

(** Leaving a scope by exception, or in any way: the destructor [d] runs. *)
Definition on_throw {A} (d : M W unit) (m : M W A) : M W A := fun st =>
  match m st with
  | (Done a, st') => (Done a, st')
  | (Thrown, st') => (Thrown, (d st').2)
  end.

Definition finally {A} (d : M W unit) (m : M W A) : M W A := fun st =>
  let '(o, st') := m st in (o, (d st').2).

Definition co_await {A} (m : M W A) : M W A := bind (await Suspend) (fun _ => m).

(** The completion handler of [co_spawn] sees an exception as a value. *)
Definition catch_ {A} (m : M W A) (h : A) : M W A := fun st =>
  match m st with
  | (Done a, st') => (Done a, st')
  | (Thrown, st') => (Done h, st')
  end.

Definition set_moved : M W unit := fun st =>
  (Done tt, mkSt (world st) (trace st) true (detached st)).

Definition spawn_detached : M W unit := fun st =>
  (Done tt, mkSt (world st) (trace st) (moved st) (S (detached st))).

(** Weakest preconditions. *)
Definition wp {A} (m : M W A) (Q : ending A -> St W -> Prop) (st : St W) : Prop :=
  Q (m st).1 (m st).2.

Lemma wp_mono {A} (m : M W A) (Q Q' : ending A -> St W -> Prop) st :
  (forall o st', Q o st' -> Q' o st') -> wp m Q st -> wp m Q' st.
Proof. unfold wp. auto. Qed.

Lemma wp_ret {A} (a : A) (Q : ending A -> St W -> Prop) st : Q (Done a) st -> wp (ret a) Q st.
Proof. done. Qed.

Lemma wp_bind {A B} (m : M W A) (k : A -> M W B) Q st :
  wp m (fun o st' => match o with Done a => wp (k a) Q st' | Thrown => Q Thrown st' end) st ->
  wp (bind m k) Q st.
Proof. unfold wp, bind. by destruct (m st) as [[a|] st']. Qed.

Lemma wp_call {A} (c : call A) (Q : ending A -> St W -> Prop) st :
  (forall a w, perform net c (world st) = (a, w) -> Q (Done a) (record (Called c a) w st)) ->
  wp (call_ c) Q st.
Proof.
  intros H. unfold wp, call_. destruct (perform net c (world st)) as [a w]. simpl. auto.
Qed.

Lemma wp_await {A} (c : call A) (Q : ending A -> St W -> Prop) st :
  (forall w, aborts net c (world st) = Some w -> Q Thrown (record (Threw c) w st)) ->
  (forall a w, perform net c (world st) = (a, w) -> Q (Done a) (record (Called c a) w st)) ->
  wp (await c) Q st.
Proof.
  intros Ht Hc. unfold wp, await. destruct (aborts net c (world st)) as [w|] eqn:E.
  - by apply Ht.
  - by apply wp_call.
Qed.

Lemma wp_on_throw {A} d (m : M W A) Q st :
  wp m (fun o st' => match o with
                     | Done _ => Q o st'
                     | Thrown => wp d (fun _ st'' => Q Thrown st'') st'
                     end) st ->
  wp (on_throw d m) Q st.
Proof. unfold wp, on_throw. by destruct (m st) as [[a|] st']. Qed.

Lemma wp_finally {A} d (m : M W A) Q st :
  wp m (fun o st' => wp d (fun _ st'' => Q o st'') st') st ->
  wp (finally d m) Q st.
Proof. unfold wp, finally. by destruct (m st). Qed.

Lemma wp_catch {A} (m : M W A) h Q st :
  wp m (fun o st' => match o with Done _ => Q o st' | Thrown => Q (Done h) st' end) st ->
  wp (catch_ m h) Q st.
Proof. unfold wp, catch_. by destruct (m st) as [[a|] st']. Qed.

(** A computation that reads the state first. *)
Lemma wp_read {A B} (f : St W -> B) (m : B -> M W A) Q st :
  wp (m (f st)) Q st -> wp (fun st => m (f st) st) Q st.
Proof. done. Qed.

Lemma wp_co_await {A} (m : M W A) Q st :
  (forall w, aborts net Suspend (world st) = Some w -> Q Thrown (record (Threw Suspend) w st)) ->
  (forall a w, perform net Suspend (world st) = (a, w) ->
     wp m Q (record (Called Suspend a) w st)) ->
  wp (co_await m) Q st.
Proof. intros Ht Hm. apply wp_bind, wp_await; auto. Qed.

End Monad.

Notation "'let*' x := m 'in' k" := (bind m (fun x => k))
  (at level 10, x pattern, m at level 100, k at level 200) : http_scope.
Notation "m ;;; k" := (bind m (fun _ => k))
  (at level 100, right associativity) : http_scope.

(** ** The Beast client *)

Section Beast.
Context {W : Type} (net : Net W).
(** The build option [HTTP_CLIENT_WITH_SSL]. *)
Context (with_ssl : bool).
Local Open Scope http_scope.

Abbreviation M := (M W).
Abbreviation call_ := (call_ net).
Abbreviation await := (await net).
Abbreviation co_await := (co_await net).

(** *** TcpConnection *)

Definition SocketConnected : M bool :=
  let* ec := call_ RemoteEndpoint in
  if bool_decide (is_Some ec) then ret false else
  let* ec := call_ Available in
  if bool_decide (is_Some ec) then ret false else
  let* nb := call_ NonBlocking in
  if nb : bool then
    let* ec := call_ ReceivePeek in
    ret match ec with None => true | Some c => bool_decide (c = would_block) end
  else ret true.

Definition SocketShutdown : M unit := let* _ := call_ Shutdown in ret tt.

Definition SocketClose : M unit := let* _ := call_ Close in ret tt.

(** On the socket of a connection that was moved from, [is_open()] is false. *)
Definition SocketFinish (moved_from : bool) : M unit :=
  let* open := (if moved_from then ret false else call_ IsOpen) in
  if negb open then ret tt else
  let* connected := SocketConnected in
  (if connected : bool then SocketShutdown else ret tt) ;;;
  SocketClose.

(** [~TcpConnection] of [tcpConnection]. *)
Definition TcpConnection_dtor : M unit := fun st => SocketFinish (moved st) st.

(** *** SslConnection *)

(** [~SslConnection] of a connection that was not moved from: a stream whose
    handshake is complete is moved into a detached coroutine. *)
Definition SslConnection_dtor : M unit :=
  let* complete := call_ InitFinished in
  if negb complete then SocketFinish false else spawn_detached.

(** The coroutine [StreamFinish]; an exception destroys its stream. *)
Definition StreamFinish : M unit :=
  on_throw (call_ SocketDestroy) (await SslShutdown) ;;;
  SocketFinish false.

(** *** The request *)

Definition UrlParse (url : string) : expected url_aggregator code :=
  match ada_parse net url with
  | None => Unexpected invalid_argument
  | Some u => Value u
  end.

(** The service passed to the resolver: the port, or the protocol without its
    colon, or the default. *)
Definition url_service (u : url_aggregator) : string :=
  if negb (String.eqb (get_port u) "") then get_port u
  else if negb (String.eqb (get_protocol u) "")
  then String.substring 0 (String.length (get_protocol u) - 1) (get_protocol u)
  else "80".

Definition DnsResolve (u : url_aggregator) : M (expected (list endpoint) code) :=
  await (Resolve (get_hostname u) (url_service u)).

(** The loop over the resolved endpoints; the result is the last error, or
    none after a success (or when there is no endpoint). *)
Fixpoint connect_loop (eps : list endpoint) (ec : option code) : M (option code) :=
  match eps with
  | [] => ret ec
  | e :: eps =>
      let* ec := await (Connect e) in
      match ec with
      | None => ret None
      | Some c => SocketClose ;;; connect_loop eps (Some c)
      end
  end.

(** An exception destroys the local socket. *)
Definition TcpConnect (eps : list endpoint) : M (expected unit code) :=
  let* _ := call_ SocketNew in
  let* ec := on_throw (call_ SocketDestroy) (connect_loop eps None) in
  match ec with
  | Some c => ret (Unexpected c)
  | None =>
      call_ SetNoDelay ;;;
      call_ SetNonBlocking ;;;
      ret (Value tt)
  end.

Definition quoted (s : string) : string := "'" +:+ s +:+ "'".

Definition MaxStackSize : nat := 64.

(** The connection made here is destroyed on every way out but the last, which
    moves it into the result. *)
Definition SslConnect (u : url_aggregator) : M (expected unit system_error) :=
  set_moved ;;;
  let* r := on_throw SslConnection_dtor (
    let* ok := call_ (SetHostName
      (CstrView.c_str 0 (CstrView.make MaxStackSize 0 (get_hostname u)))) in
    if negb ok then
      ret (Unexpected (SystemError protocol_error
        ("SNI setup failed " +:+ quoted (get_hostname u))))
    else
    let* ec := await Handshake in
    match ec with
    | Some c => ret (Unexpected (SystemError c
        ("TLS handshake failed " +:+ quoted (get_hostname u +:+ ":" +:+ get_port u))))
    | None => ret (Value tt)
    end) in
  match r with
  | Unexpected e => SslConnection_dtor ;;; ret (Unexpected e)
  | Value _ => ret (Value tt)
  end.

Definition make_request (u : url_aggregator) : request :=
  Request (get_pathname u) (get_hostname u) "Test/1.0".

Definition response_of (rd : read_result) : Response :=
  mkResponse (rd_status rd)
    (if negb (String.eqb (rd_body rd) "") then rd_body rd else rd_buffer rd).

Definition MakeHttpRequest (s : stream) (u : url_aggregator) : M Result :=
  let req := make_request u in
  let* ec := await (Write s req) in
  match ec with
  | Some c => ret (Unexpected (SystemError c
      ("Failed to send HTTP request: " +:+ quoted (get_hostname u) +:+ " GET " +:+ target req)))
  | None =>
      let* rd := await (Read s) in
      match rd_ec rd with
      | Some c => ret (Unexpected (SystemError c
          ("Failed to receive HTTP response: " +:+ pretty (rd_status rd) +:+
           " (" +:+ rd_reason rd +:+ ")")))
      | None => ret (Value (response_of rd))
      end
  end.

Definition TlsUrlProtocol : string := "https:".

Definition GetAsyncImpl (url : string) : M Result :=
  match UrlParse url with
  | Unexpected c => ret (Unexpected (SystemError c ("URL parse failed: " +:+ url)))
  | Value u =>
      let* dns := co_await (DnsResolve u) in
      match dns with
      | Unexpected c => ret (Unexpected (SystemError c
          ("DNS resolve failed: " +:+ quoted (get_hostname u))))
      | Value eps =>
          let* tcpSocket := co_await (TcpConnect eps) in
          match tcpSocket with
          | Unexpected c => ret (Unexpected (SystemError c
              ("TCP connect failed: " +:+ quoted (get_hostname u))))
          | Value _ =>
              finally TcpConnection_dtor (
                if String.eqb (get_protocol u) TlsUrlProtocol then
                  if with_ssl then
                    let* ssl := co_await (SslConnect u) in
                    match ssl with
                    | Unexpected e => ret (Unexpected e)
                    | Value _ => finally SslConnection_dtor (co_await (MakeHttpRequest Tls u))
                    end
                  else
                    ret (Unexpected (SystemError protocol_not_supported
                      "TLS requested but HTTP client is built without SSL support"))
                else co_await (MakeHttpRequest Plain u))
          end
      end
  end.

(** [BeastRequestContext::GetAsync]: the request runs in a coroutine of its
    own, whose exceptions become an error. *)
Definition context_GetAsync (url : string) : M Result :=
  catch_ (GetAsyncImpl url)
    (Unexpected (SystemError io_error "Unknown error in co_spawn")).

(** [BeastLiteClient::GetAsync]. *)
Definition GetAsync (url : string) : M Result := co_await (context_GetAsync url).

(** The executor runs the detached coroutines after the request. *)
Fixpoint run_detached (n : nat) : M unit :=
  match n with
  | O => ret tt
  | S n => catch_ StreamFinish tt ;;; run_detached n
  end.

Definition drain : M unit := fun st => run_detached (detached st) st.

Definition whole_request (url : string) : M Result := finally drain (GetAsync url).

End Beast.

(** ** The protocol *)

(** How far a request for one URL has come. *)
Inductive phase :=
| Idle
| Unresolved (c : code)                       (** the resolver failed *)
| Resolved (eps : list endpoint)              (** endpoints to try *)
| Refused (c : code) (eps : list endpoint)    (** the last try failed *)
| Connected
| Secure                                      (** TLS handshake done *)
| Sent (s : stream)
| Answered (rd : read_result)
| Failed (c : code)
| Aborted.                                    (** cancelled *)

(** A phase, and whether the connection is being taken down. *)
Definition monitor : Type := phase * bool.

Section Protocol.
Context (u : url_aggregator).

(** The stream a request for the URL belongs on. *)
Definition stream_for : stream :=
  if String.eqb (get_protocol u) TlsUrlProtocol then Tls else Plain.

(** The phase in which the request may be written. *)
Definition ready_phase : phase := match stream_for with Tls => Secure | Plain => Connected end.

Definition may_write (p : phase) (s : stream) (r : request) : bool :=
  bool_decide (s = stream_for) && bool_decide (r = make_request u) &&
  match p, s with Connected, Plain | Secure, Tls => true | _, _ => false end.

(** Steps on the socket that do not concern the protocol, and steps that take
    the connection down; after a failed attempt the socket is closed to be
    used again. *)
Definition teardown (m : monitor) : option monitor :=
  match m.1 with
  | Idle | Unresolved _ | Resolved _ => None
  | Refused _ _ => Some m
  | p => Some (p, true)
  end.

Definition fail_or (ec : option code) (p : phase) : option monitor :=
  Some (match ec with None => p | Some c => Failed c end, false).

Definition called_step (m : monitor) {A} (c : call A) : A -> option monitor :=
  match c in call A return A -> option monitor with
  | Resolve h s => fun r =>
      match m with
      | (Idle, false) =>
          if bool_decide (h = get_hostname u) && bool_decide (s = url_service u) then
            Some (match r with Value eps => Resolved eps | Unexpected c => Unresolved c end, false)
          else None
      | _ => None
      end
  | Connect e => fun ec =>
      match m with
      | (Resolved (e' :: eps), false) | (Refused _ (e' :: eps), false) =>
          if bool_decide (e = e') then
            Some (match ec with None => Connected | Some c => Refused c eps end, false)
          else None
      | _ => None
      end
  | SetHostName _ => fun ok =>
      match m with
      | (Connected, false) => Some (if ok : bool then Connected else Failed protocol_error, false)
      | _ => None
      end
  | Handshake => fun ec => match m with (Connected, false) => fail_or ec Secure | _ => None end
  | Write s r => fun ec =>
      match m with
      | (p, false) => if may_write p s r then fail_or ec (Sent s) else None
      | _ => None
      end
  | Read s => fun rd =>
      match m with
      | (Sent s', false) => if bool_decide (s = s') then fail_or (rd_ec rd) (Answered rd) else None
      | _ => None
      end
  | Shutdown | Close | SslShutdown => fun _ => teardown m
  | SocketDestroy => fun _ => teardown m
  | Suspend | SocketNew | SetNoDelay | SetNonBlocking | IsOpen | NonBlocking
  | RemoteEndpoint | Available | ReceivePeek | InitFinished => fun _ => Some m
  end.

(** An awaited step that throws ends the request; that of the detached
    shutdown does not touch it. *)
Definition threw_step (m : monitor) {A} (c : call A) : option monitor :=
  match c with
  | SslShutdown => Some (m.1, true)
  | _ => match m with (_, false) => Some (Aborted, false) | _ => None end
  end.

Definition mon_step (m : monitor) (e : event) : option monitor :=
  match e with Called c a => called_step m c a | Threw c => threw_step m c end.

(** The phase after a trace the protocol allows. *)
Fixpoint mon_run (m : monitor) (l : list event) : option monitor :=
  match l with
  | [] => Some m
  | e :: l => match mon_step m e with Some m' => mon_run m' l | None => None end
  end.

Lemma mon_run_snoc m l m' e :
  mon_run m l = Some m' -> mon_run m (l ++ [e]) = mon_step m' e.
Proof.
  revert m. induction l as [|e' l IH]; intros m; simpl.
  - intros [= ->]. by destruct (mon_step m' e).
  - destruct (mon_step m e'); [|done]. apply IH.
Qed.

(** The result the protocol run dictates: the code of the stage that failed, or
    the response that was read. *)
Definition dictated (p : phase) (r : Result) : Prop :=
  match p with
  | Answered rd => r = Value (response_of rd)
  | Unresolved c | Refused c [] | Failed c => exists w, r = Unexpected (SystemError c w)
  | Aborted => exists w, r = Unexpected (SystemError io_error w)
  | Connected => exists w, r = Unexpected (SystemError protocol_not_supported w)
  | _ => False
  end.

End Protocol.

(** ** What the code relies on *)

(** Documented by Asio: a successful resolution yields at least one endpoint. *)
Class ResolverLaws {W} (net : Net W) : Prop :=
  resolve_nonempty : forall h s w eps w',
    perform net (Resolve h s) w = (Value eps, w') -> eps <> [].

(** Documented by Asio: [is_open] tells whether the socket is open, a new
    socket is not, [close] and the destructor leave it closed even on error;
    resolving a name and awaiting a coroutine do not touch it. *)
Class SocketLaws {W} (net : Net W) := {
  is_open : W -> bool;
  is_open_answer : forall w, perform net IsOpen w = (is_open w, w);
  new_closed : forall w, is_open (perform net SocketNew w).2 = false;
  close_closed : forall w, is_open (perform net Close w).2 = false;
  destroy_closed : forall w, is_open (perform net SocketDestroy w).2 = false;
  suspend_keeps : forall w, is_open (perform net Suspend w).2 = is_open w;
  suspend_throw_keeps : forall w w', aborts net Suspend w = Some w' -> is_open w' = is_open w;
  resolve_keeps : forall h s w, is_open (perform net (Resolve h s) w).2 = is_open w;
  resolve_throw_keeps : forall h s w w',
    aborts net (Resolve h s) w = Some w' -> is_open w' = is_open w;
}.

(** ** The client follows the protocol *)

Section Refinement.
Context {W : Type} (net : Net W) (with_ssl : bool) (u : url_aggregator).

Definition at_ (m : monitor) (st : St W) : Prop := mon_run u (Idle, false) (trace st) = Some m.

(** Phases in which there is a connection to take down. *)
Definition torn (p : phase) : Prop :=
  match p with Idle | Unresolved _ | Resolved _ | Refused _ _ => False | _ => True end.

Lemma at_record m m' e w st :
  at_ m st -> mon_step u m e = Some m' -> at_ m' (record e w st).
Proof. unfold at_, record. simpl. intros H <-. by apply mon_run_snoc. Qed.

Lemma teardown_torn p d : torn p -> teardown (p, d) = Some (p, true).
Proof. by destruct p. Qed.

(** The phase after the recorded call. *)
Ltac at_next := eapply at_record; [eassumption|]; first [done|by apply teardown_torn].

(** One step of a proof about the effect monad. *)
Ltac wp_step :=
  match goal with
  | |- wp (ret _) _ _ => apply wp_ret
  | |- wp (bind _ _) _ _ => apply wp_bind
  | |- wp (call_ _ _) _ _ => apply wp_call; intros
  | |- wp (await _ _) _ _ => apply wp_await; intros
  | |- wp (co_await _ _) _ _ => apply wp_co_await; intros
  | |- wp (on_throw _ _) _ _ => apply wp_on_throw
  | |- wp (finally _ _) _ _ => apply wp_finally
  | |- wp (if ?b then _ else _) _ _ => destruct b eqn:?
  end; cbv beta iota; simpl negb; cbv iota.

Lemma SocketConnected_spec m st Q :
  at_ m st ->
  (forall b st', at_ m st' -> detached st' = detached st -> Q (Done b) st') ->
  wp (SocketConnected net) Q st.
Proof.
  intros Hm HQ. unfold SocketConnected.
  repeat wp_step; (apply HQ; [|done]); repeat (eapply at_record; [|done]); done.
Qed.

Lemma SocketFinish_spec b p d st Q :
  at_ (p, d) st -> torn p ->
  (forall d' st', at_ (p, d') st' -> detached st' = detached st -> Q (Done tt) st') ->
  wp (SocketFinish net b) Q st.
Proof.
  intros Hm Hp HQ. unfold SocketFinish. wp_step.
  destruct b; wp_step; [wp_step; by apply (HQ d)|].
  wp_step; [wp_step; apply (HQ d); [at_next|done]|].
  wp_step. eapply SocketConnected_spec; [at_next|]. intros b st' Hm' Hd.
  assert (forall st'', at_ (p, d) st'' \/ at_ (p, true) st'' -> detached st'' = detached st ->
    wp (SocketClose net) Q st'') as Hclose.
  { intros st'' Ha Hd'. unfold SocketClose. repeat wp_step. apply (HQ true); [|done].
    destruct Ha; at_next. }
  wp_step. destruct b; [unfold SocketShutdown|]; repeat wp_step; apply Hclose; auto.
  right. at_next.
Qed.

Lemma SslConnection_dtor_spec p d st Q :
  at_ (p, d) st -> torn p ->
  (forall d' st', at_ (p, d') st' -> Q (Done tt) st') ->
  wp (SslConnection_dtor net) Q st.
Proof.
  intros Hm Hp HQ. unfold SslConnection_dtor. wp_step. wp_step. wp_step.
  - eapply SocketFinish_spec; [at_next|done|]. eauto.
  - unfold wp, spawn_detached. simpl. apply (HQ d). unfold at_. simpl.
    erewrite mon_run_snoc by exact Hm. done.
Qed.

Lemma StreamFinish_spec p d st Q :
  at_ (p, d) st -> torn p ->
  (forall o d' st', at_ (p, d') st' -> Q o st') ->
  wp (StreamFinish net) Q st.
Proof.
  intros Hm Hp HQ. unfold StreamFinish. repeat wp_step.
  - apply (HQ _ true). eapply at_record; [at_next|]. by apply teardown_torn.
  - eapply SocketFinish_spec; [at_next|done|]. eauto.
Qed.

Lemma run_detached_spec n p d st Q :
  at_ (p, d) st -> torn p \/ n = 0 ->
  (forall o d' st', at_ (p, d') st' -> Q o st') ->
  wp (run_detached net n) Q st.
Proof.
  revert d st. induction n as [|n IH]; intros d st Hm Hp HQ; simpl; [wp_step; by apply (HQ _ d)|].
  destruct Hp as [Hp|]; [|done].
  wp_step. apply wp_catch. eapply StreamFinish_spec; [done|done|].
  intros [[]|] d' st' Hm'; eapply IH; eauto.
Qed.

Lemma connect_loop_spec eps ec st Q :
  at_ (match ec with None => Resolved eps | Some c => Refused c eps end, false) st ->
  (ec = None -> eps <> []) ->
  (forall o p st', at_ (p, false) st' -> detached st' = detached st ->
    match o with
    | Done None => p = Connected
    | Done (Some c) => p = Refused c []
    | Thrown => p = Aborted
    end -> Q o st') ->
  wp (connect_loop net eps ec) Q st.
Proof.
  revert ec st. induction eps as [|e eps IH]; intros ec st Hm Hne HQ; simpl.
  { wp_step. destruct ec; [by eapply HQ|]. by destruct Hne. }
  assert (forall ec', called_step u (match ec with None => Resolved (e :: eps) | Some c => Refused c (e :: eps) end, false) (Connect e) ec'
    = Some (match ec' with None => Connected | Some c => Refused c eps end, false)) as Hs.
  { intros. destruct ec; simpl; by rewrite bool_decide_true. }
  wp_step. wp_step.
  - eapply HQ; [eapply at_record; [done|]|done|done]. by destruct ec.
  - destruct a as [c|].
    + unfold SocketClose. repeat wp_step. apply IH; [|done|].
      * eapply at_record; [eapply at_record; [done|apply Hs]|done].
      * intros o p st' H1 H2. by apply HQ.
    + wp_step. eapply HQ; [eapply at_record; [done|apply Hs]|done|done].
Qed.

Lemma TcpConnect_spec eps st Q :
  at_ (Resolved eps, false) st -> eps <> [] ->
  (forall o p d st', at_ (p, d) st' -> detached st' = detached st ->
    match o with
    | Done (Value _) => p = Connected /\ d = false
    | Done (Unexpected c) => p = Refused c []
    | Thrown => p = Aborted
    end -> Q o st') ->
  wp (TcpConnect net eps) Q st.
Proof.
  intros Hm He HQ. unfold TcpConnect. wp_step. wp_step. wp_step. wp_step.
  eapply (connect_loop_spec _ None); [at_next|done|].
  intros [[c|]|] p st' Hm' Hd ->.
  - wp_step. by eapply HQ.
  - repeat wp_step. eapply HQ; [eapply at_record; [at_next|done]|done|done].
  - wp_step. eapply (HQ _ _ true); [at_next|done|done].
Qed.

Lemma SslConnect_spec st Q :
  at_ (Connected, false) st ->
  (forall o p d st', at_ (p, d) st' ->
    match o with
    | Done (Value _) => p = Secure /\ d = false
    | Done (Unexpected e) => p = Failed (error_code e)
    | Thrown => p = Aborted
    end -> Q o st') ->
  wp (SslConnect net u) Q st.
Proof.
  intros Hm HQ. unfold SslConnect. wp_step.
  assert (at_ (Connected, false) (set_moved st).2) as Hm' by exact Hm.
  unfold wp at 1. simpl fst. cbv iota.
  wp_step. wp_step. wp_step. wp_step. wp_step; [|wp_step; wp_step].
  - repeat wp_step. eapply (SslConnection_dtor_spec (Failed protocol_error) false); [|done|].
    + eapply at_record; [done|]. simpl. by destruct a.
    + intros d' st' H'. wp_step. by eapply HQ.
  - eapply (SslConnection_dtor_spec Aborted false); [|done|].
    + eapply at_record; [eapply at_record; [done|]|].
      * simpl. by destruct a.
      * done.
    + intros d' st' H'. by eapply HQ.
  - assert (at_ (Connected, false) (record (Called (SetHostName
      (CstrView.c_str 0 (CstrView.make MaxStackSize 0 (get_hostname u)))) a) w (set_moved st).2))
      as Hc by (eapply at_record; [done|]; simpl; by destruct a).
    destruct a0 as [c|]; repeat wp_step.
    + eapply SslConnection_dtor_spec; [at_next|done|].
      intros d' st' H'. wp_step. by eapply HQ.
    + eapply HQ; [at_next|done].
Qed.

Lemma MakeHttpRequest_spec s st Q :
  at_ (ready_phase u, false) st -> s = stream_for u ->
  (forall o p st', at_ (p, false) st' -> torn p ->
    match o with Done r => dictated p r /\ p <> Connected | Thrown => p = Aborted end -> Q o st') ->
  wp (MakeHttpRequest net s u) Q st.
Proof.
  intros Hm -> HQ. unfold MakeHttpRequest. cbv zeta. wp_step. wp_step.
  { eapply HQ; [at_next|done|done]. }
  assert (forall ec, called_step u (ready_phase u, false) (Write (stream_for u) (make_request u)) ec
    = fail_or ec (Sent (stream_for u))) as Hw.
  { intros. simpl. unfold may_write. rewrite !bool_decide_true by done.
    unfold ready_phase. by destruct (stream_for u). }
  destruct a as [c|]; [wp_step; eapply HQ; [eapply at_record; [done|apply Hw]|done|eauto]|].
  { split; [by eexists|done]. }
  assert (at_ (Sent (stream_for u), false) (record (Called (Write (stream_for u) (make_request u)) None) w st))
    as Hs by (eapply at_record; [done|apply Hw]).
  wp_step. wp_step; [eapply HQ; [at_next|done|done]|].
  assert (forall rd, called_step u (Sent (stream_for u), false) (Read (stream_for u)) rd
    = fail_or (rd_ec rd) (Answered rd)) as Hr by (intros; simpl; by rewrite bool_decide_true).
  destruct (rd_ec a) as [c|] eqn:Ea; wp_step; (eapply HQ; [eapply at_record; [done|etrans; [apply Hr|]; by rewrite Ea]|done|]).
  - split; [by eexists|done].
  - by split.
Qed.

(** The state of a request that ends: the protocol was followed and the result
    is the one it dictates. *)
Definition ended (o : ending Result) (st : St W) : Prop :=
  exists p d, at_ (p, d) st /\ (torn p \/ detached st = 0) /\
    match o with
    | Done r => dictated p r /\ (with_ssl = true -> p <> Connected)
    | Thrown => p = Aborted
    end.

Lemma TcpConnection_dtor_ended o p d st :
  at_ (p, d) st -> torn p ->
  match o with
  | Done r => dictated p r /\ (with_ssl = true -> p <> Connected)
  | Thrown => p = Aborted
  end ->
  wp (TcpConnection_dtor net) (fun _ => ended o) st.
Proof.
  intros Hm Hp Ho. apply (wp_read moved (SocketFinish net)).
  eapply (SocketFinish_spec _ p d); [done|done|].
  intros d' st' Hm' _. exists p, d'. auto.
Qed.

(** The part of the request over an established connection. *)
Lemma connected_part_spec st :
  at_ (Connected, false) st ->
  wp (if String.eqb (get_protocol u) TlsUrlProtocol then
        if with_ssl then
          bind (co_await net (SslConnect net u)) (fun ssl =>
            match ssl with
            | Unexpected e => ret (Unexpected e)
            | Value _ => finally (SslConnection_dtor net) (co_await net (MakeHttpRequest net Tls u))
            end)
        else ret (Unexpected (SystemError protocol_not_supported
               "TLS requested but HTTP client is built without SSL support"))
      else co_await net (MakeHttpRequest net Plain u))
     (fun o st' => exists p d, at_ (p, d) st' /\ torn p /\
        match o with
        | Done r => dictated p r /\ (with_ssl = true -> p <> Connected)
        | Thrown => p = Aborted
        end) st.
Proof.
  intros Hm. destruct (String.eqb _ _) eqn:Es; [destruct with_ssl|].
  - assert (stream_for u = Tls) as Ht by (unfold stream_for; by rewrite Es).
    wp_step. wp_step; [exists Aborted, false; split_and!; [at_next|done|done]|].
    eapply SslConnect_spec; [at_next|]. intros [[[]|e]|] p d st' Hm' Hp.
    + destruct Hp as [-> ->]. wp_step. wp_step.
      { eapply (SslConnection_dtor_spec Aborted false); [at_next|done|].
        intros d' st'' H'. by exists Aborted, d'. }
      eapply MakeHttpRequest_spec; [unfold ready_phase; rewrite Ht; at_next|done|].
      intros o p st'' H'' Hp Ho. eapply SslConnection_dtor_spec; [done|done|].
      intros d' st3 H3. exists p, d'. split_and!; [done|done|]. destruct o; naive_solver.
    + wp_step. exists p, d. subst p. split_and!; [done|done|by destruct e; eexists|done].
    + subst p. by exists Aborted, d.
  - wp_step. exists Connected, false. split_and!; [done|done|by eexists|done].
  - assert (stream_for u = Plain) as Ht by (unfold stream_for; by rewrite Es).
    wp_step; [exists Aborted, false; split_and!; [at_next|done|done]|].
    eapply MakeHttpRequest_spec; [unfold ready_phase; rewrite Ht; at_next|done|].
    intros o p st'' H'' Hp Ho. exists p, false. split_and!; [done|done|]. destruct o; naive_solver.
Qed.

Lemma GetAsyncImpl_spec `{!ResolverLaws net} url st :
  ada_parse net url = Some u -> at_ (Idle, false) st -> detached st = 0 ->
  wp (GetAsyncImpl net with_ssl url) ended st.
Proof.
  intros Hu Hm Hd. unfold GetAsyncImpl, UrlParse. rewrite Hu. wp_step.
  assert (forall r, called_step u (Idle, false) (Resolve (get_hostname u) (url_service u)) r =
    Some (match r with Value eps => Resolved eps | Unexpected c => Unresolved c end, false)) as Hr.
  { intros. simpl. by rewrite !bool_decide_true. }
  wp_step; [exists Aborted, false; split_and!; [at_next|by left|done]|].
  unfold DnsResolve. wp_step.
  { exists Aborted, false. split_and!; [eapply at_record; [at_next|done]|by left|done]. }
  match goal with |- context [record ?e ?w ?s] =>
    match e with Called (Resolve _ _) ?r =>
      assert (at_ (match r with Value eps => Resolved eps | Unexpected c => Unresolved c end, false)
        (record e w s)) as Hres by (eapply at_record; [at_next|apply Hr]) end end.
  destruct a0 as [eps|c].
  2: { wp_step. eexists _, _. split_and!; [done|by right|by eexists|done]. }
  wp_step. wp_step; [exists Aborted, false; split_and!; [at_next|by left|done]|].
  eapply TcpConnect_spec; [at_next|by eapply resolve_nonempty|].
  intros [[[]|c]|] p d st' Hm' Hd' Hp.
  - destruct Hp as [-> ->]. wp_step. eapply wp_mono; [|by apply connected_part_spec].
    intros o st'' (p & d & Ha & Hb & Hc). by eapply TcpConnection_dtor_ended.
  - subst p. wp_step. exists (Refused c []), d. split_and!; [done|right; by rewrite Hd'|by eexists|done].
  - subst p. exists Aborted, d. split_and!; [done|by left|done].
Qed.
End Refinement.

Definition start {W} (w : W) : St W := mkSt w [] false 0.

(** The trace [tr] of a request for [u] is one the protocol allows, and [o] is
    the result its final phase dictates. An exception reaches the caller only if
    the request was cancelled before it began. *)
Definition follows_protocol (with_ssl : bool) (u : url_aggregator)
    (o : ending Result) (tr : list event) : Prop :=
  exists p d, mon_run u (Idle, false) tr = Some (p, d) /\
    match o with
    | Done r => dictated p r /\ (with_ssl = true -> p <> Connected)
    | Thrown => tr = [Threw Suspend]
    end.

Lemma whole_request_spec {W} (net : Net W) with_ssl `{!ResolverLaws net} url u w :
  ada_parse net url = Some u ->
  wp (whole_request net with_ssl url) (fun o st => follows_protocol with_ssl u o (trace st)) (start w).
Proof.
  intros Hu. apply wp_finally, wp_co_await; intros.
  { by exists Aborted, false. }
  apply wp_catch. eapply wp_mono; [|by apply (GetAsyncImpl_spec net with_ssl u)].
  intros o st (p & d & Hm & Hp & Ho).
  assert (forall r, dictated p r /\ (with_ssl = true -> p <> Connected) ->
    wp (drain net) (fun _ st' => follows_protocol with_ssl u (Done r) (trace st')) st) as Hdrain.
  { intros r Hr. apply (wp_read detached (run_detached net)).
    apply (run_detached_spec net u _ p d); [done|done|].
    intros _ d' st' H'. by exists p, d'. }
  destruct o as [r|]; apply Hdrain; [done|]. subst p. split; [by eexists|done].
Qed.

(** C13: whatever the network, the TLS library and a cancellation do, a request
    follows the protocol of its URL: the host is resolved for the right
    service, the endpoints are tried in order until one connects, a request is
    written at most once, it is the GET for the URL, and it goes in clear only
    if the URL is not https, otherwise only after a handshake; a response is
    read only after the request; nothing is sent while the connection is taken
    down. The result is what the run dictates: the response that was read, or
    the error code of the stage that failed; an exception reaches the caller
    only if the request was cancelled before it began. *)
Theorem request_follows_protocol {W} (net : Net W) (with_ssl : bool) `{!ResolverLaws net} url u w :
  ada_parse net url = Some u ->
  let '(o, st) := whole_request net with_ssl url (start w) in
  follows_protocol with_ssl u o (trace st).
Proof.
  intros Hu. pose proof (whole_request_spec net with_ssl url u w Hu) as H.
  unfold wp in H. by destruct (whole_request _ _ _ _).
Qed.

(** A URL that does not parse is reported without any call on the network. *)
Theorem bad_url_makes_no_call {W} (net : Net W) with_ssl url w :
  ada_parse net url = None -> aborts net Suspend w = None ->
  let '(o, st) := whole_request net with_ssl url (start w) in
  o = Done (Unexpected (SystemError invalid_argument ("URL parse failed: " +:+ url))) /\
  trace st = [Called Suspend tt].
Proof.
  intros Hu Ha. unfold whole_request, finally, GetAsync, co_await, bind, await, start. simpl.
  rewrite Ha. unfold call_. simpl. destruct (perform net Suspend w) as [[] w'].
  unfold context_GetAsync, catch_, GetAsyncImpl, UrlParse. by rewrite Hu.
Qed.

(** ** Sockets do not leak *)

Section Sockets.
Context {W : Type} (net : Net W) `{!SocketLaws net} (with_ssl : bool) (u : url_aggregator).

Definition closed (st : St W) : Prop := is_open (world st) = false.

(** Nothing is left open but what a detached coroutine will close. *)
Definition released (st : St W) : Prop := closed st \/ 0 < detached st.

Lemma SocketClose_closes st Q :
  (forall o st', closed st' -> detached st' = detached st -> moved st' = moved st -> Q o st') ->
  wp (SocketClose net) Q st.
Proof.
  intros HQ. unfold SocketClose. apply wp_bind, wp_call. intros c w Hc. apply wp_ret, HQ; [|done..].
  unfold closed. simpl. change w with (c, w).2. rewrite <- Hc. apply close_closed.
Qed.

Lemma SocketFinish_closes st Q :
  (forall o st', closed st' -> detached st' = detached st -> moved st' = moved st -> Q o st') ->
  wp (SocketFinish net false) Q st.
Proof.
  intros HQ. unfold SocketFinish. apply wp_bind, wp_call. intros open w Hopen.
  rewrite is_open_answer in Hopen. injection Hopen as <- <-. simpl.
  destruct (is_open (world st)) eqn:E; simpl; [|by apply wp_ret, HQ].
  assert (forall st', detached st' = detached st -> moved st' = moved st ->
    wp (SocketClose net) Q st') as Hclose.
  { intros st' H1 H2. apply SocketClose_closes. intros. apply HQ; congruence. }
  apply wp_bind.
  eapply (wp_mono _ (fun o st' => exists b, o = Done b /\ detached st' = detached st /\ moved st' = moved st)).
  - intros o st' (b & -> & H1 & H2). apply wp_bind.
    destruct b; [apply wp_bind, wp_call; intros; apply wp_ret|apply wp_ret]; by apply Hclose.
  - unfold SocketConnected.
    repeat first [apply wp_bind|apply wp_call; intros|apply wp_ret; by eexists|
                  match goal with |- wp (if ?b then _ else _) _ _ => destruct b end].
Qed.

Lemma SslConnection_dtor_releases st Q :
  (forall o st', released st' -> moved st' = moved st -> Q o st') ->
  wp (SslConnection_dtor net) Q st.
Proof.
  intros HQ. unfold SslConnection_dtor. apply wp_bind, wp_call. intros a w _. destruct a; simpl.
  - apply HQ; [right; simpl; lia|done].
  - apply SocketFinish_closes. intros o st' Hc _ Hm. apply HQ; [by left|done].
Qed.

Lemma SocketDestroy_closes st Q :
  (forall o st', closed st' -> moved st' = moved st -> Q o st') ->
  wp (call_ net SocketDestroy) Q st.
Proof.
  intros HQ. apply wp_call. intros c w Hc. apply HQ; [|done].
  unfold closed. simpl. change w with (c, w).2. rewrite <- Hc. apply destroy_closed.
Qed.

Lemma TcpConnection_dtor_releases st Q :
  (moved st = true -> released st) ->
  (forall o st', released st' -> Q o st') ->
  wp (TcpConnection_dtor net) Q st.
Proof.
  intros Hr HQ. apply (wp_read moved (SocketFinish net)). destruct (moved st).
  - apply wp_bind, wp_ret, wp_ret. auto.
  - apply SocketFinish_closes. intros o st' Hc _ _. apply HQ. by left.
Qed.

Lemma connect_loop_closes eps ec st Q :
  (ec <> None -> closed st) ->
  (forall o st', match o with Done (Some _) => closed st' | _ => True end ->
     moved st' = moved st -> Q o st') ->
  wp (connect_loop net eps ec) Q st.
Proof.
  revert ec st. induction eps as [|e eps IH]; intros ec st Hc HQ; simpl.
  - apply wp_ret, HQ; [|done]. destruct ec; [|done]. by apply Hc.
  - apply wp_bind, wp_await; intros; [by apply HQ|].
    destruct a as [c|]; [|by apply wp_ret, HQ].
    apply wp_bind, SocketClose_closes. intros o st' Hc' _ Hm.
    assert (wp (connect_loop net eps (Some c)) Q st') as Hl
      by (apply IH; [done|]; intros; apply HQ; [done|]; simpl in *; congruence).
    destruct o; [done|]. apply HQ; [done|]. simpl in *. congruence.
Qed.

Lemma TcpConnect_closes eps st Q :
  (forall o st', match o with Done (Value _) => moved st' = moved st | _ => closed st' end ->
     Q o st') ->
  wp (TcpConnect net eps) Q st.
Proof.
  intros HQ. unfold TcpConnect. apply wp_bind, wp_call. intros [] w _.
  apply wp_bind, wp_on_throw, connect_loop_closes; [done|].
  intros [[c|]|] st' Hc Hm.
  - by apply wp_ret, HQ.
  - apply wp_bind, wp_call. intros. apply wp_bind, wp_call. intros. by apply wp_ret, HQ.
  - apply SocketDestroy_closes. intros. by apply HQ.
Qed.

Lemma SslConnect_releases st Q :
  (forall o st', match o with Done (Value _) => True | _ => released st' end -> Q o st') ->
  wp (SslConnect net u) Q st.
Proof.
  intros HQ. unfold SslConnect. apply wp_bind. unfold wp at 1. simpl.
  apply wp_bind, wp_on_throw, wp_bind, wp_call. intros ok w _.
  assert (forall (e : system_error) st', wp (bind (SslConnection_dtor net)
    (fun _ => ret (Unexpected e : expected unit system_error))) Q st') as Herr.
  { intros e st'. apply wp_bind, SslConnection_dtor_releases. intros [[]|] st'' Hr _.
    - by apply wp_ret, HQ.
    - by apply HQ. }
  destruct ok; simpl; [|by apply wp_ret].
  apply wp_bind, wp_await; intros.
  - apply SslConnection_dtor_releases. intros. by apply HQ.
  - destruct a; apply wp_ret; [done|]. by apply wp_ret, HQ.
Qed.

Lemma MakeHttpRequest_keeps s st Q :
  (forall o st', moved st' = moved st -> Q o st') -> wp (MakeHttpRequest net s u) Q st.
Proof.
  intros HQ. unfold MakeHttpRequest. cbv zeta. apply wp_bind, wp_await; intros; [by apply HQ|].
  destruct a; [by apply wp_ret, HQ|]. apply wp_bind, wp_await; intros; [by apply HQ|].
  destruct (rd_ec a); by apply wp_ret, HQ.
Qed.

(** Over an established connection: what is moved out of [tcpConnection] is
    released. *)
Lemma connected_part_releases st :
  moved st = false ->
  wp (if String.eqb (get_protocol u) TlsUrlProtocol then
        if with_ssl then
          bind (co_await net (SslConnect net u)) (fun ssl =>
            match ssl with
            | Unexpected e => ret (Unexpected e)
            | Value _ => finally (SslConnection_dtor net) (co_await net (MakeHttpRequest net Tls u))
            end)
        else ret (Unexpected (SystemError protocol_not_supported
               "TLS requested but HTTP client is built without SSL support"))
      else co_await net (MakeHttpRequest net Plain u))
     (fun _ st' => moved st' = true -> released st') st.
Proof.
  intros Hm. destruct (String.eqb _ _); [destruct with_ssl|].
  - apply wp_bind, wp_co_await; [intros; simpl in *; congruence|]. intros [] w _.
    apply SslConnect_releases. intros [[[]|e]|] st' Hr; [|by apply wp_ret|done].
    apply wp_finally. unfold wp at 1. apply SslConnection_dtor_releases. done.
  - apply wp_ret. congruence.
  - apply wp_co_await; [intros; simpl in *; congruence|]. intros [] w _.
    apply MakeHttpRequest_keeps. intros o st' Hm'. simpl in *. congruence.
Qed.

Lemma suspend_closed {A} (m : M W A) Q st :
  closed st ->
  (forall st', closed st' -> Q Thrown st') ->
  (forall st', closed st' -> moved st' = moved st -> wp m Q st') ->
  wp (co_await net m) Q st.
Proof.
  intros Hc Ht Hm. apply wp_co_await.
  - intros w Hw. apply Ht. unfold closed. simpl. by rewrite (suspend_throw_keeps _ _ Hw).
  - intros [] w Hw. apply Hm; [|done]. unfold closed. simpl.
    change w with (tt, w).2. rewrite <- Hw. by rewrite suspend_keeps.
Qed.

Lemma DnsResolve_closed st Q :
  closed st ->
  (forall o st', closed st' -> moved st' = moved st -> Q o st') ->
  wp (DnsResolve net u) Q st.
Proof.
  intros Hc HQ. apply wp_await.
  - intros w Hw. apply HQ; [|done]. unfold closed. simpl. by rewrite (resolve_throw_keeps _ _ _ _ Hw).
  - intros r w Hw. apply HQ; [|done]. unfold closed. simpl.
    change w with (r, w).2. rewrite <- Hw. by rewrite resolve_keeps.
Qed.

Lemma StreamFinish_closes st :
  wp (StreamFinish net) (fun _ st' => closed st') st.
Proof.
  apply wp_bind, wp_on_throw, wp_await; intros.
  - by apply SocketDestroy_closes.
  - by apply SocketFinish_closes.
Qed.

Lemma run_detached_closes n st :
  closed st \/ 0 < n -> wp (run_detached net n) (fun _ st' => closed st') st.
Proof.
  revert st. induction n as [|n IH]; intros st H; simpl; [apply wp_ret; destruct H; [done|lia]|].
  apply wp_bind, wp_catch. eapply wp_mono; [|apply StreamFinish_closes].
  intros [[]|] st' Hc; apply IH; by left.
Qed.

End Sockets.

Lemma GetAsyncImpl_releases {W} (net : Net W) `{!SocketLaws net} with_ssl url st :
  closed net st -> moved st = false ->
  wp (GetAsyncImpl net with_ssl url) (fun _ st' => released net st') st.
Proof.
  intros Hc Hm. unfold GetAsyncImpl. destruct (UrlParse net url) as [u|c]; [|by apply wp_ret; left].
  apply wp_bind, (suspend_closed net); [done|by left|]. intros st1 H1 M1.
  apply (DnsResolve_closed net); [done|]. intros [[eps|c]|] st2 H2 M2; [|by apply wp_ret; left|by left].
  apply wp_bind, (suspend_closed net); [done|by left|]. intros st3 H3 M3.
  apply (TcpConnect_closes net). intros [[[]|c]|] st4 H4; [|by apply wp_ret; left|by left].
  apply wp_finally. eapply wp_mono; [|apply (connected_part_releases net); congruence].
  intros o st5 H5. by apply (TcpConnection_dtor_releases net).
Qed.

(** C14: a request leaves no socket open, however it ends: URL, name, connection,
    handshake, sending or receiving may fail, and any wait may be cancelled. A
    TLS connection is closed by the coroutine its destructor spawns. *)
Theorem no_socket_leaks {W} (net : Net W) `{!SocketLaws net} with_ssl url w :
  is_open w = false ->
  let '(_, st) := whole_request net with_ssl url (start w) in is_open (world st) = false.
Proof.
  intros Hw. enough (wp (whole_request net with_ssl url) (fun _ st => closed net st) (start w)) as H.
  { unfold wp in H. by destruct (whole_request _ _ _ _). }
  assert (forall st, released net st -> wp (drain net) (fun _ st' => closed net st') st) as Hdrain.
  { intros st Hr. apply (wp_read detached (run_detached net)). by apply (run_detached_closes net). }
  apply wp_finally, (suspend_closed net); [done|intros; apply Hdrain; by left|]. intros st Hc Hm.
  apply wp_catch. eapply wp_mono; [|by apply GetAsyncImpl_releases].
  intros [r|] st' Hr; by apply Hdrain.
Qed.

(** The search part of a URL is not sent: requests for two URLs that differ in
    it only are the same calls with the same result. *)
Theorem search_part_not_sent {W} (net : Net W) with_ssl url url' pr h po pa s s' st :
  ada_parse net url = Some (Url pr h po pa s) ->
  ada_parse net url' = Some (Url pr h po pa s') ->
  whole_request net with_ssl url st = whole_request net with_ssl url' st.
Proof.
  intros H H'. unfold whole_request, finally, GetAsync, context_GetAsync, GetAsyncImpl, UrlParse.
  by rewrite H, H'.
Qed.

(** ** A network to try it on *)

Module Demo.

(** A socket that is open or not, a resolver with two endpoints the first of
    which refuses, and a server that answers with the target. *)
Record net_state := NetState { sock : bool; asked : string }.

Definition demo_perform (A : Type) (c : call A) (w : net_state) : A * net_state :=
  match c in call A return A * net_state with
  | Suspend => (tt, w)
  | Resolve h s => (Value [1; 2], w)
  | SocketNew => (tt, NetState false (asked w))
  | Connect e => (if (e =? 1)%nat then Some (library_error 111) else None, NetState true (asked w))
  | SetNoDelay | SetNonBlocking => (None, w)
  | IsOpen => (sock w, w)
  | NonBlocking => (true, w)
  | RemoteEndpoint | Available => (None, w)
  | ReceivePeek => (Some would_block, w)
  | Shutdown => (None, w)
  | Close => (None, NetState false (asked w))
  | SocketDestroy => (tt, NetState false (asked w))
  | SetHostName _ => (true, w)
  | Handshake => (None, w)
  | InitFinished => (true, w)
  | SslShutdown => (Some (library_error 1), w)
  | Write s r => (None, NetState (sock w) (target r))
  | Read s => (ReadResult None 200 "OK" (asked w) "", w)
  end.

Definition demo_parse (url : string) : option url_aggregator :=
  if String.eqb url "http://host/a" then Some (Url "http:" "host" "8080" "/a" "")
  else if String.eqb url "http://host/a?x" then Some (Url "http:" "host" "8080" "/a" "?x")
  else if String.eqb url "https://host/b" then Some (Url "https:" "host" "" "/b" "")
  else None.

Definition net : Net net_state := mkNet _ demo_parse demo_perform (fun _ _ _ => None).

(** The same network, on which waiting for the peer is cancelled. *)
Definition cancelled_net : Net net_state := mkNet _ demo_parse demo_perform
  (fun A c w => match c with Read _ => Some w | _ => None end).

#[export] Instance demo_resolver : ResolverLaws net.
Proof. intros h s w eps w'. simpl. by intros [= <- <-]. Qed.

#[export] Instance demo_resolver_cancelled : ResolverLaws cancelled_net.
Proof. intros h s w eps w'. simpl. by intros [= <- <-]. Qed.

#[export, refine] Instance demo_sockets : SocketLaws cancelled_net := {| is_open := sock |}.
Proof. all: done. Defined.

Definition w0 : net_state := NetState false "".

(** A request in clear, over the second endpoint. *)
Example clear_request :
  (whole_request net true "http://host/a" (start w0)).1 = Done (Value (mkResponse 200 "/a")).
Proof. vm_compute. reflexivity. Qed.

(** The same over TLS, and without TLS support. *)
Example tls_request :
  (whole_request net true "https://host/b" (start w0)).1 = Done (Value (mkResponse 200 "/b")) /\
  (whole_request net false "https://host/b" (start w0)).1 =
    Done (Unexpected (SystemError protocol_not_supported
      "TLS requested but HTTP client is built without SSL support")).
Proof. vm_compute. split; reflexivity. Qed.

Lemma request_follows_protocol_witness :
  let '(o, st) := whole_request net true "https://host/b" (start w0) in
  follows_protocol true (Url "https:" "host" "" "/b" "") o (trace st).
Proof. apply (request_follows_protocol net true "https://host/b" _ w0). reflexivity. Defined.

Lemma no_socket_leaks_witness :
  let '(_, st) := whole_request cancelled_net true "https://host/b" (start w0) in
  is_open (world st) = false.
Proof. apply (no_socket_leaks cancelled_net true "https://host/b" w0). reflexivity. Defined.

Lemma search_part_not_sent_witness :
  whole_request net true "http://host/a" (start w0) = whole_request net true "http://host/a?x" (start w0).
Proof. by apply (search_part_not_sent net true _ _ "http:" "host" "8080" "/a" "" "?x"). Defined.

Lemma bad_url_makes_no_call_witness :
  let '(o, st) := whole_request net true "nonsense" (start w0) in
  o = Done (Unexpected (SystemError invalid_argument ("URL parse failed: " +:+ "nonsense"))) /\
  trace st = [Called Suspend tt].
Proof. apply (bad_url_makes_no_call net true "nonsense" w0); reflexivity. Defined.

Lemma moved_view_dangles_witness :
  CstrView.c_str 8 (CstrView.move (CstrView.make 64 7 "host")) = None.
Proof. apply CstrView.moved_view_dangles; [reflexivity|simpl; lia|lia]. Defined.

End Demo.
