(* ===== verification/HttpLite.v ===== *)
(** * HTTP lite clients: the callback interface

    [ILiteClient::Get] promises one call of its handler. Modelled here are its
    three implementations: [AsioLiteClient] (with the bridge from the stop token
    to the cancellation of the request coroutine of [Http]), and the browser's
    [JsFetchLiteClient] and [EmFetchLiteClient], with the heap of their request
    contexts. [LiteClient::MakeDefault] chooses one of them. *)

From S2P Require Import Prelude Http.
Local Open Scope string_scope.

Definition stopped_before : Result :=
  Unexpected (SystemError operation_canceled "stop requested before request").

Definition error_of (r : Result) : option code :=
  match r with Value _ => None | Unexpected e => Some (error_code e) end.

(** ** AsioLiteClient *)

Module AsioLite.

(** Where [Get] is: before the check of the stop token, before the bridge is
    made, before [co_spawn], returned with the coroutine under way, or the
    request is over. Another thread may request the stop in between. *)
Inductive position := AtCheck | AtBridge | AtSpawn | InFlight | Finished.

#[export] Instance position_eq_dec : EqDecision position.
Proof. solve_decision. Defined.

Record Query := mkQuery {
  pos : position;
  stop_requested : bool;
  stopCb : bool;            (** the bridge has a stop callback *)
  cancellations : nat;      (** signals that reached the coroutine *)
  answers : list Result;    (** calls of the handler *)
}.

Definition fresh (requested : bool) : Query := mkQuery AtCheck requested false 0 [].

(** [signal.emit]: the slot has a handler while the coroutine runs. *)
Definition emit (q : Query) : Query :=
  match pos q with
  | InFlight => mkQuery (pos q) (stop_requested q) (stopCb q) (S (cancellations q)) (answers q)
  | _ => q
  end.

(** The next statement of [Get]. The constructor of the stop callback runs it at
    once when the stop is already requested. *)
Definition Get (stop_possible : bool) (q : Query) : Query :=
  match pos q with
  | AtCheck =>
      if stop_requested q
      then mkQuery Finished true false (cancellations q) (answers q ++ [stopped_before])
      else mkQuery AtBridge false (stopCb q) (cancellations q) (answers q)
  | AtBridge =>
      let q' := mkQuery AtSpawn (stop_requested q) stop_possible (cancellations q) (answers q) in
      if stop_possible && stop_requested q then emit q' else q'
  | AtSpawn => mkQuery InFlight (stop_requested q) (stopCb q) (cancellations q) (answers q)
  | InFlight | Finished => q
  end.

(** [request_stop] on the source of the token. *)
Definition RequestStop (stop_possible : bool) (q : Query) : Query :=
  if negb stop_possible || stop_requested q then q else
  let q' := mkQuery (pos q) true (stopCb q) (cancellations q) (answers q) in
  if stopCb q then emit q' else q'.

(** The completion handler; the bridge is destroyed with it. *)
Definition completion (o : ending Result) : Result :=
  match o with
  | Done r => r
  | Thrown => Unexpected (SystemError state_not_recoverable "co_spawn: not handled exception")
  end.

Definition Complete (o : ending Result) (q : Query) : Query :=
  match pos q with
  | InFlight => mkQuery Finished (stop_requested q) false (cancellations q) (answers q ++ [completion o])
  | _ => q
  end.

Inductive action := AGet | AStop | AComplete (o : ending Result).

Definition step (stop_possible : bool) (q : Query) (a : action) : Query :=
  match a with
  | AGet => Get stop_possible q
  | AStop => RequestStop stop_possible q
  | AComplete o => Complete o q
  end.

Definition run (stop_possible : bool) (q : Query) (l : list action) : Query :=
  foldl (step stop_possible) q l.

(** The handler has been called once if the request is over, and not otherwise;
    a signal reaches the coroutine at most once, and only after a request; the
    stop callback exists only while the coroutine may still need it. *)
Definition wf (stop_possible : bool) (q : Query) : Prop :=
  length (answers q) = (if decide (pos q = Finished) then 1 else 0) /\
  cancellations q <= (if stop_requested q then 1 else 0) /\
  (stopCb q = true -> pos q = AtSpawn \/ pos q = InFlight) /\
  (pos q = AtSpawn \/ pos q = InFlight -> stopCb q = stop_possible) /\
  (cancellations q = 1 -> pos q = InFlight \/ pos q = Finished).

Lemma fresh_wf p r : wf p (fresh r).
Proof. destruct r; split_and!; simpl; first [lia|naive_solver]. Qed.

Lemma step_wf p q a : wf p q -> wf p (step p q a).
Proof.
  destruct q as [ps sr cb n l]. unfold wf. simpl. intros (Hl & Hn & Hcb & Hp & Hc).
  destruct a as [| |o], ps, sr, cb, p; cbn -[decide] in *;
    repeat case_decide; simplify_eq; rewrite ?length_app; cbn; split_and!;
    try (intros; first [lia|naive_solver|naive_solver lia]).
Qed.

Lemma run_wf p q l : wf p q -> wf p (run p q l).
Proof.
  revert q. induction l as [|a l IH]; intros q H; [done|]. by apply IH, step_wf.
Qed.

Lemma finished_stays p q l :
  pos q = Finished -> stop_requested q = true -> run p q l = q.
Proof.
  intros Hq Hs. induction l as [|a l IH]; [done|]. simpl.
  assert (step p q a = q) as ->; [|done].
  destruct a; unfold step, Get, RequestStop, Complete; rewrite Hq, ?Hs; [done| |done].
  by rewrite orb_true_r.
Qed.

(** C15: for every interleaving of [Get] with stop requests from other threads and
    the end of the request, the handler is called exactly once when the request
    is over and not before; a request whose token is already stopped is answered
    with [operation_canceled] and never started; a stop requested while the
    request is in flight reaches it, once; and nothing refers to the bridge
    after the request is over. *)
Theorem handler_called_once p r l :
  let q := run p (fresh r) l in
  (pos q = Finished -> exists x, answers q = [x] /\ stopCb q = false) /\
  (pos q <> Finished -> answers q = []) /\
  (cancellations q <= 1) /\
  (pos q = InFlight -> p = true -> stop_requested q = false ->
     cancellations (step p q AStop) = S (cancellations q)) /\
  (r = true -> forall l', l = AGet :: l' -> pos q = Finished /\ answers q = [stopped_before]).
Proof.
  intros q. pose proof (run_wf p (fresh r) l (fresh_wf p r)) as (Hl & Hn & Hcb & Hp & Hc).
  fold q in Hl, Hn, Hcb, Hp, Hc. split_and!.
  - intros Hf. rewrite decide_True in Hl by done.
    destruct (answers q) as [|x [|]]; [done| |done]. exists x. split; [done|].
    destruct (stopCb q); [|done]. destruct Hcb; congruence.
  - intros Hf. rewrite decide_False in Hl by done. by destruct (answers q).
  - destruct (stop_requested q); lia.
  - intros Hf -> Hs. specialize (Hp (or_intror Hf)). unfold step, RequestStop, emit.
    rewrite Hs, Hp. simpl. by rewrite Hf.
  - intros -> l' ->. subst q. simpl.
    by rewrite (finished_stays p _ l').
Qed.

(** Once the stop is requested, no further signal is emitted to the request. *)
Lemma requested_no_more p q l :
  stop_requested q = true ->
  stop_requested (run p q l) = true /\ cancellations (run p q l) = cancellations q.
Proof.
  revert q. induction l as [|a l IH]; intros q Hs; [done|]. simpl.
  assert (stop_requested (step p q a) = true /\ cancellations (step p q a) = cancellations q)
    as [H1 H2].
  { destruct q as [ps sr cb n an]. simpl in *. subst. by destruct a as [| |o], ps, p. }
  rewrite <- H2. by apply IH.
Qed.

(** A stop requested after [Get] has looked at the token and before the bridge
    is made is lost: the callback runs in its constructor, when the signal has
    no handler, so the request is never cancelled however long it takes. *)
Theorem stop_during_get_is_lost l :
  let q := run true (fresh false) ([AGet; AStop; AGet; AGet] ++ l) in
  stop_requested q = true /\ cancellations q = 0.
Proof.
  cbv zeta. unfold run. rewrite foldl_app. by apply (requested_no_more true (mkQuery InFlight true true 0 []) l).
Qed.

(** The stop was requested before [Get] looks at the token: by the schedule,
    or already when [Get] was called. *)
Fixpoint stops_first (l : list action) : bool :=
  match l with AStop :: _ => true | AComplete _ :: l' => stops_first l' | _ => false end.
Definition refused (p requested : bool) (l : list action) : bool := requested || p && stops_first l.

(** A schedule in which the request, when it ends, ends with [o]. *)
Definition ends_with (o : ending Result) (l : list action) : Prop :=
  Forall (fun a => match a with AComplete o' => o' = o | _ => True end) l.

Lemma finished_answers p q l :
  pos q = Finished -> pos (run p q l) = Finished /\ answers (run p q l) = answers q.
Proof.
  revert q. induction l as [|a l IH]; intros q Hq; [done|]. simpl.
  assert (pos (step p q a) = Finished /\ answers (step p q a) = answers q) as [H1 <-]; [|by apply IH].
  destruct q as [ps sr cb n an]. simpl in *. subst. destruct a, sr, p; cbn; try done; by destruct cb.
Qed.

(** Past the check of the token only the end of the request answers. *)
Lemma passed_answers p o q l :
  pos q <> AtCheck -> pos q <> Finished -> answers q = [] -> ends_with o l ->
  pos (run p q l) = Finished -> answers (run p q l) = [completion o].
Proof.
  intros Hc Hf Ha Hl. revert q Hc Hf Ha. induction Hl as [|a l Hx _ IH]; intros q Hc Hf Ha Hfin; [done|]. simpl in *.
  destruct q as [ps sr cb n an]. simpl in *. subst.
  destruct a as [| |o']; [| |subst o']; destruct ps; try done; destruct sr, p, cb; cbn in *;
    solve [by apply IH | by apply finished_answers].
Qed.

Lemma get_answers p o r l :
  ends_with o l -> pos (run p (fresh r) l) = Finished ->
  answers (run p (fresh r) l) = [if refused p r l then stopped_before else completion o].
Proof.
  unfold refused. destruct r.
  - intros Hl. induction Hl as [|a l Hx Hl IH]; [done|]. destruct a as [| |o']; cbn in *; intros Hf.
    + exact (proj2 (finished_answers p (mkQuery Finished true false 0 [stopped_before]) l eq_refl)).
    + replace (RequestStop p (fresh true)) with (fresh true) in * by (by destruct p). by apply IH.
    + by apply IH.
  - intros Hl. induction Hl as [|a l Hx Hl IH]; [done|]. destruct a as [| |o']; cbn in *; intros Hf.
    + rewrite andb_false_r. by apply (passed_answers p o).
    + destruct p; cbn in *; [|by apply IH].
      change (mkQuery AtCheck true false 0 []) with (fresh true) in *. clear IH.
      induction Hl as [|a l Hx' Hl IH']; [done|]. destruct a as [| |o']; cbn in *; [|by apply IH'..].
      exact (proj2 (finished_answers true (mkQuery Finished true false 0 [stopped_before]) l eq_refl)).
    + by apply IH.
Qed.

Lemma get_ends p o r l : pos (run p (fresh r) (l ++ [AGet; AGet; AGet; AComplete o])) = Finished.
Proof.
  unfold run. rewrite foldl_app. generalize (foldl (step p) (fresh r) l). intros [ps sr cb n an].
  destruct ps, sr, p; reflexivity.
Qed.

Lemma refused_no_signal p r l : refused p r l = true -> cancellations (run p (fresh r) l) = 0.
Proof.
  unfold refused. destruct r; [intros _; by apply (requested_no_more p (fresh true))|]. cbn. intros Hr.
  apply andb_true_iff in Hr as [-> Hr]. induction l as [|[| |o] l IH]; cbn in *; [done..| |by apply IH].
  by apply (requested_no_more true (fresh true)).
Qed.

Lemma in_flight_stop p r l1 l2 :
  p = true -> pos (run p (fresh r) l1) = InFlight -> stop_requested (run p (fresh r) l1) = false ->
  cancellations (run p (fresh r) (l1 ++ AStop :: l2)) = 1.
Proof.
  intros -> Hf Hs. unfold run. rewrite foldl_app. cbn. fold (run true (fresh r) l1).
  pose proof (run_wf true _ l1 (fresh_wf true r)) as (_ & Hn & _ & Hb & _). rewrite Hs in Hn.
  destruct (run true (fresh r) l1) as [ps sr cb n an]. cbn in *. subst. rewrite Hb by auto. cbn.
  etransitivity; [by apply (requested_no_more true (mkQuery InFlight true true (S n) an) l2)|]. cbn. lia.
Qed.

(** C16: from the call of [Get] to its handler, for every URL that parses, every
    network that satisfies the documented guarantee on resolution and every
    interleaving of the statements of [Get], stop requests of other threads and
    the end of the coroutine: the request can always be driven to its end; then
    the handler has got exactly one result, which is the refusal exactly if the
    stop was requested before [Get] looked at the token (and then nothing was
    signalled), and else the one the protocol run of the request dictates, or
    [state_not_recoverable] if the request was cancelled before it began; a
    stop requested in flight has reached the coroutine, once. *)
Theorem get_end_to_end {W} (net : Net W) with_ssl `{!ResolverLaws net} url u w p r l :
  ada_parse net url = Some u ->
  let '(o, st) := whole_request net with_ssl url (start w) in
  let q := run p (fresh r) l in
  pos (run p (fresh r) (l ++ [AGet; AGet; AGet; AComplete o])%list) = Finished /\
  (ends_with o l -> pos q = Finished ->
     answers q = [if refused p r l then stopped_before else completion o] /\
     (refused p r l = true -> cancellations q = 0)) /\
  (follows_protocol with_ssl u (Done (completion o)) (trace st) \/
   error_of (completion o) = Some state_not_recoverable /\ trace st = [Threw Suspend]) /\
  (forall l1 l2, l = (l1 ++ AStop :: l2)%list -> p = true -> pos (run p (fresh r) l1) = InFlight ->
     stop_requested (run p (fresh r) l1) = false -> cancellations q = 1).
Proof.
  intros Hu. pose proof (whole_request_spec net with_ssl url u w Hu) as H.
  unfold wp in H. destruct (whole_request _ _ _ _) as [o st]. cbv zeta. split_and!.
  - apply get_ends.
  - intros Hl Hf. split; [by apply get_answers|]. apply refused_no_signal.
  - destruct o as [x|]; [by left|right]. destruct H as (ph & d & _ & Ht). done.
  - intros l1 l2 -> Hp Hfl Hs. by apply in_flight_stop.
Qed.

End AsioLite.

(** ** The browser clients *)

Module Fetch.

Abbreviation addr := nat.
Abbreviation hid := nat.

(** The requests made so far number their handlers. A context on the heap holds
    its handler; [flights] are the context pointers the browser keeps with its
    pending requests; an access to a freed context breaks the program. *)
Record state := mk {
  heap : gmap addr hid;
  flights : list addr;
  answers : list (hid * Result);
  next : hid;
  broken : bool;
}.

Definition initial : state := mk ∅ [] [] 0 false.

Definition call_handler (h : hid) (r : Result) (st : state) : state :=
  mk (heap st) (flights st) (answers st ++ [(h, r)]) (next st) (broken st).

Definition delete_ctx (a : addr) (st : state) : state :=
  mk (delete a (heap st)) (flights st) (answers st) (next st) (broken st).

Definition crash (st : state) : state :=
  mk (heap st) (flights st) (answers st) (next st) true.

(** [Get] of both clients: the context is allocated at [a] (an allocator does
    not return an address in use) and the browser's request started with it. *)
Definition Get (a : addr) (stop_requested : bool) (st : state) : state :=
  let h := next st in
  if stop_requested
  then mk (heap st) (flights st) (answers st ++ [(h, stopped_before)]) (S h) (broken st)
  else match heap st !! a with
  | Some _ => st
  | None => mk (<[a := h]> (heap st)) (flights st ++ [a]) (answers st) (S h) (broken st)
  end.

(** *** JsFetchLiteClient *)

(** A JavaScript error: its message and its text. *)
Record js_error := JsError { message : string; text : string }.

(** [error?.message || String(error)] *)
Definition errorMessage (e : js_error) : string :=
  if String.eqb (message e) "" then text e else message e.

(** What [fetch] and [response.text()] give. *)
Inductive js_outcome :=
| FetchDone (status : Z) (body : string)
| FetchFailed (e : js_error).

(** The handlers are user code: one may raise an exception. *)
Definition handler := hid -> Result -> option js_error.

Definition OnFetchResult (raises : handler) (ctx : addr) (status : Z) (body : option string)
    (st : state) : state * option js_error :=
  match heap st !! ctx with
  | None => (crash st, None)
  | Some h =>
      let bodyStr := match body with Some b => CstrView.until_zero b | None => "" end in
      let r := Value (mkResponse status bodyStr) in
      let st := call_handler h r st in
      match raises h r with
      | Some e => (st, Some e)
      | None => (delete_ctx ctx st, None)
      end
  end.

Definition OnFetchError (raises : handler) (ctx : addr) (error : string)
    (st : state) : state * option js_error :=
  match heap st !! ctx with
  | None => (crash st, None)
  | Some h =>
      let r := Unexpected (SystemError not_connected (CstrView.until_zero error)) in
      let st := call_handler h r st in
      match raises h r with
      | Some e => (st, Some e)
      | None => (delete_ctx ctx st, None)
      end
  end.

(** [JsFetchContext_Fetch] after its awaits: the callback for the result runs
    inside the [try] block, and what it throws is caught there. *)
Definition JsFetch (raises : handler) (ctx : addr) (o : js_outcome) (st : state) : state :=
  match o with
  | FetchDone status body =>
      match OnFetchResult raises ctx status (Some body) st with
      | (st, None) => st
      | (st, Some e) => (OnFetchError raises ctx (errorMessage e) st).1
      end
  | FetchFailed e => (OnFetchError raises ctx (errorMessage e) st).1
  end.

(** *** EmFetchLiteClient *)

Inductive em_outcome :=
| OnSuccess (status : Z) (data : string)
| OnError (status : Z) (statusText : string) (responseUrl : option string) (data : string).

Definition em_result (show : Z -> string) (o : em_outcome) : Result :=
  match o with
  | OnSuccess status data => Value (mkResponse status data)
  | OnError status statusText responseUrl data =>
      if (0 <? status)%Z && bool_decide (is_Some responseUrl)
      then Value (mkResponse status data)
      else Unexpected (SystemError not_connected
        ("emscripten_fetch: onerror: " +:+ show status +:+ " (" +:+ statusText +:+ ")"))
  end.

(** The callbacks [onsuccess] and [onerror]. *)
Definition EmFetch (show : Z -> string) (ctx : addr) (o : em_outcome) (st : state) : state :=
  match heap st !! ctx with
  | None => crash st
  | Some h => delete_ctx ctx (call_handler h (em_result show o) st)
  end.

(** *** Runs *)

Inductive action (O : Type) :=
| AGet (a : addr) (stop_requested : bool)
| ASettle (k : nat) (o : O).     (** the browser settles its [k]-th request *)
Arguments AGet {O} a stop_requested.
Arguments ASettle {O} k o.

Definition take_flight (k : nat) (st : state) : state :=
  mk (heap st) (delete k (flights st)) (answers st) (next st) (broken st).

Definition step {O} (settle : addr -> O -> state -> state) (st : state) (a : action O) : state :=
  match a with
  | AGet p s => Get p s st
  | ASettle k o =>
      match flights st !! k with
      | None => st
      | Some ctx => settle ctx o (take_flight k st)
      end
  end.

Definition run {O} (settle : addr -> O -> state -> state) (l : list (action O)) : state :=
  foldl (step settle) initial l.

(** What the two clients have in common: settling the request of a live context
    calls its handler and frees the context, nothing else. *)
Class Settles {O} (settle : addr -> O -> state -> state) : Prop :=
  settle_live : forall ctx o st h, heap st !! ctx = Some h ->
    exists r, settle ctx o st = delete_ctx ctx (call_handler h r st).

#[export] Instance em_settles show : Settles (EmFetch show).
Proof. intros ctx o st h Hh. unfold EmFetch. rewrite Hh. by eexists. Qed.

Lemma js_settles raises :
  (forall h r, raises h r = None) -> Settles (JsFetch raises).
Proof.
  intros Hr ctx o st h Hh. unfold JsFetch, OnFetchResult, OnFetchError. rewrite Hh.
  destruct o; rewrite Hr; by eexists.
Qed.

(** The contexts on the heap are those the browser holds, and every request made
    has been answered or has its handler in one of them. *)
Definition wf (st : state) : Prop :=
  broken st = false /\
  flights st ≡ₚ (map_to_list (heap st)).*1 /\
  (answers st).*1 ++ (map_to_list (heap st)).*2 ≡ₚ seq 0 (next st).

Lemma Get_wf a s st : wf st -> wf (Get a s st).
Proof.
  intros (Hb & Hf & Ha). unfold Get. destruct s.
  - split_and!; [done|done|]. cbn [answers heap next]. rewrite seq_S, fmap_app. cbn [fmap list_fmap fst].
    rewrite <- app_assoc, Permutation_app_swap_app. simpl.
    rewrite Ha. apply Permutation_cons_append.
  - destruct (heap st !! a) eqn:E; [done|]. split_and!; [done| |]; cbn [answers heap next flights].
    + rewrite map_to_list_insert by done. simpl. rewrite Hf. symmetry. apply Permutation_cons_append.
    + rewrite map_to_list_insert, seq_S by done. cbn [fmap list_fmap snd].
      rewrite <- Permutation_middle, Ha. apply Permutation_cons_append.
Qed.

Lemma settle_wf {O} (settle : addr -> O -> state -> state) `{!Settles settle} k ctx o st :
  wf st -> flights st !! k = Some ctx -> wf (settle ctx o (take_flight k st)).
Proof.
  intros (Hb & Hf & Ha) Hk.
  assert (exists h, heap st !! ctx = Some h) as [h Hh].
  { apply list_elem_of_lookup_2 in Hk. rewrite Hf in Hk.
    apply list_elem_of_fmap in Hk as ([c h] & -> & Hin). exists h. by apply elem_of_map_to_list in Hin. }
  destruct (settle_live ctx o (take_flight k st) h Hh) as [r ->].
  rewrite <- (insert_delete_id (heap st) ctx h Hh), map_to_list_insert in Hf, Ha
    by apply lookup_delete_eq.
  simpl in Hf, Ha. split_and!; [done| |]; simpl.
  - apply (Permutation_cons_inv (a := ctx)). rewrite <- Hf. symmetry. by apply delete_Permutation.
  - rewrite fmap_app. simpl. rewrite <- Ha, <- app_assoc. done.
Qed.

Lemma run_fetch_wf {O} (settle : addr -> O -> state -> state) `{!Settles settle} l :
  wf (run settle l).
Proof.
  unfold run. assert (wf initial) as H.
  { split_and!; simpl; rewrite ?map_to_list_empty; done. }
  revert H. generalize initial. induction l as [|[a s|k o] l IH]; intros st H; [done|..]; simpl; apply IH.
  - by apply Get_wf.
  - destruct (flights st !! k) eqn:E; [|done]. by apply settle_wf.
Qed.

(** What [ILiteClient::Get] promises, for a run of a browser client: no freed
    context is touched, every request has its handler called at most once, those
    without an answer are in flight with their context alive, and when nothing
    is in flight every request has been answered once and no context is left. *)
Definition answers_once (st : state) : Prop :=
  broken st = false /\
  NoDup (answers st).*1 /\
  (forall h, h < next st -> h ∈ (answers st).*1 \/
     exists a, heap st !! a = Some h /\ a ∈ flights st) /\
  (flights st = [] -> heap st = ∅ /\ (answers st).*1 ≡ₚ seq 0 (next st)).

Lemma wf_answers_once st : wf st -> answers_once st.
Proof.
  intros (Hb & Hf & Ha). split_and!; [done| | |].
  - assert (NoDup ((answers st).*1 ++ (map_to_list (heap st)).*2)) as Hn.
    { rewrite Ha. apply NoDup_seq. }
    by apply NoDup_app in Hn as [? _].
  - intros h Hh. assert (h ∈ seq 0 (next st)) as Hin by (apply elem_of_seq; lia).
    rewrite <- Ha in Hin. apply elem_of_app in Hin as [?|Hin]; [by left|right].
    apply list_elem_of_fmap in Hin as ([a h'] & -> & Hin). exists a.
    split; [by apply elem_of_map_to_list|]. rewrite Hf. apply list_elem_of_fmap. by exists (a, h').
  - intros H0. rewrite H0 in Hf. symmetry in Hf. apply Permutation_nil_r in Hf.
    assert (map_to_list (heap st) = []) as Hl by (by destruct (map_to_list (heap st))).
    rewrite Hl, app_nil_r in Ha. split; [|done]. by apply map_to_list_empty_iff.
Qed.

(** C17: the [fetch] client of the browser answers every request exactly once and
    frees every context exactly once, for any order of requests and results and
    any reuse of addresses, if the handlers raise no exception. *)
Theorem js_fetch_answers_once raises l :
  (forall h r, raises h r = None) -> answers_once (run (JsFetch raises) l).
Proof. intros H. apply wf_answers_once, @run_fetch_wf. by apply js_settles. Qed.

(** The same for the client on Emscripten's fetch API, whatever the handlers
    do with the result. *)
Theorem em_fetch_answers_once show l : answers_once (run (EmFetch show) l).
Proof. apply wf_answers_once, @run_fetch_wf. apply em_settles. Qed.

(** A handler of the [fetch] client that raises an exception is called a
    second time, with an error made of its own exception, although the request
    succeeded. *)
Theorem raising_handler_called_twice raises ctx h status body e st :
  heap st !! ctx = Some h ->
  raises h (Value (mkResponse status (CstrView.until_zero body))) = Some e ->
  answers (JsFetch raises ctx (FetchDone status body) st) =
    (answers st ++ [(h, Value (mkResponse status (CstrView.until_zero body)));
                    (h, Unexpected (SystemError not_connected (CstrView.until_zero (errorMessage e))))])%list.
Proof.
  intros Hh He. unfold JsFetch, OnFetchResult. rewrite Hh. simpl. rewrite He.
  unfold OnFetchError. simpl. rewrite Hh. destruct (raises h (Unexpected _)); simpl; by rewrite <- app_assoc.
Qed.

(** The two clients agree on a response with a status whose body has no zero
    byte; the [fetch] client drops what follows one. *)
Theorem fetch_clients_agree show raises ctx h status body st :
  heap st !! ctx = Some h -> (forall h r, raises h r = None) ->
  CstrView.until_zero body = body ->
  JsFetch raises ctx (FetchDone status body) st = EmFetch show ctx (OnSuccess status body) st.
Proof.
  intros Hh Hr Hz. unfold JsFetch, OnFetchResult, EmFetch. rewrite Hh, Hr. simpl. by rewrite Hz.
Qed.

End Fetch.

(** ** LiteClient *)

Inductive client := BeastLiteClient | JsFetchLiteClient | EmFetchLiteClient.

(** [LiteClient::MakeDefault], for the browser build or the others. *)
Definition MakeDefault (emscripten useJsFetchClient : bool) : client :=
  if emscripten then (if useJsFetchClient then JsFetchLiteClient else EmFetchLiteClient)
  else BeastLiteClient.

(** ** Concrete runs *)

Module LiteDemo.

(** A stop request in flight, then the end of the request. *)
Definition stopped_in_flight (o : ending Result) : list AsioLite.action :=
  [AsioLite.AGet; AsioLite.AGet; AsioLite.AGet; AsioLite.AStop; AsioLite.AComplete o].

Lemma get_end_to_end_witness :
  let '(o, st) := whole_request Http.Demo.net true "http://host/a" (start Http.Demo.w0) in
  let q := AsioLite.run true (AsioLite.fresh false) (stopped_in_flight o) in
  AsioLite.answers q = [AsioLite.completion o] /\ AsioLite.cancellations q = 1 /\
  (follows_protocol true (Url "http:" "host" "8080" "/a" "") (Done (AsioLite.completion o)) (trace st) \/
   error_of (AsioLite.completion o) = Some state_not_recoverable /\ trace st = [Threw Suspend]).
Proof.
  destruct (whole_request Http.Demo.net true "http://host/a" (start Http.Demo.w0)) as [o st] eqn:E.
  pose proof (AsioLite.get_end_to_end Http.Demo.net true (ResolverLaws0 := Http.Demo.demo_resolver) "http://host/a"
    (Url "http:" "host" "8080" "/a" "") Http.Demo.w0 true false (stopped_in_flight o) eq_refl) as H.
  rewrite E in H. destruct H as (_ & H1 & H2 & H3). split_and!; [|by apply (H3 [AsioLite.AGet; AsioLite.AGet; AsioLite.AGet] [AsioLite.AComplete o])|done].
  apply H1; [repeat constructor|reflexivity].
Defined.

Definition quiet : Fetch.handler := fun _ _ => None.

Definition session : list (Fetch.action Fetch.js_outcome) :=
  [Fetch.AGet 4 false; Fetch.AGet 9 false; Fetch.AGet 5 true;
   Fetch.ASettle 1 (Fetch.FetchDone 200 "b"); Fetch.AGet 9 false;
   Fetch.ASettle 0 (Fetch.FetchFailed (Fetch.JsError "" "gone"))].

Example session_answers :
  (Fetch.answers (Fetch.run (Fetch.JsFetch quiet) session)).*1 = [2; 1; 0] /\
  Fetch.flights (Fetch.run (Fetch.JsFetch quiet) session) = [9].
Proof. vm_compute. split; reflexivity. Qed.

Lemma js_fetch_answers_once_witness :
  Fetch.answers_once (Fetch.run (Fetch.JsFetch quiet) session).
Proof. apply Fetch.js_fetch_answers_once. reflexivity. Defined.

Definition raising : Fetch.handler := fun _ r =>
  match r with Value _ => Some (Fetch.JsError "bad" "Error: bad") | Unexpected _ => None end.

Definition one_live : Fetch.state := Fetch.mk {[ 4 := 0 ]} [] [] 1 false.

Lemma raising_handler_called_twice_witness :
  Fetch.answers (Fetch.JsFetch raising 4 (Fetch.FetchDone 200 "ok") one_live) =
    [(0, Value (mkResponse 200 "ok")); (0, Unexpected (SystemError not_connected "bad"))].
Proof.
  apply (Fetch.raising_handler_called_twice raising 4 0 200 "ok"
    (Fetch.JsError "bad" "Error: bad") one_live); reflexivity.
Defined.

Lemma fetch_clients_agree_witness :
  Fetch.JsFetch quiet 4 (Fetch.FetchDone 200 "ok") one_live =
  Fetch.EmFetch (fun _ => "") 4 (Fetch.OnSuccess 200 "ok") one_live.
Proof. apply (Fetch.fetch_clients_agree _ _ _ 0); reflexivity. Defined.

End LiteDemo.
