(* ===== verification/Asio.v ===== *)
(** * Asio domain

    [asio/Asio]: [AsioPoller] polls an [io_context] once per frame;
    [AsioDomain] adds a main coroutine whose end asks the runner to exit. The
    [io_context] and the coroutines on it are a parameter: [poll] answers with
    what its handlers did that concerns the domain. The domain is an instance of
    the handler interface of [App], so it runs under the runners modelled there. *)

From S2P Require Import Prelude RunLoop App.

Open Scope Z_scope.
Open Scope outcome_scope.

(** What a handler run by [poll] does: the completion handler of the main
    coroutine (with an exception or with an exit code), user code that asks the
    runner to exit, or anything else. *)
Inductive happening :=
| Finished (ex : bool) (exitCode : Z)
| UserExit (code : Z)
| Other.

Class IoContext (IO : Type) := {
  co_spawn : IO -> IO;
  emit_cancel : IO -> IO;       (** [cancellation_signal::emit] *)
  stopped : IO -> bool;
  poll : IO -> list happening * IO }.

(** Documented by Asio: [co_spawn] and [emit] run no handler; a completion
    handler runs once, and not before the coroutine is spawned. [pending] tells
    whether the main coroutine is under way. *)
Class IoLaws (IO : Type) `{IoContext IO} := {
  pending : IO -> bool;
  spawn_pending : forall io, pending (co_spawn io) = true;
  emit_pending : forall io, pending (emit_cancel io) = pending io;
  poll_pending : forall io,
    (exists hs1 ex c hs2, (poll io).1 = hs1 ++ Finished ex c :: hs2 /\ pending io = true /\
       (forall ex' c', Finished ex' c' ∉ hs1 ++ hs2) /\ pending (poll io).2 = false) \/
    ((forall ex c, Finished ex c ∉ (poll io).1) /\ pending (poll io).2 = pending io) }.

(** ** The service registry *)

(** Services by context; an executor and its strands lead to one context. The
    service holds the domain that registered it. *)
Abbreviation services := (gmap nat (option nat)).

(** [make_service]: throws when the context has the service already. *)
Definition make_service (ctx : nat) (domain : nat) (s : services) : option services :=
  match s !! ctx with Some _ => None | None => Some (<[ctx := Some domain]> s) end.

(** [AsioDomain::FromExecutor]; [None] is [nullptr]. *)
Definition FromExecutor (ctx : nat) (s : services) : option nat :=
  match s !! ctx with
  | Some svc => svc
  | None => None
  end.

(** An executor leads to the domain that owns its context and to no other,
    whatever domains are constructed later. *)
Theorem from_executor_finds_owner ctx d s s' :
  make_service ctx d s = Some s' ->
  FromExecutor ctx s' = Some d /\
  (forall ctx', ctx' <> ctx -> FromExecutor ctx' s' = FromExecutor ctx' s) /\
  (forall d', make_service ctx d' s' = None).
Proof.
  unfold make_service. destruct (s !! ctx) eqn:E; [done|]. intros [= <-].
  unfold FromExecutor. split_and!.
  - by rewrite lookup_insert_eq.
  - intros ctx' Hne. by rewrite lookup_insert_ne.
  - intros d'. by rewrite lookup_insert_eq.
Qed.

(** ** The domain *)

Section Domain.
Context {IO : Type} `{IoContext IO}.

Record Domain := mkDomain {
  io : IO;
  cancelled : bool;
  runner : RunnerState;
  attached : bool;      (** [GetRunner()] is not null *)
}.

Definition with_io (i : IO) (d : Domain) : Domain := mkDomain i (cancelled d) (runner d) (attached d).
Definition with_runner (r : RunnerState) (d : Domain) : Domain :=
  mkDomain (io d) (cancelled d) r (attached d).

(** The runner's [Exit]. *)
Definition runner_Exit (code : Z) (d : Domain) : Domain :=
  with_runner {| exitCode := exitCode (SetExitCode code (runner d)); running := false |} d.

(** [AsioDomain::Start]. *)
Definition Start (d : Domain) : outcome (bool * Domain) :=
  Ret (true, with_io (co_spawn (io d)) d).

(** [AsioDomain::Completed]: an exception terminates the program, as does a
    missing runner. *)
Definition Completed (ex : bool) (code : Z) (d : Domain) : outcome Domain :=
  if ex then Crash else
  let code := if cancelled d then ExitCode.Cancelled else code in
  if negb (attached d) then Crash else
  match Exiting (runner d) with
  | Some _ => Ret d
  | None => Ret (runner_Exit code d)
  end.

(** One handler of the [io_context]. *)
Definition handle (h : happening) (d : Domain) : outcome Domain :=
  match h with
  | Finished ex c => Completed ex c d
  | UserExit c => Ret (runner_Exit c d)
  | Other => Ret d
  end.

Fixpoint handle_all (hs : list happening) (d : Domain) : outcome Domain :=
  match hs with
  | [] => Ret d
  | h :: hs => let! d1 := handle h d in handle_all hs d1
  end.

(** [io_context::poll] in the domain. *)
Definition poll_io (d : Domain) : outcome Domain :=
  let '(hs, io') := poll (io d) in handle_all hs (with_io io' d).

(** [AsioPoller::Update]. *)
Definition Update (ctx : UpdateCtx.t) (d : Domain) : outcome Domain := poll_io d.

(** [AsioDomain::Stop]. *)
Definition Stop (d : Domain) : outcome Domain :=
  let d1 := mkDomain (emit_cancel (io d)) true (runner d) (attached d) in
  if negb (stopped (io d1)) then poll_io d1 else Ret d1.

#[export] Instance domain_ops : HandlerOps Domain := {|
  h_Start := Start;
  h_Stop := Stop;
  h_Update := Update;
  get_runner := runner;
  set_runner := with_runner |}.

#[export] Instance domain_laws : HandlerLaws Domain.
Proof. by split. Qed.

(** A domain before [Start], attached to a runner. *)
Definition fresh (i : IO) : Domain := mkDomain i false (mkRunner None false) true.

End Domain.
Arguments Domain IO : clear implicits.

(** ** How the exit code comes about *)

Section ExitCode.
Context {IO : Type} `{IoContext IO}.
Implicit Types d : Domain IO.

(** A sequence of calls of the owner. *)
Inductive op := OUpdate (ctx : UpdateCtx.t) | OStop.

Definition step_op (o : op) (d : Domain IO) : outcome (Domain IO) :=
  match o with OUpdate ctx => Update ctx d | OStop => Stop d end.

Fixpoint run_ops (l : list op) (d : Domain IO) : outcome (Domain IO) :=
  match l with
  | [] => Ret d
  | o :: l => let! d1 := step_op o d in run_ops l d1
  end.

(** The happenings of a call, and the [io_context] after it. *)
Definition op_happens (o : op) (i : IO) : list happening * IO :=
  match o with
  | OUpdate _ => poll i
  | OStop => let i1 := emit_cancel i in if negb (stopped i1) then poll i1 else ([], i1)
  end.

(** All of them along a sequence, each with whether [Stop] was called before. *)
Fixpoint happens (l : list op) (c : bool) (i : IO) : list (bool * happening) :=
  match l with
  | [] => []
  | o :: l =>
      let c' := match o with OStop => true | OUpdate _ => c end in
      let '(hs, i1) := op_happens o i in
      ((fun h => (c', h)) <$> hs) ++ happens l c' i1
  end.

(** The abstract account: the exit code is the one user code asked for last;
    the end of the main coroutine counts only if nobody asked before, with
    [Cancelled] if the domain was stopped meanwhile. *)
Definition account (r : option Z) (h : bool * happening) : option Z :=
  match h with
  | (_, UserExit c) => Some c
  | (stop, Finished _ c) => match r with Some _ => r | None => Some (if stop then ExitCode.Cancelled else c) end
  | (_, Other) => r
  end.

Definition no_exception (h : bool * happening) : Prop :=
  match h.2 with Finished ex _ => ex = false | _ => True end.

Lemma handle_all_account hs d :
  attached d = true -> Forall no_exception ((fun h => (cancelled d, h)) <$> hs) ->
  exists r, handle_all hs d = Ret (with_runner r d) /\
    exitCode r = foldl account (exitCode (runner d)) ((fun h => (cancelled d, h)) <$> hs).
Proof.
  revert d. induction hs as [|h hs IH]; intros d Ha Hn.
  { exists (runner d). by destruct d. }
  rewrite fmap_cons in Hn. apply Forall_cons in Hn as [Hh Hn].
  assert (exists r, handle h d = Ret (with_runner r d) /\
    exitCode r = account (exitCode (runner d)) (cancelled d, h)) as (r & Hr & Hc).
  { destruct h as [ex c|c|]; simpl in *.
    - unfold Completed. cbn in Hh. subst ex. rewrite Ha. simpl. unfold Exiting.
      destruct (exitCode (runner d)) eqn:E; [exists (runner d)|by eexists].
      split; [by destruct d|done].
    - by eexists.
    - exists (runner d). by destruct d. }
  simpl. rewrite Hr. simpl. destruct (IH (with_runner r d)) as (r' & Hr' & Hc'); [done|done|].
  exists r'. rewrite Hr'. split; [by destruct d|]. rewrite Hc'. simpl. by rewrite Hc.
Qed.

Lemma step_op_account o d :
  attached d = true ->
  let c' := match o with OStop => true | OUpdate _ => cancelled d end in
  let '(hs, i1) := op_happens o (io d) in
  Forall no_exception ((fun h => (c', h)) <$> hs) ->
  exists r, step_op o d = Ret (mkDomain i1 c' r true) /\
    exitCode r = foldl account (exitCode (runner d)) ((fun h => (c', h)) <$> hs).
Proof.
  intros Ha. destruct d as [i c r a]. simpl in Ha. subst a.
  assert (forall i' c', let '(hs, i1) := poll i' in
    Forall no_exception ((fun h => (c', h)) <$> hs) ->
    exists r', poll_io (mkDomain i' c' r true) = Ret (mkDomain i1 c' r' true) /\
      exitCode r' = foldl account (exitCode r) ((fun h => (c', h)) <$> hs)) as Hpoll.
  { intros i' c'. destruct (poll i') as [hs i1] eqn:E. intros Hn. unfold poll_io. simpl. rewrite E.
    by apply (handle_all_account hs (mkDomain i1 c' r true)). }
  destruct o as [ctx|]; simpl.
  - apply Hpoll.
  - unfold Stop. simpl. destruct (stopped (emit_cancel i)); simpl; [by exists r|apply Hpoll].
Qed.

Lemma run_ops_account l d :
  attached d = true ->
  Forall no_exception (happens l (cancelled d) (io d)) ->
  exists d', run_ops l d = Ret d' /\ attached d' = true /\
    exitCode (runner d') = foldl account (exitCode (runner d)) (happens l (cancelled d) (io d)).
Proof.
  revert d. induction l as [|o l IH]; intros d Ha Hn; [by exists d|].
  pose proof (step_op_account o d Ha) as Hs. simpl in *.
  destruct (op_happens o (io d)) as [hs i1]. apply Forall_app in Hn as [Hn1 Hn2].
  destruct (Hs Hn1) as (r & -> & Hc). simpl.
  destruct (IH (mkDomain i1 _ r true) eq_refl Hn2) as (d' & Hd' & Ha' & Hc').
  exists d'. split_and!; [done|done|]. rewrite Hc'. simpl. by rewrite Hc, foldl_app.
Qed.

(** *** The end of the main coroutine *)

Context `{!IoLaws IO}.

(** The ends of the main coroutine among what happened. *)
Definition ends (l : list (bool * happening)) : list (bool * Z) :=
  omap (fun h => match h with (stop, Finished _ c) => Some (stop, c) | _ => None end) l.

Lemma ends_app l1 l2 : ends (l1 ++ l2) = ends l1 ++ ends l2.
Proof. apply omap_app. Qed.

Lemma ends_none c' hs :
  (forall ex c, Finished ex c ∉ hs) -> ends ((fun h => (c', h)) <$> hs) = [].
Proof.
  induction hs as [|h hs IH]; intros Hn; [done|]. rewrite fmap_cons. simpl.
  destruct h as [ex c|c|]; simpl.
  - destruct (Hn ex c). left.
  - apply IH. intros ex c0 Hin. apply (Hn ex c0). by right.
  - apply IH. intros ex c0 Hin. apply (Hn ex c0). by right.
Qed.

Definition Pending (b : bool) : nat := if b then 1 else 0.

Lemma poll_ends c' i :
  (length (ends ((fun h => (c', h)) <$> (poll i).1)) + Pending (pending (poll i).2) =
   Pending (pending i))%nat.
Proof.
  destruct (poll_pending i) as [(hs1 & ex & c & hs2 & Heq & Hp & Hn & Hp')|[Hn Hp]].
  - rewrite Heq, Hp, Hp', fmap_app, fmap_cons, ends_app.
    rewrite ends_none by (intros ex' c0 Hin; apply (Hn ex' c0), elem_of_app; by left).
    simpl. rewrite ends_none by (intros ex' c0 Hin; apply (Hn ex' c0), elem_of_app; by right).
    done.
  - by rewrite ends_none, Hp.
Qed.

Lemma op_ends o c' i :
  (length (ends ((fun h => (c', h)) <$> (op_happens o i).1)) + Pending (pending (op_happens o i).2) =
   Pending (pending i))%nat.
Proof.
  destruct o; simpl; [apply poll_ends|].
  destruct (stopped (emit_cancel i)); simpl; [by rewrite emit_pending|].
  rewrite poll_ends. by rewrite emit_pending.
Qed.

Lemma run_ops_ends l d d' :
  attached d = true -> Forall no_exception (happens l (cancelled d) (io d)) ->
  run_ops l d = Ret d' ->
  (length (ends (happens l (cancelled d) (io d))) + Pending (pending (io d')) =
   Pending (pending (io d)))%nat.
Proof.
  revert d. induction l as [|o l IH]; intros d Ha Hn Hr; [by injection Hr as <-|].
  pose proof (step_op_account o d Ha) as Hs. simpl in *.
  pose proof (op_ends o match o with OUpdate _ => cancelled d | OStop => true end (io d)) as Ho.
  destruct (op_happens o (io d)) as [hs i1]. apply Forall_app in Hn as [Hn1 Hn2].
  destruct (Hs Hn1) as (r & Hd & _). rewrite Hd in Hr. simpl in *.
  rewrite ends_app, length_app. rewrite <- Ho. rewrite <- Nat.add_assoc. f_equal.
  by apply (IH (mkDomain i1 _ r true)).
Qed.

Lemma account_no_user l r :
  Forall (fun h => forall c, h.2 <> UserExit c) l ->
  foldl account r l = match r with
                      | Some _ => r
                      | None => (fun e => if e.1 : bool then ExitCode.Cancelled else e.2) <$> head (ends l)
                      end.
Proof.
  intros Hn. revert r. induction Hn as [|[s h] l Hh Hn IH]; intros r; [by destruct r|].
  simpl. rewrite IH. destruct h as [ex c|c|]; simpl in *; [by destruct r| |done].
  by destruct (Hh c).
Qed.

(** For a started domain, any sequence of frames and stops: while the main
    coroutine is under way the runner is not asked to exit; once it has ended,
    which happens at most once, the exit code is the coroutine's own, or 130 if
    the domain was stopped before, and it stays. (Other user code on the
    [io_context] is assumed not to ask for an exit, and no exception to leave a
    coroutine: that terminates the program.) *)
Theorem main_coroutine_gives_exit_code i l :
  let hs := happens l false (co_spawn i) in
  Forall no_exception hs -> Forall (fun h => forall c, h.2 <> UserExit c) hs ->
  exists d', (let! s := Start (fresh i) in run_ops l s.2) = Ret d' /\
    match ends hs with
    | [] => pending (io d') = true /\ exitCode (runner d') = None
    | [(stop, c)] => pending (io d') = false /\
        exitCode (runner d') = Some (if stop then ExitCode.Cancelled else c)
    | _ => False
    end.
Proof.
  intros hs Hn Hu. simpl.
  destruct (run_ops_account l (with_io (co_spawn i) (fresh i)) eq_refl Hn) as (d' & Hr & _ & Hc).
  exists d'. split; [done|].
  pose proof (run_ops_ends l (with_io (co_spawn i) (fresh i)) d' eq_refl Hn Hr) as He.
  change (happens _ _ _) with hs in Hc, He. rewrite account_no_user in Hc by done.
  simpl in He, Hc. rewrite spawn_pending in He. rewrite Hc.
  destruct (ends hs) as [|[stop c] [|]]; simpl in *; destruct (pending (io d')); simpl in *; try lia; done.
Qed.

End ExitCode.

(** ** Under the blocking runner *)

Section Run.
Context {IO : Type} `{IoContext IO} (clock : nat -> Z).

(** The [io_context] after [k] frames. *)
Fixpoint after_frames (k : nat) (i : IO) : IO :=
  match k with O => i | S k => after_frames k (poll i).2 end.

Definition silent (hs : list happening) : Prop := Forall (eq Other) hs.

Lemma handle_silent hs (d : Domain IO) : silent hs -> handle_all hs d = Ret d.
Proof. induction 1 as [|h hs <- Hs IH]; [done|]. simpl. apply IH. Qed.

Lemma handle_all_finish pre c post (d : Domain IO) :
  silent pre -> silent post ->
  cancelled d = false -> attached d = true -> exitCode (runner d) = None ->
  handle_all (pre ++ Finished false c :: post) d = Ret (runner_Exit c d).
Proof.
  intros Hpre Hpost Hc Ha Hr. induction Hpre as [|h pre <- Hpre IH]; [|done]. simpl.
  unfold Completed. rewrite Hc, Ha. simpl. unfold Exiting. rewrite Hr. simpl.
  by apply handle_silent.
Qed.

(** A code that is set is not changed by the end of the coroutine. *)
Lemma handle_exiting hs (d : Domain IO) c :
  (forall h, h ∈ hs -> h = Other \/ exists c', h = Finished false c') ->
  attached d = true -> exitCode (runner d) = Some c -> handle_all hs d = Ret d.
Proof.
  intros Hh Ha Hc. induction hs as [|h hs IH]; [done|]. simpl.
  assert (handle h d = Ret d) as ->.
  { destruct (Hh h) as [->|[c' ->]]; [left|done|]. simpl. unfold Completed, Exiting. by rewrite Ha, Hc. }
  apply IH. intros h' Hin. apply Hh. by right.
Qed.

Lemma silent_frames k n ctx i r (w : Domain IO) :
  running r = true ->
  (forall j, (j < k)%nat -> silent (poll (after_frames j i)).1) ->
  frames clock 1 (k + n) (foldl (fun c m => UpdateCtx.Tick (clock m) c) ctx (seq n k))
    (mkDomain (after_frames k i) false r true) w ->
  frames clock (S k) n ctx (mkDomain i false r true) w.
Proof.
  intros Hr. revert n ctx i. induction k as [|k IH]; intros n ctx i Hs Hf; [done|].
  pose proof (Hs 0%nat ltac:(lia)) as H0. simpl in H0.
  apply (frames_S clock _ _ _ _ (mkDomain (poll i).2 false r true)); [done| |].
  - cbn. unfold Update, poll_io. simpl. destruct (poll i) as [hs i1]. by apply handle_silent.
  - apply IH; [intros j Hj; apply (Hs (S j)); lia|]. simpl in Hf.
    by replace (k + S n)%nat with (S k + n)%nat by lia.
Qed.

(** The frames up to the end of the coroutine, and the stop after them. *)
Lemma run_returns_code i k c pre post fuel :
  let ik := after_frames k (co_spawn i) in
  (forall j, (j < k)%nat -> silent (poll (after_frames j (co_spawn i))).1) ->
  (poll ik).1 = pre ++ Finished false c :: post -> silent pre -> silent post ->
  (forall h, h ∈ (poll (emit_cancel (poll ik).2)).1 ->
     h = Other \/ exists c', h = Finished false c') ->
  (k < fuel)%nat ->
  exists d, Run clock fuel (fresh i) = Ret (c, d) /\ cancelled d = true /\
    exitCode (runner d) = Some c.
Proof.
  intros ik Hs Hk Hpre Hpost Hstop Hf.
  change (Run clock fuel (fresh i)) with
    (let! w3 := run_loop clock fuel 1 (UpdateCtx.Initialize (clock 0))
                  (set_running (with_io (co_spawn i) (fresh i))) in
     let! w4 := Stop w3 in Ret (default ExitCode.Success (exit_code w4), w4)).
  set (r1 := {| exitCode := Some c; running := false |}).
  set (d1 := mkDomain (poll ik).2 false r1 true).
  assert (frames clock (S k) 1 (UpdateCtx.Initialize (clock 0))
    (set_running (with_io (co_spawn i) (fresh i))) d1) as Hfr.
  { apply silent_frames; [done|done|]. eapply frames_S; [done| |apply frames_O].
    cbn. unfold Update, poll_io. simpl. fold ik. destruct (poll ik) as [hs i1]. simpl in *. subst hs.
    by rewrite handle_all_finish. }
  rewrite (run_loop_frames clock _ fuel _ _ _ _ Hfr) by (done || lia). cbn [obind].
  exists (mkDomain (if stopped (emit_cancel (poll ik).2) then emit_cancel (poll ik).2
                    else (poll (emit_cancel (poll ik).2)).2) true r1 true).
  unfold Stop. simpl. destruct (stopped _); simpl; [done|].
  unfold poll_io. simpl. destruct (poll (emit_cancel _)) as [hs i2]. simpl in *.
  by rewrite (handle_exiting hs _ c).
Qed.

(** C18: a domain run by the blocking runner: when its coroutine returns with code
    [c], without an exception, in the frame after [k] uneventful ones, and no
    other handler of that frame or of the last poll of [Stop] asks for exit or
    throws, [Run] returns [c] after exactly these frames, and the cancellation
    that [Stop] emits then does not change the code. *)
Theorem asio_run_returns_coroutine_code i k c pre post fuel :
  let ik := after_frames k (co_spawn i) in
  (forall j, (j < k)%nat -> silent (poll (after_frames j (co_spawn i))).1) ->
  (poll ik).1 = pre ++ Finished false c :: post -> silent pre -> silent post ->
  (forall h, h ∈ (poll (emit_cancel (poll ik).2)).1 ->
     h = Other \/ exists c', h = Finished false c') ->
  (k < fuel)%nat ->
  exists d, Run clock fuel (fresh i) = Ret (c, d) /\ cancelled d = true /\
    exitCode (runner d) = Some c.
Proof. apply run_returns_code. Qed.

End Run.

(** ** A concrete [io_context] *)

Module Demo.

(** The number of polls left before the coroutine ends, if it is under way. *)
Record io_demo := IoDemo { left_ : option nat; code_ : Z }.

Definition demo_poll (i : io_demo) : list happening * io_demo :=
  match left_ i with
  | None => ([Other], i)
  | Some 0%nat => ([Other; Finished false (code_ i)], IoDemo None (code_ i))
  | Some (S n) => ([Other], IoDemo (Some n) (code_ i))
  end.

#[export] Instance io_ops : IoContext io_demo := {|
  co_spawn i := IoDemo (Some 2%nat) (code_ i);
  emit_cancel i := IoDemo ((fun _ => 0%nat) <$> left_ i) (code_ i);
  stopped _ := false;
  poll := demo_poll |}.

#[export, refine] Instance io_laws : IoLaws io_demo :=
  {| pending i := bool_decide (is_Some (left_ i)) |}.
Proof.
  - done.
  - intros [[n|] c]; done.
  - intros [[[|n]|] c]; simpl.
    + left. exists [Other], false, c, []. split_and!; [done|done| |done].
      intros ex' c'. simpl. by rewrite list_elem_of_singleton.
    + right. split; [|done]. intros ex' c'. by rewrite list_elem_of_singleton.
    + right. split; [|done]. intros ex' c'. by rewrite list_elem_of_singleton.
Defined.

Definition i0 : io_demo := IoDemo None 7.
Definition ctx0 : UpdateCtx.t := UpdateCtx.Initialize 0.

(** Stopped in its second frame: the coroutine ends with the code 130. *)
Lemma main_coroutine_gives_exit_code_witness :
  exists d', (let! s := Start (fresh i0) in run_ops [OUpdate ctx0; OStop; OUpdate ctx0] s.2) = Ret d' /\
    pending (io d') = false /\ exitCode (runner d') = Some 130.
Proof.
  destruct (main_coroutine_gives_exit_code i0 [OUpdate ctx0; OStop; OUpdate ctx0])
    as (d' & Hr & He).
  - repeat constructor.
  - repeat constructor; intros; simpl; discriminate.
  - exists d'. split; [exact Hr|exact He].
Defined.

Lemma asio_run_returns_coroutine_code_witness :
  exists d : Domain io_demo, Run tick_clock 5 (fresh i0) = Ret (7, d) /\ cancelled d = true /\
    exitCode (runner d) = Some 7.
Proof.
  apply (asio_run_returns_coroutine_code tick_clock i0 2 7 [Other] [] 5).
  - intros [|[|j]] Hj; [| |lia]; repeat constructor.
  - reflexivity.
  - repeat constructor.
  - constructor.
  - intros h Hh. left. by apply list_elem_of_singleton in Hh.
  - lia.
Defined.

Lemma from_executor_finds_owner_witness :
  FromExecutor 3 {[ 3%nat := Some 8%nat ]} = Some 8%nat.
Proof. by apply (from_executor_finds_owner 3 8 ∅). Defined.

End Demo.
