(* ===== verification/Boot.v ===== *)
(** * Start-up

    [boot/Boot]: the command line ([CliArgs.cpp]), the header logged at start
    ([Boot.LogHeader.cpp], [Build.cpp]), one-time initialisation
    ([Boot.DefaultInit.cpp]) and the handlers for abnormal termination
    ([Boot.SetupAbortHandlers.cpp]). The values of [Build::Info] are generated by
    the build and are parameters, as are the preprocessor's macros. *)

From Stdlib Require Import Ascii.
From stdpp Require Import pretty.
From S2P Require Import Prelude StringView Log.
Local Open Scope Z_scope.

(** ** The command line *)

Module CliArgs.

Inductive errc := invalid_argument | result_out_of_range.

Abbreviation t := (list view).

(** [CliArgs::Contains]. *)
Definition Contains (args : t) (str : view) : bool :=
  existsb (fun arg => bool_decide (arg = str)) args.

Definition digit (c : ascii) : option Z :=
  let n := Z.of_nat (nat_of_ascii c) - 48 in
  if (0 <=? n) && (n <=? 9) then Some n else None.

(** The longest prefix of digits, as their values. *)
Fixpoint digits (s : view) : list Z :=
  match s with
  | [] => []
  | c :: s => match digit c with Some d => d :: digits s | None => [] end
  end.

Definition value (ds : list Z) : Z := foldl (fun v d => 10 * v + d) 0 ds.

Definition int_min : Z := - 2 ^ 31.
Definition int_max : Z := 2 ^ 31 - 1.

(** [std::from_chars] for [int], base ten: an optional minus sign and digits;
    what follows them is left unread. *)
Definition from_chars (s : view) : expected Z errc :=
  let '(neg, s) := match s with
                   | c :: s' => if bool_decide (c = "-"%char) then (true, s') else (false, s)
                   | [] => (false, s)
                   end in
  match digits s with
  | [] => Unexpected invalid_argument
  | ds => let v := if neg : bool then - value ds else value ds in
          if (int_min <=? v) && (v <=? int_max) then Value v else Unexpected result_out_of_range
  end.

(** [CliArgs::GetIntArg]. *)
Definition GetIntArg (args : t) (index : nat) : expected Z errc :=
  match args !! index with
  | None => Unexpected invalid_argument
  | Some arg => from_chars arg
  end.

Lemma Contains_spec args str : Contains args str = true <-> str ∈ args.
Proof.
  unfold Contains. rewrite existsb_exists. split.
  - intros (x & Hin & ->%bool_decide_eq_true). by apply list_elem_of_In.
  - intros Hin. exists str. split; [by apply list_elem_of_In|]. by apply bool_decide_eq_true.
Qed.

(** A decimal digit as a character. *)
Definition digit_char (d : Z) : ascii := ascii_of_nat (Z.to_nat (48 + d)).

Lemma digit_digit_char d : 0 <= d <= 9 -> digit (digit_char d) = Some d.
Proof.
  intros Hd. unfold digit, digit_char. rewrite nat_ascii_embedding by lia.
  replace (Z.of_nat (Z.to_nat (48 + d)) - 48) with d by lia.
  by destruct (Z.leb_spec 0 d), (Z.leb_spec d 9); simpl; try lia.
Qed.

Lemma digits_app ds rest :
  Forall (fun d => 0 <= d <= 9) ds -> digits rest = [] ->
  digits ((digit_char <$> ds) ++ rest) = ds.
Proof.
  intros Hd Hr. induction Hd as [|d ds Hd _ IH]; [done|]. simpl. rewrite digit_digit_char by done.
  f_equal. exact IH.
Qed.

Lemma digit_not_minus d : 0 <= d <= 9 -> digit_char d <> "-"%char.
Proof. intros Hd Heq. pose proof (digit_digit_char d Hd) as H. by rewrite Heq in H. Qed.

(** Every integer argument fits the type [int]. *)
Theorem GetIntArg_in_range args i v :
  GetIntArg args i = Value v -> int_min <= v <= int_max.
Proof.
  unfold GetIntArg. destruct (args !! i) as [s|]; [|done]. unfold from_chars.
  destruct (match s with [] => _ | c :: s' => _ end) as [neg s'].
  destruct (digits s'); [done|].
  destruct (_ && _) eqn:E; [|done]. intros [= <-]. reflect_bools. lia.
Qed.

(** An integer argument: for an argument of the form sign, digits, rest, where
    the rest does not begin with a digit, the result is the number if it fits
    into 32 bits and [result_out_of_range] otherwise; without a digit, and for
    every index past the end, it is [invalid_argument]; no index gives a number
    that does not fit. *)
Theorem GetIntArg_spec args i (neg : bool) ds rest :
  args !! i = Some ((if neg then ["-"%char] else []) ++ (digit_char <$> ds) ++ rest) ->
  Forall (fun d => 0 <= d <= 9) ds -> digits rest = [] ->
  (ds = [] -> neg = false -> forall r, rest <> "-"%char :: r) ->
  let v := if neg then - value ds else value ds in
  GetIntArg args i =
    match ds with
    | [] => Unexpected invalid_argument
    | _ => if decide (int_min <= v <= int_max) then Value v else Unexpected result_out_of_range
    end /\
  (forall j, (length args <= j)%nat -> GetIntArg args j = Unexpected invalid_argument) /\
  (forall j x, GetIntArg args j = Value x -> int_min <= x <= int_max).
Proof.
  intros Hi Hd Hr Hm v. split_and!.
  2: { intros j Hj. unfold GetIntArg. by rewrite lookup_ge_None_2. }
  2: { apply GetIntArg_in_range. }
  unfold GetIntArg. rewrite Hi.
  assert (from_chars ((if neg then ["-"%char] else []) ++ (digit_char <$> ds) ++ rest) =
    match ds with
    | [] => Unexpected invalid_argument
    | _ => if (int_min <=? v) && (v <=? int_max) then Value v else Unexpected result_out_of_range
    end) as ->.
  { subst v. unfold from_chars. destruct neg; simpl.
    - rewrite digits_app by done. by destruct ds.
    - assert (match (digit_char <$> ds) ++ rest with
              | [] => (false, (digit_char <$> ds) ++ rest)
              | c :: s' => if bool_decide (c = "-"%char) then (true, s')
                           else (false, (digit_char <$> ds) ++ rest)
              end = (false, (digit_char <$> ds) ++ rest)) as ->.
      { destruct ds as [|d ds]; simpl.
        - destruct rest as [|c rest]; [done|]. rewrite bool_decide_false; [done|].
          intros ->. by apply (Hm eq_refl eq_refl rest).
        - apply Forall_cons in Hd as [Hd _]. rewrite bool_decide_false; [done|].
          by apply digit_not_minus. }
      rewrite digits_app by done. by destruct ds. }
  destruct ds; [done|].
  destruct (Z.leb_spec int_min v), (Z.leb_spec v int_max); simpl; case_decide; done || lia.
Qed.

(** Text after the number is accepted. *)
Theorem trailing_text_accepted :
  GetIntArg [sv "app"; sv "80x"] 1 = Value 80.
Proof. reflexivity. Qed.

End CliArgs.

(** ** The description of the build *)

Module Description.

(** The preprocessor: a macro that is defined has a value. *)
Section Macros.
Context (macro : string -> option Z).

Definition defined (m : string) : bool := bool_decide (is_Some (macro m)).
Definition number (m : string) : Z := default 0 (macro m).
Definition any (ms : list string) : bool := existsb defined ms.

Definition platform : string :=
  if any ["__wasm__"; "__EMSCRIPTEN__"] then
    "WebAssembly" +:+ (if defined "__EMSCRIPTEN__" then " (Emscripten)" else "")
  else if any ["_WIN32"; "_WIN64"] then
    "Windows" +:+ (if defined "_WIN64" then " (64)" else " (32)")
  else if defined "__ANDROID__" then "Android"
  else if defined "__APPLE__" then "macOS"
  else if defined "__linux__" then "Linux"
  else "<Unknown OS>".

Definition architecture : string :=
  if any ["__arm64__"; "__aarch64__"; "_M_ARM64"] then "ARM64"
  else if any ["__arm__"; "_M_ARM"] then "ARM32"
  else if any ["__x86_64__"; "_M_X64"; "__amd64__"] then "x64"
  else if any ["__i386__"; "_M_IX86"; "__i386"] then "x86"
  else if defined "__riscv" && (number "__riscv_xlen" =? 64) then "RISC-V 64"
  else if defined "__riscv" && (number "__riscv_xlen" =? 32) then "RISC-V 32"
  else "<Unknown Arch>".

Definition version (a b c : string) : string :=
  pretty (number a) +:+ "." +:+ pretty (number b) +:+ "." +:+ pretty (number c).

Definition compiler : string :=
  if defined "__clang__" then
    "Clang " +:+ version "__clang_major__" "__clang_minor__" "__clang_patchlevel__"
  else if defined "__GNUC__" then
    "GCC " +:+ version "__GNUC__" "__GNUC_MINOR__" "__GNUC_PATCHLEVEL__"
  else if defined "_MSC_VER" then "MSVC " +:+ pretty (number "_MSC_VER")
  else "<Unknown Compiler>".

(** The year of a language version. *)
Definition standard_of (v : Z) : string :=
  if 202300 <=? v then "26"
  else if 202002 <=? v then "20"
  else if 201703 <=? v then "17"
  else if 201402 <=? v then "14"
  else if 201103 <=? v then "11"
  else "<Unknown Standard>".

Definition standard : string :=
  standard_of (if defined "_MSC_VER" then number "_MSVC_LANG" else number "__cplusplus").

Definition configuration : string := if defined "NDEBUG" then "Release" else "Debug".

(** [Build::BuildDescription]. *)
Definition BuildDescription : string :=
  platform +:+ " | " +:+ architecture +:+ " | " +:+ compiler +:+ " | C++" +:+ standard +:+
  " | " +:+ configuration.

End Macros.

(** A compiler for C++23 (202302) is described as one for C++26: the thresholds
    have no entry for it. *)
Theorem cpp23_is_described_as_26 macro :
  macro "_MSC_VER"%string = None -> macro "__cplusplus"%string = Some 202302 ->
  standard macro = "26"%string.
Proof. intros H1 H2. unfold standard, defined, number. by rewrite H1, H2. Qed.

End Description.

(** ** The header *)

Module Header.

Record info := mkInfo {
  GitSha : view; GitBranch : view; GitStatus : view;
  BuildUser : view; BuildHost : view; BuildTime : view }.

(** [s.find(c)]. *)
Definition find (c : ascii) (s : view) : option nat := fst <$> list_find (eq c) s.

(** [s.substr(pos, n)] with a 64-bit count: the rest of the string bounds it. *)
Definition substr64 (s : view) (pos : nat) (n : Z) : option view :=
  substr s pos (Z.to_nat (Z.min n (Z.of_nat (length s)))).

(** [GetAppName]. *)
Definition GetAppName (args : CliArgs.t) : option view :=
  match args with
  | [] => Some (sv "<unknown>")
  | path :: _ => base ← GetBasename path; GetWithoutExtension base
  end.

(** The split of the build time: date, time of day and zone, with the unsigned
    subtraction of the source; [Some None] when it has not the form expected. *)
Definition split_time (time : view) : option (option (view * view * view)) :=
  match find "T"%char time, find_last_of (sv "+-") time with
  | Some tPos, Some tzPos =>
      date ← substr time 0 tPos;
      timeOfDay ← substr64 time (tPos + 1) (wrap64 (Z.of_nat tzPos - Z.of_nat tPos - 1));
      timezone ← substr time tzPos (length time);
      Some (Some (date, timeOfDay, timezone))
  | _, _ => Some None
  end.

(** The line with the version; [None] when a [substr] throws. *)
Definition version_line (b : info) : option view :=
  sha7 ← substr (GitSha b) 0 (min 7 (length (GitSha b)));
  parts ← split_time (BuildTime b);
  let mark := if bool_decide (GitStatus b = sv "dirty") then sv "*" else [] in
  let tail := sv " | " ++ GitBranch b ++ sv " " ++ mark ++ sha7 ++ sv " | " ++
              BuildUser b ++ sv "@" ++ BuildHost b in
  Some (sv "Version: " ++
        match parts with
        | Some (date, timeOfDay, timezone) => date ++ sv " " ++ timeOfDay ++ sv " " ++ timezone
        | None => BuildTime b
        end ++ tail).

(** The zone of the start time: the sign, the hours in two digits, and zero
    minutes. *)
Definition two_digits (n : Z) : view :=
  if n <? 10 then CliArgs.digit_char 0 :: sv (pretty n) else sv (pretty n).

Definition runtime_zone (tzOffset : Z) : view :=
  (if 0 <=? tzOffset then sv "+" else sv "-") ++ two_digits (Z.quot (Z.abs tzOffset) 60) ++ sv ":00".

(** [LogHeader]: the lines, without the border they all begin with. The local
    time and the working directory (or the error) come from the system. *)
Definition LogHeader (args : CliArgs.t) (description : view) (b : info)
    (localtime : view) (tzOffset : Z) (directory : expected view view) : option (list view) :=
  appName ← GetAppName args;
  version ← version_line b;
  Some ([sv "App: " ++ appName; sv "Compile: " ++ description; version;
         sv "Runtime: " ++ localtime ++ sv " " ++ runtime_zone tzOffset;
         sv "Directory: " ++ match directory with
                             | Value d => d
                             | Unexpected e => sv "<error: " ++ e ++ sv ">"
                             end;
         sv "Command:"] ++
        imap (fun i arg => sv " [" ++ sv (pretty (N.of_nat i)) ++ sv "] " ++ arg) args).

Lemma find_last_of_lt chars s i : find_last_of chars s = Some i -> (i < length s)%nat.
Proof.
  unfold find_last_of. destruct s as [|c s]; [done|]. intros H.
  apply scan_back_Some in H as (Hi & (d & Hd & _) & _). by apply lookup_lt_Some in Hd.
Qed.

Lemma GetBasename_total path : is_Some (GetBasename path).
Proof.
  unfold GetBasename. destruct (find_last_of _ _) as [i|] eqn:E; [|done].
  apply find_last_of_lt in E. unfold substr. rewrite decide_True by lia. done.
Qed.

Lemma GetWithoutExtension_total path : is_Some (GetWithoutExtension path).
Proof.
  unfold GetWithoutExtension. destruct (find_last_of _ _) as [i|]; [|done].
  unfold substr. by rewrite decide_True by lia.
Qed.

Lemma find_lt c s i : find c s = Some i -> (i < length s)%nat.
Proof.
  unfold find. destruct (list_find (eq c) s) as [[j d]|] eqn:E; [|done]. intros [= <-].
  apply list_find_Some in E as (Hj & _). by apply lookup_lt_Some in Hj.
Qed.

Lemma split_time_total time : is_Some (split_time time).
Proof.
  unfold split_time. destruct (find _ time) as [i|] eqn:Ei; [|done].
  destruct (find_last_of _ time) as [j|] eqn:Ej; [|done].
  apply find_lt in Ei. apply find_last_of_lt in Ej.
  unfold substr64, substr. by rewrite !decide_True by lia.
Qed.

(** The header is logged whatever the arguments and the stamped build values
    are: no [substr] of it goes out of range, so the [noexcept] function never
    terminates the program, and it has one line per argument after six. *)
Theorem LogHeader_total args description b localtime tzOffset directory :
  exists ls, LogHeader args description b localtime tzOffset directory = Some ls /\
    length ls = (6 + length args)%nat.
Proof.
  unfold LogHeader.
  assert (is_Some (GetAppName args)) as [app ->].
  { destruct args as [|p args]; [done|]. simpl. destruct (GetBasename_total p) as [base ->]. simpl.
    apply GetWithoutExtension_total. }
  assert (is_Some (version_line b)) as [v ->].
  { unfold version_line. unfold substr. rewrite decide_True by lia. simpl.
    by destruct (split_time_total (BuildTime b)) as [p ->]. }
  simpl. eexists. split; [done|]. simpl. by rewrite length_imap.
Qed.

Lemma find_split c l r : c ∉ l -> find c (l ++ c :: r) = Some (length l).
Proof.
  intros Hc. unfold find. enough (list_find (eq c) (l ++ c :: r) = Some (length l, c)) as -> by done.
  apply list_find_Some. split_and!; [|done|].
  - rewrite lookup_app_r by lia. by rewrite Nat.sub_diag.
  - intros j y Hj Hlt ->. rewrite lookup_app_l in Hj by done. apply Hc. by eapply list_elem_of_lookup_2.
Qed.

(** A build time with a numeric zone is split into its date, time of day and
    zone, for every date and time of less than 2^64 characters. *)
Theorem split_time_numeric_zone (date tod zone : view) (sign : ascii) :
  "T"%char ∉ date -> sign ∈ sv "+-" -> Forall (fun d => d ∉ sv "+-") zone ->
  Z.of_nat (length tod) < 2 ^ 64 ->
  split_time (date ++ "T"%char :: tod ++ sign :: zone) = Some (Some (date, tod, sign :: zone)).
Proof.
  intros Ht Hs Hz Hlen. unfold split_time. rewrite find_split by done.
  replace (date ++ "T"%char :: tod ++ sign :: zone) with ((date ++ "T"%char :: tod) ++ sign :: zone)
    by (by rewrite <- app_assoc).
  rewrite find_last_of_split by done.
  rewrite length_app. cbn [length].
  replace (Z.of_nat (length date + S (length tod)) - Z.of_nat (length date) - 1)
    with (Z.of_nat (length tod)) by lia.
  rewrite wrap64_small by lia.
  unfold substr64, substr. rewrite !length_app. cbn [length]. rewrite !decide_True by lia. cbn.
  rewrite <- app_assoc. cbn. rewrite Z.min_l by lia. rewrite Nat2Z.id.
  rewrite drop_0, take_app_length, !drop_app_ge by lia.
  replace (length date + 1 - length date)%nat with 1%nat by lia.
  replace (length date + S (length tod) - length date)%nat with (S (length tod)) by lia.
  cbn. rewrite drop_0, take_app_length, drop_app_length, take_ge by (cbn; lia). done.
Qed.

(** A build time in UTC written with a Z is split inside its date. *)
Theorem split_time_utc_wrong :
  split_time (sv "2026-01-26T21:50:00Z") =
    Some (Some (sv "2026-01-26", sv "21:50:00Z", sv "-26T21:50:00Z")).
Proof. vm_compute. reflexivity. Qed.

(** The zone of the start time loses its minutes. *)
Theorem runtime_zone_loses_minutes :
  runtime_zone 330 = runtime_zone 300 /\ runtime_zone 330 = sv "+05:00".
Proof. vm_compute. split; reflexivity. Qed.

End Header.

(** ** Abnormal termination *)

Module Abort.

Inductive terminate_handler := DefaultTerminate | BootTerminate | NullTerminate | OtherTerminate (n : nat).
Inductive disposition := SIG_DFL | BootSigabrt.
Inductive report := TerminateCaptured | SigabrtCaptured.

Record t := mk {
  terminate : terminate_handler;        (** the installed [std::terminate_handler] *)
  prev_terminate : terminate_handler;   (** [_prev_terminate_handler] *)
  sigabrt : disposition;
  reports : list report;                (** written to stderr, each with a stack trace *)
}.

(** At the start of the program. *)
Definition initial (h : terminate_handler) : t := mk h NullTerminate SIG_DFL [].

Section Handlers.
(** Every build but the browser's has signals. *)
Context (signals : bool).

Definition SetupAbortHandlers (s : t) : t :=
  mk BootTerminate (terminate s) (if signals then BootSigabrt else sigabrt s) (reports s).

Definition RestoreAbortHandlers (s : t) : t :=
  mk (prev_terminate s) NullTerminate (if signals then SIG_DFL else sigabrt s) (reports s).

Definition write (r : report) (s : t) : t :=
  mk (terminate s) (prev_terminate s) (sigabrt s) (reports s ++ [r]).

(** [std::abort]: raises SIGABRT; with the default disposition the process is
    gone, and its reports are the result. *)
Fixpoint abort (fuel : nat) (s : t) : option (list report) :=
  match fuel with
  | O => None
  | S fuel =>
      match sigabrt s with
      | SIG_DFL => Some (reports s)
      | BootSigabrt => abort fuel (RestoreAbortHandlers (write SigabrtCaptured s))
      end
  end.

(** [std::terminate]; another handler is assumed to end in [abort]. *)
Definition std_terminate (fuel : nat) (s : t) : option (list report) :=
  match terminate s with
  | BootTerminate => abort fuel (RestoreAbortHandlers (write TerminateCaptured s))
  | _ => abort fuel s
  end.

Definition setups (n : nat) (s : t) : t := Nat.iter n SetupAbortHandlers s.

Lemma setups_shape n h :
  let s := setups (S n) (initial h) in
  terminate s = BootTerminate /\ reports s = [] /\
  sigabrt s = (if signals then BootSigabrt else SIG_DFL).
Proof.
  assert (reports (setups n (initial h)) = [] /\
    (signals = false -> sigabrt (setups n (initial h)) = SIG_DFL)) as [Hr Hs].
  { induction n as [|n [IHr IHs]]; [done|]. split; [exact IHr|]. intros Hf. simpl.
    rewrite Hf. by apply IHs. }
  split_and!; [done|exact Hr|]. simpl. destruct signals; [done|]. by apply Hs.
Qed.

(** However often the handlers are set up, an abort or a call of
    [std::terminate] ends the process, with exactly one report: the handlers are
    removed before [abort] is called again, so they do not run each other. In
    the browser an abort is not captured. *)
Theorem one_report_and_exit n h fuel :
  (2 <= fuel)%nat ->
  let s := setups (S n) (initial h) in
  abort fuel s = Some (if signals then [SigabrtCaptured] else []) /\
  std_terminate fuel s = Some [TerminateCaptured].
Proof.
  intros Hf s. destruct (setups_shape n h) as (Ht & Hr & Hs). fold s in Ht, Hr, Hs. clearbody s.
  destruct fuel as [|[|fuel]]; [lia|lia|]. unfold std_terminate. rewrite Ht. simpl.
  rewrite Hs, Hr. by destruct signals.
Qed.

End Handlers.

End Abort.

(** ** DefaultInit *)

Module Init.

Record t := mk {
  inited : bool;
  args : CliArgs.t;
  headers : list CliArgs.t;    (** the headers logged *)
  handlers : Abort.t;
}.

Definition initial (h : Abort.terminate_handler) : t := mk false [] [] (Abort.initial h).

Section Init.
Context (signals : bool).

Definition DefaultInit (argv : CliArgs.t) (s : t) : CliArgs.t * t :=
  if inited s then (args s, s) else
  (argv, mk true argv (headers s ++ [argv]) (Abort.SetupAbortHandlers signals (handlers s))).

(** Further calls, each with arguments of its own. *)
Definition inits (l : list CliArgs.t) (s : t) : t := foldl (fun s a => (DefaultInit a s).2) s l.

(** Initialisation takes effect once: whatever arguments later calls pass,
    every call returns those of the first, one header is logged, and restoring
    the handlers brings back the terminate handler of the start and the default
    disposition. *)
Theorem init_once h argv l argv' :
  let s := inits l (DefaultInit argv (initial h)).2 in
  (DefaultInit argv' s).1 = argv /\ (DefaultInit argv' s).2 = s /\ headers s = [argv] /\
  Abort.terminate (Abort.RestoreAbortHandlers signals (handlers s)) = h /\
  Abort.sigabrt (Abort.RestoreAbortHandlers signals (handlers s)) = Abort.SIG_DFL.
Proof.
  assert (forall l s, inited s = true -> inits l s = s) as H.
  { intros l'. induction l' as [|a l' IH]; intros s Hs; [done|]. simpl.
    unfold DefaultInit at 1. rewrite Hs. by apply IH. }
  cbv zeta. rewrite H by done. simpl. by destruct signals.
Qed.

End Init.

End Init.

(** ** Witnesses *)

Module Demo.

Lemma GetIntArg_spec_witness :
  CliArgs.GetIntArg [sv "app"; sv "-42 "] 1 = Value (-42) /\
  CliArgs.GetIntArg [sv "app"; sv "-42 "] 5 = Unexpected CliArgs.invalid_argument.
Proof.
  destruct (CliArgs.GetIntArg_spec [sv "app"; sv "-42 "] 1 true [4; 2] (sv " ")) as (H1 & H2 & _);
    [reflexivity|repeat constructor; lia|reflexivity|discriminate|]. split; [exact H1|apply H2; simpl; lia].
Defined.

Lemma GetIntArg_in_range_witness : CliArgs.int_min <= 80 <= CliArgs.int_max.
Proof. apply (CliArgs.GetIntArg_in_range [sv "80x"] 0). reflexivity. Defined.

Lemma split_time_numeric_zone_witness :
  Header.split_time (sv "2026-01-26T21:50:00+01:00") =
    Some (Some (sv "2026-01-26", sv "21:50:00", sv "+01:00")).
Proof.
  apply (Header.split_time_numeric_zone (sv "2026-01-26") (sv "21:50:00") (sv "01:00") "+"%char).
  - vm_compute. set_solver.
  - vm_compute. set_solver.
  - vm_compute. repeat constructor; set_solver.
  - reflexivity.
Defined.

Lemma one_report_and_exit_witness :
  Abort.abort true 2 (Abort.setups true 2 (Abort.initial Abort.DefaultTerminate)) =
    Some [Abort.SigabrtCaptured] /\
  Abort.std_terminate true 2 (Abort.setups true 2 (Abort.initial Abort.DefaultTerminate)) =
    Some [Abort.TerminateCaptured].
Proof. apply (Abort.one_report_and_exit true 1 Abort.DefaultTerminate 2). lia. Defined.

Lemma cpp23_is_described_as_26_witness :
  Description.standard (fun m => if String.eqb m "__cplusplus" then Some 202302 else None) = "26"%string.
Proof. apply Description.cpp23_is_described_as_26; reflexivity. Defined.

End Demo.
