(* ===== verification/RunTask.v ===== *)
(** * RunTask: the environment of coroutine tasks

    [exec/Exec/RunTask.h]: a [RunTask] takes the concrete scheduler and the stop
    token of the promise that awaits it. What the compiler accepts is decided by
    constraints on the environment of the parent; they are written here as
    functions that may fail, so that a program of nested tasks is accepted or
    refused as a whole, and what its tasks see when it runs can be compared with
    the environment of the domain that runs it ([DomainReceiver::get_env] in
    [Domain.h]). [exec::task] is a parameter. *)

From S2P Require Import Prelude.

(** A scheduler in an environment: the concrete [RunContext::Scheduler] (by its
    context), or one whose type is erased. *)
Inductive scheduler := Concrete (ctx : nat) | AnyScheduler (ctx : nat).

(** A stop token: [inplace_stop_token] of a source (or default-initialised, which
    never fires), [unstoppable_token], or another type. *)
Inductive token := Inplace (src : option nat) | Unstoppable | OtherToken.

(** An environment answers a query or does not support it. *)
Record env := mkEnv {
  get_scheduler : option scheduler;
  get_stop_token : option token;
}.

(** [DomainReceiver::get_env]. *)
Definition domain_env (ctx src : nat) : env :=
  mkEnv (Some (Concrete ctx)) (Some (Inplace (Some src))).

(** ** RunTaskCtx *)

Record RunTaskCtx := mkCtx { _scheduler : nat; _stopToken : option nat }.

(** The constructor from the parent's promise, with its constraint: a scheduler
    convertible to the concrete type. *)
Definition RunTaskCtx_ctor (parent : env) : option RunTaskCtx :=
  match get_scheduler parent with
  | Some (Concrete c) => Some (mkCtx c None)
  | _ => None
  end.

(** The two [query] members. *)
Definition RunTaskCtx_env (c : RunTaskCtx) : env :=
  mkEnv (Some (Concrete (_scheduler c))) (Some (Inplace (_stopToken c))).

(** [stop_requested], given the sources on which a stop was requested. *)
Definition stop_requested (requested : gset nat) (c : RunTaskCtx) : bool :=
  match _stopToken c with Some s => bool_decide (s ∈ requested) | None => false end.

Definition set_scheduler (ctx : nat) (c : RunTaskCtx) : RunTaskCtx := mkCtx ctx (_stopToken c).

(** [RunAwaiterCtx]: copies an in-place token, leaves the default for a parent
    without or with an unstoppable one, and refuses any other type. *)
Definition RunAwaiterCtx (self : RunTaskCtx) (parent : env) : option RunTaskCtx :=
  match get_stop_token parent with
  | None => Some self
  | Some (Inplace s) => Some (mkCtx (_scheduler self) s)
  | Some Unstoppable => Some self
  | Some OtherToken => None
  end.

(** Awaiting a [RunTask]: [None] is a program that does not compile. *)
Definition await_RunTask (parent : env) : option RunTaskCtx :=
  c ← RunTaskCtx_ctor parent; RunAwaiterCtx c parent.

(** ** Programs of tasks *)

(** A task awaits tasks, reschedules itself on another context of the same type,
    or looks at its environment. *)
Inductive item :=
| Await (run_task : bool) (body : list item)     (** a [RunTask] or an [exec::task] *)
| Reschedule (ctx : nat)
| Observe.

Section Programs.
(** The environment inside an [exec::task] awaited from a given one. *)
Context (exec_task_env : env -> env).

(** What the [RunTask]s among the tasks of a body observe, in order; [None] when
    it does not compile. [task] is the context of the task the body belongs to,
    none inside an [exec::task], whose environment is fixed. *)
Fixpoint observe_item (i : item) (e : env) (task : option RunTaskCtx)
    : option (list env * env * option RunTaskCtx) :=
  let fix observe_body (l : list item) (e : env) (task : option RunTaskCtx) : option (list env) :=
    match l with
    | [] => Some []
    | i :: l =>
        '(o, e', task') ← observe_item i e task;
        os ← observe_body l e' task';
        Some (o ++ os)
    end in
  match i with
  | Observe => Some (match task with Some _ => [e] | None => [] end, e, task)
  | Reschedule ctx =>
      match task with
      | Some c => let c' := set_scheduler ctx c in Some ([], RunTaskCtx_env c', Some c')
      | None => Some ([], e, None)
      end
  | Await true body =>
      c ← await_RunTask e;
      os ← observe_body body (RunTaskCtx_env c) (Some c);
      Some (os, e, task)
  | Await false body =>
      os ← observe_body body (exec_task_env e) None;
      Some (os, e, task)
  end.

Fixpoint observe (l : list item) (e : env) (task : option RunTaskCtx) : option (list env) :=
  match l with
  | [] => Some []
  | i :: l =>
      '(o, e', task') ← observe_item i e task;
      os ← observe l e' task';
      Some (o ++ os)
  end.

(** Documented of [exec::task]: its scheduler is erased. *)
Class ErasesScheduler : Prop :=
  exec_task_erases : forall e c, get_scheduler (exec_task_env e) <> Some (Concrete c).

Lemma observe_item_await_run body e task :
  observe_item (Await true body) e task =
    (c ← await_RunTask e; os ← observe body (RunTaskCtx_env c) (Some c); Some (os, e, task)).
Proof. reflexivity. Qed.

Lemma observe_item_await_exec body e task :
  observe_item (Await false body) e task =
    (os ← observe body (exec_task_env e) None; Some (os, e, task)).
Proof. reflexivity. Qed.

Lemma item_ind' (P : item -> Prop) :
  (forall b body, Forall P body -> P (Await b body)) ->
  (forall c, P (Reschedule c)) -> P Observe -> forall i, P i.
Proof.
  intros Ha Hr Ho. fix IH 1. intros [b body|c|]; [|apply Hr|apply Ho].
  apply Ha. induction body as [|i body IHb]; constructor; [apply IH|exact IHb].
Qed.

(** Occurrences in a program. *)
Fixpoint has_run_task (i : item) : bool :=
  match i with
  | Await r body => r || existsb has_run_task body
  | _ => false
  end.

(** No [RunTask] below an [exec::task]. *)
Fixpoint well_nested (i : item) : bool :=
  match i with
  | Await true body => forallb well_nested body
  | Await false body => negb (existsb has_run_task body)
  | _ => true
  end.

(** *** Acceptance *)

Definition erased (e : env) : Prop := forall c, get_scheduler e <> Some (Concrete c).

(** In an erased environment a body compiles if it has no [RunTask]. *)
Lemma exec_body_of_items e l :
  (forall i, i ∈ l -> observe_item i e None = if has_run_task i then None else Some ([], e, None)) ->
  observe l e None = if existsb has_run_task l then None else Some [].
Proof.
  induction l as [|i l IH]; intros Hi; [done|]. simpl. rewrite Hi by left.
  destruct (has_run_task i); simpl; [done|]. rewrite IH; [by destruct (existsb _ l)|].
  intros j Hj. apply Hi. by right.
Qed.

Lemma exec_item `{!ErasesScheduler} i e :
  erased e -> observe_item i e None = if has_run_task i then None else Some ([], e, None).
Proof.
  revert e. induction i as [b body IH|c|] using item_ind'; intros e He; [|done|done]. destruct b.
  - rewrite observe_item_await_run. unfold await_RunTask, RunTaskCtx_ctor.
    destruct (get_scheduler e) as [[c|c]|] eqn:E; [by destruct (He c)|done|done].
  - rewrite observe_item_await_exec, exec_body_of_items; [by simpl; destruct (existsb _ body)|].
    intros i Hi. rewrite Forall_forall in IH. apply IH; [done|]. intros c. apply exec_task_erases.
Qed.

Lemma exec_body `{!ErasesScheduler} l e :
  erased e -> observe l e None = if existsb has_run_task l then None else Some [].
Proof. intros He. apply exec_body_of_items. intros i _. by apply exec_item. Qed.

(** The contexts that the observers among the [RunTask]s of a piece are to see,
    in order, and the context of its task afterwards: the one of the last
    rescheduling before them in their own task, else the one with which their
    task was awaited. *)
Fixpoint seen_item (i : item) (ctx : nat) : list nat * nat :=
  let fix seen_body (l : list item) (ctx : nat) : list nat :=
    match l with
    | [] => []
    | i :: l => let '(o, ctx') := seen_item i ctx in o ++ seen_body l ctx'
    end in
  match i with
  | Observe => ([ctx], ctx)
  | Reschedule ctx' => ([], ctx')
  | Await true body => (seen_body body ctx, ctx)
  | Await false _ => ([], ctx)
  end.

Fixpoint seen (l : list item) (ctx : nat) : list nat :=
  match l with
  | [] => []
  | i :: l => let '(o, ctx') := seen_item i ctx in o ++ seen l ctx'
  end.

Lemma seen_await body ctx : seen_item (Await true body) ctx = (seen body ctx, ctx).
Proof. reflexivity. Qed.

Definition with_token (t : option nat) (ctx : nat) : env := RunTaskCtx_env (mkCtx ctx t).

Definition item_ok (i : item) : Prop := forall ctx t,
  observe_item i (with_token t ctx) (Some (mkCtx ctx t)) =
    if well_nested i
    then Some (with_token t <$> (seen_item i ctx).1, with_token t (seen_item i ctx).2, Some (mkCtx (seen_item i ctx).2 t))
    else None.

Lemma run_body_of_items l ctx t :
  Forall item_ok l ->
  observe l (with_token t ctx) (Some (mkCtx ctx t)) =
    if forallb well_nested l then Some (with_token t <$> seen l ctx) else None.
Proof.
  intros Hl. revert ctx. induction Hl as [|i l Hi _ IH]; intros ctx; [done|]. cbn [observe seen forallb]. rewrite (Hi ctx t).
  destruct (well_nested i); [|done]. destruct (seen_item i ctx) as [o ctx']. cbn. rewrite IH.
  destruct (forallb well_nested l); [|done]. cbn. by rewrite fmap_app.
Qed.

Lemma await_own_env c : await_RunTask (RunTaskCtx_env c) = Some c.
Proof. by destruct c. Qed.

Lemma run_item `{!ErasesScheduler} i : item_ok i.
Proof.
  induction i as [b body IH|ctx'|] using item_ind'; intros ctx t; [|done|done]. destruct b.
  - rewrite observe_item_await_run, seen_await. change (await_RunTask (with_token t ctx)) with (Some (mkCtx ctx t)).
    cbn [mbind option_bind well_nested]. fold (with_token t ctx). rewrite run_body_of_items by done. by destruct (forallb well_nested body).
  - rewrite observe_item_await_exec, exec_body by (intros ?; apply exec_task_erases). cbn.
    by destruct (existsb has_run_task body).
Qed.

(** C19: a program of tasks given to a domain compiles exactly when no [RunTask] is
    awaited below an [exec::task]; if it compiles, every [RunTask] in it, however
    deep and whatever its siblings do, has the domain's stop token, so it sees a
    stop of the domain and only that, and the scheduler of the last rescheduling
    before that point in its own task or, if there is none, the one with which
    its task was awaited, which at the top is the domain's. *)
Theorem run_tasks_see_domain `{!ErasesScheduler} ctx src l :
  observe [Await true l] (domain_env ctx src) None =
    if forallb well_nested l then Some ((fun s => domain_env s src) <$> seen l ctx) else None.
Proof.
  change (domain_env ctx src) with (RunTaskCtx_env (mkCtx ctx (Some src))).
  cbn [observe]. rewrite observe_item_await_run, await_own_env. cbn [mbind option_bind].
  fold (with_token (Some src) ctx). rewrite run_body_of_items by (apply Forall_forall; intros i _; apply run_item).
  destruct (forallb well_nested l); [|done]. cbn. by rewrite app_nil_r.
Qed.

(** A token copied from the domain fires when the domain requests the stop; one
    that was left default-initialised never does. *)
Theorem task_sees_stop parent c requested :
  await_RunTask parent = Some c ->
  stop_requested requested c =
    match get_stop_token parent with
    | Some (Inplace (Some s)) => bool_decide (s ∈ requested)
    | _ => false
    end.
Proof.
  unfold await_RunTask, RunTaskCtx_ctor, RunAwaiterCtx.
  destruct (get_scheduler parent) as [[k|k]|]; [|done|done]. simpl.
  destruct (get_stop_token parent) as [[[s|]| |]|]; intros [= <-]; done.
Qed.

End Programs.

Module Demo.

(** [exec::task] erases the scheduler and keeps the token. *)
Definition erase (e : env) : env :=
  mkEnv (match get_scheduler e with
         | Some (Concrete c) => Some (AnyScheduler c)
         | s => s
         end) (get_stop_token e).

#[export] Instance erase_erases : ErasesScheduler erase.
Proof. intros [[[c|c]|] t] c'; done. Qed.

(** A child that reschedules itself changes nothing for its parent and siblings;
    a parent that does, for the children it awaits afterwards. *)
Definition program : list item :=
  [Observe; Await true [Reschedule 7; Observe; Await true [Observe]]; Await true [Observe];
   Await false [Observe]; Reschedule 5; Await true [Observe]].

Lemma run_tasks_see_domain_witness :
  observe erase [Await true program] (domain_env 1 2) None =
    Some [domain_env 1 2; domain_env 7 2; domain_env 7 2; domain_env 1 2; domain_env 5 2].
Proof. exact (run_tasks_see_domain erase 1 2 program). Defined.

(** A [RunTask] inside an [exec::task] is refused. *)
Example refused :
  observe erase [Await true [Await false [Await true [Observe]]]] (domain_env 1 2) None = None.
Proof. reflexivity. Qed.

Lemma task_sees_stop_witness :
  stop_requested {[ 2 ]} (mkCtx 1 (Some 2)) = true.
Proof. rewrite (task_sees_stop (domain_env 1 2) (mkCtx 1 (Some 2)) {[ 2 ]}) by reflexivity. reflexivity. Defined.

End Demo.
