(* ===== verification/LogTime.v ===== *)
(** * Durations for people

    [src/pkg/log/Log/Time.cpp] and [Time.h]: a duration as text in a small buffer.
    The code divides in double precision and prints with three significant
    digits; both are modelled exactly: a double is a rational number whose
    significand has 53 bits, and the conversions round it as IEEE 754 and
    [std::format] prescribe (to nearest, ties to even). *)

From Stdlib Require Import Strings.Ascii.
From S2P Require Import Prelude StringView.

Open Scope Z_scope.

(** ** Rounding *)

(** [n / d], rounded to the nearest integer, ties to even. *)
Definition round_half_even (n d : Z) : Z :=
  let q := n / d in
  match (2 * (n mod d) ?= d) with
  | Lt => q
  | Gt => q + 1
  | Eq => if Z.even q then q else q + 1
  end.

(** A positive double, as numerator and denominator. *)
Record double := mkDouble { num : Z; den : Z }.

(** The double nearest to [n / d], for positive [n] and [d] in the normal
    range: the significand is scaled to at least 2^52 and rounded. *)
Definition scaled (n d e : Z) : Z * Z := (n * 2 ^ Z.max 0 (- e), d * 2 ^ Z.max 0 e).

Definition exponent (n d : Z) : Z :=
  let e := Z.log2 n - Z.log2 d - 52 in
  let '(a, b) := scaled n d e in if a <? 2 ^ 52 * b then e - 1 else e.

Definition nearest (n d : Z) : double :=
  let e := exponent n d in
  let '(a, b) := scaled n d e in
  mkDouble (round_half_even a b * 2 ^ Z.max 0 e) (2 ^ Z.max 0 (- e)).

(** [static_cast<double>(us)] and the division by an integral constant. *)
Definition to_double (us : Z) : double := nearest us 1.
Definition div (x : double) (c : Z) : double := nearest (num x) (den x * c).

Definition at_least (x : double) (c : Z) : bool := c * den x <=? num x.

(** ** Text *)

Definition digit_char (d : Z) : ascii := ascii_of_nat (Z.to_nat (48 + d)).

Fixpoint dec_loop (fuel : nat) (n : Z) (acc : view) : view :=
  let acc' := digit_char (n mod 10) :: acc in
  match fuel with
  | O => acc'
  | S fuel' => if n <? 10 then acc' else dec_loop fuel' (n / 10) acc'
  end.

(** The decimal digits of [n >= 0]. *)
Definition dec (n : Z) : view := dec_loop (Z.to_nat (Z.log2 n)) n [].

(** ["{}"] for an integer. *)
Definition integer (n : Z) : view := if n <? 0 then "-"%char :: dec (- n) else dec n.

(** A number with [p] decimal places: [value / 10^p]. *)
Record decimal := mkDecimal { value : Z; places : nat }.

(** ["{:.0f}"]. *)
Definition fixed0 (x : double) : decimal := mkDecimal (round_half_even (num x) (den x)) 0.

(** ["{:.3g}"] for [1 <= x < 1000]: three significant digits. The decimal
    exponent is that of the rounded number. *)
Definition round_to (x : double) (p : nat) : Z := round_half_even (num x * 10 ^ Z.of_nat p) (den x).
Definition general3 (x : double) : decimal :=
  let p := if at_least x 100 then 0%nat else if at_least x 10 then 1%nat else 2%nat in
  let p := if 1000 <=? round_to x p then pred p else p in
  mkDecimal (round_to x p) p.

(** Trailing zeros of the fraction are not printed. *)
Fixpoint strip (d : decimal) (p : nat) : decimal :=
  match p with
  | O => mkDecimal (value d) 0
  | S p' => if value d mod 10 =? 0 then strip (mkDecimal (value d / 10) p') p' else mkDecimal (value d) p
  end.

(** The last [n] digits, with leading zeros. *)
Fixpoint fraction (n : nat) (v : Z) : view :=
  match n with O => [] | S n' => fraction n' (v / 10) ++ [digit_char (v mod 10)] end.

Definition print (d : decimal) : view :=
  match places d with
  | O => dec (value d)
  | p => dec (value d / 10 ^ Z.of_nat p) ++ "."%char :: fraction p (value d)
  end.

(** ** The functions *)

Inductive unit_ := Seconds | Milliseconds.
Definition micros (u : unit_) : Z := match u with Seconds => 1000000 | Milliseconds => 1000 end.
Definition unit_name (u : unit_) : view := sv match u with Seconds => "sec" | Milliseconds => "ms" end.

(** The number that is printed for at least a millisecond. *)
Definition shown (us : Z) (u : unit_) : decimal :=
  let x := div (to_double us) (micros u) in
  if at_least x 100 then fixed0 x else strip (general3 x) (places (general3 x)).

(** ["µs"], as UTF-8. *)
Definition mu_s : view := [ascii_of_nat 194; ascii_of_nat 181; "s"%char].

(** The text, before it is cut to the buffer. *)
Definition text (us : Z) : view :=
  if 1000000 <=? us then print (shown us Seconds) ++ " "%char :: unit_name Seconds
  else if 1000 <=? us then print (shown us Milliseconds) ++ " "%char :: unit_name Milliseconds
  else integer us ++ " "%char :: mu_s.

(** [GetHumanReadableMicroseconds]: [std::format_to_n] writes at most the size
    of the buffer. *)
Definition GetHumanReadableMicroseconds (us : Z) (size : nat) : view := take size (text us).

(** [GetHumanReadableDuration] for a period of [per] ticks a second:
    [duration_cast] truncates towards zero. *)
Definition GetHumanReadableDuration (count per : Z) (size : nat) : view :=
  GetHumanReadableMicroseconds (Z.quot (count * 1000000) per) size.

(** [HumanReadableBuffer]. *)
Definition buffer_size : nat := 16.

Definition str (v : view) : string := String.string_of_list_ascii v.

Example texts :
  (fun us => str (GetHumanReadableMicroseconds us buffer_size)) <$>
    [0; 7; 999; 1000; 1234; 10050; 99949; 99950; 100500; 999500; 1000000; 1500000; 12345678; 99950000; 3600000000] =
  ["0 µs"; "7 µs"; "999 µs"; "1 ms"; "1.23 ms"; "10.1 ms"; "99.9 ms"; "100 ms"; "100 ms"; "1000 ms"; "1 sec"; "1.5 sec";
   "12.3 sec"; "100 sec"; "3600 sec"].
Proof. vm_compute. reflexivity. Qed.

(** ** Rounding errors *)

Lemma round_error n d : 0 < d -> 2 * Z.abs (round_half_even n d * d - n) <= d.
Proof.
  intros Hd. unfold round_half_even.
  pose proof (Z.div_mod n d ltac:(lia)) as E. pose proof (Z.mod_pos_bound n d Hd) as B.
  assert (Hq : n / d * d = n - n mod d) by lia.
  assert (Hq1 : (n / d + 1) * d = n - n mod d + d) by lia.
  destruct (Z.compare_spec (2 * (n mod d)) d); [destruct (Z.even (n / d))| |]; rewrite ?Hq, ?Hq1; lia.
Qed.

Lemma round_pos n d : 0 < d -> d <= n -> 1 <= round_half_even n d.
Proof. intros Hd Hn. pose proof (round_error n d Hd). nia. Qed.

Lemma pow2_pos e : 0 < 2 ^ Z.max 0 e.
Proof. apply Z.pow_pos_nonneg; lia. Qed.

(** The scaled significand has at least 53 bits. *)
Lemma scaled_large n d :
  0 < n -> 0 < d -> let '(a, b) := scaled n d (exponent n d) in 0 < b /\ 2 ^ 52 * b <= a.
Proof.
  intros Hn Hd. unfold exponent. set (e := Z.log2 n - Z.log2 d - 52).
  pose proof (Z.log2_spec n Hn) as [Ln _]. pose proof (Z.log2_spec d Hd) as [_ Ld].
  pose proof (Z.log2_nonneg n). pose proof (Z.log2_nonneg d).
  assert (Hlow : 2 ^ 51 * (d * 2 ^ Z.max 0 e) <= n * 2 ^ Z.max 0 (- e)).
  { transitivity (2 ^ 51 * (2 ^ Z.succ (Z.log2 d) * 2 ^ Z.max 0 e)).
    - apply Z.mul_le_mono_nonneg_l; [lia|]. apply Z.mul_le_mono_nonneg_r; [|lia]. pose proof (pow2_pos e). lia.
    - rewrite <- !Z.pow_add_r by lia. transitivity (2 ^ (Z.log2 n + Z.max 0 (- e))).
      + apply Z.pow_le_mono_r; lia.
      + rewrite Z.pow_add_r by lia. apply Z.mul_le_mono_nonneg_r; [|lia]. pose proof (pow2_pos (- e)). lia. }
  unfold scaled. cbn zeta. destruct (Z.ltb_spec (n * 2 ^ Z.max 0 (- e)) (2 ^ 52 * (d * 2 ^ Z.max 0 e))) as [Hlt|Hge].
  - split; [pose proof (pow2_pos (e - 1)); nia|].
    destruct (Z.leb_spec e 0).
    + replace (Z.max 0 (e - 1)) with 0 by lia. replace (Z.max 0 e) with 0 in Hlow by lia.
      replace (Z.max 0 (- (e - 1))) with (1 + Z.max 0 (- e)) by lia. rewrite Z.pow_add_r by lia. lia.
    + replace (Z.max 0 (- (e - 1))) with 0 by lia. replace (Z.max 0 (- e)) with 0 in Hlow by lia.
      replace (Z.max 0 e) with (1 + Z.max 0 (e - 1)) in Hlow by lia. rewrite Z.pow_add_r in Hlow by lia. lia.
  - split; [pose proof (pow2_pos e); nia|done].
Qed.

(** A rounded quotient is within half a unit of its last bit. *)
Lemma nearest_error n d :
  0 < n -> 0 < d ->
  let x := nearest n d in
  0 < num x /\ 0 < den x /\ 2 ^ 53 * Z.abs (num x * d - n * den x) <= n * den x.
Proof.
  intros Hn Hd. pose proof (scaled_large n d Hn Hd) as HL. unfold nearest.
  set (e := exponent n d) in *. unfold scaled in *. cbn [num den].
  set (P := 2 ^ Z.max 0 e) in *. set (Q := 2 ^ Z.max 0 (- e)) in *.
  assert (0 < P) by apply pow2_pos. assert (0 < Q) by apply pow2_pos. destruct HL as [Hb HL].
  pose proof (round_error (n * Q) (d * P) Hb) as HR. pose proof (round_pos (n * Q) (d * P) Hb ltac:(lia)).
  set (m := round_half_even (n * Q) (d * P)) in *. split_and!; [nia|done|].
  replace (m * P * d - n * Q) with (m * (d * P) - n * Q) by ring. lia.
Qed.

(** The quotient of the source, after two roundings. *)
Lemma quotient_error us c :
  0 < us -> 0 < c ->
  let x := div (to_double us) c in
  0 < num x /\ 0 < den x /\ 2 ^ 51 * Z.abs (num x * c - us * den x) <= us * den x.
Proof.
  intros Hu Hc. unfold div, to_double.
  pose proof (nearest_error us 1 Hu ltac:(lia)) as (P1 & Q1 & E1). set (y := nearest us 1) in *. cbn zeta in *.
  pose proof (nearest_error (num y) (den y * c) P1 ltac:(nia)) as (P2 & Q2 & E2).
  set (x := nearest (num y) (den y * c)) in *. split_and!; [done|done|].
  rewrite Z.mul_1_r in E1.
  assert (Ha : num y <= 2 * (us * den y)) by lia.
  set (A := num x * (den y * c) - num y * den x) in *. set (B := num y - us * den y) in *.
  assert (HA : A + B * den x = (num x * c - us * den x) * den y) by (unfold A, B; ring).
  assert (HB : 2 ^ 53 * Z.abs (B * den x) <= us * den y * den x).
  { rewrite Z.abs_mul, (Z.abs_eq (den x)) by lia. nia. }
  assert (HA' : 2 ^ 53 * Z.abs A <= 2 * (us * den y * den x)) by nia.
  assert (Hs : 2 ^ 53 * Z.abs ((num x * c - us * den x) * den y) <= 3 * (us * den y * den x)) by (rewrite <- HA; lia).
  rewrite Z.abs_mul, (Z.abs_eq (den y)) in Hs by lia.
  assert (2 ^ 53 * Z.abs (num x * c - us * den x) <= 3 * (us * den x)); [|lia].
  apply (Z.mul_le_mono_pos_r _ _ (den y)); [done|]. lia.
Qed.

(** ** Three significant digits *)

(** A number that is rounded at or above 99.95 units is within 1/199. *)
Lemma rounded_error us c p x :
  0 < us -> 0 < c -> x = div (to_double us) c ->
  1999 * den x <= 20 * (num x * 10 ^ Z.of_nat p) ->
  199 * Z.abs (round_to x p * c - us * 10 ^ Z.of_nat p) <= us * 10 ^ Z.of_nat p.
Proof.
  intros Hu Hc -> Hlow. pose proof (quotient_error us c Hu Hc) as (PX & PD & E).
  set (x := div (to_double us) c) in *. unfold round_to. set (T := 10 ^ Z.of_nat p) in *.
  assert (0 < T) by (apply Z.pow_pos_nonneg; lia).
  pose proof (round_error (num x * T) (den x) PD) as R. set (V := round_half_even _ _) in *.
  set (X := num x) in *. set (D := den x) in *.
  assert (R' : 1999 * Z.abs (V * D - X * T) <= 10 * (X * T)) by lia.
  assert (E' : 2 ^ 51 * Z.abs ((X * c - us * D) * T) <= us * D * T).
  { rewrite Z.abs_mul, (Z.abs_eq T) by lia. nia. }
  assert (Rc : 1999 * Z.abs ((V * D - X * T) * c) <= 10 * (X * c * T)).
  { rewrite Z.abs_mul, (Z.abs_eq c) by lia. nia. }
  assert (S : (V * D - X * T) * c + (X * c - us * D) * T = (V * c - us * T) * D) by ring.
  assert (U : X * c * T = us * D * T + (X * c - us * D) * T) by ring.
  assert (F : 199 * Z.abs ((V * c - us * T) * D) <= us * T * D) by lia.
  rewrite Z.abs_mul, (Z.abs_eq D) in F by lia. apply (Z.mul_le_mono_pos_r _ _ D); [done|]. lia.
Qed.

Lemma at_least_spec x c : at_least x c = true <-> c * den x <= num x.
Proof. unfold at_least. apply Z.leb_le. Qed.

Lemma at_least_not x c : at_least x c = false <-> num x < c * den x.
Proof. unfold at_least. apply Z.leb_gt. Qed.

(** The quotient of a duration of at least a unit is at least 1, nearly. *)
Lemma quotient_low us c : 0 < c -> c <= us -> let x := div (to_double us) c in 1999 * den x <= 2000 * num x.
Proof.
  intros Hc Hu. pose proof (quotient_error us c ltac:(lia) Hc) as (PX & PD & E). cbn zeta in *.
  set (x := div (to_double us) c) in *.
  apply (Z.mul_le_mono_pos_r _ _ c); [done|]. nia.
Qed.

Lemma quotient_high us c k : 0 < us -> 0 < c -> us <= k * c -> let x := div (to_double us) c in 1000 * num x <= 1001 * (k * den x).
Proof.
  intros Hu Hc Hk. pose proof (quotient_error us c Hu Hc) as (PX & PD & E). cbn zeta in *.
  set (x := div (to_double us) c) in *.
  apply (Z.mul_le_mono_pos_r _ _ c); [done|]. nia.
Qed.

Lemma round_le n d k : 0 < d -> n <= k * d -> round_half_even n d <= k.
Proof. intros Hd Hn. pose proof (round_error n d Hd). nia. Qed.

Lemma round_ge n d k : 0 < d -> k * d <= n -> k <= round_half_even n d.
Proof. intros Hd Hn. pose proof (round_error n d Hd). nia. Qed.

#[local] Ltac pows :=
  change (10 ^ Z.of_nat 0) with 1 in *; change (10 ^ Z.of_nat 1) with 10 in *; change (10 ^ Z.of_nat 2) with 100 in *.

(** What [general3] gives: at most three digits, of which the last is rounded. *)
Lemma general3_spec x :
  0 < num x -> 0 < den x -> 1999 * den x <= 2000 * num x -> num x < 100 * den x ->
  let d := general3 x in
  (places d <= 2)%nat /\ value d = round_to x (places d) /\ 0 <= value d < 1000 /\
  1999 * den x <= 20 * (num x * 10 ^ Z.of_nat (places d)).
Proof.
  intros PX PD Hlow Hhigh. unfold general3.
  assert (at_least x 100 = false) as -> by (apply at_least_not; lia).
  destruct (at_least x 10) eqn:E10; [apply at_least_spec in E10|apply at_least_not in E10].
  - destruct (Z.leb_spec 1000 (round_to x 1)) as [H|H]; cbn [pred value places]; unfold round_to in *; pows.
    + pose proof (round_error (num x * 10) (den x) PD).
      pose proof (round_le (num x * 1) (den x) 100 PD ltac:(lia)). pose proof (round_ge (num x * 1) (den x) 0 PD ltac:(lia)).
      split_and!; try lia. nia.
    + pose proof (round_ge (num x * 10) (den x) 0 PD ltac:(lia)). split_and!; try lia. 
  - destruct (Z.leb_spec 1000 (round_to x 2)) as [H|H]; cbn [pred value places]; unfold round_to in *; pows.
    + pose proof (round_error (num x * 100) (den x) PD).
      pose proof (round_le (num x * 10) (den x) 100 PD ltac:(lia)). pose proof (round_ge (num x * 10) (den x) 0 PD ltac:(lia)).
      split_and!; try lia. nia.
    + pose proof (round_ge (num x * 100) (den x) 0 PD ltac:(lia)). split_and!; try lia.
Qed.

(** Dropping trailing zeros does not change the number. *)
Lemma strip_spec p d :
  places d = p -> 0 <= value d ->
  let d' := strip d p in
  (places d' <= p)%nat /\ 0 <= value d' <= value d /\
  value d * 10 ^ Z.of_nat (places d') = value d' * 10 ^ Z.of_nat p.
Proof.
  revert d. induction p as [|p IH]; intros d Hp Hv; cbn [strip].
  - cbn. split_and!; lia.
  - destruct (Z.eqb_spec (value d mod 10) 0) as [H0|H0].
    + pose proof (Z.div_mod (value d) 10 ltac:(lia)) as E. rewrite H0 in E.
      destruct (IH (mkDecimal (value d / 10) p) eq_refl) as (I1 & I2 & I3); [cbn; apply Z.div_pos; lia|].
      cbn [value] in *. split_and!; [lia|lia|lia|]. rewrite Nat2Z.inj_succ, Z.pow_succ_r by lia. nia.
    + cbn. split_and!; try lia.
Qed.

(** The number that is shown is within 1/199 of the duration. *)
Lemma shown_spec us u :
  micros u <= us ->
  let d := shown us u in
  0 <= value d /\ (places d <= 2)%nat /\
  199 * Z.abs (value d * micros u - us * 10 ^ Z.of_nat (places d)) <= us * 10 ^ Z.of_nat (places d) /\
  (value d < 1000 \/ places d = 0%nat /\ forall k, 0 < k -> 1000 * us <= 998 * (k * micros u) -> value d <= k).
Proof.
  intros Hu. assert (Hc : 0 < micros u) by (by destruct u). cbn zeta. unfold shown.
  pose proof (quotient_low us (micros u) Hc Hu) as Hl.
  pose proof (quotient_error us (micros u) ltac:(lia) Hc) as (PX & PD & E). cbn zeta in *.
  pose proof (fun p => rounded_error us (micros u) p _ ltac:(lia) Hc eq_refl) as HR.
  set (x := div (to_double us) (micros u)) in *.
  destruct (at_least x 100) eqn:E100; [apply at_least_spec in E100|apply at_least_not in E100].
  - cbn [fixed0 value places]. specialize (HR 0%nat). unfold round_to in HR. change (10 ^ Z.of_nat 0) with 1 in *.
    rewrite Z.mul_1_r in HR. specialize (HR ltac:(lia)). split_and!; [apply round_ge; lia|lia|exact HR|].
    right. split; [done|]. intros k Hk Hus. apply round_le; [done|].
    apply (Z.mul_le_mono_pos_r _ _ (micros u)); [done|]. nia.
  - destruct (general3_spec x PX PD Hl E100) as (G1 & G2 & G3 & G4). specialize (HR (places (general3 x)) G4).
    set (d := general3 x) in *. destruct (strip_spec (places d) d eq_refl ltac:(lia)) as (S1 & S2 & S3).
    set (d' := strip d (places d)) in *. split_and!; [lia|lia| |left; lia].
    rewrite <- G2 in HR. set (T := 10 ^ Z.of_nat (places d)) in *. set (T' := 10 ^ Z.of_nat (places d')) in *.
    assert (0 < T) by (apply Z.pow_pos_nonneg; lia). assert (0 < T') by (apply Z.pow_pos_nonneg; lia).
    assert (A : (value d' * micros u - us * T') * T = (value d * micros u - us * T) * T').
    { rewrite !Z.mul_sub_distr_r. rewrite <- (Z.mul_assoc (value d')), (Z.mul_comm (micros u) T), Z.mul_assoc, <- S3. ring. }
    apply (Z.mul_le_mono_pos_r _ _ T); [done|].
    assert (Z.abs ((value d' * micros u - us * T') * T) = Z.abs (value d * micros u - us * T) * T') as A'
      by (rewrite A, Z.abs_mul, (Z.abs_eq T') by lia; done).
    rewrite Z.abs_mul, (Z.abs_eq T) in A' by lia. nia.
Qed.

(** ** Texts *)

Definition is_digit (d : Z) : Prop := 0 <= d <= 9.

(** The number a list of digits stands for, after [a]. *)
Definition number (a : Z) (ds : list Z) : Z := foldl (fun v d => 10 * v + d) a ds.

Lemma dec_loop_spec fuel n acc :
  0 <= n < 2 ^ (Z.of_nat fuel + 1) ->
  exists ds, dec_loop fuel n acc = (digit_char <$> ds) ++ acc /\ Forall is_digit ds /\ number 0 ds = n /\
    (forall k, (0 < k)%nat -> n < 10 ^ Z.of_nat k -> (length ds <= k)%nat).
Proof.
  revert n acc. induction fuel as [|fuel IH]; intros n acc Hn; cbn [dec_loop];
    pose proof (Z.div_mod n 10 ltac:(lia)) as E; pose proof (Z.mod_pos_bound n 10 ltac:(lia)) as B.
  - cbn in Hn. exists [n mod 10]. cbn. rewrite Z.mod_small by lia. split_and!; [done| |lia|lia].
    repeat constructor; lia.
  - destruct (Z.ltb_spec n 10) as [Hlt|Hge].
    + exists [n mod 10]. cbn. rewrite Z.mod_small by lia. split_and!; [done| |lia|lia].
      repeat constructor; lia.
    + rewrite Nat2Z.inj_succ, Z.add_succ_l, Z.pow_succ_r in Hn by lia.
      destruct (IH (n / 10) (digit_char (n mod 10) :: acc)) as (ds & E1 & D1 & N1 & L1); [lia|].
      exists (ds ++ [n mod 10]). rewrite E1, fmap_app, <- app_assoc. split_and!; [done| | |].
      * apply Forall_app. split; [done|]. repeat constructor; lia.
      * unfold number in *. rewrite foldl_app, N1. cbn. lia.
      * intros k Hk Hnk. rewrite length_app. cbn. destruct k as [|[|k]]; [lia|change (10 ^ Z.of_nat 1) with 10 in *; lia|].
        rewrite (Nat2Z.inj_succ (S k)), Z.pow_succ_r in Hnk by lia. specialize (L1 (S k)). lia.
Qed.

Lemma dec_spec n :
  0 <= n ->
  exists ds, dec n = digit_char <$> ds /\ Forall is_digit ds /\ number 0 ds = n /\
    (forall k, (0 < k)%nat -> n < 10 ^ Z.of_nat k -> (length ds <= k)%nat).
Proof.
  intros Hn. destruct (dec_loop_spec (Z.to_nat (Z.log2 n)) n []) as (ds & E & H).
  - split; [done|]. rewrite Z2Nat.id by apply Z.log2_nonneg. destruct (Z.eq_dec n 0) as [->|Hne]; [done|].
    rewrite Z.add_1_r. by apply Z.log2_spec; lia.
  - exists ds. unfold dec. by rewrite E, app_nil_r.
Qed.

Lemma fraction_spec n v :
  0 <= v ->
  exists ds, fraction n v = digit_char <$> ds /\ Forall is_digit ds /\ length ds = n /\
    forall a, number a ds = a * 10 ^ Z.of_nat n + v mod 10 ^ Z.of_nat n.
Proof.
  revert v. induction n as [|n IH]; intros v Hv; cbn [fraction].
  - exists []. split_and!; [done|constructor|done|]. intros a. unfold number. cbn [foldl].
    change (10 ^ Z.of_nat 0) with 1. rewrite Z.mod_1_r. lia.
  - destruct (IH (v / 10)) as (ds & E & D & L & N); [apply Z.div_pos; lia|].
    pose proof (Z.mod_pos_bound v 10 ltac:(lia)).
    exists (ds ++ [v mod 10]). rewrite E, fmap_app, length_app, L. split_and!; [done| |cbn; lia|].
    + apply Forall_app. split; [done|]. repeat constructor; lia.
    + intros a. unfold number in *. rewrite foldl_app, N. cbn [foldl].
      rewrite Nat2Z.inj_succ, Z.pow_succ_r by lia.
      rewrite (Z.rem_mul_r v 10 (10 ^ Z.of_nat n)) by (try (apply Z.pow_pos_nonneg; lia); lia). ring.
Qed.

(** Reading a number back: digits, perhaps a point and more digits. *)
Definition digit_of (c : ascii) : option Z :=
  let n := Z.of_nat (nat_of_ascii c) - 48 in if (0 <=? n) && (n <=? 9) then Some n else None.

Fixpoint scan (v : view) (acc : Z) (point : option nat) : decimal :=
  match v with
  | [] => mkDecimal acc (default 0%nat point)
  | c :: v' =>
    match digit_of c with
    | Some d => scan v' (10 * acc + d) (S <$> point)
    | None => if decide (c = "."%char) then scan v' acc (Some 0%nat) else mkDecimal acc (default 0%nat point)
    end
  end.

Lemma digit_of_char d : is_digit d -> digit_of (digit_char d) = Some d.
Proof.
  unfold is_digit. intros Hd. unfold digit_of, digit_char. rewrite nat_ascii_embedding by lia.
  replace (Z.of_nat (Z.to_nat (48 + d)) - 48) with d by lia.
  by destruct (Z.leb_spec 0 d), (Z.leb_spec d 9); simpl; try lia.
Qed.

Lemma scan_digits ds v acc point :
  Forall is_digit ds ->
  scan ((digit_char <$> ds) ++ v) acc point =
  scan v (number acc ds) ((fun k => (k + length ds)%nat) <$> point).
Proof.
  intros Hd. revert acc point. induction Hd as [|d ds Hd _ IH]; intros acc point; cbn.
  - f_equal. destruct point; cbn; [|done]. f_equal. lia.
  - rewrite digit_of_char by done. rewrite IH. f_equal. destruct point; cbn; [|done]. f_equal. lia.
Qed.

(** Printing is undone by reading. *)
Lemma scan_print d rest :
  0 <= value d -> scan (print d ++ " "%char :: rest) 0 None = d.
Proof.
  intros Hv. destruct d as [v p]. cbn in Hv. unfold print. cbn [places value].
  destruct p as [|p]; [|set (p' := S p)].
  - destruct (dec_spec v Hv) as (ds & -> & D & N & _). rewrite scan_digits by done. cbn. by rewrite N.
  - assert (0 < 10 ^ Z.of_nat p') as HT by (apply Z.pow_pos_nonneg; lia).
    destruct (dec_spec (v / 10 ^ Z.of_nat p')) as (ds & -> & D & N & _); [apply Z.div_pos; lia|].
    destruct (fraction_spec p' v Hv) as (fs & Ef & F & L & M).
    rewrite <- app_assoc, scan_digits by done. rewrite N. cbn [app scan digit_of fmap option_fmap option_map].
    rewrite decide_True by done. rewrite Ef, scan_digits by done. rewrite M, L. cbn.
    pose proof (Z.div_mod v (10 ^ Z.of_nat p') ltac:(lia)) as E. rewrite (Z.mul_comm (v / _)), <- E. done.
Qed.

Lemma dec_length n k : (0 < k)%nat -> 0 <= n < 10 ^ Z.of_nat k -> (length (dec n) <= k)%nat.
Proof. intros Hk [H0 H1]. destruct (dec_spec n H0) as (ds & -> & _ & _ & L). rewrite length_fmap. by apply L. Qed.

Lemma print_length d :
  0 <= value d < 1000 -> (places d <= 2)%nat -> (length (print d) <= 6)%nat.
Proof.
  intros Hv Hp. unfold print. destruct (places d) as [|p] eqn:Ep.
  - pose proof (dec_length (value d) 3 ltac:(lia) ltac:(change (10 ^ Z.of_nat 3) with 1000; lia)). lia.
  - assert (1 <= 10 ^ Z.of_nat (S p)) by (apply (Z.pow_le_mono_r 10 0); lia).
    pose proof (Z.div_le_upper_bound (value d) (10 ^ Z.of_nat (S p)) 999 ltac:(lia) ltac:(nia)).
    pose proof (Z.div_pos (value d) (10 ^ Z.of_nat (S p)) ltac:(lia) ltac:(lia)).
    pose proof (dec_length (value d / 10 ^ Z.of_nat (S p)) 3 ltac:(lia) ltac:(change (10 ^ Z.of_nat 3) with 1000; lia)).
    destruct (fraction_spec (S p) (value d) ltac:(lia)) as (fs & Ef & _ & L & _).
    rewrite length_app. cbn [length]. rewrite Ef, length_fmap. lia.
Qed.

(** ** Theorems *)

(** The unit a duration is shown in. *)
Definition unit_of (us : Z) : option unit_ :=
  if 1000000 <=? us then Some Seconds else if 1000 <=? us then Some Milliseconds else None.

(** C36: a duration of up to 28,000 years is shown whole in the buffer of 16
    characters, which a scope reports: below a millisecond as its exact number of
    microseconds; above, as a number with at most three significant digits or
    the nearest integer, in milliseconds or from a second on in seconds, which
    reads back as a value within 1/199 of the duration in spite of the two
    roundings in double precision. *)
Theorem human_readable_duration (us : Z) :
  0 <= us < 9 * 10 ^ 17 ->
  let t := GetHumanReadableMicroseconds us buffer_size in
  match unit_of us with
  | None => t = dec us ++ " "%char :: mu_s /\ scan t 0 None = mkDecimal us 0
  | Some u => exists d, t = print d ++ " "%char :: unit_name u /\ scan t 0 None = d /\
      199 * Z.abs (value d * micros u - us * 10 ^ Z.of_nat (places d)) <= us * 10 ^ Z.of_nat (places d)
  end.
Proof.
  intros Hus. cbn zeta. unfold GetHumanReadableMicroseconds, text, unit_of.
  assert (Hshow : forall u, micros u <= us -> us <= 900000000000 * micros u -> 
    let t := print (shown us u) ++ " "%char :: unit_name u in
    take buffer_size t = t /\ scan t 0 None = shown us u /\
    199 * Z.abs (value (shown us u) * micros u - us * 10 ^ Z.of_nat (places (shown us u)))
      <= us * 10 ^ Z.of_nat (places (shown us u))).
  { intros u Hu Hk. destruct (shown_spec us u Hu) as (V & P & A & L). cbn zeta in *.
    split_and!; [|by apply scan_print|done].
    apply take_ge. rewrite length_app. cbn [length]. assert (length (unit_name u) <= 3)%nat by (by destruct u; cbn; lia).
    assert (length (print (shown us u)) <= 12)%nat; [|unfold buffer_size; lia].
    destruct L as [L|[L1 L2]]; [pose proof (print_length (shown us u) ltac:(lia) P); lia|].
    unfold print. rewrite L1. apply dec_length; [lia|]. specialize (L2 910000000000 ltac:(lia)).
    change (10 ^ Z.of_nat 12) with 1000000000000. lia. }
  destruct (Z.leb_spec 1000000 us) as [Hs|Hs]; [|destruct (Z.leb_spec 1000 us) as [Hm|Hm]].
  - exists (shown us Seconds). destruct (Hshow Seconds) as (-> & H2 & H3); [done|cbn; lia|done].
  - exists (shown us Milliseconds). destruct (Hshow Milliseconds) as (-> & H2 & H3); [done|cbn; lia|done].
  - unfold integer. destruct (Z.ltb_spec us 0); [lia|].
    destruct (dec_spec us ltac:(lia)) as (ds & E & D & N & L). rewrite E.
    specialize (L 3%nat ltac:(lia) ltac:(change (10 ^ Z.of_nat 3) with 1000; lia)).
    rewrite take_ge by (rewrite length_app, length_fmap; cbn; unfold buffer_size; lia). split; [done|].
    rewrite scan_digits by done. cbn. by rewrite N.
Qed.

(** Durations just below a second are shown as 1000 milliseconds, not as a
    second: the unit is chosen before the number is rounded. *)
Theorem a_thousand_milliseconds (us : Z) :
  999500 < us < 1000000 -> GetHumanReadableMicroseconds us buffer_size = sv "1000 ms".
Proof.
  intros Hus. unfold GetHumanReadableMicroseconds, text, shown.
  destruct (Z.leb_spec 1000000 us); [lia|]. destruct (Z.leb_spec 1000 us); [|lia].
  pose proof (quotient_error us 1000 ltac:(lia) ltac:(lia)) as (PX & PD & E). cbn [micros]. cbn zeta in *.
  set (x := div (to_double us) 1000) in *.
  assert (at_least x 100 = true) as -> by (apply at_least_spec; nia).
  pose proof (round_error (num x) (den x) PD) as R.
  assert (round_half_even (num x) (den x) = 1000) as HV by nia.
  unfold print, fixed0. cbn [value places]. rewrite HV. reflexivity.
Qed.

(** ** Evaluation *)

Module Demo.

Lemma human_readable_duration_witness :
  exists d, GetHumanReadableMicroseconds 12345678 16 = print d ++ " "%char :: unit_name Seconds /\
    scan (GetHumanReadableMicroseconds 12345678 16) 0 None = d /\
    199 * Z.abs (value d * micros Seconds - 12345678 * 10 ^ Z.of_nat (places d)) <= 12345678 * 10 ^ Z.of_nat (places d).
Proof. apply (human_readable_duration 12345678). lia. Defined.

Lemma a_thousand_milliseconds_witness : GetHumanReadableMicroseconds 999999 16 = sv "1000 ms".
Proof. apply (a_thousand_milliseconds 999999). lia. Defined.

(** Nanoseconds, and a negative duration, which is always shown in microseconds:
    a long one is cut inside the two bytes of its unit's first letter. *)
Example nanoseconds : str (GetHumanReadableDuration 1234567 (10 ^ 9) 16) = "1.23 ms".
Proof. vm_compute. reflexivity. Qed.

Example negative_is_cut :
  GetHumanReadableMicroseconds (-1234567890123) 16 = sv "-1234567890123 " ++ [ascii_of_nat 194].
Proof. vm_compute. reflexivity. Qed.

End Demo.
