(* ===== verification/LogFront.v ===== *)
(** * The logging calls

    [log/Log/Log.h], [Src.h] and [Scope.h]: the functions and the [Logger]
    members through which a program logs, down to the call of the logger of
    spdlog, and the scope guards that log on entry and exit with the time in
    between. The levels, the names in a line and the sinks are in [Log]. *)

From S2P Require Import Prelude StringView Log.
Local Open Scope Z_scope.

(** ** Source locations *)

(** [Log::Src]: a location and a mode, of which bit 0 drops the function. *)
Record Src := mkSrc { file_name : view; src_line : Z; function_name : view; mode : Z }.

Definition NoFunc : Z := 1.

(** [Src::ToSpdLoc]. *)
Definition ToSpdLoc (s : Src) : source_loc :=
  mkLoc (Some (file_name s)) (src_line s)
    (if negb (Z.land (mode s) NoFunc =? 0) then None else Some (function_name s)).

(** ** The raw logger *)

(** A message handed to the sinks. *)
Definition entry : Type := source_loc * Level * view.

(** The logger of spdlog: its level and what it has let through. *)
Record raw := mkRaw { threshold : nat; out : list entry }.

Definition should_log (l : Level) (r : raw) : bool := (threshold r <=? ToSpdLevel l)%nat.

Definition raw_log (loc : source_loc) (l : Level) (text : view) (r : raw) : raw :=
  if should_log l r then mkRaw (threshold r) (out r ++ [(loc, l, text)]) else r.

(** A format string applied to its arguments is a text; it comes with the place
    of the call. *)
Record FmtMsg := mkFmt { format : list view -> view; src : Src }.

(** ** Free functions *)

Definition Enabled (l : Level) (r : raw) : bool := should_log l r.

Definition Msg_text (s : Src) (l : Level) (msg : view) (r : raw) : raw :=
  raw_log (ToSpdLoc s) l msg r.

Definition Msg_format (s : Src) (l : Level) (f : list view -> view) (args : list view) (r : raw) : raw :=
  raw_log (ToSpdLoc s) l (f args) r.

Definition Msg (l : Level) (f : FmtMsg) (args : list view) (r : raw) : raw :=
  Msg_format (src f) l (format f) args r.

(** [Log::Trace] ... [Log::Fatal]. *)
Definition log_Trace := Msg Trace.
Definition log_Debug := Msg Debug.
Definition log_Info := Msg Info.
Definition log_Warn := Msg Warn.
Definition log_Error := Msg LError.
Definition log_Fatal := Msg Fatal.

(** ** Logger *)

(** [Log::Logger]: an area or none. *)
Record AreaLogger := mkAreaLogger { area : option view }.

Definition Logger_Enabled (g : AreaLogger) (l : Level) (r : raw) : bool := should_log l r.

(** The members for the macros: a text or a format, at a location. *)
Definition Logger_Msg_loc (g : AreaLogger) (loc : source_loc) (l : Level) (text : view) (r : raw) : raw :=
  raw_log (area_loc (area g) loc) l text r.

Definition Logger_Msg_loc_format (g : AreaLogger) (loc : source_loc) (l : Level)
    (f : list view -> view) (args : list view) (r : raw) : raw :=
  raw_log (area_loc (area g) loc) l (f args) r.

(** With a logger as first argument, that logger is used. *)
Definition Logger_Msg_other (g : AreaLogger) (loc : source_loc) (l : Level) (other : AreaLogger)
    (text : view) (r : raw) : raw :=
  Logger_Msg_loc other loc l text r.

Definition Logger_Msg_other_format (g : AreaLogger) (loc : source_loc) (l : Level) (other : AreaLogger)
    (f : list view -> view) (args : list view) (r : raw) : raw :=
  Logger_Msg_loc_format other loc l f args r.

(** The main members. *)
Definition Logger_Msg_src (g : AreaLogger) (s : Src) (l : Level) (f : list view -> view)
    (args : list view) (r : raw) : raw :=
  raw_log (area_loc (area g) (ToSpdLoc s)) l (f args) r.

Definition Logger_Msg (g : AreaLogger) (l : Level) (f : FmtMsg) (args : list view) (r : raw) : raw :=
  Logger_Msg_src g (src f) l (format f) args r.

Definition Logger_Trace g := Logger_Msg g Trace.
Definition Logger_Debug g := Logger_Msg g Debug.
Definition Logger_Info g := Logger_Msg g Info.
Definition Logger_Warn g := Logger_Msg g Warn.
Definition Logger_Error g := Logger_Msg g LError.
Definition Logger_Fatal g := Logger_Msg g Fatal.

(** The logger of the macros. *)
Definition Default : AreaLogger := mkAreaLogger None.

(** ** What a line looks like *)

(** The end of the pattern of [MakeDefaultFormatter]: area, function, text. *)
Definition render (e : entry) : option view :=
  let '(loc, _, text) := e in
  a ← GetAreaName loc;
  f ← function_flag loc;
  Some (a ++ sv ": " ++ f ++ text).

(** The lines a call adds. *)
Definition lines (r r' : raw) : list (option view) := render <$> drop (length (out r)) (out r').

Lemma lines_raw_log loc l text r :
  lines r (raw_log loc l text r) = if should_log l r then [render (loc, l, text)] else [].
Proof.
  unfold lines, raw_log. destruct (should_log l r); simpl.
  - by rewrite drop_app_length.
  - by rewrite drop_all.
Qed.

(** A message of a logger with an area whose source drops the function gives
    one line, the area and the text, if and only if [Enabled] says the level is
    on; with the function, its short name stands in between unless it equals the
    area. Logging through the default logger, or passing the logger to a macro,
    makes no difference to it. *)
Theorem area_logger_line (a : view) (f : FmtMsg) (l : Level) (args : list view) (r : raw) :
  let g := mkAreaLogger (Some a) in
  let text := format f args in
  let short := ExtractShortNameWithNamespace (function_name (src f)) in
  lines r (Logger_Msg g l f args r) =
    (if Logger_Enabled g l r then
       [Some (a ++ sv ": " ++
              (if negb (Z.land (mode (src f)) NoFunc =? 0) then []
               else if decide (a = short) then [] else short ++ sv ": ") ++ text)]
     else []) /\
  Logger_Msg_other_format Default (ToSpdLoc (src f)) l g (format f) args r = Logger_Msg g l f args r /\
  Logger_Msg Default l f args r = Msg l f args r.
Proof.
  intros g text short. split_and!; [|done|done].
  unfold Logger_Msg, Logger_Msg_src, Logger_Enabled. rewrite lines_raw_log.
  destruct (should_log l r); [|done]. f_equal.
  assert (forall fn, GetAreaName (mkLoc (Some a) AreaLoggerLine fn) = Some a) as Ha
    by (intros; unfold GetAreaName; cbn; by rewrite decide_True).
  unfold render, area_loc, ToSpdLoc, g. cbn [area funcname]. rewrite Ha. cbn [mbind option_bind].
  unfold function_flag. cbn [funcname]. destruct (negb _); cbn [mbind option_bind]; [done|].
  rewrite Ha. done.
Qed.

(** ** Scopes *)

Module Scope.

Record t := mk {
  start : Z; prefix_in : view; prefix_out : view; level : Level; scope_src : Src; msg : view }.

(** The constructors log the first prefix, with the message if there is one. *)
Definition open_msg (now : Z) (pre : view * view) (l : Level) (s : Src) (m : view) (r : raw) : t * raw :=
  (mk now pre.1 pre.2 l s m, Msg_text s l (pre.1 ++ sv " " ++ m) r).

Definition open_plain (now : Z) (pre : view * view) (l : Level) (s : Src) (r : raw) : t * raw :=
  (mk now pre.1 pre.2 l s [], Msg_text s l pre.1 r).

(** The destructor logs the second prefix and the time. *)
Definition close (show : Z -> view) (now : Z) (c : t) (r : raw) : Z * raw :=
  let duration := now - start c in
  let timeStr := show duration in
  (duration,
   Msg_text (scope_src c) (level c)
     (if decide (msg c = []) then prefix_out c ++ sv " / " ++ timeStr
      else prefix_out c ++ sv " " ++ msg c ++ sv " / " ++ timeStr) r).

(** Blocks of code: messages, and blocks under a scope with or without a
    message. *)
Inductive code :=
| Line (s : Src) (l : Level) (m : view)
| Block (pre : view * view) (l : Level) (s : Src) (m : option view) (body : list code).

(** The times scopes report, as a tree. *)
Inductive timing := Timing (duration : Z) (inner : list timing).

Definition duration_of (t : timing) : Z := let 'Timing d _ := t in d.

Section Run.
Context (show : Z -> view) (clock : nat -> Z).

(** [n] counts the readings of the clock. *)
Fixpoint run (c : code) (n : nat) (r : raw) : list timing * nat * raw :=
  match c with
  | Line s l m => ([], n, Msg_text s l m r)
  | Block pre l s m body =>
      let '(sc, r1) := match m with
                       | Some m => open_msg (clock n) pre l s m r
                       | None => open_plain (clock n) pre l s r
                       end in
      let fix run_body (body : list code) (n : nat) (r : raw) : list timing * nat * raw :=
        match body with
        | [] => ([], n, r)
        | c :: body =>
            let '(ts, n1, r1) := run c n r in
            let '(ts', n2, r2) := run_body body n1 r1 in
            (ts ++ ts', n2, r2)
        end in
      let '(ts, n2, r2) := run_body body (S n) r1 in
      let '(d, r3) := close show (clock n2) sc r2 in
      ([Timing d ts], S n2, r3)
  end.

Fixpoint run_body (body : list code) (n : nat) (r : raw) : list timing * nat * raw :=
  match body with
  | [] => ([], n, r)
  | c :: body =>
      let '(ts, n1, r1) := run c n r in
      let '(ts', n2, r2) := run_body body n1 r1 in
      (ts ++ ts', n2, r2)
  end.

Definition total (ts : list timing) : Z := foldr (fun t s => duration_of t + s) 0 ts.

(** Every scope reports at least the time its inner scopes report together. *)
Inductive covers : timing -> Prop :=
| covers_intro d ts : total ts <= d -> Forall covers ts -> covers (Timing d ts).

Lemma run_Block pre l s m body n r :
  run (Block pre l s m body) n r =
    let '(sc, r1) := match m with
                     | Some m => open_msg (clock n) pre l s m r
                     | None => open_plain (clock n) pre l s r
                     end in
    let '(ts, n2, r2) := run_body body (S n) r1 in
    let '(d, r3) := close show (clock n2) sc r2 in
    ([Timing d ts], S n2, r3).
Proof. reflexivity. Qed.

Lemma code_ind' (P : code -> Prop) :
  (forall s l m, P (Line s l m)) ->
  (forall pre l s m body, Forall P body -> P (Block pre l s m body)) -> forall c, P c.
Proof.
  intros Hl Hb. fix IH 1. intros [s l m|pre l s m body]; [apply Hl|]. apply Hb.
  induction body as [|c body IHb]; constructor; [apply IH|exact IHb].
Qed.

Lemma total_app ts ts' : total (ts ++ ts') = total ts + total ts'.
Proof. induction ts as [|t ts IH]; simpl; [done|]. rewrite IH. lia. Qed.

Context (Hmono : forall i j, (i <= j)%nat -> clock i <= clock j).

(** Between two readings the scopes together take at most the time between
    them: [k] bounds the reading before, the result the one after. *)
Definition timed (ts : list timing) (n n' : nat) : Prop :=
  (n <= n')%nat /\ Forall covers ts /\
  (ts = [] \/ exists p, (n <= p < n')%nat /\ total ts <= clock p - clock n) /\
  0 <= total ts.

Lemma timed_app ts ts' n n1 n2 :
  timed ts n n1 -> timed ts' n1 n2 -> timed (ts ++ ts') n n2.
Proof.
  intros (Hn & Hc & Ht & Hp) (Hn' & Hc' & Ht' & Hp'). split_and!; [lia|by apply Forall_app| |].
  - destruct Ht as [->|(p & Hp1 & Hp2)].
    + destruct Ht' as [->|(p' & Hq1 & Hq2)]; [by left|right]. exists p'. split; [lia|]. simpl.
      pose proof (Hmono n n1 Hn). lia.
    + right. destruct Ht' as [->|(p' & Hq1 & Hq2)].
      * exists p. rewrite app_nil_r. split; [lia|done].
      * exists p'. split; [lia|]. rewrite total_app. pose proof (Hmono p n1 ltac:(lia)). lia.
  - rewrite total_app. lia.
Qed.

Lemma run_body_timed body n r :
  Forall (fun c => forall n r, let '(ts, n', _) := run c n r in timed ts n n') body ->
  let '(ts, n', _) := run_body body n r in timed ts n n'.
Proof.
  intros Hb. revert n r. induction Hb as [|c body Hc _ IH]; intros n r; simpl.
  { split_and!; [lia|done|by left|done]. }
  specialize (Hc n r). destruct (run c n r) as [[ts n1] r1].
  specialize (IH n1 r1). destruct (run_body body n1 r1) as [[ts' n2] r2].
  by eapply timed_app.
Qed.

Lemma run_timed c n r : let '(ts, n', _) := run c n r in timed ts n n'.
Proof.
  revert n r. induction c as [s l m|pre l s m body IH] using code_ind'; intros n r.
  { split_and!; [lia|done|by left|done]. }
  rewrite run_Block.
  assert (exists pi po ms r1, match m with
    | Some m => open_msg (clock n) pre l s m r
    | None => open_plain (clock n) pre l s r
    end = (mk (clock n) pi po l s ms, r1)) as (pi & po & ms & r1 & ->)
    by (destruct m; repeat eexists).
  pose proof (run_body_timed body (S n) r1 IH) as Hb.
  destruct (run_body body (S n) r1) as [[ts n2] r2]. destruct Hb as (Hn & Hc & Ht & Hp).
  unfold close. cbn [start]. pose proof (Hmono n n2 ltac:(lia)) as H0. split_and!.
  - lia.
  - constructor; [|constructor]. constructor; [|done].
    destruct Ht as [->|(p & Hp1 & Hp2)]; [simpl; lia|].
    pose proof (Hmono p n2 ltac:(lia)). pose proof (Hmono n (S n) ltac:(lia)). lia.
  - right. exists n2. split; [lia|]. simpl. lia.
  - simpl. lia.
Qed.

End Run.

(** With a clock that does not run backwards, the time every scope reports at
    its end is at least the sum of the times reported by the scopes inside it,
    at every depth of nesting. *)
Theorem scope_time_covers_inner show clock c n r :
  (forall i j, (i <= j)%nat -> clock i <= clock j) ->
  Forall covers (run show clock c n r).1.1.
Proof.
  intros Hmono. pose proof (run_timed show clock Hmono c n r) as H.
  destruct (run show clock c n r) as [[ts n'] r']. by destruct H as (_ & H & _).
Qed.

End Scope.

Module Demo.

Definition here : Src := mkSrc (sv "src/main.cpp") 7 (sv "int main(int, char**)") 0.

Example boot_line :
  lines (mkRaw 0 []) (Logger_Info (mkAreaLogger (Some (sv "Boot")))
    (mkFmt (fun args => sv "App: " ++ concat args) (mkSrc (sv "a.cpp") 1 (sv "f()") NoFunc))
    [sv "demo"] (mkRaw 0 [])) = [Some (sv "Boot: App: demo")].
Proof. vm_compute. reflexivity. Qed.

Lemma scope_time_covers_inner_witness :
  Forall Scope.covers (Scope.run (fun _ => sv "t") (fun n => Z.of_nat n)
    (Scope.Block (sv ">>>", sv "<<<") Info here None
      [Scope.Block (sv ">>>", sv "<<<") Info here (Some (sv "a")) [];
       Scope.Line here Debug (sv "x")]) 0 (mkRaw 0 [])).1.1.
Proof. apply Scope.scope_time_covers_inner. intros i j Hij. lia. Defined.

End Demo.
