(* ===== verification/SigNet.v ===== *)
(** * The signaling network: clients and server together

    The client of [WsClient] and the server of [WsServer] composed over
    WebSockets: any number of clients, each with a socket to one server, whose
    frames arrive in order or are lost when a connection breaks. The theorem is
    end to end: what reaches a client's handler was sent by a client registered
    under the name it carries, to the name this client is registered under, in
    order and at most once. *)

From Stdlib Require Import Strings.Ascii.
From S2P Require Import Prelude Rtt SigHub SigWire WsClient WsServer.

(** Documented of nlohmann::json: [dump] throws on a string that is not UTF-8. *)
Class JsonStrict (J : Type) `{JsonLib J} : Prop := {
  dump_utf8 kvs text : dump (object kvs) = Some text ->
    Forall (fun kv => utf8 kv.1 = true /\ utf8 kv.2 = true) kvs }.

Section Net.
Context {J : Type} {JL : JsonLib J} {JW : JsonLaws J} {JS : JsonStrict J}.

(** A frame written by either side is read as what was put into it. *)
Lemma envelope_opens peer payload text :
  envelope peer payload = Some text -> open_envelope (Text text) = Message peer payload.
Proof.
  intros He. pose proof (dump_utf8 _ _ He) as Hu.
  destruct (dump_object (J := J) [("id", peer); ("payload", payload)] envelope_keys Hu) as (t & Hd & Hparse & _).
  unfold envelope in He. rewrite Hd in He. injection He as ->. by apply open_object.
Qed.

(** ** States and steps *)

(** The frames under way in each direction, by socket; [opened] are the sockets
    the server has accepted. *)
Record Net := mkNet {
  server : Hub (A := Server); clients : gmap nat Client;
  up : gmap nat (list string); down : gmap nat (list string); opened : list nat }.

Definition empty_net : Net := mkNet start ∅ ∅ ∅ [].

Definition set_client (i : nat) (c : Client) (n : Net) : Net :=
  mkNet (server n) (<[i := c]> (clients n)) (up n) (down n) (opened n).

Definition push {B} (q : gmap nat (list B)) (i : nat) (l : list B) : gmap nat (list B) :=
  <[i := (q !!! i) ++ l]> q.

(** The frames a list of client events writes. *)
Definition written (l : list Event) : list string :=
  omap (fun e => match e with ESent t => Some t | _ => None end) l.

(** Frames the server wrote, queued by socket. *)
Definition distribute (fs : list (nat * string)) (q : gmap nat (list string)) : gmap nat (list string) :=
  foldl (fun q f => push q f.1 [f.2]) q fs.

Definition is_message (a : Action) : bool := match a with AMessage _ => true | _ => false end.

(** A step: a client is made; it acts, or its socket changes state; the server
    accepts a socket, closes one or is told to disconnect a peer; a frame is
    handled at one end; or the frames under way in one direction are lost. *)
Inductive step : Net -> Net -> Prop :=
| s_new n i :
    clients n !! i = None -> step n (set_client i init n)
| s_client n i a c c' :
    clients n !! i = Some c -> is_message a = false -> act a c = Some c' ->
    step n (mkNet (server n) (<[i := c']> (clients n))
              (push (up n) i (written (drop (length (trace c)) (trace c')))) (down n) (opened n))
| s_open n i path w' :
    is_Some (clients n !! i) -> i ∉ opened n -> serve (SOpen i path) (server n) = Ret w' ->
    step n (mkNet w' (clients n) (up n) (down n) (i :: opened n))
| s_closed n i w' :
    serve (SClosed i) (server n) = Ret w' -> step n (mkNet w' (clients n) (up n) (down n) (opened n))
| s_disconnect n peer w' :
    serve (SDisconnect peer) (server n) = Ret w' -> step n (mkNet w' (clients n) (up n) (down n) (opened n))
| s_up n i t rest w' :
    up n !!! i = t :: rest -> serve (SMessage i (Text t)) (server n) = Ret w' ->
    step n (mkNet w' (clients n) (<[i := rest]> (up n))
              (distribute (drop (length (frames (app (server n)))) (frames (app w'))) (down n)) (opened n))
| s_down n i t rest c c' :
    down n !!! i = t :: rest -> clients n !! i = Some c -> act (AMessage (Text t)) c = Some c' ->
    step n (mkNet (server n) (<[i := c']> (clients n)) (up n) (<[i := rest]> (down n)) (opened n))
| s_lose_up n i : step n (mkNet (server n) (clients n) (<[i := []]> (up n)) (down n) (opened n))
| s_lose_down n i : step n (mkNet (server n) (clients n) (up n) (<[i := []]> (down n)) (opened n)).

(** The steps a run needs, as a function of a label. *)
Inductive Label :=
| LNew (i : nat) | LClient (i : nat) (a : Action) | LOpen (i : nat) (path : option string)
| LUp (i : nat) | LDown (i : nat) | LLose (i : nat).

Definition returned {A} (o : outcome A) : option A := match o with Ret x => Some x | _ => None end.

Definition fire (l : Label) (n : Net) : option Net :=
  match l with
  | LNew i => match clients n !! i with Some _ => None | None => Some (set_client i init n) end
  | LClient i a =>
    if is_message a then None
    else c ← clients n !! i; c' ← act a c;
         Some (mkNet (server n) (<[i := c']> (clients n))
                 (push (up n) i (written (drop (length (trace c)) (trace c')))) (down n) (opened n))
  | LOpen i path =>
    if decide (is_Some (clients n !! i) /\ (i ∉ opened n)) then
      w' ← returned (serve (SOpen i path) (server n));
      Some (mkNet w' (clients n) (up n) (down n) (i :: opened n))
    else None
  | LUp i =>
    match up n !!! i with
    | [] => None
    | t :: rest =>
      w' ← returned (serve (SMessage i (Text t)) (server n));
      Some (mkNet w' (clients n) (<[i := rest]> (up n))
              (distribute (drop (length (frames (app (server n)))) (frames (app w'))) (down n)) (opened n))
    end
  | LDown i =>
    match down n !!! i with
    | [] => None
    | t :: rest =>
      c ← clients n !! i; c' ← act (AMessage (Text t)) c;
      Some (mkNet (server n) (<[i := c']> (clients n)) (up n) (<[i := rest]> (down n)) (opened n))
    end
  | LLose i => Some (mkNet (server n) (clients n) (<[i := []]> (up n)) (down n) (opened n))
  end.

Fixpoint fires (ls : list Label) (n : Net) : option Net :=
  match ls with [] => Some n | l :: ls' => fire l n ≫= fires ls' end.

Lemma returned_Some {A} (o : outcome A) x : returned o = Some x -> o = Ret x.
Proof. by destruct o; intros [= <-]. Qed.

Lemma fire_step l n n' : fire l n = Some n' -> step n n'.
Proof.
  intros Hf. destruct l as [i|i a|i path|i|i|i]; cbn [fire] in Hf.
  - destruct (clients n !! i) eqn:E; [done|]. injection Hf as <-. by constructor.
  - destruct (is_message a) eqn:Em; [done|]. apply bind_Some in Hf as (c & Hc & Hf).
    apply bind_Some in Hf as (c' & Ha & Hf). injection Hf as <-. by eapply s_client.
  - case_decide as Hd; [|done]. destruct Hd. apply bind_Some in Hf as (w' & Hw%returned_Some & Hf).
    injection Hf as <-. by eapply s_open.
  - destruct (up n !!! i) as [|t rest] eqn:E; [done|]. apply bind_Some in Hf as (w' & Hw%returned_Some & Hf).
    injection Hf as <-. by eapply s_up.
  - destruct (down n !!! i) as [|t rest] eqn:E; [done|]. apply bind_Some in Hf as (c & Hc & Hf).
    apply bind_Some in Hf as (c' & Ha & Hf). injection Hf as <-. by eapply s_down.
  - injection Hf as <-. constructor.
Qed.

Lemma fires_reach ls n n' : fires ls n = Some n' -> rtc step n n'.
Proof.
  revert n. induction ls as [|l ls IH]; intros n Hf; cbn in Hf; [by injection Hf as <-|].
  apply bind_Some in Hf as (n1 & H1 & H2). eapply rtc_l; [by eapply fire_step|by apply IH].
Qed.

(** ** Histories *)

(** What a frame says: a peer and a payload. *)
Definition says (t : string) : option (string * string) :=
  match open_envelope (Text t) with Message peer p => Some (peer, p) | _ => None end.

(** What a client sent, as pairs of addressee and payload. *)
Definition sends (l : list Event) : list (string * string) := omap says (written l).

(** A relayed message: from a socket, to a socket, with a payload. *)
Definition relay : Type := nat * nat * string.

(** The relays from a socket, as its client addressed them, and those to a
    socket, as its client gets them, by the names the sockets registered. *)
Definition out_of (ids : gmap nat string) (i : nat) (H : list relay) : list (string * string) :=
  omap (fun r : relay => let '(src, dst, p) := r in
    if decide (src = i) then (fun b => (b, p)) <$> ids !! dst else None) H.

Definition into (ids : gmap nat string) (j : nat) (H : list relay) : list SigMessage :=
  omap (fun r : relay => let '(src, dst, p) := r in
    if decide (dst = j) then (fun a => mkMsg a p) <$> ids !! src else None) H.

Definition as_message (x : string * string) : SigMessage := mkMsg x.1 x.2.

Definition known (ids : gmap nat string) (H : list relay) : Prop :=
  Forall (fun r : relay => is_Some (ids !! r.1.1) /\ is_Some (ids !! r.1.2)) H.

Definition names (n : Net) : gmap nat string := connId (app (server n)).

Record NetInv (n : Net) (H : list relay) : Prop := {
  n_server : WsServer.Inv (opened n) (server n);
  n_opened i : i ∈ opened n -> is_Some (clients n !! i);
  n_known : known (names n) H;
  n_out i c : clients n !! i = Some c ->
    out_of (names n) i H ++ omap says (up n !!! i) `sublist_of` sends (trace c);
  n_up i : clients n !! i = None -> up n !!! i = [];
  n_in j c : clients n !! j = Some c ->
    arrived (trace c) ++ (as_message <$> omap says (down n !!! j)) `sublist_of` into (names n) j H;
  n_down j : clients n !! j = None -> down n !!! j = [] }.

(** ** What one event does *)

Lemma act_events a c c' :
  act a c = Some c' ->
  exists evs, trace c' = trace c ++ evs /\
    (is_message a = false -> arrived evs = []) /\
    (forall t, a = AMessage (Text t) -> written evs = [] /\
       arrived evs `sublist_of` (as_message <$> omap says [t])).
Proof.
  assert (forall c, exists evs, trace (NotifyClosed c) = trace c ++ evs /\ arrived evs = []) as Hn.
  { intros c0. unfold NotifyClosed. destruct (handler c0); [by eexists|exists []; by rewrite app_nil_r]. }
  destruct a as [| | | |raw|alive| |to p| | |]; cbn [act]; intros Ha; repeat case_decide; simplify_eq.
  - unfold WsClient.onOpen. cbn. destruct (fired c); [exists []; rewrite app_nil_r|eexists]; split_and!; try done.
  - unfold onError. destruct (fired c); [exists []; rewrite app_nil_r|eexists]; split_and!; try done.
  - exists []. rewrite app_nil_r. split_and!; done.
  - unfold WsClient.onClosed. cbn. destruct (WsClient.user c); [|exists []; rewrite app_nil_r; by split_and!].
    destruct (Hn (set_ws WsClosed c)) as (evs & He & Ha'). exists evs. split_and!; done.
  - unfold WsClient.onMessage. destruct raw as [t|t]; [|exists []; rewrite app_nil_r; split_and!; try done].
    destruct (WsClient.user c); [|exists []; rewrite app_nil_r; split_and!; [done|done|]; intros ? [= <-]; split; [done|apply sublist_nil_l]].
    destruct (open_envelope (Text t)) as [| |from payload] eqn:Eo.
    + exists []. rewrite app_nil_r. split_and!; [done|done|]. intros ? [= <-]. split; [done|apply sublist_nil_l].
    + eexists. split_and!; [done|done|]. intros ? [= <-]. split; [done|apply sublist_nil_l].
    + assert (as_message <$> omap says [t] = [mkMsg from payload]) as Hm.
      { cbn. unfold says. by rewrite Eo. }
      unfold WsClient.Deliver. change (handler (emit _ c)) with (handler c). destruct (handler c).
      * exists [EArrived (mkMsg from payload); EDelivered (mkMsg from payload)].
        split_and!; [cbn; by rewrite <- app_assoc|done|]. intros ? [= <-]. by rewrite Hm.
      * exists [EArrived (mkMsg from payload)].
        split_and!; [done|done|]. intros ? [= <-]. by rewrite Hm.
  - destruct (phase c); simplify_eq. unfold WsClient.SetHandler. destruct alive; cbn; [exists []; rewrite app_nil_r|eexists]; split_and!; done.
  - destruct (phase c) as [| |[|m ms]|]; simplify_eq; cbn; [exists []; rewrite app_nil_r|eexists]; split_and!; done.
  - destruct (WsClient.user c); simplify_eq. unfold Send. destruct (isOpen c); [|exists []; rewrite app_nil_r; by split_and!].
    destruct (envelope to p); eexists; split_and!; done.
  - destruct (WsClient.user c); simplify_eq. unfold WsClient.Leave. destruct (leaving c); [exists []; rewrite app_nil_r; by split_and!|].
    destruct (isOpen _); [eexists; by split_and!|].
    destruct (Hn (emit ELate (set_leaving c))) as (evs & He & Ha'). cbn in He. rewrite <- app_assoc in He.
    exists ([ELate] ++ evs). split_and!; [done|by intros _; cbn|done].
  - destruct (phase c); simplify_eq. destruct (WsClient.user c); simplify_eq. unfold destroy_user. cbn.
    destruct (isOpen c); [eexists|exists []; rewrite app_nil_r]; by split_and!.
  - exists []. rewrite app_nil_r. by split_and!.
Qed.

Lemma message_effect seen w i t w' :
  WsServer.Inv seen w -> serve (SMessage i (Text t)) w = Ret w' ->
  connId (app w') = connId (app w) /\
  (frames (app w') = frames (app w) \/
   exists a b p j t', connId (app w) !! i = Some a /\ says t = Some (b, p) /\
     connId (app w) !! j = Some b /\ envelope a p = Some t' /\
     frames (app w') = frames (app w) ++ [(j, t')]).
Proof.
  intros HI. cbn [serve]. unfold onMessage, says. destruct (connId (app w) !! i) as [a|] eqn:Ha;
    [|intros [= <-]; by split; [|left]].
  destruct (open_envelope (Text t)) as [| |b p]; [intros [= <-]; by split; [|left]..|].
  destruct (peers w !! b) as [u|] eqn:Hp.
  - destruct (dispatch_eq seen w a b p u HI Hp) as (j & _ & Hj & ->). intros [= <-]. cbn [app].
    unfold on_message. cbn. case_decide; [|by split; [|left]].
    destruct (envelope a p) as [t'|] eqn:He; (split; [done|]); [right|by left]. by exists a, b, p, j, t'.
  - unfold Dispatch. rewrite Hp. intros [= <-]. by split; [|left].
Qed.

Lemma other_effect seen e w w' :
  WsServer.Inv seen w -> (forall ws, ws ∈ newly e -> ws ∉ seen) ->
  match e with SMessage _ _ => False | _ => True end -> serve e w = Ret w' ->
  connId (app w) ⊆ connId (app w') /\ frames (app w') = frames (app w).
Proof.
  intros HI Hn He. destruct e as [ws path|ws raw|ws|peer]; [|done| |]; cbn [serve].
  - assert (ws ∉ seen) as Hws by (apply Hn; left).
    assert (connId (app w) !! ws = None) as Hc.
    { destruct (connId (app w) !! ws) as [id|] eqn:E; [|done]. exfalso. apply Hws, (i_seen _ _ HI). right.
      by eapply (i_conn _ _ HI). }
    unfold onOpen. case_decide; [intros [= <-]; by split|].
    rewrite (register_eq seen _ ws) by (try done; by apply inv_books). cbn [obind]. intros [= <-].
    cbn. split; [by apply insert_subseteq|done].
  - unfold onClosed. destruct (connId (app w) !! ws) as [id|]; [|intros [= <-]; by split].
    set (w1 := set_app (forget ws id (app w)) w). assert (WsServer.Inv seen w1) as HI1 by (by apply inv_books).
    destruct (user (app w1) !! ws) as [u|] eqn:Hu; [|intros [= <-]; by split].
    destruct (i_user _ _ HI1 ws u Hu) as (x & Hx & _). rewrite (leave_eq seen w1 ws u x HI1 Hu Hx).
    intros [= <-]. by destruct (left_ x).
  - unfold DisconnectPeer. destruct (connections (app w) !! peer) as [ws|]; [|intros [= <-]; by split].
    case_decide; intros [= <-]; by split.
Qed.

(** ** Histories grow *)

Lemma omap_known {B} (f g : relay -> option B) H :
  Forall (fun r => f r = g r) H -> omap f H = omap g H.
Proof. induction 1 as [|r H Hr _ IH]; [done|]. cbn in *. by rewrite Hr, IH. Qed.

Lemma omap_none {B} (f : relay -> option B) H : Forall (fun r => f r = None) H -> omap f H = [].
Proof. induction 1 as [|r H Hr _ IH]; [done|]. cbn in *. by rewrite Hr, IH. Qed.

Lemma out_of_names ids ids' i H : known ids H -> ids ⊆ ids' -> out_of ids' i H = out_of ids i H.
Proof.
  intros Hk Hs. apply omap_known. eapply Forall_impl; [done|].
  intros [[src dst] p] [_ [b Hb]]. cbn in Hb. by rewrite Hb, (lookup_weaken _ _ _ _ Hb Hs).
Qed.

Lemma into_names ids ids' j H : known ids H -> ids ⊆ ids' -> into ids' j H = into ids j H.
Proof.
  intros Hk Hs. apply omap_known. eapply Forall_impl; [done|].
  intros [[src dst] p] [[a Ha] _]. cbn in Ha. by rewrite Ha, (lookup_weaken _ _ _ _ Ha Hs).
Qed.

Lemma omap_sublist {A B} (f : A -> option B) l l' : l `sublist_of` l' -> omap f l `sublist_of` omap f l'.
Proof.
  induction 1 as [|x l l' _ IH|x l l' _ IH]; [constructor| |]; cbn; destruct (f x); by try constructor.
Qed.

Lemma known_names ids ids' H : known ids H -> ids ⊆ ids' -> known ids' H.
Proof.
  intros Hk Hs. eapply Forall_impl; [done|]. intros r [[a Ha] [b Hb]].
  split; [exists a|exists b]; by eapply lookup_weaken.
Qed.

Lemma sends_app l l' : sends (l ++ l') = sends l ++ omap says (written l').
Proof. unfold sends, written. by rewrite !omap_app. Qed.

Lemma arrived_app l l' : arrived (l ++ l') = arrived l ++ arrived l'.
Proof. apply omap_app. Qed.

Lemma push_lookup {B} (q : gmap nat (list B)) i l k :
  push q i l !!! k = (q !!! k) ++ (if decide (i = k) then l else []).
Proof.
  unfold push. case_decide as Hd.
  - subst. by rewrite lookup_total_insert_eq.
  - rewrite lookup_total_insert_ne by done. by rewrite app_nil_r.
Qed.

(** ** The invariant *)

Lemma empty_net_inv : NetInv empty_net [].
Proof.
  split; cbn; try done.
  - apply start_inv.
  - intros i Hi. by apply not_elem_of_nil in Hi.
  - constructor.
Qed.

(** The names a socket has are those of accepted sockets. *)
Lemma name_opened n H i a : NetInv n H -> names n !! i = Some a -> is_Some (clients n !! i).
Proof.
  intros HI Ha. apply (n_opened _ _ HI), (i_seen _ _ (n_server _ _ HI)). right.
  by eapply (i_conn _ _ (n_server _ _ HI)).
Qed.

(** No relay concerns a socket without a client. *)
Lemma no_relays n H i : NetInv n H -> clients n !! i = None ->
  out_of (names n) i H = [] /\ into (names n) i H = [].
Proof.
  intros HI Hi. pose proof (n_known _ _ HI) as Hk.
  assert (Forall (fun r : relay => r.1.1 <> i /\ r.1.2 <> i) H) as Hne.
  { eapply Forall_impl; [done|]. intros [[src dst] p] [[a Ha] [b Hb]]. cbn in *.
    split; intros ->.
    - destruct (name_opened n H i a HI Ha). congruence.
    - destruct (name_opened n H i b HI Hb). congruence. }
  split; apply omap_none; (eapply Forall_impl; [done|]); intros [[src dst] p] [H1 H2]; cbn in *;
    by rewrite decide_False.
Qed.

Lemma new_client_inv n H i :
  NetInv n H -> clients n !! i = None -> NetInv (set_client i init n) H.
Proof.
  intros HI Hi. destruct (no_relays n H i HI Hi) as [Ho Hin]. destruct HI as [S O K Out U In D].
  split; cbn; try done.
  - intros j Hj. apply lookup_insert_is_Some'. right. by apply O.
  - intros k c [[<- <-]|[_ Hc]]%lookup_insert_Some; [|by apply Out].
    change (names (set_client i init n)) with (names n). by rewrite Ho, (U i Hi).
  - intros k [Hc _]%lookup_insert_None. by apply U.
  - intros k c [[<- <-]|[_ Hc]]%lookup_insert_Some; [|by apply In].
    change (names (set_client i init n)) with (names n). by rewrite Hin, (D i Hi).
  - intros k [Hc _]%lookup_insert_None. by apply D.
Qed.

Lemma client_step_inv n H i a c c' :
  NetInv n H -> clients n !! i = Some c -> is_message a = false -> act a c = Some c' ->
  NetInv (mkNet (server n) (<[i := c']> (clients n))
            (push (up n) i (written (drop (length (trace c)) (trace c')))) (down n) (opened n)) H.
Proof.
  intros [S O K Out U In D] Hc Hm Ha. destruct (act_events a c c' Ha) as (evs & Ht & Harr & _).
  specialize (Harr Hm). rewrite Ht, drop_app_length. split; cbn; try done.
  - intros j Hj. apply lookup_insert_is_Some'. right. by apply O.
  - intros k x [[<- <-]|[Hne Hx]]%lookup_insert_Some; rewrite push_lookup.
    + rewrite decide_True by done. rewrite Ht, sends_app, omap_app, app_assoc.
      apply sublist_app; [by apply Out|done].
    + rewrite decide_False, app_nil_r by done. by apply Out.
  - intros k [Hk Hne]%lookup_insert_None. rewrite push_lookup, decide_False, app_nil_r by done. by apply U.
  - intros k x [[<- <-]|[_ Hx]]%lookup_insert_Some; [|by apply In].
    rewrite Ht, arrived_app, Harr, app_nil_r. by apply In.
  - intros k [Hk _]%lookup_insert_None. by apply D.
Qed.

Lemma server_step_inv n H e w' :
  NetInv n H -> (forall ws, ws ∈ newly e -> (ws ∉ opened n) /\ is_Some (clients n !! ws)) ->
  match e with SMessage _ _ => False | _ => True end -> serve e (server n) = Ret w' ->
  NetInv (mkNet w' (clients n) (up n) (down n) (newly e ++ opened n)) H.
Proof.
  intros [S O K Out U In D] Hn He Hs.
  assert (forall ws, ws ∈ newly e -> ws ∉ opened n) as Hfresh by (intros ws Hw; by apply Hn).
  destruct (other_effect _ e _ _ S Hfresh He Hs) as [Hsub _].
  destruct (serve_ok _ e _ S Hfresh) as (w2 & Hw2 & HI2). assert (w2 = w') as -> by congruence.
  split; cbn [server clients up down opened]; try done.
  - intros i [Hi|Hi]%elem_of_app; [by apply Hn|by apply O].
  - by eapply known_names.
  - intros i c Hc. unfold names at 1. cbn [server]. rewrite (out_of_names (names n)) by done. by apply Out.
  - intros j c Hc. unfold names at 1. cbn [server]. rewrite (into_names (names n)) by done. by apply In.
Qed.

Lemma down_step_inv n H i t rest c c' :
  NetInv n H -> down n !!! i = t :: rest -> clients n !! i = Some c -> act (AMessage (Text t)) c = Some c' ->
  NetInv (mkNet (server n) (<[i := c']> (clients n)) (up n) (<[i := rest]> (down n)) (opened n)) H.
Proof.
  intros [S O K Out U In D] Hd Hc Ha. destruct (act_events _ c c' Ha) as (evs & Ht & _ & Hm).
  destruct (Hm t eq_refl) as [Hw Harr]. split; cbn; try done.
  - intros j Hj. apply lookup_insert_is_Some'. right. by apply O.
  - intros k x [[<- <-]|[_ Hx]]%lookup_insert_Some; [|by apply Out].
    rewrite Ht, sends_app, Hw. cbn. rewrite app_nil_r. by apply Out.
  - intros k [Hk _]%lookup_insert_None. by apply U.
  - intros k x [[<- <-]|[Hne Hx]]%lookup_insert_Some.
    + rewrite lookup_total_insert_eq, Ht, arrived_app. etrans; [|by apply (In i c)].
      rewrite Hd. change (t :: rest) with ([t] ++ rest). rewrite omap_app, fmap_app, <- app_assoc.
      apply sublist_app; [done|]. by apply sublist_app.
    + rewrite lookup_total_insert_ne by done. by apply In.
  - intros k [Hk Hne]%lookup_insert_None. rewrite lookup_total_insert_ne by done. by apply D.
Qed.

Lemma lose_inv n H i :
  NetInv n H ->
  NetInv (mkNet (server n) (clients n) (<[i := []]> (up n)) (down n) (opened n)) H /\
  NetInv (mkNet (server n) (clients n) (up n) (<[i := []]> (down n)) (opened n)) H.
Proof.
  intros [S O K Out U In D].
  assert (forall (q : gmap nat (list string)) k, ((<[i := []]> q) !!! k) `sublist_of` (q !!! k)) as Hq.
  { intros q k. destruct (decide (i = k)) as [<-|Hne].
    - rewrite lookup_total_insert_eq. apply sublist_nil_l.
    - by rewrite lookup_total_insert_ne. }
  split; split; cbn; try done.
  - intros k c Hc. etrans; [|by apply Out]. apply sublist_app; [done|]. apply omap_sublist, Hq.
  - intros k Hk. apply sublist_nil_r. rewrite <- (U k Hk) at 2. apply Hq.
  - intros k c Hc. etrans; [|by apply In]. apply sublist_app; [done|]. apply fmap_sublist, omap_sublist, Hq.
  - intros k Hk. apply sublist_nil_r. rewrite <- (D k Hk) at 2. apply Hq.
Qed.

Lemma out_of_snoc ids i H src dst p b :
  ids !! dst = Some b ->
  out_of ids i (H ++ [(src, dst, p)]) = out_of ids i H ++ (if decide (src = i) then [(b, p)] else []).
Proof. intros Hb. unfold out_of. rewrite omap_app. cbn. rewrite Hb. by case_decide. Qed.

Lemma into_snoc ids j H src dst p a :
  ids !! src = Some a ->
  into ids j (H ++ [(src, dst, p)]) = into ids j H ++ (if decide (dst = j) then [mkMsg a p] else []).
Proof. intros Ha. unfold into. rewrite omap_app. cbn. rewrite Ha. by case_decide. Qed.

Lemma shift_sublist (q : gmap nat (list string)) i t rest k :
  q !!! i = t :: rest -> ((<[i := rest]> q) !!! k) `sublist_of` (q !!! k).
Proof.
  intros Hq. destruct (decide (i = k)) as [<-|Hne].
  - rewrite lookup_total_insert_eq, Hq. by constructor.
  - by rewrite lookup_total_insert_ne.
Qed.

(** A frame the server handles: the history grows when it is forwarded. *)
Lemma up_step_inv n H i t rest w' :
  NetInv n H -> up n !!! i = t :: rest -> serve (SMessage i (Text t)) (server n) = Ret w' ->
  exists H', NetInv (mkNet w' (clients n) (<[i := rest]> (up n))
    (distribute (drop (length (frames (app (server n)))) (frames (app w'))) (down n)) (opened n)) H'.
Proof.
  intros HI Hq Hs. pose proof HI as [S O K Out U In D].
  destruct (serve_ok _ (SMessage i (Text t)) _ S) as (w2 & Hw2 & HI2); [by intros ? ?%not_elem_of_nil|].
  assert (w2 = w') as -> by congruence.
  assert (forall k, clients n !! k = None -> (<[i := rest]> (up n)) !!! k = []) as HU.
  { intros k Hk. apply sublist_nil_r. rewrite <- (U k Hk). by eapply shift_sublist. }
  destruct (message_effect _ _ _ _ _ S Hs) as [Hn [Hf|(a & b & p & j & t' & Ha & Hsay & Hb & He & Hf)]].
  - exists H. rewrite Hf, drop_all. split; cbn [server clients up down opened distribute foldl]; unfold names;
      cbn [server]; rewrite ?Hn; try done.
    intros k c Hc. etrans; [|by apply Out]. apply sublist_app; [done|]. eapply omap_sublist, shift_sublist, Hq.
  - exists (H ++ [(i, j, p)]). rewrite Hf, drop_app_length.
    assert (says t' = Some (a, p)) as Ht' by (unfold says; by rewrite (envelope_opens _ _ _ He)).
    split; cbn [server clients up down opened distribute foldl fst snd]; unfold names; cbn [server];
      rewrite ?Hn; try done.
    + apply Forall_app. split; [done|]. by repeat constructor; cbn; eexists.
    + intros k c Hc. rewrite (out_of_snoc _ _ _ _ _ _ b Hb). case_decide as Hk.
      * subst k. rewrite lookup_total_insert_eq, <- app_assoc. etrans; [|by apply Out].
        rewrite Hq. cbn. by rewrite Hsay.
      * rewrite lookup_total_insert_ne, app_nil_r by done. by apply Out.
    + intros k c Hc. rewrite push_lookup, (into_snoc _ _ _ _ _ _ a Ha), omap_app, fmap_app, app_assoc.
      apply sublist_app; [by apply In|]. case_decide; cbn; [|done]. by rewrite Ht'.
    + intros k Hk. rewrite push_lookup, decide_False, app_nil_r; [by apply D|].
      intros ->. destruct (name_opened n H k b HI Hb). congruence.
Qed.

Lemma net_step_inv n n' H : NetInv n H -> step n n' -> exists H', NetInv n' H'.
Proof.
  intros HI Hs. destruct Hs.
  - exists H. by apply new_client_inv.
  - exists H. by eapply client_step_inv.
  - exists H. apply (server_step_inv n H (SOpen i path)); try done.
    intros ws ->%list_elem_of_singleton. done.
  - exists H. apply (server_step_inv n H (SClosed i)); try done. by intros ws ?%not_elem_of_nil.
  - exists H. apply (server_step_inv n H (SDisconnect peer)); try done. by intros ws ?%not_elem_of_nil.
  - by eapply up_step_inv.
  - exists H. by eapply down_step_inv.
  - exists H. by apply lose_inv.
  - exists H. by apply lose_inv.
Qed.

Lemma reachable_inv n : rtc step empty_net n -> exists H, NetInv n H.
Proof.
  intros Hr. assert (exists H, NetInv empty_net H) as H0 by (exists []; apply empty_net_inv).
  induction Hr as [|n1 n2 n3 Hs _ IH]; [done|]. apply IH. destruct H0 as [H HI]. by eapply net_step_inv.
Qed.

Lemma reachable_client n i c : rtc step empty_net n -> clients n !! i = Some c -> WsClient.Inv c.
Proof.
  intros Hr. assert (map_Forall (fun _ => WsClient.Inv) (clients empty_net)) as H0 by done.
  cut (map_Forall (fun _ => WsClient.Inv) (clients n)); [by intros Hm; apply (Hm i c)|].
  induction Hr as [|n1 n2 n3 Hs _ IH]; [done|]. apply IH. clear IH.
  destruct Hs as [n k|n k a x x' Hx _ Ha| | | | |n k t rest x x' _ Hx Ha| |]; try done; cbn.
  - apply map_Forall_insert_2; [apply init_client_inv|done].
  - apply map_Forall_insert_2; [|done]. eapply act_client_ok; [done|]. by apply (H0 k x).
  - apply map_Forall_insert_2; [|done]. eapply act_client_ok; [done|]. by apply (H0 k x).
Qed.

Lemma into_elem ids j H m :
  m ∈ into ids j H -> exists i a p, (i, j, p) ∈ H /\ ids !! i = Some a /\ m = mkMsg a p.
Proof.
  intros ([[src dst] p] & Hin & Hr)%list_elem_of_omap. case_decide; [|done]. subst.
  apply fmap_Some in Hr as (a & Ha & ->). by exists src, a, p.
Qed.

Lemma out_of_elem ids i j b p H : (i, j, p) ∈ H -> ids !! j = Some b -> (b, p) ∈ out_of ids i H.
Proof.
  intros Hin Hb. apply list_elem_of_omap. exists (i, j, p). split; [done|].
  by rewrite decide_True, Hb.
Qed.

(** ** End to end *)

(** C12: for any number of clients and any interleaving of their calls, of the
    sockets' callbacks, of frames arriving and of connections that break: there
    is one history of relayed messages such that what the server relayed from a
    client is, in order, part of what this client sent, and what arrived at a
    client is, in order, part of what was relayed to it. So nothing is made up,
    duplicated, misrouted or reordered; in particular every message a handler is
    called with was sent with that payload by the client registered under the
    sender's name, to the name this client is registered under. And a frame that
    has reached the server can always be handled. *)
Theorem signaling_end_to_end (n : Net) :
  rtc step empty_net n ->
  (exists H : list relay, forall k c, clients n !! k = Some c ->
     out_of (names n) k H `sublist_of` sends (trace c) /\
     arrived (trace c) `sublist_of` into (names n) k H) /\
  (forall j c m, clients n !! j = Some c -> m ∈ delivered (trace c) ->
     exists i ci b, clients n !! i = Some ci /\ names n !! i = Some (from m) /\
       names n !! j = Some b /\ (b, payload m) ∈ sends (trace ci)) /\
  (forall i t rest, up n !!! i = t :: rest -> exists n', step n n' /\ up n' = <[i := rest]> (up n)).
Proof.
  intros Hr. destruct (reachable_inv n Hr) as [H HI]. pose proof HI as [S O K Out U In D].
  assert (forall k c, clients n !! k = Some c ->
     out_of (names n) k H `sublist_of` sends (trace c) /\
     arrived (trace c) `sublist_of` into (names n) k H) as Hist.
  { intros k c Hc. split; (etrans; [|by (apply Out || apply In)]); by apply sublist_inserts_r. }
  split_and!; [by exists H| |].
  - intros j c m Hc Hm.
    assert (m ∈ arrived (trace c)) as Harr.
    { rewrite (WsClient.i_all _ (reachable_client n j c Hr Hc)). apply elem_of_app. by left. }
    destruct (into_elem (names n) j H m) as (i & a & p & Hin & Ha & ->).
    { eapply elem_of_sublist; [done|]. by apply Hist. }
    pose proof (proj1 (Forall_forall _ _) K _ Hin) as [_ [b Hb]]. cbn in Hb.
    destruct (name_opened n H i a HI Ha) as [ci Hci]. exists i, ci, b. split_and!; try done.
    eapply elem_of_sublist; [by eapply out_of_elem|]. by apply Hist.
  - intros i t rest Hq. destruct (serve_ok _ (SMessage i (Text t)) _ S) as (w' & Hw & _);
      [by intros ? ?%not_elem_of_nil|]. eexists. split; [by eapply s_up|done].
Qed.

End Net.

(** ** Evaluation *)

Module Demo.

#[global] Instance strict : JsonStrict Toy.json.
Proof.
  split. intros kvs text _. apply Forall_forall. by intros.
Qed.

(** Clients "a" and "b" connect; "a" sends two messages, of which the second is
    lost with the connection. *)
Definition chat : list Label :=
  [LNew 0; LNew 1; LClient 0 AOpen; LOpen 0 (Some "/a"); LClient 1 AOpen; LOpen 1 (Some "/b");
   LClient 1 (AHandler true); LClient 1 AReplay; LClient 0 (ASend "b" "hi"); LUp 0;
   LClient 0 (ASend "b" "there"); LLose 0; LDown 1].

Definition after : Net := default empty_net (fires (JL := Toy.lib) chat empty_net).
Definition seen_by (i : nat) : list Event := from_option trace [] (clients after !! i).

Lemma signaling_end_to_end_witness :
  delivered (seen_by 1) = [mkMsg "a" "hi"] /\ sends (JL := Toy.lib) (seen_by 0) = [("b", "hi"); ("b", "there")] /\
  exists i ci b, clients after !! i = Some ci /\ names after !! i = Some "a" /\
    names after !! 1 = Some b /\ (b, "hi") ∈ sends (JL := Toy.lib) (trace ci).
Proof.
  split; [vm_compute; reflexivity|]. split; [vm_compute; reflexivity|].
  destruct (signaling_end_to_end (J := Toy.json) after) as (_ & H & _).
  - apply (fires_reach chat). vm_compute. reflexivity.
  - destruct (clients after !! 1) as [c|] eqn:Hc; [|exfalso; revert Hc; vm_compute; discriminate].
    apply (H 1 c (mkMsg "a" "hi") Hc).
    assert (delivered (from_option trace [] (clients after !! 1)) = [mkMsg "a" "hi"]) as Hd by (vm_compute; reflexivity).
    rewrite Hc in Hd. cbn [from_option] in Hd. rewrite Hd. left.
Defined.

End Demo.
