(* ===== verification/UdpDemo.v ===== *)
(** * The UDP demo: a client and a server on the transport

    [src/demo/pkg/rtt/udp]: the bridge between link callbacks and coroutines
    ([RttBridge.h]), and the coroutines of [Server.cpp] and [Client.cpp], as the
    application of the transport of [Udp]. A coroutine is where it is suspended;
    an awaited bridge operation that completes makes it ready, and the domain
    resumes it later, because a [RunTask] stays on its scheduler. *)

From Stdlib Require Import Strings.Ascii Strings.Byte.
From S2P Require Import Prelude StringView Rtt Udp Boot.

Open Scope outcome_scope.

(** ** The bridge *)

(** [RttBridge::Msg]: a message, or the disconnection of the link. *)
Definition Msg : Type := option (list byte).

(** [RttBridge]: which of the one-shot slots are filled, and the queue. *)
Record RttBridge := mkBridge { slot_link : bool; slot_message : bool; pending : list Msg }.

Definition new_bridge : RttBridge := mkBridge false false [].

(** Where the coroutine is: waiting for a link; ready with one; waiting for a
    message while it serves a link; ready with it; running; returned. *)
Inductive Point :=
| AtLink | GotLink (l : nat) | AtMessage (l : nat) | GotMessage (l : nat) (m : Msg) | Busy | Done (code : Z).

(** [handled] is what the coroutine logs: for a link, the message or the
    disconnection it got. *)
Record Program := mkProgram { bridge : RttBridge; point : Point; handled : list (nat * Msg) }.

(** [AwaitLink]. *)
Definition AwaitLink (a : Program) : Program :=
  mkProgram (mkBridge true (slot_message (bridge a)) (pending (bridge a))) AtLink (handled a).

(** [AwaitMessage], for a coroutine that serves [l]. *)
Definition AwaitMessage (l : nat) (a : Program) : Program :=
  match pending (bridge a) with
  | m :: rest => mkProgram (mkBridge (slot_link (bridge a)) (slot_message (bridge a)) rest) (GotMessage l m) (handled a)
  | [] => mkProgram (mkBridge (slot_link (bridge a)) true []) (AtMessage l) (handled a)
  end.

(** [RttBridge::Deliver]. *)
Definition Deliver (m : Msg) (a : Program) : Program :=
  if slot_message (bridge a) then
    mkProgram (mkBridge (slot_link (bridge a)) false (pending (bridge a)))
      (match point a with AtMessage l => GotMessage l m | p => p end) (handled a)
  else mkProgram (mkBridge (slot_link (bridge a)) false (pending (bridge a) ++ [m])) (point a) (handled a).

(** [RttBridge::MakeHandler] and [BridgeAcceptor::OnLink]; none of them calls
    the transport. *)
Definition on_received (a : Program) (l : nat) (d : list byte) : Program * list Cmd := (Deliver (Some d) a, []).
Definition on_disconnected (a : Program) (l : nat) : Program * list Cmd := (Deliver None a, []).
Definition on_link (a : Program) (l : nat) : Program * list Cmd * LinkHandler :=
  (if slot_link (bridge a) then
     mkProgram (mkBridge false (slot_message (bridge a)) (pending (bridge a))) (GotLink l) (handled a)
   else a, [], mkHandler true true).
Definition on_failed (a : Program) (e : Error) : Program * list Cmd := (a, []).

Abbreviation UWorld := (World (A := Program)).

Definition set_app (a : Program) (w : UWorld) : UWorld :=
  mkWorld (links w) (next w) (server w) (server_id w) a (trace w).

(** The coroutine goes on with the message it got, and logs it. *)
Definition log_handled (l : nat) (m : Msg) (w : UWorld) : UWorld :=
  set_app (mkProgram (bridge (app w)) Busy (handled (app w) ++ [(l, m)])) w.

Definition finish (code : Z) (w : UWorld) : UWorld :=
  set_app (mkProgram (bridge (app w)) (Done code) (handled (app w))) w.

Section Programs.
Context (maxDatagramSize : nat) (message : list byte).

Abbreviation run := (exec maxDatagramSize on_disconnected 0).

(** *** [ServerTask] *)

(** The loop is left: the locals are destroyed, the server among them. *)
Definition server_end (keepAlive : bool) (w : UWorld) : UWorld :=
  if keepAlive then set_app (AwaitLink (app w)) w else set_server None (finish 0 w).

(** [ServerTask] between two suspensions. *)
Definition server_resume (keepAlive : bool) (w : UWorld) : outcome UWorld :=
  match point (app w) with
  | GotLink l =>
    let! w1 := Send maxDatagramSize run l [] message (length message) w in
    Ret (set_app (AwaitMessage l (app w1)) w1)
  | GotMessage l None => Ret (server_end keepAlive (log_handled l None w))
  | GotMessage l (Some d) =>
    let! w1 := Disconnect on_disconnected run l (log_handled l (Some d) w) in
    Ret (server_end keepAlive w1)
  | _ => Ret w
  end.

Inductive SEvent := SDatagram (src : endpoint) (d : list byte) | SResume.

Definition server_step (keepAlive : bool) (e : SEvent) (w : UWorld) : outcome UWorld :=
  match e with
  | SDatagram src d => server_completion on_received on_link run src d w
  | SResume => server_resume keepAlive w
  end.

Fixpoint server_run (keepAlive : bool) (es : list SEvent) (w : UWorld) : outcome UWorld :=
  match es with
  | [] => Ret w
  | e :: es' => let! w1 := server_step keepAlive e w in server_run keepAlive es' w1
  end.

(** The server is open and the coroutine waits for its first link. *)
Definition waiting : Program := AwaitLink (mkProgram new_bridge AtLink []).
Definition server_start (id : string) : UWorld := init id waiting.

(** *** [ClientTask] *)

Definition client_resume (w : UWorld) : outcome UWorld :=
  match point (app w) with
  | GotLink l =>
    let! w1 := Send maxDatagramSize run l [] message (length message) w in
    Ret (set_app (AwaitMessage l (app w1)) w1)
  | GotMessage l None => Ret (finish 1 (log_handled l None w))
  | GotMessage l (Some d) =>
    let! w1 := Disconnect on_disconnected run l (log_handled l (Some d) w) in
    Ret (finish 0 w1)
  | _ => Ret w
  end.

Inductive CEvent :=
| COpen (results : expected (endpoint * list endpoint) ec) (connect : endpoint -> expected endpoint ec)
| CReceived (l : nat) (r : expected (list byte) ec)
| CResume.

Definition client_step (e : CEvent) (w : UWorld) : outcome UWorld :=
  match e with
  | COpen results connect => input maxDatagramSize on_received on_disconnected on_link on_failed run (IOpen results connect) w
  | CReceived l r => input maxDatagramSize on_received on_disconnected on_link on_failed run (IReceived l r) w
  | CResume => client_resume w
  end.

Fixpoint client_run (es : list CEvent) (w : UWorld) : outcome UWorld :=
  match es with
  | [] => Ret w
  | e :: es' => let! w1 := client_step e w in client_run es' w1
  end.

Definition client_start : UWorld := unopened waiting.

(** ** The queue between the transport and the coroutine *)

(** What an event tells the bridge. *)
Definition hears (e : Event) : option Msg :=
  match e with ERecv _ _ d => Some (Some d) | EDisc _ => Some None | _ => None end.
Definition heard (t : list Event) : list Msg := omap hears t.

Definition hand (p : Point) : list Msg := match p with GotMessage _ m => [m] | _ => [] end.

(** The link a coroutine works on. *)
Definition serving (p : Point) : option nat :=
  match p with GotLink l | AtMessage l | GotMessage l _ => Some l | _ => None end.

Record Fifo (a : Program) (t : list Event) : Prop := {
  f_all : heard t = (handled a).*2 ++ hand (point a) ++ pending (bridge a);
  f_slot : slot_message (bridge a) = true -> pending (bridge a) = [] /\ exists l, point a = AtMessage l;
  f_at l : point a = AtMessage l -> slot_message (bridge a) = true;
  f_link : slot_link (bridge a) = true -> point a = AtLink }.

Lemma heard_snoc t e : heard (t ++ [e]) = heard t ++ match hears e with Some m => [m] | None => [] end.
Proof. unfold heard. rewrite omap_app. cbn. by destruct (hears e). Qed.

Lemma fifo_other a t e : Fifo a t -> hears e = None -> Fifo a (t ++ [e]).
Proof. intros [F1 F2 F3 F4] He. split; try done. by rewrite heard_snoc, He, app_nil_r. Qed.

Lemma Deliver_fifo m a t e : Fifo a t -> hears e = Some m -> Fifo (Deliver m a) (t ++ [e]).
Proof.
  intros [F1 F2 F3 F4] He. unfold Deliver. destruct (slot_message (bridge a)) eqn:Es.
  - destruct (F2 eq_refl) as [Hp [l Hl]]. rewrite Hl, Hp in *. split; cbn; try done.
    + rewrite heard_snoc, He, F1. cbn. by rewrite app_nil_r.
    + intros Hk. by specialize (F4 Hk).
  - split; cbn; try done. by rewrite heard_snoc, He, F1, <- !app_assoc.
Qed.

Lemma serving_deliver m a : serving (point (Deliver m a)) = serving (point a).
Proof. unfold Deliver. destruct (slot_message (bridge a)); [|done]. cbn. by destruct (point a). Qed.

Lemma fifo_link a t l e : Fifo a t -> hears e = None -> Fifo (on_link a l).1.1 (t ++ [e]).
Proof.
  intros HF He. unfold on_link. cbn. destruct (slot_link (bridge a)) eqn:Es; [|by apply fifo_other].
  destruct (fifo_other a t e HF He) as [F1 F2 F3 F4]. rewrite (F4 Es) in *. split; cbn; try done.
  intros Hm. by destruct (F2 Hm) as [_ [k Hk]].
Qed.

Lemma fifo_await_link a t : Fifo a t -> hand (point a) = [] -> slot_message (bridge a) = false -> Fifo (AwaitLink a) t.
Proof. intros [F1 F2 F3 F4] Hh Hs. split; cbn; [by rewrite F1, Hh| |done|done]. by rewrite Hs. Qed.

Lemma fifo_await_message a t l :
  Fifo a t -> hand (point a) = [] -> slot_message (bridge a) = false -> slot_link (bridge a) = false ->
  Fifo (AwaitMessage l a) t.
Proof.
  intros [F1 F2 F3 F4] Hh Hs Hl. unfold AwaitMessage. rewrite Hh in F1.
  destruct (pending (bridge a)) as [|m rest] eqn:Ep; split; cbn; rewrite ?Hs, ?Hl; try done.
  intros _. split; [done|by eexists].
Qed.

(** ** Worlds *)

(** A property of the coroutine's state that the calls of the bridge and the
    common part of the two coroutines keep. *)
Class Stable (P : Program -> Prop) : Prop := {
  P_deliver m a : P a -> P (Deliver m a);
  P_link l a : slot_link (bridge a) = true -> point a = AtLink -> P a -> P (on_link a l).1.1;
  P_await l a : point a = GotLink l -> P a -> P (AwaitMessage l a);
  P_log l m a : point a = GotMessage l m -> P a -> P (mkProgram (bridge a) Busy (handled a ++ [(l, m)])) }.

#[local] Instance stable_True : Stable (fun _ => True).
Proof. by split. Qed.

Section Worlds.
Context (P : Program -> Prop) {HP : Stable P}.

(** The links of the server need it; the map and the coroutine name links. *)
Record Ok (w : UWorld) : Prop := {
  o_app : P (app w);
  o_mode l x : links w !! l = Some x -> mode x = Connected \/ is_Some (server w);
  o_map s ep l : server w = Some s -> s !! ep = Some l -> is_Some (links w !! l);
  o_serving l : serving (point (app w)) = Some l -> is_Some (links w !! l);
  o_fifo : Fifo (app w) (trace w) }.

Definition keeps (w w' : UWorld) : Prop :=
  (forall l, is_Some (links w !! l) -> is_Some (links w' !! l)) /\ (is_Some (server w) -> is_Some (server w')).

#[local] Instance keeps_preorder : PreOrder keeps.
Proof. split; [by intros w|]. intros w1 w2 w3 [A1 B1] [A2 B2]. split; auto. Qed.

Lemma ok_event e a w :
  Ok w -> P a -> Fifo a (trace w ++ [e]) -> (forall l, serving (point a) = Some l -> is_Some (links w !! l)) ->
  Ok (record a e w) /\ keeps w (record a e w).
Proof. intros [O0 O1 O2 O3 O4] Ha HF Hs. split; [split|split]; done. Qed.

Lemma ok_set_link l x x' w :
  Ok w -> links w !! l = Some x -> mode x' = mode x -> Ok (set_link l x' w) /\ keeps w (set_link l x' w).
Proof.
  intros [O0 O1 O2 O3 O4] Hl Hm.
  assert (keeps w (set_link l x' w)) as Hk.
  { split; [|done]. intros k Hk. cbn. apply lookup_insert_is_Some'. by right. }
  split; [|done]. split; cbn; [done|..].
  - intros k y [[<- <-]|[_ Hy]]%lookup_insert_Some; [rewrite Hm|]; by eapply O1.
  - intros s ep k Hs Hk'. apply Hk. by eapply O2.
  - intros k Hk'. apply Hk. by apply O3.
  - done.
Qed.

Lemma ok_app a w :
  Ok w -> P a -> Fifo a (trace w) -> (forall l, serving (point a) = Some l -> is_Some (links w !! l)) -> Ok (set_app a w).
Proof. intros [O0 O1 O2 O3 O4] Ha HF Hs. by split. Qed.

(** ** The transport's operations *)

Lemma Send_keeps l w :
  Ok w -> is_Some (links w !! l) ->
  exists w', Send maxDatagramSize run l [] message (length message) w = Ret w' /\ Ok w' /\ keeps w w' /\ app w' = app w.
Proof.
  intros HO [x Hl]. unfold Send. rewrite Hl. destruct (closed x); [by exists w|].
  cbn [exec obind app record].
  destruct (ok_event (EWriter l) (app w) w HO) as [HO1 HK1];
    [apply HO|apply fifo_other; [by apply HO|done]|by apply HO|]. set (w1 := record (app w) (EWriter l) w) in *.
  assert (forall e, hears e = None -> exists w', Ret (record (app w) e w1) = Ret w' /\ Ok w' /\ keeps w w' /\ app w' = app w) as He.
  { intros e He. eexists. split; [done|]. destruct (ok_event e (app w) w1 HO1) as [H1 H2];
      [apply HO1|apply fifo_other; [by apply HO1|done]|by apply HO1|]. split_and!; [done|by etransitivity|done]. }
  case_bool_decide; by apply He.
Qed.

Lemma Disconnect_keeps l w :
  Ok w -> is_Some (links w !! l) ->
  exists w', Disconnect on_disconnected run l w = Ret w' /\ Ok w' /\ keeps w w' /\
    (app w' = app w \/ app w' = Deliver None (app w)).
Proof.
  intros HO [x Hl]. unfold Disconnect. rewrite Hl. destruct (closed x); [exists w; by split_and!; [| | |left]|].
  set (x1 := mkLink _ _ _ true false _ _). destruct (ok_set_link l x x1 w HO Hl eq_refl) as [HO1 HK1].
  assert (exists w2, removeFromDispatch (mode x) (set_link l x1 w) = Ret w2 /\ Ok w2 /\ keeps w w2 /\ app w2 = app w)
    as (w2 & -> & HO2 & HK2 & Ha2).
  { unfold removeFromDispatch. destruct (mode x) as [|ep] eqn:Em; [by eexists|].
    destruct (o_mode _ HO l x Hl) as [?|[s Hs]]; [congruence|]. cbn [server set_link]. rewrite Hs.
    eexists. split; [done|]. destruct HO1 as [O0 O1 O2 O3 O4]. split_and!; try done.
    - split; cbn; try done.
      + intros k y Hk. right. by eexists.
      + intros s' ep' k [= <-] [_ Hk]%lookup_delete_Some. by apply (O2 s ep' k).
    - etransitivity; [exact HK1|]. split; [done|by eexists]. }
  cbn [obind]. destruct (onDisconnected (handler x)); [|exists w2; by split_and!; [| | |left]].
  cbn. eexists. split; [done|]. rewrite Ha2.
  destruct (ok_event (EDisc l) (Deliver None (app w)) w2 HO2) as [HO3 HK3].
  - apply P_deliver, HO.
  - rewrite <- Ha2. apply Deliver_fifo; [apply HO2|done].
  - intros k. rewrite serving_deliver, <- Ha2. apply HO2.
  - split_and!; [done|by etransitivity|by right].
Qed.

Lemma Disconnect_handled l w w' :
  Disconnect on_disconnected run l w = Ret w' -> handled (app w') = handled (app w).
Proof.
  unfold Disconnect. destruct (links w !! l) as [x|]; [|done]. destruct (closed x); [by intros [= <-]|].
  intros (w2 & Hr & Hd)%obind_Ret. assert (app w2 = app w) as Ha.
  { unfold removeFromDispatch in Hr. destruct (mode x); [by injection Hr as <-|].
    destruct (server _); [by injection Hr as <-|done]. }
  destruct (onDisconnected _); injection Hd as <-; cbn; rewrite Ha; [|done].
  unfold Deliver. by destruct (slot_message _).
Qed.

Lemma call_onReceived_keeps l x src d w :
  Ok w -> exists w', call_onReceived on_received run l x src d w = Ret w' /\ Ok w' /\ keeps w w'.
Proof.
  intros HO. unfold call_onReceived. destruct (onReceived (handler x)); [|by exists w].
  cbn. eexists. split; [done|]. apply ok_event; [done|apply P_deliver, HO|apply Deliver_fifo; [apply HO|done]|].
  intros k. rewrite serving_deliver. apply HO.
Qed.

Lemma DeliverReceived_keeps l src d w :
  Ok w -> is_Some (links w !! l) ->
  exists w', DeliverReceived on_received run l src d w = Ret w' /\ Ok w' /\ keeps w w'.
Proof.
  intros HO [x Hl]. unfold DeliverReceived. rewrite Hl. destruct (closed x); [by exists w|].
  by apply call_onReceived_keeps.
Qed.

Lemma SetHandler_keeps l h w :
  Ok w -> is_Some (links w !! l) -> exists w', SetHandler l h w = Ret w' /\ Ok w' /\ keeps w w'.
Proof.
  intros HO [x Hl]. unfold SetHandler. rewrite Hl. eexists. split; [done|]. by eapply ok_set_link.
Qed.

(** A new link is shown to the acceptor. *)
Lemma OnLink_keeps l w :
  Ok w -> is_Some (links w !! l) ->
  exists w', OnLink on_link run l w = Ret (mkHandler true true, w') /\ Ok w' /\ keeps w w'.
Proof.
  intros HO Hl. unfold OnLink, on_link. cbn. eexists. split; [done|].
  apply (ok_event _ (on_link (app w) l).1.1); [done| |by apply fifo_link; [apply HO|]|].
  { destruct (slot_link (bridge (app w))) eqn:Es; [|unfold on_link; cbn; rewrite Es; apply HO].
    apply P_link; [done|by apply (f_link _ _ (o_fifo _ HO))|apply HO]. }
  intros k. cbn. destruct (slot_link _); [by intros [= <-]|apply HO].
Qed.

Lemma new_link_keeps x w s' :
  Ok w -> mode x = Connected \/ is_Some s' ->
  (is_Some (server w) -> is_Some s') ->
  (forall s ep l, s' = Some s -> s !! ep = Some l -> l = next w \/ is_Some (links w !! l)) ->
  let w' := set_server s' (new_link x w).2 in Ok w' /\ keeps w w' /\ is_Some (links w' !! next w).
Proof.
  intros [O0 O1 O2 O3 O4] Hm Hs Hmap. cbn.
  assert (forall k, is_Some (links w !! k) -> is_Some (<[next w := x]> (links w) !! k)) as Hk
    by (intros k H; apply lookup_insert_is_Some'; by right).
  split_and!; [|done|rewrite lookup_insert_eq; by eexists]. split; cbn; auto.
  - intros k y [[<- <-]|[_ Hy]]%lookup_insert_Some; [done|]. destruct (O1 k y Hy); auto.
  - intros s ep k Hs' Hk'. destruct (Hmap s ep k Hs' Hk') as [->|?]; [|by apply Hk].
    rewrite lookup_insert_eq. by eexists.
Qed.

Lemma datagram_keeps src d w :
  Ok w -> is_Some (server w) ->
  exists w', server_completion on_received on_link run src d w = Ret w' /\ Ok w' /\ keeps w w'.
Proof.
  intros HO [s Hs].
  cut (exists w', OnReceived on_received on_link run src d w = Ret w' /\ Ok w' /\ keeps w w').
  { intros (w' & Hr & HO' & HK). exists w'. unfold server_completion. rewrite Hs, Hr. cbn.
    destruct (proj2 HK) as [s' ->]; [by eexists|done]. }
  unfold OnReceived. rewrite Hs. destruct (s !! src) as [l|] eqn:El.
  { apply DeliverReceived_keeps; [done|]. by eapply o_map. }
  cbn [new_link]. set (x := mkLink (Shared src) _ _ _ _ _ _).
  destruct (new_link_keeps x w (Some (<[src := next w]> s)) HO) as (HO1 & HK1 & Hn1).
  { right. by eexists. } { intros _. by eexists. }
  { intros s' ep l [= <-] [[<- <-]|[_ Hl]]%lookup_insert_Some; [by left|right]. by eapply o_map. }
  cbn [new_link snd] in *. match type of HO1 with Ok ?y => set (w1 := y) in * end.
  destruct (OnLink_keeps (next w) w1 HO1 Hn1) as (w2 & -> & HO2 & HK2). cbn [obind].
  destruct (SetHandler_keeps (next w) (mkHandler true true) w2 HO2) as (w3 & -> & HO3 & HK3); [by apply HK2|]. cbn [obind].
  destruct (DeliverReceived_keeps (next w) src d w3 HO3) as (w4 & -> & HO4 & HK4); [by apply HK3, HK2|].
  exists w4. split_and!; [done|done|]. etransitivity; [exact HK1|]. etransitivity; [exact HK2|]. by etransitivity.
Qed.

(** ** The coroutines *)

(** A coroutine that is not suspended has no slot filled. *)
Lemma no_slots a t : Fifo a t -> is_Some (serving (point a)) -> (forall l, point a <> AtMessage l) ->
  slot_message (bridge a) = false /\ slot_link (bridge a) = false.
Proof.
  intros [F1 F2 F3 F4] Hs Hn. split.
  - destruct (slot_message (bridge a)); [|done]. destruct (F2 eq_refl) as [_ [l Hl]]. by destruct (Hn l).
  - destruct (slot_link (bridge a)); [|done]. rewrite (F4 eq_refl) in Hs. by destruct Hs.
Qed.

(** A link: the message is sent, and the next one is awaited. *)
Lemma served_link l w :
  Ok w -> point (app w) = GotLink l ->
  exists w', (let! w1 := Send maxDatagramSize run l [] message (length message) w in
              Ret (set_app (AwaitMessage l (app w1)) w1)) = Ret w' /\ Ok w' /\ keeps w w'.
Proof.
  intros HO Hp. assert (is_Some (links w !! l)) as Hl by (apply HO; by rewrite Hp).
  destruct (no_slots _ _ (o_fifo _ HO)) as [S1 S2]; [by rewrite Hp; eexists|by rewrite Hp|].
  destruct (Send_keeps l w HO Hl) as (w1 & -> & HO1 & HK & Ha). cbn [obind].
  eexists. split; [done|]. split; [|done]. apply ok_app; [done|rewrite Ha; apply P_await; [done|apply HO]| |].
  - apply fifo_await_message; [apply HO1|by rewrite Ha, Hp|by rewrite Ha..].
  - intros k Hk. apply HK. unfold AwaitMessage in Hk. by destruct (pending _); injection Hk as <-.
Qed.

Lemma logged_ok l m w :
  Ok w -> point (app w) = GotMessage l m ->
  Ok (log_handled l m w) /\ slot_message (bridge (app w)) = false /\ slot_link (bridge (app w)) = false.
Proof.
  intros HO Hp. destruct (no_slots _ _ (o_fifo _ HO)) as [S1 S2]; [by rewrite Hp; eexists|by rewrite Hp|].
  split_and!; [|done|done]. apply ok_app; [done|apply P_log; [done|apply HO]| |done]. pose proof (o_fifo _ HO) as [F1 _ _ _].
  split; cbn; rewrite ?S1, ?S2; try done. rewrite F1, Hp, fmap_app, <- app_assoc. done.
Qed.

(** A message: it is logged and the link is disconnected. *)
Lemma served_message l d w :
  Ok w -> point (app w) = GotMessage l (Some d) ->
  exists w', Disconnect on_disconnected run l (log_handled l (Some d) w) = Ret w' /\ Ok w' /\ keeps w w' /\
    point (app w') = Busy /\ slot_message (bridge (app w')) = false /\ slot_link (bridge (app w')) = false.
Proof.
  intros HO Hp. assert (is_Some (links w !! l)) as Hl by (apply HO; by rewrite Hp).
  destruct (logged_ok l (Some d) w HO Hp) as (HO1 & S1 & S2).
  destruct (Disconnect_keeps l _ HO1 Hl) as (w' & -> & HO' & HK & Ha).
  exists w'. split_and!; try done; destruct Ha as [-> | ->]; cbn; try done; unfold Deliver; cbn; by rewrite S1.
Qed.

End Worlds.

(** *** The server *)

#[local] Abbreviation SOk := (Ok (fun _ => True)).

(** The server's coroutine runs, or has returned with its server. *)
Definition Serving (keepAlive : bool) (w : UWorld) : Prop :=
  Fifo (app w) (trace w) /\
  (SOk w /\ is_Some (server w) \/ keepAlive = false /\ server w = None /\ point (app w) = Done 0).

Lemma fifo_done a t code :
  Fifo a t -> point a = Busy -> slot_message (bridge a) = false -> slot_link (bridge a) = false ->
  Fifo (mkProgram (bridge a) (Done code) (handled a)) t.
Proof. intros [F1 F2 F3 F4] Hp S1 S2. rewrite Hp in *. split; cbn; rewrite ?S1, ?S2; done. Qed.

Lemma server_end_ok keepAlive w :
  SOk w -> is_Some (server w) -> point (app w) = Busy ->
  slot_message (bridge (app w)) = false -> slot_link (bridge (app w)) = false ->
  Serving keepAlive (server_end keepAlive w).
Proof.
  intros HO Hs Hp S1 S2. unfold server_end. destruct keepAlive.
  - assert (Fifo (AwaitLink (app w)) (trace w)) as HF by (apply fifo_await_link; [apply HO|by rewrite Hp|done]).
    split; [done|]. left. split; [by apply ok_app|done].
  - split; [apply fifo_done; try done; apply HO|]. by right.
Qed.

Lemma server_resume_ok keepAlive w :
  Serving keepAlive w -> exists w', server_resume keepAlive w = Ret w' /\ Serving keepAlive w'.
Proof.
  intros HS. pose proof HS as [_ [[HO Hs]|(_ & _ & Hp)]]; unfold server_resume; [|rewrite Hp; by exists w].
  destruct (point (app w)) as [|l|l|l [d|]| |code] eqn:Hp; try by exists w.
  - destruct (served_link (fun _ => True) l w HO Hp) as (w' & -> & HO' & HK). exists w'. split; [done|].
    split; [apply HO'|]. left. split; [done|by apply HK].
  - destruct (served_message (fun _ => True) l d w HO Hp) as (w' & -> & HO' & HK & Hb & S1 & S2). cbn [obind].
    eexists. split; [done|]. apply server_end_ok; try done. by apply HK.
  - destruct (logged_ok (fun _ => True) l None w HO Hp) as (HO' & S1 & S2). eexists. split; [done|]. by apply server_end_ok.
Qed.

Lemma server_step_ok keepAlive e w w' :
  Serving keepAlive w -> server_step keepAlive e w = Ret w' -> Serving keepAlive w'.
Proof.
  intros HS Hr. destruct e as [src d|]; cbn [server_step] in Hr.
  - destruct HS as [_ [[HO Hs]|(_ & Hs & _)]]; [|unfold server_completion in Hr; by rewrite Hs in Hr].
    destruct (datagram_keeps (fun _ => True) src d w HO Hs) as (w1 & H1 & HO1 & HK). assert (w1 = w') as -> by congruence.
    split; [apply HO1|]. left. split; [done|by apply HK].
  - destruct (server_resume_ok keepAlive w HS) as (w1 & H1 & HS1). congruence.
Qed.

Lemma server_step_returns e w : Serving true w -> exists w', server_step true e w = Ret w'.
Proof.
  intros HS. destruct e as [src d|]; cbn.
  - destruct HS as [_ [[HO Hs]|(? & _)]]; [|done]. destruct (datagram_keeps (fun _ => True) src d w HO Hs) as (w' & H & _). by exists w'.
  - destruct (server_resume_ok true w HS) as (w' & H & _). by exists w'.
Qed.

Lemma server_run_ok keepAlive es w w' :
  Serving keepAlive w -> server_run keepAlive es w = Ret w' -> Serving keepAlive w'.
Proof.
  revert w. induction es as [|e es IH]; intros w HS; cbn; [by intros [= <-]|].
  intros (w1 & H1 & H2)%obind_Ret. eapply IH; [|done]. by eapply server_step_ok.
Qed.

Lemma server_run_returns es w : Serving true w -> exists w', server_run true es w = Ret w'.
Proof.
  revert w. induction es as [|e es IH]; intros w HS; cbn; [by eexists|].
  destruct (server_step_returns e w HS) as [w1 H1]. rewrite H1. cbn. apply IH. by eapply server_step_ok.
Qed.

Lemma waiting_fifo : Fifo waiting [].
Proof. by split. Qed.

Lemma server_start_serving keepAlive id : Serving keepAlive (server_start id).
Proof.
  assert (SOk (server_start id)) as HO.
  { split; cbn; try done. by intros s ep l [= <-]. }
  split; [apply HO|]. left. split; [done|by eexists].
Qed.

(** *** The client *)

Definition exit_code (m : Msg) : Z := match m with Some _ => 0 | None => 1 end.

(** The client handles one message or disconnection and returns by it. *)
Definition Session (a : Program) : Prop :=
  match point a with
  | Busy => exists l m, handled a = [(l, m)]
  | Done c => exists l m, handled a = [(l, m)] /\ c = exit_code m
  | _ => handled a = []
  end.

#[local] Instance stable_session : Stable Session.
Proof.
  split; unfold Session.
  - intros m a HP. unfold Deliver. destruct (slot_message _); [|done]. cbn. by destruct (point a).
  - intros l a Hs Hp. unfold on_link. cbn. rewrite Hs, Hp. done.
  - intros l a Hp. rewrite Hp. unfold AwaitMessage. by destruct (pending _).
  - intros l m a Hp. rewrite Hp. cbn. intros ->. by exists l, m.
Qed.

#[local] Abbreviation COk := (Ok Session).

Lemma DoReceive_keeps l w : COk w -> is_Some (links w !! l) -> exists w', DoReceive l w = Ret w' /\ COk w' /\ keeps w w'.
Proof.
  intros HO [x Hl]. unfold DoReceive. rewrite Hl. destruct (closed x); [by exists w|].
  destruct (mode x) eqn:Em; [|by exists w]. eexists. split; [done|]. by eapply ok_set_link.
Qed.

Lemma client_connected_keeps local remote w :
  COk w -> exists w', client_connected on_link run local remote w = Ret w' /\ COk w'.
Proof.
  intros HO. unfold client_connected. cbn [new_link]. set (x := mkLink Connected _ _ _ _ _ _).
  destruct (new_link_keeps Session x w (server w) HO) as (HO1 & HK1 & Hn1); [by left|done| |].
  { intros s ep l Hs Hl. right. by eapply o_map. }
  destruct w as [ls nx sv sid a t]. unfold set_server in *. cbn [links next server server_id app trace new_link snd] in *. match type of HO1 with Ok _ ?y => set (w1 := y) in * end.
  destruct (OnLink_keeps Session nx w1 HO1 Hn1) as (w2 & -> & HO2 & HK2). cbn [obind]. unfold StartReceive.
  destruct (SetHandler_keeps Session nx (mkHandler true true) w2 HO2) as (w3 & -> & HO3 & HK3); [by apply HK2|].
  cbn [obind]. assert (is_Some (links w3 !! nx)) as H3 by (by apply HK3, HK2).
  destruct (DoReceive_keeps nx w3 HO3 H3) as (w4 & H4 & HO4 & _).
  destruct H3 as [x3 ->]. destruct (mode x3); [by exists w4|by exists w3].
Qed.

Lemma OnLinkFailed_keeps e w : COk w -> exists w', OnLinkFailed on_failed run e w = Ret w' /\ COk w'.
Proof.
  intros HO. unfold OnLinkFailed. cbn. eexists. split; [done|].
  apply ok_event; [done|apply HO|apply fifo_other; [apply HO|done]|apply HO].
Qed.

Lemma receive_completion_keeps l r w :
  COk w -> is_Some (links w !! l) ->
  exists w', receive_completion on_received on_disconnected run l r w = Ret w' /\ COk w'.
Proof.
  intros HO [x Hl]. unfold receive_completion. rewrite Hl. set (x0 := mkLink _ _ _ _ _ false _).
  destruct (ok_set_link Session l x x0 w HO Hl eq_refl) as [HO1 HK1]. set (w0 := set_link l x0 w) in *.
  assert (is_Some (links w0 !! l)) as Hl0 by (apply HK1; by eexists).
  destruct r as [d|e].
  - destruct (call_onReceived_keeps Session l x None d w0 HO1) as (w1 & -> & HO2 & HK2). cbn [obind].
    destruct (DoReceive_keeps l w1 HO2) as (w2 & H2 & HO3 & _); [by apply HK2|]. by exists w2.
  - destruct (closed x); [by exists w0|].
    destruct (Disconnect_keeps Session l w0 HO1 Hl0) as (w1 & H1 & HO2 & _). by exists w1.
Qed.

Lemma fifo_finish code w :
  COk w -> point (app w) = Busy -> slot_message (bridge (app w)) = false -> slot_link (bridge (app w)) = false ->
  (exists l m, handled (app w) = [(l, m)] /\ code = exit_code m) -> COk (finish code w).
Proof.
  intros HO Hp S1 S2 Hh. apply ok_app; [done|done| |done]. apply fifo_done; try done. apply HO.
Qed.

Lemma client_resume_ok w : COk w -> exists w', client_resume w = Ret w' /\ COk w'.
Proof.
  intros HO. unfold client_resume. pose proof (o_app _ _ HO) as HS. unfold Session in HS.
  destruct (point (app w)) as [|l|l|l [d|]| |code] eqn:Hp; try by exists w.
  - destruct (served_link Session l w HO Hp) as (w' & -> & HO' & _). by exists w'.
  - destruct (served_message Session l d w HO Hp) as (w' & Hr & HO' & _ & Hb & S1 & S2). rewrite Hr. cbn [obind].
    eexists. split; [done|]. apply fifo_finish; try done.
    rewrite (Disconnect_handled l (log_handled l (Some d) w) w' Hr). cbn. rewrite HS. by exists l, (Some d).
  - destruct (logged_ok Session l None w HO Hp) as (HO' & S1 & S2). eexists. split; [done|].
    apply fifo_finish; try done. cbn. rewrite HS. by exists l, None.
Qed.

Lemma client_step_ok e w : COk w -> exists w', client_step e w = Ret w' /\ COk w'.
Proof.
  intros HO. destruct e as [results connect|l r|]; cbn [client_step input].
  - unfold client_Open. destruct results as [[remote more]|e]; [|by apply OnLinkFailed_keeps].
    destruct (connect remote); [by apply client_connected_keeps|by apply OnLinkFailed_keeps].
  - destruct (links w !! l) as [x|] eqn:Hl; [|by exists w]. destruct (receiving x); [|by exists w].
    apply receive_completion_keeps; [done|by eexists].
  - by apply client_resume_ok.
Qed.

Lemma client_run_ok es w : COk w -> exists w', client_run es w = Ret w' /\ COk w'.
Proof.
  revert w. induction es as [|e es IH]; intros w HO; cbn [client_run]; [by exists w|].
  destruct (client_step_ok e w HO) as (w1 & -> & HO1). cbn [obind]. by apply IH.
Qed.

Lemma client_start_ok : COk client_start.
Proof. by split. Qed.

(** ** Theorems *)

(** The bridge is a queue: whatever datagrams arrive and whenever the coroutine
    is resumed, what the coroutine has handled, what it has in hand and what is
    pending are, in order, all that the links have reported; the coroutine does
    not wait for a message while one is pending; and the keep-alive server never
    stops serving. *)
Theorem bridge_is_fifo (keepAlive : bool) (id : string) (es : list SEvent) :
  (forall w, server_run keepAlive es (server_start id) = Ret w ->
     heard (trace w) = (handled (app w)).*2 ++ hand (point (app w)) ++ pending (bridge (app w)) /\
     (forall l, point (app w) = AtMessage l -> pending (bridge (app w)) = [])) /\
  (keepAlive = true -> exists w, server_run keepAlive es (server_start id) = Ret w).
Proof.
  split.
  - intros w Hr. destruct (server_run_ok _ _ _ _ (server_start_serving keepAlive id) Hr) as [[F1 F2 F3 F4] _].
    split; [done|]. intros l Hl. by apply F2, (F3 l).
  - intros ->. apply server_run_returns, server_start_serving.
Qed.

(** The state of the keep-alive server between sessions. *)
Definition between (queue : list Msg) (w : UWorld) : Prop :=
  bridge (app w) = mkBridge true false queue /\ point (app w) = AtLink.

(** A new peer whose first datagram arrives between two sessions. *)
Lemma session_step queue s src d w :
  between queue w -> server w = Some s -> s !! src = None ->
  exists w' x, server_run true [SDatagram src d; SResume] w = Ret w' /\
    links w' !! next w = Some x /\ mode x = Shared src /\ closed x = false /\ handler x = mkHandler true true /\
    server w' = Some (<[src := next w]> s) /\ handled (app w') = handled (app w) /\
    bridge (app w') = mkBridge false false (tail (queue ++ [Some d])) /\
    point (app w') = GotMessage (next w) (default (Some d) (head queue)).
Proof.
  intros [Hb Hp] Hs Hsrc. cbn [server_run server_step]. unfold server_completion, OnReceived. rewrite Hs, Hsrc.
  cbn [new_link]. unfold OnLink, on_link. cbn -[lookup insert server_resume]. rewrite Hb.
  cbn -[lookup insert server_resume]. unfold SetHandler. cbn -[lookup insert server_resume].
  rewrite lookup_insert_eq. cbn -[lookup insert server_resume]. unfold DeliverReceived.
  cbn -[lookup insert server_resume]. rewrite lookup_insert_eq. cbn -[lookup insert server_resume].
  unfold server_resume. cbn -[lookup insert Send]. unfold Send. cbn -[lookup insert bool_decide].
  rewrite lookup_insert_eq. cbn -[lookup insert bool_decide].
  case_bool_decide; cbn -[lookup insert]; destruct queue as [|m queue]; cbn -[lookup insert];
    (do 2 eexists; split_and!; [done|apply lookup_insert_eq|done..]).
Qed.

Lemma server_run_app keepAlive es es' w w1 :
  server_run keepAlive es w = Ret w1 -> server_run keepAlive (es ++ es') w = server_run keepAlive es' w1.
Proof.
  revert w. induction es as [|e es IH]; intros w; cbn; [by intros [= <-]|].
  intros (w2 & -> & H2)%obind_Ret. cbn. by apply IH.
Qed.

(** A session leaves a disconnection behind: when a peer's message has been
    handled, the server disconnects the link, hears its own disconnection, and
    leaves it in the queue that all sessions share. *)
Theorem session_leaves_disconnect (src : endpoint) (d : list byte) (s : gmap endpoint nat) (w : UWorld) :
  between [] w -> server w = Some s -> s !! src = None ->
  exists w', server_run true [SDatagram src d; SResume; SResume] w = Ret w' /\
    handled (app w') = handled (app w) ++ [(next w, Some d)] /\ between [None] w'.
Proof.
  intros Hb Hs Hsrc. destruct (session_step [] s src d w Hb Hs Hsrc)
    as (w1 & x & Hr & Hx & Hm & Hc & Hh & Hs1 & Ha1 & Hb1 & Hp1).
  change [SDatagram src d; SResume; SResume] with ([SDatagram src d; SResume] ++ [SResume]).
  rewrite (server_run_app true _ [SResume] w w1 Hr).
  cbn in Hp1, Hb1. cbn [server_run server_step]. unfold server_resume. rewrite Hp1. unfold Disconnect.
  cbn -[lookup insert]. rewrite Hx, Hc, Hm. cbn -[lookup insert]. rewrite Hs1, Hh. cbn -[lookup insert].
  rewrite Hb1. cbn -[lookup insert]. eexists. split_and!; [done|cbn; by rewrite Ha1|done].
Qed.

(** And the next peer pays for it: the server, still serving every peer in
    turn, takes the left-over disconnection for the new peer's, gives this peer
    up without disconnecting its link, and leaves the peer's message in the queue
    for the session after it. *)
Theorem stale_disconnect_ends_next_session (src : endpoint) (d : list byte) (queue : list Msg)
    (s : gmap endpoint nat) (w : UWorld) :
  between (None :: queue) w -> server w = Some s -> s !! src = None ->
  exists w' x, server_run true [SDatagram src d; SResume; SResume] w = Ret w' /\
    handled (app w') = handled (app w) ++ [(next w, None)] /\ between (queue ++ [Some d]) w' /\
    links w' !! next w = Some x /\ closed x = false /\ server w' = Some (<[src := next w]> s).
Proof.
  intros Hb Hs Hsrc. destruct (session_step (None :: queue) s src d w Hb Hs Hsrc)
    as (w1 & x & Hr & Hx & Hm & Hc & Hh & Hs1 & Ha1 & Hb1 & Hp1).
  change [SDatagram src d; SResume; SResume] with ([SDatagram src d; SResume] ++ [SResume]).
  rewrite (server_run_app true _ [SResume] w w1 Hr).
  cbn in Hp1, Hb1. cbn [server_run server_step]. unfold server_resume. rewrite Hp1. cbn -[lookup insert].
  rewrite Hb1. do 2 eexists. split_and!; [done|cbn; by rewrite Ha1|done|exact Hx|done|done].
Qed.

(** The client: every sequence of completions and resumptions is handled, and
    when the program ends its exit code tells what the link reported first: a
    message (0) or its disconnection (1). *)
Theorem client_exit_code (es : list CEvent) :
  exists w, client_run es client_start = Ret w /\
    forall c, point (app w) = Done c -> exists m rest, heard (trace w) = m :: rest /\ c = exit_code m.
Proof.
  destruct (client_run_ok es client_start client_start_ok) as (w & Hr & HO). exists w. split; [done|].
  intros c Hp. pose proof (o_app _ _ HO) as HS. unfold Session in HS. rewrite Hp in HS.
  destruct HS as (l & m & Hh & ->). pose proof (f_all _ _ (o_fifo _ _ HO)) as F1. rewrite Hh in F1.
  by exists m, (hand (point (app w)) ++ pending (bridge (app w))).
Qed.

(** A client that cannot be opened never ends: the acceptor drops the error, so
    that the coroutine waits for a link for ever. *)
Theorem failed_open_hangs (results : expected (endpoint * list endpoint) ec)
    (connect : endpoint -> expected endpoint ec) (es : list CEvent) :
  (forall r more, results = Value (r, more) -> exists e, connect r = Unexpected e) ->
  (forall r c, COpen r c ∉ es) ->
  exists w, client_run (COpen results connect :: es) client_start = Ret w /\ point (app w) = AtLink.
Proof.
  intros Hf Hes. assert (exists w, client_step (COpen results connect) client_start = Ret w /\
    links w = ∅ /\ point (app w) = AtLink) as (w & Hw & Hl & Hp).
  { cbn. unfold client_Open. destruct results as [[r more]|e]; [|by eexists].
    destruct (Hf r more eq_refl) as [e ->]. by eexists. }
  exists w. split; [|done]. cbn [client_run]. rewrite Hw. cbn [obind]. clear Hw Hf.
  induction es as [|e es IH]; [done|]. cbn [client_run].
  assert (client_step e w = Ret w) as ->; [|cbn; apply IH; intros r c Hin; by apply (Hes r c); right].
  destruct e as [r c|l r|]; [by destruct (Hes r c); left| |]; cbn.
  - by rewrite Hl, lookup_empty.
  - unfold client_resume. by rewrite Hp.
Qed.

End Programs.

(** ** Options *)

Open Scope Z_scope.

Definition DefaultHost : view := sv "127.0.0.1".
Definition DefaultPort : Z := 6000.

(** [static_cast<std::uint16_t>]. *)
Definition to_uint16 (v : Z) : Z := v mod 2 ^ 16.

(** [main] of the server: the port and the keep-alive flag. *)
Definition server_options (args : CliArgs.t) : Z * bool :=
  (if decide (1 < length args)%nat then
     match CliArgs.GetIntArg args 1 with Value p => to_uint16 p | Unexpected _ => DefaultPort end
   else DefaultPort, CliArgs.Contains args (sv "-k")).

(** [main] of the client: the host and the port, or the exit code. *)
Definition client_options (args : CliArgs.t) : expected (view * Z) Z :=
  match args !! 1%nat with
  | None => Value (DefaultHost, DefaultPort)
  | Some host =>
    if decide (2 < length args)%nat then
      match CliArgs.GetIntArg args 2 with Value p => Value (host, to_uint16 p) | Unexpected _ => Unexpected 1 end
    else Value (host, DefaultPort)
  end.

(** The port is always one of the 2^16; the client takes any [int] for it, wrapped
    around, and ends with code 1 exactly when a port is given and is no [int]. *)
Theorem ports_in_range (args : CliArgs.t) :
  0 <= (server_options args).1 < 2 ^ 16 /\
  match client_options args with
  | Value (_, p) => 0 <= p < 2 ^ 16
  | Unexpected c => c = 1 /\ (2 < length args)%nat /\ exists e, CliArgs.GetIntArg args 2 = Unexpected e
  end.
Proof.
  assert (forall v, 0 <= to_uint16 v < 2 ^ 16) as Hr by (intros v; apply Z.mod_pos_bound; lia).
  assert (0 <= DefaultPort < 2 ^ 16) as Hd by done.
  split.
  - cbn [server_options fst]. case_decide; [|done]. by destruct (CliArgs.GetIntArg args 1).
  - unfold client_options. destruct (args !! 1%nat); [|done]. case_decide; [|done].
    destruct (CliArgs.GetIntArg args 2); [done|]. by split_and!; [| |eexists].
Qed.

(** ** Evaluation *)

Module Demo.

Definition ep (n : N) : endpoint := mkEp "10.0.0.1" n.
Definition peer (n : N) (d : list byte) : list SEvent := [SDatagram (ep n) d; SResume; SResume].
Definition after (es : list SEvent) : UWorld :=
  match server_run 8 [x2a] true es (server_start "0.0.0.0:6000") with Ret w => w | _ => server_start "" end.

(** Three peers send one message each: the second is given up, and its message
    is handled as the third's. *)
Lemma three_peers :
  handled (app (after (peer 1 [x01] ++ peer 2 [x02] ++ peer 3 [x03]))) =
    [(0, Some [x01]); (1, None); (2, Some [x02])]%nat.
Proof. vm_compute. reflexivity. Qed.

Lemma stale_disconnect_ends_next_session_witness :
  exists w' x, server_run 8 [x2a] true (peer 2 [x02]) (after (peer 1 [x01])) = Ret w' /\
    handled (app w') = [(0, Some [x01]); (1, None)]%nat /\ between [Some [x02]] w' /\
    links w' !! 1%nat = Some x /\ closed x = false /\ server w' = Some {[ep 2 := 1%nat]}.
Proof.
  apply (stale_disconnect_ends_next_session 8 [x2a] (ep 2) [x02] [] ∅ (after (peer 1 [x01])));
    [split|..]; vm_compute; reflexivity.
Defined.

Lemma failed_open_hangs_witness :
  exists w, client_run 8 [x2a] [COpen (Unexpected host_not_found) (fun e => Value e); CResume; CResume]
    client_start = Ret w /\ point (app w) = AtLink.
Proof.
  apply (failed_open_hangs 8 [x2a] (Unexpected host_not_found) (fun e => Value e) [CResume; CResume]);
    [done|]. intros r c. rewrite !not_elem_of_cons. split_and!; [done..|]. apply not_elem_of_nil.
Defined.

Lemma wrapped_port :
  client_options (sv <$> ["client"; "localhost"; "71536"]) =
    Value (sv "localhost", DefaultPort).
Proof. vm_compute. reflexivity. Qed.

End Demo.
