(* ===== verification/Service.v ===== *)
(** * A service with a worker thread

    [src/demo/try/exec/hello_opstate.cpp] ([ServiceInlineOp], [ServiceZeroAlloc])
    and [hello_service_pure.cpp] ([FileServicePure]): an object that starts work
    on its own thread in its constructor and cancels and awaits it in its
    destructor, with a mutex, a condition variable and a flag. The three classes
    have the same members in the same order and the same protocol, which is
    modelled once, as the steps of two threads. What they run on the loop is a
    sequence of hops through its queue ([hops]: a coroutine comes back to the
    queue when it resumes) and a body that looks at the stop flag.

    Of stdexec the model relies on what is documented: [run_loop] checks the stop
    token of the receiver when it takes a task, runs until [finish()] and an empty
    queue, and an operation is not touched after it has completed. *)

From S2P Require Import Prelude.

(** ** Threads *)

(** The waits: [wait()], and the one in the destructor. *)
Inductive Wait := InWait | InDestructor.

(** Where the owner's thread is: before [start()], in a wait (to lock, holding
    the lock, asleep), between, and in the destruction of the members, in reverse
    order of their declaration. *)
Inductive Main :=
| MNew
| MLock (x : Wait) | MCheck (x : Wait) | MSleep (x : Wait)
| MUnlockWait | MRequestStop | MFinish | MUnlock
| MFreeOp | MFreeCv | MFreeMutex | MFreeStop | MJoin | MFreeLoop | MEnd.

(** Where the worker is: in [run_loop::run], with a task that has [k] more hops
    to go, in the body, in [_notify], on the way back, or out of [run]. *)
Inductive Worker :=
| WIdle | WHop (k : nat) | WBody | WLock | WSet | WNotify | WUnlock | WBack | WExited.

#[global] Instance wait_eq_dec : EqDecision Wait.
Proof. solve_decision. Defined.
#[global] Instance main_eq_dec : EqDecision Main.
Proof. solve_decision. Defined.

Inductive Holder := ByMain | ByWorker.
Inductive Line := Processed | Cancelled.

(** [queue]: the task in the loop's queue; [finishing]: [finish()] was called. *)
Record Service := mkService {
  main : Main; worker : Worker; mtx : option Holder; done_ : bool; stop : bool;
  queue : option nat; finishing : bool; log : list Line }.

Section Service.
Context (hops : nat) (waits : bool).

Definition init : Service := mkService MNew WIdle None false false None false [].

(** ** Steps *)

(** The owner: the end of the constructor, [wait()] if it is called, the
    destructor. Waking up without a notification is a step too ([spurious]). *)
Inductive main_step : Service -> Service -> Prop :=
| m_start w lk d st q f l :
    main_step (mkService MNew w lk d st q f l)
      (mkService (if waits then MLock InWait else MRequestStop) w lk d st (Some hops) f l)
| m_lock x w d st q f l :
    main_step (mkService (MLock x) w None d st q f l) (mkService (MCheck x) w (Some ByMain) d st q f l)
| m_wait x w lk st q f l :
    main_step (mkService (MCheck x) w lk false st q f l) (mkService (MSleep x) w None false st q f l)
| m_ready x w lk st q f l :
    main_step (mkService (MCheck x) w lk true st q f l)
      (mkService (match x with InWait => MUnlockWait | InDestructor => MFinish end) w lk true st q f l)
| m_unlock_wait w lk d st q f l :
    main_step (mkService MUnlockWait w lk d st q f l) (mkService MRequestStop w None d st q f l)
| m_request_stop w lk d st q f l :
    main_step (mkService MRequestStop w lk d st q f l) (mkService (MLock InDestructor) w lk d true q f l)
| m_finish w lk d st q f l :
    main_step (mkService MFinish w lk d st q f l) (mkService MUnlock w lk d st q true l)
| m_unlock w lk d st q f l :
    main_step (mkService MUnlock w lk d st q f l) (mkService MFreeOp w None d st q f l)
| m_free_op w lk d st q f l :
    main_step (mkService MFreeOp w lk d st q f l) (mkService MFreeCv w lk d st q f l)
| m_free_cv w lk d st q f l :
    main_step (mkService MFreeCv w lk d st q f l) (mkService MFreeMutex w lk d st q f l)
| m_free_mutex w lk d st q f l :
    main_step (mkService MFreeMutex w lk d st q f l) (mkService MFreeStop w lk d st q f l)
| m_free_stop w lk d st q f l :
    main_step (mkService MFreeStop w lk d st q f l) (mkService MJoin w lk d st q f l)
| m_join lk d st q f l :
    main_step (mkService MJoin WExited lk d st q f l) (mkService MFreeLoop WExited lk d st q f l)
| m_free_loop w lk d st q f l :
    main_step (mkService MFreeLoop w lk d st q f l) (mkService MEnd w lk d st q f l).

(** [notify_one] wakes the owner if it is asleep. *)
Definition woken (m : Main) : Main := match m with MSleep x => MLock x | m => m end.

Inductive worker_step : Service -> Service -> Prop :=
| w_pop m k lk d st f l :
    worker_step (mkService m WIdle lk d st (Some k) f l) (mkService m (WHop k) lk d st None f l)
| w_exit m lk d st l :
    worker_step (mkService m WIdle lk d st None true l) (mkService m WExited lk d st None true l)
| w_stopped m k lk d q f l :
    worker_step (mkService m (WHop k) lk d true q f l) (mkService m WLock lk d true q f l)
| w_requeue m k lk d q f l :
    worker_step (mkService m (WHop (S k)) lk d false q f l) (mkService m WIdle lk d false (Some k) f l)
| w_body m lk d q f l :
    worker_step (mkService m (WHop 0) lk d false q f l) (mkService m WBody lk d false q f l)
| w_log m lk d st q f l :
    worker_step (mkService m WBody lk d st q f l)
      (mkService m WLock lk d st q f (l ++ [if st : bool then Cancelled else Processed]))
| w_lock m d st q f l :
    worker_step (mkService m WLock None d st q f l) (mkService m WSet (Some ByWorker) d st q f l)
| w_set m lk d st q f l :
    worker_step (mkService m WSet lk d st q f l) (mkService m WNotify lk true st q f l)
| w_notify m lk d st q f l :
    worker_step (mkService m WNotify lk d st q f l) (mkService (woken m) WUnlock lk d st q f l)
| w_unlock m lk d st q f l :
    worker_step (mkService m WUnlock lk d st q f l) (mkService m WBack None d st q f l)
| w_back m lk d st q f l :
    worker_step (mkService m WBack lk d st q f l) (mkService m WIdle lk d st q f l).

Inductive spurious : Service -> Service -> Prop :=
| s_wake x w lk d st q f l :
    spurious (mkService (MSleep x) w lk d st q f l) (mkService (MLock x) w lk d st q f l).

Definition step (s s' : Service) : Prop := main_step s s' \/ worker_step s s' \/ spurious s s'.
Definition reachable (s : Service) : Prop := rtc step init s.

(** ** Memory *)

Inductive Member := Loop | Stop | Mutex | Cv | Op.

(** The members that exist while the owner is at a point: while the constructor
    runs the thread has only the loop for sure. *)
Definition exists_ (m : Main) (r : Member) : bool :=
  match m, r with
  | MNew, Loop => true
  | MNew, _ => false
  | MEnd, _ => false
  | (MFreeCv | MFreeMutex | MFreeStop | MJoin | MFreeLoop), Op => false
  | (MFreeMutex | MFreeStop | MJoin | MFreeLoop), Cv => false
  | (MFreeStop | MJoin | MFreeLoop), Mutex => false
  | (MJoin | MFreeLoop), Stop => false
  | _, _ => true
  end.

(** What the worker's next step uses. *)
Definition uses (w : Worker) : list Member :=
  match w with
  | WIdle | WBack => [Loop]
  | WHop _ => [Op; Stop; Loop]
  | WBody => [Op; Stop]
  | WLock | WUnlock => [Mutex]
  | WNotify => [Cv]
  | WSet | WExited => []
  end.

(** ** Invariant *)

Definition main_holds (m : Main) : bool :=
  match m with MCheck _ | MUnlockWait | MFinish | MUnlock => true | _ => false end.
Definition worker_holds (w : Worker) : bool :=
  match w with WSet | WNotify | WUnlock => true | _ => false end.

(** The task is over: the worker has set the flag. *)
Definition over (w : Worker) (q : option nat) : bool :=
  match w, q with
  | (WNotify | WUnlock | WBack | WExited), None => true
  | WIdle, None => true
  | _, _ => false
  end.

(** The owner has seen the flag in a wait. *)
Definition seen (m : Main) : bool :=
  match m with
  | MUnlockWait | MFinish | MUnlock | MFreeOp | MFreeCv | MFreeMutex | MFreeStop | MJoin | MFreeLoop | MEnd => true
  | _ => false
  end.

(** The worker has left [_notify]. *)
Definition left_ (w : Worker) : bool := match w with WBack | WIdle | WExited => true | _ => false end.

Definition finished (m : Main) : bool :=
  match m with MUnlock | MFreeOp | MFreeCv | MFreeMutex | MFreeStop | MJoin | MFreeLoop | MEnd => true | _ => false end.

Definition before_stop (m : Main) : bool :=
  match m with MNew | MLock InWait | MCheck InWait | MSleep InWait | MUnlockWait | MRequestStop => true | _ => false end.

(** The task has not reached the end of its body. *)
Definition pending (w : Worker) (q : option nat) : bool :=
  match w, q with (WHop _ | WBody), _ => true | _, Some _ => true | _, None => false end.

(** [wait()] has returned, if it was called. *)
Definition waited (m : Main) : bool :=
  match m with MNew | MLock InWait | MCheck InWait | MSleep InWait => false | _ => true end.

Record Inv (s : Service) : Prop := {
  i_mtx : mtx s = if main_holds (main s) then Some ByMain else if worker_holds (worker s) then Some ByWorker else None;
  i_excl : main_holds (main s) = true -> worker_holds (worker s) = false;
  i_done : main s <> MNew -> done_ s = over (worker s) (queue s);
  i_new : main s = MNew -> worker s = WIdle /\ queue s = None /\ done_ s = false /\ log s = [];
  i_seen : seen (main s) = true -> done_ s = true /\ left_ (worker s) = true;
  i_sleep x : main s = MSleep x -> done_ s = true -> worker s = WNotify;
  i_finish : finishing s = finished (main s);
  i_exit : worker s = WExited -> finishing s = true;
  i_join : main s = MFreeLoop \/ main s = MEnd -> worker s = WExited;
  i_queue : is_Some (queue s) -> worker s = WIdle;
  i_stop : stop s = negb (before_stop (main s));
  i_fresh : pending (worker s) (queue s) = true -> log s = [];
  i_ran : stop s = false -> pending (worker s) (queue s) = false -> main s <> MNew -> log s = [Processed];
  i_waited : waits = true -> waited (main s) = true -> done_ s = true /\ log s = [Processed];
  i_log : length (log s) <= 1 }.

Lemma init_service_inv : Inv init.
Proof. split; cbn; try done; try lia; by intros []. Qed.

(** Use what the invariant says of the state at hand. *)
#[local] Ltac cases :=
  repeat match goal with
  | H : _ /\ _ |- _ => destruct H
  | H : _ \/ _ |- _ => destruct H
  | H : is_Some _ |- _ => destruct H
  | H : forall x, MSleep ?y = MSleep x -> _ |- _ => specialize (H y eq_refl)
  | H : ?P -> _ |- _ =>
    match type of P with Prop => let H' := fresh in assert P as H' by (done || congruence || (by left) || (by right) || (by eexists)); specialize (H H'); clear H' end
  end.
#[local] Ltac by_cases := cases; subst; cbn in *; try done; try congruence.

Lemma main_step_inv s s' : main_step s s' -> Inv s -> Inv s'.
Proof.
  intros Hs [H1 H2 H3 H4 H5 H6 H7 H8 H9 H10 H11 H12 H13 H14 H15].
  destruct Hs; try destruct x; try destruct waits eqn:?; cbn in *; split; cbn; intros; by_cases.
  all: try (by destruct w; by_cases).
  all: destruct w, q; by_cases; try (by split; by_cases).
Qed.

Lemma worker_step_inv s s' : worker_step s s' -> Inv s -> Inv s'.
Proof.
  intros Hs [H1 H2 H3 H4 H5 H6 H7 H8 H9 H10 H11 H12 H13 H14 H15].
  destruct Hs; cbn in *; split; cbn; intros; by_cases.
  all: try (destruct m as [|[]|[]|[]| | | | | | | | | | |]; by_cases).
  all: try (destruct q; by_cases).
  all: by_cases.
Qed.

Lemma service_step_inv s s' : step s s' -> Inv s -> Inv s'.
Proof.
  intros [Hs|[Hs|Hs]]; [by apply main_step_inv|by apply worker_step_inv|].
  destruct Hs as [x w lk d st q f l]. intros [H1 H2 H3 H4 H5 H6 H7 H8 H9 H10 H11 H12 H13 H14 H15].
  destruct x; split; cbn in *; try done; intros; by_cases.
Qed.

Lemma reachable_service_inv s : reachable s -> Inv s.
Proof.
  intros Hr. pose proof init_service_inv as H0. induction Hr as [|s1 s2 s3 Hs _ IH]; [done|].
  apply IH. by eapply service_step_inv.
Qed.

(** ** Theorems *)

(** The worker never uses a member of the service before it is constructed or
    after it is destroyed, although the members are destroyed before the thread
    is joined. *)
Theorem service_memory_safe (s : Service) (r : Member) :
  reachable s -> r ∈ uses (worker s) -> exists_ (main s) r = true.
Proof.
  intros [H1 H2 H3 H4 H5 H6 H7 H8 H9 H10 H11 H12 H13 H14 H15]%reachable_service_inv Hr.
  destruct s as [m w lk d st q f l]. cbn in *.
  rewrite list_elem_of_In in Hr. destruct m, r; try done; destruct w; cbn in *; try tauto; by_cases; naive_solver.
Qed.


(** The steps left, at most: the worker's weigh five times the owner's, because
    a notification sends the owner back to the lock. *)
Definition worker_rank (w : Worker) (q : option nat) : nat :=
  match w with
  | WExited => 0
  | WIdle => match q with None => 1 | Some k => 9 + 2 * k end
  | WBack => 2 | WUnlock => 3 | WNotify => 4 | WSet => 5 | WLock => 6 | WBody => 7
  | WHop k => 8 + 2 * k
  end.

Definition main_rank (m : Main) : nat :=
  match m with
  | MEnd => 0 | MFreeLoop => 1 | MJoin => 2 | MFreeStop => 3 | MFreeMutex => 4 | MFreeCv => 5 | MFreeOp => 6
  | MUnlock => 7 | MFinish => 8 | MSleep InDestructor => 9 | MCheck InDestructor => 10 | MLock InDestructor => 11
  | MRequestStop => 12 | MUnlockWait => 13 | MSleep InWait => 14 | MCheck InWait => 15 | MLock InWait => 16
  | MNew => 17 + 5 * (9 + 2 * hops)
  end.

Definition rank (s : Service) : nat := 5 * worker_rank (worker s) (queue s) + main_rank (main s).

(** A step other than waking up for no reason. *)
Definition work (s s' : Service) : Prop := main_step s s' \/ worker_step s s'.

Lemma work_decreases s s' : Inv s -> work s s' -> rank s' < rank s.
Proof.
  intros HI [Hs|Hs]; unfold rank.
  - pose proof (i_new _ HI) as Hn. destruct Hs; cbn [main worker queue main_rank] in *; try (by lia).
    + destruct (Hn eq_refl) as (-> & -> & _). cbn [worker_rank]. destruct waits; cbn [main_rank]; lia.
    + destruct x; lia.
    + destruct x; lia.
    + destruct x; cbn [main_rank]; lia.
  - pose proof (i_queue _ HI) as Hq. destruct Hs; cbn [main worker queue worker_rank] in *; try (by lia).
    + destruct m as [|[]|[]|[]| | | | | | | | | | |]; cbn [woken main_rank]; lia.
    + destruct q; [|lia]. by specialize (Hq ltac:(by eexists)).
Qed.

Lemma work_progress s : Inv s -> main s <> MEnd -> exists s', work s s'.
Proof.
  intros [H1 H2 H3 H4 H5 H6 H7 H8 H9 H10 H11 H12 H13 H14 H15] Hm. destruct s as [m w lk d st q f l]. cbn in *.
  destruct m as [|x|x|x| | | | | | | | | | |]; try (by eexists; left; constructor); try done.
  - destruct w; cbn in H1; subst lk; try (by eexists; left; constructor); eexists; right; constructor.
  - destruct d; eexists; left; constructor.
  - destruct w as [|[|k]| | | | | | |]; try (by eexists; right; constructor).
    + destruct q; [eexists; right; constructor|]. specialize (H3 ltac:(done)). subst d.
      by specialize (H6 x eq_refl eq_refl).
    + destruct st; eexists; right; constructor.
    + destruct st; eexists; right; constructor.
    + cbn in H1. subst lk. eexists; right; constructor.
    + assert (q = None) as -> by (destruct q; [by specialize (H10 ltac:(by eexists))|done]).
      specialize (H3 ltac:(done)). subst d. by specialize (H6 x eq_refl eq_refl).
  - destruct (H5 eq_refl) as [-> Hl]. specialize (H3 ltac:(done)).
    destruct w; try done; try (by eexists; right; constructor).
    + destruct q; [done|]. rewrite H7. eexists; right; constructor.
    + eexists; left; constructor.
Qed.

Lemma work_reachable s s' : Inv s -> rtc work s s' -> Inv s'.
Proof.
  intros HI Hr. induction Hr as [|s1 s2 s3 [Hs|Hs] _ IH]; [done| |]; apply IH;
    [by eapply main_step_inv|by eapply worker_step_inv].
Qed.

(** C37: the destructor returns: from every reachable state, every run without
    spurious wake-ups has at most [rank] steps, and it can only end with the
    object destroyed and the worker out of its loop. There is no lost wake-up and
    no deadlock between the mutex, the condition variable and the join. *)
Theorem service_terminates (s : Service) :
  reachable s ->
  (forall n s', nsteps work n s s' -> n <= rank s) /\
  (forall s', rtc work s s' -> (forall s'', ~ work s' s'') -> main s' = MEnd /\ worker s' = WExited).
Proof.
  intros HI%reachable_service_inv. split.
  - intros n s' Hn. induction Hn as [|n s1 s2 s3 Hs _ IH]; [lia|]. pose proof (work_decreases s1 s2 HI Hs).
    assert (Inv s2) as HI2 by (eapply work_reachable; [exact HI|by apply rtc_once]). specialize (IH HI2). lia.
  - intros s' Hr Hend. pose proof (work_reachable s s' HI Hr) as HI'.
    assert (main s' = MEnd) as Hm.
    { destruct (decide (main s' = MEnd)) as [|Hne]; [done|]. destruct (work_progress s' HI' Hne) as [s'' Hs]. by destruct (Hend s''). }
    split; [done|]. apply (i_join _ HI'). by right.
Qed.

(** At the end the task has completed and has reported at most one line; when
    the owner waited, it has processed its input and was not cancelled. *)
Theorem service_outcome (s : Service) :
  reachable s -> main s = MEnd ->
  done_ s = true /\ length (log s) <= 1 /\ (waits = true -> log s = [Processed]).
Proof.
  intros HI%reachable_service_inv Hm. split_and!.
  - apply (i_seen _ HI). by rewrite Hm.
  - apply (i_log _ HI).
  - intros Hw. apply (i_waited _ HI Hw). by rewrite Hm.
Qed.

End Service.

(** ** The three classes *)

(** [ServiceInlineOp]: a coroutine, which comes back to the loop's queue once
    (after [co_await just()]); with or without a call of [wait()]. *)
Definition ServiceInlineOp (waits : bool) : Service -> Prop := reachable 1 waits.

(** [ServiceZeroAlloc]: a plain pipeline, one pass through the queue. *)
Definition ServiceZeroAlloc (waits : bool) : Service -> Prop := reachable 0 waits.

(** [FileServicePure]: a plain pipeline whose operation is held by a pointer,
    the last member like the others' operation; it has no [wait()]. *)
Definition FileServicePure : Service -> Prop := reachable 0 false.

(** ** Evaluation *)

Module Demo.

(** The owner waits; the task runs at once and completes while the owner is
    between its test and the end. *)
Lemma reached : exists s, reachable 0 true s /\ main s = MSleep InWait /\ worker s = WBody.
Proof.
  eexists. split; [|split].
  - eapply rtc_l; [left; constructor|]. eapply rtc_l; [right; left; constructor|].
    eapply rtc_l; [left; constructor|]. eapply rtc_l; [left; constructor|].
    eapply rtc_l; [right; left; constructor|]. apply rtc_refl.
  - reflexivity.
  - reflexivity.
Defined.

Lemma service_terminates_witness :
  exists s, reachable 0 true s /\ main s = MSleep InWait /\
    (forall n s', nsteps (work 0 true) n s s' -> n <= rank 0 s).
Proof.
  destruct reached as (s & Hr & Hm & _). exists s. split; [exact Hr|]. split; [exact Hm|].
  apply (service_terminates 0 true s Hr).
Defined.

End Demo.
