(* ===== verification/NgHttp.v ===== *)
(** * The HTTP/1.1 and HTTP/2 demo clients

    [demo/try/http-nghttp2]: a blocking client over plain sockets or TLS
    ([Http1Client.cpp]) and one over TLS and nghttp2 ([Http2Client.cpp]), with
    the choice of examples in [main.cpp].

    The operating system, OpenSSL and nghttp2 are parameters. [Net] says how the
    calls that a request makes once are answered; the results of the writes and
    the chunks the reads have given are lists in the world, an empty chunk being
    the end of the connection or an error. The sockets block: a read or a write
    beyond the list is one the peer has not answered yet, and the request waits
    in it ([Blocked]). nghttp2 is a class [Nghttp2] over a type of session states;
    what it does inside [nghttp2_session_send] and [nghttp2_session_mem_recv] is
    a finite tree of the calls it makes to the client's callbacks.

    The handles a request owns are counted in the world ([Res]): a call on a
    handle that is null or released is [Undefined]. [SSL_new] takes a reference
    to its context and [SSL_free] gives it back, as documented. *)

From Stdlib Require Import Ascii.
From stdpp Require Import gmap.
From S2P Require Import Prelude StringView Boot.
Local Open Scope Z_scope.

(** [struct HttpResponse]. *)
Record HttpResponse := mkResponse { status_code : Z; headers : view; body : view }.

Definition no_response : HttpResponse := mkResponse 0 [] [].

(** ** Parsing a response *)

(** [s.find(pat)]: the first position where [pat] (not empty) occurs. *)
Fixpoint find (pat s : view) : option nat :=
  if bool_decide (take (length pat) s = pat) then Some 0%nat
  else match s with [] => None | _ :: s => S <$> find pat s end.

(** [s.find(pat, pos)]. *)
Definition find_from (pat s : view) (pos : nat) : option nat :=
  Nat.add pos <$> find pat (drop pos s).

(** [isspace] of the C locale. *)
Definition isspace (c : ascii) : bool :=
  let n := nat_of_ascii c in (n =? 32)%nat || ((9 <=? n)%nat && (n <=? 13)%nat).

Fixpoint skip_space (s : view) : view :=
  match s with [] => [] | c :: s' => if isspace c then skip_space s' else s end.

(** [std::stoi]; [None] when it throws ([std::invalid_argument] without a digit,
    [std::out_of_range] outside [int]). *)
Definition stoi (s : view) : option Z :=
  let s := skip_space s in
  let '(neg, s) := match s with
                   | c :: s' => if bool_decide (c = "-"%char) then (true, s')
                                else if bool_decide (c = "+"%char) then (false, s') else (false, s)
                   | [] => (false, s)
                   end in
  match CliArgs.digits s with
  | [] => None
  | ds => let v := if neg : bool then - CliArgs.value ds else CliArgs.value ds in
          if (CliArgs.int_min <=? v) && (v <=? CliArgs.int_max) then Some v else None
  end.

Definition CR : ascii := "013"%char.
Definition LF : ascii := "010"%char.
Definition SP : ascii := " "%char.

Definition blank_line : view := [CR; LF; CR; LF].

(** The end of the headers and the length of the separator there. *)
Definition header_end (raw : view) : option nat * nat :=
  match find blank_line raw with
  | Some i => (Some i, 4%nat)
  | None => (find [LF; LF] raw, 2%nat)
  end.

(** [parseHttpResponse]; [None] when [std::stoi] throws. [substr] is always
    called with a position inside the text ([find_in]). *)
Definition parseHttpResponse (raw : view) (response : HttpResponse) : option HttpResponse :=
  let '(end_, offset) := header_end raw in
  let headers_part := match end_ with Some i => take i raw | None => raw end in
  let body_ := match end_ with Some i => drop (i + offset) raw | None => body response end in
  status ← match find [SP] headers_part with
           | None => Some (status_code response)
           | Some first_space =>
             match find_from [SP] headers_part (first_space + 1) with
             | None => Some (status_code response)
             | Some second_space =>
               stoi (take (second_space - first_space - 1) (drop (first_space + 1) headers_part))
             end
           end;
  Some (mkResponse status headers_part body_).

(** ** The effects of a request *)

(** The handles of a request: open socket, references to the TLS context, TLS
    object, nghttp2 callbacks, nghttp2 session. *)
Record Res := mkRes { sock : bool; ctx : nat; ssl : bool; cbs : bool; session : bool }.

Definition no_handles : Res := mkRes false 0 false false false.

(** An event nghttp2 reports through a callback; [OnHeader] says whether the
    frame is a response HEADERS frame. *)
Inductive event :=
| OnHeader (response_frame : bool) (name value : view)
| OnData (data : view)
| OnStreamClose
| OnFrameRecv (response_frame : bool).

Record World := mkWorld {
  res : Res;
  target : option (Z * Z);     (* the address and port of [connect] *)
  writes : list Z;             (* the results of the next writes, as far as they are known *)
  incoming : list view;        (* what the next reads give, as far as the peer has answered *)
  sent : view;                 (* the bytes accepted by the writes *)
  delivered : list event       (* the callbacks made so far *)
}.

Definition set_res (r : Res) (w : World) : World :=
  mkWorld r (target w) (writes w) (incoming w) (sent w) (delivered w).
Definition set_target (t : Z * Z) (w : World) : World :=
  mkWorld (res w) (Some t) (writes w) (incoming w) (sent w) (delivered w).
Definition set_incoming (l : list view) (w : World) : World :=
  mkWorld (res w) (target w) (writes w) l (sent w) (delivered w).
Definition set_delivered (l : list event) (w : World) : World :=
  mkWorld (res w) (target w) (writes w) (incoming w) (sent w) l.

Inductive ending (A : Type) :=
| Returns (a : A)
| Throws
| Undefined
| Blocked                      (* in a call that waits for the peer *)
| Endless.                     (* out of fuel *)
Arguments Returns {A} a.
Arguments Throws {A}.
Arguments Undefined {A}.
Arguments Blocked {A}.
Arguments Endless {A}.

Definition M (A : Type) : Type := World -> ending A * World.

Definition ret {A} (a : A) : M A := fun w => (Returns a, w).

Definition bind {A B} (m : M A) (k : A -> M B) : M B := fun w =>
  match m w with
  | (Returns a, w) => k a w
  | (Throws, w) => (Throws, w)
  | (Undefined, w) => (Undefined, w)
  | (Blocked, w) => (Blocked, w)
  | (Endless, w) => (Endless, w)
  end.

Declare Scope ng_scope.
Local Open Scope ng_scope.
Notation "'let*' x := m 'in' k" := (bind m (fun x => k))
  (at level 10, x pattern, m at level 100, k at level 200) : ng_scope.
Notation "m ;;; k" := (bind m (fun _ => k)) (at level 60, right associativity) : ng_scope.

(** A call that changes the handles; [None] when it is undefined. *)
Definition on_res (f : Res -> option Res) : M unit := fun w =>
  match f (res w) with Some r => (Returns tt, set_res r w) | None => (Undefined, w) end.

(** How the calls made once per request are answered. *)
Record Net := mkNet {
  socket_ok : bool;
  host_address : view -> option Z;    (* [gethostbyname] *)
  connect_ok : bool;
  ctx_ok : bool;                      (* [SSL_CTX_new] gives a context *)
  ssl_ok : bool;                      (* [SSL_new] gives an object *)
  handshake : Z;                      (* the result of [SSL_connect] *)
  alpn : option view                  (* [SSL_get0_alpn_selected] *)
}.

Section Client.
Context (net : Net).

(** *** Sockets *)

Definition socket_ : M bool := fun w =>
  if socket_ok net
  then (Returns true, set_res (mkRes true (ctx (res w)) (ssl (res w)) (cbs (res w)) (session (res w))) w)
  else (Returns false, w).

Definition using_socket : M unit :=
  on_res (fun r => if sock r then Some r else None).

Definition close_socket : M unit :=
  on_res (fun r => if sock r then Some (mkRes false (ctx r) (ssl r) (cbs r) (session r)) else None).

(** [htons(port)] converts to 16 bits. *)
Definition connect (addr port : Z) : M bool :=
  using_socket ;;; fun w => (Returns (connect_ok net), set_target (addr, port mod 2 ^ 16) w).

(** A write of [data]: the result, and the bytes accepted. *)
Definition write_ (data : view) : M Z := fun w =>
  match writes w with
  | [] => (Blocked, w)
  | r :: rest => (Returns r, mkWorld (res w) (target w) rest (incoming w)
                                     (sent w ++ take (Z.to_nat r) data) (delivered w))
  end.

(** A read: the bytes in the buffer; none when the result is not positive. *)
Definition read_ : M view := fun w =>
  match incoming w with
  | [] => (Blocked, w)
  | chunk :: rest => (Returns chunk, set_incoming rest w)
  end.

Definition send (data : view) : M Z := using_socket ;;; write_ data.
Definition recv : M view := using_socket ;;; read_.

(** *** TLS *)

Definition SSL_CTX_new : M bool := fun w =>
  if ctx_ok net
  then (Returns true, set_res (mkRes (sock (res w)) 1 (ssl (res w)) (cbs (res w)) (session (res w))) w)
  else (Returns false, w).

Definition SSL_CTX_free : M unit :=
  on_res (fun r => match ctx r with
                   | O => None
                   | S n => Some (mkRes (sock r) n (ssl r) (cbs r) (session r))
                   end).

Definition SSL_new : M bool := fun w =>
  if ssl_ok net
  then match ctx (res w) with
       | O => (Undefined, w)
       | S n => (Returns true, set_res (mkRes (sock (res w)) (S (S n)) true (cbs (res w)) (session (res w))) w)
       end
  else (Returns false, w).

(** A call on the TLS object [p] (whether the pointer is not null). *)
Definition using_ssl (p : bool) : M unit :=
  on_res (fun r => if p && ssl r then Some r else None).

(** [SSL_free]: a null pointer is ignored. *)
Definition SSL_free (p : bool) : M unit :=
  if p
  then on_res (fun r => if ssl r then Some (mkRes (sock r) (pred (ctx r)) false (cbs r) (session r)) else None)
  else ret tt.

Definition SSL_connect (p : bool) : M Z := using_ssl p ;;; ret (handshake net).
Definition SSL_write (p : bool) (data : view) : M Z := using_ssl p ;;; write_ data.
Definition SSL_read (p : bool) : M view := using_ssl p ;;; read_.

(** ** [Http1Client.cpp] *)

(** [setupTLS]: whether the returned pointer is not null. *)
Definition setupTLS : M bool :=
  let* ctx := SSL_CTX_new in
  if negb ctx then ret false else
  let* ssl := SSL_new in
  if negb ssl then SSL_CTX_free ;;; ret false else
  using_ssl ssl ;;;                                  (* SSL_set_fd *)
  let* r := SSL_connect ssl in
  if r <=? 0 then SSL_free ssl ;;; SSL_CTX_free ;;; ret false else
  ret ssl.

Definition cleanupTLS (ssl : bool) : M unit :=
  if ssl
  then using_ssl ssl ;;;                             (* SSL_shutdown *)
       using_ssl ssl ;;;                             (* SSL_get_SSL_CTX *)
       SSL_free ssl ;;; SSL_CTX_free
  else ret tt.

Definition sendHttpRequest (ssl : bool) (request : view) : M bool :=
  if ssl
  then let* r := SSL_write ssl request in ret (negb (r <=? 0))
  else let* r := send request in ret (negb (r <? 0)).

(** [receiveHttpResponse]: the loop, with fuel. *)
Fixpoint receive_loop (fuel : nat) (ssl : bool) (full_response : view) : M view :=
  match fuel with
  | O => fun w => (Endless, w)
  | S fuel =>
    let* buffer := if ssl then SSL_read ssl else recv in
    if (length buffer =? 0)%nat then ret full_response
    else receive_loop fuel ssl (full_response ++ buffer)
  end.

Definition receiveHttpResponse (ssl : bool) : M view := fun w =>
  receive_loop (S (length (incoming w))) ssl [] w.

(** The text of the request. *)
Definition request_text (host path : view) : view :=
  sv "GET " ++ path ++ sv " HTTP/1.1" ++ [CR; LF] ++ sv "Host: " ++ host ++ [CR; LF] ++
  sv "Connection: close" ++ [CR; LF] ++ sv "User-Agent: curl/8.7.1" ++ [CR; LF] ++ [CR; LF].

(** The call of [parseHttpResponse]. *)
Definition parse_into (raw : view) (response : HttpResponse) : M HttpResponse := fun w =>
  match parseHttpResponse raw response with
  | Some r => (Returns r, w)
  | None => (Throws, w)
  end.

(** [makeHttpRequest]. *)
Definition makeHttpRequest (host : view) (port : Z) (path : view) (use_tls : bool) : M HttpResponse :=
  let response := no_response in
  let* sockfd := socket_ in
  if negb sockfd then ret response else
  match host_address net host with
  | None => close_socket ;;; ret response
  | Some server =>
    let* connected := connect server port in
    if negb connected then close_socket ;;; ret response else
    let* ssl := if use_tls then setupTLS else ret false in
    if use_tls && negb ssl then close_socket ;;; ret response else
    let* ok := sendHttpRequest ssl (request_text host path) in
    if negb ok then cleanupTLS ssl ;;; close_socket ;;; ret response else
    let* raw_response := receiveHttpResponse ssl in
    let* response := parse_into raw_response response in
    cleanupTLS ssl ;;; close_socket ;;; ret response
  end.

End Client.

(** ** [Http2Client.cpp] *)

(** What [nghttp2_session_send] does: it asks the client to write and goes on
    with the callback's result; it may close the stream ([RST_STREAM] sent). *)
Inductive sending (H : Type) :=
| Flushed (h : H)
| Write (data : view) (k : Z -> sending H)
| Closed (k : sending H).
Arguments Flushed {H} h.
Arguments Write {H} data k.
Arguments Closed {H} k.

(** What [nghttp2_session_mem_recv] does: the callbacks it makes, then its
    result. *)
Inductive receiving (H : Type) :=
| Received (readlen : Z) (h : H)
| Callback (e : event) (k : receiving H).
Arguments Received {H} readlen h.
Arguments Callback {H} e k.

Class Nghttp2 (H : Type) := {
  callbacks_ok : bool;                                 (* [nghttp2_session_callbacks_new] *)
  client_new : option H;                               (* [nghttp2_session_client_new] *)
  submit_settings : Z -> H -> H;
  submit_request : list (view * view) -> H -> Z * H;
  session_send : H -> sending H;
  session_mem_recv : view -> H -> receiving H
}.

(** [struct Http2SessionData], less the handles: the response and the flag. *)
Record Http2SessionData := mkData { response : HttpResponse; response_complete : bool }.

Definition data0 : Http2SessionData := mkData no_response false.

Section Client2.
Context (net : Net) `{!Nghttp2 H}.

Definition NGHTTP2_ERR_CALLBACK_FAILURE : Z := -902.

Definition send_callback (ssl : bool) (data : view) : M Z :=
  let* rv := SSL_write ssl data in
  ret (if rv <=? 0 then NGHTTP2_ERR_CALLBACK_FAILURE else rv).

(** [on_header_callback]; [None] when [std::stoi] throws. *)
Definition on_header_callback (response_frame : bool) (name value : view)
    (d : Http2SessionData) : option Http2SessionData :=
  if response_frame
  then let r := response d in
       let hs := headers r ++ name ++ sv ": " ++ value ++ [LF] in
       status ← (if bool_decide (name = sv ":status") then stoi value else Some (status_code r));
       Some (mkData (mkResponse status hs (body r)) (response_complete d))
  else Some d.

Definition on_data_chunk_recv_callback (data : view) (d : Http2SessionData) : Http2SessionData :=
  let r := response d in
  mkData (mkResponse (status_code r) (headers r) (body r ++ data)) (response_complete d).

Definition on_stream_close_callback (d : Http2SessionData) : Http2SessionData :=
  mkData (response d) true.

(** [on_frame_recv_callback] only logs. *)
Definition on_frame_recv_callback (response_frame : bool) (d : Http2SessionData) : Http2SessionData := d.

Definition callback (e : event) (d : Http2SessionData) : option Http2SessionData :=
  match e with
  | OnHeader b name value => on_header_callback b name value d
  | OnData data => Some (on_data_chunk_recv_callback data d)
  | OnStreamClose => Some (on_stream_close_callback d)
  | OnFrameRecv b => Some (on_frame_recv_callback b d)
  end.

Definition using_session : M unit := on_res (fun r => if session r then Some r else None).

(** [nghttp2_session_send] with the client's callbacks. *)
Fixpoint run_sending (ssl : bool) (t : sending H) (d : Http2SessionData) : M (H * Http2SessionData) :=
  match t with
  | Flushed h => ret (h, d)
  | Write data k => let* rv := send_callback ssl data in run_sending ssl (k rv) d
  | Closed k => fun w =>
    run_sending ssl k (on_stream_close_callback d) (set_delivered (delivered w ++ [OnStreamClose]) w)
  end.

Definition nghttp2_session_send (ssl : bool) (h : H) (d : Http2SessionData) : M (H * Http2SessionData) :=
  using_session ;;; run_sending ssl (session_send h) d.

(** [nghttp2_session_mem_recv] with the client's callbacks. An exception in a
    callback leaves nghttp2 through its C frames. *)
Fixpoint run_receiving (t : receiving H) (d : Http2SessionData) : M (Z * H * Http2SessionData) :=
  match t with
  | Received readlen h => ret (readlen, h, d)
  | Callback e k => fun w =>
    let w := set_delivered (delivered w ++ [e]) w in
    match callback e d with Some d => run_receiving k d w | None => (Throws, w) end
  end.

Definition nghttp2_session_mem_recv (data : view) (h : H) (d : Http2SessionData) : M (Z * H * Http2SessionData) :=
  using_session ;;; run_receiving (session_mem_recv data h) d.

(** The receive loop of [makeHttp2Request], with fuel. *)
Fixpoint http2_loop (fuel : nat) (ssl : bool) (h : H) (d : Http2SessionData) : M Http2SessionData :=
  match fuel with
  | O => fun w => (Endless, w)
  | S fuel =>
    if response_complete d then ret d else
    let* buffer := SSL_read ssl in
    if (length buffer =? 0)%nat then ret d else
    let* r := nghttp2_session_mem_recv buffer h d in
    let '(readlen, h, d) := r in
    if readlen <? 0 then ret d else
    let* s := nghttp2_session_send ssl h d in
    let '(h, d) := s in
    http2_loop fuel ssl h d
  end.

Definition http2_receive (ssl : bool) (h : H) (d : Http2SessionData) : M Http2SessionData := fun w =>
  http2_loop (S (length (incoming w))) ssl h d w.

(** [nghttp2_session_callbacks_new], the setters and
    [nghttp2_session_client_new]: an unset callbacks pointer is undefined to use;
    when the session cannot be created its pointer stays null. *)
Definition callbacks_new : M bool := fun w =>
  if callbacks_ok
  then (Returns true, set_res (mkRes (sock (res w)) (ctx (res w)) (ssl (res w)) true (session (res w))) w)
  else (Returns false, w).

Definition using_callbacks : M unit := on_res (fun r => if cbs r then Some r else None).

Definition session_client_new : M (option H) := fun w =>
  match client_new with
  | Some h => (Returns (Some h), set_res (mkRes (sock (res w)) (ctx (res w)) (ssl (res w)) (cbs (res w)) true) w)
  | None => (Returns None, w)
  end.

Definition callbacks_del : M unit :=
  on_res (fun r => if cbs r then Some (mkRes (sock r) (ctx r) (ssl r) false (session r)) else None).

Definition session_del : M unit :=
  on_res (fun r => if session r then Some (mkRes (sock r) (ctx r) (ssl r) (cbs r) false) else None).

(** The pseudo-headers of the request. *)
Definition hdrs (host path : view) : list (view * view) :=
  [(sv ":method", sv "GET"); (sv ":scheme", sv "https"); (sv ":authority", host);
   (sv ":path", path); (sv "user-agent", sv "nghttp2-client")].

(** A pointer to a session that may be null. *)
Definition deref (p : option H) : M H :=
  match p with Some h => using_session ;;; ret h | None => fun w => (Undefined, w) end.

(** The cleanup at the end, and on a failure from the TLS object onwards. *)
Definition close_tls (ssl : bool) : M unit :=
  using_ssl ssl ;;;                                  (* SSL_shutdown *)
  SSL_free ssl ;;; SSL_CTX_free ;;; close_socket.

(** [makeHttp2Request] once "h2" is negotiated. *)
Definition http2_exchange (host path : view) (ssl : bool) : M HttpResponse :=
  let* _ := callbacks_new in
  using_callbacks ;;;                                (* the five setters *)
  let* p := session_client_new in
  callbacks_del ;;;
  let* h := deref p in
  let h := submit_settings 100 h in
  let '(stream_id, h) := submit_request (hdrs host path) h in
  if stream_id <? 0 then session_del ;;; close_tls ssl ;;; ret no_response else
  let* s := nghttp2_session_send ssl h data0 in
  let '(h, d) := s in
  let* d := http2_receive ssl h d in
  session_del ;;; close_tls ssl ;;; ret (response d).

(** [makeHttp2Request]. *)
Definition makeHttp2Request (host : view) (port : Z) (path : view) : M HttpResponse :=
  let response := no_response in
  let* sockfd := socket_ net in
  if negb sockfd then ret response else
  match host_address net host with
  | None => close_socket ;;; ret response
  | Some server =>
    let* connected := connect net server port in
    if negb connected then close_socket ;;; ret response else
    let* ctx := SSL_CTX_new net in
    if negb ctx then close_socket ;;; ret response else
    let* ssl := SSL_new net in
    using_ssl ssl ;;;                                (* SSL_set_fd *)
    let* r := SSL_connect net ssl in
    if r <=? 0 then SSL_free ssl ;;; SSL_CTX_free ;;; close_socket ;;; ret response else
    if bool_decide (alpn net = Some (sv "h2")) then http2_exchange host path ssl
    else close_tls ssl ;;; ret response
  end.

End Client2.

(** ** [main.cpp] *)

(** The examples chosen by the arguments, as the set [examples_to_run]. *)
Definition add_example (s : gset Z) (arg : view) : gset Z :=
  if bool_decide (arg = sv "1") then {[1]} ∪ s
  else if bool_decide (arg = sv "2") then {[2]} ∪ s
  else if bool_decide (arg = sv "3") then {[3]} ∪ s
  else s.

Definition examples_to_run (argv : list view) : gset Z :=
  match argv with
  | _ :: arg :: args => foldl add_example ∅ (arg :: args)
  | _ => {[3]}
  end.

(** The examples run, in order. *)
Definition examples (argv : list view) : list Z :=
  let s := examples_to_run argv in
  filter (fun k => k ∈ s) [1; 2; 3].

Definition runExample1 (net : Net) : M HttpResponse := makeHttpRequest net (sv "ifconfig.io") 80 (sv "/") false.
Definition runExample2 (net : Net) : M HttpResponse := makeHttpRequest net (sv "httpbin.org") 443 (sv "/headers") true.
Definition runExample3 (net : Net) `{!Nghttp2 H} : M HttpResponse := makeHttp2Request net (sv "httpbin.org") 443 (sv "/get").

(** ** Parsing: the parts of a well-formed response come back *)

Lemma find_unfold pat s :
  find pat s = if bool_decide (take (length pat) s = pat) then Some 0%nat
               else match s with [] => None | _ :: s => S <$> find pat s end.
Proof. by destruct s. Qed.

(** A match lies inside the text, so the positions handed to [substr] do. *)
Lemma find_in pat s i : find pat s = Some i -> (i + length pat <= length s)%nat.
Proof.
  revert i. induction s as [|c s IH]; intros i; rewrite find_unfold; case_bool_decide as Hb.
  - intros [= <-]. rewrite <- Hb at 1. rewrite length_take. simpl; lia.
  - done.
  - intros [= <-]. rewrite <- Hb at 1. rewrite length_take. lia.
  - intros (j & Hj & ->)%fmap_Some. apply IH in Hj. simpl. lia.
Qed.

(** The first occurrence of a pattern that does not overlap what precedes. *)
Lemma find_first q c l r :
  find (q ++ [c]) (l ++ q) = None -> find (q ++ [c]) (l ++ (q ++ [c]) ++ r) = Some (length l).
Proof.
  induction l as [|x l IH]; intros Hn.
  - rewrite (find_unfold _ ([] ++ _)), bool_decide_eq_true_2; [done|]. by rewrite app_nil_l, take_app_length.
  - simpl in Hn. case_bool_decide as Hb; [done|]. apply fmap_None, IH in Hn.
    simpl. rewrite bool_decide_eq_false_2, Hn; [done|]. intros He. apply Hb. rewrite <- He at 2.
    change (x :: l ++ q) with ((x :: l) ++ q). change (x :: l ++ (q ++ [c]) ++ r) with ((x :: l) ++ (q ++ [c]) ++ r).
    rewrite <- (assoc_L (++)), (assoc_L (++) (x :: l)). rewrite (take_app_le (_ ++ q)); [done|].
    rewrite !length_app. simpl. lia.
Qed.

Lemma find_char_None c l : c ∉ l -> find [c] l = None.
Proof.
  induction l as [|x l IH]; [done|]. intros Hn. rewrite not_elem_of_cons in Hn. destruct Hn as [Hx Hl].
  simpl. rewrite bool_decide_eq_false_2; [|congruence]. by rewrite IH.
Qed.

Lemma find_char c l r : c ∉ l -> find [c] (l ++ c :: r) = Some (length l).
Proof.
  intros Hn. apply (find_first [] c l r). rewrite app_nil_r. by apply find_char_None.
Qed.

Abbreviation number ds := (CliArgs.digit_char <$> ds).

Lemma digit_char_plain d (c : ascii) :
  0 <= d <= 9 -> CliArgs.digit c = None -> CliArgs.digit_char d <> c.
Proof. intros Hd Hc <-. by rewrite CliArgs.digit_digit_char in Hc. Qed.

Lemma isspace_no_digit c : isspace c = true -> CliArgs.digit c = None.
Proof.
  unfold isspace, CliArgs.digit. intros H.
  assert (nat_of_ascii c <= 32)%nat.
  { apply orb_true_iff in H as [H|H]; reflect_bools; lia. }
  by destruct (Z.leb_spec 0 (Z.of_nat (nat_of_ascii c) - 48)); [lia|].
Qed.

Lemma stoi_number ds :
  ds <> [] -> Forall (fun d => 0 <= d <= 9) ds -> CliArgs.value ds <= CliArgs.int_max ->
  0 <= CliArgs.value ds -> stoi (number ds) = Some (CliArgs.value ds).
Proof.
  intros Hne Hds Hmax Hmin. unfold stoi.
  assert (Hsk : skip_space (number ds) = number ds).
  { destruct ds as [|d ds]; [done|]. simpl. apply Forall_cons in Hds as [Hd _].
    destruct (isspace _) eqn:E; [|done]. apply isspace_no_digit in E.
    by rewrite CliArgs.digit_digit_char in E. }
  rewrite Hsk.
  assert (Hdig : CliArgs.digits (number ds) = ds).
  { pose proof (CliArgs.digits_app ds [] Hds eq_refl) as H. by rewrite app_nil_r in H. }
  destruct ds as [|d ds']; [done|]. rewrite fmap_cons.
  apply Forall_cons in Hds as [Hd _].
  rewrite !bool_decide_eq_false_2 by (by apply digit_char_plain).
  rewrite <- fmap_cons, Hdig.
  unfold CliArgs.int_min. by destruct (Z.leb_spec (- 2 ^ 31) (CliArgs.value (d :: ds'))),
    (Z.leb_spec (CliArgs.value (d :: ds')) CliArgs.int_max); simpl; try lia.
Qed.

Lemma value_nonneg ds : Forall (fun d => 0 <= d <= 9) ds -> 0 <= CliArgs.value ds.
Proof.
  unfold CliArgs.value. assert (Hg : forall v, 0 <= v -> Forall (fun d => 0 <= d <= 9) ds ->
    0 <= foldl (fun v d => 10 * v + d) v ds); [|apply Hg; lia].
  induction ds as [|d ds IH]; intros v Hv; [done|]. intros [Hd Hds]%Forall_cons. apply IH; [lia|done].
Qed.

(** A response whose status line is a version, a decimal status code and the rest, and whose
    head has no blank line of its own, is parsed back into exactly its status, its head and
    its body, whatever the body contains. *)
Theorem parse_response_roundtrip version ds rest content r :
  SP ∉ version -> ds <> [] -> Forall (fun d => 0 <= d <= 9) ds -> CliArgs.value ds <= CliArgs.int_max ->
  let head := version ++ SP :: number ds ++ SP :: rest in
  find blank_line (head ++ [CR; LF; CR]) = None ->
  parseHttpResponse (head ++ blank_line ++ content) r =
    Some (mkResponse (CliArgs.value ds) head content).
Proof.
  intros Hv Hne Hds Hmax head Hb. unfold parseHttpResponse, header_end.
  rewrite (find_first [CR; LF; CR] LF) by done. simpl fst.
  rewrite take_app_length.
  replace (drop (length head + 4) (head ++ blank_line ++ content)) with content.
  2:{ rewrite <- drop_drop, drop_app_length. done. }
  subst head. rewrite find_char by done. unfold find_from.
  rewrite Nat.add_1_r.
  assert (Hd : drop (S (length version)) (version ++ SP :: number ds ++ SP :: rest) = number ds ++ SP :: rest).
  { replace (S (length version)) with (length version + 1)%nat by lia.
    by rewrite <- drop_drop, drop_app_length. }
  rewrite Hd, find_char.
  2:{ intros (d & Hd' & Hin)%list_elem_of_fmap. rewrite Forall_forall in Hds.
      symmetry in Hd'. by apply digit_char_plain in Hd'; [|apply Hds|]. }
  cbn [fmap option_fmap option_map].
  replace (S (length version) + length (number ds) - length version - 1)%nat with (length (number ds)) by lia.
  rewrite take_app_length, stoi_number; [done..|]. by apply value_nonneg.
Qed.

(** ** HTTP/1.1: what a request returns and what it releases *)

Definition start (ws : list Z) (chunks : list view) : World :=
  mkWorld no_handles None ws chunks [] [].

(** What the reads give before the first that is not positive; [None] while
    there is none. *)
Fixpoint received (chunks : list view) : option view :=
  match chunks with
  | [] => None
  | c :: cs => if (length c =? 0)%nat then Some [] else app c <$> received cs
  end.

(** The calls up to the first write succeed. *)
Definition connects (net : Net) (host : view) (tls : bool) : bool :=
  socket_ok net && bool_decide (is_Some (host_address net host)) && connect_ok net &&
  (negb tls || (ctx_ok net && ssl_ok net && (0 <? handshake net))).

(** The handles held while the response is read. *)
Definition exchange_handles (tls : bool) : Res := mkRes true (if tls then 2 else 0) tls false false.

(** The write is taken for a success: a positive result over TLS, a result that
    is not negative on a socket. *)
Definition write_ok (tls : bool) (r : Z) : bool := if tls then 0 <? r else 0 <=? r.

Lemma receive_loop_spec fuel tls acc w :
  sock (res w) = true -> ssl (res w) = tls -> (length (incoming w) < fuel)%nat ->
  exists rest, receive_loop fuel tls acc w =
    (match received (incoming w) with Some raw => Returns (acc ++ raw) | None => Blocked end, set_incoming rest w).
Proof.
  revert acc w. induction fuel as [|fuel IH]; intros acc w Hs Ht Hf; [lia|].
  assert (Hread : (if tls then SSL_read tls else recv) w = read_ w).
  { destruct w as [[so c l cb se] t ws ins sn de]. simpl in *. subst. by destruct tls. }
  cbn [receive_loop]. unfold bind at 1. rewrite Hread. unfold read_.
  destruct (incoming w) as [|c cs] eqn:Hi; simpl.
  - exists []. destruct w; simpl in *. by rewrite Hi.
  - destruct (length c =? 0)%nat; [by exists cs; rewrite app_nil_r|].
    destruct (IH (acc ++ c) (set_incoming cs w)) as [rest Hr]; [done..|simpl in *; lia|].
    exists rest. rewrite Hr. simpl. destruct (received cs); simpl; by rewrite ?(assoc_L (++)).
Qed.

Lemma setupTLS_spec net w :
  res w = exchange_handles false ->
  setupTLS net w = if ctx_ok net && ssl_ok net && (0 <? handshake net)
                   then (Returns true, set_res (exchange_handles true) w)
                   else (Returns false, w).
Proof.
  intros Hr. destruct w as [r t ws ins se de]. simpl in Hr. subst r.
  unfold setupTLS, SSL_CTX_new, SSL_new, SSL_CTX_free, SSL_connect, using_ssl, on_res, bind, ret.
  destruct (ctx_ok net); [|done]. simpl. destruct (ssl_ok net); [|done]. simpl.
  rewrite Z.leb_antisym. by destruct (0 <? handshake net).
Qed.

Lemma cleanup_spec {A} tls (a : A) w :
  res w = exchange_handles tls ->
  (cleanupTLS tls ;;; close_socket ;;; ret a) w = (Returns a, set_res no_handles w).
Proof. intros Hr. destruct w as [r t ws ins se de]. simpl in Hr. subst r. by destruct tls. Qed.

Lemma sendHttpRequest_spec tls request w :
  res w = exchange_handles tls ->
  match writes w with
  | [] => exists w', sendHttpRequest tls request w = (Blocked, w') /\ res w' = res w
  | r :: _ => exists w', sendHttpRequest tls request w = (Returns (write_ok tls r), w') /\
    res w' = res w /\ incoming w' = incoming w /\ target w' = target w /\
    sent w' = sent w ++ take (Z.to_nat r) request
  end.
Proof.
  intros Hr. destruct w as [r t ws ins se de]. simpl in Hr. subst r. destruct tls; simpl;
    unfold sendHttpRequest, SSL_write, send, using_ssl, using_socket, on_res, bind, ret, write_, write_ok; simpl;
    destruct ws as [|r ws]; simpl; rewrite ?Z.leb_antisym, ?Z.ltb_antisym, ?negb_involutive;
    eexists; (split; [reflexivity|done]).
Qed.

(** Every way a request can go: it fails up to the write and returns an empty response, or
    the response is what the parser makes of the bytes received; in both cases every
    handle is released exactly once. It waits, with its handles, exactly as long as the write or a
    read is not answered. What is sent, to the resolved address and the port modulo
    2^16, is the part of the request the one write accepted. Only when the status is not a number does the exception
    of [std::stoi] leave the socket, the TLS object and its context behind. *)
Theorem http1_outcome net host port path tls ws chunks :
  let '(o, w) := makeHttpRequest net host port path tls (start ws chunks) in
  match connects net host tls, ws with
  | true, [] => o = Blocked /\ res w = exchange_handles tls
  | true, r :: _ =>
    if write_ok tls r
    then (exists server, host_address net host = Some server /\ target w = Some (server, port mod 2 ^ 16)) /\
         sent w = take (Z.to_nat r) (request_text host path) /\
         match received chunks with
         | None => o = Blocked /\ res w = exchange_handles tls
         | Some raw =>
           match parseHttpResponse raw no_response with
           | Some r => o = Returns r /\ res w = no_handles
           | None => o = Throws /\ res w = exchange_handles tls
           end
         end
    else o = Returns no_response /\ res w = no_handles
  | false, _ => o = Returns no_response /\ res w = no_handles
  end.
Proof.
  unfold connects, makeHttpRequest, socket_. unfold bind at 1.
  destruct (socket_ok net); [|done]. cbn [negb andb].
  destruct (host_address net host) as [server|]; [|done]. cbn [andb]. rewrite bool_decide_eq_true_2 by eauto.
  unfold bind at 1. unfold connect, using_socket, bind at 1, on_res. simpl.
  destruct (connect_ok net); [|done]. simpl.
  set (w1 := mkWorld (exchange_handles false) (Some (server, port mod 2 ^ 16)) ws chunks [] []).
  assert (Hs : (if tls then setupTLS net else ret false) w1 =
    if negb tls || (ctx_ok net && ssl_ok net && (0 <? handshake net))
    then (Returns tls, set_res (exchange_handles tls) w1) else (Returns false, w1)).
  { destruct tls; [|done]. by apply setupTLS_spec. }
  unfold bind at 1. change (set_target _ _) with w1. rewrite Hs.
  destruct (_ || _) eqn:Hc; [|by destruct tls]. replace (tls && negb tls) with false by by destruct tls.
  pose proof (sendHttpRequest_spec tls (request_text host path) (set_res (exchange_handles tls) w1) eq_refl) as Hsp.
  cbv iota. unfold bind at 1. destruct ws as [|r ws].
  { destruct Hsp as (w2 & Hsend & Hres). by rewrite Hsend. }
  destruct Hsp as (w2 & Hsend & Hres & Hin & Ht & Hse). rewrite Hsend. simpl in *. destruct (write_ok tls r); simpl.
  2:{ by rewrite cleanup_spec. }
  unfold bind at 1. unfold receiveHttpResponse.
  destruct (receive_loop_spec (S (length (incoming w2))) tls [] w2) as [rest Hrecv];
    [by rewrite Hres|by rewrite Hres|lia|].
  rewrite Hrecv, Hin. destruct (received chunks) as [raw|]; [|by simpl; rewrite Ht; eauto 6].
  unfold bind at 1, parse_into. simpl.
  destruct (parseHttpResponse _ _); [rewrite cleanup_spec by done|]; simpl; rewrite Ht; eauto 6.
Qed.

(** ** HTTP/2: the response is assembled from every callback, in order *)

Definition header_line (e : event) : view :=
  match e with OnHeader true name value => name ++ sv ": " ++ value ++ [LF] | _ => [] end.

Definition data_of (e : event) : view := match e with OnData data => data | _ => [] end.

Definition closes (e : event) : bool := match e with OnStreamClose => true | _ => false end.

(** The value of a [:status] header of a response. *)
Definition status_of (e : event) : option view :=
  match e with
  | OnHeader true name value => if bool_decide (name = sv ":status") then Some value else None
  | _ => None
  end.

(** The status announced last; 0 before any. *)
Definition announced (l : list event) : option Z :=
  match last (omap status_of l) with Some v => stoi v | None => Some 0 end.

(** [d] is the response the events [l] describe. *)
Record assembled (l : list event) (d : Http2SessionData) : Prop := {
  as_status : announced l = Some (status_code (response d));
  as_headers : headers (response d) = concat (header_line <$> l);
  as_body : body (response d) = concat (data_of <$> l);
  as_complete : response_complete d = existsb closes l
}.

Lemma announced_snoc l e :
  announced (l ++ [e]) = match status_of e with Some v => stoi v | None => announced l end.
Proof.
  unfold announced. rewrite omap_app. simpl. destruct (status_of e); [by rewrite last_snoc|].
  by rewrite app_nil_r.
Qed.

(** One callback extends the assembly, or throws on a status that is no number. *)
Lemma callback_assembles l e d :
  assembled l d ->
  match callback e d with
  | Some d' => assembled (l ++ [e]) d'
  | None => exists v, e = OnHeader true (sv ":status") v /\ stoi v = None
  end.
Proof.
  intros [Hs Hh Hb Hc].
  assert (Hconcat : forall f : event -> view, concat (f <$> (l ++ [e])) = concat (f <$> l) ++ f e).
  { intros f. by rewrite fmap_app, concat_app, fmap_cons, concat_cons, !app_nil_r. }
  assert (Hex : existsb closes (l ++ [e]) = existsb closes l || closes e).
  { by rewrite existsb_app, <- (orb_false_r (closes e)). }
  destruct e as [[] name value|data| |b]; simpl; unfold on_frame_recv_callback.
  all: try (split; rewrite ?announced_snoc, ?Hconcat, ?Hex; simpl;
            rewrite ?app_nil_r, ?orb_false_r, ?orb_true_r; congruence).
  unfold on_header_callback. case_bool_decide as Hn; [destruct (stoi value) as [z|] eqn:Hz|]; simpl.
  2:{ exists value. by subst. }
  all: split; rewrite ?announced_snoc, ?Hconcat, ?Hex;
       cbn [status_of header_line data_of closes response status_code headers body response_complete];
       rewrite ?app_nil_r, ?orb_false_r, ?bool_decide_eq_true_2, ?bool_decide_eq_false_2 by done;
       rewrite ?Hh; done || congruence.
Qed.

Section Exchange.
Context (net : Net) `{!Nghttp2 H}.

(** The handles held while the streams are processed. *)
Definition session_handles : Res := mkRes true 2 true false true.

(** The worlds of an exchange that is under way: what changes is not the handles. *)
Definition exchanging (w : World) : Prop := res w = session_handles.

Lemma run_sending_spec (t : sending H) d w :
  exchanging w -> assembled (delivered w) d ->
  let '(o, w') := run_sending true t d w in
  exchanging w' /\ incoming w' = incoming w /\
  match o with
  | Returns (_, d') => assembled (delivered w') d'
  | Blocked => writes w' = []
  | _ => False
  end.
Proof.
  revert d w. induction t as [h|data k IH|k IH]; intros d w Hw Hd; [done| |].
  - simpl. unfold bind at 1, send_callback, SSL_write, using_ssl, on_res, bind, ret, write_.
    rewrite Hw. simpl. destruct (writes w) as [|r rest] eqn:Ew; simpl; [by rewrite Ew|].
    match goal with |- context [run_sending true _ d ?w1] => by apply (IH _ d w1) end.
  - simpl. apply (IH (on_stream_close_callback d) (set_delivered (delivered w ++ [OnStreamClose]) w)); [done|].
    exact (callback_assembles _ OnStreamClose _ Hd).
Qed.

Lemma nghttp2_session_send_spec h d w :
  exchanging w -> assembled (delivered w) d ->
  let '(o, w') := nghttp2_session_send true h d w in
  exchanging w' /\ incoming w' = incoming w /\
  match o with
  | Returns (_, d') => assembled (delivered w') d'
  | Blocked => writes w' = []
  | _ => False
  end.
Proof.
  intros Hw Hd. unfold nghttp2_session_send, bind, using_session, on_res. rewrite Hw. simpl.
  by apply (run_sending_spec (session_send h) d (set_res session_handles w)).
Qed.

(** What holds when the response cannot be completed because of a status that is
    no number. *)
Definition bad_status (w : World) : Prop :=
  exists l v, delivered w = l ++ [OnHeader true (sv ":status") v] /\ stoi v = None.

Lemma run_receiving_spec (t : receiving H) d w :
  exchanging w -> assembled (delivered w) d ->
  let '(o, w') := run_receiving t d w in
  exchanging w' /\ incoming w' = incoming w /\
  match o with
  | Returns (_, _, d') => assembled (delivered w') d'
  | Throws => bad_status w'
  | _ => False
  end.
Proof.
  revert d w. induction t as [n h|e t IH]; intros d w Hw Hd; [done|].
  simpl. pose proof (callback_assembles _ e _ Hd) as Hc. destruct (callback e d) as [d'|].
  - by apply (IH d' (set_delivered (delivered w ++ [e]) w)).
  - destruct Hc as (v & -> & Hv). by split_and!; [..|exists (delivered w), v].
Qed.

(** The request waits for the peer: for a write to be accepted, or for data
    when all that was given has been processed and the stream is not closed. *)
Definition waiting (w : World) : Prop :=
  writes w = [] \/ incoming w = [] /\ existsb closes (delivered w) = false.

Lemma http2_loop_spec fuel h d w :
  exchanging w -> assembled (delivered w) d -> (length (incoming w) < fuel)%nat ->
  let '(o, w') := http2_loop fuel true h d w in
  exchanging w' /\
  match o with
  | Returns d' => assembled (delivered w') d'
  | Throws => bad_status w'
  | Blocked => waiting w'
  | _ => False
  end.
Proof.
  revert h d w. induction fuel as [|fuel IH]; intros h d w Hw Hd Hf; [lia|].
  simpl. destruct (response_complete d) eqn:Hcd; [done|].
  unfold bind at 1, SSL_read, bind at 1, using_ssl, on_res. rewrite Hw. simpl. unfold read_. simpl.
  destruct (incoming w) as [|c cs] eqn:Hi; [|destruct (length c =? 0)%nat; [done|]].
  { split; [done|]. right. simpl. split; [done|]. rewrite <- Hcd. symmetry. apply Hd. }
  unfold bind at 1, nghttp2_session_mem_recv, bind at 1, using_session, on_res. simpl.
  set (w1 := set_res _ _).
  pose proof (run_receiving_spec (session_mem_recv c h) d w1 eq_refl Hd) as Hr.
  destruct (run_receiving _ d w1) as [[[[n h'] d']| | | |] w2]; destruct Hr as (Hw2 & Hi2 & Ho); try done.
  destruct (n <? 0); [done|]. pose proof (nghttp2_session_send_spec h' d' w2 Hw2 Ho) as Hs.
  unfold bind at 1. destruct (nghttp2_session_send true h' d' w2) as [[[h'' d'']| | | |] w3];
    destruct Hs as (Hw3 & Hi3 & Hs); try done; [|by split; [|left]].
  apply IH; [done|done|]. rewrite Hi3, Hi2. subst w1. simpl in *. lia.
Qed.

(** The state after "h2" is negotiated. *)
Lemma http2_exchange_spec host path w :
  res w = exchange_handles true -> delivered w = [] ->
  let '(o, w') := http2_exchange host path true w in
  match o with
  | Returns r => res w' = no_handles /\ exists c, assembled (delivered w') (mkData r c)
  | Throws => exchanging w' /\ bad_status w'
  | Undefined => callbacks_ok = false \/ client_new = None
  | Blocked => exchanging w' /\ waiting w'
  | Endless => False
  end.
Proof.
  intros Hw Hd. destruct w as [r t ws ins se de]. simpl in Hw, Hd. subst.
  unfold http2_exchange, bind at 1, callbacks_new.
  destruct callbacks_ok; [|by left]. unfold bind at 1, using_callbacks, on_res. simpl.
  unfold bind at 1, session_client_new. destruct client_new as [h|]; [|by right].
  simpl. unfold bind at 1, callbacks_del, on_res, bind at 1, deref, bind at 1, using_session, on_res, ret. simpl.
  destruct (submit_request _ _) as [sid h1]. destruct (sid <? 0); [by split; [|exists false]|].
  set (w1 := set_res _ _). assert (assembled (delivered w1) data0) as H1 by done.
  pose proof (nghttp2_session_send_spec h1 data0 w1 eq_refl H1) as Hs.
  unfold bind at 1. destruct (nghttp2_session_send true h1 data0 w1) as [[[h2 d2]| | | |] w2];
    destruct Hs as (Hw2 & _ & Hs); try done; [|by split; [|left]]. unfold bind at 1.
  pose proof (http2_loop_spec (S (length (incoming w2))) h2 d2 w2 Hw2 Hs ltac:(lia)) as Hl.
  fold (http2_receive true h2 d2 w2) in Hl. destruct (http2_receive true h2 d2 w2) as [[d| | | |] w3];
    destruct Hl as [Hw3 Ho]; try done.
  destruct w3. unfold exchanging in Hw3. simpl in Hw3. subst. cbn. split; [done|]. exists (response_complete d). by destruct d.
Qed.


End Exchange.

(** [SSL_new] is not checked in the HTTP/2 client: when it fails the null
    pointer is used, whereas the HTTP/1.1 client returns an empty response. *)
Theorem unchecked_ssl_object net `{!Nghttp2 H} host port path server ws chunks :
  socket_ok net = true -> host_address net host = Some server -> connect_ok net = true ->
  ctx_ok net = true -> ssl_ok net = false ->
  fst (makeHttp2Request net host port path (start ws chunks)) = Undefined /\
  fst (makeHttpRequest net host port path true (start ws chunks)) = Returns no_response.
Proof.
  intros Hs Hh Hc Hx Hl.
  unfold makeHttp2Request, makeHttpRequest, socket_, bind, connect, setupTLS, using_socket, on_res,
    SSL_CTX_new, SSL_new.
  by rewrite Hs, Hh; simpl; rewrite Hc; simpl; rewrite Hx; simpl; rewrite Hl.
Qed.

(** ** The choice of examples *)

Definition example_arg (k : Z) : view :=
  match k with 1 => sv "1" | 2 => sv "2" | _ => sv "3" end.

Lemma add_examples_spec args s k :
  k ∈ [1; 2; 3] -> k ∈ foldl add_example s args <-> k ∈ s \/ example_arg k ∈ args.
Proof.
  revert s. induction args as [|a args IH]; intros s Hk; simpl; [set_solver|].
  rewrite IH, elem_of_cons by done.
  assert (Ha : k ∈ add_example s a <-> k ∈ s \/ example_arg k = a); [|tauto].
  unfold add_example. rewrite !elem_of_cons, elem_of_nil in Hk.
  destruct Hk as [->|[->|[->|[]]]]; simpl; repeat case_bool_decide; subst; set_solver.
Qed.

(** Each example runs at most once, in the order 1, 2, 3: those named on the
    command line, or the third alone without arguments. *)
Theorem examples_spec prog args k :
  (args = [] -> examples [prog] = [3]) /\
  (args <> [] -> k ∈ examples (prog :: args) <-> k ∈ [1; 2; 3] /\ example_arg k ∈ args) /\
  sublist (examples (prog :: args)) [1; 2; 3].
Proof.
  split; [done|split].
  - intros Hne. destruct args as [|a args]; [done|]. unfold examples. rewrite list_elem_of_filter.
    unfold examples_to_run. split.
    + intros [Hin Hk]. apply add_examples_spec in Hin; set_solver.
    + intros [Hk Ha]. split; [|done]. apply add_examples_spec; [done|by right].
  - apply sublist_filter.
Qed.

(** ** Demonstration *)

Module Demo.

(** A network that works, and one session state whose frames carry a status, the
    chunk as data, and a close after the third chunk. *)
Definition net : Net := mkNet true (fun _ => Some 2130706433) true true true 1 (Some (sv "h2")).

Definition frames (data : view) (n : nat) : receiving nat :=
  match n with
  | O => Callback (OnHeader true (sv ":status") data) (Callback (OnFrameRecv true) (Received 0 1%nat))
  | 1%nat => Callback (OnData data) (Received 0 2%nat)
  | _ => Callback (OnData data) (Callback OnStreamClose (Received 0 n))
  end.

#[export] Instance session : Nghttp2 nat := {
  callbacks_ok := true; client_new := Some 0%nat;
  submit_settings _ h := h; submit_request _ h := (1, h);
  session_send h := match h with O => Write (sv "PRI") (fun _ => Flushed h) | _ => Flushed h end;
  session_mem_recv := frames
}.

Definition reply : view :=
  sv "HTTP/1.1 404 Not Found" ++ [CR; LF] ++ sv "Server: x" ++ [CR; LF; CR; LF] ++ sv "a" ++ blank_line ++ sv "b".

Example http1_request :
  fst (makeHttpRequest net (sv "h") 80 (sv "/") false (start [100] [take 10 reply; drop 10 reply; []])) =
    Returns (mkResponse 404 (take 33 reply) (sv "a" ++ blank_line ++ sv "b")).
Proof. reflexivity. Qed.

Example http2_request :
  fst (makeHttp2Request net (sv "h") 443 (sv "/") (start [3] [sv "200"; sv "ab"; sv "cd"; sv "ef"])) =
    Returns (mkResponse 200 (sv ":status: 200" ++ [LF]) (sv "abcd")).
Proof. reflexivity. Qed.

(** A connection that ends early gives a response like any other: nothing in
    it tells that the stream was never closed. *)
Example http2_truncated :
  fst (makeHttp2Request net (sv "h") 443 (sv "/") (start [3] [sv "200"; sv "ab"; []])) =
    Returns (mkResponse 200 (sv ":status: 200" ++ [LF]) (sv "ab")).
Proof. reflexivity. Qed.

(** A peer that says nothing more: both clients wait, without a limit. *)
Example silent_peer :
  fst (makeHttp2Request net (sv "h") 443 (sv "/") (start [3] [sv "200"; sv "ab"])) = Blocked /\
  fst (makeHttpRequest net (sv "h") 80 (sv "/") false (start [100] [reply])) = Blocked.
Proof. split; reflexivity. Qed.

(** A status that is no number: the exception leaves the handles behind. *)
Example http1_bad_status :
  let '(o, w) := makeHttpRequest net (sv "h") 443 (sv "/") true (start [100] [sv "HTTP/1.1 abc OK"; []]) in
  o = Throws /\ res w = exchange_handles true.
Proof. vm_compute. auto. Qed.

Lemma parse_response_roundtrip_witness :
  parseHttpResponse ((sv "HTTP/1.1" ++ SP :: number [4; 0; 4] ++ SP :: sv "Not Found") ++ blank_line ++ sv "b") no_response =
    Some (mkResponse 404 (sv "HTTP/1.1 404 Not Found") (sv "b")).
Proof.
  apply (parse_response_roundtrip (sv "HTTP/1.1") [4; 0; 4] (sv "Not Found") (sv "b") no_response).
  - set_solver.
  - done.
  - repeat (constructor; [lia|]). constructor.
  - vm_compute. discriminate.
  - reflexivity.
Defined.

Lemma unchecked_ssl_object_witness :
  let bad := mkNet true (fun _ => Some 0) true true false 1 None in
  fst (makeHttp2Request bad (sv "h") 443 (sv "/") (start [] [])) = Undefined /\
  fst (makeHttpRequest bad (sv "h") 443 (sv "/") true (start [] [])) = Returns no_response.
Proof.
  intros bad. apply (unchecked_ssl_object bad (sv "h") 443 (sv "/") 0 [] []); reflexivity.
Defined.

End Demo.
