(* ===== verification/PeerDemo.v ===== *)
(** * The WebRTC data channel demo

    [demo/try/datachannel/ws/wsclient.cpp]: a client that offers connections to
    the peers a user names, answers the offers that arrive over a WebSocket, and
    keeps its connections and channels in two maps by remote identifier.

    libdatachannel is not part of the repository: what it does is the sequence
    of [event]s, one per callback, the user's input included. A callback of a
    connection or channel fires only while the object lives, that is while a
    [shared_ptr] to it is held: between two events only the maps hold one; the
    offering branch of [main] holds a connection of its own while it runs, and
    [during] are the callbacks that connection makes meanwhile. A callback is
    one step: the maps are not locked in the code, and the races between the
    library's threads and [main] are not modelled. JSON is the interface of
    SigWire; text to the console is left out. *)

From stdpp Require Import gmap strings pretty.
From S2P Require Import Prelude SigWire.
Local Open Scope string_scope.

(** ** The command line and the addresses *)

Record Cmdline := mkCmdline { noStun : bool; udpMux : bool }.

(** The constructor of [Cmdline] over [argv[1..]]; [None] when it throws. *)
Fixpoint parse_args (args : list string) (c : Cmdline) : option Cmdline :=
  match args with
  | [] => Some c
  | arg :: args =>
    if bool_decide (arg = "--no-stun") then parse_args args (mkCmdline true (udpMux c))
    else if bool_decide (arg = "--udp-mux") then parse_args args (mkCmdline (noStun c) true)
    else None
  end.

Definition stunServer : string := "stun.l.google.com".
Definition stunPort : N := 19302.
Definition webSocketServer : string := "localhost".
Definition webSocketPort : N := 8000.

Record Configuration := mkConfig { iceServers : list string; enableIceUdpMux : bool }.

Definition configuration (c : Cmdline) : Configuration :=
  let prefix := if String.prefix "stun:" stunServer then "" else "stun:" in
  mkConfig (if noStun c then [] else [prefix +:+ stunServer +:+ ":" +:+ pretty stunPort]) (udpMux c).

(** [s.contains(pat)]. *)
Fixpoint contains (pat s : string) : bool :=
  String.prefix pat s || match s with EmptyString => false | String _ s => contains pat s end.

Definition url (localId : string) : string :=
  let wsPrefix := if contains "://" webSocketServer then "" else "ws://" in
  wsPrefix +:+ webSocketServer +:+ ":" +:+ pretty webSocketPort +:+ "/" +:+ localId.

Definition characters : string := "0123456789ABCDEFGHIJKLMNOPQRSTUVWXYZabcdefghijklmnopqrstuvwxyz".

(** [randomId(length)] with the numbers the distribution draws; [None] when
    [characters.at] throws. *)
Definition randomId (draws : list nat) : option string :=
  String.string_of_list_ascii <$> mapM (fun i => String.get i characters) draws.

(** ** State *)

Section Client.
Context {J : Type} {JL : JsonLib J}.

(** A call on a peer connection made for a message of a remote peer. *)
Inductive call := SetRemote (type sdp : string) | AddCandidate (cand mid : string).

(** How far [main] is: waiting for the socket, in the loop, returned. *)
Inductive phase := Waiting | Prompt | Returned (code : Z).

Record State := mkState {
  localId : string;
  peerConnectionMap : gmap string nat;
  dataChannelMap : gmap string nat;
  peers : list string;                  (* the [id] captured by the callbacks of each connection *)
  channels : list string;               (* the [id] captured by the callbacks of each channel *)
  promise : option bool;                (* [wsPromise]: a value or an exception *)
  ph : phase;
  wire : list string;                   (* the frames sent on the socket *)
  calls : list (nat * string * call);   (* connection, sender of the message, call *)
  greetings : list nat;                 (* the channels "Hello from ..." was sent on *)
  thrown : nat                          (* exceptions that left a callback *)
}.

Definition init (id : string) : State := mkState id ∅ ∅ [] [] None Waiting [] [] [] 0.

(** [map.emplace(k, v)] does nothing when the key is present. *)
Definition emplace (k : string) (v : nat) (m : gmap string nat) : gmap string nat :=
  match m !! k with Some _ => m | None => <[k := v]> m end.

Definition set_maps pcs dcs ps cs (s : State) : State :=
  mkState (localId s) pcs dcs ps cs (promise s) (ph s) (wire s) (calls s) (greetings s) (thrown s).
Definition set_main p q (s : State) : State :=
  mkState (localId s) (peerConnectionMap s) (dataChannelMap s) (peers s) (channels s) p q
          (wire s) (calls s) (greetings s) (thrown s).
Definition set_out w c g t (s : State) : State :=
  mkState (localId s) (peerConnectionMap s) (dataChannelMap s) (peers s) (channels s) (promise s) (ph s) w c g t.

Definition throw (s : State) : State := set_out (wire s) (calls s) (greetings s) (S (thrown s)) s.
Definition send (text : string) (s : State) : State :=
  set_out (wire s ++ [text]) (calls s) (greetings s) (thrown s) s.
Definition called (pc : nat) (from : string) (c : call) (s : State) : State :=
  set_out (wire s) (calls s ++ [(pc, from, c)]) (greetings s) (thrown s) s.

(** ** Operations *)

(** [createPeerConnection]: the connection, numbered in the order of creation. *)
Definition createPeerConnection (id : string) (s : State) : nat * State :=
  let pc := length (peers s) in
  (pc, set_maps (emplace id pc (peerConnectionMap s)) (dataChannelMap s) (peers s ++ [id]) (channels s) s).

(** [onLocalDescription] and [onLocalCandidate] of a connection: the message is
    addressed to the captured [id]; [dump] may throw. *)
Definition onLocal (id : string) (n : Negotiation) (s : State) : State :=
  match dump (object (("id", id) :: fields n)) with
  | Some text => send text s
  | None => throw s
  end.

(** [onDataChannel], and the channel [main] creates when it offers: its callbacks
    capture [id] and the map keeps it unless [id] has a channel already. *)
Definition onDataChannel (id : string) (s : State) : State :=
  let dc := length (channels s) in
  set_maps (peerConnectionMap s) (emplace id dc (dataChannelMap s)) (peers s) (channels s ++ [id]) s.

(** [dc->onOpen], on both sides. *)
Definition onOpen (dc : nat) (s : State) : State :=
  set_out (wire s) (calls s) (greetings s ++ [dc]) (thrown s) s.

(** The last part of [ws->onMessage], once the connection is known. *)
Definition apply_message (pc : nat) (id type : string) (message : J) (s : State) : State :=
  let field k := find message k ≫= get_string in
  if bool_decide (type = "offer") || bool_decide (type = "answer")
  then match field "description" with
       | Some sdp => called pc id (SetRemote type sdp) s
       | None => throw s
       end
  else if bool_decide (type = "candidate")
  then match field "candidate" with
       | None => throw s
       | Some sdp => match field "mid" with
                     | Some mid => called pc id (AddCandidate sdp mid) s
                     | None => throw s
                     end
       end
  else s.

(** [ws->onMessage]. *)
Definition onMessage (data : frame) (s : State) : State :=
  match data with
  | Binary _ => s
  | Text str =>
    match parse str with
    | None => throw s
    | Some message =>
      match find message "id" with
      | None => s
      | Some vid =>
        match get_string vid with
        | None => throw s
        | Some id =>
          match find message "type" with
          | None => s
          | Some vty =>
            match get_string vty with
            | None => throw s
            | Some type =>
              match peerConnectionMap s !! id with
              | Some pc => apply_message pc id type message s
              | None =>
                if bool_decide (type = "offer")
                then let '(pc, s) := createPeerConnection id s in apply_message pc id type message s
                else s
              end
            end
          end
        end
      end
    end
  end.

(** [wsPromise.set_value] and [set_exception]: a second one throws. *)
Definition fulfil (v : bool) (s : State) : State :=
  match promise s with
  | None => set_main (Some v) (ph s) s
  | Some _ => throw s
  end.

(** Leaving [main]: both maps are cleared. *)
Definition leave (code : Z) (s : State) : State :=
  set_main (promise s) (Returned code) (set_maps ∅ ∅ (peers s) (channels s) s).

(** One turn of the loop of [main] for the input [id]. *)
Definition prompt (id : string) (during : list Negotiation) (s : State) : State :=
  if bool_decide (id = "") then leave 0 s
  else if bool_decide (id = localId s) then s
  else
    let '(_, s) := createPeerConnection id s in
    let s := foldl (fun s n => onLocal id n s) s during in
    onDataChannel id s.                           (* [createDataChannel], [dataChannelMap.emplace] *)

Inductive event :=
| WsOpen
| WsError
| WsClosed
| WsMessage (data : frame)
| Wake                                            (* [wsFuture.get()] returns or throws *)
| Input (id : string) (during : list Negotiation)
| Local (pc : nat) (n : Negotiation)
| Channel (pc : nat)                              (* [onDataChannel] of a connection *)
| ChannelOpen (dc : nat).

(** The object [o] is held by a map. *)
Definition held (m : gmap string nat) (names : list string) (o : nat) : bool :=
  match names !! o with
  | Some id => bool_decide (m !! id = Some o)
  | None => false
  end.

Definition name (names : list string) (o : nat) : string := default "" (names !! o).

Definition step (s : State) (e : event) : State :=
  match ph s with
  | Returned _ => s
  | _ =>
    match e with
    | WsOpen => fulfil true s
    | WsError => fulfil false s
    | WsClosed => s
    | WsMessage data => onMessage data s
    | Wake => match ph s, promise s with
              | Waiting, Some true => set_main (promise s) Prompt s
              | Waiting, Some false => leave (-1) s
              | _, _ => s
              end
    | Input id during => match ph s with Prompt => prompt id during s | _ => s end
    | Local pc n =>
      if held (peerConnectionMap s) (peers s) pc then onLocal (name (peers s) pc) n s else s
    | Channel pc =>
      if held (peerConnectionMap s) (peers s) pc then onDataChannel (name (peers s) pc) s else s
    | ChannelOpen dc =>
      if held (dataChannelMap s) (channels s) dc then onOpen dc s else s
    end
  end.

Definition run (s : State) (es : list event) : State := foldl step s es.

(** ** The invariant: messages and connections belong together *)

Definition names_of (m : gmap string nat) (names : list string) : Prop :=
  forall id o, m !! id = Some o -> names !! o = Some id.

(** A frame that a connection to [id] sends. *)
Definition addressed (s : State) (text : string) : Prop :=
  exists id n, id ∈ peers s /\ dump (object (("id", id) :: fields n)) = Some text.

Record Inv (s : State) : Prop := {
  inv_pcs : names_of (peerConnectionMap s) (peers s);
  inv_dcs : names_of (dataChannelMap s) (channels s);
  inv_calls : Forall (fun c => peers s !! c.1.1 = Some c.1.2) (calls s);
  inv_wire : Forall (addressed s) (wire s);
  inv_greetings : Forall (fun dc => dc < length (channels s)) (greetings s)
}.

Lemma Inv_init id : Inv (init id).
Proof. split; try done; intros ? ?; by rewrite lookup_empty. Qed.

Lemma emplace_names k m names :
  names_of m names -> names_of (emplace k (length names) m) (names ++ [k]).
Proof.
  unfold names_of, emplace. intros Hm id o. destruct (m !! k) as [v|] eqn:Hk.
  - intros H. by apply lookup_app_l_Some, Hm.
  - destruct (decide (id = k)) as [->|Hne].
    + rewrite lookup_insert_eq. intros [= <-]. by rewrite lookup_last_snoc.
    + rewrite lookup_insert_ne by done. intros H. by apply lookup_app_l_Some, Hm.
Qed.

Lemma emplace_subseteq k v m : m ⊆ emplace k v m.
Proof.
  unfold emplace. destruct (m !! k) eqn:Hk; [done|]. by apply insert_subseteq.
Qed.

(** Nothing is forgotten while the maps are not cleared. *)
Record later (s s' : State) : Prop := {
  l_pcs : peerConnectionMap s ⊆ peerConnectionMap s';
  l_dcs : dataChannelMap s ⊆ dataChannelMap s';
  l_peers : peers s `prefix_of` peers s'
}.

#[local] Instance later_refl : Reflexive later.
Proof. by split. Qed.

#[local] Instance later_trans : Transitive later.
Proof. intros a b c [H1 H2 H3] [H4 H5 H6]. split; by etrans. Qed.

(** An operation keeps the invariant and forgets nothing. *)
Definition keeps (s s' : State) : Prop := Inv s -> Inv s' /\ later s s'.

Lemma keeps_refl s : keeps s s.
Proof. by split. Qed.

Lemma keeps_trans s1 s2 s3 : keeps s1 s2 -> keeps s2 s3 -> keeps s1 s3.
Proof. intros H12 H23 H1. destruct (H12 H1) as [H2 L2], (H23 H2) as [H3 L3]. split; [done|by etrans]. Qed.

Lemma keeps_throw s : keeps s (throw s).
Proof. intros []. by split. Qed.

Lemma keeps_main p q s : keeps s (set_main p q s).
Proof. intros []. by split. Qed.

Lemma keeps_called s pc id c : peers s !! pc = Some id -> keeps s (called pc id c s).
Proof. intros Hpc []. split; [|done]. split; try done. apply Forall_app; by split; [|constructor]. Qed.

Lemma addressed_peers s s' text : peers s `prefix_of` peers s' -> addressed s text -> addressed s' text.
Proof.
  intros [l Hl] (id & n & Hin & Hd). exists id, n. split; [|done]. rewrite Hl. set_solver.
Qed.

Lemma keeps_createPeerConnection s id :
  let '(pc, s') := createPeerConnection id s in keeps s s' /\ peers s' !! pc = Some id.
Proof.
  unfold createPeerConnection. cbn. split; [|by rewrite lookup_last_snoc]. intros [Hp Hd Hc Hw Hg].
  assert (Hpre : (peers s `prefix_of` (peers s ++ [id])%list)%stdpp) by by apply prefix_app_r.
  split; [split|split]; cbn; try done.
  - by apply emplace_names.
  - eapply Forall_impl; [exact Hc|]. intros c Hx. by apply lookup_app_l_Some.
  - eapply Forall_impl; [exact Hw|]. intros text. by apply addressed_peers.
  - apply emplace_subseteq.
Qed.

Lemma keeps_onDataChannel s id : keeps s (onDataChannel id s).
Proof.
  intros [Hp Hd Hc Hw Hg]. split; [split|split]; cbn; try done.
  - by apply emplace_names.
  - eapply Forall_impl; [exact Hg|]. intros dc Hx. cbn in Hx |- *. rewrite length_app. lia.
  - apply emplace_subseteq.
Qed.

Lemma keeps_onLocal s id n : id ∈ peers s -> keeps s (onLocal id n s).
Proof.
  intros Hin. unfold onLocal. destruct (dump _) as [text|] eqn:Hd; [|apply keeps_throw].
  intros [Hp Hdc Hc Hw Hg]. split; [|done]. split; try done. apply Forall_app. split; [done|].
  constructor; [|done]. by exists id, n.
Qed.

Lemma peers_onLocal s id n : peers (onLocal id n s) = peers s.
Proof. unfold onLocal. by destruct (dump _). Qed.

Lemma keeps_during s id during :
  id ∈ peers s -> keeps s (foldl (fun s n => onLocal id n s) s during).
Proof.
  revert s. induction during as [|n l IH]; intros s Hin; [apply keeps_refl|]. cbn.
  eapply keeps_trans; [by apply keeps_onLocal|]. apply IH. by rewrite peers_onLocal.
Qed.

Lemma keeps_apply_message s pc id type msg :
  peers s !! pc = Some id -> keeps s (apply_message pc id type msg s).
Proof.
  intros Hpc. unfold apply_message.
  repeat (split_match; try (apply keeps_throw || apply keeps_refl)); by apply keeps_called.
Qed.

Lemma keeps_onMessage s data : Inv s -> keeps s (onMessage data s).
Proof.
  intros HI. unfold onMessage.
  repeat match goal with
  | |- keeps _ (let '(_, _) := createPeerConnection ?i s in _) =>
      pose proof (keeps_createPeerConnection s i) as Hc; destruct (createPeerConnection i s) as [pc s'];
      destruct Hc as [Hk Hpc]; eapply keeps_trans; [exact Hk|by apply keeps_apply_message]
  | |- _ => apply keeps_throw
  | |- keeps ?s ?s => apply keeps_refl
  | H : peerConnectionMap s !! _ = Some _ |- _ => apply keeps_apply_message, (inv_pcs _ HI _ _ H)
  | |- _ => split_match
  end.
Qed.

Lemma held_Some m names o : held m names o = true -> exists id, names !! o = Some id /\ m !! id = Some o.
Proof. unfold held. destruct (names !! o); [|done]. intros ?%bool_decide_eq_true. eauto. Qed.

Definition running (s : State) : bool := match ph s with Returned _ => false | _ => true end.

Lemma Inv_leave code s : Inv s -> Inv (leave code s).
Proof. intros []. split; try done; intros ? ?; by rewrite lookup_empty. Qed.

Lemma keeps_onOpen dc s : dc < length (channels s) -> keeps s (onOpen dc s).
Proof. intros Hdc []. split; [|done]. split; try done. apply Forall_app; by split; [|constructor]. Qed.

(** One event keeps the invariant; unless it ends [main] it forgets nothing. *)
Lemma step_spec s e : Inv s -> Inv (step s e) /\ (running (step s e) = true -> later s (step s e)).
Proof.
  intros HI. assert (Hk : forall s', keeps s s' -> Inv s' /\ (running s' = true -> later s s')).
  { intros s' H. by destruct (H HI). }
  assert (Hl : forall code, Inv (leave code s) /\ (running (leave code s) = true -> later s (leave code s))).
  { intros code. split; [by apply Inv_leave|done]. }
  unfold step. destruct (ph s) eqn:Hph; [| |apply Hk, keeps_refl]; destruct e; try apply Hk, keeps_refl.
  all: try (apply Hk; unfold fulfil; destruct (promise s); [apply keeps_throw|apply keeps_main]).
  all: try (by apply Hk, keeps_onMessage).
  all: try (destruct (held _ _ _) eqn:Hh; [|apply Hk, keeps_refl];
            apply held_Some in Hh as (id & Hn & Hm); unfold name; rewrite ?Hn; apply Hk;
            first [apply keeps_onDataChannel
                  |by apply keeps_onLocal; eapply list_elem_of_lookup_2
                  |by apply keeps_onOpen, (lookup_lt_Some _ _ _ Hn)]).
  - destruct (promise s) as [[]|]; [apply Hk, keeps_main|apply Hl|apply Hk, keeps_refl].
  - unfold prompt. case_bool_decide; [apply Hl|]. case_bool_decide; [apply Hk, keeps_refl|].
    pose proof (keeps_createPeerConnection s id) as Hc. destruct (createPeerConnection id s) as [pc s'].
    destruct Hc as [Hk' Hpc]. apply Hk. eapply keeps_trans; [exact Hk'|].
    eapply keeps_trans; [by apply keeps_during; eapply list_elem_of_lookup_2|apply keeps_onDataChannel].
Qed.

Lemma returned_stays s es : running s = false -> run s es = s.
Proof.
  intros Hr. induction es as [|e es IH]; [done|]. cbn. replace (step s e) with s; [done|].
  unfold step. unfold running in Hr. by destruct (ph s).
Qed.

Lemma run_spec s es : Inv s -> Inv (run s es) /\ (running (run s es) = true -> later s (run s es)).
Proof.
  revert s. induction es as [|e es IH]; intros s HI; [by split|]. cbn.
  destruct (step_spec s e HI) as [H1 L1], (IH (step s e) ltac:(done)) as [H2 L2]. split; [done|].
  intros Hr. destruct (running (step s e)) eqn:He; [etrans; [by apply L1|by apply L2]|].
  fold (run (step s e) es) in *. by rewrite returned_stays, He in Hr.
Qed.

(** For any sequence of library events and inputs: a description or candidate received from a
    peer is applied only to the connection created for that peer, every frame sent carries
    the identifier of the peer its connection belongs to, and while [main] runs the connection
    first stored for a peer stays the one its messages reach. *)
Theorem demo_routing id es :
  let s := run (init id) es in
  (forall pc from c, (pc, from, c) ∈ calls s -> peers s !! pc = Some from) /\
  (forall text, text ∈ wire s -> addressed s text) /\
  (forall peer pc es', peerConnectionMap s !! peer = Some pc ->
     running (run s es') = true -> peerConnectionMap (run s es') !! peer = Some pc).
Proof.
  intros s. destruct (run_spec (init id) es (Inv_init id)) as [HI _]. fold s in HI. split_and!.
  - intros pc from c Hin. pose proof (inv_calls _ HI) as Hc. rewrite Forall_forall in Hc. by apply (Hc _ Hin).
  - intros text Hin. pose proof (inv_wire _ HI) as Hw. rewrite Forall_forall in Hw. by apply Hw.
  - intros peer pc es' Hp Hr. destruct (run_spec s es' HI) as [_ Hl].
    by apply (lookup_weaken _ _ _ _ Hp), (l_pcs _ _ (Hl Hr)).
Qed.

(** ** Two clients understand each other *)

(** The call a negotiation message makes at the receiver. *)
Definition call_of (n : Negotiation) : call :=
  match n with
  | Description type sdp => SetRemote type sdp
  | Candidate cand mid => AddCandidate cand mid
  end.

(** What libdatachannel produces: the descriptions are offers and answers. *)
Definition negotiable (n : Negotiation) : Prop :=
  match n with Description type _ => type = "offer" \/ type = "answer" | Candidate _ _ => True end.

(** The connection that a message from [from] reaches: the one stored, or the
    one an offer makes. *)
Definition receiver (s : State) (from : string) (n : Negotiation) : option nat :=
  match peerConnectionMap s !! from, n with
  | Some pc, _ => Some pc
  | None, Description "offer" _ => Some (length (peers s))
  | None, _ => None
  end.

Context {JW : JsonLaws J}.

Lemma object_field kvs k v :
  NoDup kvs.*1 -> (k, v) ∈ kvs -> find (object kvs) k ≫= get_string = Some v.
Proof.
  intros Hnd Hin. rewrite find_object, (elem_of_list_to_map_1 _ _ _ Hnd Hin) by done. cbn.
  apply get_of_string.
Qed.

Lemma message_keys from n : NoDup (("id", from) :: fields n).*1.
Proof. destruct n; cbn; repeat (constructor; [set_solver|]); constructor. Qed.

(** The type a message carries. *)
Definition type_of (n : Negotiation) : string :=
  match n with Description type _ => type | Candidate _ _ => "candidate" end.

Lemma apply_message_object pc from n s :
  negotiable n ->
  apply_message pc from (type_of n) (object (("id", from) :: fields n)) s = called pc from (call_of n) s.
Proof.
  intros Hn. pose proof (message_keys from n) as Hk. unfold apply_message.
  destruct n as [type sdp|cand mid]; cbn [type_of].
  - rewrite (object_field _ "description" sdp) by (done || cbn; set_solver).
    destruct Hn as [-> | ->]; reflexivity.
  - rewrite (object_field _ "candidate" cand), (object_field _ "mid" mid) by (done || cbn; set_solver).
    reflexivity.
Qed.

(** What a connection sends as a description or candidate, with the sender's identifier in
    place of the addressee's as the server rewrites it, makes exactly the matching call at
    the receiver: on the stored connection of the sender, or on a new one for an offer from a
    peer without a connection; a message from an unknown peer that is no offer changes nothing. *)
Theorem demo_negotiation from n s :
  utf8 "id" = true -> utf8 from = true -> encodable n -> negotiable n ->
  exists text, dump (object (("id", from) :: fields n)) = Some text /\
    match receiver s from n with
    | Some pc => exists s', onMessage (Text text) s = called pc from (call_of n) s' /\
                            s' = (match peerConnectionMap s !! from with
                                  | Some _ => s
                                  | None => (createPeerConnection from s).2
                                  end)
    | None => onMessage (Text text) s = s
    end.
Proof.
  intros Hid Hfrom Henc Hn. pose proof (message_keys from n) as Hk.
  destruct (dump_object (("id", from) :: fields n) Hk) as (text & Hd & Hp & _); [by constructor|].
  exists text. split; [done|].
  assert (Hi : find (object (("id", from) :: fields n)) "id" ≫= get_string = Some from).
  { apply object_field; [done|set_solver]. }
  assert (Ht : find (object (("id", from) :: fields n)) "type" ≫= get_string = Some (type_of n)).
  { apply object_field; [done|]. destruct n; cbn; set_solver. }
  apply bind_Some in Hi as (vi & Hi & Hgi), Ht as (vt & Ht & Hgt).
  unfold onMessage, receiver. rewrite Hp, Hi, Hgi, Ht, Hgt.
  destruct (peerConnectionMap s !! from) as [pc|].
  - exists s. by rewrite apply_message_object.
  - destruct n as [type sdp|cand mid]; [destruct Hn as [-> | ->]|]; cbn [type_of];
      [|by rewrite bool_decide_eq_false_2..].
    rewrite bool_decide_eq_true_2 by done. unfold createPeerConnection. cbn [snd].
    eexists. split; [|done]. exact (apply_message_object _ from (Description "offer" sdp) _ (or_introl eq_refl)).
Qed.

(** Offering twice to the same peer: [emplace] keeps the first connection and
    channel, so the second ones are released at the end of the turn and the
    answers to the second offer reach the first connection. *)
Theorem second_offer_lost s id during pc :
  Inv s -> ph s = Prompt -> id <> "" -> id <> localId s -> peerConnectionMap s !! id = Some pc ->
  let s' := step s (Input id during) in
  peers s' = (peers s ++ [id])%list /\
  held (peerConnectionMap s') (peers s') (length (peers s)) = false /\
  peerConnectionMap s' = peerConnectionMap s.
Proof.
  intros HI Hph Hne Hloc Hpc. unfold step. rewrite Hph. cbn. unfold prompt.
  rewrite !bool_decide_eq_false_2 by done. unfold createPeerConnection.
  set (s1 := set_maps _ _ _ _ s).
  assert (Hm : peerConnectionMap s1 = peerConnectionMap s) by (cbn; unfold emplace; by rewrite Hpc).
  assert (Hf : forall s0, peers (foldl (fun s n => onLocal id n s) s0 during) = peers s0 /\
    peerConnectionMap (foldl (fun s n => onLocal id n s) s0 during) = peerConnectionMap s0).
  { induction during as [|n l IH]; intros s0; [done|]. cbn. destruct (IH (onLocal id n s0)) as [-> ->].
    unfold onLocal. by destruct (dump _). }
  destruct (Hf s1) as [Hf1 Hf2]. cbn. rewrite Hf1, Hf2, Hm. cbn. split_and!; [done| |done].
  unfold held. rewrite lookup_last_snoc, bool_decide_eq_false_2; [done|].
  rewrite Hpc. intros [= ->]. apply (inv_pcs _ HI), lookup_lt_Some in Hpc. lia.
Qed.

(** An error after the socket was opened: the promise is set already, and the
    callback throws. *)
Theorem error_after_open_throws id :
  thrown (run (init id) [WsOpen; WsError]) = 1.
Proof. done. Qed.

End Client.

(** ** Identifiers *)

(** Draws of the distribution give an identifier of that many characters. *)
Theorem randomId_length draws :
  Forall (fun i => i < 62) draws -> exists id, randomId draws = Some id /\ String.length id = length draws.
Proof.
  intros Hd. unfold randomId.
  assert (Hget : forall i, i < 62 -> is_Some ((fun i => String.get i characters) i)).
  { intros i Hi. do 62 (destruct i as [|i]; [by eexists|]). lia. }
  set (f := fun i => String.get i characters) in *. clearbody f.
  assert (Hm : exists l, mapM f draws = Some l /\ length l = length draws).
  { induction Hd as [|i l Hi _ (l' & IH & Hl)]; [by exists []|].
    destruct (Hget i Hi) as [c Hc]. exists (c :: l'). cbn. rewrite Hc, IH. cbn. by rewrite Hl. }
  destruct Hm as (l & -> & <-). eexists. split; [done|].
  clear. induction l as [|c l IH]; [done|]. cbn. by rewrite IH.
Qed.

(** ** Demonstration *)

Module Demo.

Definition opened : State := run (J := Toy.json) (init "me") [WsOpen; Wake; Input "you" [Description "offer" "v=0"]].

Example first_offer :
  peerConnectionMap opened !! "you" = Some 0 /\ length (wire opened) = 1 /\ ph opened = Prompt.
Proof. vm_compute. auto. Qed.

Example addresses :
  url "aB3z" = "ws://localhost:8000/aB3z" /\
  configuration (mkCmdline false true) = mkConfig ["stun:stun.l.google.com:19302"] true /\
  parse_args ["--udp-mux"; "--what"] (mkCmdline false false) = None.
Proof. vm_compute. auto. Qed.

Lemma demo_routing_witness :
  peerConnectionMap (run (J := Toy.json) opened [Input "you" []]) !! "you" = Some 0.
Proof.
  apply (proj2 (proj2 (demo_routing (J := Toy.json) "me"
    [WsOpen; Wake; Input "you" [Description "offer" "v=0"]]))); reflexivity.
Defined.

Lemma demo_negotiation_witness :
  exists text, dump (object (J := Toy.json) (("id", "you") :: fields (Description "answer" "v=1"))) = Some text /\
    exists s', onMessage (J := Toy.json) (Text text) opened = called 0 "you" (SetRemote "answer" "v=1") s' /\ s' = opened.
Proof.
  apply (demo_negotiation (J := Toy.json) "you" (Description "answer" "v=1") opened).
  - reflexivity.
  - reflexivity.
  - repeat constructor.
  - right. reflexivity.
Defined.

Lemma second_offer_lost_witness :
  held (peerConnectionMap (step (J := Toy.json) opened (Input "you" [])))
       (peers (step (J := Toy.json) opened (Input "you" []))) 1 = false.
Proof.
  apply (second_offer_lost (J := Toy.json) opened "you" [] 0); try done.
  apply (run_spec (J := Toy.json)), Inv_init.
Defined.

Lemma randomId_length_witness : exists id, randomId [0; 10; 61; 35] = Some id /\ String.length id = 4.
Proof. apply (randomId_length [0; 10; 61; 35]). repeat constructor; lia. Defined.

End Demo.
