(* ===== verification/ReadDemo.v ===== *)
(** * Cached reads by concurrent services

    [src/demo/try/exec/hello_read.cpp]: [Cache], the coroutine [Read], and any
    number of [FileService] objects whose coroutine [run] reads a file twice.
    The services run on a thread pool: their steps interleave in any order, one
    step per critical section of the cache, hop to the pool and line of the log.
    A hop to a pool completes with [set_stopped], which ends the coroutine, when
    the pool notices a stop request; whether it does is a choice of the event
    ([notices]). *)

From stdpp Require Import gmap strings.
From S2P Require Import Prelude.
Local Open Scope string_scope.

(** ** State *)

(** Where the coroutine of a service is: in the queue of its pool, before
    [cache.get] of the first or second read, on the way to the I/O pool, there,
    at the test of the stop token with the content, at the end. *)
Inductive Pc := Queued | Get (second : bool) | Hop (second : bool) | Disk (second : bool) | Test (content : string) | Done.

Inductive Line := Processing (content : string) | Second (content : string) | Cancelled.

Record Task := mkTask { path : string; pc : Pc; stop : bool; log : list Line; hops : nat }.

Record State := mkState { cache : gmap string string; tasks : list Task }.

(** [Cache::get] and [Cache::put]. *)
Definition get (key : string) (c : gmap string string) : option string := c !! key.
Definition put (key value : string) (c : gmap string string) : gmap string string := <[key := value]> c.

(** The simulated file. *)
Definition content (p : string) : string := "content of <" +:+ p +:+ ">".

Definition at_ (p : Pc) (t : Task) : Task := mkTask (path t) p (stop t) (log t) (hops t).
Definition logs (l : Line) (t : Task) : Task := mkTask (path t) (pc t) (stop t) (log t ++ [l]) (hops t).

(** ** Steps *)

(** [co_return] of [Read], back in [run]. *)
Definition returned (second : bool) (v : string) (t : Task) : Task :=
  if second then at_ Done (logs (Second v) t) else at_ (Test v) t.

(** One step of [FileService::run] and [Read]. *)
Definition advance (notices : bool) (c : gmap string string) (t : Task) : gmap string string * Task :=
  match pc t with
  | Queued => (c, at_ (if notices && stop t then Done else Get false) t)
  | Get second => (c, match get (path t) c with
                      | Some cached => returned second cached t
                      | None => at_ (Hop second) t
                      end)
  | Hop second => (c, if notices && stop t then at_ Done t
                      else mkTask (path t) (Disk second) (stop t) (log t) (S (hops t)))
  | Disk second => let v := content (path t) in (put (path t) v c, returned second v t)
  | Test v => (c, if stop t then at_ Done (logs Cancelled t) else at_ (Get true) (logs (Processing v) t))
  | Done => (c, t)
  end.

(** [FileService::FileService], [request_stop] (of [cancel] or the destructor),
    and a step of a service. *)
Inductive event := New (p : string) | RequestStop (i : nat) | Step (i : nat) (notices : bool).

Definition request_stop (t : Task) : Task := mkTask (path t) (pc t) true (log t) (hops t).

Definition step (s : State) (e : event) : State :=
  match e with
  | New p => mkState (cache s) (tasks s ++ [mkTask p Queued false [] 0])
  | RequestStop i => mkState (cache s) (alter request_stop i (tasks s))
  | Step i notices =>
    match tasks s !! i with
    | Some t => let '(c, t') := advance notices (cache s) t in mkState c (<[i := t']> (tasks s))
    | None => s
    end
  end.

Definition run (s : State) (es : list event) : State := foldl step s es.

Definition init : State := mkState ∅ [].

(** ** Invariant *)

(** What a service has logged when it is at a point. *)
Definition log_ok (t : Task) : Prop :=
  let v := content (path t) in
  match pc t with
  | Queued | Get false | Hop false | Disk false => log t = []
  | Test w => log t = [] /\ w = v
  | Get true => log t = [Processing v]
  | Hop true | Disk true => False
  | Done => log t = [Processing v; Second v] \/ (stop t = true /\ (log t = [Cancelled] \/ log t = []))
  end.

Record task_ok (c : gmap string string) (t : Task) : Prop := {
  t_log : log_ok t;
  t_read : match pc t with Test _ | Get true => is_Some (c !! path t) | _ => True end;
  t_hops : hops t <= match pc t with Queued | Get false | Hop _ => 0 | _ => 1 end
}.

(** The cache holds the files' contents. *)
Definition true_cache (c : gmap string string) : Prop := forall p v, c !! p = Some v -> v = content p.

Record Inv (s : State) : Prop := {
  i_cache : true_cache (cache s);
  i_tasks : Forall (task_ok (cache s)) (tasks s)
}.

Lemma task_ok_grow c c' t : c ⊆ c' -> task_ok c t -> task_ok c' t.
Proof.
  intros Hc [Hl Hr Hh]. split; [done| |done]. destruct (pc t) as [|[]|[]| | |]; try done;
    destruct Hr as [v Hv]; exists v; by eapply lookup_weaken.
Qed.

Lemma true_cache_put c p : true_cache c -> c ⊆ put p (content p) c.
Proof.
  intros Hc. unfold put. apply map_subseteq_spec. intros k v Hk.
  destruct (decide (k = p)) as [->|Hne]; [|by rewrite lookup_insert_ne].
  rewrite lookup_insert_eq. by rewrite (Hc _ _ Hk).
Qed.

(** A step of a service keeps the cache true and growing, and its own state in
    order. *)
Lemma advance_ok notices c t :
  true_cache c -> task_ok c t ->
  let '(c', t') := advance notices c t in true_cache c' /\ c ⊆ c' /\ task_ok c' t'.
Proof.
  intros Hc [Hl Hr Hh]. destruct t as [p q st l h]. unfold advance. unfold log_ok in Hl. cbn in *.
  destruct q as [|second|second|second|w|]; cbn.
  - split_and!; [done|done|]. destruct notices, st; cbn; split; cbn; auto.
  - split_and!; [done|done|]. unfold get. destruct (c !! p) as [v|] eqn:Hv.
    + rewrite (Hc _ _ Hv) in *. destruct second; split; cbn; subst; eauto; lia.
    + destruct second; [by destruct Hr|]. split; cbn; auto.
  - destruct second; [done|]. split_and!; [done|done|].
    destruct notices, st; cbn; split; cbn; auto; lia.
  - destruct second; [done|]. split_and!; [|by apply true_cache_put|].
    + unfold put. intros k v. destruct (decide (k = p)) as [->|Hne];
        [rewrite lookup_insert_eq; by intros [= <-]|rewrite lookup_insert_ne by done; apply Hc].
    + split; cbn; [done| |lia]. unfold put. rewrite lookup_insert_eq. eauto.
  - destruct Hl as [-> ->]. split_and!; [done|done|]. destruct st; split; cbn; auto.
  - by split_and!; [..|split].
Qed.

Lemma step_reads_inv s e : Inv s -> Inv (step s e).
Proof.
  intros [Hc Ht]. destruct e as [p|i|i notices]; cbn.
  - split; [done|]. apply Forall_app. split; [done|]. by repeat constructor.
  - split; [done|]. apply Forall_alter; [done|]. intros t _ [Hl Hr Hh]. split; [|done..].
    unfold log_ok in *. destruct t as [p [] st l h]; cbn in *; try done. naive_solver.
  - destruct (tasks s !! i) as [t|] eqn:Hi; [|by split].
    pose proof (Forall_lookup_1 _ _ _ _ Ht Hi) as Hti. pose proof (advance_ok notices (cache s) t Hc Hti) as Ha.
    destruct (advance notices (cache s) t) as [c' t']. destruct Ha as (Hc' & Hsub & Ht'). split; [done|]. cbn.
    apply Forall_insert; [|done]. eapply Forall_impl; [exact Ht|]. intros u. by apply task_ok_grow.
Qed.

Lemma run_reads_inv es : Inv (run init es).
Proof.
  unfold run. assert (H0 : Inv init) by (split; [intros p v; cbn; by rewrite lookup_empty|constructor]).
  revert H0. generalize init. induction es as [|e es IH]; intros s Hs; [done|]. apply IH, step_reads_inv, Hs.
Qed.

(** ** Theorems *)

(** Any number of services, for every interleaving: the cache only ever holds true contents; a
    service goes to the I/O pool at most once, since its second read is a cache hit; when its
    coroutine is over it has processed the file and read it again, both with the right
    content, or it was asked to stop and logged at most that. *)
Theorem cached_reads es i t :
  let s := run init es in
  tasks s !! i = Some t ->
  (forall p v, cache s !! p = Some v -> v = content p) /\ hops t <= 1 /\
  (pc t = Done -> log t = [Processing (content (path t)); Second (content (path t))] \/
                  (stop t = true /\ (log t = [Cancelled] \/ log t = []))).
Proof.
  intros s Hi. destruct (run_reads_inv es) as [Hc Ht]. pose proof (Forall_lookup_1 _ _ _ _ Ht Hi) as [Hl _ Hh].
  split_and!; [done| |].
  - etrans; [exact Hh|]. destruct (pc t) as [|[]|[]| | |]; lia.
  - intros Hd. unfold log_ok in Hl. by rewrite Hd in Hl.
Qed.

(** The steps a service has left, at most: its scope becomes empty. *)
Definition rank (t : Task) : nat :=
  match pc t with
  | Queued => 8 | Get false => 7 | Hop false => 6 | Disk false => 5 | Test _ => 4
  | Get true => 3 | Hop true => 2 | Disk true => 1 | Done => 0
  end.

(** Every step of a service that is not over brings it nearer to its end, so
    [on_empty()] completes. *)
Theorem service_steps_end notices c t :
  rank (advance notices c t).2 = 0 /\ pc t = Done \/ rank (advance notices c t).2 < rank t.
Proof.
  destruct t as [p q st l h]. unfold advance. cbn.
  destruct q as [|second|second|second|w|]; cbn; [| | | | |by left]; right; unfold rank; cbn.
  - destruct notices, st; cbn; lia.
  - destruct second, (c !! p); cbn; lia.
  - destruct second, notices, st; cbn; lia.
  - destruct second; cbn; lia.
  - destruct st; cbn; lia.
Qed.

(** The destructor asks to stop: a service destroyed before its first step
    logs nothing, although it was never cancelled explicitly. *)
Theorem destructor_cancels p :
  (tasks (run init [New p; RequestStop 0; Step 0 true]) !! 0) = Some (mkTask p Done true [] 0).
Proof. done. Qed.

(** ** Evaluation *)

Module Demo.

(** Two services on the same file: both miss the cache and read it. *)
Definition both : list event :=
  [New "a"; New "a"; Step 0 true; Step 1 true; Step 0 true; Step 1 true; Step 0 true; Step 1 true; Step 0 true;
   Step 1 true; Step 0 true; Step 0 true].

Example both_read : hops <$> tasks (run init both) = [1; 1].
Proof. reflexivity. Qed.

Lemma cached_reads_witness :
  exists t, tasks (run init both) !! 0 = Some t /\ pc t = Done /\
    (log t = [Processing (content (path t)); Second (content (path t))] \/
     (stop t = true /\ (log t = [Cancelled] \/ log t = []))).
Proof.
  eexists. split; [reflexivity|]. split; [reflexivity|].
  apply (cached_reads both 0 _ eq_refl). reflexivity.
Defined.

End Demo.
