(* ===== verification/LoopDemo.v ===== *)
(** * The loop experiment

    [src/demo/try/loop/main.cpp]: actions and a composite of them, and updaters
    that a [MultiRunner] combines (it is an updater itself, so they form trees)
    under a [SimpleRunner]. An item is linked into one list at a time, so a tree
    of values is what the intrusive lists hold. Times are of a type [F] that
    stands for [float]. *)

From S2P Require Import Prelude RunLoop Reentry.
Import Composite (Ev, EvStart, EvStop, EvUpdate).
Local Open Scope nat_scope.

(** ** Actions *)

Section Actions.
Context {A R S : Type}.
(** The default result [TRet{}]; what is left of an argument that was forwarded:
    the argument itself for reference types, a moved-from value otherwise. *)
Context (TRet0 : R) (forwarded : A -> A).

Definition IAction := A -> S -> R * S.

(** The loop of [CompositeAction::operator()]. *)
Fixpoint call_all (actions : list IAction) (args : A) (result : R) (s : S) : R * S :=
  match actions with
  | [] => (result, s)
  | action :: actions => let '(r, s) := action args s in call_all actions (forwarded args) r s
  end.

Definition CompositeAction (actions : list IAction) (args : A) (s : S) : R * S :=
  call_all actions args TRet0 s.

(** The result is that of the last action, which gets the argument as the
    earlier calls have left it. *)
Theorem composite_action_last actions action args s :
  CompositeAction (actions ++ [action]) args s =
    action (Nat.iter (length actions) forwarded args) (CompositeAction actions args s).2.
Proof.
  unfold CompositeAction. generalize TRet0. revert args s.
  induction actions as [|a l IH]; intros args s r; cbn; [by destruct (action args s)|].
  destruct (a args s) as [r1 s1]. rewrite IH. by rewrite Nat.iter_swap.
Qed.

End Actions.

(** ** Updaters *)

Section Loop.
Context {F : Type}.

(** [MyUpdater] with its number, [MultiRunner] with its flag and items. *)
Inductive Updater := My (id : nat) | Multi (running : bool) (items : list Updater).

Inductive Call := CStart (id : nat) | CUpdate (id : nat) (elapsed : F) | CComplete (id : nat).

Fixpoint Start (u : Updater) : Updater * list Call :=
  match u with
  | My id => (u, [CStart id])
  | Multi _ items => (Multi true (map (fun i => (Start i).1) items), concat (map (fun i => (Start i).2) items))
  end.

Fixpoint Update (elapsed : F) (u : Updater) : list Call :=
  match u with
  | My id => [CUpdate id elapsed]
  | Multi _ items => concat (map (Update elapsed) items)
  end.

Fixpoint Complete (u : Updater) : Updater * list Call :=
  match u with
  | My id => (u, [CComplete id])
  | Multi _ items =>
    (Multi false (map (fun i => (Complete i).1) items), concat (map (fun i => (Complete i).2) items))
  end.

(** [MultiRunner::Add]. *)
Definition Add (item : Updater) (running : bool) (items : list Updater) : list Updater * list Call :=
  if running then (items ++ [(Start item).1], (Start item).2) else (items ++ [item], []).

(** [MultiRunner::Remove] of the item at a position. *)
Definition Remove (i : nat) (running : bool) (items : list Updater) : option (list Updater * list Call) :=
  item ← items !! i;
  Some (delete i items, if running then (Complete item).2 else []).

(** [SimpleRunner::Start]: [frame i] is [0.01f * (i + 1)]. *)
Definition SimpleRunner_Start (frame : nat -> F) (u : Updater) : Updater * list Call :=
  let '(u1, c1) := Start u in
  let '(u2, c2) := Complete u1 in
  (u2, c1 ++ concat (map (fun i => Update (frame i) u1) [0; 1; 2]) ++ c2).

(** *** Trees *)

Fixpoint leaves (u : Updater) : list nat :=
  match u with My id => [id] | Multi _ items => concat (map leaves items) end.

(** Every runner of the tree has its flag [b]. *)
Fixpoint all_running (b : bool) (u : Updater) : bool :=
  match u with My _ => true | Multi r items => eqb r b && forallb (all_running b) items end.

Section Ind.
Context (P : Updater -> Prop) (HMy : forall id, P (My id)) (HMulti : forall r items, Forall P items -> P (Multi r items)).

Fixpoint updater_ind (u : Updater) : P u :=
  match u with
  | My id => HMy id
  | Multi r items => HMulti r items ((fix go l : Forall P l :=
      match l with [] => Forall_nil_2 P | i :: l => Forall_cons_2 P i l (updater_ind i) (go l) end) items)
  end.
End Ind.

Lemma map_concat_leaves (f : nat -> Call) (g : Updater -> list Call) items :
  Forall (fun u => g u = map f (leaves u)) items -> concat (map g items) = map f (concat (map leaves items)).
Proof.
  induction 1 as [|u l Hu _ IH]; [done|]. cbn. by rewrite Hu, IH, map_app.
Qed.

Lemma map_concat_id (g : Updater -> Updater) items :
  Forall (fun u => leaves (g u) = leaves u) items -> concat (map leaves (map g items)) = concat (map leaves items).
Proof. induction 1 as [|u l Hu _ IH]; [done|]. cbn. by rewrite Hu, IH. Qed.

Lemma Start_calls u : (Start u).2 = map CStart (leaves u).
Proof. induction u as [|r items IH] using updater_ind; [done|]. cbn. by apply map_concat_leaves. Qed.

Lemma Update_calls e u : Update e u = map (fun i => CUpdate i e) (leaves u).
Proof. induction u as [|r items IH] using updater_ind; [done|]. cbn. by apply (map_concat_leaves (fun i => CUpdate i e)). Qed.

Lemma Complete_calls u : (Complete u).2 = map CComplete (leaves u).
Proof. induction u as [|r items IH] using updater_ind; [done|]. cbn. by apply map_concat_leaves. Qed.

Lemma Start_leaves u : leaves (Start u).1 = leaves u.
Proof. induction u as [|r items IH] using updater_ind; [done|]. cbn. by apply map_concat_id. Qed.

Lemma Complete_leaves u : leaves (Complete u).1 = leaves u.
Proof. induction u as [|r items IH] using updater_ind; [done|]. cbn. by apply map_concat_id. Qed.

Lemma Start_running u : all_running true (Start u).1 = true.
Proof.
  induction u as [|r items IH] using updater_ind; [done|]. cbn. induction IH as [|i l Hi _ IHl]; [done|].
  cbn. by rewrite Hi.
Qed.

Lemma Complete_running u : all_running false (Complete u).1 = true.
Proof.
  induction u as [|r items IH] using updater_ind; [done|]. cbn. induction IH as [|i l Hi _ IHl]; [done|].
  cbn. by rewrite Hi.
Qed.

(** *** The owner of a [MultiRunner] *)

Inductive Op := OAdd (item : Updater) | ORemove (i : nat) | OStart | OUpdate (e : F) | OComplete.

(** Runs an operation that is in order: only stopped items with new leaves are
    added, and the runner is started, updated and completed in turn. *)
Definition apply_op (op : Op) (s : Updater * list Call) : option (Updater * list Call) :=
  let '(u, t) := s in
  match u, op with
  | Multi r items, OAdd item =>
    if all_running false item && bool_decide (NoDup (leaves u ++ leaves item))
    then let '(items, c) := Add item r items in Some (Multi r items, t ++ c) else None
  | Multi r items, ORemove i => '(items, c) ← Remove i r items; Some (Multi r items, t ++ c)
  | Multi false _, OStart => let '(u, c) := Start u in Some (u, t ++ c)
  | Multi true _, OUpdate e => Some (u, t ++ Update e u)
  | Multi true _, OComplete => let '(u, c) := Complete u in Some (u, t ++ c)
  | _, _ => None
  end.

Fixpoint apply_all (ops : list Op) (s : Updater * list Call) : option (Updater * list Call) :=
  match ops with [] => Some s | op :: ops => s ← apply_op op s; apply_all ops s end.

(** The calls as events of a child's life. *)
Definition as_event (c : Call) : Ev :=
  match c with CStart i => EvStart i | CUpdate i _ => EvUpdate i | CComplete i => EvStop i end.

Definition live_leaves (u : Updater) : list nat :=
  match u with Multi false _ => [] | u => leaves u end.

(** The root's flag is that of every runner below it. *)
Definition flags_agree (u : Updater) : bool :=
  match u with My _ => true | Multi r _ => all_running r u end.

Definition OK (s : Updater * list Call) : Prop :=
  NoDup (leaves s.1) /\ lives (live_leaves s.1) (map as_event s.2).

Lemma lives_starts l ls t :
  NoDup (l ++ ls) -> lives l t -> lives (l ++ ls) (t ++ map EvStart ls).
Proof.
  revert l t. induction ls as [|x ls IH]; intros l t Hnd Hl; cbn; [by rewrite !app_nil_r|].
  rewrite (cons_middle x l), (cons_middle (EvStart x)), !app_assoc. apply IH.
  - by rewrite <- app_assoc.
  - apply lives_start; [|done]. apply NoDup_app in Hnd as (_ & Hd & _). intros Hx. by apply (Hd x Hx); left.
Qed.

Lemma lives_updates l ls t : ls ⊆ l -> lives l t -> lives l (t ++ map EvUpdate ls).
Proof.
  revert t. induction ls as [|x ls IH]; intros t Hs Hl; cbn; [by rewrite app_nil_r|].
  rewrite (cons_middle (EvUpdate x)), app_assoc. apply IH; [set_solver|]. apply lives_update; [set_solver|done].
Qed.

Lemma lives_completes ls l t :
  NoDup ls -> (forall x, x ∈ ls -> x ∈ l) -> lives l t ->
  lives (filter (fun x => x ∉ ls) l) (t ++ map EvStop ls).
Proof.
  revert l t. induction ls as [|x ls IH]; intros l t Hnd Hs Hl; cbn.
  - rewrite app_nil_r. eapply lives_ext; [|exact Hl]. intros h. rewrite list_elem_of_filter. set_solver.
  - apply NoDup_cons in Hnd as [Hx Hnd]. rewrite (cons_middle (EvStop x)), app_assoc.
    eapply lives_ext; [|apply (IH (filter (fun y => y <> x) l))]; [| done| |].
    + intros h. rewrite !list_elem_of_filter. set_solver.
    + intros y Hy. apply list_elem_of_filter. set_solver.
    + eapply lives_stop; [| |exact Hl]; [set_solver|]. intros k. rewrite list_elem_of_filter. tauto.
Qed.

Lemma map_events (f : nat -> Call) (g : nat -> Ev) l :
  (forall i, as_event (f i) = g i) -> map as_event (map f l) = map g l.
Proof. intros H. rewrite map_map. by apply map_ext. Qed.

Lemma leaves_snoc r items item : leaves (Multi r (items ++ [item])) = leaves (Multi r items) ++ leaves item.
Proof. cbn. rewrite map_app, concat_app. cbn. by rewrite app_nil_r. Qed.

Lemma delete_leaves r items i item :
  items !! i = Some item -> NoDup (leaves (Multi r items)) ->
  NoDup (leaves (Multi r (delete i items))) /\ NoDup (leaves item) /\
  (forall x, x ∈ leaves item -> x ∈ leaves (Multi r items)) /\
  (forall x, x ∈ leaves (Multi r (delete i items)) <-> x ∈ leaves (Multi r items) /\ x ∉ leaves item).
Proof.
  intros Hi. pose proof (take_drop_middle _ _ _ Hi) as He. rewrite delete_take_drop. clear Hi.
  generalize dependent (take i items). generalize (drop (S i) items). intros lb la <-. cbn.
  rewrite !map_app, !concat_app. cbn. set (a := concat (map leaves la)).
  set (b := concat (map leaves lb)). set (c := leaves item). clearbody a b c. intros Hnd.
  apply NoDup_app in Hnd as (Ha & Hab & Hcb). apply NoDup_app in Hcb as (Hc & Hcb & Hb). split_and!.
  - apply NoDup_app. split_and!; [done| |done]. set_solver.
  - done.
  - set_solver.
  - intros x. rewrite !elem_of_app. specialize (Hab x). specialize (Hcb x). set_solver.
Qed.

Lemma apply_op_lives op s s' : OK s -> apply_op op s = Some s' -> OK s'.
Proof.
  destruct s as [u t]. intros [Hnd Hl]. cbn in Hnd, Hl. unfold apply_op. destruct u as [id|r items]; [by destruct op|].
  destruct op as [item|i| |e| ].
  - destruct r, (all_running false item && _) eqn:Hb; try done; reflect_bools; unfold Add;
    intros [= <-]; split; cbn [fst snd live_leaves]; rewrite ?app_nil_r, ?leaves_snoc, ?Start_leaves; try done.
    rewrite Start_calls, map_app, (map_events CStart EvStart) by done. by apply lives_starts.
  - unfold Remove. intros H. assert (exists item, items !! i = Some item /\
      s' = (Multi r (delete i items), t ++ if r then (Complete item).2 else [])) as (item & Hi & ->).
    { destruct r, (items !! i) as [item|]; try done; injection H as <-; eauto. }
    destruct (delete_leaves r items i item Hi Hnd) as (H1 & H2 & H3 & H4). split; [done|].
    destruct r; cbn [fst snd live_leaves]; [|by rewrite app_nil_r].
    rewrite Complete_calls, map_app, (map_events CComplete EvStop) by done.
    eapply lives_ext; [|by apply (lives_completes (leaves item) (leaves (Multi true items)))].
    intros h. rewrite list_elem_of_filter, H4. tauto.
  - destruct r; [done|]. pose proof (Start_calls (Multi false items)) as Hc.
    pose proof (Start_leaves (Multi false items)) as Hv. destruct (Start (Multi false items)) as [u' c] eqn:E.
    intros [= <-]. cbn [fst snd] in *. split; cbn [fst snd]; [by rewrite Hv|].
    replace (live_leaves u') with ([] ++ leaves (Multi false items)) by (injection E as <- _; by rewrite <- Hv).
    rewrite Hc, map_app, (map_events CStart EvStart) by done. by apply lives_starts.
  - destruct r; [|done]. intros [= <-]. split; [done|]. cbn [fst snd].
    change (concat (map (Update e) items)) with (Update e (Multi true items)).
    rewrite Update_calls, map_app, (map_events (fun i => CUpdate i e) EvUpdate) by done. by apply lives_updates.
  - destruct r; [|done]. pose proof (Complete_calls (Multi true items)) as Hc.
    pose proof (Complete_leaves (Multi true items)) as Hv. destruct (Complete (Multi true items)) as [u' c] eqn:E.
    intros [= <-]. cbn [fst snd] in *. split; cbn [fst snd]; [by rewrite Hv|].
    rewrite Hc, map_app, (map_events CComplete EvStop) by done.
    eapply lives_ext; [|by apply (lives_completes (leaves (Multi true items)) (leaves (Multi true items)))].
    intros h. rewrite list_elem_of_filter. injection E as <- _. cbn. set_solver.
Qed.

Lemma flags_items r items : flags_agree (Multi r items) = forallb (all_running r) items.
Proof. cbn. by destruct r. Qed.

(** The runners of a tree are running together. *)
Lemma apply_op_flags op s s' : flags_agree s.1 = true -> apply_op op s = Some s' -> flags_agree s'.1 = true.
Proof.
  destruct s as [u t]. cbn [fst]. unfold apply_op. destruct u as [id|r items]; [by destruct op|].
  rewrite flags_items. intros Hf. destruct op as [item|i| |e| ].
  - destruct r, (all_running false item) eqn:Hb; try done; cbn [andb];
      (case_bool_decide; [|done]); unfold Add; intros [= <-]; cbn [fst]; rewrite flags_items, forallb_app, Hf; cbn;
      by rewrite ?Hb, ?Start_running.
  - unfold Remove. intros H. assert (exists c, s' = (Multi r (delete i items), c)) as [c ->].
    { destruct r, (items !! i) as [item|]; try done; injection H as <-; eauto. }
    cbn [fst]. rewrite flags_items. rewrite forallb_forall in Hf |- *. intros x Hx. apply Hf.
    apply list_elem_of_In in Hx. apply list_elem_of_In. by eapply list_elem_of_delete_inv.
  - destruct r; [done|]. pose proof (Start_running (Multi false items)) as Hs.
    destruct (Start (Multi false items)) as [u' c] eqn:E. intros [= <-]. injection E as <- _. exact Hs.
  - destruct r; [|done]. intros [= <-]. cbn [fst]. by rewrite flags_items.
  - destruct r; [|done]. pose proof (Complete_running (Multi true items)) as Hs.
    destruct (Complete (Multi true items)) as [u' c] eqn:E. intros [= <-]. injection E as <- _. exact Hs.
Qed.

(** A runner with any tree of updaters, under any sequence of operations in order: every leaf
    keeps the protocol (started before it is updated, not started twice without completion,
    updated and completed only when live), the live leaves are exactly those of the tree
    while the root runs and none otherwise, and nested runners run when the root does. *)
Theorem multi_runner_protocol ops u t :
  apply_all ops (Multi false [], []) = Some (u, t) ->
  lives (live_leaves u) (map as_event t) /\ flags_agree u = true.
Proof.
  intros H. assert (OK (u, t) /\ flags_agree (u, t).1 = true) as [[_ Hl] Hf]; [|done]. revert H.
  assert (OK (Multi false [], []) /\ flags_agree (Multi false [], @nil Call).1 = true) as H0
    by (split; [split; [constructor|by intros h]|done]).
  revert H0. generalize (Multi false [], @nil Call). induction ops as [|op ops IH]; intros s [Hs Hf]; cbn; [by intros [= ->]|].
  intros (s' & H1 & H2)%bind_Some. eapply IH; [|exact H2]. split; [by eapply apply_op_lives|by eapply apply_op_flags].
Qed.

End Loop.

(** ** [main] *)

Module Demo.

(** [main] with times in hundredths: the first updater goes through the three
    frames of [osRunner.Start()]; the second is added when the runner has
    completed, so it is not started, and the last [Update] reaches both of them
    outside their lives. *)
Definition main : list (Call (F := nat)) :=
  let u := Multi false (Add (F := nat) (My 1) false []).1 in
  let '(u, c) := SimpleRunner_Start S u in
  match u with
  | Multi r items => let '(items, c2) := Add (My 2) r items in c ++ c2 ++ Update 10 (Multi r items)
  | _ => c
  end.

Example main_calls :
  main = [CStart 1; CUpdate 1 1; CUpdate 1 2; CUpdate 1 3; CComplete 1; CUpdate 1 10; CUpdate 2 10].
Proof. reflexivity. Qed.

Example main_breaks_protocol :
  life 1 (map as_event main) = None /\ life 2 (map as_event main) = None.
Proof. by split. Qed.

Lemma multi_runner_protocol_witness :
  lives [1; 2; 3] [EvStart 1; EvUpdate 1; EvStart 2; EvStart 3] /\
  flags_agree (Multi true [My 1; Multi true [My 2; My 3]]) = true.
Proof.
  apply (multi_runner_protocol (F := nat) [OAdd (My 1); OStart; OUpdate 1; OAdd (Multi false [My 2; My 3])]
           (Multi true [My 1; Multi true [My 2; My 3]])
           [CStart 1; CUpdate 1 1; CStart 2; CStart 3]).
  reflexivity.
Defined.

(** An argument passed by value is empty for the second action. *)
Example by_value_argument_is_gone :
  (CompositeAction 0 (fun _ : list nat => []) [fun a s => (0, s ++ a); fun a s => (1, s ++ a)] [7] []) = (1, [7]).
Proof. reflexivity. Qed.

End Demo.
