(* ===== verification/HttpDemo.v ===== *)
(** * The HTTP demo

    [src/demo/pkg/http/main.cpp]: requests to the URLs chosen on the command line
    run at once, their handlers count the failures and signal a channel, and the
    main coroutine awaits one signal per request and returns the count. The
    channel of Asio is a parameter with the behaviour it documents; the client
    may answer a request at any time after [Get] was called, once (which
    [HttpLite] shows of the clients). The coroutine is then run by an
    [AsioDomain] under the blocking runner. *)

From Stdlib Require Import Ascii.
From S2P Require Import Prelude StringView RunLoop App Http Asio Boot HttpLite.

Open Scope Z_scope.

(** ** The choice of URLs *)

Definition urls : list (view * view) :=
  (fun p => (sv p.1, sv p.2)) <$>
  [ ("ep", "url-parse-error");
    ("ec", "http://localhost:12345/connect-refused");
    ("tif", "http://ifconfig.io/ip");
    ("tjp", "http://jsonplaceholder.typicode.com/todos/1");
    ("h200", "http://httpbun.com/status/200");
    ("h400", "http://httpbun.com/status/400");
    ("hget", "http://httpbun.com/get");
    ("get", "https://httpbun.com/get");
    ("eget", "https://self-signed-cert.httpbun.com/get");
    ("h2", "https://httpbin.org/get") ]%string.

Definition starts_with (p s : view) : bool := bool_decide (take (length p) s = p).

Fixpoint find_url (key : view) (m : list (view * view)) : option view :=
  match m with
  | [] => None
  | (k, u) :: m => if bool_decide (k = key) then Some u else find_url key m
  end.

Fixpoint ChooseTryUrls (args : CliArgs.t) : list view :=
  match args with
  | [] => []
  | arg :: args =>
      if starts_with (sv "http://") arg || starts_with (sv "https://") arg
      then arg :: ChooseTryUrls args
      else match find_url arg urls with
           | Some u => u :: ChooseTryUrls args
           | None => ChooseTryUrls args
           end
  end.

(** At most one URL per argument, so there are at most [argc]. *)
Lemma ChooseTryUrls_length args : (length (ChooseTryUrls args) <= length args)%nat.
Proof. induction args as [|a args IH]; simpl; [done|]. repeat case_match; simpl; lia. Qed.

(** The client the demo makes. *)
Definition demo_client (emscripten : bool) (args : CliArgs.t) : client :=
  let useJsFetchClient := negb (CliArgs.Contains args (sv "--nojs")) in
  MakeDefault emscripten useJsFetchClient.

(** ** The channel *)

(** Signals in the buffer, receives that wait for one, receives that have one and
    whose completion is still to run; and the size of the buffer. *)
Record counts := mkCounts { cap : nat; buffered : nat; waiting : nat; ready : nat }.

Class ChannelOps (Ch : Type) := {
  make_channel : nat -> Ch;
  try_send : Ch -> bool * Ch;
  async_receive : Ch -> Ch;
  received : Ch -> option Ch  (** the completion of a receive runs, if one is due *) }.

(** What the documentation says of these: a signal goes to a waiting receive, else
    into the buffer if there is room, else it is refused; a receive takes a signal
    from the buffer, else it waits; its completion never runs inside the call. *)
Definition counts_try_send (c : counts) : bool * counts :=
  match waiting c with
  | S w => (true, mkCounts (cap c) (buffered c) w (S (ready c)))
  | O => if (buffered c <? cap c)%nat
         then (true, mkCounts (cap c) (S (buffered c)) 0 (ready c))
         else (false, c)
  end.

Definition counts_async_receive (c : counts) : counts :=
  match buffered c with
  | S b => mkCounts (cap c) b (waiting c) (S (ready c))
  | O => mkCounts (cap c) 0 (S (waiting c)) (ready c)
  end.

Definition counts_received (c : counts) : option counts :=
  match ready c with
  | S r => Some (mkCounts (cap c) (buffered c) (waiting c) r)
  | O => None
  end.

#[export] Instance counts_ops : ChannelOps counts := {|
  make_channel n := mkCounts n 0 0 0;
  try_send := counts_try_send;
  async_receive := counts_async_receive;
  received := counts_received |}.

Class ChannelLaws (Ch : Type) `{ChannelOps Ch} := {
  abs : Ch -> counts;
  abs_make : forall n, abs (make_channel n) = mkCounts n 0 0 0;
  abs_try_send : forall c,
    (try_send c).1 = (counts_try_send (abs c)).1 /\ abs (try_send c).2 = (counts_try_send (abs c)).2;
  abs_async_receive : forall c, abs (async_receive c) = counts_async_receive (abs c);
  abs_received : forall c, abs <$> received c = counts_received (abs c) }.

#[export, refine] Instance counts_laws : ChannelLaws counts := {| abs := id |}.
Proof.
  - done.
  - done.
  - done.
  - intros c. simpl. by destruct (counts_received c).
Defined.

(** ** The main coroutine *)

Section Coroutine.
Context {Ch : Type} `{ChannelOps Ch} (selectedUrls : list view).

(** Where [CoroMain] is: before its first statement, in front of the request
    [i], in front of the receive [k], suspended in it, or at its end. *)
Inductive phase :=
| Entering
| Issuing (i : nat)
| Receiving (k : nat)
| Awaiting (k : nat)
| Returned (code : Z)
| Threw.

Record State := mkState {
  at_ : phase;
  errorCount : Z;                  (** a local variable, captured by reference *)
  completions : option Ch;
  requested : list view;           (** the calls of [client->Get] *)
  flight : list nat;               (** requests not answered yet *)
  answered : list (nat * Result);  (** the calls of the handlers *)
  refused : bool;                  (** some [try_send] returned false *)
  undefined : bool;                (** overflow, or a use of the frame after its end *)
  cancelled_ : bool;               (** the cancellation of the domain was emitted *)
}.

Definition selectedSize : nat := length selectedUrls.

Definition CoroMain : State := mkState Entering 0 None [] [] [] false false false.

Definition move (p : phase) (s : State) : State :=
  mkState p (errorCount s) (completions s) (requested s) (flight s) (answered s)
    (refused s) (undefined s) (cancelled_ s).

Definition set_channel (c : Ch) (s : State) : State :=
  mkState (at_ s) (errorCount s) (Some c) (requested s) (flight s) (answered s)
    (refused s) (undefined s) (cancelled_ s).

Definition ill (s : State) : State :=
  mkState (at_ s) (errorCount s) (completions s) (requested s) (flight s) (answered s)
    (refused s) true (cancelled_ s).

(** [client->Get(selectedUrls.at(i), ...)]. *)
Definition call_Get (i : nat) (url : view) (s : State) : State :=
  mkState (Issuing (S i)) (errorCount s) (completions s) (requested s ++ [url]) (flight s ++ [i])
    (answered s) (refused s) (undefined s) (cancelled_ s).

Definition alive (s : State) : bool :=
  match at_ s with Returned _ | Threw => false | _ => true end.

(** [++errorCount] in a handler. *)
Definition count_error (s : State) : State :=
  if alive s && (errorCount s <? CliArgs.int_max)
  then mkState (at_ s) (errorCount s + 1) (completions s) (requested s) (flight s) (answered s)
         (refused s) (undefined s) (cancelled_ s)
  else ill s.

(** [completions->try_send(...)], whose result is ignored. *)
Definition signal (s : State) : State :=
  match completions s with
  | Some c =>
      let '(sent, c') := try_send c in
      mkState (at_ s) (errorCount s) (Some c') (requested s) (flight s) (answered s)
        (refused s || negb sent) (undefined s) (cancelled_ s)
  | None => ill s
  end.

(** The handler given to [Get]. *)
Definition handler (i : nat) (result : Result) (s : State) : State :=
  signal (if has_value result then s else count_error s).

(** The next statement of the coroutine, or [None] when it cannot go on. Once it
    is cancelled, a [co_await] throws. *)
Definition resume (s : State) : option State :=
  match at_ s with
  | Entering =>
      if (selectedSize <=? 0)%nat then Some (move (Returned 1) s)
      else Some (move (Issuing 0) (set_channel (make_channel selectedSize) s))
  | Issuing i =>
      match selectedUrls !! i with
      | Some url => Some (call_Get i url s)
      | None => Some (move (Receiving 0) s)
      end
  | Receiving k =>
      if (k <? selectedSize)%nat then
        if cancelled_ s then Some (move Threw s)
        else c ← completions s; Some (move (Awaiting k) (set_channel (async_receive c) s))
      else Some (move (Returned (errorCount s)) s)
  | Awaiting k =>
      c ← completions s;
      match received c with
      | Some c' => Some (move (Receiving (S k)) (set_channel c' s))
      | None => if cancelled_ s then Some (move Threw s) else None
      end
  | Returned _ | Threw => None
  end.

(** What can happen next: the coroutine goes on, or the client answers a request
    that is in flight (inside a later [Get] or from the event loop). *)
Inductive event := Coro | Answer (i : nat) (result : Result).

Definition take_request (i : nat) (result : Result) (s : State) : State :=
  mkState (at_ s) (errorCount s) (completions s) (requested s)
    (filter (fun j => j <> i) (flight s)) (answered s ++ [(i, result)])
    (refused s) (undefined s) (cancelled_ s).

Definition step (e : event) (s : State) : option State :=
  match e with
  | Coro => resume s
  | Answer i r => if decide (i ∈ flight s) then Some (handler i r (take_request i r s)) else None
  end.

Fixpoint run (l : list event) (s : State) : option State :=
  match l with
  | [] => Some s
  | e :: l => s1 ← step e s; run l s1
  end.

(** The number of failed answers. *)
Definition failures (l : list (nat * Result)) : Z :=
  Z.of_nat (length (filter (fun a => has_value a.2 = false) l)).

(** The result promised. *)
Definition expected_code (s : State) : Z :=
  if (selectedSize <=? 0)%nat then 1 else failures (answered s).

(** *** The invariant *)

Context `{!ChannelLaws Ch}.

Definition issued (p : phase) : nat :=
  match p with Entering => 0 | Issuing i => i | _ => selectedSize end.

Definition consumed (p : phase) : nat :=
  match p with
  | Entering | Issuing _ => 0
  | Receiving k | Awaiting k => k
  | _ => selectedSize
  end.

(** The steps the coroutine has made. *)
Definition steps (p : phase) : nat :=
  match p with
  | Entering => 0
  | Issuing i => S i
  | Receiving k => S selectedSize + 1 + 2 * k
  | Awaiting k => S selectedSize + 2 + 2 * k
  | _ => if (selectedSize <=? 0)%nat then 1 else 3 * selectedSize + 3
  end.

(** The channel: all answers are signalled, those not yet consumed are in the
    buffer or in the one receive. *)
Definition channel_ok (s : State) : Prop :=
  match at_ s with
  | Entering => completions s = None /\ flight s = [] /\ answered s = []
  | Returned _ => (selectedSize = 0 /\ flight s = [] /\ answered s = [])%nat \/
      (length (answered s) = selectedSize /\ 0 < selectedSize)%nat
  | Threw => False
  | p => (0 < selectedSize)%nat /\
      exists c, completions s = Some c /\ cap (abs c) = selectedSize /\
        (buffered (abs c) + ready (abs c) + consumed p = length (answered s))%nat /\
        match p with
        | Awaiting _ => (waiting (abs c) + ready (abs c) = 1)%nat /\
            (waiting (abs c) = 1 -> buffered (abs c) = 0)%nat
        | _ => (waiting (abs c) = 0 /\ ready (abs c) = 0)%nat
        end
  end.

Definition position_ok (s : State) : Prop :=
  match at_ s with
  | Issuing i => (i <= selectedSize)%nat
  | Receiving k => (k <= selectedSize)%nat
  | Awaiting k => (k < selectedSize)%nat
  | Returned c => c = expected_code s
  | _ => True
  end.

Record Inv (n : nat) (s : State) : Prop := {
  inv_pos : position_ok s;
  inv_channel : channel_ok s;
  inv_requested : requested s = take (issued (at_ s)) selectedUrls;
  inv_flight : flight s ++ (answered s).*1 ≡ₚ seq 0 (issued (at_ s));
  inv_errors : errorCount s = failures (answered s);
  inv_refused : refused s = false;
  inv_defined : undefined s = false;
  inv_cancelled : cancelled_ s = false;
  inv_steps : n = (steps (at_ s) + length (answered s))%nat }.

Lemma failures_snoc l i r :
  failures (l ++ [(i, r)]) = failures l + (if has_value r then 0 else 1).
Proof.
  unfold failures. rewrite filter_app, length_app.
  destruct (has_value r) eqn:E.
  - rewrite (filter_cons_False _ (i, r)) by (simpl; congruence). rewrite filter_nil. by rewrite Z.add_0_r, Nat.add_0_r.
  - rewrite (filter_cons_True _ (i, r)) by done. rewrite filter_nil. by rewrite Nat2Z.inj_add.
Qed.

Lemma failures_bound l : 0 <= failures l <= Z.of_nat (length l).
Proof. unfold failures. split; [lia|]. apply Nat2Z.inj_le, length_filter. Qed.

Lemma request_taken (l : list nat) i :
  NoDup l -> i ∈ l -> l ≡ₚ i :: filter (fun j => j <> i) l.
Proof.
  induction 1 as [|j l Hj Hl IH]; [by intros ?%elem_of_nil|].
  intros [->|Hin]%elem_of_cons.
  - rewrite filter_cons_False by naive_solver. f_equiv.
    clear Hl IH. induction l as [|k l IH]; [done|].
    apply not_elem_of_cons in Hj as [Hne Hj]. rewrite filter_cons_True by done. by f_equiv; apply IH.
  - rewrite filter_cons_True by (intros ->; done). rewrite IH at 1 by done. constructor.
Qed.

Lemma demo_Inv_start : Inv 0 CoroMain.
Proof. by split. Qed.

(** How many requests have been made and answered. *)
Lemma demo_Inv_lengths n s :
  Inv n s -> (length (flight s) + length (answered s) = issued (at_ s) /\ issued (at_ s) <= selectedSize)%nat.
Proof.
  intros HI. pose proof (Permutation_length (inv_flight n s HI)) as Hl.
  rewrite length_app, length_fmap, length_seq in Hl.
  pose proof (inv_pos n s HI) as Hp. unfold position_ok in Hp.
  destruct (at_ s); simpl in *; lia.
Qed.

Lemma demo_Inv_resume n s s' : Inv n s -> resume s = Some s' -> Inv (S n) s'.
Proof.
  intros HI Hr. pose proof (demo_Inv_lengths n s HI) as Hlen.
  destruct HI as [Hp Hc Hq Hf He Hre Hd Hcn Hn]. destruct s as [p ec ch rq fl an rf ud cn].
  unfold position_ok, channel_ok, resume in *. simpl in *. subst rf ud cn.
  destruct p as [|i|k|k|code|]; simpl in *.
  - destruct Hc as (-> & -> & ->). destruct (Nat.leb_spec selectedSize 0) as [Hz|Hz]; simplify_eq/=.
    + split; simpl; try done.
      * unfold position_ok, expected_code. simpl. by destruct (Nat.leb_spec selectedSize 0); [|lia].
      * left. split; [lia|done].
      * symmetry. apply nil_length_inv. rewrite length_take. lia.
      * by replace selectedSize with 0%nat by lia.
      * by destruct (Nat.leb_spec selectedSize 0); [|lia].
    + split; simpl; try done; [unfold position_ok; simpl; lia|].
      unfold channel_ok. simpl. split; [done|]. eexists. split; [done|]. by rewrite abs_make.
  - destruct (selectedUrls !! i) as [url|] eqn:Eu; simplify_eq/=.
    + pose proof (lookup_lt_Some _ _ _ Eu). split; simpl; try done.
      * by erewrite take_S_r.
      * rewrite <- app_assoc, (Permutation_app_comm [i]), app_assoc, Hf, <- seq_S. done.
    + apply lookup_ge_None in Eu. assert (selectedSize = i) as Hi by (unfold selectedSize in *; lia).
      split; simpl; try done; rewrite ?Hi; try done; [unfold position_ok; simpl; lia|lia].
  - destruct Hc as [H0 (c & -> & Hcap & Hb & Hw & Hrd)]. simpl in Hr.
    destruct (Nat.ltb_spec k selectedSize) as [Hk|Hk]; simplify_eq/=.
    + split; simpl; try done; [|lia]. unfold channel_ok. simpl. split; [done|]. eexists. split; [done|].
      rewrite abs_async_receive. unfold counts_async_receive.
      destruct (buffered (abs c)) eqn:Eb; simpl; split_and!; lia.
    + assert (Hz : (selectedSize <=? 0)%nat = false) by (apply Nat.leb_gt; lia).
      split; simpl; try done; rewrite ?Hz; try lia.
      * unfold position_ok, expected_code. simpl. by rewrite Hz.
      * right. split; [simpl in *; lia|done].
  - destruct Hc as [H0 (c & -> & Hcap & Hb & Hw & Hbw)]. simpl in Hr.
    pose proof (abs_received c) as Ha. unfold counts_received in Ha.
    destruct (received c) as [c'|]; simplify_eq/=.
    destruct (ready (abs c)) as [|r] eqn:Er; simplify_eq/=.
    split; simpl; try done; [|lia].
    unfold channel_ok. simpl. split; [done|]. eexists. split; [done|].
    rewrite Ha. simpl. split_and!; lia.
  - done.
  - done.
Qed.

(** An answer that finds room in the channel and the frame alive. *)
Lemma handler_effect p c rq fl an i r :
  (forall code, p <> Returned code) -> p <> Threw ->
  (waiting (abs c) <> 0 \/ buffered (abs c) < cap (abs c))%nat ->
  Z.of_nat (length an) < CliArgs.int_max ->
  handler i r (take_request i r (mkState p (failures an) (Some c) rq fl an false false false)) =
  mkState p (failures (an ++ [(i, r)])) (Some (try_send c).2) rq (filter (fun j => j <> i) fl)
    (an ++ [(i, r)]) false false false.
Proof.
  intros Hp1 Hp2 Hroom Hlt. pose proof (failures_bound an) as Hfb.
  unfold handler. rewrite failures_snoc.
  assert ((try_send c).1 = true) as Hsent.
  { rewrite (proj1 (abs_try_send c)). unfold counts_try_send. destruct (waiting (abs c)); [|done].
    by destruct (Nat.ltb_spec (buffered (abs c)) (cap (abs c))); [|lia]. }
  assert ((failures an <? CliArgs.int_max) = true) as Hb by (apply Z.ltb_lt; lia).
  unfold signal. destruct (has_value r); simpl.
  - destruct (try_send c) as [b c']. simpl in *. subst b. by rewrite Z.add_0_r.
  - unfold count_error, alive. simpl. rewrite Hb.
    destruct p; simpl; try naive_solver; destruct (try_send c) as [b c']; simpl in *; by subst b.
Qed.

(** The channel and one more signal. *)
Lemma channel_ok_answer p e e' c rq rq' fl fl' an a b b' b2 b2' b3 b3' :
  channel_ok (mkState p e (Some c) rq fl an b b2 b3) ->
  (forall code, p <> Returned code) -> (length an < selectedSize)%nat ->
  channel_ok (mkState p e' (Some (try_send c).2) rq' fl' (an ++ [a]) b' b2' b3').
Proof.
  unfold channel_ok. simpl. intros Hc Hp Hlt.
  pose proof (proj2 (abs_try_send c)) as Ha. unfold counts_try_send in Ha.
  destruct p; try naive_solver; destruct Hc as [H0 (c0 & [= <-] & Hcap & Hb & Hw)];
    (split; [done|]); exists (try_send c).2; rewrite Ha, length_app; simpl;
    destruct (waiting (abs c)) as [|[|w]] eqn:Ew; simpl; try lia;
    try (destruct (Nat.ltb_spec (buffered (abs c)) (cap (abs c))); [|lia]); simpl;
    split_and!; try done; try lia.
Qed.

Lemma demo_Inv_answer n s i r :
  Z.of_nat selectedSize <= CliArgs.int_max ->
  Inv n s -> i ∈ flight s -> Inv (S n) (handler i r (take_request i r s)).
Proof.
  intros Hmax HI Hin. pose proof (demo_Inv_lengths n s HI) as [Hlen Hle].
  assert (0 < length (flight s))%nat as Hfl by (destruct (flight s); [by apply elem_of_nil in Hin|simpl; lia]).
  destruct HI as [Hp Hc Hq Hf He Hre Hd Hcn Hn]. destruct s as [p ec ch rq fl an rf ud cn].
  simpl in *. subst rf ud cn ec.
  assert (forall code, p <> Returned code) as Hp1.
  { intros code ->. unfold channel_ok in Hc. simpl in *. destruct Hc as [(? & -> & ?)|?]; simpl in *; lia. }
  assert (p <> Threw) as Hp2 by (intros ->; done).
  assert (exists c, ch = Some c /\ cap (abs c) = selectedSize /\
    (buffered (abs c) <= length an)%nat) as (c & -> & Hcap & Hb).
  { unfold channel_ok in Hc. simpl in Hc. destruct p; simpl in *; try naive_solver lia. }
  rewrite handler_effect by (done || lia).
  split; simpl; try done.
  - unfold position_ok in *. simpl in *. destruct p; naive_solver.
  - eapply channel_ok_answer; [done|done|lia].
  - rewrite fmap_app. simpl. rewrite app_assoc, Permutation_app_comm. simpl.
    rewrite app_comm_cons, <- request_taken; [done| |done].
    apply (NoDup_app fl (an.*1)). rewrite Hf. apply NoDup_seq.
  - rewrite length_app. simpl. lia.
Qed.

Lemma demo_Inv_step n s s' e :
  Z.of_nat selectedSize <= CliArgs.int_max -> Inv n s -> step e s = Some s' -> Inv (S n) s'.
Proof.
  intros Hmax HI Hs. destruct e as [|i r]; simpl in Hs; [by eapply demo_Inv_resume|].
  case_decide; simplify_eq. by apply demo_Inv_answer.
Qed.

Lemma demo_Inv_run l n s s' :
  Z.of_nat selectedSize <= CliArgs.int_max -> Inv n s -> run l s = Some s' ->
  Inv (length l + n)%nat s'.
Proof.
  intros Hmax. revert n s. induction l as [|e l IH]; intros n s HI Hr; simpl in *; [by simplify_eq|].
  destruct (step e s) as [s1|] eqn:Es; [|done]. simpl in Hr.
  replace (S (length l + n))%nat with (length l + S n)%nat by lia.
  eapply IH; [|done]. by eapply demo_Inv_step.
Qed.

(** The coroutine only ever waits for requests that are in flight. *)
Lemma demo_Inv_progress n s :
  Inv n s -> (exists code, at_ s = Returned code) \/ is_Some (resume s) \/ flight s <> [].
Proof.
  intros HI. pose proof (demo_Inv_lengths n s HI) as [Hlen _].
  pose proof (inv_channel n s HI) as Hc. pose proof (inv_pos n s HI) as Hp.
  pose proof (inv_cancelled n s HI) as Hcn.
  unfold channel_ok, position_ok, resume in *. destruct (at_ s) as [|i|k|k|code|]; simpl in *.
  - right; left. destruct (_ <=? _)%nat; eauto.
  - right; left. destruct (selectedUrls !! i); eauto.
  - right; left. destruct Hc as [_ (c & -> & _)]. rewrite Hcn. destruct (_ <? _)%nat; simpl; eauto.
  - right. destruct Hc as [_ (c & -> & _ & Hb & Hw & Hbw)]. simpl.
    pose proof (abs_received c) as Ha. unfold counts_received in Ha.
    destruct (received c) as [c'|]; [left; eauto|]. right. intros Hnil. rewrite Hnil in Hlen.
    destruct (ready (abs c)); simplify_eq/=. lia.
  - left. eauto.
  - done.
Qed.

(** The demo counts its failures: whatever order the client answers in, also
    while requests are still being made, no signal is refused, the counter does
    not overflow and is not used after the coroutine has ended; every run is
    finite; and the coroutine stops only by waiting for requests in flight or by
    returning, which it does when every chosen URL was requested, in order, and
    every request answered once, with the number of failed answers (or 1 when no
    URL was chosen). *)
Theorem demo_counts_failures l s :
  Z.of_nat selectedSize <= CliArgs.int_max ->
  run l CoroMain = Some s ->
  undefined s = false /\ refused s = false /\ (length l <= 4 * selectedSize + 3)%nat /\
  requested s `prefix_of` selectedUrls /\
  (is_Some (resume s) \/ flight s <> [] \/
   at_ s = Returned (expected_code s) /\ requested s = selectedUrls /\
   (answered s).*1 ≡ₚ seq 0 selectedSize).
Proof.
  intros Hmax Hr. pose proof (demo_Inv_run l 0 _ _ Hmax demo_Inv_start Hr) as HI.
  pose proof (demo_Inv_lengths _ _ HI) as [Hlen Hle]. rewrite Nat.add_0_r in HI.
  split_and!; [by apply HI|by apply HI| | |].
  - rewrite (inv_steps _ _ HI). pose proof (inv_pos _ _ HI) as Hp. unfold position_ok in Hp.
    destruct (at_ s); simpl in *; try lia; destruct (_ <=? _)%nat; lia.
  - rewrite (inv_requested _ _ HI). apply prefix_take.
  - destruct (demo_Inv_progress _ _ HI) as [[code Hc]|[?|?]]; [|by left|by right; left].
    destruct (flight s) eqn:Ef; [|by right; left]. right; right.
    pose proof (inv_pos _ _ HI) as Hp. unfold position_ok in Hp. rewrite Hc in Hp. subst code.
    split_and!; [done| |].
    + rewrite (inv_requested _ _ HI), Hc. apply take_ge. done.
    + pose proof (inv_flight _ _ HI) as Hf. by rewrite Ef, Hc in Hf.
Qed.

(** ** In the domain *)

(** The [io_context] with this coroutine on it: [script] says which handlers are
    due in each poll, in order. *)
Record io_http := mkIo { co : option State; script : list (list event) }.

(** What the domain sees: the completion handler runs as the coroutine ends. *)
Definition report (e : event) (s : State) : happening :=
  match e, at_ s with
  | Coro, Returned c => Asio.Finished false c
  | Coro, Threw => Asio.Finished true 0
  | _, _ => Other
  end.

Fixpoint handlers (l : list event) (s : State) : list happening * State :=
  match l with
  | [] => ([], s)
  | e :: l =>
      match step e s with
      | None => handlers l s
      | Some s1 => let '(hs, s2) := handlers l s1 in (report e s1 :: hs, s2)
      end
  end.

(** A cancelled coroutine that awaits the channel is among the handlers due. *)
Definition http_poll (i : io_http) : list happening * io_http :=
  match co i with
  | None => ([], i)
  | Some s =>
      let '(hs, s') := handlers ((if cancelled_ s then [Coro] else []) ++ default [] (head (script i))) s in
      (hs, mkIo (Some s') (tail (script i)))
  end.

Definition cancel (s : State) : State :=
  mkState (at_ s) (errorCount s) (completions s) (requested s) (flight s) (answered s)
    (refused s) (undefined s) true.

#[export] Instance http_io : IoContext io_http := {|
  co_spawn i := mkIo (Some CoroMain) (script i);
  emit_cancel i := mkIo (cancel <$> co i) (script i);
  stopped _ := false;                               (* the work guard of [AsioPoller] *)
  poll := http_poll |}.

Lemma step_cancelled e s s' : step e s = Some s' -> cancelled_ s' = cancelled_ s.
Proof.
  destruct e as [|i r]; simpl.
  - unfold resume. intros Hr.
    destruct (at_ s); try destruct (completions s); simplify_eq/=;
      repeat (case_match; simplify_eq/=; try done).
  - case_decide; intros [= <-]. unfold handler, signal, count_error.
    repeat (case_match; simpl; try done).
Qed.

Lemma answer_at i r s : at_ (handler i r (take_request i r s)) = at_ s.
Proof. unfold handler, signal, count_error. repeat (case_match; simpl; try done). Qed.

Lemma step_alive e s s' : step e s = Some s' -> alive s' = true -> alive s = true.
Proof.
  destruct e as [|i r]; simpl.
  - unfold resume, alive. by destruct (at_ s).
  - case_decide; intros [= <-]. unfold alive. by rewrite answer_at.
Qed.

Lemma run_events_alive l s s' : run l s = Some s' -> alive s' = true -> alive s = true.
Proof.
  revert s. induction l as [|e l IH]; intros s Hr Ha; simpl in *; [by simplify_eq|].
  destruct (step e s) eqn:Es; [|done]. eapply step_alive; [done|]. by eapply IH.
Qed.

Lemma run_events_app l1 l2 s : run (l1 ++ l2) s = (s1 ← run l1 s; run l2 s1).
Proof. revert s. induction l1 as [|e l IH]; intros s; simpl; [done|]. destruct (step e s); simpl; auto. Qed.

Lemma run_cancelled l s s' : run l s = Some s' -> cancelled_ s' = cancelled_ s.
Proof.
  revert s. induction l as [|e l IH]; intros s Hr; simpl in *; [by simplify_eq|].
  destruct (step e s) eqn:Es; [|done]. rewrite <- (step_cancelled _ _ _ Es). by apply IH.
Qed.

Lemma handlers_alive l s s' :
  run l s = Some s' -> alive s' = true -> silent (handlers l s).1 /\ (handlers l s).2 = s'.
Proof.
  revert s. induction l as [|e l IH]; intros s Hr Ha; simpl in *.
  { simplify_eq. split; [constructor|done]. }
  destruct (step e s) as [s1|] eqn:Es; [|done]. simpl in Hr.
  pose proof (run_events_alive _ _ _ Hr Ha) as Ha1. destruct (IH s1 Hr Ha) as [Hs He].
  destruct (handlers l s1) as [hs s2]. simpl in *. split; [|done]. constructor; [|done].
  unfold report, alive in *. destruct e; [|done]. by destruct (at_ s1).
Qed.

Lemma handlers_app l1 l2 s :
  handlers (l1 ++ l2) s =
  ((handlers l1 s).1 ++ (handlers l2 (handlers l1 s).2).1, (handlers l2 (handlers l1 s).2).2).
Proof.
  revert s. induction l1 as [|e l IH]; intros s; simpl.
  - by destruct (handlers l2 s).
  - destruct (step e s) as [s1|]; [|done]. rewrite IH. by destruct (handlers l s1).
Qed.

Lemma handlers_over l s code : at_ s = Returned code -> flight s = [] -> handlers l s = ([], s).
Proof.
  intros Hc Hf. induction l as [|e l IH]; [done|]. simpl.
  assert (step e s = None) as ->; [|done]. destruct e; simpl; unfold resume; [by rewrite Hc|].
  rewrite Hf. case_decide as Hin; [by apply elem_of_nil in Hin|done].
Qed.

(** Polls while the coroutine is under way. *)
Lemma polls_follow before rest s s' :
  cancelled_ s = false -> run (concat before) s = Some s' -> alive s' = true ->
  (forall j, (j < length before)%nat -> silent (poll (after_frames j (mkIo (Some s) (before ++ rest)))).1) /\
  after_frames (length before) (mkIo (Some s) (before ++ rest)) = mkIo (Some s') rest.
Proof.
  revert s. induction before as [|evs before IH]; intros s Hcn Hr Ha; simpl in *.
  { simplify_eq. split; [intros; lia|done]. }
  rewrite run_events_app in Hr. destruct (run evs s) as [s1|] eqn:Er; [|done]. simpl in Hr.
  destruct (handlers_alive evs s s1 Er) as [Hs He]; [by eapply run_events_alive|].
  destruct (IH s1) as [Hj Haf]; [by rewrite (run_cancelled _ _ _ Er)|done|done|].
  unfold http_poll at 2. simpl. rewrite Hcn. simpl.
  assert (http_poll (mkIo (Some s) (evs :: before ++ rest)) =
    ((handlers evs s).1, mkIo (Some s1) (before ++ rest))) as Hp.
  { unfold http_poll. simpl. rewrite Hcn. simpl. destruct (handlers evs s). simpl in *. by subst. }
  destruct (handlers evs s) as [hs s2]. simpl in *. subst s2. split; [|done].
  intros [|j] Hlt; simpl; rewrite Hp; [done|]. apply Hj. lia.
Qed.

(** A coroutine that has returned leaves nothing to do, and returned the count. *)
Lemma returned_over l s code :
  Z.of_nat selectedSize <= CliArgs.int_max -> run l CoroMain = Some s -> at_ s = Returned code ->
  code = expected_code s /\ flight s = [] /\ (answered s).*1 ≡ₚ seq 0 selectedSize.
Proof.
  intros Hmax Hr Hc. pose proof (demo_Inv_run l 0 _ _ Hmax demo_Inv_start Hr) as HI.
  pose proof (demo_Inv_lengths _ _ HI) as [Hlen _].
  pose proof (inv_pos _ _ HI) as Hp. pose proof (inv_channel _ _ HI) as Hch.
  pose proof (inv_flight _ _ HI) as Hf.
  unfold position_ok, channel_ok in *. rewrite Hc in *. simpl in *.
  assert (flight s = []) as Hnil by (apply nil_length_inv; destruct Hch as [(_ & -> & _)|?]; simpl in *; lia).
  rewrite Hnil in Hf. done.
Qed.

(** The step that ends the coroutine. *)
Lemma last_step l e s1 s code :
  Z.of_nat selectedSize <= CliArgs.int_max ->
  run l CoroMain = Some s1 -> step e s1 = Some s -> at_ s = Returned code ->
  e = Coro /\ alive s1 = true.
Proof.
  intros Hmax Hr Hs Hc. destruct e as [|i r]; simpl in Hs.
  - split; [done|]. unfold alive. unfold resume in Hs. by destruct (at_ s1).
  - case_decide as Hin; simplify_eq. rewrite answer_at in Hc.
    destruct (returned_over l s1 code Hmax Hr Hc) as (_ & Hf & _). rewrite Hf in Hin.
    by apply elem_of_nil in Hin.
Qed.

(** C30: the program's exit code: however the handlers of the event loop are
    distributed over the frames, [main] returns, from the runner, the number of
    requests that failed, each chosen URL having been answered once; 1 when no
    URL was chosen. *)
Theorem http_demo_exit_code clock before l e rest s code fuel :
  Z.of_nat selectedSize <= CliArgs.int_max ->
  run (concat before ++ l ++ [e]) CoroMain = Some s -> at_ s = Returned code ->
  (length before < fuel)%nat ->
  exists d, Run clock fuel (Asio.fresh (mkIo None (before ++ (l ++ [e]) :: rest))) = Ret (expected_code s, d) /\
    (answered s).*1 ≡ₚ seq 0 selectedSize.
Proof.
  intros Hmax Hr Hc Hfuel.
  destruct (returned_over _ _ _ Hmax Hr Hc) as (-> & Hfl & Han).
  rewrite app_assoc, run_events_app in Hr. destruct (run (concat before ++ l) CoroMain) as [s1|] eqn:E1; [|done].
  simpl in Hr. destruct (step e s1) as [s'|] eqn:Es; simplify_eq/=.
  destruct (last_step _ _ _ _ _ Hmax E1 Es Hc) as [-> Ha].
  rewrite run_events_app in E1. destruct (run (concat before) CoroMain) as [s0|] eqn:E0; [|done]. simpl in E1.
  destruct (handlers_alive l s0 s1 E1 Ha) as [Hsil Hs1].
  destruct (polls_follow before ((l ++ [Coro]) :: rest) CoroMain s0 eq_refl E0) as [Hpre Haf].
  { by eapply run_events_alive. }
  assert (poll (mkIo (Some s0) ((l ++ [Coro]) :: rest)) =
    ((handlers l s0).1 ++ [Asio.Finished false (expected_code s)], mkIo (Some s) rest)) as Hpoll.
  { simpl. unfold http_poll. simpl. rewrite (run_cancelled _ _ _ E0). simpl.
    rewrite handlers_app, Hs1. simpl in *. rewrite Es. unfold report. by rewrite Hc. }
  destruct (run_returns_code clock (mkIo None (before ++ (l ++ [Coro]) :: rest))
    (length before) (expected_code s) (handlers l s0).1 [] fuel) as (d & Hd & _).
  - exact Hpre.
  - cbn [co_spawn http_io script]. rewrite Haf, Hpoll. done.
  - done.
  - constructor.
  - cbn [co_spawn http_io script]. rewrite Haf, Hpoll. simpl. unfold http_poll. simpl.
    change (resume (cancel s)) with (step Coro (cancel s)).
    pose proof (handlers_over (Coro :: default [] (head rest)) (cancel s) (expected_code s) Hc Hfl) as Hov.
    simpl in Hov. simpl. rewrite Hov. by intros h ?%elem_of_nil.
  - done.
  - eauto.
Qed.

(** A stop while the coroutine awaits the channel terminates the program: the
    cancellation makes [co_await] throw, nothing catches it, and [Completed]
    calls [std::terminate] for an exception. *)
Theorem stop_while_awaiting_terminates (d : Domain io_http) s k c :
  co (io d) = Some s -> at_ s = Awaiting k -> completions s = Some c -> received c = None ->
  Stop d = Crash.
Proof.
  intros Hd Hk Hc Hrc. unfold Stop, poll_io. simpl. unfold http_poll. simpl. rewrite Hd. simpl.
  assert (resume (cancel s) = Some (move Threw (cancel s))) as ->.
  { unfold resume. simpl. rewrite Hk. simpl. rewrite Hc. simpl. by rewrite Hrc. }
  by destruct (handlers _ (move Threw (cancel s))).
Qed.

End Coroutine.
Arguments State Ch : clear implicits.

(** ** Concrete runs *)

Module HttpDemoRuns.

Definition args0 : CliArgs.t := [sv "demo"; sv "h200"; sv "nothing"; sv "http://localhost/x"].

Example chosen0 :
  ChooseTryUrls args0 = [sv "http://httpbun.com/status/200"; sv "http://localhost/x"].
Proof. reflexivity. Qed.

Definition ok : Result := Value (mkResponse 200 "").
Definition bad : Result := stopped_before.

(** The second request is answered inside the last [Get], the first later. *)
Definition frame0 : list event := [Coro; Coro; Coro; Answer 1 bad; Coro; Coro].
Definition frame1 : list event := [Coro; Coro; Answer 0 ok; Coro].

Lemma demo_counts_failures_witness :
  exists s : State counts,
    run (ChooseTryUrls args0) (frame0 ++ frame1 ++ [Coro]) CoroMain = Some s /\
    undefined s = false /\ refused s = false /\ at_ s = Returned 1.
Proof.
  destruct (run (ChooseTryUrls args0) (frame0 ++ frame1 ++ [Coro]) (CoroMain (Ch := counts)))
    as [s|] eqn:E; [|exfalso; revert E; vm_compute; discriminate].
  exists s. split; [done|].
  destruct (demo_counts_failures (ChooseTryUrls args0) (frame0 ++ frame1 ++ [Coro]) s)
    as (Hu & Hr & _); [vm_compute; discriminate|exact E|].
  split_and!; [exact Hu|exact Hr|]. revert E. vm_compute. by intros [= <-].
Defined.

#[local] Instance io0 : IoContext (io_http (Ch := counts)) := http_io (ChooseTryUrls args0).

Lemma http_demo_exit_code_witness :
  exists d, Run tick_clock 3 (Asio.fresh (mkIo None [frame0; frame1 ++ [Coro]])) = Ret (1, d).
Proof.
  destruct (run (ChooseTryUrls args0) (concat [frame0] ++ frame1 ++ [Coro]) (CoroMain (Ch := counts)))
    as [s|] eqn:E; [|exfalso; revert E; vm_compute; discriminate].
  assert (at_ s = Returned 1 /\ expected_code (ChooseTryUrls args0) s = 1) as [H1 H2].
  { revert E. vm_compute. by intros [= <-]. }
  destruct (http_demo_exit_code (ChooseTryUrls args0) tick_clock [frame0] frame1 Coro [] s 1 3)
    as (d & Hd & _); [vm_compute; discriminate|exact E|exact H1|simpl; lia|].
  exists d. rewrite H2 in Hd. exact Hd.
Defined.

(** Stopped in the second frame, with the first request still in flight. *)
Definition stopped_early : Domain io_http :=
  mkDomain (mkIo (run (ChooseTryUrls args0) (frame0 ++ [Coro; Coro]) CoroMain) [])
    false (mkRunner None true) true.

Lemma stop_while_awaiting_terminates_witness : Stop stopped_early = Crash.
Proof.
  destruct (co (io stopped_early)) as [s|] eqn:E; [|exfalso; revert E; vm_compute; discriminate].
  assert (at_ s = Awaiting 1 /\ completions s = Some (mkCounts 2 0 1 0)) as [H1 H2].
  { revert E. vm_compute. by intros [= <-]. }
  apply (stop_while_awaiting_terminates (ChooseTryUrls args0) stopped_early s 1 (mkCounts 2 0 1 0));
    [exact E|exact H1|exact H2|reflexivity].
Defined.

End HttpDemoRuns.
