(* ===== verification/ExecDemo.v ===== *)
(** * Sequential tasks in a domain

    A coroutine that only awaits senders of its domain's scheduler, one after the
    other, such as the task of [src/demo/pkg/exec/main.cpp], as user code of
    [ExecLoop], in a domain that is constructed with a [LoopTimerBackend], run by
    the blocking runner of [App]. [domain_run_is_clean] says what holds when such a
    program ends; here it is shown that it does end, with the code of the task, and
    not too early. [ThreadExec] has the same tasks in a domain with its default
    backend. *)

From S2P Require Import Prelude RunLoop App TimerBackend ExecLoop.

Open Scope Z_scope.
Open Scope outcome_scope.

(** What the task awaits: [schedule] (its own, or one its coroutine type adds to
    come back to the scheduler) or [schedule_after]. *)
Inductive await := Schedule | Delay (dur : Z).

Definition total_delay (p : list await) : Z :=
  foldr (fun a t => match a with Delay d => d + t | Schedule => t end) 0 p.

Section Sequential.
Context (code : Z) (clock : nat -> Z).

(** [Domain] starts the task on its scheduler ([starts_on]). *)
Definition task_start (p : list await) : list await * list Act := (p, [ASchedule]).

Definition task_resume (p : list await) (i : nat) (sg : Signal) : list await * list Act :=
  match sg, p with
  | SetStopped, _ => ([], [ADestroy i; AStopped])
  | SetValue, [] => ([], [ADestroy i; AComplete code])
  | SetValue, Schedule :: p' => (p', [ADestroy i; ASchedule])
  | SetValue, Delay d :: p' => (p', [ADestroy i; AScheduleAfter d])
  end.

(** [TightRunner::Exit]. *)
Definition exit_runner (c : Z) (r : RunnerState) : RunnerState := mkRunner (exitCode (SetExitCode c r)) false.

Definition World : Type := world (B := LoopTimer.t nat) (Q := list nat) (U := list await).

(** A domain as constructed with a [LoopTimerBackend] as its backend argument; the
    queue is first in, first out. *)
Definition construct (p : list await) : World :=
  (LoopTimer.empty, mkSys [] ∅ 0 false [] (mkRunner None false) p [] 0 0).

Definition task_handler (fuel : nat) : HandlerOps World :=
  domain_handler task_start task_resume clock id exit_runner fuel.

(** ** The shapes of the world between two awaits *)

Local Abbreviation up := (mkRunner None true).

(** No operation: after the task ended, or in between. *)
Definition idle (r : RunnerState) nid i p l n now : World :=
  (LoopTimer.mk [] nid, mkSys [] ∅ i false [] r p l n now).

(** One operation, queued: a [schedule], or a [schedule_after] that is due. *)
Definition queued_ (i : nat) (o : option Z) r nid p l n now : World :=
  (LoopTimer.mk [] nid,
   mkSys [i] {[ i := match o with
                     | None => LoopOp
                     | Some d => TimedOperation (mkTimed d TimerWon InvalidTimerId)
                     end ]} (S i) false (match o with None => [] | Some _ => [i] end) r p l n now).

(** One operation, asleep until [d]. *)
Definition asleep (i : nat) (d tid : Z) nid p l n now : World :=
  (LoopTimer.mk [LoopTimer.mkEntry d tid i] nid,
   mkSys [] {[ i := TimedOperation (mkTimed d Pending tid) ]} (S i) false [i] up p l n now).

Lemma destroy_then i o r nid p l n now c acts :
  who c = i ->
  run_acts clock exit_runner (ADestroy i :: acts)
    (LoopTimer.mk [] nid, mkSys [] (ops (queued_ i o r nid p l n now).2) (S i) false
       (regs (queued_ i o r nid p l n now).2) r p (l ++ [c]) n now) =
  run_acts clock exit_runner acts (idle r nid (S i) p (l ++ [c]) n now).
Proof.
  intros Hc. cbn -[decide]. rewrite decide_True.
  - destruct o as [d|]; cbn; rewrite lookup_singleton_eq; cbn;
      rewrite ?bool_decide_true by done; rewrite delete_singleton_eq; [|done].
    destruct (decide (i <> i)); done.
  - unfold completed. cbn. rewrite fmap_app, elem_of_app. right. cbn. rewrite Hc. set_solver.
Qed.

(** The continuation of the task when its operation is executed. *)
Lemma execute_next i o nid p l n now :
  let l' := l ++ [mkCompletion i SetValue o now] in
  Execute task_resume clock exit_runner i
    (LoopTimer.mk [] nid, set_queue [] (queued_ i o up nid p l n now).2) =
  Ret match p with
      | [] => idle (exit_runner code up) nid (S i) [] l' n now
      | Schedule :: p' => queued_ (S i) None up nid p' l' n now
      | Delay d :: p' => asleep (S i) (clock n + d) nid (wrap64 (nid + 1)) p' l' (S n) (clock n)
      end.
Proof.
  intros l'. unfold Execute. cbn [set_queue queued_ snd ops]. rewrite lookup_singleton_eq.
  assert (op_due match o with None => LoopOp
    | Some d => TimedOperation (mkTimed d TimerWon InvalidTimerId) end = o) as Ho by by destruct o.
  unfold complete. cbn [set_queue queued_ snd ops]. rewrite Ho. clear Ho.
  cbn [signal stopped queue next regs runner log reads lastNow user].
  destruct p as [|[|d] p'].
  - exact (destroy_then i o up nid [] l n now (mkCompletion i SetValue o now) [AComplete code] eq_refl).
  - exact (destroy_then i o up nid p' l n now (mkCompletion i SetValue o now) [ASchedule] eq_refl).
  - etransitivity;
      [exact (destroy_then i o up nid p' l n now (mkCompletion i SetValue o now) [AScheduleAfter d] eq_refl)|].
    cbn. rewrite lookup_insert_eq. cbn. unfold set_timed, set_ops. cbn. by rewrite insert_insert_eq.
Qed.

(** ** Progress *)

(** The task has ended no earlier than [T], or sleeps until [T] at the earliest. *)
Definition Ended (T : Z) (w : World) : Prop :=
  exists nid i l n now, w = idle (exit_runner code up) nid i [] l n now /\ T <= now <= clock n.

Definition Sleeps (T : Z) (p : list await) (n : nat) (d : Z) (w : World) : Prop :=
  exists i tid nid l now, w = asleep i d tid nid p l n now /\ T <= d /\ now <= clock n.

Context (clock_mono : forall n, clock n <= clock (S n)).

(** Draining runs the task up to its next delay or its end. *)
Lemma drain_settles fuel c T p i o nid l n now :
  (length p < fuel)%nat -> now <= clock n -> T <= now ->
  exists c' w', drain task_resume clock exit_runner fuel c (queued_ i o up nid p l n now) = Ret (c', w') /\
    (Ended (T + total_delay p) w' \/
     exists p' n' d', Sleeps (T + total_delay p - total_delay p') p' n' d' w' /\ (length p' < length p)%nat).
Proof.
  revert fuel c i o l n now. induction p as [|a p IH]; intros fuel c i o l n now Hf Hn HT;
    (destruct fuel as [|fuel]; [simpl in Hf; lia|]);
    cbn [drain queued_ snd queue try_dequeue fifo_queue fst];
    match goal with |- context [Execute _ _ _ _ (_, set_queue [] ?s)] =>
      change s with (queued_ i o up nid (user s) l n now).2 end; cbn [user];
    rewrite execute_next; cbn [obind].
  - destruct fuel; cbn; (eexists _, _; split; [done|]; left; eexists _, _, _, _, _; split; [done|cbn; lia]).
  - destruct a as [|d].
    + destruct (IH fuel (S c) (S i) None (l ++ [mkCompletion i SetValue o now]) n now)
        as (c' & w' & Hd & He); [simpl in *; lia|done|done|].
      exists c', w'. split; [exact Hd|]. destruct He as [He|(p' & n' & d' & He & Hl)]; [by left|right].
      exists p', n', d'. split; [done|simpl; lia].
    + pose proof (clock_mono n).
      change (total_delay (Delay d :: p)) with (d + total_delay p).
      destruct fuel; cbn [drain asleep snd queue try_dequeue fifo_queue];
        (eexists _, _; split; [done|]; right; exists p, (S n), (clock n + d); split;
         [eexists _, _, _, _, _; split; [done|lia]|simpl; lia]).
Qed.
(** One frame while the task sleeps. *)
Lemma update_sleeping fuel T p n d w :
  Sleeps T p n d w -> (length p < fuel)%nat ->
  exists w', Domain_Update task_resume clock exit_runner fuel w = Ret w' /\
    if clock n <? d then Sleeps T p (S n) d w'
    else Ended (T + total_delay p) w' \/
         exists p' n' d', Sleeps (T + total_delay p - total_delay p') p' n' d' w' /\
           (length p' < length p)%nat.
Proof.
  intros (i & tid & nid & l & now & -> & HT & Hnow) Hf. unfold Domain_Update, DrainQueue, run_tick.
  pose proof (clock_mono n) as Hm. destruct fuel as [|fuel]; [lia|].
  cbn -[drain Z.leb Z.ltb]. destruct (Z.ltb_spec (clock n) d) as [Hlt|Hge].
  - rewrite (proj2 (Z.leb_gt d (clock n))) by lia. cbn. eexists. split; [done|].
    eexists _, _, _, _, _. split; [done|lia].
  - rewrite (proj2 (Z.leb_le d (clock n))) by lia.
    match goal with |- context [fire i ?x] =>
      assert (fire i x = (LoopTimer.mk [] nid, Ret (queued_ i (Some d) up nid p l (S n) (clock n)).2)) as -> end.
    { unfold fire. cbn. unfold timer_lambda. cbn. rewrite lookup_singleton_eq. unfold TryEnqueue, set_timed. cbn.
      rewrite insert_singleton_eq, lookup_singleton_eq. cbn. by rewrite insert_singleton_eq. }
    destruct (drain_settles (S fuel) 0 T p i (Some d) nid l (S n) (clock n)) as (c' & w' & Hd & He);
      [done|lia|lia|].
    exists w'. split; [|done].
    destruct fuel; cbn -[drain queued_]; change (_, (queued_ ?i ?o ?r ?q ?p ?l ?n ?c).2) with (queued_ i o r q p l n c);
      rewrite Hd; done.
Qed.

Context (clock_unbounded : forall T, exists n, T <= clock n) (rclock : nat -> Z).

Lemma clock_le n m : (n <= m)%nat -> clock n <= clock m.
Proof. induction 1 as [|m _ IH]; [done|]. pose proof (clock_mono m). lia. Qed.

Local Abbreviation frames_of fuel := (frames (H := task_handler fuel) rclock).

(** A sleeping task wakes up. *)
Lemma sleeping_wakes fuel p T n d w :
  Sleeps T p n d w -> (length p < fuel)%nat ->
  forall k ctx, exists j k' ctx' w', 
    (forall w2 j2, frames_of fuel j2 k' ctx' w' w2 -> frames_of fuel (j + j2) k ctx w w2) /\
    (Ended (T + total_delay p) w' \/
     exists p' n' d', Sleeps (T + total_delay p - total_delay p') p' n' d' w' /\ (length p' < length p)%nat).
Proof.
  intros Hs Hf. destruct (clock_unbounded d) as [N HN].
  assert (exists g, d <= clock (n + g)) as [g Hg].
  { exists N. pose proof (clock_le N (n + N)). lia. }
  clear N HN. revert n w Hs Hg. induction g as [|g IH]; intros n w Hs Hg k ctx;
    destruct (update_sleeping fuel T p n d w Hs Hf) as (w1 & Hu & He);
    assert (is_running (H := task_handler fuel) w = true) as Hr
      by (destruct Hs as (? & ? & ? & ? & ? & -> & _); done);
    destruct (Z.ltb_spec (clock n) d) as [Hlt|Hge].
  - rewrite Nat.add_0_r in Hg. lia.
  - exists 1%nat, (S k), (UpdateCtx.Tick (rclock k) ctx), w1. split; [|done].
    intros w2 j2 Hj. by eapply frames_S.
  - destruct (IH (S n) w1 He) with (k := S k) (ctx := UpdateCtx.Tick (rclock k) ctx)
      as (j & k' & ctx' & w' & Hfr & Hend); [by rewrite Nat.add_succ_l, <- Nat.add_succ_r|].
    exists (S j), k', ctx', w'. split; [|done]. intros w2 j2 Hj. eapply frames_S; [done|exact Hu|]. by apply Hfr.
  - exists 1%nat, (S k), (UpdateCtx.Tick (rclock k) ctx), w1. split; [|done].
    intros w2 j2 Hj. by eapply frames_S.
Qed.

(** From any delay the task comes to its end. *)
Lemma sleeping_ends fuel m p T n d w :
  (length p <= m)%nat -> Sleeps T p n d w -> (length p < fuel)%nat ->
  forall k ctx, exists j w', frames_of fuel j k ctx w w' /\ Ended (T + total_delay p) w'.
Proof.
  revert p T n d w. induction m as [|m IH]; intros p T n d w Hm Hs Hf k ctx;
    destruct (sleeping_wakes fuel p T n d w Hs Hf k ctx) as (j & k' & ctx' & w1 & Hfr & He).
  - exists (j + 0)%nat, w1. destruct He as [He|(p' & n' & d' & _ & Hl)]; [|lia].
    split; [apply Hfr; constructor|done].
  - destruct He as [He|(p' & n' & d' & Hs' & Hl)].
    + exists (j + 0)%nat, w1. split; [apply Hfr; constructor|done].
    + destruct (IH p' _ n' d' w1 ltac:(lia) Hs' ltac:(lia) k' ctx') as (j2 & w2 & Hf2 & He2).
      exists (j + j2)%nat, w2. split; [by apply Hfr|].
      by replace (T + total_delay p) with (T + total_delay p - total_delay p' + total_delay p') by lia.
Qed.

Lemma stop_idle fuel r nid i p l n now :
  Domain_Stop task_resume clock id exit_runner fuel (idle r nid i p l n now) =
  Ret (LoopTimer.mk [] nid, mkSys [] ∅ i true [] r p l (S n) (clock n)).
Proof. destruct fuel; done. Qed.

(** The first frame runs the task up to its first delay or its end. *)
Lemma first_frame fuel p :
  (length p < fuel)%nat ->
  exists w', Domain_Update task_resume clock exit_runner fuel (queued_ 0 None up 1 p [] 0 0) = Ret w' /\
    (Ended (clock 0%nat + total_delay p) w' \/
     exists p' n' d', Sleeps (clock 0%nat + total_delay p - total_delay p') p' n' d' w' /\
       (length p' < length p)%nat).
Proof.
  intros Hf. pose proof (clock_mono 0) as Hm.
  destruct (drain_settles fuel 0 (clock 0%nat) p 0 None 1 [] 1 (clock 0%nat)) as (c' & w' & Hd & He);
    [done|done|done|].
  exists w'. split; [|done]. unfold Domain_Update, DrainQueue, run_tick.
  destruct fuel; cbn -[drain]; unfold queued_ in Hd; rewrite Hd; done.
Qed.

(** The whole run of a sequential task. *)
Lemma task_ends fuel p :
  (length p < fuel)%nat ->
  exists k w', (forall k', (k <= k')%nat -> Run (H := task_handler fuel) rclock k' (construct p) = Ret (code, w')) /\
    clock 0%nat + total_delay p <= lastNow w'.2 /\ ops w'.2 = ∅ /\ user w'.2 = [].
Proof.
  intros Hf. destruct (first_frame fuel p Hf) as (w1 & Hu & He).
  set (ctx1 := UpdateCtx.Tick (rclock 1%nat) (UpdateCtx.Initialize (rclock 0%nat))).
  assert (exists j w2, frames_of fuel j 2 ctx1 w1 w2 /\ Ended (clock 0%nat + total_delay p) w2)
    as (j & w2 & Hfr & (nid & i & l & n & now & -> & HT)).
  { destruct He as [He|(p' & n' & d' & Hs & Hl)]; [exists 0%nat, w1; split; [constructor|done]|].
    destruct (sleeping_ends fuel (length p') p' _ n' d' w1 ltac:(lia) Hs ltac:(lia) 2 ctx1)
      as (j & w2 & Hfr & He2).
    exists j, w2. split; [done|].
    by replace (clock 0%nat + total_delay p)
      with (clock 0%nat + total_delay p - total_delay p' + total_delay p') by lia. }
  exists (S j), (LoopTimer.mk [] nid, mkSys [] ∅ i true [] (exit_runner code up) [] l (S n) (clock n)).
  split_and!; [|cbn; lia|done|done].
  intros k' Hk.
  assert (frames_of fuel (S j) 1 (UpdateCtx.Initialize (rclock 0%nat)) (queued_ 0 None up 1 p [] 0 0)
    (idle (exit_runner code up) nid i [] l n now)) as Hall by by eapply frames_S.
  pose proof (run_loop_frames (H := task_handler fuel) rclock (S j) k' _ _ _ _ Hall eq_refl Hk) as Hrun.
  change (Run (H := task_handler fuel) rclock k' (construct p)) with
    (let! w3 := run_loop (H := task_handler fuel) rclock k' 1 (UpdateCtx.Initialize (rclock 0%nat))
                  (queued_ 0 None up 1 p [] 0 0) in
     let! w4 := Domain_Stop task_resume clock id exit_runner fuel w3 in
     Ret (default ExitCode.Success (exit_code (H := task_handler fuel) w4), w4)).
  rewrite Hrun. cbn [obind]. rewrite stop_idle. done.
Qed.

(** C33: a sequential task ends: in a domain that is given a [LoopTimerBackend], run
    by the blocking runner with a clock that goes on, the program returns the code of the task after finitely many frames (and
    any larger bound on them gives the same result), not before all the delays
    the task asked for have passed, and with every operation state destroyed. *)
Theorem sequential_task_ends fuel p :
  (length p < fuel)%nat ->
  exists k w', (forall k', (k <= k')%nat -> Run (H := task_handler fuel) rclock k' (construct p) = Ret (code, w')) /\
    clock 0%nat + total_delay p <= lastNow w'.2 /\ ops w'.2 = ∅ /\ user w'.2 = [].
Proof. apply task_ends. Qed.

End Sequential.

(** ** The demo *)

(** [MainTask] of [demo/pkg/exec/main.cpp]: [SubTask] completes at once, then a
    delay of 10 ms; its coroutine types may reschedule around each of them. The
    time is in nanoseconds. *)
Definition MainTask (before after : nat) : list await :=
  replicate before Schedule ++ Delay (10 * 1000000) :: replicate after Schedule.

Module ExecDemoRuns.

(** A clock that advances by 1 ms per reading. *)
Definition ms_clock (n : nat) : Z := 1000000 * Z.of_nat n.

Lemma ms_clock_mono n : ms_clock n <= ms_clock (S n).
Proof. unfold ms_clock. lia. Qed.

Lemma ms_clock_unbounded T : exists n, T <= ms_clock n.
Proof. exists (Z.to_nat T). unfold ms_clock. lia. Qed.

(** The task of the demo, with one frame per millisecond, ends in the 13th frame. *)
Example demo_frames :
  (exists w, Run (H := task_handler 42 ms_clock 3) tick_clock 13 (construct (MainTask 1 0)) = Ret (42, w)) /\
  Run (H := task_handler 42 ms_clock 3) tick_clock 10 (construct (MainTask 1 0)) = Running.
Proof. split; [eexists|]; vm_compute; reflexivity. Qed.

Lemma sequential_task_ends_witness :
  exists k w', (forall k', (k <= k')%nat ->
      Run (H := task_handler 7 ms_clock 4) tick_clock k' (construct [Delay 5; Schedule; Delay 3]) = Ret (7, w')) /\
    8 <= lastNow w'.2.
Proof.
  destruct (sequential_task_ends 7 ms_clock ms_clock_mono ms_clock_unbounded tick_clock 4
    [Delay 5; Schedule; Delay 3]) as (k & w' & Hr & Hl & _); [simpl; lia|].
  exists k, w'. split; [exact Hr|exact Hl].
Defined.

End ExecDemoRuns.
