(* ===== verification/Programs.v ===== *)
(** * Two small programs of the packages

    [src/demo/pkg/fs/main.cpp] over the drives of [FsDrive], and
    [src/demo/pkg/boot/main.cpp] (with [sublib.cpp]) over the start-up and the
    abort handlers of [Boot]. *)

From Stdlib Require Import Strings.Byte.
From S2P Require Import Prelude StringView Boot FsDrive.

Open Scope Z_scope.

(** ** The file system demo *)

Module FsMain.

(** The exit code, and the content logged. *)
Record ending := mkEnding { code : Z; content : option (list byte) }.

(** [std::vector::resize]. *)
Definition resize (n : nat) (buf : list byte) : list byte := take n buf ++ replicate (n - length buf) x00.

(** [main]: the drive as it is when the size is asked for, and when the file is
    read; other processes may have changed the file in between. An exception of
    the drive is not caught and terminates the program. *)
Definition main (drive drive' : Drive) : outcome ending :=
  match GetSize drive "test_data/test.txt" with
  | None => Crash
  | Some (Unexpected _) => Ret (mkEnding 1 None)
  | Some (Value size) =>
      let buf := replicate size x00 in
      match ReadAllTo drive' "test_data/test.txt" buf with
      | (None, _) => Crash
      | (Some (Unexpected _), _) => Ret (mkEnding 1 None)
      | (Some (Value n), buf') => Ret (mkEnding 0 (Some (resize n buf')))
      end
  end.

Lemma resize_less n buf : (n <= length buf)%nat -> resize n buf = take n buf.
Proof. intros H. unfold resize. replace (n - length buf)%nat with 0%nat by lia. apply app_nil_r. Qed.

Section Native.
Context (fs_exists fs_exists' : path -> option bool) (file_size file_size' : path -> expected nat errc)
        (ifstream ifstream' : path -> option (list byte)).
Context (cwd : path) (exe : option path).

(** The demo on the native file system shows the file at the path the drive finds,
    as it is at the time of the read, up to the size it had before: all of it when
    it did not grow. It fails exactly when there was no size or the file cannot be
    opened, and is terminated exactly when the lookup throws, the second one only
    if the first found a size. *)
Theorem fs_demo_shows_file :
  let before := native_GetNativePath fs_exists (default_prefixes cwd exe) "test_data/test.txt" in
  let after := native_GetNativePath fs_exists' (default_prefixes cwd exe) "test_data/test.txt" in
  main (MakeDefaultDrive fs_exists file_size ifstream None cwd exe)
       (MakeDefaultDrive fs_exists' file_size' ifstream' None cwd exe) =
  match before with
  | None => Crash
  | Some (Unexpected _) => Ret (mkEnding 1 None)
  | Some (Value f) =>
    match file_size f, after with
    | Unexpected _, _ => Ret (mkEnding 1 None)
    | Value size, None => Crash
    | Value size, Some (Unexpected _) => Ret (mkEnding 1 None)
    | Value size, Some (Value f') =>
      match ifstream' f' with
      | Some bytes => Ret (mkEnding 0 (Some (take size bytes)))
      | None => Ret (mkEnding 1 None)
      end
    end
  end.
Proof.
  intros before after. unfold main. cbn -[native_GetNativePath default_prefixes replicate].
  unfold native_GetSize, native_ReadAllTo. fold before after.
  destruct before as [[f|e]|]; [|done..]. destruct (file_size f) as [size|e]; [|done].
  destruct after as [[f'|e]|]; [|done..]. destruct (ifstream' f') as [bytes|]; [|done].
  unfold read_into. rewrite length_replicate. do 3 f_equal.
  set (n := min size (length bytes)).
  assert (length (take n bytes) = n) as Hn by (rewrite length_take; lia).
  rewrite resize_less by (rewrite length_app, Hn; lia).
  rewrite take_app_length' by done. unfold n.
  destruct (Nat.min_spec size (length bytes)) as [[H ->]|[H ->]]; [done|].
  by rewrite !take_ge.
Qed.

End Native.

End FsMain.

(** ** The boot demo *)

Module BootMain.

(** How the process ends: in the debugger's trap, by SIGABRT with what the abort
    handlers reported, or by returning from [main]; with the lines logged. *)
Inductive ending :=
| Trapped
| Aborted (reports : list Abort.report)
| Exited (code : Z) (lines : list view).

Section Main.
(** Without a debugger attached [__builtin_debugtrap] ends the process. The
    environment and the runfiles library are parameters ([getenv] gives the empty
    string for a variable that is not set). *)
Context (signals debugger : bool) (getenv : view -> view) (Rlocation : expected (view -> view) view).

Definition vars : list view :=
  sv <$> ["BUILD_WORKING_DIRECTORY"; "BUILD_WORKSPACE_DIRECTORY"; "RUNFILES_DIR";
          "RUNFILES_MANIFEST_FILE"]%string.

Definition env_line (var : view) : view :=
  match getenv var with
  | [] => sv "  " ++ var ++ sv " is not set"
  | value => sv "  " ++ var ++ sv "=" ++ value
  end.

Definition runfiles_line : view :=
  match Rlocation with
  | Value loc => sv "Runfiles path for sample: " ++ loc (sv "demo/hello-boot/sample-data.txt")
  | Unexpected error => sv "Runfiles::Create failed: " ++ error
  end.

(** [sublib_log_exception_ptr(sublib_make_exception_ptr())]. *)
Definition ex_line : view := sv "'sublib made runtime_error exception'".

(** The end of a process by [std::abort] or [std::terminate]; the handlers run at
    most twice. *)
Definition killed (r : option (list Abort.report)) : ending :=
  match r with Some l => Aborted l | None => Aborted [] end.

Definition main (h : Abort.terminate_handler) (argv : CliArgs.t) : ending :=
  let '(args, st) := Init.DefaultInit signals argv (Init.initial h) in
  let hello := sv "Hello Boot!" in
  if CliArgs.Contains args (sv "--break") && negb debugger then Trapped
  else if CliArgs.Contains args (sv "--abort") then killed (Abort.abort signals 2 (Init.handlers st))
  else if CliArgs.Contains args (sv "--throw") then killed (Abort.std_terminate signals 2 (Init.handlers st))
  else if CliArgs.Contains args (sv "--ex") then Exited 0 [hello; ex_line]
  else Exited (Z.of_nat (length argv) - 1)
         (hello :: sv "Process environment variables:" :: (env_line <$> vars) ++ [runfiles_line]).

(** The options of the demo: a crash, by either of the two, is reported exactly
    once (in the browser an abort not at all); the exit code is the number of
    arguments exactly when none of the options is given. *)
Theorem boot_demo_endings h argv :
  (sv "--break" ∉ argv \/ debugger = true) ->
  (sv "--abort" ∈ argv -> main h argv = Aborted (if signals then [Abort.SigabrtCaptured] else [])) /\
  (sv "--abort" ∉ argv -> sv "--throw" ∈ argv -> main h argv = Aborted [Abort.TerminateCaptured]) /\
  (sv "--abort" ∉ argv -> sv "--throw" ∉ argv ->
     exists lines, main h argv =
       Exited (if decide (sv "--ex" ∈ argv) then 0 else Z.of_nat (length argv) - 1) lines).
Proof.
  intros Hb. destruct (Abort.one_report_and_exit signals 0 h 2 (Nat.le_refl 2)) as [Ha Ht].
  assert (forall o, CliArgs.Contains argv o = bool_decide (o ∈ argv)) as Hc.
  { intros o. destruct (CliArgs.Contains argv o) eqn:E; symmetry.
    - by apply bool_decide_eq_true, CliArgs.Contains_spec.
    - apply bool_decide_eq_false. rewrite <- CliArgs.Contains_spec. congruence. }
  unfold main. cbn [Init.DefaultInit Init.initial Init.inited Init.handlers].
  rewrite !Hc.
  assert (bool_decide (sv "--break" ∈ argv) && negb debugger = false) as ->.
  { destruct Hb as [Hb| ->]; [by rewrite bool_decide_false|apply andb_false_r]. }
  simpl Abort.setups in Ha, Ht. split_and!.
  - intros Hin. rewrite bool_decide_true by done. change (killed (Abort.abort signals 2
      (Abort.setups signals 1 (Abort.initial h))) = Aborted (if signals then [Abort.SigabrtCaptured] else [])).
    simpl Abort.setups. by rewrite Ha.
  - intros Hn Hin. rewrite bool_decide_false, bool_decide_true by done.
    change (killed (Abort.std_terminate signals 2 (Abort.setups signals 1 (Abort.initial h))) =
      Aborted [Abort.TerminateCaptured]). simpl Abort.setups. by rewrite Ht.
  - intros Hn Hn'. rewrite !(bool_decide_false (_ ∈ _)) by done.
    rewrite (bool_decide_decide (sv "--ex" ∈ argv)). destruct (decide (sv "--ex" ∈ argv)); simpl; eauto.
Qed.

End Main.

End BootMain.

Module ProgramRuns.

Lemma boot_demo_endings_witness :
  BootMain.main true false (fun _ => []) (Unexpected (sv "none")) Abort.DefaultTerminate
    [sv "boot"; sv "--throw"; sv "--ex"] = BootMain.Aborted [Abort.TerminateCaptured].
Proof.
  apply (BootMain.boot_demo_endings true false (fun _ => []) (Unexpected (sv "none"))
    Abort.DefaultTerminate [sv "boot"; sv "--throw"; sv "--ex"]).
  - left. apply (bool_decide_unpack _). vm_compute. exact I.
  - apply (bool_decide_unpack _). vm_compute. exact I.
  - apply (bool_decide_unpack _). vm_compute. exact I.
Defined.

End ProgramRuns.
