(* ===== verification/RtcConfig.v ===== *)
(** * Configuration of the WebRTC transports and signaling clients

    [src/pkg/rtt/rtc/Rtt/Rtc]: [RtcOptions.h], [WsSigOptions.h], the factories
    ([RtcClient.cpp], [RtcServer.cpp], [WsSigClient.cpp]), the list of ICE servers
    as libdatachannel ([Dc/DcRtcConfig.cpp]) and the browser ([BuildIceJson] in
    [Js/JsRtcTransport.cpp]) get it, and the URL under which a signaling client
    joins, up to the identifier the server of [WsServer] registers. *)

From Stdlib Require Import Strings.Ascii.
From stdpp Require Import pretty.
From S2P Require Import Prelude Rtt SigHub SigWire WsServer.

(** ** Options *)

Record RtcOptions := mkRtcOptions {
  localId : string; remoteId : string; iceServers : list string;
  maxMessageSize : N; maxInboundConnections : N }.

Definition default_RtcOptions : RtcOptions := mkRtcOptions "" "" [] 65535 4096.

Record WsSigOptions := mkWsSigOptions { host : string; port : N }.

Definition default_WsSigOptions : WsSigOptions := mkWsSigOptions "localhost" 8000.

(** ** Factories *)

Inductive transport := DcRtcTransport (o : RtcOptions) | JsRtcTransport (o : RtcOptions).
Inductive sig_client := DcWsSigClient (o : WsSigOptions) | JsWsSigClient (o : WsSigOptions).

Definition RtcClient_MakeDefault (emscripten : bool) (o : RtcOptions) : transport :=
  if emscripten then JsRtcTransport o else DcRtcTransport o.
Definition RtcServer_MakeDefault (emscripten : bool) (o : RtcOptions) : transport :=
  if emscripten then JsRtcTransport o else DcRtcTransport o.
Definition WsSigClient_MakeDefault (emscripten : bool) (o : WsSigOptions) : sig_client :=
  if emscripten then JsWsSigClient o else DcWsSigClient o.

(** ** ICE servers *)

Section Ice.
(** [rtc::IceServer(uri)], which throws for a text that is no URI of a server. *)
Context {Server : Type} (IceServer : string -> option Server).

(** [BuildConfiguration]: the servers, or an exception. *)
Fixpoint build_servers (uris : list string) : option (list Server) :=
  match uris with
  | [] => Some []
  | uri :: uris => s ← IceServer uri; ss ← build_servers uris; Some (s :: ss)
  end.

Definition BuildConfiguration (o : RtcOptions) : option (list Server) := build_servers (iceServers o).

(** Arrays of JSON, as [BuildIceJson] and [JSON.parse] use them. *)
Class JsonArrays (J : Type) `{JsonLib J} := {
  array : list J -> J;
  elements : J -> option (list J) }.

Class JsonArrayLaws (J : Type) `{JsonArrays J} := {
  dump_array (us : list string) : Forall (fun u => utf8 u = true) us ->
    exists text, dump (array ((fun u => object [("urls", u)]) <$> us)) = Some text /\
      exists j, parse text = Some j /\ elements j = Some ((fun u => object [("urls", u)]) <$> us) }.

Context {J : Type} {JL : JsonLib J} {JW : JsonLaws J} {JA : JsonArrays J} {JAL : JsonArrayLaws J}.

(** The loop of [BuildIceJson]; a text that is not UTF-8 throws. *)
Definition BuildIceJson (uris : list string) : option string :=
  dump (array (foldl (fun arr srv => arr ++ [object [("urls", srv)]]) [] uris)).

(** What the browser reads: the [urls] of each element. *)
Definition browser_servers (iceJson : string) : option (list string) :=
  j ← parse iceJson; l ← elements j; mapM (fun e => find e "urls" ≫= get_string) l.

Lemma ice_loop uris acc :
  foldl (fun arr srv => arr ++ [object [("urls", srv)]]) acc uris =
  acc ++ ((fun u => object [("urls", u)]) <$> uris).
Proof.
  revert acc. induction uris as [|u us IH]; intros acc; simpl; [by rewrite app_nil_r|].
  by rewrite IH, <- app_assoc.
Qed.

Lemma build_servers_Some uris ss :
  build_servers uris = Some ss <-> Forall2 (fun u s => IceServer u = Some s) uris ss.
Proof.
  revert ss. induction uris as [|u us IH]; intros ss; simpl.
  - split; [by intros [= <-]|]. by intros ->%Forall2_nil_inv_l.
  - split.
    + intros Hb. destruct (IceServer u) as [s|] eqn:E; [|done]. simpl in Hb.
      destruct (build_servers us) as [ss'|]; [|done]. simplify_eq/=. constructor; [done|]. by apply IH.
    + intros (s & ss' & Hs & Hf & ->)%Forall2_cons_inv_l. rewrite Hs. simpl.
      by rewrite (proj2 (IH ss') Hf).
Qed.

(** The two builds hand over the same servers: the browser reads back exactly the
    configured texts, in order, if they are UTF-8; libdatachannel gets one server
    for each text, in order, or an exception when one of them is no server. *)
Theorem ice_servers_handed_over (o : RtcOptions) :
  Forall (fun u => utf8 u = true) (iceServers o) ->
  (exists text, BuildIceJson (iceServers o) = Some text /\ browser_servers text = Some (iceServers o)) /\
  (forall ss, BuildConfiguration o = Some ss <->
     Forall2 (fun u s => IceServer u = Some s) (iceServers o) ss).
Proof.
  intros Hu. split; [|intros ss; apply build_servers_Some].
  unfold BuildIceJson. rewrite ice_loop. simpl.
  destruct (dump_array (iceServers o) Hu) as (text & Hd & j & Hp & He).
  exists text. split; [exact Hd|]. unfold browser_servers. rewrite Hp. simpl. rewrite He. simpl.
  apply mapM_Some_2, Forall2_fmap_l, Forall_Forall2_diag, Forall_true. intros u.
  simpl. rewrite find_object by (apply NoDup_singleton). simpl. rewrite lookup_insert_eq. simpl.
  apply get_of_string.
Qed.

End Ice.

(** ** The URL of a signaling client *)

Fixpoint all_chars (P : ascii -> bool) (s : string) : bool :=
  match s with EmptyString => true | String c s => P c && all_chars P s end.

Lemma all_chars_app P s t : all_chars P (s +:+ t) = all_chars P s && all_chars P t.
Proof. induction s as [|c s IH]; simpl; [done|]. by rewrite IH, andb_assoc. Qed.

(** [DcWsSigClient::Join] and [JsWsSigClient::Join]. *)
Definition join_url (o : WsSigOptions) (id : string) : string :=
  "ws://" +:+ host o +:+ ":" +:+ pretty (port o) +:+ "/" +:+ id.

(** The characters that end the authority of a URL, and the unreserved ones,
    which no client encodes (RFC 3986). *)
Definition in_authority (c : ascii) : bool := negb (bool_decide (c ∈ ["/"; "?"; "#"]%char)).
Definition unreserved (c : ascii) : bool :=
  let n := nat_of_ascii c in
  ((48 <=? n) && (n <=? 57)) || ((65 <=? n) && (n <=? 90)) || ((97 <=? n) && (n <=? 122)) ||
  bool_decide (c ∈ ["-"; "."; "_"; "~"]%char).

(** A path segment that every URL parser leaves as it is: of unreserved
    characters and no dot segment, which browsers remove. *)
Definition plain_segment (s : string) : bool :=
  all_chars unreserved s && negb (bool_decide (s = ".")) && negb (bool_decide (s = "..")).

(** The path a WebSocket library requests for a URL, or [None] when it refuses
    the URL (an invalid host, for one). If it accepts, the path of a URL whose
    path is one plain segment is that segment, and a fragment is not sent. *)
Class WsUrl := {
  request_path : string -> option string;
  path_is_requested auth rest p :
    all_chars in_authority auth = true -> plain_segment rest = true ->
    request_path ("ws://" +:+ auth +:+ "/" +:+ rest) = Some p -> p = "/" +:+ rest;
  fragment_is_not auth rest fragment p :
    all_chars in_authority auth = true -> plain_segment rest = true ->
    request_path ("ws://" +:+ auth +:+ "/" +:+ rest +:+ "#" +:+ fragment) = Some p -> p = "/" +:+ rest }.

Lemma digits_in_authority n s :
  all_chars in_authority s = true -> all_chars in_authority (pretty_N_go n s) = true.
Proof.
  revert s. induction (N.lt_wf_0 n) as [n _ IH]; intros s Hs.
  destruct (decide (n = 0)%N) as [->|Hn]; [done|].
  rewrite pretty_N_go_step by lia. apply IH; [apply N.div_lt; lia|].
  simpl. rewrite Hs. unfold pretty_N_char. by repeat case_match.
Qed.

Lemma port_in_authority (n : N) : all_chars in_authority (pretty n) = true.
Proof. unfold pretty, pretty_N. case_decide; [done|]. by apply digits_in_authority. Qed.

Lemma append_assoc (a b c : string) : (a +:+ b) +:+ c = a +:+ b +:+ c.
Proof. induction a as [|x a IH]; simpl; [done|]. unfold String.append in *. simpl. by f_equal. Qed.

Section Join.
Context {U : WsUrl} {J : Type} {JL : JsonLib J} {JW : JsonLaws J}.

Lemma authority_ok o :
  all_chars in_authority (host o) = true ->
  all_chars in_authority (host o +:+ ":" +:+ pretty (port o)) = true.
Proof. intros Hh. rewrite !all_chars_app, Hh, port_in_authority. done. Qed.

Lemma join_url_split o id :
  join_url o id = "ws://" +:+ (host o +:+ ":" +:+ pretty (port o)) +:+ "/" +:+ id.
Proof. unfold join_url. by rewrite !append_assoc. Qed.

(** C39: A client is reachable under its identifier: whatever the server has handled
    before, when a client whose identifier is not empty, is made of unreserved
    characters and is neither "." nor "..", opens a new socket with the URL of
    [Join] (its host without "/", "?" and "#", and the URL accepted by the
    WebSocket library), the server registers that socket under exactly that
    identifier, so that what is sent to it is written there. *)
Theorem client_reachable_under_its_id (es : list SEvent) (w : Hub (A := Server)) (o : WsSigOptions) (id p : string) (ws : nat) :
  NoDup (openings es) -> serve_all es start = Ret w -> ws ∉ openings es ->
  all_chars in_authority (host o) = true -> plain_segment id = true -> id <> "" ->
  request_path (join_url o id) = Some p ->
  exists w', serve (SOpen ws (Some p)) w = Ret w' /\
    routes_to w' id ws /\ ws ∈ open_ (app w') /\ connections (app w') !! id = Some ws.
Proof.
  intros Hnd Hr Hws Hh Hid Hne Hp.
  destruct (serve_all_ok [] es start start_inv Hnd) as (w0 & Hw0 & HI); [set_solver|].
  assert (w0 = w) as -> by congruence.
  rewrite join_url_split in Hp. apply path_is_requested in Hp as ->; [|by apply authority_ok|done].
  cbn [serve]. unfold onOpen. cbn [peer_of_path default]. change (peer_of_path (Some ("/" +:+ id))) with id.
  rewrite decide_False by done.
  rewrite (register_eq (reverse (openings es) ++ [])); [|by apply inv_books|].
  2:{ rewrite app_nil_r. by rewrite elem_of_reverse. }
  cbn [obind]. eexists. split; [done|]. split_and!.
  - exists (next w). split_and!; cbn; by rewrite lookup_insert_eq.
  - cbn. set_solver.
  - cbn. by rewrite lookup_insert_eq.
Qed.

(** The identifier is put into the URL as it is: a part after a number sign is
    lost if the library accepts the URL, so that two clients whose identifiers
    differ only there are registered under the same name, the second in place of
    the first. *)
Theorem id_fragment_is_lost (o : WsSigOptions) (id f p : string) :
  all_chars in_authority (host o) = true -> plain_segment id = true ->
  request_path (join_url o (id +:+ "#" +:+ f)) = Some p -> peer_of_path (Some p) = id.
Proof.
  intros Hh Hid Hp. rewrite join_url_split in Hp. apply fragment_is_not in Hp as ->; [done|by apply authority_ok|done].
Qed.

End Join.

(** ** Implementations of the interfaces, and evaluation *)

Module RtcConfigDemo.

(** A parser like those of browsers: it refuses a host with a blank, drops the
    fragment and removes a dot segment. *)
Fixpoint skip_authority (s : string) : string :=
  match s with
  | EmptyString => EmptyString
  | String c r => if in_authority c then skip_authority r else s
  end.

Fixpoint until_hash (s : string) : string :=
  match s with
  | EmptyString => EmptyString
  | String c r => if bool_decide (c = "#"%char) then EmptyString else String c (until_hash r)
  end.

Fixpoint blank_authority (s : string) : bool :=
  match s with
  | EmptyString => false
  | String c r => in_authority c && (bool_decide (c = " "%char) || blank_authority r)
  end.

Definition remove_dots (path : string) : string :=
  if bool_decide (path = "/.") || bool_decide (path = "/..") then "/" else path.

Definition rfc_path (url : string) : option string :=
  let rest := String.substring 5 (String.length url) url in
  if String.prefix "ws://" url && negb (blank_authority rest)
  then Some (remove_dots (until_hash (skip_authority rest)))
  else None.

Lemma skip_authority_app a r :
  all_chars in_authority a = true -> skip_authority (a +:+ String "/" r) = String "/" r.
Proof.
  induction a as [|c a IH]; simpl; [done|]. intros [Hc Ha]%andb_true_iff. rewrite Hc. by apply IH.
Qed.

Lemma unreserved_not_hash c : unreserved c = true -> c <> "#"%char.
Proof. by intros Hc ->. Qed.

Lemma until_hash_plain r s :
  all_chars unreserved r = true -> until_hash (r +:+ s) = r +:+ until_hash s.
Proof.
  induction r as [|c r IH]; simpl; [done|]. intros [Hc Hr]%andb_true_iff.
  rewrite bool_decide_false by (by apply unreserved_not_hash).
  unfold String.append in *. simpl. by rewrite IH.
Qed.

Lemma substring_all n s : (String.length s <= n)%nat -> String.substring 0 n s = s.
Proof.
  revert n. induction s as [|c s IH]; intros n Hn; simpl in *; [by destruct n|].
  destruct n as [|n]; [lia|]. simpl. by rewrite IH by lia.
Qed.

Lemma rfc_path_ws t p : rfc_path ("ws://" +:+ t) = Some p -> p = remove_dots (until_hash (skip_authority t)).
Proof.
  unfold rfc_path, String.append. simpl. rewrite substring_all by lia.
  replace (String.prefix "" t) with true by (by destruct t). by destruct (blank_authority t); intros [= <-].
Qed.

Lemma remove_dots_plain rest : plain_segment rest = true -> remove_dots ("/" +:+ rest) = "/" +:+ rest.
Proof.
  intros [[_ H1%negb_true_iff%bool_decide_eq_false]%andb_true_iff H2%negb_true_iff%bool_decide_eq_false]%andb_true_iff.
  unfold remove_dots, String.append. cbn. by rewrite !bool_decide_false by (intros [=]; done).
Qed.

Lemma append_nil (s : string) : s +:+ "" = s.
Proof. induction s as [|c s IH]; [done|]. unfold String.append in *. simpl. by rewrite IH. Qed.

Lemma plain_unreserved rest : plain_segment rest = true -> all_chars unreserved rest = true.
Proof. by intros [[? _]%andb_true_iff _]%andb_true_iff. Qed.

#[export, refine] Instance rfc_url : WsUrl := {| request_path := rfc_path |}.
Proof.
  - intros auth rest p Ha Hr ->%rfc_path_ws. pose proof (plain_unreserved rest Hr) as Hu.
    change ("/" +:+ rest) with (String "/" rest) at 1. rewrite skip_authority_app by done. simpl.
    rewrite <- (append_nil rest) at 1. rewrite until_hash_plain by done. rewrite append_nil. by apply remove_dots_plain.
  - intros auth rest f p Ha Hr ->%rfc_path_ws. pose proof (plain_unreserved rest Hr) as Hu.
    change ("/" +:+ rest +:+ "#" +:+ f) with (String "/" (rest +:+ "#" +:+ f)).
    rewrite skip_authority_app by done. simpl.
    rewrite until_hash_plain by done. simpl. rewrite append_nil. by apply remove_dots_plain.
Defined.

(** JSON with arrays of objects, printed as in [Toy]. *)
Inductive json := Str (s : string) | Obj (kvs : list (string * string)) | Arr (l : list json).

Definition kvs_of (j : json) : option (list (string * string)) :=
  match j with Obj kvs => Some kvs | _ => None end.

Abbreviation printable := (list (string * string) + list (list (string * string)))%type.

Definition print (x : printable) : string := Toy.digits (countable.encode x) "".

#[export] Instance arr_lib : JsonLib json := {
  parse t := p ← Toy.undigits t 1; x ← (countable.decode p : option printable);
             Some match x with inl kvs => Obj kvs | inr l => Arr (Obj <$> l) end;
  dump j := match j with
            | Obj kvs => Some (print (inl kvs))
            | Arr l => l' ← mapM kvs_of l; Some (print (inr l'))
            | Str _ => None end;
  of_string := Str;
  object := Obj;
  is_object j := match j with Obj _ => true | _ => false end;
  find j k := match j with Obj kvs => Str <$> (list_to_map kvs : gmap string string) !! k | _ => None end;
  get_string j := match j with Str s => Some s | _ => None end;
  value j k d := match j with
                 | Obj kvs => Some (default d ((list_to_map kvs : gmap string string) !! k))
                 | _ => None end;
  utf8 _ := true }.

Lemma parse_print (x : printable) :
  parse (print x) = Some match x with inl kvs => Obj kvs | inr l => Arr (Obj <$> l) end.
Proof.
  cbn. unfold print. rewrite Toy.undigits_digits, (left_id 1%positive Pos.app). cbn [option_bind mbind].
  cbn. by rewrite decode_encode.
Qed.

#[export] Instance arr_laws : JsonLaws json.
Proof.
  split; try done.
  - by intros [].
  - intros [s|kvs|l] k d; try done. cbn. by destruct (_ !! k).
  - by intros [].
  - intros kvs _ _. eexists. split_and!; [done|apply parse_print|done].
Qed.

#[export] Instance arr_arrays : JsonArrays json :=
  {| array := Arr; elements j := match j with Arr l => Some l | _ => None end |}.

#[export] Instance arr_array_laws : JsonArrayLaws json.
Proof.
  split. intros us _. set (objs := (fun u => [("urls", u)]) <$> us).
  exists (print (inr objs)). split.
  - cbn. assert (mapM kvs_of ((fun u => Obj [("urls", u)]) <$> us) = Some objs) as ->; [|done].
    apply mapM_Some_2, Forall2_fmap, Forall_Forall2_diag, Forall_true. done.
  - eexists. split; [apply parse_print|]. cbn. f_equal. unfold objs. by rewrite <- list_fmap_compose.
Qed.

Definition stun : list string := ["stun:a:1"; "turn:b"].

Lemma ice_servers_handed_over_witness :
  (exists text, BuildIceJson stun = Some text /\ browser_servers text = Some stun) /\
  (forall ss, BuildConfiguration (fun u => if String.prefix "stun:" u then Some u else None)
      (mkRtcOptions "a" "b" stun 65535 4096) = Some ss <->
     Forall2 (fun u s => (if String.prefix "stun:" u then Some u else None) = Some s) stun ss).
Proof.
  apply (ice_servers_handed_over (fun u => if String.prefix "stun:" u then Some u else None)
    (mkRtcOptions "a" "b" stun 65535 4096)).
  repeat constructor.
Defined.

Lemma client_reachable_under_its_id_witness :
  join_url default_WsSigOptions "peer-1" = "ws://localhost:8000/peer-1" /\
  exists w', serve (SOpen 0 (Some "/peer-1")) start = Ret w' /\
    routes_to w' "peer-1" 0 /\ 0 ∈ open_ (app w') /\ connections (app w') !! "peer-1" = Some 0.
Proof.
  split; [vm_compute; reflexivity|].
  apply (client_reachable_under_its_id [] start default_WsSigOptions "peer-1" "/peer-1" 0);
    [constructor|reflexivity|set_solver|vm_compute; reflexivity|vm_compute; reflexivity|done|vm_compute; reflexivity].
Defined.

Lemma id_fragment_is_lost_witness :
  peer_of_path (request_path (join_url default_WsSigOptions ("cam" +:+ "#" +:+ "1"))) =
  peer_of_path (request_path (join_url default_WsSigOptions ("cam" +:+ "#" +:+ "2"))).
Proof.
  transitivity "cam"; [|symmetry].
  - apply (id_fragment_is_lost default_WsSigOptions "cam" "1" "/cam"); vm_compute; reflexivity.
  - apply (id_fragment_is_lost default_WsSigOptions "cam" "2" "/cam"); vm_compute; reflexivity.
Defined.

(** The identifier of two dots is lost where dot segments are removed, and a host
    with a blank is refused. *)
Example dot_id_is_lost :
  request_path (join_url default_WsSigOptions "..") = Some "/" /\
  request_path (join_url (mkWsSigOptions "my host" 8000) "a") = None.
Proof. vm_compute. split; reflexivity. Qed.

End RtcConfigDemo.
