(* ===== verification/ThreadExec.v ===== *)
(** * The domain with its default timer backend: two threads

    [Domain::MakeDefaultBackend] gives a domain a [ThreadTimerBackend], which runs
    the callbacks of timers on its own thread. Here the thread of the loop (a
    sequential task that starts and destroys [TimedOperation]s, [DrainQueue],
    [Domain::Stop]) and the thread of the timers (the callback of
    [TimedOperation::start], statement by statement) are interleaved. The backend
    is its interface, which [ThreadTimer] proves of its code: a map of timers, at
    most one callback in flight, a [Cancel] that waits while its own callback is
    in flight. A read or write of [timerId] is one statement here; the member is not
    atomic in the code. An operation state that is used when it does not exist sets
    [bad]. *)

From S2P Require Import Prelude ExecLoop ExecDemo.

Open Scope Z_scope.

(** The operation state in the frame of the coroutine: of [schedule], or a
    [TimedOperation] with its members ([None] is [InvalidTimerId]). *)
Inductive operation :=
| Loop
| Timed (deadline : Z) (state : State) (timerId : option nat).

(** Where the callback of a timer is. *)
Inductive callback := ResetId | CompareExchange | EnqueueThis | Return.

#[export] Instance callback_eq_dec : EqDecision callback.
Proof. solve_decision. Defined.

(** Where the thread of the loop is. *)
Inductive position :=
| Resumed                        (* the coroutine runs, in front of its next await *)
| StartReg | StartSchedule | StartAssign (id : nat)     (* [TimedOperation::start] *)
| Draining                       (* between or inside calls of [DrainQueue] *)
| Destroying (sg : Signal)       (* [~TimedOperation] after the completion *)
| DestroyCancel (sg : Signal) (id : nat)
| Ended                          (* the task has completed the domain *)
| StopCallback | StopCancel (id : nat) | StopTry | StopDrain | StopReset   (* [Domain::Stop] *)
| StopResetCancel (id : nat)
| Stopped.

Record Sys := mkSys {
  rest : list await;                     (* of the task *)
  pos : position;
  op : option (nat * operation);
  nextOp : nat;
  queue : list nat;
  timers : gmap nat (Z * nat);           (* the timers that may still fire *)
  nextId : nat;
  inflight : option (nat * nat * callback);
  stop : bool; registered : bool;        (* [request_stop()], the stop callback *)
  now : Z;
  log : list (nat * Signal * option Z * Z);   (* completions: deadline and time *)
  bad : bool }.

Section Program.

Definition move (p : position) (s : Sys) : Sys :=
  mkSys (rest s) p (op s) (nextOp s) (queue s) (timers s) (nextId s) (inflight s) (stop s) (registered s)
    (now s) (log s) (bad s).
Definition set_op (o : option (nat * operation)) (s : Sys) : Sys :=
  mkSys (rest s) (pos s) o (nextOp s) (queue s) (timers s) (nextId s) (inflight s) (stop s) (registered s)
    (now s) (log s) (bad s).
Definition set_queue (q : list nat) (s : Sys) : Sys :=
  mkSys (rest s) (pos s) (op s) (nextOp s) q (timers s) (nextId s) (inflight s) (stop s) (registered s)
    (now s) (log s) (bad s).
Definition set_timers (m : gmap nat (Z * nat)) (s : Sys) : Sys :=
  mkSys (rest s) (pos s) (op s) (nextOp s) (queue s) m (nextId s) (inflight s) (stop s) (registered s)
    (now s) (log s) (bad s).
Definition set_inflight (f : option (nat * nat * callback)) (s : Sys) : Sys :=
  mkSys (rest s) (pos s) (op s) (nextOp s) (queue s) (timers s) (nextId s) f (stop s) (registered s)
    (now s) (log s) (bad s).
Definition set_registered (b : bool) (s : Sys) : Sys :=
  mkSys (rest s) (pos s) (op s) (nextOp s) (queue s) (timers s) (nextId s) (inflight s) (stop s) b
    (now s) (log s) (bad s).
Definition ill (s : Sys) : Sys :=
  mkSys (rest s) (pos s) (op s) (nextOp s) (queue s) (timers s) (nextId s) (inflight s) (stop s) (registered s)
    (now s) (log s) true.

(** The coroutine reaches its next await: the operation state is constructed;
    [schedule] enqueues it, [schedule_after] reads the clock. *)
Definition await_next (s : Sys) : Sys :=
  match rest s with
  | [] => move Ended s
  | Schedule :: r =>
      mkSys r Draining (Some (nextOp s, Loop)) (S (nextOp s)) (queue s ++ [nextOp s]) (timers s) (nextId s)
        (inflight s) (stop s) (registered s) (now s) (log s) (bad s)
  | Delay d :: r =>
      mkSys r StartReg (Some (nextOp s, Timed (now s + d) Pending None)) (S (nextOp s)) (queue s) (timers s)
        (nextId s) (inflight s) (stop s) (registered s) (now s) (log s) (bad s)
  end.

(** [Execute] of the dequeued operation [i]. *)
Definition execute (i : nat) (s : Sys) : Sys :=
  match op s with
  | Some (j, o) =>
      if decide (j = i) then
        let sg := if stop s then SetStopped else SetValue in
        mkSys (rest s) (Destroying sg) (op s) (nextOp s) (queue s) (timers s) (nextId s) (inflight s) (stop s)
          (registered s) (now s)
          (log s ++ [(i, sg, match o with Timed d _ _ => Some d | Loop => None end, now s)]) (bad s)
      else ill s
  | None => ill s
  end.

(** After the completed operation is destroyed the coroutine goes on, or, stopped,
    it is over. *)
Definition go_on (sg : Signal) (s : Sys) : Sys :=
  match sg with
  | SetValue => move Resumed (set_op None s)
  | SetStopped => move StopDrain (set_op None s)
  end.

(** [Cancel(id)] waits while the callback of [id] is in flight. *)
Definition cancel (id : nat) (s : Sys) : option Sys :=
  match inflight s with
  | Some (k, _, _) => if decide (k = id) then None else Some (set_timers (delete id (timers s)) s)
  | None => Some (set_timers (delete id (timers s)) s)
  end.

(** The next statement of the thread of the loop; [None]: it waits, or has nothing
    to do in this frame. *)
Definition loop_step (s : Sys) : option Sys :=
  match pos s with
  | Resumed => Some (await_next s)
  | StartReg => Some (move StartSchedule (set_registered true s))
  | StartSchedule =>
      match op s with
      | Some (i, Timed d st t) =>
          Some (mkSys (rest s) (StartAssign (nextId s)) (op s) (nextOp s) (queue s)
            (<[nextId s := (d, i)]> (timers s)) (S (nextId s)) (inflight s) (stop s) (registered s)
            (now s) (log s) (bad s))
      | _ => Some (ill s)
      end
  | StartAssign id =>
      match op s with
      | Some (i, Timed d st _) => Some (move Draining (set_op (Some (i, Timed d st (Some id))) s))
      | _ => Some (ill s)
      end
  | Draining =>
      match queue s with
      | [] => None
      | i :: q => Some (execute i (set_queue q s))
      end
  | Destroying sg =>
      match op s with
      | Some (i, Timed _ _ (Some id)) => Some (move (DestroyCancel sg id) (set_registered false s))
      | Some _ => Some (go_on sg (set_registered false s))
      | None => Some (ill s)
      end
  | DestroyCancel sg id => go_on sg <$> cancel id s
  | StopCallback =>
      match op s with
      | Some (i, Timed d st (Some id)) => Some (move (StopCancel id) (set_op (Some (i, Timed d st None)) s))
      | Some (_, Timed _ _ None) => Some (move StopTry s)
      | _ => Some (ill s)
      end
  | StopCancel id => move StopTry <$> cancel id s
  | StopTry =>
      match op s with
      | Some (i, Timed d Pending t) =>
          Some (move StopDrain (set_queue (queue s ++ [i]) (set_op (Some (i, Timed d StopWon t)) s)))
      | Some (_, Timed _ _ _) => Some (move StopDrain s)
      | _ => Some (ill s)
      end
  | StopDrain =>
      match queue s with
      | [] => Some (move StopReset s)
      | i :: q => Some (execute i (set_queue q s))
      end
  | StopReset =>
      match op s with
      | Some (_, Timed _ _ (Some id)) => Some (move (StopResetCancel id) (set_registered false s))
      | _ => Some (move Stopped (set_op None (set_registered false s)))
      end
  | StopResetCancel id => (fun s => move Stopped (set_op None s)) <$> cancel id s
  | Ended | Stopped => None
  end.

(** [Domain::Stop], called by the runner between two frames: [request_stop] runs the
    stop callback if one is registered. *)
Definition begin_stop (s : Sys) : option Sys :=
  match pos s with
  | Draining | Ended =>
      Some (mkSys (rest s) (if registered s then StopCallback else StopDrain) (op s) (nextOp s) (queue s)
        (timers s) (nextId s) (inflight s) true (registered s) (now s) (log s) (bad s))
  | _ => None
  end.

(** The timer thread takes a timer that is due. *)
Definition timer_fire (id : nat) (s : Sys) : option Sys :=
  match inflight s, timers s !! id with
  | None, Some (d, i) =>
      if d <=? now s
      then Some (set_inflight (Some (id, i, ResetId)) (set_timers (delete id (timers s)) s)) else None
  | _, _ => None
  end.

(** The next statement of the callback: [timerId = InvalidTimerId], the
    compare-exchange and [scheduler->Enqueue(this)] of [TryEnqueue], its return. *)
Definition timer_step (s : Sys) : option Sys :=
  match inflight s with
  | None => None
  | Some (id, i, Return) => Some (set_inflight None s)
  | Some (id, i, c) =>
      match op s with
      | Some (j, Timed d st t) =>
          if decide (j = i) then
            match c with
            | ResetId => Some (set_inflight (Some (id, i, CompareExchange)) (set_op (Some (i, Timed d st None)) s))
            | CompareExchange =>
                match st with
                | Pending => Some (set_inflight (Some (id, i, EnqueueThis)) (set_op (Some (i, Timed d TimerWon t)) s))
                | _ => Some (set_inflight (Some (id, i, Return)) s)
                end
            | _ => Some (set_inflight (Some (id, i, Return)) (set_queue (queue s ++ [i]) s))
            end
          else Some (ill s)
      | _ => Some (ill s)
      end
  end.

(** The interleaving: either thread makes a step, the runner stops the domain, or
    time passes. *)
Inductive label := LLoop | LFire (id : nat) | LTimer | LStop | LTime (dt : Z).

Definition step (l : label) (s : Sys) : option Sys :=
  match l with
  | LLoop => loop_step s
  | LFire id => timer_fire id s
  | LTimer => timer_step s
  | LStop => begin_stop s
  | LTime dt =>
      if 0 <=? dt
      then Some (mkSys (rest s) (pos s) (op s) (nextOp s) (queue s) (timers s) (nextId s) (inflight s)
                   (stop s) (registered s) (now s + dt) (log s) (bad s))
      else None
  end.

Fixpoint run (ls : list label) (s : Sys) : option Sys :=
  match ls with
  | [] => Some s
  | l :: ls => s1 ← step l s; run ls s1
  end.

(** A domain that has started its task at time [t0] ([starts_on]: the first await
    is of its scheduler). *)
Definition start (t0 : Z) (p : list await) : Sys :=
  mkSys (Schedule :: p) Resumed None 0 [] ∅ 0 None false false t0 [] false.

End Program.

(** ** Without a stop in between: the invariant *)

Section Invariant.
Context (t0 : Z) (p : list await).

(** No callback of the current operation is in flight. *)
Definition quiet (f : option (nat * nat * callback)) : Prop :=
  match f with None | Some (_, _, Return) => True | _ => False end.

(** A timed operation between [ScheduleAt] and its execution: its timer is pending,
    or its callback is in flight, or it is queued. *)
Definition scheduled (i : nat) (d : Z) (st : State) (s : Sys) : Prop :=
  match inflight s with
  | Some (_, j, ResetId) | Some (_, j, CompareExchange) =>
      j = i /\ timers s = ∅ /\ queue s = [] /\ st = Pending /\ d <= now s
  | Some (_, j, EnqueueThis) => j = i /\ timers s = ∅ /\ queue s = [] /\ st = TimerWon /\ d <= now s
  | _ => (exists id, timers s = {[ id := (d, i) ]}) /\ queue s = [] /\ st = Pending \/
         timers s = ∅ /\ queue s = [i] /\ st = TimerWon /\ d <= now s
  end.

Definition calm (s : Sys) : Prop := queue s = [] /\ timers s = ∅ /\ quiet (inflight s).

(** The time that must have passed when the awaits before [rest] are over. *)
Definition owed (s : Sys) : Z := t0 + total_delay p - total_delay (rest s).

(** The operations completed so far are the first [n]. *)
Definition done_upto (n : nat) (s : Sys) : Prop := (fun e => e.1.1.1) <$> log s = seq 0 n.

Definition shape (s : Sys) : Prop :=
  match pos s with
  | Resumed => op s = None /\ registered s = false /\ calm s /\ done_upto (nextOp s) s /\ owed s <= now s
  | Ended | StopDrain | StopReset | Stopped =>
      op s = None /\ registered s = false /\ calm s /\ done_upto (nextOp s) s /\ owed s <= now s /\ rest s = []
  | StartReg | StartSchedule =>
      exists i d t, op s = Some (i, Timed d Pending t) /\ nextOp s = S i /\ calm s /\ done_upto i s /\ owed s <= d
  | StartAssign _ =>
      exists i d st t, op s = Some (i, Timed d st t) /\ nextOp s = S i /\ scheduled i d st s /\ done_upto i s /\ owed s <= d
  | Draining =>
      exists i, nextOp s = S i /\ done_upto i s /\
        ((op s = Some (i, Loop) /\ registered s = false /\ queue s = [i] /\ timers s = ∅ /\
          quiet (inflight s) /\ owed s <= now s) \/
         (exists d st t, op s = Some (i, Timed d st t) /\ scheduled i d st s /\ owed s <= d))
  | Destroying sg | DestroyCancel sg _ =>
      sg = SetValue /\ is_Some (op s) /\ calm s /\ done_upto (nextOp s) s /\ owed s <= now s /\
      (pos s = Destroying sg \/ registered s = false)
  | _ => False
  end.

Definition is_stop (q : position) : bool :=
  match q with StopDrain | StopReset | Stopped => true | _ => false end.

Record Inv (s : Sys) : Prop := {
  inv_bad : bad s = false;
  inv_shape : shape s;
  inv_stop : stop s = is_stop (pos s);
  inv_count : (nextOp s + length (rest s) = S (length p))%nat;
  inv_log : Forall (fun e => e.1.1.2 = SetValue /\ forall d, e.1.2 = Some d -> d <= e.2) (log s) }.

Lemma start_thread_inv : Inv (start t0 p).
Proof.
  split; cbn; try done.
  split_and!; try done. unfold owed. cbn. fold (total_delay p). lia.
Qed.

Lemma log_snoc (l : list (nat * Signal * option Z * Z)) n o d t :
  (fun e => e.1.1.1) <$> l = seq 0 n ->
  (fun e => e.1.1.1) <$> (l ++ [(n, o, d, t)]) = seq 0 (S n).
Proof. intros H. by rewrite fmap_app, H, seq_S. Qed.

(** The operation at the head of the queue is executed. *)
Lemma Inv_execute s i q :
  Inv s -> pos s = Draining -> queue s = i :: q -> Inv (execute i (set_queue q s)).
Proof.
  intros [Hb Hs Hst Hc Hl] Hp Hq. unfold shape in Hs. rewrite Hp in Hs, Hst.
  destruct Hs as (j & Hn & Hd & Hs).
  assert (i = j /\ q = [] /\ exists o, op s = Some (j, o) /\ timers s = ∅ /\ quiet (inflight s) /\
    owed s <= now s /\ (forall d st t, o = Timed d st t -> d <= now s)) as (-> & -> & o & Ho & Ht & Hf & Hw & Hdl).
  { destruct Hs as [(Ho & Hr & Hq' & Ht & Hf & Hw)|(d & st & t & Ho & Hs & Hw)].
    - rewrite Hq in Hq'. simplify_eq. eauto 10 with congruence.
    - unfold scheduled in Hs. destruct (inflight s) as [[[? ?] []]|] eqn:Ef; rewrite Hq in Hs; try naive_solver.
      + destruct Hs as [(_ & ? & _)|(Ht & ? & -> & Hdn)]; simplify_eq. split_and!; [done..|].
        eexists. split_and!; [done|done|done|lia|]. intros; simplify_eq; lia.
      + destruct Hs as [(_ & ? & _)|(Ht & ? & -> & Hdn)]; simplify_eq. split_and!; [done..|].
        eexists. split_and!; [done|done|done|lia|]. intros; simplify_eq; lia. }
  unfold execute. cbn [op set_queue stop]. rewrite Ho, decide_True by done. rewrite Hst. cbn.
  split; cbn; try done.
  - split_and!; try done. unfold done_upto. cbn. rewrite Hn. by apply log_snoc. by left.
  - apply Forall_app. split; [done|]. constructor; [|done]. cbn. split; [done|].
    intros d Hd'. destruct o; simplify_eq. by eapply Hdl.
Qed.

Lemma Inv_loop s s' : Inv s -> loop_step s = Some s' -> Inv s'.
Proof.
  intros HI Hs. pose proof HI as [Hb Hsh Hst Hc Hl]. unfold loop_step in Hs. unfold shape in Hsh.
  destruct (pos s) eqn:Hp; try done.
  - (* Resumed *) injection Hs as <-. destruct Hsh as (Ho & Hr & (Hq & Ht & Hf) & Hd & Hw).
    unfold await_next. destruct (rest s) as [|[|d] r] eqn:Er.
    + split; cbn; try done; by rewrite ?Er.
    + split; cbn; try done; [|cbn in Hc; lia]. unfold shape. cbn.
      exists (nextOp s). split_and!; try done. left. split_and!; try done; [by rewrite Hq|].
      unfold owed in *. cbn. rewrite Er in Hw. done.
    + split; cbn; try done; [|cbn in Hc; lia]. unfold shape. cbn.
      exists (nextOp s), (now s + d), None. split_and!; try done.
      unfold owed in *. cbn. rewrite Er in Hw. cbn in Hw. fold (total_delay r) in *. lia.
  - (* StartReg *) injection Hs as <-. split; cbn; done.
  - (* StartSchedule *) destruct Hsh as (i & d & t & Ho & Hn & (Hq & Ht & Hf) & Hd & Hw).
    rewrite Ho in Hs. injection Hs as <-. split; cbn; try done. unfold shape. cbn.
    exists i, d, Pending, t. split_and!; try done. unfold scheduled. cbn.
    assert (<[nextId s:=(d, i)]> (timers s) = {[ nextId s := (d, i) ]}) as -> by (by rewrite Ht).
    destruct (inflight s) as [[[? ?] []]|]; try done; left; eauto.
  - (* StartAssign *) destruct Hsh as (i & d & st & t & Ho & Hn & Hsc & Hd & Hw).
    rewrite Ho in Hs. injection Hs as <-. split; cbn; try done. unfold shape. cbn.
    exists i. split_and!; try done. right. by exists d, st, (Some id).
  - (* Draining *) destruct (queue s) as [|i q] eqn:Hq; [done|]. injection Hs as <-. by apply Inv_execute.
  - (* Destroying *) destruct Hsh as (-> & [[i o] Ho] & (Hq & Ht & Hf) & Hd & Hw & _). rewrite Ho in Hs.
    destruct o as [|d st [id|]]; injection Hs as <-; split; cbn; try done; unfold shape; cbn; split_and!; try done; by right.
  - (* DestroyCancel *) destruct Hsh as (-> & _ & (Hq & Ht & Hf) & Hd & Hw & [?|Hr]); [done|].
    assert (cancel id s = Some (set_timers (delete id (timers s)) s) \/ cancel id s = None) as [Hca|Hca]
      by (unfold cancel; repeat case_match; auto).
    + rewrite Hca in Hs. injection Hs as <-. split; cbn; try done. unfold shape. cbn.
      split_and!; try done. unfold calm. cbn. rewrite Ht, delete_empty. done.
    + by rewrite Hca in Hs.
  - (* StopDrain *) destruct Hsh as (Ho & Hr & (Hq & Ht & Hf) & Hd & Hw & Hre). rewrite Hq in Hs. injection Hs as <-.
    split; cbn; done.
  - (* StopReset *) destruct Hsh as (Ho & Hr & (Hq & Ht & Hf) & Hd & Hw & Hre). rewrite Ho in Hs. injection Hs as <-.
    split; cbn; done.
Qed.

(** The positions in which the timer thread and the current operation meet. *)
Definition waiting (s : Sys) : Prop :=
  match pos s with StartAssign _ | Draining => True | _ => False end.

(** What the timer thread leaves alone. *)
Definition same_loop (s s' : Sys) : Prop :=
  rest s' = rest s /\ pos s' = pos s /\ nextOp s' = nextOp s /\ stop s' = stop s /\
  registered s' = registered s /\ now s' = now s /\ log s' = log s /\ bad s' = bad s.

Lemma Inv_waiting s i d st st' t t' s' :
  Inv s -> waiting s -> op s = Some (i, Timed d st t) -> same_loop s s' ->
  op s' = Some (i, Timed d st' t') -> scheduled i d st' s' -> Inv s'.
Proof.
  intros [Hb Hs Hst Hc Hl] Hw Ho (E1 & E2 & E3 & E4 & E5 & E6 & E7 & E8) Ho' Hsc.
  split; rewrite ?E1, ?E2, ?E3, ?E4, ?E7, ?E8; try done.
  unfold shape, waiting, done_upto, owed in *. rewrite E2. destruct (pos s); try done; rewrite E1, E3, E7.
  - destruct Hs as (i0 & d0 & st0 & t0' & Ho0 & Hn & _ & Hd & Hw0). simplify_eq. eauto 10.
  - destruct Hs as (i0 & Hn & Hd & [(Ho0 & _)|(d0 & st0 & t0' & Ho0 & _ & Hw0)]); simplify_eq.
    exists i0. split_and!; try done. right. eauto 10.
Qed.

(** Where there is something for the timer thread to do, the current operation waits
    for it. *)
Lemma meets s :
  Inv s -> timers s <> ∅ \/ ~ quiet (inflight s) ->
  waiting s /\ exists i d st t, op s = Some (i, Timed d st t) /\ scheduled i d st s.
Proof.
  intros [_ Hs _ _ _] Ht. unfold shape, calm, waiting in *. destruct (pos s); try naive_solver.
Qed.

Lemma Inv_fire s s' id : Inv s -> timer_fire id s = Some s' -> Inv s'.
Proof.
  intros HI Hs. unfold timer_fire in Hs. destruct (inflight s) eqn:Hf; [done|].
  destruct (timers s !! id) as [[d i]|] eqn:Ht; [|done].
  destruct (Z.leb_spec d (now s)) as [Hd|]; [|done]. injection Hs as <-.
  destruct (meets s HI) as (Hw & i0 & d0 & st & t & Ho & Hsc).
  { left. intros E. by rewrite E, lookup_empty in Ht. }
  unfold scheduled in Hsc. rewrite Hf in Hsc.
  destruct Hsc as [([k Hk] & Hq & ->)|(Hk & _)]; [|by rewrite Hk, lookup_empty in Ht].
  rewrite Hk in Ht. apply lookup_singleton_Some in Ht as [-> [= -> ->]].
  eapply (Inv_waiting s i d Pending Pending); [done|done|done|done|done|].
  cbn. by rewrite Hk, delete_singleton_eq.
Qed.

Lemma Inv_timer s s' : Inv s -> timer_step s = Some s' -> Inv s'.
Proof.
  intros HI Hs. unfold timer_step in Hs. destruct (inflight s) as [[[id i] c]|] eqn:Hf; [|done].
  destruct (decide (c = Return)) as [->|Hc].
  - injection Hs as <-. destruct HI as [Hb Hsh Hst Hcn Hl]. split; try done.
    unfold shape, calm, scheduled, done_upto, owed in *. cbn. rewrite Hf in Hsh.
    destruct (pos s); naive_solver.
  - destruct (meets s HI) as (Hw & i0 & d & st & t & Ho & Hsc); [right; rewrite Hf; destruct c; naive_solver|].
    pose proof Hsc as Hsc'. unfold scheduled in Hsc. rewrite Hf in Hsc.
    destruct c; try done; destruct Hsc as (-> & Ht & Hq & -> & Hd);
      rewrite Ho, decide_True in Hs by done; injection Hs as <-;
      (eapply Inv_waiting; [done|done|done|done|done|]); cbn; try done.
    right. by rewrite Hq.
Qed.

Lemma Inv_time s s' dt : Inv s -> step (LTime dt) s = Some s' -> Inv s'.
Proof.
  intros [Hb Hs Hst Hc Hl] Hst'. cbn in Hst'. destruct (Z.leb_spec 0 dt) as [Hdt|]; [|done]. injection Hst' as <-.
  match goal with |- Inv ?x => set (s1 := x) end.
  assert (forall i d st, scheduled i d st s -> scheduled i d st s1) as Hsc.
  { intros i d st. unfold scheduled. cbn. destruct (inflight s) as [[[? ?] []]|]; intuition lia. }
  assert (now s <= now s1) as Hn by (cbn; lia).
  assert (owed s1 = owed s) as Ho by done.
  split; try done. unfold shape in *. change (pos s1) with (pos s). destruct (pos s); try done; rewrite Ho; cbn.
  all: try (destruct_and?; split_and!; try done; lia).
  - destruct Hs as (i & d & st & t & ? & ? & ? & ? & ?). exists i, d, st, t. split_and!; auto.
  - destruct Hs as (i & ? & ? & [?|(d & st & t & ? & ? & ?)]); exists i; split_and!; try done.
    + left. destruct_and?. split_and!; try done. lia.
    + right. exists d, st, t. auto.
Qed.

Lemma Inv_stop s s' : Inv s -> pos s = Ended -> begin_stop s = Some s' -> Inv s'.
Proof.
  intros [Hb Hs Hst Hc Hl] Hp Hbs. unfold begin_stop in Hbs. unfold shape in Hs. rewrite Hp in *.
  destruct Hs as (Ho & Hr & Hca & Hd & Hw & Hre). rewrite Hr in Hbs. injection Hbs as <-. split; cbn; done.
Qed.

(** *** Every run is finite, apart from the passing of time *)

Definition pos_work (q : position) : nat :=
  match q with
  | StartReg => 16 | StartSchedule => 15 | StartAssign _ => 8 | Draining => 7 | Destroying _ => 6
  | DestroyCancel _ _ => 5 | Resumed => 4 | Ended => 3 | StopDrain => 2 | StopReset => 1 | _ => 0
  end.

Definition flight_work (f : option (nat * nat * callback)) : nat :=
  match f with
  | None => 0
  | Some (_, _, ResetId) => 4 | Some (_, _, CompareExchange) => 3
  | Some (_, _, EnqueueThis) => 2 | Some (_, _, Return) => 1
  end.

Definition work (s : Sys) : nat :=
  20 * length (rest s) + pos_work (pos s) + 5 * size (timers s) + flight_work (inflight s).

Lemma loop_work s s' : Inv s -> loop_step s = Some s' -> (work s' < work s)%nat.
Proof.
  intros HI Hs. pose proof HI as [_ Hsh _ _ _]. unfold loop_step in Hs. unfold shape, calm in Hsh. unfold work.
  destruct (pos s) eqn:Hp; try done.
  - injection Hs as <-. unfold await_next. destruct (rest s) as [|[|d] r] eqn:Er; cbn; rewrite ?Er; cbn; lia.
  - injection Hs as <-. cbn. lia.
  - destruct Hsh as (i & d & t & Ho & _ & (_ & Ht & _) & _). rewrite Ho in Hs. injection Hs as <-. cbn.
    rewrite Ht. rewrite insert_empty, map_size_singleton, map_size_empty. lia.
  - destruct Hsh as (i & d & st & t & Ho & _). rewrite Ho in Hs. injection Hs as <-. cbn. lia.
  - destruct (queue s) as [|i q] eqn:Hq; [done|]. injection Hs as <-.
    pose proof (inv_bad _ (Inv_execute s i q HI Hp Hq)) as Hb. unfold execute in *.
    cbn [op set_queue] in *. destruct (op s) as [[j o]|]; [|done]. destruct (decide (j = i)); [|done]. cbn. lia.
  - destruct Hsh as (-> & [[i o] Ho] & _). rewrite Ho in Hs.
    destruct o as [|d st [id|]]; injection Hs as <-; cbn; lia.
  - destruct Hsh as (-> & _ & (_ & Ht & _) & _).
    assert (cancel id s = Some (set_timers (delete id (timers s)) s) \/ cancel id s = None) as [Hca|Hca]
      by (unfold cancel; repeat case_match; auto); rewrite Hca in Hs; [|done].
    injection Hs as <-. cbn. rewrite Ht, delete_empty. lia.
  - destruct Hsh as (_ & _ & (Hq & _) & _). rewrite Hq in Hs. injection Hs as <-. cbn. lia.
  - destruct Hsh as (Ho & _). rewrite Ho in Hs. injection Hs as <-. cbn. lia.
Qed.

Lemma timer_work s s' : Inv s -> timer_step s = Some s' -> (work s' < work s)%nat.
Proof.
  intros HI Hs. unfold timer_step in Hs. unfold work.
  destruct (inflight s) as [[[id i] c]|] eqn:Hf; [|done].
  destruct (decide (c = Return)) as [->|Hc]; [injection Hs as <-; cbn; lia|].
  destruct (meets s HI) as (_ & i0 & d & st & t & Ho & Hsc); [right; rewrite Hf; destruct c; naive_solver|].
  unfold scheduled in Hsc. rewrite Hf in Hsc.
  destruct c; try done; destruct Hsc as (-> & _ & _ & -> & _);
    rewrite Ho, decide_True in Hs by done; injection Hs as <-; cbn; lia.
Qed.

Lemma fire_work s s' id : timer_fire id s = Some s' -> (work s' < work s)%nat.
Proof.
  intros Hs. unfold timer_fire in Hs. unfold work. destruct (inflight s) eqn:Hf; [done|].
  destruct (timers s !! id) as [[d i]|] eqn:Ht; [|done]. destruct (d <=? now s); [|done]. injection Hs as <-. cbn.
  rewrite map_size_delete_Some by eauto.
  assert (size (timers s) <> 0%nat) by (intros E%map_size_empty_inv; by rewrite E, lookup_empty in Ht). lia.
Qed.

(** Labels other than the passing of time; a stop of the domain only after the task
    has ended. *)
Definition counts (l : label) : bool := match l with LTime _ => false | _ => true end.

Fixpoint stops_late (ls : list label) (s : Sys) : bool :=
  match ls with
  | [] => true
  | l :: ls =>
      match l, pos s with LStop, Ended => true | LStop, _ => false | _, _ => true end &&
      match step l s with Some s1 => stops_late ls s1 | None => true end
  end.

Lemma step_ok l s s' :
  Inv s -> (l = LStop -> pos s = Ended) -> step l s = Some s' ->
  Inv s' /\ ((if counts l then 1 else 0) + work s' <= work s)%nat.
Proof.
  intros HI Hl Hs. destruct l as [|id| | |dt]; cbn [counts]; cbn [step] in Hs.
  - split; [by eapply Inv_loop|]. pose proof (loop_work _ _ HI Hs). lia.
  - split; [by eapply Inv_fire|]. pose proof (fire_work _ _ _ Hs). lia.
  - split; [by eapply Inv_timer|]. pose proof (timer_work _ _ HI Hs). lia.
  - specialize (Hl eq_refl). split; [by eapply Inv_stop|].
    unfold begin_stop in Hs. rewrite Hl in Hs. injection Hs as <-. unfold work. cbn. rewrite Hl.
    destruct (registered s); cbn; lia.
  - split; [by eapply (Inv_time s s' dt)|]. destruct (0 <=? dt); [|done]. by injection Hs as <-.
Qed.

Lemma run_thread_ok ls s s' :
  Inv s -> stops_late ls s = true -> run ls s = Some s' ->
  Inv s' /\ (length (filter (fun l => counts l = true) ls) + work s' <= work s)%nat.
Proof.
  revert s. induction ls as [|l ls IH]; intros s HI Hl Hr; cbn in Hr.
  { simplify_eq. by split. }
  destruct (step l s) as [s1|] eqn:Es; [|done]. cbn [mbind option_bind] in Hr.
  cbn [stops_late] in Hl. rewrite Es in Hl. apply andb_true_iff in Hl as [Hl1 Hl2].
  destruct (step_ok l s s1 HI) as [HI1 Hw]; [intros ->; by destruct (pos s)|done|].
  destruct (IH s1 HI1 Hl2 Hr) as [HI' Hw']. split; [done|].
  rewrite filter_cons. case_decide as E; [rewrite E in Hw|destruct (counts l); [done|]]; cbn [length] in *; lia.
Qed.

(** Something can go on, or the task is over, or it waits for a timer that is not
    due. *)
Lemma Inv_thread_progress s :
  Inv s ->
  is_Some (loop_step s) \/ is_Some (timer_step s) \/ (exists id, is_Some (timer_fire id s)) \/
  (exists id d i, timers s !! id = Some (d, i) /\ now s < d) \/
  (pos s = Ended \/ pos s = Stopped) /\ inflight s = None.
Proof.
  intros HI. destruct (timer_step s) as [s1|] eqn:Et; [right; left; by eexists|].
  assert (inflight s = None) as Hf.
  { unfold timer_step in Et. repeat (case_match; try done). }
  pose proof HI as [_ Hs _ _ _]. unfold shape, scheduled, loop_step in *. rewrite Hf in Hs.
  destruct (pos s) eqn:Hp; try done; try (left; by eexists).
  - left. destruct Hs as (i & d & t & -> & _). by eexists.
  - left. destruct Hs as (i & d & st & t & -> & _). by eexists.
  - destruct Hs as (i & Hn & Hd & [(_ & _ & -> & _)|(d & st & t & _ & [([id Ht] & _)|(_ & -> & _)] & _)]);
      try (left; by eexists).
    right; right. destruct (Z.le_gt_cases d (now s)) as [Hle|Hgt].
    + left. exists id. unfold timer_fire. rewrite Hf, Ht, lookup_singleton_eq, (proj2 (Z.leb_le d (now s)) Hle).
      by eexists.
    + right; left. exists id, d, i. rewrite Ht. by rewrite lookup_singleton_eq.
  - left. destruct Hs as (-> & [[i [|? ? [?|]]] ->] & _); by eexists.
  - left. unfold cancel. rewrite Hf. by eexists.
  - right; right; right; right. auto.
  - left. destruct (queue s); by eexists.
  - left. destruct Hs as (-> & _). by eexists.
  - right; right; right; right. auto.
Qed.

(** C20: a domain with its default backend runs its task: for a task that awaits
    [schedule] and [schedule_after] senders one after the other, and for every
    interleaving of the thread of the loop with the timer thread and with time,
    the domain being stopped only after the task has ended: no operation state is
    used outside its lifetime; the operations are completed in their order, once
    each, with a value, and none before its deadline; apart from the passing of
    time every run is finite; and one of the threads can go on, or the current
    await waits for a timer that is not due yet, or the task has ended, all awaits
    done, all delays passed, and nothing left in the queue or in the backend. *)
Theorem default_domain_runs_task ls s :
  run ls (start t0 p) = Some s -> stops_late ls (start t0 p) = true ->
  bad s = false /\
  (exists n, (fun e => e.1.1.1) <$> log s = seq 0 n) /\
  Forall (fun e => e.1.1.2 = SetValue /\ forall d, e.1.2 = Some d -> d <= e.2) (log s) /\
  (length (filter (fun l => counts l = true) ls) <= 20 * length p + 24)%nat /\
  (is_Some (loop_step s) \/ is_Some (timer_step s) \/ (exists id, is_Some (timer_fire id s)) \/
   (exists id d i, timers s !! id = Some (d, i) /\ now s < d) \/
   (pos s = Ended \/ pos s = Stopped) /\ op s = None /\ queue s = [] /\ timers s = ∅ /\ inflight s = None /\
   (fun e => e.1.1.1) <$> log s = seq 0 (S (length p)) /\ t0 + total_delay p <= now s).
Proof.
  intros Hr Hl. destruct (run_thread_ok ls _ s start_thread_inv Hl Hr) as [HI Hw].
  pose proof HI as [Hb Hs _ Hc Hlog]. split_and!; try done.
  - unfold shape, done_upto in Hs. destruct (pos s); naive_solver.
  - unfold work in Hw. cbn in Hw. rewrite map_size_empty in Hw. lia.
  - destruct (Inv_thread_progress s HI) as [?|[?|[?|[?|[Hp Hf]]]]]; [tauto..|].
    do 4 right. split; [done|].
    assert (op s = None /\ calm s /\ done_upto (nextOp s) s /\ owed s <= now s /\ rest s = [])
      as (Ho & (Hq & Ht & _) & Hd & Hn & He) by (unfold shape in Hs; destruct Hp as [Hp|Hp]; rewrite Hp in Hs; tauto).
    unfold done_upto, owed in *. rewrite He in Hn, Hc. change (total_delay []) with 0 in Hn. cbn [length] in Hc.
    replace (S (length p)) with (nextOp s) by lia. split_and!; try done. lia.
Qed.

End Invariant.

(** ** A stop can overtake a timer *)

(** With the callback between its first statement and its last when the domain is
    stopped: the stop callback finds no timer to cancel and loses the
    compare-exchange, the drain finds nothing, and the operation state is
    destroyed, uncompleted, before the timer thread enqueues it. *)
Theorem stop_overtakes_timer :
  exists s, run ([LLoop; LLoop; LLoop; LLoop; LLoop; LLoop; LLoop] ++ [LTime 10; LFire 0; LTimer; LTimer] ++
                 [LStop; LLoop; LLoop; LLoop; LLoop] ++ [LTimer]) (start 0 [Delay 10]) = Some s /\
    pos s = Stopped /\ bad s = true /\
    log s = [(0%nat, SetValue, None, 0)].
Proof. eexists. split; [vm_compute; reflexivity|]. done. Qed.

Module ThreadExecRuns.

(** The task of [demo/pkg/exec/main.cpp], the timer firing before [timerId] is assigned, and the stop
    after the end. *)
Definition schedule : list label :=
  [LLoop; LLoop; LLoop; LLoop; LLoop; LLoop; LTime 10000000; LFire 0; LTimer; LLoop; LTimer; LTimer; LLoop; LLoop;
   LTimer; LLoop; LLoop; LStop; LLoop; LLoop].

Lemma default_domain_runs_task_witness :
  exists s, run schedule (start 0 (MainTask 0 0)) = Some s /\ bad s = false /\ pos s = Stopped /\
    10000000 <= now s.
Proof.
  destruct (run schedule (start 0 (MainTask 0 0))) as [s|] eqn:E; [|exfalso; revert E; vm_compute; discriminate].
  exists s. split; [done|].
  destruct (default_domain_runs_task 0 (MainTask 0 0) schedule s E) as (Hb & _); [vm_compute; reflexivity|].
  split; [exact Hb|]. revert E. vm_compute. intros [= <-]. split; [done|]. discriminate.
Defined.

End ThreadExecRuns.
